(* ===== verification/_CoqProject ===== *)
-Q . S2P
Prelude.v
Boson.v
PSlice.v
Bmt.v
BmtConc.v
BmtHasher.v
Crypto.v
Chunk.v
Encryption.v
Pipeline.v
HashTrie.v
FileTree.v
Joiner.v
Builder.v
StateStore.v
Cheque.v
AddressBook.v
Traffic.v
TrafficPay.v
Accounting.v
AccountingTraffic.v
Pseudosettle.v
BitVector.v
ChunkStore.v
Shed.v
FileStore.v
Mantaray.v
LocalStore.v
LocalStoreRefs.v
LocalStoreTypes.v
LocalStoreGc.v
LocalStoreOpen.v
KadMetrics.v
Kademlia.v
KadDepth.v
KadClosest.v
KadBalance.v
Routetab.v
RoutetabNet.v
Aco.v
ChunkInfo.v
ChunkInfoRuns.v
ChunkInfoBits.v
Retrieval.v
RetrievalRoutes.v
