(* ===== verification/Prelude.v ===== *)
(** * FavorX: verification library

    FavorX is a peer-to-peer storage node.  A file that is uploaded is cut into
    chunks of 256 KiB, each hashed by a binary Merkle tree (BMT) and possibly
    encrypted; the references of the chunks are collected in a trie of intermediate
    chunks whose root is the reference of the file.  The chunks are kept in a local
    store, which counts references and pins, collects garbage, and remembers which
    peers have which chunks.  The node keeps connections to peers by their proximity,
    and finds routes to nodes it is not connected to.  Traffic between peers is
    accounted, and debts are settled by cheques.  This library models these parts as
    executable definitions translated from the Go sources (paths below are relative to
    src/) and proves that they do what they are meant to do.

    ** Parts and files

    - [Prelude]: machine integers, bytes, slices, the [result] monad.
    - [Boson] (pkg/boson): addresses, proximity order, distance, chunks; [PSlice]
      (pkg/topology/pslice): peers by bin.
    - [Bmt], [BmtConc], [BmtHasher] (pkg/bmt): the reference hasher, the tree, the
      goroutines of [Hasher] as threads of single atomic steps, the hasher with its
      pool.  A run is any interleaving of calls and thread steps.
    - [Crypto] (pkg/crypto), [Chunk] (pkg/cac, pkg/soc): signatures, content-addressed
      and single-owner chunks, as clients of the class [BmtSum].
    - [Encryption] (pkg/encryption): chunk encryption and the decrypting store.
    - [Pipeline], [HashTrie], [Builder] (pkg/file/pipeline): feeder, trie writer and
      the composed pipelines; [FileTree]: the shape of the tree they store; [Joiner]
      (pkg/file/joiner): reading a file back.
    - [StateStore] (pkg/storage): the interface of the state store with its laws.
    - [Cheque], [AddressBook], [Traffic], [TrafficPay] (pkg/settlement/traffic): cheque
      store, address book and traffic service; the [*big.Int] counters are cells of a
      heap, since the code shares and changes them in place.
    - [Accounting] (pkg/accounting): the calls as functions and as threads under the
      locks of accounting peers with the settling goroutine and its channel, over the
      class [Settlement]; [AccountingTraffic]: the traffic service is an instance.
      [Pseudosettle] (pkg/settlement/pseudosettle): settlement without cheques.
    - [BitVector] (pkg/bitvector), [ChunkStore] (pkg/localstore/chunkstore): who has
      which chunks.
    - [Shed] (pkg/shed): indexes, counters, batches of both drivers and the schema over
      the class [Backend]; [FileStore] (pkg/localstore/filestore), [Mantaray]
      (pkg/localstore/marshal.go).
    - [LocalStore] (pkg/localstore): all modes of [Put], [Set], [Get], [Has], deletion
      of files and garbage collection, in a state and error monad whose errors keep
      the state reached; [LocalStoreRefs], [LocalStoreTypes], [LocalStoreGc] and
      [LocalStoreOpen] (with [New] and migration.go) hold its theorems.
    - [KadMetrics], [Kademlia] (pkg/topology/kademlia with its internal packages): peer
      counters, waiting peers, and the topology with each handler as a list of critical
      sections, which interleave; [KadDepth], [KadClosest] and [KadBalance] hold its
      theorems.
    - [Routetab] (pkg/routetab): table of paths, pending calls and the handlers of route
      requests and answers; [RoutetabNet]: networks of such nodes.
    - [ChunkInfo] (pkg/chunkinfo): searches for the peers that have a file, as threads
      whose steps are single accesses to the shared queues, channels and timeouts;
      [ChunkInfoRuns] and [ChunkInfoBits] hold its theorems.
    - [Aco] (pkg/retrieval/aco, pkg/retrieval/weight): scores and choice of routes;
      [Retrieval] (pkg/retrieval, pkg/netstore): fetching a chunk from a peer and
      serving one, over the class [Storer] and the definitions of [Accounting] and
      [ChunkInfo]; [RetrievalRoutes]: the loop over the routes with its goroutines.

    ** What the theorems show

    - Files: whatever the portions in which a file is written, plain or encrypted,
      feeding it ends with a reference or with the error of a failed put, of the reader or
      of the context, and the joiner reads the same bytes back, from any offset and in
      blocks of any size ([file_roundtrip], [FeedPipeline_total], [file_ReadAt],
      [file_IterateChunkAddresses]); the feeder and the trie writer refine a plain cut
      of the data and separate levels ([feed_correct], [trie_refines]).
    - BMT: every interleaving of the goroutines gives the reference hash, runs are
      finite, and the tree can be reused once the root was received ([Hash_correct],
      [Hash_terminates], [Hash_tree_reusable]).
    - Chunks: validity is exactly parsing, signature and address; signing and
      encryption round-trip ([New_valid], [Valid_spec], [Sign_valid],
      [Encrypt_roundtrip], [encrypted_chunk_roundtrip]).
    - Addresses and peers: proximity is the length of the common prefix and agrees
      with the distance; [PSlice] refines a set of peers.
    - Topology: once its handlers have finished, however they interleave, the stored
      depth is that of the connections ([kad_depth]), which is the greatest admissible
      one ([recalcDepth_max]); lookups give the nearest peers ([ClosestPeer_nearest],
      [ClosestPeers_sorted]); the pseudo addresses split every bin into slots, pruning
      keeps every slot filled, and only eligible peers are dialled
      ([generateCommonBinPrefixes_slots], [prune_keeps], [connect_offers]); a restart
      keeps the counters ([collector_restart]).
    - Routes: in every network every path and next hop of a node comes from a walk over
      links from the target to the node, without loops ([routes_sound]).
    - Retrieval: a node keeps and delivers valid chunks only and books no more than
      what changed hands ([retrieval_books]); the loop over the routes ends, with a
      valid chunk if with any ([RetrieveChunk_ends], [RetrieveChunk_valid]); routes are
      picked by weight without repetition while scores are positive
      ([PickIndex_weighted], [GetRouteAcoIndex_picks]).  Searches do not panic unless
      cancelled or given malformed names, and the holder of their lock can always go
      on ([chunkinfo_safe]); when a file counts as downloaded is
      characterised by the calls made ([download_iff]).
    - Local store: it refines a store that counts references and pins per address, where
      an address repeated within a call counts once with leveldb and each time with
      WiredTiger ([store_refines]); a store opened again gives the same answers
      ([store_restart]); all entries stay well-formed whatever calls succeed or fail ([store_typed]);
      [Put] succeeds on a database that does not fail, and chunks read back
      ([put_total]); garbage collection takes the entries accessed longest ago
      ([collectGarbage_oldest]); iteration visits an index in order ([Iterate_visits]).
      The tables of the chunk store are the sets of bits put and survive a restart.
    - Money: replayed or decreasing cheques earn nothing ([receive_all_credits]);
      in every interleaving accounting and settlement agree as long as no write fails,
      runs come to an end, and if nothing failed all debts end below the threshold
      ([accounting_agrees], [accounting_settles], [traffic_settles]); what a peer gets
      for nothing is bounded ([Debit_bounded]); counters of different peers never share memory
      ([counters_owned]).
    - Some theorems state behaviour that differs from the intent: [toggle_count] (the
      toggle after 2^31 uses), [subtrieSection_endless], [Pay_failed], [Pay_ok],
      [ReceiveCheque_any_beneficiary], [forward_repeats], [worker_blocked],
      [pulling_exceeded], [search_crashes], [handler_panics], [failure_unrecorded],
      [RetrieveChunk_leaks], [RetrieveChunk_skips], [delete_repeated].

    ** Modelling conventions

    Integers are [Z] with the wrap-around of their width written out ([u8], [u64],
    [i64], [i32]) where it can matter; bytes are integers from 0 to 255, slices are
    lists, and a nil slice is told from an empty one only where the code does.  A
    fallible function returns a [result]; a run-time panic is an error value of its own.
    A mutex that is held for a whole call makes the call one step; where calls
    interleave, they are threads or events of a step relation.  Metrics, logging and
    tracing are left out.

    Code outside the repository is a parameter or a class with laws that its
    documentation gives: Keccak256 (only its output size), secp256k1 ([Ecdsa]), random
    bytes, the databases ([Backend], [StateStorer]), JSON ([Codec]), the chain
    and the network ([Env] of the traffic service), clocks and free memory.  Each
    theorem that uses one has a witness that instantiates it.

    ** Fuel

    Recursion that is not structural takes fuel, and running out of it is a value no
    run of the code gives.  [subtrieSection] gets 64 rounds: its size is
    multiplied by a power of two that is at least 2^12 in each, so that it is 0 modulo
    2^64 long before, and nothing changes any more.  [readAtOffset] and
    [processChunkAddresses] get 8 levels, since the trie writer has nine cursors and
    its tree is at most 7 levels high; [write_loop], [gather] and [split] get the length
    of the data; [ref_hash] and [size_loop] the logarithm of the size.  The theorems above hold with these amounts, or for every
    amount that is large enough.  The walk over the chunks of a file in the local store
    ([getChunk]) takes any fuel: the theorems hold for all of it.

    ** Not modelled

    The network (p2p, libp2p, hive2, multicast, netrelay): timers, random
    choices and streams over third-party code.  Of kademlia, the timers of its loop,
    boot nodes and pings, and other handlers acting while a depth is being computed; of routetab, underlay addresses and relayed streams, and the
    interleaving of handlers within one node; of retrieval, the grouping of equal calls
    and the interleaving of other calls with a delivery that is being stored; of
    chunkinfo, subscriptions and the cleaning of discovered peers.  The HTTP and RPC interfaces, start-up, configuration, key files,
    contract bindings and transactions: pure I/O or generated.  Manifests of
    pkg/manifest and what traverses them (traversal, pinning, fileinfo): a third-party
    library.  Of the local store, the loop of the collecting worker, [Close], and
    export and import; of the file store, filtering and sorting by reflection; of the
    WiredTiger driver, everything but the behaviour of its batches. *)

From Stdlib Require Import ZArith Lia.
From stdpp Require Import base gmap list numbers strings sorting.

Open Scope Z_scope.

(** ** Machine integers

    A Go integer of width [w] is a [Z]; every operation that can leave the
    range is followed by the wrap-around of its type. *)

Definition u8 (z : Z) : Z := z mod 2 ^ 8.
Definition u32 (z : Z) : Z := z mod 2 ^ 32.
Definition u64 (z : Z) : Z := z mod 2 ^ 64.
Definition i64 (z : Z) : Z := (z + 2 ^ 63) mod 2 ^ 64 - 2 ^ 63.

Definition is_byte (z : Z) : Prop := 0 <= z < 256.

Abbreviation bytes := (list Z).

Definition bytes_ok (l : bytes) : Prop := Forall is_byte l.

(** Length of a Go slice, as an [int]. *)
Abbreviation zlen l := (Z.of_nat (length l)).

#[export] Instance is_byte_dec z : Decision (is_byte z).
Proof. unfold is_byte. apply _. Defined.

(** ** Results

    A Go function returning [(T, error)] is a [result]: the caller sees either
    the value or the error. *)

Inductive result (E A : Type) : Type :=
| Ok (a : A)
| Err (e : E).
Arguments Ok {E A} a.
Arguments Err {E A} e.

#[export] Instance result_ret {E} : MRet (result E) := fun A a => Ok a.
#[export] Instance result_bind {E} : MBind (result E) :=
  fun A B f m => match m with Ok a => f a | Err e => Err e end.
#[export] Instance result_fmap {E} : FMap (result E) :=
  fun A B f m => match m with Ok a => Ok (f a) | Err e => Err e end.

Definition is_ok {E A} (r : result E A) : bool :=
  match r with Ok _ => true | Err _ => false end.

#[export] Instance result_eq_dec {E A} `{EqDecision E, EqDecision A} :
  EqDecision (result E A).
Proof. solve_decision. Defined.

(** ** Automation *)

Create HintDb go.

(** Splits conjunctions and existentials of the context. *)
Ltac split_hyps :=
  repeat match goal with
  | H : _ ∧ _ |- _ => destruct H
  | H : ∃ _, _ |- _ => destruct H
  end.

(** Case analysis on an innermost scrutinee of a [match] or [if] of the goal. *)
Ltac no_match x :=
  lazymatch x with
  | context [match _ with _ => _ end] => fail
  | _ => idtac
  end.

Ltac case_goal :=
  match goal with
  | |- context [match ?x with _ => _ end] => no_match x; destruct x eqn:?
  end.

(** The same in a hypothesis. *)
Ltac case_hyp H :=
  match type of H with
  | context [match ?x with _ => _ end] => no_match x; destruct x eqn:?
  end.

(** Turns boolean comparisons of the context into propositions for [lia]. *)
Ltac bool_hyps :=
  repeat match goal with
  | H : (_ && _)%bool = true |- _ => apply andb_prop in H as [??]
  | H : (_ || _)%bool = false |- _ => apply orb_false_elim in H as [??]
  | H : negb _ = true |- _ => apply negb_true_iff in H
  | H : negb _ = false |- _ => apply negb_false_iff in H
  | H : (_ <? _) = true |- _ => apply Z.ltb_lt in H
  | H : (_ <? _) = false |- _ => apply Z.ltb_ge in H
  | H : (_ <=? _) = true |- _ => apply Z.leb_le in H
  | H : (_ <=? _) = false |- _ => apply Z.leb_gt in H
  | H : (_ =? _) = true |- _ => apply Z.eqb_eq in H
  | H : (_ =? _) = false |- _ => apply Z.eqb_neq in H
  end.

Ltac bool_lia := bool_hyps; lia.

(** ** Integer lemmas *)

Lemma u8_small z : 0 <= z < 256 -> u8 z = z.
Proof. intros. unfold u8. apply Z.mod_small. lia. Qed.

Lemma u8_range z : 0 <= u8 z < 256.
Proof. unfold u8. pose proof (Z.mod_pos_bound z (2 ^ 8)). lia. Qed.

Lemma u8_le z : 0 <= z -> u8 z <= z.
Proof. intros. unfold u8. apply Z.mod_le; lia. Qed.

Lemma u64_small z : 0 <= z < 2 ^ 64 -> u64 z = z.
Proof. intros. unfold u64. by apply Z.mod_small. Qed.

Lemma i64_small z : - 2 ^ 63 <= z < 2 ^ 63 -> i64 z = z.
Proof. intros. unfold i64. rewrite Z.mod_small; lia. Qed.

#[export] Hint Resolve u8_range : go.

(** ** Bytes *)

Lemma bytes_ok_app a b : bytes_ok (a ++ b) <-> bytes_ok a /\ bytes_ok b.
Proof. apply Forall_app. Qed.

Lemma bytes_ok_take n l : bytes_ok l -> bytes_ok (take n l).
Proof. apply Forall_take. Qed.

Lemma bytes_ok_drop n l : bytes_ok l -> bytes_ok (drop n l).
Proof. apply Forall_drop. Qed.

Lemma is_byte_lxor a b : is_byte a -> is_byte b -> is_byte (Z.lxor a b).
Proof.
  unfold is_byte. intros Ha Hb. split.
  - apply Z.lxor_nonneg. lia.
  - destruct (decide (Z.lxor a b = 0)) as [->|Hne]; [lia|].
    assert (0 <= Z.lxor a b) by (apply Z.lxor_nonneg; lia).
    apply Z.log2_lt_pow2 with (b := 8); [lia|].
    eapply Z.le_lt_trans; [apply Z.log2_lxor; lia|].
    apply Z.max_lub_lt.
    + destruct (decide (a = 0)) as [->|]; [done|]. apply Z.log2_lt_pow2; lia.
    + destruct (decide (b = 0)) as [->|]; [done|]. apply Z.log2_lt_pow2; lia.
Qed.

#[export] Hint Resolve bytes_ok_take bytes_ok_drop is_byte_lxor : go.

(** *** Little-endian integers

    [binary.LittleEndian.PutUint64] and [Uint64] are the instances at eight
    bytes of the following pair. *)

Fixpoint le_put (n : nat) (z : Z) : bytes :=
  match n with
  | O => []
  | S n => z mod 256 :: le_put n (z / 256)
  end.

Fixpoint le_get (l : bytes) : Z :=
  match l with
  | [] => 0
  | x :: l => x + 256 * le_get l
  end.

Definition PutUint64 (z : Z) : bytes := le_put 8 z.
Definition Uint64 (l : bytes) : Z := le_get (take 8 l).
Definition PutUint32 (z : Z) : bytes := le_put 4 z.

Lemma length_le_put n z : length (le_put n z) = n.
Proof. revert z. induction n; intros; simpl; [done|]. by rewrite IHn. Qed.

Lemma length_PutUint64 z : length (PutUint64 z) = 8%nat.
Proof. apply length_le_put. Qed.

Lemma le_put_ok n z : bytes_ok (le_put n z).
Proof.
  revert z. induction n; intros; simpl; constructor; [|apply IHn].
  unfold is_byte. pose proof (Z.mod_pos_bound z 256). lia.
Qed.

Lemma le_get_put n z : le_get (le_put n z) = z mod 2 ^ (8 * Z.of_nat n).
Proof.
  revert z. induction n as [|n IH]; intros z; [by rewrite Z.mod_1_r|].
  cbn [le_put le_get]. rewrite IH.
  replace (8 * Z.of_nat (S n)) with (8 + 8 * Z.of_nat n) by lia.
  rewrite Z.pow_add_r by lia. change (2 ^ 8) with 256.
  rewrite (Z.rem_mul_r z 256) by (try apply Z.pow_nonzero; lia).
  done.
Qed.

Lemma le_put_get l : bytes_ok l -> le_put (length l) (le_get l) = l.
Proof.
  induction 1 as [|x l Hx _ IH]; [done|]. unfold is_byte in Hx. cbn [length le_get le_put].
  rewrite (Z.mul_comm 256), Z.mod_add by lia.
  rewrite Z.mod_small by done.
  rewrite Z.div_add by lia. rewrite (Z.div_small x) by done.
  by rewrite Z.add_0_l, IH.
Qed.

Lemma Uint64_PutUint64 z l : 0 <= z < 2 ^ 64 -> Uint64 (PutUint64 z ++ l) = z.
Proof.
  intros Hz. unfold Uint64. rewrite take_app_le by (by rewrite length_PutUint64).
  rewrite take_ge by (by rewrite length_PutUint64).
  unfold PutUint64. rewrite le_get_put. change (8 * Z.of_nat 8) with 64.
  by apply Z.mod_small.
Qed.

(** ** Slices *)

(** The Go expression [l\[i:j\]]. *)
Definition slice {A} (i j : nat) (l : list A) : list A := take (j - i) (drop i l).

(** [copy(dst\[i:\], src)] on a destination of fixed length. *)
Definition copy_at {A} (i : nat) (src dst : list A) : list A :=
  take i dst ++ take (length dst - i) src ++ drop (i + length src) dst.

Lemma length_copy_at {A} i (src dst : list A) :
  length (copy_at i src dst) = length dst.
Proof. unfold copy_at. rewrite !length_app, !length_take, length_drop. lia. Qed.

Lemma lookup_copy_at {A} i k (src dst : list A) : (i <= length dst)%nat ->
  copy_at i src dst !! k =
    if decide (i <= k < i + length src /\ k < length dst)%nat then src !! (k - i)%nat else dst !! k.
Proof.
  intros Hi. unfold copy_at. destruct (decide (k < i)%nat) as [Hk|Hk].
  { rewrite lookup_app_l by (rewrite length_take; lia). rewrite lookup_take_lt by done.
    by rewrite decide_False by lia. }
  rewrite lookup_app_r by (rewrite length_take; lia). rewrite length_take, Nat.min_l by done.
  case_decide as Hd.
  - rewrite lookup_app_l by (rewrite length_take; lia). rewrite lookup_take_lt by lia. done.
  - destruct (decide (k < length dst)%nat).
    + rewrite lookup_app_r by (rewrite length_take; lia). rewrite length_take, lookup_drop. f_equal. lia.
    + rewrite (lookup_ge_None_2 dst) by lia. apply lookup_ge_None_2.
      rewrite length_app, length_take, length_drop. lia.
Qed.

Lemma drop_0_take {A} n (l : list A) : (length l <= n)%nat -> take n l = l.
Proof. apply take_ge. Qed.
