(* ===== verification/Boson.v ===== *)
(** * Addresses, proximity and distance (pkg/boson)

    Overlay and chunk addresses, their hexadecimal text form, the proximity
    order that indexes the Kademlia bins and the XOR distance.  The theorems
    relate the two bit-scanning loops to the length of the common bit prefix,
    the byte-wise comparison [DistanceCmp] to the big-integer [Distance], and
    the proximity order to the distance. *)

From Stdlib Require Import ZArith Lia.
From stdpp Require Import base gmap list numbers.
From S2P Require Import Prelude.

Open Scope Z_scope.

(** ** Constants *)

Definition SpanSize : nat := 8.
Definition SectionSize : nat := 32.
Definition HashSize : nat := 32.
Definition Branches : Z := 128 * 64.
Definition ChunkSize : Z := 32 * Branches.
Definition MaxPO : Z := 31.
Definition ExtendedPO : Z := MaxPO + 5.
Definition MaxBins : Z := MaxPO + 1.

(** ** Addresses

    [type Address struct { b \[\]byte }]; the nil and the empty slice are equal
    for every operation of the package. *)

Abbreviation Address := (list Z).

Definition ZeroAddress : Address := [].

Definition Equal (a b : Address) : bool := bool_decide (a = b).

Fixpoint MemberOf (a : Address) (addrs : list Address) : bool :=
  match addrs with
  | [] => false
  | v :: addrs => if Equal v a then true else MemberOf a addrs
  end.

Definition IsZero (a : Address) : bool := Equal a ZeroAddress.

(** *** Hexadecimal form

    A Go string is its byte sequence.  [hex.EncodeToString] writes lower-case
    digits; [hex.DecodeString] reads pairs of digits of either case, reports an
    invalid character before an odd length. *)

Inductive hexError := InvalidByteError (c : Z) | ErrLength.

Definition hexDigit (d : Z) : Z := if d <? 10 then 48 + d else 87 + d.

Definition fromHexChar (c : Z) : option Z :=
  if (48 <=? c) && (c <=? 57) then Some (c - 48)
  else if (97 <=? c) && (c <=? 102) then Some (c - 87)
  else if (65 <=? c) && (c <=? 70) then Some (c - 55)
  else None.

Fixpoint EncodeToString (l : bytes) : bytes :=
  match l with
  | [] => []
  | x :: l => hexDigit (x / 16) :: hexDigit (x mod 16) :: EncodeToString l
  end.

Fixpoint DecodeString (s : bytes) : result hexError bytes :=
  match s with
  | [] => Ok []
  | [p] => match fromHexChar p with
           | None => Err (InvalidByteError p)
           | Some _ => Err ErrLength
           end
  | p :: q :: s =>
      match fromHexChar p with
      | None => Err (InvalidByteError p)
      | Some a =>
          match fromHexChar q with
          | None => Err (InvalidByteError q)
          | Some b => rest ← DecodeString s; Ok (a * 16 + b :: rest)
          end
      end
  end.

Definition ParseHexAddress (s : bytes) : result hexError Address := DecodeString s.

Definition String (a : Address) : bytes := EncodeToString a.

(** ** Chunks *)

Record chunk := Chunk {
  addr : Address;
  sdata : bytes;
  tagID : Z;
}.

Definition NewChunk (a : Address) (data : bytes) : chunk := Chunk a data 0.

Definition WithTagID (c : chunk) (t : Z) : chunk := Chunk (addr c) (sdata c) t.

Definition chunk_Equal (c cp : chunk) : bool :=
  Equal (addr c) (addr cp) && bool_decide (sdata c = sdata cp).

(** ** Proximity order *)

(** The inner loop [for j := 0; j < 8; j++] over the bits of one XORed byte. *)
Fixpoint scan_bits (oxo j : Z) (n : nat) : option Z :=
  match n with
  | O => None
  | S n =>
      if negb (Z.land (Z.shiftr oxo (7 - j)) 1 =? 0) then Some j
      else scan_bits oxo (j + 1) n
  end.

(** The outer loop [for i := 0; i < b; i++]; [n] is [b - i]. *)
Fixpoint scan_bytes (one other : bytes) (i : Z) (n : nat) : option Z :=
  match n, one, other with
  | S n, x :: one, y :: other =>
      match scan_bits (Z.lxor x y) 0 8 with
      | Some j => Some (u8 (i * 8 + j))
      | None => scan_bytes one other (i + 1) n
      end
  | _, _, _ => None
  end.

(** The number [b] of bytes scanned: lengths are truncated to [uint8]. *)
Definition scan_len (po : Z) (one other : bytes) : Z :=
  let b := u8 (po / 8 + 1) in
  let l := u8 (zlen one) in
  let b := if l <? b then l else b in
  let l := u8 (zlen other) in
  if l <? b then l else b.

Definition Proximity (one other : bytes) : Z :=
  match scan_bytes one other 0 (Z.to_nat (scan_len MaxPO one other)) with
  | Some r => r
  | None => MaxPO
  end.

Definition ExtendedProximity (one other : bytes) : Z :=
  match scan_bytes one other 0 (Z.to_nat (scan_len ExtendedPO one other)) with
  | Some r => r
  | None => ExtendedPO
  end.

(** ** Distance *)

Inductive distError := ErrAddressLength.

Definition DistanceRaw (x y : bytes) : result distError bytes :=
  if negb (zlen x =? zlen y) then Err ErrAddressLength
  else Ok (zip_with Z.lxor x y).

(** [big.Int.SetBytes]: the big-endian value. *)
Definition be_get (l : bytes) : Z := foldl (fun acc x => acc * 256 + x) 0 l.

Definition Distance (x y : bytes) : result distError Z :=
  c ← DistanceRaw x y; Ok (be_get c).

Fixpoint cmp_loop (a x y : bytes) : Z :=
  match a, x, y with
  | a0 :: a, x0 :: x, y0 :: y =>
      let dx := Z.lxor x0 a0 in
      let dy := Z.lxor y0 a0 in
      if dx =? dy then cmp_loop a x y
      else if dx <? dy then 1 else -1
  | _, _, _ => 0
  end.

Definition DistanceCmp (a x y : bytes) : result distError Z :=
  if negb (zlen a =? zlen x) || negb (zlen a =? zlen y) then Err ErrAddressLength
  else Ok (cmp_loop a x y).

(** [a.Closer(x, y)]: whether [a] is closer to [x] than [y]. *)
Definition Closer (a x y : Address) : result distError bool :=
  cmp ← DistanceCmp x a y; Ok (cmp =? 1).

(** ** Reference definitions *)

(** The bits of a byte string, most significant first. *)
Definition byte_bits (x : Z) : list bool :=
  map (fun j => Z.testbit x j) [7; 6; 5; 4; 3; 2; 1; 0].

Definition bits (l : bytes) : list bool := mjoin (map byte_bits l).

#[global] Arguments byte_bits : simpl never.
#[global] Arguments bits : simpl never.

(** Length of the longest common prefix. *)
Fixpoint lcp (a b : list bool) : nat :=
  match a, b with
  | x :: a, y :: b => if Bool.eqb x y then S (lcp a b) else O
  | _, _ => O
  end.

(** * Lemmas *)

(** ** Equality and text form *)

Lemma Equal_spec a b : Equal a b = true <-> a = b.
Proof. apply bool_decide_eq_true. Qed.

Lemma MemberOf_spec a l : MemberOf a l = true <-> a ∈ l.
Proof.
  induction l as [|v l IH]; simpl; [split; [done|inversion 1]|].
  rewrite elem_of_cons. destruct (Equal v a) eqn:E.
  - apply Equal_spec in E as ->. tauto.
  - rewrite IH. split; [tauto|]. intros [->|]; [|done].
    by rewrite (proj2 (Equal_spec v v) eq_refl) in E.
Qed.

Lemma fromHexChar_hexDigit d : 0 <= d < 16 -> fromHexChar (hexDigit d) = Some d.
Proof.
  intros Hd.
  assert (Hall : forallb (fun k => bool_decide (fromHexChar (hexDigit (Z.of_nat k)) = Some (Z.of_nat k)))
                   (seq 0 16) = true) by (vm_compute; reflexivity).
  rewrite forallb_forall in Hall. specialize (Hall (Z.to_nat d)).
  rewrite in_seq, Z2Nat.id in Hall by lia.
  by apply bool_decide_eq_true in Hall; [|lia].
Qed.

Lemma DecodeString_Encode l : bytes_ok l -> DecodeString (EncodeToString l) = Ok l.
Proof.
  induction 1 as [|x l Hx _ IH]; [done|]. unfold is_byte in Hx.
  cbn [EncodeToString DecodeString].
  rewrite !fromHexChar_hexDigit.
  - rewrite IH. simpl. do 2 f_equal. rewrite (Z.div_mod x 16) at 3; lia.
  - apply Z.mod_pos_bound. lia.
  - split; [apply Z.div_pos; lia|apply Z.div_lt_upper_bound; lia].
Qed.

(** ** Bits *)

Lemma land_shiftr_testbit a n : 0 <= n ->
  negb (Z.land (Z.shiftr a n) 1 =? 0) = Z.testbit a n.
Proof.
  intros Hn. change 1 with (Z.ones 1). rewrite Z.land_ones by lia.
  change (2 ^ 1) with 2. rewrite Zmod_odd, <- Z.testbit_odd.
  by destruct (Z.testbit a n).
Qed.

Lemma length_byte_bits x : length (byte_bits x) = 8%nat.
Proof. done. Qed.

Lemma bits_cons x l : bits (x :: l) = byte_bits x ++ bits l.
Proof. done. Qed.

Lemma length_bits l : length (bits l) = (8 * length l)%nat.
Proof.
  induction l as [|x l IH]; [done|]. rewrite bits_cons, length_app, IH.
  rewrite length_byte_bits. simpl. lia.
Qed.

Lemma lcp_app a a' b b' : length a = length a' ->
  lcp (a ++ b) (a' ++ b') =
    if bool_decide (lcp a a' = length a) then (length a + lcp b b')%nat else lcp a a'.
Proof.
  revert a'. induction a as [|x a IH]; intros [|y a'] Hlen; simplify_eq/=; [done|].
  destruct (Bool.eqb x y); [|done]. rewrite IH by done.
  repeat case_bool_decide; lia.
Qed.

Lemma lcp_le_l a b : (lcp a b <= length a)%nat.
Proof.
  revert b. induction a as [|x a IH]; intros [|y b]; simpl; try lia.
  specialize (IH b). destruct (Bool.eqb x y); lia.
Qed.

Lemma lcp_comm a b : lcp a b = lcp b a.
Proof.
  revert b. induction a as [|x a IH]; intros [|y b]; simpl; [done..|].
  rewrite IH. by destruct x, y.
Qed.

Lemma lcp_ultra a b c : length a = length b -> length b = length c ->
  (lcp a b `min` lcp b c <= lcp a c)%nat.
Proof.
  revert b c. induction a as [|x a IH]; intros [|y b] [|z c] H1 H2; simplify_eq/=; [lia|].
  specialize (IH b c H1 H2). destruct x, y, z; simpl; lia.
Qed.

Lemma lcp_refl a : lcp a a = length a.
Proof. induction a; simpl; [done|]. rewrite Bool.eqb_reflx. by f_equal. Qed.

Lemma lcp_full a b : length a = length b -> lcp a b = length a -> a = b.
Proof.
  revert b. induction a as [|x a IH]; intros [|y b] Hlen Hl; simplify_eq/=; [done|].
  destruct (Bool.eqb x y) eqn:E; [|done]. apply Bool.eqb_prop in E as ->.
  f_equal. apply IH; lia.
Qed.

(** Leading zero bits of a byte. *)
Definition lz (o : Z) : nat := lcp (byte_bits 0) (byte_bits o).

Lemma lcp_byte_lz x y : lcp (byte_bits x) (byte_bits y) = lz (Z.lxor x y).
Proof.
  unfold lz, byte_bits. cbn [map lcp]. rewrite !Z.testbit_0_l, !Z.lxor_spec.
  generalize (Z.testbit x), (Z.testbit y). intros f g.
  repeat match goal with |- context [Bool.eqb (f ?k) (g ?k)] =>
    destruct (f k), (g k); simpl; try reflexivity end.
Qed.

Lemma scan_bits_lz o : scan_bits o 0 8 =
  if bool_decide (lz o = 8%nat) then None else Some (Z.of_nat (lz o)).
Proof.
  cbn [scan_bits]. rewrite !land_shiftr_testbit by lia.
  unfold lz, byte_bits. cbn [map lcp]. rewrite !Z.testbit_0_l.
  generalize (Z.testbit o). intros f.
  repeat match goal with |- context [if f ?k then _ else _] =>
    let k' := eval vm_compute in k in change (f k) with (f k');
    destruct (f k'); simpl; try reflexivity end.
Qed.

Lemma scan_bytes_lcp one other i n :
  (n <= length one)%nat -> (n <= length other)%nat ->
  0 <= i -> i * 8 + 8 * Z.of_nat n <= 256 ->
  scan_bytes one other i n =
    let p := lcp (bits (take n one)) (bits (take n other)) in
    if bool_decide (p = (8 * n)%nat) then None else Some (i * 8 + Z.of_nat p).
Proof.
  revert one other i. induction n as [|n IH]; intros one other i H1 H2 Hi Hb.
  { by destruct one. }
  destruct one as [|x one], other as [|y other]; simpl in H1, H2; try lia.
  cbn [scan_bytes take]. rewrite scan_bits_lz, !bits_cons.
  rewrite lcp_app by done. rewrite lcp_byte_lz, length_byte_bits. cbv zeta.
  rewrite IH by lia. cbv zeta.
  assert (lz (Z.lxor x y) <= 8)%nat by apply lcp_le_l.
  pose proof (lcp_le_l (bits (take n one)) (bits (take n other))) as Hl.
  rewrite length_bits, length_take in Hl.
  repeat case_bool_decide; try lia; try done.
  - f_equal. lia.
  - rewrite u8_small by lia. f_equal; lia.
Qed.

Lemma scan_len_le po one other :
  scan_len po one other <= zlen one ∧ scan_len po one other <= zlen other ∧
  0 <= scan_len po one other <= u8 (po / 8 + 1).
Proof.
  unfold scan_len. cbv zeta.
  pose proof (u8_le (zlen one)). pose proof (u8_le (zlen other)).
  pose proof (u8_range (zlen one)). pose proof (u8_range (zlen other)).
  pose proof (u8_range (po / 8 + 1)).
  repeat case_goal; bool_lia.
Qed.

(** The two loops in closed form: the common prefix of the scanned bytes, or
    the cap when they agree entirely. *)
Definition prefix_order (po : Z) (one other : bytes) : Z :=
  let n := Z.to_nat (scan_len po one other) in
  let p := lcp (bits (take n one)) (bits (take n other)) in
  if bool_decide (p = (8 * n)%nat) then po else Z.of_nat p.

Lemma scan_bytes_order po one other : 0 <= po < 248 ->
  match scan_bytes one other 0 (Z.to_nat (scan_len po one other)) with
  | Some r => r
  | None => po
  end = prefix_order po one other.
Proof.
  intros Hpo. destruct (scan_len_le po one other) as (H1 & H2 & H3).
  assert (po / 8 < 31) by (apply Z.div_lt_upper_bound; lia).
  assert (0 <= po / 8) by (apply Z.div_pos; lia).
  rewrite u8_small in H3 by lia.
  rewrite scan_bytes_lcp by lia. unfold prefix_order. cbv zeta.
  case_bool_decide; done.
Qed.


Lemma Proximity_order one other : Proximity one other = prefix_order MaxPO one other.
Proof. apply scan_bytes_order. unfold MaxPO. lia. Qed.

Lemma ExtendedProximity_order one other :
  ExtendedProximity one other = prefix_order ExtendedPO one other.
Proof. apply scan_bytes_order. unfold ExtendedPO, MaxPO. lia. Qed.

Lemma prefix_order_comm po one other : prefix_order po one other = prefix_order po other one.
Proof.
  unfold prefix_order. cbv zeta.
  replace (scan_len po other one) with (scan_len po one other).
  - by rewrite lcp_comm.
  - unfold scan_len. cbv zeta. repeat case_goal; bool_lia.
Qed.

Lemma prefix_order_range po one other :
  0 <= po -> 0 <= prefix_order po one other <= Z.max po (8 * u8 (po / 8 + 1) - 1).
Proof.
  intros Hpo. unfold prefix_order. cbv zeta.
  destruct (scan_len_le po one other) as (H1 & H2 & H3).
  pose proof (lcp_le_l (bits (take (Z.to_nat (scan_len po one other)) one))
                (bits (take (Z.to_nat (scan_len po one other)) other))) as Hl.
  rewrite length_bits, length_take in Hl.
  case_bool_decide; lia.
Qed.

(** On addresses of one length between four bytes and 255 the proximity order
    is the length of the common bit prefix, capped. *)
Lemma bits_take n l : bits (take n l) = take (8 * n) (bits l).
Proof.
  revert n. induction l as [|x l IH]; intros n.
  - rewrite take_nil. change (bits []) with (@nil bool). by rewrite take_nil.
  - destruct n as [|n]; [done|]. cbn [take]. rewrite !bits_cons, IH.
    replace (8 * S n)%nat with (length (byte_bits x) + 8 * n)%nat by (rewrite length_byte_bits; lia).
    by rewrite take_app_add.
Qed.

Lemma lcp_take n a b : lcp (take n a) (take n b) = (n `min` lcp a b)%nat.
Proof.
  revert a b. induction n as [|n IH]; intros [|x a] [|y b]; simpl; try done.
  - rewrite IH. destruct (Bool.eqb x y); lia.
Qed.

Lemma Proximity_lcp a b : length a = length b -> (4 <= length a < 256)%nat ->
  Proximity a b = Z.min 31 (Z.of_nat (lcp (bits a) (bits b))).
Proof.
  intros Hlen Hr. rewrite Proximity_order. unfold prefix_order.
  assert (scan_len MaxPO a b = 4) as ->.
  { unfold scan_len. rewrite <- Hlen, !(u8_small (zlen a)) by lia.
    change (u8 (MaxPO / 8 + 1)) with 4. cbv zeta.
    repeat case_goal; bool_lia. }
  cbv zeta. change (Z.to_nat 4) with 4%nat.
  rewrite !bits_take, lcp_take. change (8 * 4)%nat with 32%nat.
  unfold MaxPO. case_bool_decide; lia.
Qed.

(** ** Distance *)

Lemma be_get_acc acc l : foldl (fun acc x => acc * 256 + x) acc l = acc * 256 ^ zlen l + be_get l.
Proof.
  unfold be_get. revert acc. induction l as [|x l IH]; intros acc; cbn [foldl length].
  - simpl. lia.
  - rewrite (IH (acc * 256 + x)), (IH (0 * 256 + x)).
    rewrite Nat2Z.inj_succ, Z.pow_succ_r by lia. ring.
Qed.

Lemma be_get_cons x l : be_get (x :: l) = x * 256 ^ zlen l + be_get l.
Proof. unfold be_get. cbn [foldl]. rewrite be_get_acc. f_equal. Qed.

Lemma be_get_range l : bytes_ok l -> 0 <= be_get l < 256 ^ zlen l.
Proof.
  induction 1 as [|x l Hx _ IH]; [done|]. rewrite be_get_cons.
  unfold is_byte in Hx. cbn [length]. rewrite Nat2Z.inj_succ, Z.pow_succ_r by lia. nia.
Qed.

Lemma zip_xor_ok x y : bytes_ok x -> bytes_ok y -> bytes_ok (zip_with Z.lxor x y).
Proof.
  intros Hx. revert y. induction Hx as [|a x Ha _ IH]; intros y Hy; [constructor|].
  destruct Hy as [|b y Hb Hy]; simpl; constructor; [by apply is_byte_lxor|by apply IH].
Qed.

Definition sign (c : comparison) : Z := match c with Lt => 1 | Eq => 0 | Gt => -1 end.

Lemma cmp_loop_be a x y :
  length x = length a -> length y = length a ->
  bytes_ok a -> bytes_ok x -> bytes_ok y ->
  cmp_loop a x y = sign (be_get (zip_with Z.lxor x a) ?= be_get (zip_with Z.lxor y a)).
Proof.
  revert x y. induction a as [|a0 a IH]; intros [|x0 x] [|y0 y] Hx Hy Ha Okx Oky; simplify_eq/=; [done|].
  inversion_clear Ha. inversion_clear Okx. inversion_clear Oky.
  rewrite IH by done. rewrite !be_get_cons, !length_zip_with, Hx, Hy, !Nat.min_id.
  assert (bytes_ok (zip_with Z.lxor x a)) as Rx%be_get_range by (by apply zip_xor_ok).
  assert (bytes_ok (zip_with Z.lxor y a)) as Ry%be_get_range by (by apply zip_xor_ok).
  rewrite length_zip_with, Hx, Nat.min_id in Rx. rewrite length_zip_with, Hy, Nat.min_id in Ry.
  destruct (Z.eqb_spec (Z.lxor x0 a0) (Z.lxor y0 a0)) as [->|Hne].
  - f_equal. symmetry. by rewrite Z.add_compare_mono_l.
  - symmetry. destruct (Z.ltb_spec (Z.lxor x0 a0) (Z.lxor y0 a0)).
    + rewrite (proj2 (Z.compare_lt_iff _ _)); [done|]. nia.
    + rewrite (proj2 (Z.compare_gt_iff _ _)); [done|]. nia.
Qed.

(** ** Proximity against distance *)

Lemma lz_log2 o : is_byte o -> Z.of_nat (lz o) = if o =? 0 then 8 else 7 - Z.log2 o.
Proof.
  intros Ho.
  assert (Hall : forallb (fun k => Z.of_nat (lz (Z.of_nat k)) =?
      (if Z.of_nat k =? 0 then 8 else 7 - Z.log2 (Z.of_nat k))) (seq 0 256) = true)
    by (vm_compute; reflexivity).
  unfold is_byte in Ho. rewrite forallb_forall in Hall. specialize (Hall (Z.to_nat o)).
  rewrite in_seq, Z2Nat.id in Hall by lia. apply Z.eqb_eq, Hall. lia.
Qed.

Lemma lz_lt_xor o1 o2 : is_byte o1 -> is_byte o2 -> (lz o2 < lz o1)%nat -> o1 < o2.
Proof.
  intros H1 H2 Hlz. pose proof (lz_log2 o1 H1). pose proof (lz_log2 o2 H2).
  unfold is_byte in *. pose proof (Z.log2_nonneg o1). pose proof (Z.log2_nonneg o2).
  destruct (Z.eqb_spec o1 0), (Z.eqb_spec o2 0); try lia.
  apply Z.log2_lt_cancel. lia.
Qed.

Lemma lz_full o : is_byte o -> lz o = 8%nat -> o = 0.
Proof.
  intros Ho Hlz. pose proof (lz_log2 o Ho) as Hl. pose proof (Z.log2_nonneg o).
  destruct (Z.eqb_spec o 0); lia.
Qed.

Lemma cmp_loop_lcp a x y :
  length x = length a -> length y = length a ->
  bytes_ok a -> bytes_ok x -> bytes_ok y ->
  (lcp (bits a) (bits y) < lcp (bits a) (bits x))%nat ->
  cmp_loop a x y = 1.
Proof.
  revert x y. induction a as [|a0 a IH]; intros [|x0 x] [|y0 y] Hx Hy Ha Okx Oky Hl;
    cbn [length] in Hx, Hy; try lia.
  cbn [cmp_loop]. cbv zeta.
  inversion_clear Ha. inversion_clear Okx. inversion_clear Oky.
  rewrite !bits_cons, !lcp_app, !lcp_byte_lz, length_byte_bits in Hl by done.
  rewrite (Z.lxor_comm x0), (Z.lxor_comm y0).
  assert (is_byte (Z.lxor a0 x0)) by (by apply is_byte_lxor).
  assert (is_byte (Z.lxor a0 y0)) by (by apply is_byte_lxor).
  assert (lz (Z.lxor a0 x0) <= 8)%nat by apply lcp_le_l.
  assert (lz (Z.lxor a0 y0) <= 8)%nat by apply lcp_le_l.
  destruct (decide (lz (Z.lxor a0 y0) < lz (Z.lxor a0 x0))%nat) as [Hlt|Hge].
  - apply lz_lt_xor in Hlt; [|done..].
    rewrite (proj2 (Z.eqb_neq _ _)), (proj2 (Z.ltb_lt _ _)) by lia. done.
  - assert (lz (Z.lxor a0 x0) = 8 /\ lz (Z.lxor a0 y0) = 8)%nat as [E1 E2]
      by (repeat case_bool_decide; lia).
    rewrite !bool_decide_eq_true_2 in Hl by done.
    apply lz_full in E1, E2; [|done..]. rewrite E1, E2. simpl.
    apply IH; done || lia.
Qed.

(** * Properties *)

(** C30: on addresses of equal length (4 to 255 bytes) [Proximity] is the number
    of leading bits the addresses share, capped at [MaxPO]; it is symmetric,
    stays within the bins, is [MaxPO] (31) on equal addresses, and is an ultrametric:
    two addresses each close to a third are at least that close to each other.  (The
    comment in proximity.go gives the range as 0 to 255 and 256 for equal addresses.) *)
Theorem Proximity_correct (a b c : Address)
    (Hab : length a = length b) (Hbc : length b = length c) (Hlen : (4 <= length a < 256)%nat) :
  Proximity a b = Z.min MaxPO (Z.of_nat (lcp (bits a) (bits b))) /\
  Proximity a b = Proximity b a /\
  0 <= Proximity a b < MaxBins /\
  Proximity a a = MaxPO /\
  Z.min (Proximity a b) (Proximity b c) <= Proximity a c.
Proof.
  rewrite !Proximity_lcp by lia. unfold MaxBins, MaxPO.
  pose proof (lcp_ultra (bits a) (bits b) (bits c)) as Hu. rewrite !length_bits in Hu.
  rewrite lcp_refl, length_bits, (lcp_comm (bits b) (bits a)).
  split_and!; lia.
Qed.

Lemma Proximity_correct_witness :
  Proximity [160; 0; 0; 0] [161; 2; 3; 4] = Z.min MaxPO (Z.of_nat (lcp (bits [160; 0; 0; 0]) (bits [161; 2; 3; 4]))) /\
  Z.min (Proximity [160; 0; 0; 0] [161; 2; 3; 4]) (Proximity [161; 2; 3; 4] [175; 0; 0; 1])
    <= Proximity [160; 0; 0; 0] [175; 0; 0; 1].
Proof.
  destruct (Proximity_correct [160; 0; 0; 0] [161; 2; 3; 4] [175; 0; 0; 1]
    ltac:(reflexivity) ltac:(reflexivity) ltac:(simpl; lia)) as (H1 & _ & _ & _ & H2).
  split; [exact H1|exact H2].
Defined.

(** [DistanceCmp a x y] orders [x] and [y] exactly as their big-integer
    distances to [a] do (1 when [x] is closer), and fails exactly when the
    lengths differ. *)
Theorem DistanceCmp_Distance (a x y : Address)
    (Ha : bytes_ok a) (Hx : bytes_ok x) (Hy : bytes_ok y) :
  (DistanceCmp a x y = Err ErrAddressLength <-> length a <> length x \/ length a <> length y) /\
  (forall dx dy, Distance x a = Ok dx -> Distance y a = Ok dy ->
     DistanceCmp a x y = Ok (if dx <? dy then 1 else if dy <? dx then -1 else 0)).
Proof.
  unfold DistanceCmp, Distance, DistanceRaw. split.
  { destruct (Z.eqb_spec (zlen a) (zlen x)), (Z.eqb_spec (zlen a) (zlen y));
      simpl; split; first [done|lia]. }
  destruct (Z.eqb_spec (zlen a) (zlen x)) as [E1|E1];
  destruct (Z.eqb_spec (zlen a) (zlen y)) as [E2|E2];
    try (intros dx dy; repeat case_goal; bool_hyps; first [lia|done]).
  intros dx dy. rewrite <- E1, <- E2, !Z.eqb_refl. simpl. intros [= <-] [= <-].
  rewrite cmp_loop_be by (done || lia). f_equal.
  destruct (Z.compare_spec (be_get (zip_with Z.lxor x a)) (be_get (zip_with Z.lxor y a)));
    repeat case_goal; simpl; bool_lia.
Qed.

Lemma DistanceCmp_Distance_witness :
  DistanceCmp [16; 0] [17; 3] [18; 0] = Ok 1.
Proof.
  exact (proj2 (DistanceCmp_Distance [16; 0] [17; 3] [18; 0]
    ltac:(repeat constructor; lia) ltac:(repeat constructor; lia) ltac:(repeat constructor; lia))
    259 512 ltac:(reflexivity) ltac:(reflexivity)).
Defined.

(** A peer in a higher proximity bin is strictly closer: for addresses of
    one length (4 to 255 bytes), if [x] has a larger proximity order to [a]
    than [y] then [x.Closer(a, y)] holds and [y.Closer(a, x)] does not. *)
Theorem Proximity_Closer (a x y : Address)
    (Hx : length x = length a) (Hy : length y = length a) (Hlen : (4 <= length a < 256)%nat)
    (Oka : bytes_ok a) (Okx : bytes_ok x) (Oky : bytes_ok y)
    (Hpo : Proximity a y < Proximity a x) :
  Closer x a y = Ok true /\ Closer y a x = Ok false.
Proof.
  rewrite !Proximity_lcp in Hpo by lia.
  assert (lcp (bits a) (bits y) < lcp (bits a) (bits x))%nat as Hl by lia.
  apply cmp_loop_lcp in Hl as Hc; [|done..].
  assert (cmp_loop a y x = -1) as Hc'.
  { rewrite cmp_loop_be in Hc |- * by done.
    rewrite Z.compare_antisym. by destruct (_ ?= _). }
  unfold Closer, DistanceCmp. rewrite Hx, Hy, !Z.eqb_refl. simpl. by rewrite Hc, Hc'.
Qed.

Lemma Proximity_Closer_witness :
  Closer [1; 255; 0; 0] [0; 0; 0; 0] [2; 0; 0; 0] = Ok true.
Proof.
  refine (proj1 (Proximity_Closer [0; 0; 0; 0] [1; 255; 0; 0] [2; 0; 0; 0]
    _ _ _ _ _ _ _)); try reflexivity; try (simpl; lia); repeat constructor; lia.
Defined.

(** The hexadecimal text of an address parses back to the address, so the
    maps of the program keyed by [peer.String()] identify peers uniquely. *)
Theorem ParseHexAddress_String (a : Address) (Ha : bytes_ok a) :
  ParseHexAddress (String a) = Ok a.
Proof. by apply DecodeString_Encode. Qed.

Lemma ParseHexAddress_String_witness : ParseHexAddress (String [0; 171; 255]) = Ok [0; 171; 255].
Proof. apply (ParseHexAddress_String [0; 171; 255]). repeat constructor; lia. Defined.
