(* ===== verification/PSlice.v ===== *)
(** * Peer lists indexed by proximity order (pkg/topology/pslice)

    [PSlice] keeps one list of addresses per proximity bin.  The lists are
    values: [append] never changes the prefix an iterator holds and [Remove]
    builds a fresh array, so no alias of a bin is observable.  The mutex makes
    every operation atomic. *)

From Stdlib Require Import ZArith Lia.
From stdpp Require Import base gmap list numbers.
From S2P Require Import Prelude Boson.

Open Scope Z_scope.

Record PSlice := {
  peers : list (list Address);
  baseBytes : bytes;
  maxBins : Z;
}.

Definition New (maxBins : Z) (base : Address) : PSlice :=
  {| peers := replicate (Z.to_nat maxBins) []; baseBytes := base; maxBins := maxBins |}.

(** [s.peers\[i\]]; every caller stays in range on a well-formed slice
    ([po_lookup] below), where Go would panic. *)
Definition bin (s : PSlice) (i : Z) : list Address := default [] (peers s !! Z.to_nat i).

Definition set_bin (s : PSlice) (i : Z) (l : list Address) : PSlice :=
  {| peers := <[Z.to_nat i := l]> (peers s); baseBytes := baseBytes s; maxBins := maxBins s |}.

Definition po (s : PSlice) (peer : bytes) : Z :=
  let po := Proximity (baseBytes s) peer in
  if maxBins s <=? po then u8 (u8 (maxBins s) - 1) else po.

Fixpoint index_from (i : nat) (addr : Address) (l : list Address) : bool * nat :=
  match l with
  | [] => (false, 0%nat)
  | peer :: l => if Equal peer addr then (true, i) else index_from (S i) addr l
  end.

Definition index (s : PSlice) (addr : Address) (po : Z) : bool * nat :=
  index_from 0 addr (bin s po).

(** The loop of [Add] over several addresses: existence is decided before any
    address is appended. *)
Definition append_peer (s : PSlice) (p : Address * Z * bool) : PSlice :=
  let '(addr, po, exists_) := p in
  if exists_ : bool then s else set_bin s po (bin s po ++ [addr]).

Definition Add (s : PSlice) (addrs : list Address) : PSlice :=
  match addrs with
  | [addr] =>
      let po := po s addr in
      if (index s addr po).1 then s else set_bin s po (bin s po ++ [addr])
  | _ =>
      let info := map (fun addr => (addr, po s addr, (index s addr (po s addr)).1)) addrs in
      foldl append_peer s info
  end.

Definition Exists (s : PSlice) (addr : Address) : bool := (index s addr (po s addr)).1.

Definition Remove (s : PSlice) (addr : Address) : PSlice :=
  let po := po s addr in
  let '(e, i) := index s addr po in
  if negb e then s
  else
    let newLength := (length (bin s po) - 1)%nat in
    let cpy := take newLength (bin s po) in
    if bool_decide (i = newLength) then set_bin s po cpy
    else match bin s po !! newLength with
         | Some lastItem => set_bin s po (<[i := lastItem]> cpy)
         | None => s
         end.

Definition BinSize (s : PSlice) (b : Z) : Z :=
  if maxBins s <=? b then 0 else zlen (bin s b).

Definition BinPeers (s : PSlice) (b : Z) : list Address :=
  if maxBins s <=? b then [] else bin s b.

Definition Length (s : PSlice) : Z := foldl (fun ret l => ret + zlen l) 0 (peers s).

Fixpoint first_empty (i : Z) (l : list (list Address)) : Z * bool :=
  match l with
  | [] => (0, true)
  | peers :: l => if zlen peers =? 0 then (u8 i, false) else first_empty (i + 1) l
  end.

Definition ShallowestEmpty (s : PSlice) : Z * bool := first_empty 0 (peers s).

(** ** Iteration

    The callback of [EachBin] closes over mutable variables of its caller:
    here it threads a state [St].  It returns [(stop, jumpToNext, err)]. *)

Section Iter.
Context {St E : Type}.

Definition EachPeerFunc := St -> Address -> Z -> St * (bool * bool * option E).

Inductive flow := Continue | Return (err : option E).

Fixpoint each_peer (pf : EachPeerFunc) (st : St) (l : list Address) (po : Z) : St * flow :=
  match l with
  | [] => (st, Continue)
  | peer :: l =>
      let '(st, (stop, next, err)) := pf st peer po in
      match err with
      | Some e => (st, Return (Some e))
      | None =>
          if stop : bool then (st, Return None)
          else if next : bool then (st, Continue)
          else each_peer pf st l po
      end
  end.

Fixpoint each_bin (pf : EachPeerFunc) (st : St) (bins : list (Z * list Address)) :
    St * option E :=
  match bins with
  | [] => (st, None)
  | (i, l) :: bins =>
      match each_peer pf st l (u8 i) with
      | (st, Continue) => each_bin pf st bins
      | (st, Return err) => (st, err)
      end
  end.

Definition bins (s : PSlice) : list (Z * list Address) :=
  imap (fun i l => (Z.of_nat i, l)) (peers s).

(** From the deepest bin to the shallowest. *)
Definition EachBin (s : PSlice) (pf : EachPeerFunc) (st : St) : St * option E :=
  each_bin pf st (reverse (bins s)).

(** From the shallowest bin to the deepest. *)
Definition EachBinRev (s : PSlice) (pf : EachPeerFunc) (st : St) : St * option E :=
  each_bin pf st (bins s).
End Iter.
Arguments EachPeerFunc : clear implicits.
Arguments flow : clear implicits.

(** ** Well-formedness and abstraction *)

(** One bin per order, every address in the bin of its proximity, no address
    twice. *)
Record wf (s : PSlice) : Prop := {
  wf_bins : zlen (peers s) = maxBins s;
  wf_range : 0 < maxBins s <= 256;
  wf_po : forall i l a, peers s !! i = Some l -> a ∈ l -> po s a = Z.of_nat i;
  wf_nodup : forall i l, peers s !! i = Some l -> NoDup l;
}.

(** The set of peers a slice stands for. *)
Definition elems (s : PSlice) : gset Address := list_to_set (mjoin (peers s)).

(** * Lemmas *)

Lemma index_from_spec i a l :
  ((index_from i a l).1 = true <-> a ∈ l) /\
  ((index_from i a l).1 = true ->
    exists k, (index_from i a l).2 = (i + k)%nat /\ l !! k = Some a).
Proof.
  revert i. induction l as [|p l IH]; intros i; simpl.
  { split; [|done]. split; [done|by inversion 1]. }
  destruct (Equal p a) eqn:E; simpl.
  - apply Equal_spec in E as ->. split; [split; [by left|done]|].
    intros _. exists 0%nat. split; [lia|done].
  - assert (p <> a) by (intros ->; by rewrite (proj2 (Equal_spec a a) eq_refl) in E).
    destruct (IH (S i)) as [IH1 IH2]. rewrite elem_of_cons. split; [naive_solver|].
    intros (k & Hk & Hl)%IH2. exists (S k). split; [lia|done].
Qed.

Lemma Proximity_range one other : 0 <= Proximity one other < 32.
Proof.
  rewrite Proximity_order. pose proof (prefix_order_range MaxPO one other) as H.
  unfold MaxPO in *. change (u8 (31 / 8 + 1)) with 4 in H. lia.
Qed.

Lemma po_range s a : 0 < maxBins s <= 256 -> 0 <= po s a < maxBins s.
Proof.
  intros Hr. unfold po. cbv zeta. pose proof (Proximity_range (baseBytes s) a).
  destruct (Z.leb_spec (maxBins s) (Proximity (baseBytes s) a)); [|lia].
  rewrite (u8_small (maxBins s)), u8_small by lia. lia.
Qed.

Lemma po_lookup s a : wf s -> exists l, peers s !! Z.to_nat (po s a) = Some l.
Proof.
  intros [Hb Hr _ _]. apply lookup_lt_is_Some_2.
  pose proof (po_range s a Hr). lia.
Qed.

Lemma elem_of_elems s a : a ∈ elems s <-> exists i l, peers s !! i = Some l /\ a ∈ l.
Proof.
  unfold elems. rewrite elem_of_list_to_set, list_elem_of_join.
  setoid_rewrite list_elem_of_lookup at 2. naive_solver.
Qed.

Lemma elem_of_bin s a : wf s -> a ∈ elems s <-> a ∈ bin s (po s a).
Proof.
  intros Hwf. rewrite elem_of_elems. unfold bin. split.
  - intros (i & l & Hl & Ha). erewrite wf_po by done. by rewrite Nat2Z.id, Hl.
  - intros Ha. destruct (po_lookup s a Hwf) as [l Hl]. rewrite Hl in Ha. eauto.
Qed.

Lemma Exists_elems s a : wf s -> Exists s a = true <-> a ∈ elems s.
Proof. intros Hwf. rewrite elem_of_bin by done. apply index_from_spec. Qed.

Lemma bin_spec s i l : peers s !! Z.to_nat i = Some l -> bin s i = l.
Proof. unfold bin. by intros ->. Qed.

Lemma wf_set_bin s i l : wf s -> 0 <= i < maxBins s -> NoDup l ->
  (forall a, a ∈ l -> po s a = i) -> wf (set_bin s i l).
Proof.
  intros [Hb Hr Hp Hn] Hi Hl Ha.
  assert (Hpo : forall a, po (set_bin s i l) a = po s a) by done.
  split; simpl; [by rewrite length_insert|done| |].
  - intros j l' a Hj Hin. rewrite Hpo.
    destruct (decide (Z.to_nat i = j)) as [<-|Hne].
    + rewrite list_lookup_insert_eq in Hj by lia. simplify_eq. rewrite Ha by done. lia.
    + rewrite list_lookup_insert_ne in Hj by done. eauto.
  - intros j l' Hj. destruct (decide (Z.to_nat i = j)) as [<-|Hne].
    + rewrite list_lookup_insert_eq in Hj by lia. by simplify_eq.
    + rewrite list_lookup_insert_ne in Hj by done. eauto.
Qed.

Lemma elems_set_bin s i l a : wf s -> 0 <= i < maxBins s -> NoDup l ->
  (forall a, a ∈ l -> po s a = i) ->
  a ∈ elems (set_bin s i l) <-> (if decide (po s a = i) then a ∈ l else a ∈ elems s).
Proof.
  intros Hwf Hi Hl Ha. rewrite elem_of_bin by (by apply wf_set_bin).
  change (po (set_bin s i l) a) with (po s a).
  pose proof (po_range s a (wf_range s Hwf)). pose proof (wf_bins s Hwf).
  unfold bin. simpl. case_decide as Hd.
  - rewrite Hd, list_lookup_insert_eq by lia. done.
  - rewrite list_lookup_insert_ne by lia. by rewrite elem_of_bin.
Qed.

Lemma append_peer_spec s a (e : bool) : wf s -> (e = true <-> a ∈ elems s) ->
  wf (append_peer s (a, po s a, e)) /\
  elems (append_peer s (a, po s a, e)) = {[a]} ∪ elems s.
Proof.
  intros Hwf He. simpl. destruct e.
  { split; [done|]. apply leibniz_equiv. set_solver. }
  assert (Hna : a ∉ bin s (po s a)) by (rewrite <- elem_of_bin by done; naive_solver).
  destruct (po_lookup s a Hwf) as [l Hl]. pose proof (bin_spec _ _ _ Hl) as Hb.
  pose proof (po_range s a (wf_range s Hwf)).
  assert (NoDup (bin s (po s a) ++ [a])).
  { rewrite Hb in *. apply list.NoDup_app. split_and!; [by eapply wf_nodup| |apply list.NoDup_singleton].
    intros x Hx ->%list_elem_of_singleton. done. }
  assert (forall x, x ∈ bin s (po s a) ++ [a] -> po s x = po s a).
  { intros x [Hx| ->%list_elem_of_singleton]%elem_of_app; [|done].
    rewrite Hb in Hx. erewrite wf_po by done. lia. }
  split; [by apply wf_set_bin|].
  apply set_eq. intros x. rewrite elems_set_bin by done.
  rewrite elem_of_union, elem_of_singleton. case_decide as Hd.
  - rewrite elem_of_app, list_elem_of_singleton, (elem_of_bin s x), Hd by done. tauto.
  - naive_solver.
Qed.

Lemma append_peers_spec s s0 addrs : wf s -> NoDup addrs ->
  (forall a, po s0 a = po s a) ->
  (forall a, a ∈ addrs -> Exists s0 a = true <-> a ∈ elems s) ->
  let s' := foldl append_peer s (map (fun a => (a, po s0 a, Exists s0 a)) addrs) in
  wf s' /\ elems s' = list_to_set addrs ∪ elems s /\ (forall a, po s' a = po s a).
Proof.
  revert s. induction addrs as [|a addrs IH]; intros s Hwf Hnd Hpo He; cbn [map foldl].
  { cbv zeta. split_and!; [done|set_solver|done]. }
  apply list.NoDup_cons in Hnd as [Hna Hnd]. rewrite Hpo.
  destruct (append_peer_spec s a (Exists s0 a) Hwf) as [Hwf' Hel]; [apply He; by left|].
  set (s1 := append_peer s (a, po s a, Exists s0 a)) in *.
  assert (Hpo1 : forall x, po s1 x = po s x) by (intros; unfold s1; simpl; by destruct (Exists s0 a)).
  destruct (IH s1) as (H1 & H2 & H3); [done|done|by intros; rewrite Hpo1| |].
  - intros x Hx. rewrite Hel, elem_of_union, elem_of_singleton, He by (by right).
    split; [tauto|]. intros [->|]; done.
  - cbv zeta. split_and!; [done| |by intros; rewrite H3, Hpo1].
    rewrite H2, Hel. set_solver.
Qed.

Lemma Add_elems s addrs : wf s -> NoDup addrs ->
  wf (Add s addrs) /\ elems (Add s addrs) = list_to_set addrs ∪ elems s.
Proof.
  intros Hwf Hnd. destruct addrs as [|a [|b l]].
  - split; [done|]. simpl. set_solver.
  - simpl. destruct (append_peer_spec s a (Exists s a) Hwf) as [H1 H2]; [by apply Exists_elems|].
    unfold Exists in *. simpl in *. destruct (index s a (po s a)).1; (split; [done|]); set_solver.
  - destruct (append_peers_spec s s (a :: b :: l) Hwf Hnd) as (H1 & H2 & _); [done| |done].
    intros. by apply Exists_elems.
Qed.

(** Swapping the last element into the hole removes exactly that element. *)
Lemma insert_swap_Permutation {A} (l : list A) i a x :
  l !! i = Some a -> a :: <[i := x]> l ≡ₚ x :: l.
Proof.
  intros Hi. rewrite insert_take_drop by (by eapply lookup_lt_Some).
  rewrite <- (take_drop_middle l i a Hi) at 3.
  rewrite <- !Permutation_middle. constructor.
Qed.

Lemma remove_at_Permutation {A} (l : list A) i a last :
  l !! i = Some a -> l !! (length l - 1)%nat = Some last ->
  l ≡ₚ a :: (if bool_decide (i = length l - 1)%nat then take (length l - 1) l
             else <[i := last]> (take (length l - 1) l)).
Proof.
  intros Hi Hlast. pose proof (lookup_lt_Some _ _ _ Hi).
  assert (El : l ≡ₚ last :: take (length l - 1) l).
  { rewrite <- (take_drop_middle l _ _ Hlast) at 1.
    rewrite drop_ge, <- Permutation_middle, app_nil_r by lia. done. }
  case_bool_decide as Hd; [subst i; simplify_eq; done|].
  rewrite insert_swap_Permutation; [done|]. rewrite lookup_take_lt by lia. done.
Qed.

Lemma Remove_cases s a : wf s ->
  if Exists s a
  then exists l, Remove s a = set_bin s (po s a) l /\ bin s (po s a) ≡ₚ a :: l
  else Remove s a = s.
Proof.
  intros Hwf. unfold Exists, Remove. destruct (index s a (po s a)) as [e i] eqn:Hidx. simpl.
  destruct e; simpl; [|done].
  unfold index in Hidx. pose proof (index_from_spec 0 a (bin s (po s a))) as [_ Hs].
  rewrite Hidx in Hs. destruct Hs as (k & Hk & Hl); [done|]. simpl in Hk. subst k.
  destruct (bin s (po s a) !! (length (bin s (po s a)) - 1)%nat) as [last|] eqn:Hlast.
  - pose proof (remove_at_Permutation _ _ _ _ Hl Hlast) as Hp.
    case_bool_decide; eauto.
  - apply lookup_ge_None in Hlast. apply lookup_lt_Some in Hl. lia.
Qed.

Lemma Remove_elems s a : wf s -> wf (Remove s a) /\ elems (Remove s a) = elems s ∖ {[a]}.
Proof.
  intros Hwf. pose proof (Remove_cases s a Hwf) as Hr. destruct (Exists s a) eqn:He.
  - destruct Hr as (l & -> & Hp). destruct (po_lookup s a Hwf) as [b Hb].
    rewrite (bin_spec _ _ _ Hb) in Hp.
    pose proof (wf_nodup _ Hwf _ _ Hb) as Hnd. rewrite Hp in Hnd.
    apply list.NoDup_cons in Hnd as [Hna Hnd].
    pose proof (po_range s a (wf_range s Hwf)).
    assert (Hpo : forall x, x ∈ l -> po s x = po s a).
    { intros x Hx. erewrite (wf_po _ Hwf _ _ _ Hb); [lia|]. rewrite Hp. by right. }
    split; [by apply wf_set_bin|]. apply set_eq. intros x.
    rewrite elems_set_bin, elem_of_difference, elem_of_singleton by done.
    case_decide as Hd.
    + rewrite (elem_of_bin s x), Hd, (bin_spec _ _ _ Hb), Hp, elem_of_cons by done.
      naive_solver.
    + split; [|tauto]. intros Hx. split; [done|]. by intros ->.
  - rewrite Hr. split; [done|]. assert (a ∉ elems s); [|set_solver].
    rewrite <- Exists_elems by done. by rewrite He.
Qed.

Lemma wf_New mb base : 0 < mb <= 256 -> wf (New mb base) /\ elems (New mb base) = ∅.
Proof.
  intros Hr. split.
  - split; simpl; [rewrite length_replicate; lia|done| |].
    + intros i l a [-> _]%lookup_replicate. inversion 1.
    + intros i l [-> _]%lookup_replicate. constructor.
  - apply set_eq. intros a. rewrite elem_of_elems. split; [|set_solver].
    intros (i & l & [-> _]%lookup_replicate & Ha). inversion Ha.
Qed.

Lemma NoDup_join_bins s : wf s -> NoDup (mjoin (peers s)).
Proof.
  intros [Hb _ Hp Hn]. clear Hb. generalize (peers s) (0%nat : nat) Hp Hn. clear Hp Hn.
  assert (Hg : forall (ls : list (list Address)) (k : nat),
    (forall i l a, ls !! i = Some l -> a ∈ l -> po s a = Z.of_nat (k + i)) ->
    (forall i l, ls !! i = Some l -> NoDup l) -> NoDup (mjoin ls)).
  { induction ls as [|l ls IH]; intros k Hp Hn; [constructor|]. simpl.
    apply list.NoDup_app. split_and!.
    - by apply (Hn 0%nat).
    - intros a Ha (l' & Ha' & Hl')%list_elem_of_join.
      apply list_elem_of_lookup in Hl' as [i Hi].
      pose proof (Hp 0%nat l a eq_refl Ha). pose proof (Hp (S i) l' a Hi Ha'). lia.
    - apply (IH (S k)).
      + intros i l' a Hi Ha. rewrite (Hp (S i) l' a Hi Ha). f_equal. lia.
      + intros i l' Hi. by apply (Hn (S i)). }
  intros ls k Hp Hn. by apply (Hg ls 0%nat).
Qed.

Lemma Length_join s : Length s = zlen (mjoin (peers s)).
Proof.
  unfold Length. change (zlen (mjoin (peers s))) with (0 + zlen (mjoin (peers s))).
  generalize 0. induction (peers s) as [|l ls IH]; intros z; simpl; [lia|].
  rewrite IH, length_app. lia.
Qed.

Lemma Length_elems s : wf s -> Length s = Z.of_nat (size (elems s)).
Proof.
  intros Hwf. rewrite Length_join. unfold elems.
  rewrite size_list_to_set by (by apply NoDup_join_bins). done.
Qed.

(** Every visit of a complete iteration, shallowest bin first. *)
Definition visits (s : PSlice) : list (Address * Z) :=
  bins s ≫= fun '(i, l) => map (fun a => (a, u8 i)) l.

Lemma elem_of_visits s a i : wf s ->
  (a, i) ∈ visits s <-> a ∈ elems s /\ i = po s a.
Proof.
  intros Hwf. unfold visits, bins. rewrite list_elem_of_bind. split.
  - intros ([j l] & Hin & Hbin). apply list_elem_of_fmap in Hin as (x & Hx & Hx').
    simplify_eq. apply elem_of_lookup_imap in Hbin as (k & l' & ? & Hk). simplify_eq.
    pose proof (wf_po _ Hwf _ _ _ Hk Hx') as Hp. rewrite elem_of_elems.
    split; [eauto|]. pose proof (po_range s x (wf_range s Hwf)). pose proof (wf_range s Hwf).
    rewrite u8_small; lia.
  - intros [(k & l & Hk & Ha)%elem_of_elems ->]. exists (Z.of_nat k, l). split.
    + apply list_elem_of_fmap. exists a. split; [|done].
      pose proof (wf_po _ Hwf _ _ _ Hk Ha) as <-.
      pose proof (po_range s a (wf_range s Hwf)). pose proof (wf_range s Hwf).
      rewrite u8_small; [done|lia].
    + apply elem_of_lookup_imap. eauto.
Qed.

Section IterLemmas.
Context {St E : Type} (f : St -> Address -> Z -> St).

(** A callback that never stops visits every peer of every bin. *)
Lemma each_bin_fold st bs :
  each_bin (E := E) (fun st a i => (f st a i, (false, false, None))) st bs =
  (foldl (fun st '(a, i) => f st a i) st (bs ≫= fun '(i, l) => map (fun a => (a, u8 i)) l), None).
Proof.
  revert st. induction bs as [|[i l] bs IH]; intros st; [done|].
  cbn [each_bin]. cbn [mbind list_bind]. rewrite foldl_app, <- IH. clear IH.
  assert (Hl : forall st, each_peer (E := E) (fun st a i => (f st a i, (false, false, None))) st l (u8 i)
    = (foldl (fun st '(a, i) => f st a i) st (map (fun a => (a, u8 i)) l), Continue)).
  { clear st. induction l as [|a l IHl]; intros st; [done|]. simpl. apply IHl. }
  by rewrite Hl.
Qed.

Lemma EachBinRev_fold s st :
  EachBinRev (E := E) s (fun st a i => (f st a i, (false, false, None))) st =
  (foldl (fun st '(a, i) => f st a i) st (visits s), None).
Proof. apply each_bin_fold. Qed.
End IterLemmas.

(** * Properties *)

Inductive op := OpAdd (addrs : list Address) | OpRemove (addr : Address).

Definition step (s : PSlice) (o : op) : PSlice :=
  match o with OpAdd addrs => Add s addrs | OpRemove addr => Remove s addr end.

Definition spec_step (m : gset Address) (o : op) : gset Address :=
  match o with OpAdd addrs => list_to_set addrs ∪ m | OpRemove addr => m ∖ {[addr]} end.

Definition op_ok (o : op) : Prop :=
  match o with OpAdd addrs => NoDup addrs | OpRemove _ => True end.

Lemma step_refines s o : wf s -> op_ok o ->
  wf (step s o) /\ elems (step s o) = spec_step (elems s) o.
Proof. destruct o; simpl; [apply Add_elems|intros; by apply Remove_elems]. Qed.

Lemma steps_refine s ops : wf s -> Forall op_ok ops ->
  wf (foldl step s ops) /\ elems (foldl step s ops) = foldl spec_step (elems s) ops.
Proof.
  intros Hwf Hops. revert s Hwf. induction Hops as [|o ops Ho _ IH]; intros s Hwf; [done|].
  simpl. destruct (step_refines s o Hwf Ho) as [H1 <-]. by apply IH.
Qed.

(** C28: every sequence of [Add] (of distinct addresses) and [Remove] calls on a
    new [PSlice] keeps each peer once and in the bin of its proximity order, and
    implements the set of peers: [Exists] is membership and [Length] the
    number of peers, whatever the order and the swap-with-last removals. *)
Theorem PSlice_refines_set (mb : Z) (base : Address) (ops : list op)
    (Hmb : 0 < mb <= 256) (Hops : Forall op_ok ops) :
  let s := foldl step (New mb base) ops in
  let m := foldl spec_step ∅ ops in
  wf s /\ elems s = m /\
  (forall a, Exists s a = bool_decide (a ∈ m)) /\
  Length s = Z.of_nat (size m).
Proof.
  intros s m. destruct (wf_New mb base Hmb) as [Hwf0 He0].
  destruct (steps_refine (New mb base) ops Hwf0 Hops) as [Hwf He]. rewrite He0 in He.
  fold s m in Hwf, He. split_and!; [done|done| |by rewrite Length_elems, He].
  intros a. rewrite <- He. pose proof (Exists_elems s a Hwf).
  case_bool_decide; destruct (Exists s a); naive_solver.
Qed.

Lemma PSlice_refines_set_witness :
  Length (foldl step (New 32 [0; 0; 0; 0]) [OpAdd [[1; 0; 0; 0]; [2; 0; 0; 0]; [1; 1; 0; 0]]; OpRemove [1; 0; 0; 0]])
  = Z.of_nat (size (foldl spec_step ∅ [OpAdd [[1; 0; 0; 0]; [2; 0; 0; 0]; [1; 1; 0; 0]]; OpRemove [1; 0; 0; 0]])).
Proof.
  refine (proj2 (proj2 (proj2 (PSlice_refines_set 32 [0; 0; 0; 0]
    [OpAdd [[1; 0; 0; 0]; [2; 0; 0; 0]; [1; 1; 0; 0]]; OpRemove [1; 0; 0; 0]] _ _)))); [lia|].
  constructor; [|by repeat constructor].
  apply (bool_decide_unpack (NoDup _)). vm_compute. exact I.
Defined.
