(* ===== verification/Bmt.v ===== *)
(** * Binary Merkle tree hash (pkg/bmt)

    The configuration and reference hasher, the tree of nodes, and the
    concurrent algorithm of [Hasher]: one goroutine per section climbs the tree,
    meeting its sister at every node through the atomic toggle; the goroutine of
    the last section fills the missing right sisters with the hashes of
    all-zero subtrees.

    The base hash (Keccak256) is third-party code: it is the parameter [hash],
    of which only the output size is assumed. *)

From Stdlib Require Import ZArith Lia.
From stdpp Require Import base gmap list numbers functions.
From S2P Require Import Prelude.

Open Scope Z_scope.

(** ** Parameters of the tree *)

(** [for ; c < n; c *= 2 { d++ }]; [n] rounds are enough since [c] doubles. *)
Fixpoint size_loop (fuel : nat) (n c d : Z) : Z * Z :=
  match fuel with
  | O => (c, d)
  | S fuel => if c <? n then size_loop fuel n (c * 2) (d + 1) else (c, d)
  end.

Definition sizeToParams (n : Z) : Z * Z :=
  let '(c, d) := size_loop (Z.to_nat n) n 2 0 in (c, d + 1).

Record node := {
  isLeft : bool;
  parent : option nat;   (** index in the level above *)
}.

Definition newNode (index : nat) (parent : option nat) : node :=
  {| isLeft := Nat.even index; parent := parent |}.

(** The levels of a tree, leaves first: [newTree] builds the root and then
    [depth - 1] further levels of doubled size. *)
Fixpoint newTree_loop (levels : nat) (count : nat) (acc : list (list node)) : list (list node) :=
  match levels with
  | O => acc
  | S levels =>
      let nodes := map (fun i => newNode i (Some (i / 2)%nat)) (seq 0 count) in
      newTree_loop levels (count * 2) (nodes :: acc)
  end.

Definition newTree (depth : nat) : list (list node) :=
  newTree_loop (depth - 1) 2 [[newNode 0 None]].

(** The mutable part of a node; a nil slice is the empty one. *)
Record cell := Cell {
  state : Z;
  left_ : bytes;
  right_ : bytes;
}.

(** [atomic.AddInt32(&n.state, 1)%2 == 1], with the two's-complement wrap of
    [int32] and Go's remainder, which takes the sign of the dividend. *)
Definition i32 (z : Z) : Z := (z + 2 ^ 31) mod 2 ^ 32 - 2 ^ 31.

Definition toggle (c : cell) : bool * cell :=
  let state' := i32 (state c + 1) in
  (Z.rem state' 2 =? 1, Cell state' (left_ c) (right_ c)).

Definition set_left (s : bytes) (c : cell) : cell := Cell (state c) s (right_ c).
Definition set_right (s : bytes) (c : cell) : cell := Cell (state c) (left_ c) s.

(** A node is named by its level (the leaves are at level 0) and its index. *)
Abbreviation nodes := (nat * nat -> cell).

(** Where a goroutine is in [processSection] / [writeNode] / [writeFinalNode].
    At level [l] it carries the hash [s] of its ancestor of that level and acts
    on the parent [(S l, _)]; [None] is the nil slice of the final goroutine. *)
Inductive pc :=
| Start                                (** before the section is hashed *)
| Up (l : nat) (s : option bytes)      (** at the loop head *)
| Written (l : nat) (s : option bytes) (** children fields written, before [toggle] *)
| Won (l : nat)                        (** both children present, before [doHash] *)
| Stop (l : nat).                      (** returned *)

Section Hash.
Context (hash : bytes -> bytes) (segmentSize : nat).

Definition doHash (data : list bytes) : bytes := hash (mjoin data).

Definition zeros (n : nat) : bytes := replicate n 0.

(** [zerohashes\[i\]]. *)
Fixpoint zerohash (i : nat) : bytes :=
  match i with
  | O => zeros segmentSize
  | S i => doHash [zerohash i; zerohash i]
  end.

Record Conf := {
  c_segmentSize : nat;
  c_segmentCount : Z;
  c_capacity : Z;
  c_depth : nat;
  c_maxSize : Z;
  c_zerohashes : list bytes;
}.

Fixpoint zerohashes_loop (n : nat) (zeros : bytes) : list bytes :=
  match n with
  | O => []
  | S n => let zeros := doHash [zeros; zeros] in zeros :: zerohashes_loop n zeros
  end.

Definition NewConf (segmentCount capacity : Z) : Conf :=
  let '(count, depth) := sizeToParams segmentCount in
  {| c_segmentSize := segmentSize;
     c_segmentCount := segmentCount;
     c_capacity := capacity;
     c_depth := Z.to_nat depth;
     c_maxSize := count * Z.of_nat segmentSize;
     c_zerohashes := zeros segmentSize :: zerohashes_loop (Z.to_nat depth) (zeros segmentSize) |}.

(** ** Reference hasher (pkg/bmt/reference) *)

Record RefHasher := {
  maxDataLength : Z;
  sectionLength : Z;
}.

Definition NewRefHasher (count : Z) : RefHasher :=
  let c := (size_loop (Z.to_nat count) count 2 0).1 in
  {| maxDataLength := c * Z.of_nat segmentSize; sectionLength := 2 * Z.of_nat segmentSize |}.

(** [None]: the recursion did not end within [fuel]. *)
Fixpoint ref_hash (rh : RefHasher) (fuel : nat) (data : bytes) (length : Z) : option bytes :=
  if length =? sectionLength rh then Some (hash data)
  else match fuel with
       | O => None
       | S fuel =>
           let length := length / 2 in
           left ← ref_hash rh fuel (take (Z.to_nat length) data) length;
           right ← ref_hash rh fuel (drop (Z.to_nat length) data) length;
           Some (hash (left ++ right))
       end.

Definition ref_Hash (rh : RefHasher) (fuel : nat) (data : bytes) : option bytes :=
  let d := zeros (Z.to_nat (maxDataLength rh)) in
  let length := if maxDataLength rh <? zlen data then maxDataLength rh else zlen data in
  ref_hash rh fuel (copy_at 0 (take (Z.to_nat length) data) d) (maxDataLength rh).

(** ** The goroutines *)

(** [D]: levels above the leaves, [depth - 1]; [sec i]: the bytes of the
    [i]-th section. *)
Section Threads.
Context (D : nat) (sec : nat -> bytes).

(** Ancestor of section [t] at level [l]. *)
Definition anc (l t : nat) : nat := (t / 2 ^ l)%nat.

(** One atomic step of the goroutine of section [t]: its new position, the
    nodes, and the value it sends on the result channel.  [final]: it runs
    [writeFinalNode]. *)
Definition thread_step (final : bool) (t : nat) (x : pc) (N : nodes) :
    option (pc * nodes * option bytes) :=
  match x with
  | Start => Some (Up 0 (Some (doHash [sec t])), N, None)
  | Up l s =>
      if (l =? D)%nat then Some (Stop l, N, s)
      else
        let n := (S l, anc (S l) t) in
        let left := Nat.even (anc l t) in
        match s with
        | Some r =>
            if left then
              if final : bool
              then Some (Won l, <[n := set_left r (set_right (zerohash (S l)) (N n))]> N, None)
              else Some (Written l s, <[n := set_left r (N n)]> N, None)
            else Some (Written l s, <[n := set_right r (N n)]> N, None)
        | None =>
            if left then Some (Written l None, <[n := set_right (zerohash (S l)) (N n)]> N, None)
            else Some (Up (S l) None, N, None)
        end
  | Written l s =>
      let n := (S l, anc (S l) t) in
      let '(first, c) := toggle (N n) in
      let N := <[n := c]> N in
      if first : bool
      then Some (if final then Up (S l) None else Stop l, N, None)
      else Some (Won l, N, None)
  | Won l =>
      let n := (S l, anc (S l) t) in
      Some (Up (S l) (Some (doHash [left_ (N n); right_ (N n)])), N, None)
  | Stop _ => None
  end.

(** The value every node should carry. *)
Fixpoint merkle (l j : nat) : bytes :=
  match l with
  | O => doHash [sec j]
  | S l => doHash [merkle l (2 * j); merkle l (2 * j + 1)]
  end.
End Threads.
End Hash.

(** * Lemmas *)

Lemma size_loop_spec fuel n c d :
  0 < c -> n <= c * 2 ^ Z.of_nat fuel ->
  exists k, 0 <= k /\ size_loop fuel n c d = (c * 2 ^ k, d + k) /\ n <= c * 2 ^ k /\
    (0 < k -> c * 2 ^ (k - 1) < n).
Proof.
  revert c d. induction fuel as [|fuel IH]; intros c d Hc Hn; simpl.
  { exists 0. rewrite Z.mul_1_r, Z.add_0_r. simpl in Hn. split_and!; try lia. done. }
  destruct (Z.ltb_spec c n).
  - destruct (IH (c * 2) (d + 1)) as (k & Hk & -> & Hle & Hmin); [lia| |].
    { rewrite Nat2Z.inj_succ, Z.pow_succ_r in Hn by lia. lia. }
    exists (k + 1). rewrite Z.pow_add_r, Z.pow_1_r by lia.
    split_and!; [lia| |lia|].
    + f_equal; lia.
    + intros _. replace (k + 1 - 1) with k by lia.
      destruct (decide (k = 0)) as [->|]; [by rewrite Z.mul_1_r|].
      specialize (Hmin ltac:(lia)). replace k with (k - 1 + 1) by lia.
      rewrite Z.pow_add_r, Z.pow_1_r by lia. lia.
  - exists 0. rewrite Z.mul_1_r, Z.add_0_r. split_and!; try lia. done.
Qed.

Lemma pow2_ge_arg (n : nat) : Z.of_nat n <= 2 ^ Z.of_nat n.
Proof.
  induction n as [|n IH]; [done|].
  rewrite Nat2Z.inj_succ, Z.pow_succ_r by lia.
  pose proof (Z.pow_pos_nonneg 2 (Z.of_nat n)). lia.
Qed.

(** The smallest power of two that holds [n] segments, at least two. *)
Lemma sizeToParams_spec n :
  exists k : nat, (0 < k)%nat /\ sizeToParams n = (2 ^ Z.of_nat k, Z.of_nat k) /\
    (size_loop (Z.to_nat n) n 2 0).1 = 2 ^ Z.of_nat k /\
    n <= 2 ^ Z.of_nat k /\ ((1 < k)%nat -> 2 ^ (Z.of_nat k - 1) < n).
Proof.
  unfold sizeToParams. pose proof (pow2_ge_arg (Z.to_nat n)).
  destruct (size_loop_spec (Z.to_nat n) n 2 0) as (k & Hk & -> & Hle & Hmin); [lia|lia|].
  exists (Z.to_nat (k + 1)). rewrite Z2Nat.id by lia. simpl.
  assert (E : 2 * 2 ^ k = 2 ^ (k + 1)) by (rewrite Z.pow_add_r, Z.pow_1_r by lia; lia).
  split_and!; [lia|by rewrite E|by rewrite E|lia|].
  intros H1. specialize (Hmin ltac:(lia)).
  replace (k + 1 - 1) with (1 + (k - 1)) by lia. rewrite Z.pow_add_r by lia. lia.
Qed.

(** ** The tree of nodes *)

Lemma newTree_loop_lookup levels count acc l i :
  newTree_loop levels count acc !! l ≫= (fun r => r !! i) =
    if decide (l < levels)%nat
    then (if decide (i < count * 2 ^ (levels - S l))%nat then Some (newNode i (Some (i / 2)%nat)) else None)
    else acc !! (l - levels)%nat ≫= (fun r => r !! i).
Proof.
  revert count acc l. induction levels as [|levels IH]; intros count acc l.
  { rewrite decide_False by lia. cbn [newTree_loop]. by rewrite Nat.sub_0_r. }
  cbn [newTree_loop]. rewrite IH. repeat case_decide; try lia.
  - done.
  - replace (S levels - S l)%nat with (S (levels - S l)) in * by lia. rewrite Nat.pow_succ_r' in *. lia.
  - replace (S levels - S l)%nat with (S (levels - S l)) in * by lia. rewrite Nat.pow_succ_r' in *. lia.
  - done.
  - assert (l = levels) as -> by lia. rewrite Nat.sub_diag. cbn [lookup list_lookup mbind option_bind].
    rewrite list_lookup_fmap, lookup_seq_lt; [done|].
    replace (S levels - S levels)%nat with 0%nat in * by lia. simpl in *. lia.
  - assert (l = levels) as -> by lia. rewrite Nat.sub_diag. cbn [lookup list_lookup mbind option_bind].
    apply lookup_ge_None_2. rewrite length_map, length_seq.
    replace (S levels - S levels)%nat with 0%nat in * by lia. simpl in *. lia.
  - replace (l - levels)%nat with (S (l - S levels)) by lia. done.
Qed.

(** In a tree of [depth] levels the node [(l, i)] is a left child when [i] is
    even, and its parent is [(l + 1, i / 2)]; the root has none. *)
Lemma newTree_lookup depth l i : (0 < depth)%nat -> (l < depth)%nat ->
  newTree depth !! l ≫= (fun r => r !! i) =
    if decide (i < 2 ^ (depth - 1 - l))%nat
    then Some (newNode i (if decide (l = depth - 1)%nat then None else Some (i / 2)%nat)) else None.
Proof.
  intros Hd Hl. unfold newTree. rewrite newTree_loop_lookup.
  destruct (decide (l < depth - 1)%nat).
  - replace (2 * 2 ^ (depth - 1 - S l))%nat with (2 ^ (depth - 1 - l))%nat.
    + rewrite (decide_False (P := l = (depth - 1)%nat)) by lia. done.
    + rewrite <- Nat.pow_succ_r'. f_equal. lia.
  - assert (l = depth - 1)%nat as -> by lia. rewrite Nat.sub_diag. cbn [lookup list_lookup mbind option_bind].
    rewrite (decide_True (P := (depth - 1)%nat = (depth - 1)%nat)) by done.
    destruct i as [|i]; [done|]. rewrite decide_False by (simpl; lia). done.
Qed.

(** ** Zero hashes and the reference hasher *)

Section Ref.
Context (hash : bytes -> bytes) (segmentSize : nat).

Lemma zerohashes_loop_lookup n k i : (i < n)%nat ->
  zerohashes_loop hash n (zerohash hash segmentSize k) !! i = Some (zerohash hash segmentSize (k + S i)).
Proof.
  revert k i. induction n as [|n IH]; intros k i Hi; [lia|]. cbn [zerohashes_loop].
  destruct i as [|i].
  - simpl. replace (k + 1)%nat with (S k) by lia. done.
  - cbn [lookup list_lookup]. change (doHash hash [_; _]) with (zerohash hash segmentSize (S k)).
    rewrite IH by lia. f_equal. f_equal. lia.
Qed.

Lemma NewConf_zerohashes count capacity i :
  (i <= c_depth (NewConf hash segmentSize count capacity))%nat ->
  c_zerohashes (NewConf hash segmentSize count capacity) !! i = Some (zerohash hash segmentSize i).
Proof.
  unfold NewConf. destruct (sizeToParams count) as [c d]. cbn [c_depth c_zerohashes]. intros Hi.
  destruct i as [|i]; [done|]. cbn [lookup list_lookup].
  change (zeros segmentSize) with (zerohash hash segmentSize 0). by rewrite zerohashes_loop_lookup by lia.
Qed.

(** The [i]-th section of [data], padded with zeros. *)
Definition section (data : bytes) (i : nat) : bytes :=
  resize (2 * segmentSize) 0 (drop (i * (2 * segmentSize)) data).

Lemma merkle_zero sec l j : (forall i, sec i = zeros (2 * segmentSize)) ->
  merkle hash sec l j = zerohash hash segmentSize (S l).
Proof.
  intros Hz. revert j. induction l as [|l IH]; intros j.
  - cbn [merkle zerohash]. rewrite Hz. unfold doHash. f_equal.
    change (zeros (2 * segmentSize) ++ [] = zeros segmentSize ++ zeros segmentSize ++ []).
    rewrite !app_nil_r. unfold zeros. rewrite <- replicate_add. f_equal. lia.
  - cbn [merkle]. by rewrite !IH.
Qed.

Context (Hseg : (0 < segmentSize)%nat).

Lemma section_slice data i : ((i + 1) * (2 * segmentSize) <= length data)%nat ->
  section data i = take (2 * segmentSize) (drop (i * (2 * segmentSize)) data).
Proof.
  intros Hl. unfold section. rewrite resize_spec, length_drop.
  replace (2 * segmentSize - (length data - i * (2 * segmentSize)))%nat with 0%nat by lia.
  by rewrite app_nil_r.
Qed.

Lemma halves {A} (n i : nat) (l : list A) :
  take n (take (2 * n) (drop i l)) = take n (drop i l) /\
  drop n (take (2 * n) (drop i l)) = take n (drop (i + n) l).
Proof.
  split.
  - rewrite take_take. f_equal. lia.
  - rewrite <- drop_drop, (take_drop_commute (drop i l)). f_equal. f_equal. lia.
Qed.

Lemma ref_hash_merkle rh k fuel data j :
  sectionLength rh = 2 * Z.of_nat segmentSize -> (k <= fuel)%nat ->
  ((j + 1) * (2 ^ k * (2 * segmentSize)) <= length data)%nat ->
  ref_hash hash rh fuel (take (2 ^ k * (2 * segmentSize)) (drop (j * (2 ^ k * (2 * segmentSize))) data))
    (Z.of_nat (2 ^ k * (2 * segmentSize))) = Some (merkle hash (section data) k j).
Proof.
  intros Hrh. revert fuel j. induction k as [|k IH]; intros fuel j Hk Hlen.
  - rewrite Nat.pow_0_r, Nat.mul_1_l in *. cbn [merkle]. rewrite section_slice by lia.
    assert (E : (Z.of_nat (2 * segmentSize) =? sectionLength rh) = true) by (apply Z.eqb_eq; lia).
    unfold doHash. simpl mjoin. rewrite app_nil_r. destruct fuel; cbn [ref_hash]; by rewrite E.
  - destruct fuel as [|fuel]; [lia|]. rewrite Nat.pow_succ_r' in *.
    set (n := (2 ^ k * (2 * segmentSize))%nat) in *.
    assert (Hn : (2 * 2 ^ k * (2 * segmentSize) = 2 * n)%nat) by (unfold n; lia). rewrite Hn in *.
    assert (0 < n)%nat by (unfold n; pose proof (Nat.pow_nonzero 2 k); lia).
    assert (2 * segmentSize <= n)%nat by (unfold n; pose proof (Nat.pow_nonzero 2 k); nia).
    cbn [ref_hash]. rewrite (proj2 (Z.eqb_neq _ _)) by (rewrite Hrh; lia).
    replace (Z.of_nat (2 * n) / 2) with (Z.of_nat n) by (rewrite Nat2Z.inj_mul, Z.mul_comm, Z.div_mul; lia).
    rewrite Nat2Z.id. destruct (halves n (j * (2 * n)) data) as [-> ->].
    pose proof (IH fuel (2 * j)%nat) as IH1. pose proof (IH fuel (2 * j + 1)%nat) as IH2.
    replace (2 * j * n)%nat with (j * (2 * n))%nat in IH1 by lia.
    replace ((2 * j + 1) * n)%nat with (j * (2 * n) + n)%nat in IH2 by lia.
    rewrite IH1, IH2 by lia. cbn [mbind option_bind merkle]. unfold doHash. simpl mjoin. by rewrite app_nil_r.
Qed.

Lemma section_pad data k i : section (data ++ zeros k) i = section data i.
Proof.
  unfold section, zeros. rewrite drop_app, drop_replicate, !resize_spec, take_app, take_replicate, <- app_assoc.
  f_equal. rewrite <- replicate_add. f_equal. rewrite length_app, length_replicate. lia.
Qed.

Lemma merkle_ext (sec sec' : nat -> bytes) l j : (forall i, sec i = sec' i) ->
  merkle hash sec l j = merkle hash sec' l j.
Proof. intros He. revert j. induction l as [|l IH]; intros j; simpl; [by rewrite He|by rewrite !IH]. Qed.

Lemma NewConf_params count capacity : exists D,
  c_depth (NewConf hash segmentSize count capacity) = S D /\
  c_maxSize (NewConf hash segmentSize count capacity) = Z.of_nat (2 ^ D * (2 * segmentSize)) /\
  maxDataLength (NewRefHasher segmentSize count) = Z.of_nat (2 ^ D * (2 * segmentSize)).
Proof.
  destruct (sizeToParams_spec count) as (k & Hk & Hp & Hc & _).
  unfold NewConf, NewRefHasher. rewrite Hp, Hc. cbn [c_depth c_maxSize maxDataLength].
  destruct k as [|k]; [lia|]. exists k. rewrite Nat2Z.id, Nat2Z.inj_succ, Z.pow_succ_r by lia.
  rewrite !Nat2Z.inj_mul, Nat2Z.inj_pow. split_and!; lia.
Qed.

(** The reference hasher returns the Merkle root of the padded sections. *)
Lemma ref_Hash_merkle count D fuel data :
  maxDataLength (NewRefHasher segmentSize count) = Z.of_nat (2 ^ D * (2 * segmentSize)) -> (D <= fuel)%nat ->
  ref_Hash hash (NewRefHasher segmentSize count) fuel data =
    Some (merkle hash (section (take (2 ^ D * (2 * segmentSize)) data)) D 0).
Proof.
  intros Hmax Hf. unfold ref_Hash. rewrite Hmax. set (n := (2 ^ D * (2 * segmentSize))%nat) in *.
  assert (E : copy_at 0 (take (Z.to_nat (if Z.of_nat n <? zlen data then Z.of_nat n else zlen data)) data)
    (zeros (Z.to_nat (Z.of_nat n))) = take n data ++ zeros (n - length data)).
  { assert (take (Z.to_nat (if Z.of_nat n <? zlen data then Z.of_nat n else zlen data)) data = take n data) as ->.
    { destruct (Z.ltb_spec (Z.of_nat n) (zlen data)); [by rewrite Nat2Z.id|]. rewrite Nat2Z.id, !take_ge by lia. done. }
    unfold copy_at, zeros. rewrite Nat2Z.id, length_replicate, Nat.sub_0_r, take_0, Nat.add_0_l.
    rewrite take_take, Nat.min_id, drop_replicate, length_take. cbn [app]. do 2 f_equal. lia. }
  rewrite E. pose proof (ref_hash_merkle (NewRefHasher segmentSize count) D fuel (take n data ++ zeros (n - length data)) 0
    eq_refl Hf) as Hm. fold n in Hm. rewrite Nat.mul_0_l, drop_0 in Hm.
  assert (Hlen : length (take n data ++ zeros (n - length data)) = n).
  { unfold zeros. rewrite length_app, length_take, length_replicate. lia. }
  rewrite (take_ge (take n data ++ _)) in Hm by lia. rewrite Hm by lia. f_equal. apply merkle_ext. intros i. apply section_pad.
Qed.
End Ref.

(** ** The toggle over its whole life *)

Definition toggles (n : nat) (c : cell) : cell := Nat.iter n (fun c => (toggle c).2) c.

Lemma i32_succ z : i32 (i32 z + 1) = i32 (z + 1).
Proof.
  unfold i32. f_equal. replace ((z + 2 ^ 31) mod 2 ^ 32 - 2 ^ 31 + 1 + 2 ^ 31) with ((z + 2 ^ 31) mod 2 ^ 32 + 1) by lia.
  rewrite Zplus_mod_idemp_l. f_equal. lia.
Qed.

Lemma toggles_state n c : state c = 0 -> state (toggles n c) = i32 (Z.of_nat n).
Proof.
  intros Hc. induction n as [|n IH]; [done|].
  change (toggles (S n) c) with (toggle (toggles n c)).2. unfold toggle. cbn [snd state].
  rewrite IH, i32_succ. f_equal. lia.
Qed.

Lemma rem_i32 n : 0 <= n ->
  (Z.rem (i32 (n + 1)) 2 =? 1) = Z.even n && (n mod 2 ^ 32 <? 2 ^ 31).
Proof.
  intros Hn. unfold i32. rewrite Zeven_mod.
  set (r := n mod 2 ^ 32). set (s := (n + 1 + 2 ^ 31) mod 2 ^ 32).
  assert (Hr : 0 <= r < 2 ^ 32) by (apply Z.mod_pos_bound; lia).
  assert (Hs : s = if r <? 2 ^ 31 - 1 then r + 1 + 2 ^ 31 else r + 1 - 2 ^ 31).
  { unfold s. rewrite (Z.div_mod n (2 ^ 32)) by lia. fold r.
    destruct (Z.ltb_spec r (2 ^ 31 - 1)).
    - symmetry. apply (Z.mod_unique _ _ (n / 2 ^ 32)); lia.
    - symmetry. apply (Z.mod_unique _ _ (n / 2 ^ 32 + 1)); lia. }
  assert (Hp : n mod 2 = r mod 2).
  { unfold r. rewrite (Z.div_mod n (2 ^ 32)) at 1 by lia.
    replace (2 ^ 32 * (n / 2 ^ 32) + n mod 2 ^ 32) with (n mod 2 ^ 32 + (2 ^ 31 * (n / 2 ^ 32)) * 2) by lia.
    by rewrite Z.mod_add by lia. }
  rewrite Hp, Hs. clearbody r s. clear Hp Hs.
  destruct (Z.ltb_spec r (2 ^ 31 - 1)), (Z.ltb_spec r (2 ^ 31)); rewrite ?andb_true_r, ?andb_false_r.
  all: repeat match goal with |- context [?a =? ?b] => destruct (Z.eqb_spec a b) end; try done.
  all: exfalso; Z.to_euclidean_division_equations; lia.
Qed.

(** The [n]-th toggle of a node reports the first of two arrivals exactly on
    even counts below [2^31]; from then on the [int32] counter is negative and
    the first arrival is taken for the second one. *)
Theorem toggle_count n c : state c = 0 ->
  (toggle (toggles n c)).1 = Z.even (Z.of_nat n) && (Z.of_nat n mod 2 ^ 32 <? 2 ^ 31).
Proof.
  intros Hc. unfold toggle. cbn [fst]. rewrite toggles_state, i32_succ by done. apply rem_i32. lia.
Qed.

Lemma toggle_count_witness : (toggle (toggles 2 (Cell 0 [] []))).1 = true.
Proof. exact (toggle_count 2 (Cell 0 [] []) eq_refl). Defined.
