(* ===== verification/BmtConc.v ===== *)
(** * Every interleaving of the BMT goroutines computes the Merkle root

    The step relation interleaves the goroutines of sections [0 .. pos] at the
    grain of single stores, toggles and hashes; the goroutine of section [pos]
    runs [writeFinalNode].  The invariant is local to each node: it relates
    what the two subtrees have delivered, the toggle count and the fields. *)

From Stdlib Require Import ZArith Lia ZifyBool.
From stdpp Require Import base gmap list numbers functions.
From S2P Require Import Prelude Bmt.

Open Scope Z_scope.

Section Conc.
Context (hash : bytes -> bytes) (segmentSize D pos : nat) (sec : nat -> bytes).
Context (st0 : nat * nat -> Z).

Abbreviation H := (merkle hash sec).
Abbreviation zh := (zerohash hash segmentSize).

Record config := Config {
  T : nat -> pc;
  N : nodes;
  out : list bytes;
}.

Inductive cstep : config -> config -> Prop :=
| cstep_thread c t x N' o :
    (t <= pos)%nat ->
    thread_step hash segmentSize D sec (t =? pos)%nat t (T c t) (N c) = Some (x, N', o) ->
    cstep c (Config (<[t := x]> (T c)) N' (out c ++ option_list o)).

(** ** Positions *)

(** The goroutine has left the subtree of level [l]. *)
Definition outb (l : nat) (x : pc) : bool :=
  match x with
  | Start => false
  | Up m _ | Written m _ | Won m | Stop m => (l <=? m)%nat
  end.

(** It has toggled (or passed) the parent of its ancestor of level [l]. *)
Definition deliv (l : nat) (x : pc) : bool :=
  match x with
  | Start => false
  | Up m _ | Written m _ => (l <? m)%nat
  | Won m | Stop m => (l <=? m)%nat
  end.

(** It has written its field there. *)
Definition writ (l : nat) (x : pc) : bool :=
  match x with
  | Written m _ => (l <=? m)%nat
  | x => deliv l x
  end.

(** What the final goroutine has brought out of a subtree: nothing yet, nil, or
    the hash. *)
Inductive fstat := FNo | FNone | FSome.

#[local] Instance fstat_eq_dec : EqDecision fstat.
Proof. solve_decision. Defined.

(** ** The invariant at one node *)

Definition holds (T : nat -> pc) (l t : nat) (v : option bytes) : Prop :=
  forall s, T t = Up l s \/ T t = Written l s -> s = v.

Definition lost (T : nat -> pc) (l t : nat) : Prop :=
  if (t =? pos)%nat then outb (S l) (T t) = true else T t = Stop l.

Definition won (T : nat -> pc) (l t : nat) : Prop :=
  T t = Won l \/ outb (S l) (T t) = true.

Definition dl (T : nat -> pc) (l : nat) (p : option nat) : bool :=
  match p with Some t => deliv l (T t) | None => false end.

(** The meeting of the left and right arrivals [pl] and [pr] at the node
    [(S l, j)]; [w] is the one that came second. *)
Record meet (T : nat -> pc) (N : nodes) (l j : nat) (pl pr w : option nat) : Prop := {
  m_state : state (N (S l, j)) = st0 (S l, j) + Z.b2z (dl T l pl) + Z.b2z (dl T l pr);
  m_left : forall t, pl = Some t -> writ l (T t) = true -> left_ (N (S l, j)) = H l (2 * j);
  m_right : forall t, pr = Some t -> writ l (T t) = true -> right_ (N (S l, j)) = H l (2 * j + 1);
  m_win :
    match w with
    | None => (dl T l pl && dl T l pr = false)%bool /\
        (forall t, pl = Some t \/ pr = Some t -> deliv l (T t) = true -> lost T l t)
    | Some t => dl T l pl = true /\ dl T l pr = true /\ won T l t /\
        exists t', lost T l t' /\ (pl = Some t /\ pr = Some t' \/ pl = Some t' /\ pr = Some t)
    end;
}.

(** The values carried by the goroutines that left the subtree [(l, j)]. *)
Definition carries (T : nat -> pc) (l j : nat) (f : fstat) (em : option nat) : Prop :=
  (forall t, em = Some t -> holds T l t (Some (H l j))) /\
  match f with
  | FNo => True
  | FNone => holds T l pos None
  | FSome => holds T l pos (Some (H l j))
  end.

Definition em_of (T : nat -> pc) (l : nat) (w : option nat) : option nat :=
  match w with
  | Some t => if (t =? pos)%nat then None else if outb (S l) (T t) then Some t else None
  | None => None
  end.

Definition f_of (T : nat -> pc) (l : nat) (w : option nat) : fstat :=
  if outb (S l) (T pos) then (if decide (w = Some pos) then FSome else FNone) else FNo.

Definition solo (T : nat -> pc) (N : nodes) (l j : nat) : Prop :=
  state (N (S l, j)) = st0 (S l, j) /\
  (T pos = Up l (Some (H l (2 * j))) \/
   (T pos = Won l /\ left_ (N (S l, j)) = H l (2 * j) /\ right_ (N (S l, j)) = H l (2 * j + 1)) \/
   outb (S l) (T pos) = true).

(** Status [(f, em)] of the node [(S l, j)] from the statuses of its children:
    [em] is the goroutine, other than the final one, that left with the hash. *)
Definition node_rel (T : nat -> pc) (N : nodes) (l j : nat)
    (fa : fstat) (ea : option nat) (fb : fstat) (eb : option nat) (f : fstat) (em : option nat) : Prop :=
  if decide (anc l pos = 2 * j + 1)%nat then
    exists w, meet T N l j ea (match fb with FSome => Some pos | _ => eb end) w /\
      em = em_of T l w /\ f = f_of T l w /\
      (fb = FNone -> T pos = Up l None \/ outb (S l) (T pos) = true)
  else if decide (anc l pos = 2 * j)%nat then
    match fa with
    | FSome => solo T N l j /\ em = None /\ f = f_of T l (Some pos)
    | _ => exists w, meet T N l j ea (match fa with FNone => Some pos | _ => None end) w /\
        em = em_of T l w /\ f = f_of T l w
    end
  else
    exists w, meet T N l j ea eb w /\ em = em_of T l w /\ f = FNo.

Fixpoint Inv (T : nat -> pc) (N : nodes) (l j : nat) (f : fstat) (em : option nat) : Prop :=
  if decide (anc l pos < j)%nat then f = FNo /\ em = None
  else
    match l with
    | O =>
        if decide (j = pos)
        then em = None /\ f = (if outb 0 (T j) then FSome else FNo)
        else f = FNo /\ em = (if outb 0 (T j) then Some j else None)
    | S l =>
        exists fa ea fb eb,
          Inv T N l (2 * j) fa ea /\ carries T l (2 * j) fa ea /\
          Inv T N l (2 * j + 1) fb eb /\ carries T l (2 * j + 1) fb eb /\
          node_rel T N l j fa ea fb eb f em
    end.

(** ** Arithmetic of ancestors *)

Lemma anc_0 t : anc 0 t = t.
Proof. unfold anc. by rewrite Nat.pow_0_r, Nat.div_1_r. Qed.

Lemma anc_S l t : anc (S l) t = (anc l t / 2)%nat.
Proof. unfold anc. rewrite Nat.pow_succ_r', Nat.mul_comm, Nat.Div0.div_div. done. Qed.

Lemma anc_split l t :
  anc l t = (2 * anc (S l) t + (if Nat.even (anc l t) then 0 else 1))%nat.
Proof.
  rewrite anc_S. generalize (anc l t). intros n.
  destruct (Nat.Even_or_Odd n) as [[k ->]|[k ->]].
  - rewrite Nat.even_mul. simpl Nat.even. cbn [orb].
    rewrite <- (Nat.div_unique (2 * k) 2 k 0); lia.
  - rewrite Nat.even_add, Nat.even_mul. simpl Nat.even. cbn [orb Bool.eqb].
    rewrite <- (Nat.div_unique (2 * k + 1) 2 k 1); lia.
Qed.

Lemma anc_child l t j : anc (S l) t = j -> anc l t = (2 * j)%nat \/ anc l t = (2 * j + 1)%nat.
Proof. intros <-. pose proof (anc_split l t). destruct (Nat.even _); lia. Qed.

Lemma anc_child_inv l t j : anc l t = (2 * j)%nat \/ anc l t = (2 * j + 1)%nat -> anc (S l) t = j.
Proof. pose proof (anc_split l t). destruct (Nat.even _); lia. Qed.

Lemma anc_mono l t t' : (t <= t')%nat -> (anc l t <= anc l t')%nat.
Proof. intros. unfold anc. apply Nat.Div0.div_le_mono. done. Qed.

(** ** Facts about one position *)

Ltac pc_lia := unfold outb, deliv, writ in *; repeat case_match; simplify_eq; try done; lia.

Lemma outb_S l x : outb (S l) x = true -> outb l x = true.
Proof. pc_lia. Qed.

Lemma outb_S_deliv l x : outb (S l) x = true -> deliv l x = true.
Proof. pc_lia. Qed.

Lemma deliv_outb l x : deliv l x = true -> outb l x = true.
Proof. pc_lia. Qed.

Lemma deliv_writ l x : deliv l x = true -> writ l x = true.
Proof. pc_lia. Qed.

Lemma Stop_not_outb l : outb (S l) (Stop l) = false.
Proof. pc_lia. Qed.

Hint Resolve outb_S outb_S_deliv deliv_outb deliv_writ : go.

(** ** Facts about the invariant *)

Lemma Inv_S Th Nd l j f em : (j <= anc (S l) pos)%nat ->
  Inv Th Nd (S l) j f em <->
  exists fa ea fb eb,
    Inv Th Nd l (2 * j) fa ea /\ carries Th l (2 * j) fa ea /\
    Inv Th Nd l (2 * j + 1) fb eb /\ carries Th l (2 * j + 1) fb eb /\
    node_rel Th Nd l j fa ea fb eb f em.
Proof. intros Hj. cbn [Inv]. by rewrite decide_False by lia. Qed.

Lemma em_of_Some Th l w t : em_of Th l w = Some t ->
  w = Some t /\ t <> pos /\ outb (S l) (Th t) = true.
Proof.
  unfold em_of. intros Hem. destruct w as [t'|]; [|done].
  destruct (Nat.eqb_spec t' pos); [done|]. destruct (outb (S l) (Th t')) eqn:E; [|done].
  simplify_eq. done.
Qed.

Lemma meet_w_part Th Nd l j pl pr w t : meet Th Nd l j pl pr w -> w = Some t ->
  pl = Some t \/ pr = Some t.
Proof. intros [_ _ _ Hw] ->. naive_solver. Qed.

Record facts (Th : nat -> pc) (l j : nat) (f : fstat) (em : option nat) : Prop := {
  fa_em : forall t, em = Some t ->
    t <> pos /\ (t <= pos)%nat /\ anc l t = j /\ outb l (Th t) = true;
  fa_f : f <> FNo -> anc l pos = j /\ outb l (Th pos) = true;
  fa_FSome : f = FSome -> em = None;
  fa_FNo : anc l pos = j -> f = FNo -> outb l (Th pos) = false;
  fa_uniq : forall t, t <> pos -> (t <= pos)%nat -> anc l t = j -> outb l (Th t) = true -> em = Some t;
}.

Lemma f_of_spec Th l w :
  match f_of Th l w with
  | FNo => outb (S l) (Th pos) = false
  | FNone => outb (S l) (Th pos) = true /\ w <> Some pos
  | FSome => outb (S l) (Th pos) = true /\ w = Some pos
  end.
Proof. unfold f_of. destruct (outb _ _); [|done]. by case_decide. Qed.

(** A goroutine that takes part and is past the node is the winner. *)
Lemma meet_uniq Th Nd l j pl pr w t : meet Th Nd l j pl pr w ->
  t <> pos -> pl = Some t \/ pr = Some t -> outb (S l) (Th t) = true -> em_of Th l w = Some t.
Proof.
  intros [_ _ _ Hw] Hne Hp Hout.
  assert (Hnl : ~ lost Th l t).
  { unfold lost. rewrite (proj2 (Nat.eqb_neq _ _) Hne). intros E. by rewrite E, Stop_not_outb in Hout. }
  destruct w as [t'|].
  - destruct Hw as (_ & _ & _ & t2 & Hl2 & Ht). assert (t' = t) as -> by naive_solver.
    simpl. by rewrite (proj2 (Nat.eqb_neq _ _) Hne), Hout.
  - destruct Hw as [_ Hl]. destruct Hnl. apply Hl; [done|]. eauto with go.
Qed.


Definition parts_ok (Th : nat -> pc) (l j : nat) (pl pr : option nat) : Prop :=
  (forall t, pl = Some t \/ pr = Some t -> t <> pos ->
     (t <= pos)%nat /\ anc (S l) t = j) /\
  (forall t, t <> pos -> (t <= pos)%nat -> anc (S l) t = j -> outb l (Th t) = true ->
     pl = Some t \/ pr = Some t).

Lemma meet_facts Th Nd l j pl pr w : meet Th Nd l j pl pr w -> parts_ok Th l j pl pr ->
  (forall t, em_of Th l w = Some t ->
     t <> pos /\ (t <= pos)%nat /\ anc (S l) t = j /\ outb (S l) (Th t) = true) /\
  (forall t, t <> pos -> (t <= pos)%nat -> anc (S l) t = j -> outb (S l) (Th t) = true ->
     em_of Th l w = Some t).
Proof.
  intros Hm [Hp1 Hp2]. split.
  - intros t (Hw & Hne & Hout)%em_of_Some. pose proof (meet_w_part _ _ _ _ _ _ _ _ Hm Hw) as Hp.
    destruct (Hp1 t Hp Hne). done.
  - intros t Hne Hle Ha Hout. eapply meet_uniq; eauto with go.
Qed.

Lemma node_facts Th Nd l j fa ea fb eb f em : (j <= anc (S l) pos)%nat ->
  facts Th l (2 * j) fa ea -> facts Th l (2 * j + 1) fb eb ->
  node_rel Th Nd l j fa ea fb eb f em -> facts Th (S l) j f em.
Proof.
  intros Hle Ha Hb Hn. unfold node_rel in Hn.
  assert (Hparts : forall pr, (forall t, pr = Some t -> t <> pos -> eb = Some t) ->
    (forall t, eb = Some t -> pr = Some t) -> parts_ok Th l j ea pr).
  { intros pr H1 H2. split.
    - intros t Ht Hne. assert (ea = Some t \/ eb = Some t) as [E|E] by naive_solver.
      + destruct (fa_em _ _ _ _ _ Ha t E) as (_ & ? & E' & _). split; [done|]. apply anc_child_inv. lia.
      + destruct (fa_em _ _ _ _ _ Hb t E) as (_ & ? & E' & _). split; [done|]. apply anc_child_inv. lia.
    - intros t Hne Ht Hanc Hout. apply anc_child in Hanc as [Hanc|Hanc].
      + left. by apply (fa_uniq _ _ _ _ _ Ha).
      + right. apply H2. by apply (fa_uniq _ _ _ _ _ Hb). }
  destruct (decide (anc l pos = 2 * j + 1)%nat) as [HR|HnR];
    [|destruct (decide (anc l pos = 2 * j)%nat) as [HL|HnL]].
  - destruct Hn as (w & Hm & -> & -> & _).
    destruct (meet_facts _ _ _ _ _ _ _ Hm) as [M1 M2].
    { apply Hparts; destruct fb; try done; [intros; naive_solver|].
      by rewrite (fa_FSome _ _ _ _ _ Hb). }
    pose proof (f_of_spec Th l w) as Hf. split; try done.
    + intros Hne. split; [apply anc_child_inv; lia|]. by destruct (f_of Th l w); destruct_and?.
    + intros E. rewrite E in Hf. destruct Hf as [_ ->]. simpl. by rewrite Nat.eqb_refl.
    + intros _ E. by rewrite E in Hf.
  - assert (eb = None) as ->.
    { destruct eb as [t|]; [|done]. destruct (fa_em _ _ _ _ _ Hb t eq_refl) as (_ & Ht & E & _).
      apply (anc_mono l) in Ht. lia. }
    destruct fa.
    all: swap 1 3.
    { destruct Hn as (_ & -> & ->). pose proof (f_of_spec Th l (Some pos)) as Hf. split; try done.
      - intros Hne. split; [apply anc_child_inv; lia|]. by destruct (f_of Th l _); destruct_and?.
      - intros _ E. by rewrite E in Hf.
      - intros t Hne Ht Hanc Hout. apply anc_child in Hanc as [Hanc|Hanc].
        + rewrite <- (fa_uniq _ _ _ _ _ Ha t); eauto with go. by rewrite (fa_FSome _ _ _ _ _ Ha).
        + apply (anc_mono l) in Ht. lia. }
    all: destruct Hn as (w & Hm & -> & ->).
    all: destruct (meet_facts _ _ _ _ _ _ _ Hm) as [M1 M2]; [apply Hparts; naive_solver|].
    all: pose proof (f_of_spec Th l w) as Hf; split; try done.
    all: first [intros Hne; split; [apply anc_child_inv; lia|]; by destruct (f_of Th l w); destruct_and?
      |intros E; rewrite E in Hf; destruct Hf as [_ ->]; simpl; by rewrite Nat.eqb_refl
      |intros _ E; by rewrite E in Hf].
  - destruct Hn as (w & Hm & -> & ->). destruct (meet_facts _ _ _ _ _ _ _ Hm) as [M1 M2].
    { by apply Hparts. }
    split; try done. intros E. apply anc_child in E. lia.
Qed.

Lemma Inv_facts Th Nd l j f em : Inv Th Nd l j f em -> facts Th l j f em.
Proof.
  revert j f em. induction l as [|l IH]; intros j f em HI.
  - cbn [Inv] in HI. rewrite anc_0 in HI. destruct (decide (pos < j)%nat) as [|Hle].
    { destruct HI as [-> ->]. split; try done; intros *; rewrite ?anc_0; lia. }
    destruct (decide (j = pos)) as [->|Hne]; destruct HI as [-> ->];
      split; try done; rewrite ?anc_0; intros *; rewrite ?anc_0.
    + by destruct (outb 0 (Th pos)).
    + by destruct (outb 0 (Th pos)).
    + done.
    + destruct (outb 0 (Th j)) eqn:E; [|done]. intros [= <-]. split_and!; [done|lia|done|done].
    + done.
    + intros _ _ -> ->. done.
  - destruct (decide (anc (S l) pos < j)%nat) as [Hlt|Hle].
    { cbn [Inv] in HI. rewrite decide_True in HI by done. destruct HI as [-> ->].
      split; try done; [lia|]. intros t _ Ht <-. pose proof (anc_mono (S l) t pos Ht). lia. }
    apply Inv_S in HI; [|lia]. destruct HI as (fa & ea & fb & eb & Ha & Ca & Hb & Cb & Hn).
    eapply node_facts; [lia|eauto..].
Qed.

(** ** Frame: what a node does not see

    The invariant of a subtree is insensitive to goroutines that have left it. *)

Definition sim (l : nat) (x y : pc) : Prop :=
  x = y \/ (outb l x = true /\ outb l y = true).

Lemma sim_S l x y : sim (S l) x y -> sim l x y.
Proof. intros [->|[??]]; [by left|right]. eauto with go. Qed.

Record agree (l : nat) (x y : pc) : Prop := {
  ag_deliv : deliv l x = deliv l y;
  ag_writ : writ l x = writ l y;
  ag_outS : outb (S l) x = outb (S l) y;
  ag_out : outb l x = outb l y;
  ag_Up : forall s, x = Up l s <-> y = Up l s;
  ag_Written : forall s, x = Written l s <-> y = Written l s;
  ag_Won : x = Won l <-> y = Won l;
  ag_Stop : x = Stop l <-> y = Stop l;
}.

Lemma sim_agree l x y : sim (S l) x y -> agree l x y.
Proof.
  intros [->|[Hx Hy]]; [done|].
  assert (Hgen : forall z, outb (S l) z = true ->
    deliv l z = true /\ writ l z = true /\ outb l z = true /\
    (forall s, z <> Up l s) /\ (forall s, z <> Written l s) /\ z <> Won l /\ z <> Stop l).
  { intros z Hz. split_and!; eauto with go; intros; intros ->; unfold outb in Hz; lia. }
  destruct (Hgen x Hx) as (?&?&?&?&?&?&?), (Hgen y Hy) as (?&?&?&?&?&?&?).
  split; try congruence; naive_solver.
Qed.

Lemma agree_lost Th Th' l t : agree l (Th t) (Th' t) -> lost Th l t <-> lost Th' l t.
Proof. intros Ha. unfold lost. destruct (t =? pos)%nat; [by rewrite (ag_outS _ _ _ Ha)|apply Ha]. Qed.

Lemma agree_won Th Th' l t : agree l (Th t) (Th' t) -> won Th l t <-> won Th' l t.
Proof. intros Ha. unfold won. by rewrite (ag_outS _ _ _ Ha), (ag_Won _ _ _ Ha). Qed.

Lemma agree_holds Th Th' l t v : agree l (Th t) (Th' t) -> holds Th l t v <-> holds Th' l t v.
Proof.
  intros Ha. unfold holds. setoid_rewrite (ag_Up _ _ _ Ha). by setoid_rewrite (ag_Written _ _ _ Ha).
Qed.

Lemma dl_ext Th Th' l p : (forall t, p = Some t -> agree l (Th t) (Th' t)) -> dl Th l p = dl Th' l p.
Proof. intros Ha. destruct p as [t|]; [|done]. simpl. by apply ag_deliv, Ha. Qed.

Lemma meet_ext Th Th' Nd Nd' l j pl pr w :
  (forall t, pl = Some t \/ pr = Some t -> agree l (Th t) (Th' t)) ->
  Nd' (S l, j) = Nd (S l, j) ->
  meet Th Nd l j pl pr w -> meet Th' Nd' l j pl pr w.
Proof.
  intros Ha HN [M1 M2 M3 M4].
  assert (Hl : dl Th l pl = dl Th' l pl) by (apply dl_ext; naive_solver).
  assert (Hr : dl Th l pr = dl Th' l pr) by (apply dl_ext; naive_solver).
  split; rewrite ?HN.
  - by rewrite M1, Hl, Hr.
  - intros t Ht. rewrite <- (ag_writ _ _ _ (Ha t ltac:(auto))). eauto.
  - intros t Ht. rewrite <- (ag_writ _ _ _ (Ha t ltac:(auto))). eauto.
  - destruct w as [t|].
    + destruct M4 as (H1 & H2 & H3 & t' & H4 & H5). rewrite <- Hl, <- Hr. split_and!; [done..| |].
      * apply (agree_won Th Th'); [apply Ha; naive_solver|done].
      * exists t'. split; [apply (agree_lost Th Th'); [apply Ha; naive_solver|done]|done].
    + destruct M4 as [H1 H2]. rewrite <- Hl, <- Hr. split; [done|].
      intros t Ht Hd. apply (agree_lost Th Th'); [by apply Ha|].
      apply H2; [done|]. by rewrite (ag_deliv _ _ _ (Ha t Ht)).
Qed.

Lemma em_of_ext Th Th' l w : (forall t, w = Some t -> outb (S l) (Th t) = outb (S l) (Th' t)) ->
  em_of Th l w = em_of Th' l w.
Proof. intros Ha. destruct w as [t|]; [|done]. simpl. by rewrite Ha. Qed.

Lemma f_of_ext Th Th' l w : outb (S l) (Th pos) = outb (S l) (Th' pos) -> f_of Th l w = f_of Th' l w.
Proof. unfold f_of. by intros ->. Qed.

Lemma carries_ext Th Th' l j f em :
  (forall t, em = Some t -> agree l (Th t) (Th' t)) ->
  (f <> FNo -> agree l (Th pos) (Th' pos)) ->
  carries Th l j f em -> carries Th' l j f em.
Proof.
  intros Ha Hp [C1 C2]. split.
  - intros t Ht. apply (agree_holds Th Th'); eauto.
  - destruct f; [done|apply (agree_holds Th Th'); [by apply Hp|done]..].
Qed.

Lemma node_rel_ext Th Th' Nd Nd' l j fa ea fb eb f em :
  (j <= anc (S l) pos)%nat ->
  (forall t, ea = Some t \/ eb = Some t -> agree l (Th t) (Th' t)) ->
  (anc (S l) pos = j -> agree l (Th pos) (Th' pos)) ->
  Nd' (S l, j) = Nd (S l, j) ->
  node_rel Th Nd l j fa ea fb eb f em -> node_rel Th' Nd' l j fa ea fb eb f em.
Proof.
  intros Hj Ha Hp HN. unfold node_rel.
  destruct (decide (anc l pos = 2 * j + 1)%nat) as [HR|HnR];
    [|destruct (decide (anc l pos = 2 * j)%nat) as [HL|HnL]].
  - specialize (Hp ltac:(apply anc_child_inv; lia)).
    intros (w & Hm & -> & -> & Hf). exists w.
    assert (Hparts : forall t, ea = Some t \/ match fb with FSome => Some pos | _ => eb end = Some t ->
      agree l (Th t) (Th' t)) by (destruct fb; naive_solver).
    split_and!.
    + by eapply meet_ext.
    + apply em_of_ext. intros t Hw. apply ag_outS, Hparts. by eapply meet_w_part.
    + apply f_of_ext, Hp.
    + intros E. by rewrite <- (ag_Up _ _ _ Hp), <- (ag_outS _ _ _ Hp); auto.
  - specialize (Hp ltac:(apply anc_child_inv; lia)). destruct fa.
    all: swap 1 3.
    { intros ([Hs1 Hs2] & -> & ->). split_and!; [|done|by apply f_of_ext, Hp]. unfold solo.
      by rewrite HN, <- (ag_Up _ _ _ Hp), <- (ag_Won _ _ _ Hp), <- (ag_outS _ _ _ Hp). }
    all: intros (w & Hm & -> & ->); exists w; split_and!;
      [eapply meet_ext; [|done|done]; naive_solver| |apply f_of_ext, Hp].
    all: apply em_of_ext; intros t Hw; apply (meet_w_part _ _ _ _ _ _ _ _ Hm) in Hw; apply ag_outS; naive_solver.
  - intros (w & Hm & -> & ->). exists w. split_and!; [by eapply meet_ext| |done].
    apply em_of_ext. intros t Hw. apply ag_outS, Ha. by eapply meet_w_part.
Qed.

(** Nodes of the subtree [(l, j)]. *)
Definition within (l j : nat) (v : nat * nat) : Prop :=
  (v.1 <= l)%nat /\ (v.2 / 2 ^ (l - v.1))%nat = j.

Lemma within_child l j v : within l (2 * j) v \/ within l (2 * j + 1) v -> within (S l) j v.
Proof.
  unfold within. destruct v as [m i]. simpl. intros Hv. split; [lia|].
  assert (m <= l)%nat by lia. replace (S l - m)%nat with (S (l - m)) by lia.
  rewrite Nat.pow_succ_r', Nat.mul_comm, <- Nat.Div0.div_div.
  destruct Hv as [[_ ->]|[_ ->]].
  - symmetry. apply (Nat.div_unique _ 2 j 0); lia.
  - symmetry. apply (Nat.div_unique _ 2 j 1); lia.
Qed.

Lemma within_self l j : within (S l) j (S l, j).
Proof. unfold within. simpl. split; [lia|]. by rewrite Nat.sub_diag, Nat.div_1_r. Qed.

Lemma Inv_frame Th Th' Nd Nd' l j f em :
  (forall t, anc l t = j -> sim l (Th t) (Th' t)) ->
  (forall v, within l j v -> Nd' v = Nd v) ->
  Inv Th Nd l j f em -> Inv Th' Nd' l j f em.
Proof.
  revert j f em. induction l as [|l IH]; intros j f em HT HN HI.
  - cbn [Inv] in *. case_decide; [done|].
    assert (outb 0 (Th j) = outb 0 (Th' j)) as <-; [|done].
    destruct (HT j) as [->|[-> ->]]; [by rewrite anc_0|done..].
  - destruct (decide (anc (S l) pos < j)%nat).
    { cbn [Inv] in *. rewrite decide_True in * by done. done. }
    apply Inv_S in HI; [|lia]. apply Inv_S; [lia|].
    destruct HI as (fa & ea & fb & eb & Ha & Ca & Hb & Cb & Hn).
    pose proof (Inv_facts _ _ _ _ _ _ Ha) as Fa. pose proof (Inv_facts _ _ _ _ _ _ Hb) as Fb.
    assert (HTa : forall t, anc l t = (2 * j)%nat \/ anc l t = (2 * j + 1)%nat -> sim (S l) (Th t) (Th' t)).
    { intros t Ht. apply HT. by apply anc_child_inv. }
    assert (Hag : forall t, ea = Some t \/ eb = Some t -> agree l (Th t) (Th' t)).
    { intros t Ht. apply sim_agree, HTa.
      destruct Ht as [Ht|Ht]; [apply (fa_em _ _ _ _ _ Fa) in Ht|apply (fa_em _ _ _ _ _ Fb) in Ht]; naive_solver. }
    exists fa, ea, fb, eb. split_and!.
    + apply IH; [|intros; apply HN, within_child; auto|done]. intros t Ht. apply sim_S, HTa. auto.
    + eapply carries_ext; [| |done]; [naive_solver|].
      intros Hf. apply sim_agree, HTa. left. by apply (fa_f _ _ _ _ _ Fa).
    + apply IH; [|intros; apply HN, within_child; auto|done]. intros t Ht. apply sim_S, HTa. auto.
    + eapply carries_ext; [| |done]; [naive_solver|].
      intros Hf. apply sim_agree, HTa. right. by apply (fa_f _ _ _ _ _ Fb).
    + eapply node_rel_ext; [lia|done| |apply HN, within_self|done].
      intros E. by apply sim_agree, HT.
Qed.

(** ** A goroutine leaves a subtree

    [ext]: how the status of the subtree [(l, j)] may change when goroutine [t]
    moves from [Th t] to [Th' t]: not at all, or [t] has just arrived at the
    parent. *)

Inductive ext (Th Th' : nat -> pc) (t l j : nat) (f : fstat) (em : option nat) :
    fstat -> option nat -> Prop :=
| ext_same : outb l (Th' t) = false -> ext Th Th' t l j f em f em
| ext_em : t <> pos -> em = None -> Th' t = Up l (Some (H l j)) ->
    ext Th Th' t l j f em f (Some t)
| ext_none : t = pos -> f = FNo -> Th' t = Up l None -> ext Th Th' t l j f em FNone em
| ext_some : t = pos -> f = FNo -> em = None -> Th' t = Up l (Some (H l j)) ->
    ext Th Th' t l j f em FSome em.

Definition grow (t : nat) (p p' : option nat) : Prop := p' = p \/ (p = None /\ p' = Some t).

Lemma Up_not_outb l s : outb (S l) (Up l s) = false.
Proof. unfold outb. lia. Qed.

Lemma dl_grow Th Th' l t p p' :
  grow t p p' -> (forall t', p = Some t' -> Th' t' = Th t') ->
  (p' = p \/ exists s, Th' t = Up l s) -> dl Th' l p' = dl Th l p.
Proof.
  intros [->|[-> ->]] He Hu.
  - destruct p as [t'|]; [|done]. simpl. by rewrite He.
  - destruct Hu as [|[s E]]; [done|]. simpl. rewrite E. apply Nat.ltb_irrefl.
Qed.

Lemma writ_Up l s : writ l (Up l s) = false.
Proof. simpl. apply Nat.ltb_irrefl. Qed.

Lemma meet_grow Th Th' Nd Nd' l j t pl pr pl' pr' w :
  grow t pl pl' -> grow t pr pr' ->
  ((pl' = pl /\ pr' = pr) \/ exists s, Th' t = Up l s) ->
  (forall t', pl = Some t' \/ pr = Some t' -> Th' t' = Th t') ->
  Nd' (S l, j) = Nd (S l, j) ->
  meet Th Nd l j pl pr w -> meet Th' Nd' l j pl' pr' w.
Proof.
  intros Hgl Hgr Hu He HN [M1 M2 M3 M4].
  assert (Hl : dl Th' l pl' = dl Th l pl) by (apply (dl_grow _ _ _ t); naive_solver).
  assert (Hr : dl Th' l pr' = dl Th l pr) by (apply (dl_grow _ _ _ t); naive_solver).
  assert (Hold : forall p p' t', grow t p p' -> (p = pl \/ p = pr) -> (p' = pl' /\ p = pl \/ p' = pr' /\ p = pr) ->
    p' = Some t' -> writ l (Th' t') = true -> p = Some t' /\ writ l (Th t') = true).
  { intros p p' t' Hg Hp Hp' E Hw. destruct Hg as [->|[-> ->]].
    - split; [done|]. rewrite <- He by naive_solver. done.
    - simplify_eq. destruct Hu as [|[s Hs]]; [naive_solver|]. by rewrite Hs, writ_Up in Hw. }
  split; rewrite ?HN, ?Hl, ?Hr; [done| | |].
  - intros t' Ht Hw. destruct (Hold pl pl' t') as [??]; eauto.
  - intros t' Ht Hw. destruct (Hold pr pr' t') as [??]; eauto.
  - destruct w as [t1|].
    + destruct M4 as (H1 & H2 & H3 & t2 & H4 & H5).
      assert (pl' = pl /\ pr' = pr) as [-> ->] by (unfold grow in *; naive_solver).
      split_and!; [done..| |exists t2; split; [|done]].
      * unfold won in *. rewrite He by naive_solver. done.
      * unfold lost in *. rewrite He by naive_solver. done.
    + destruct M4 as [H1 H2]. split; [done|]. intros t' Ht Hd.
      assert (pl = Some t' \/ pr = Some t') as Hold'.
      { pose proof (deliv_writ _ _ Hd). destruct Ht as [Ht|Ht].
        - left. by destruct (Hold pl pl' t') as [??]; eauto.
        - right. by destruct (Hold pr pr' t') as [??]; eauto. }
      unfold lost. rewrite He in * by done. by apply H2.
Qed.

Lemma ext_grow Th Th' t l j f em f' em' : ext Th Th' t l j f em f' em' -> grow t em em'.
Proof. destruct 1; [by left|by right|by left..]. Qed.

Lemma ext_Up Th Th' t l j f em f' em' : ext Th Th' t l j f em f' em' ->
  (f' = f /\ em' = em) \/ exists s, Th' t = Up l s.
Proof. destruct 1; eauto. Qed.

Lemma ext_outS Th Th' t l j f em f' em' : ext Th Th' t l j f em f' em' ->
  outb (S l) (Th' t) = false.
Proof.
  destruct 1 as [E| | |]; [|simplify_eq/=; by match goal with E : Th' _ = _ |- _ => rewrite E, Up_not_outb end..].
  destruct (outb (S l) (Th' t)) eqn:E'; [|done]. by rewrite outb_S in E.
Qed.

Lemma ext_grow_R Th Th' t l j f em f' em' : ext Th Th' t l j f em f' em' ->
  grow t (match f with FSome => Some pos | _ => em end) (match f' with FSome => Some pos | _ => em' end).
Proof.
  intros He. destruct He; simplify_eq; [by left| |by left|by right].
  destruct f; first [by left|by right].
Qed.

Lemma ext_grow_L Th Th' t l j f em f' em' : ext Th Th' t l j f em f' em' -> f' <> FSome ->
  grow t (match f with FNone => Some pos | _ => None end) (match f' with FNone => Some pos | _ => None end).
Proof. intros He Hne. by destruct He; simplify_eq; [left|left|right]. Qed.

Lemma ext_FSome Th Th' t l j f em em' : ext Th Th' t l j f em FSome em' -> f <> FSome ->
  t = pos /\ f = FNo /\ em = None /\ em' = None /\ Th' pos = Up l (Some (H l j)).
Proof. intros He Hne. by inversion He; simplify_eq. Qed.

Lemma ext_of_FSome Th Th' t l j f' em em' : ext Th Th' t l j FSome em f' em' -> f' = FSome.
Proof. intros He. by inversion He. Qed.

Lemma ext_FNone Th Th' t l j f em em' : ext Th Th' t l j f em FNone em' -> f <> FNone ->
  t = pos /\ Th' pos = Up l None.
Proof. intros He Hne. by inversion He; simplify_eq. Qed.

Section UpStep.
Context (Th Th' : nat -> pc) (Nd Nd' : nodes) (t l : nat).
Context (Hother : forall t', t' <> t -> Th' t' = Th t') (Hx : outb l (Th t) = false).

Lemma outS_same f em f' em' j t' : ext Th Th' t l j f em f' em' ->
  outb (S l) (Th' t') = outb (S l) (Th t').
Proof.
  intros He. destruct (decide (t' = t)) as [->|]; [|by rewrite Hother].
  rewrite (ext_outS _ _ _ _ _ _ _ _ _ He).
  destruct (outb (S l) (Th t)) eqn:E; [|done]. by rewrite outb_S in Hx.
Qed.

Lemma facts_other j f em t' : facts Th l j f em ->
  em = Some t' \/ (f <> FNo /\ t' = pos) -> Th' t' = Th t'.
Proof.
  intros Hf Ht. apply Hother. intros ->.
  destruct Ht as [Ht|[Ht ->]].
  - destruct (fa_em _ _ _ _ _ Hf t Ht) as (_ & _ & _ & E). congruence.
  - destruct (fa_f _ _ _ _ _ Hf Ht) as [_ E]. congruence.
Qed.

Lemma carries_up j f em f' em' : facts Th l j f em -> ext Th Th' t l j f em f' em' ->
  carries Th l j f em -> carries Th' l j f' em'.
Proof.
  intros Hf He [C1 C2].
  assert (Hold : forall t' v, em = Some t' \/ (f <> FNo /\ t' = pos) -> holds Th l t' v -> holds Th' l t' v).
  { intros t' v Ht Hh. unfold holds. by rewrite (facts_other j f em t' Hf Ht). }
  destruct He as [E|Hne -> E| -> -> E| -> -> -> E]; split; try done.
  - intros t' Ht. apply Hold; eauto.
  - destruct f; [done|apply Hold; auto..].
  - intros t' [= <-]. unfold holds. rewrite E. naive_solver.
  - destruct f; [done|apply Hold; auto..].
  - intros t' Ht. apply Hold; eauto.
  - unfold holds. rewrite E. naive_solver.
  - unfold holds. rewrite E. naive_solver.
Qed.

(** What a child status may have become, for the child [(l, i)] of the node:
    changed by [t], which is in that child, or unchanged. *)
Definition child_ext (i : nat) (f : fstat) (em : option nat) (f' : fstat) (em' : option nat) : Prop :=
  (anc l t = i /\ ext Th Th' t l i f em f' em') \/ (anc l t <> i /\ f' = f /\ em' = em).

Lemma child_grow i f em f' em' : child_ext i f em f' em' -> grow t em em'.
Proof. intros [[_ He]|(_ & _ & ->)]; [by eapply ext_grow|by left]. Qed.

Lemma status_up j f em f' em' w : ext Th Th' t l j f em f' em' ->
  em_of Th l w = em_of Th' l w /\ f_of Th l w = f_of Th' l w.
Proof.
  intros He. split; [apply em_of_ext|apply f_of_ext]; intros; symmetry; by eapply outS_same.
Qed.

Lemma meet_up j f em f' em' i pl pr pl' pr' w :
  ext Th Th' t l i f em f' em' -> Nd' (S l, j) = Nd (S l, j) ->
  grow t pl pl' -> grow t pr pr' ->
  (f' = f -> em' = em -> pl' = pl /\ pr' = pr) ->
  (forall t', pl = Some t' \/ pr = Some t' -> Th' t' = Th t') ->
  meet Th Nd l j pl pr w -> meet Th' Nd' l j pl' pr' w.
Proof.
  intros He HN Hl Hr Hsame Ho. apply (meet_grow _ _ _ _ _ _ t); try done.
  destruct (ext_Up _ _ _ _ _ _ _ _ _ He) as [[??]|]; auto.
Qed.

Section Node.
Context (j : nat) (fa fb fa' fb' : fstat) (ea eb ea' eb' : option nat).
Context (HN : Nd' (S l, j) = Nd (S l, j)) (Htj : anc (S l) t = j).
Context (Fa : facts Th l (2 * j) fa ea) (Fb : facts Th l (2 * j + 1) fb eb).
Context (Ea : child_ext (2 * j) fa ea fa' ea') (Eb : child_ext (2 * j + 1) fb eb fb' eb').

Lemma node_ext : exists i f em f' em', ext Th Th' t l i f em f' em' /\
  (f' = f -> em' = em -> fa' = fa /\ ea' = ea /\ fb' = fb /\ eb' = eb).
Proof.
  pose proof (anc_child _ _ _ Htj).
  destruct Ea as [[? He]|(? & -> & ->)], Eb as [[? He']|(? & -> & ->)]; try lia.
  - by eexists _, _, _, _, _.
  - by eexists _, _, _, _, _.
Qed.

Lemma others t' : ea = Some t' \/ eb = Some t' \/ ((fa <> FNo \/ fb <> FNo) /\ t' = pos) -> Th' t' = Th t'.
Proof.
  intros Ht. assert ((ea = Some t' \/ (fa <> FNo /\ t' = pos)) \/ (eb = Some t' \/ (fb <> FNo /\ t' = pos)))
    as [Ht'|Ht'] by naive_solver.
  - exact (facts_other _ _ _ _ Fa Ht').
  - exact (facts_other _ _ _ _ Fb Ht').
Qed.

Lemma meet_node pl pr pl' pr' w :
  grow t pl pl' -> grow t pr pr' ->
  (fa' = fa -> ea' = ea -> fb' = fb -> eb' = eb -> pl' = pl /\ pr' = pr) ->
  (forall t', pl = Some t' \/ pr = Some t' -> ea = Some t' \/ eb = Some t' \/ ((fa <> FNo \/ fb <> FNo) /\ t' = pos)) ->
  meet Th Nd l j pl pr w ->
  meet Th' Nd' l j pl' pr' w /\ em_of Th l w = em_of Th' l w /\ f_of Th l w = f_of Th' l w.
Proof.
  intros Hl Hr Hs Hp Hm. destruct node_ext as (i & f & em & f' & em' & He & Hsame).
  destruct (status_up _ _ _ _ _ w He). split_and!; [|done..].
  eapply meet_up; [exact He|done..| | |exact Hm]; [naive_solver|].
  intros t' Ht. apply others. auto.
Qed.

Lemma node_rel_up_R f em : anc l pos = (2 * j + 1)%nat ->
  node_rel Th Nd l j fa ea fb eb f em -> node_rel Th' Nd' l j fa' ea' fb' eb' f em.
Proof.
  intros HR. unfold node_rel. rewrite !decide_True by done. intros (w & Hm & -> & -> & Hf).
  destruct (meet_node ea (match fb with FSome => Some pos | _ => eb end)
    ea' (match fb' with FSome => Some pos | _ => eb' end) w) as (Hm' & -> & ->); [..|exact Hm|].
  - by eapply child_grow.
  - destruct Eb as [[_ He]|(_ & -> & ->)]; [|by left].
    by eapply ext_grow_R.
  - by intros -> -> -> ->.
  - intros t' Ht. destruct fb; naive_solver.
  - exists w. split_and!; [done..|]. intros E'.
    destruct (decide (fb = FNone)) as [E|Hne].
    + rewrite (others pos) by (right; right; split; [right; congruence|done]). auto.
    + destruct Eb as [[_ He]|(_ & ? & ?)]; [|congruence]. rewrite E' in He.
      left. by apply (ext_FNone _ _ _ _ _ _ _ _ He).
Qed.

Lemma node_rel_up_L f em : anc l pos = (2 * j)%nat -> (t <= pos)%nat ->
  node_rel Th Nd l j fa ea fb eb f em -> node_rel Th' Nd' l j fa' ea' fb' eb' f em.
Proof.
  intros HL Ht. pose proof (anc_mono l _ _ Ht).
  unfold node_rel. rewrite !(decide_False (P := anc l pos = (2 * j + 1)%nat)) by lia.
  rewrite !decide_True by done.
  destruct Ea as [[_ He]|(Hne & _)]; [|apply anc_child in Htj; lia].
  destruct (decide (fa = FSome)) as [E|HnS].
  { destruct (status_up _ _ _ _ _ (Some pos) He) as [_ <-].
    rewrite E in He |- *. rewrite (ext_of_FSome _ _ _ _ _ _ _ _ He).
    intros ([S1 S2] & -> & ->). split_and!; [|done..]. unfold solo. rewrite HN, (others pos) by (right; right; split; [left; congruence|done]). done. }
  intros Hn. assert (exists w, meet Th Nd l j ea (match fa with FNone => Some pos | _ => None end) w /\
     em = em_of Th l w /\ f = f_of Th l w) as (w & Hm & -> & ->) by by destruct fa.
  destruct (decide (fa' = FSome)) as [E'|HnS'].
  - rewrite E' in He |- *. destruct (ext_FSome _ _ _ _ _ _ _ _ He HnS) as (Et & Ef & Ee & _ & Eu).
    rewrite Ef, Ee in Hm. assert (w = None) as ->.
    { destruct w as [t'|]; [|done]. by destruct (meet_w_part _ _ _ _ _ _ _ _ Hm eq_refl). }
    destruct (status_up _ _ _ _ _ None He) as [_ ->].
    destruct Hm as [M1 _ _ _]. simpl in M1.
    assert (Eo : outb (S l) (Th' pos) = false) by (rewrite Eu; apply Up_not_outb).
    split_and!; [|done|unfold f_of; by rewrite Eo]. split; [rewrite HN; lia|by left].
  - assert (meet Th' Nd' l j ea' (match fa' with FNone => Some pos | _ => None end) w /\
     em_of Th l w = em_of Th' l w /\ f_of Th l w = f_of Th' l w) as (Hm' & -> & ->); [|by destruct fa'; eauto].
    eapply meet_node; [by eapply child_grow| | | |exact Hm].
    + by eapply ext_grow_L.
    + by intros -> -> _ _.
    + intros t' Ht'. destruct fa; naive_solver.
Qed.

Lemma node_rel_up f em : (t <= pos)%nat ->
  node_rel Th Nd l j fa ea fb eb f em -> node_rel Th' Nd' l j fa' ea' fb' eb' f em.
Proof.
  intros Ht. destruct (decide (anc l pos = 2 * j + 1)%nat) as [HR|HnR]; [by apply node_rel_up_R|].
  destruct (decide (anc l pos = 2 * j)%nat) as [HL|HnL]; [by apply node_rel_up_L|].
  unfold node_rel. rewrite !decide_False by done. intros (w & Hm & -> & ->).
  destruct (meet_node ea eb ea' eb' w) as (Hm' & -> & _); [..|exact Hm|];
    [by eapply child_grow|by eapply child_grow|by intros -> -> -> ->|naive_solver|by exists w].
Qed.
End Node.

(** If every status the subtree below had admits such a change, the status of
    the node itself does not change. *)
Lemma Inv_up f em : (t <= pos)%nat ->
  (forall f em, Inv Th Nd l (anc l t) f em ->
     exists f' em', Inv Th' Nd' l (anc l t) f' em' /\ ext Th Th' t l (anc l t) f em f' em') ->
  (forall v, ~ within l (anc l t) v -> Nd' v = Nd v) ->
  Inv Th Nd (S l) (anc (S l) t) f em -> Inv Th' Nd' (S l) (anc (S l) t) f em.
Proof.
  intros Ht Hsub HN HI. pose proof (anc_mono (S l) _ _ Ht).
  apply Inv_S in HI; [|done]. apply Inv_S; [done|].
  destruct HI as (fa & ea & fb & eb & Ha & Ca & Hb & Cb & Hn).
  assert (Hchild : forall i f em, i = (2 * anc (S l) t)%nat \/ i = (2 * anc (S l) t + 1)%nat ->
    Inv Th Nd l i f em -> carries Th l i f em ->
    exists f' em', Inv Th' Nd' l i f' em' /\ carries Th' l i f' em' /\ child_ext i f em f' em').
  { intros i f0 em0 Hi HI HC. pose proof (Inv_facts _ _ _ _ _ _ HI) as HF.
    destruct (decide (anc l t = i)) as [<-|Hne].
    - destruct (Hsub _ _ HI) as (f' & em' & HI' & He). exists f', em'.
      split_and!; [done|by eapply carries_up|by left].
    - exists f0, em0. split_and!.
      + eapply Inv_frame; [| |exact HI].
        * intros t' Ht'. left. symmetry. apply Hother. congruence.
        * intros v [Hv1 Hv2]. apply HN. intros [_ Hv3]. congruence.
      + eapply carries_ext; [| |exact HC].
        * intros t' Ht'. rewrite Hother; [done|]. intros ->. destruct (fa_em _ _ _ _ _ HF t Ht') as (_ & _ & ? & _). done.
        * intros Hf. rewrite Hother; [done|]. intros <-. by destruct (fa_f _ _ _ _ _ HF Hf).
      + by right. }
  destruct (Hchild _ _ _ (or_introl eq_refl) Ha Ca) as (fa' & ea' & Ha' & Ca' & Ea).
  destruct (Hchild _ _ _ (or_intror eq_refl) Hb Cb) as (fb' & eb' & Hb' & Cb' & Eb).
  exists fa', ea', fb', eb'. split_and!; [done..|].
  eapply node_rel_up; [| |by eapply Inv_facts|by eapply Inv_facts|exact Ea|exact Eb|done|exact Hn]; [|done].
  apply HN. intros [Hw _]. simpl in Hw. lia.
Qed.
End UpStep.

Lemma within_up k l t v : within l (anc l t) v -> within (k + l) (anc (k + l) t) v.
Proof.
  intros Hv. induction k as [|k IH]; [done|]. cbn [plus]. apply within_child.
  destruct (anc_child (k + l) t _ eq_refl) as [<-|<-]; auto.
Qed.

Lemma outb_le k l x : outb l x = false -> outb (k + l) x = false.
Proof. pc_lia. Qed.

(** Above the level a goroutine acts on, nothing changes. *)
Lemma Inv_above Th Th' Nd Nd' t l k f em :
  (forall t', t' <> t -> Th' t' = Th t') -> outb l (Th t) = false -> outb (S l) (Th' t) = false ->
  (t <= pos)%nat ->
  (forall f em, Inv Th Nd l (anc l t) f em ->
     exists f' em', Inv Th' Nd' l (anc l t) f' em' /\ ext Th Th' t l (anc l t) f em f' em') ->
  (forall v, ~ within l (anc l t) v -> Nd' v = Nd v) ->
  Inv Th Nd (S k + l) (anc (S k + l) t) f em -> Inv Th' Nd' (S k + l) (anc (S k + l) t) f em.
Proof.
  intros Hother Hx Hx' Ht Hsub HN. revert f em. induction k as [|k IH]; intros f em HI.
  { by apply (Inv_up Th _ Nd). }
  change (S (S k) + l)%nat with (S (S k + l)). apply (Inv_up Th _ Nd); try done.
  - by apply outb_le.
  - intros f' em' HI'. exists f', em'. split; [by apply IH|].
    apply ext_same. replace (S k + l)%nat with (k + S l)%nat by lia. by apply outb_le.
  - intros v Hv. apply HN. intros Hv'. apply Hv. by apply (within_up (S k)).
Qed.

(** ** One step at a node *)

Definition fw (Th : nat -> pc) (l j : nat) (w : option nat) : fstat :=
  if decide (anc (S l) pos = j) then f_of Th l w else FNo.

Lemma fw_here Th l j w : anc (S l) pos = j -> fw Th l j w = f_of Th l w.
Proof. intros E. unfold fw. by rewrite decide_True. Qed.

(** [t] arrives from the left or from the right, once. *)
Definition arrives (t : nat) (pl pr : option nat) : Prop :=
  (pl = Some t /\ pr <> Some t) \/ (pr = Some t /\ pl <> Some t).

Section NodeStep.
Context (Hst : forall v, Z.even (st0 v) = true /\ 0 <= st0 v < 2 ^ 31 - 2).
Context (Th Th' : nat -> pc) (Nd Nd' : nodes) (t l j : nat).
Context (Hother : forall t', t' <> t -> Th' t' = Th t').
Context (Htj : anc (S l) t = j).

Definition out_step (w w' : option nat) : Prop :=
  ext Th Th' t (S l) j (fw Th l j w) (em_of Th l w) (fw Th' l j w') (em_of Th' l w').

Lemma toggle_first c : state c = st0 (S l, j) ->
  toggle c = (true, Cell (st0 (S l, j) + 1) (left_ c) (right_ c)).
Proof.
  destruct (Hst (S l, j)) as [He Hr]. intros E. unfold toggle. rewrite E.
  assert (i32 (st0 (S l, j) + 1) = st0 (S l, j) + 1) as ->.
  { unfold i32. rewrite Z.mod_small by lia. lia. }
  f_equal. apply Zeven_bool_iff, Zeven_ex in He as [k Ek]. rewrite Ek in Hr |- *.
  rewrite Z.rem_mod_nonneg, Z.add_comm, Z.mul_comm, Z.mod_add by lia. done.
Qed.

Lemma toggle_second c : state c = st0 (S l, j) + 1 ->
  toggle c = (false, Cell (st0 (S l, j) + 2) (left_ c) (right_ c)).
Proof.
  destruct (Hst (S l, j)) as [He Hr]. intros E. unfold toggle. rewrite E.
  assert (i32 (st0 (S l, j) + 1 + 1) = st0 (S l, j) + 2) as ->.
  { unfold i32. rewrite Z.mod_small by lia. lia. }
  f_equal. apply Zeven_bool_iff, Zeven_ex in He as [k Ek]. rewrite Ek in Hr |- *.
  rewrite Z.rem_mod_nonneg by lia. replace (2 * k + 2) with ((k + 1) * 2) by lia.
  by rewrite Z.mod_mul by lia.
Qed.

Lemma arrives_dl pl pr w : meet Th Nd l j pl pr w -> arrives t pl pr -> deliv l (Th t) = false ->
  w = None.
Proof.
  intros [_ _ _ Hw] Ha Hd. destruct w as [t'|]; [|done]. destruct Hw as (H1 & H2 & _).
  destruct Ha as [[-> _]|[-> _]]; simpl in *; congruence.
Qed.

Lemma ext_same_status w : outb (S l) (Th t) = false -> outb (S l) (Th' t) = false -> out_step w w.
Proof.
  intros E E'. unfold out_step.
  assert (Ho : forall t', outb (S l) (Th t') = outb (S l) (Th' t')).
  { intros t'. destruct (decide (t' = t)) as [->|]; [congruence|by rewrite Hother]. }
  assert (fw Th l j w = fw Th' l j w) as -> by (unfold fw; by rewrite (f_of_ext Th Th')).
  rewrite (em_of_ext Th Th') by auto. by apply ext_same.
Qed.

Lemma meet_write pl pr w s s' : meet Th Nd l j pl pr w -> arrives t pl pr ->
  Th t = Up l s -> Th' t = Written l s' ->
  (pl = Some t -> Nd' (S l, j) = set_left (H l (2 * j)) (Nd (S l, j))) ->
  (pr = Some t -> Nd' (S l, j) = set_right (H l (2 * j + 1)) (Nd (S l, j))) ->
  meet Th' Nd' l j pl pr w /\ out_step w w.
Proof.
  intros Hm Ha E E' Hl Hr.
  assert (w = None) as -> by (eapply arrives_dl; eauto; rewrite E; simpl; lia).
  split; [|by apply ext_same_status; rewrite ?E, ?E'; unfold outb; lia].
  assert (Hd : forall t', deliv l (Th' t') = deliv l (Th t')).
  { intros t'. destruct (decide (t' = t)) as [->|]; [by rewrite E, E'|by rewrite Hother]. }
  assert (Hdl : forall p, dl Th' l p = dl Th l p) by (by intros [?|]; simpl).
  destruct Hm as [M1 M2 M3 [M4 M5]]. split; rewrite ?Hdl.
  - destruct Ha as [[Hp _]|[Hp _]]; [by rewrite Hl|by rewrite Hr].
  - intros t' Hp Hw. destruct (decide (t' = t)) as [->|Hne]; [by rewrite Hl|].
    rewrite Hother in Hw by done. destruct Ha as [[??]|[??]]; [naive_solver|]. rewrite Hr by done. eauto.
  - intros t' Hp Hw. destruct (decide (t' = t)) as [->|Hne]; [by rewrite Hr|].
    rewrite Hother in Hw by done. destruct Ha as [[??]|[??]]; [|naive_solver]. rewrite Hl by done. eauto.
  - split; [done|]. intros t' Hp. rewrite Hd. intros Hd'.
    assert (t' <> t) by (intros ->; rewrite E in Hd'; simpl in Hd'; lia).
    unfold lost. rewrite Hother by done. by apply M5.
Qed.

Definition other_dl (pl pr : option nat) : bool :=
  if decide (pl = Some t) then dl Th l pr else dl Th l pl.

Lemma arrives_state pl pr w : meet Th Nd l j pl pr w -> arrives t pl pr -> deliv l (Th t) = false ->
  state (Nd (S l, j)) = st0 (S l, j) + Z.b2z (other_dl pl pr).
Proof.
  intros [M1 _ _ _] Ha Hd. rewrite M1. unfold other_dl.
  destruct Ha as [[-> ?]|[-> ?]].
  - rewrite decide_True by done. simpl. rewrite Hd. simpl. lia.
  - rewrite decide_False by done. simpl. rewrite Hd. simpl. lia.
Qed.

(** The toggle of [t], in both outcomes: the fields stay, the count grows. *)
Lemma meet_toggle_fields pl pr w : meet Th Nd l j pl pr w -> arrives t pl pr ->
  writ l (Th t) = true -> deliv l (Th t) = false -> deliv l (Th' t) = true ->
  Nd' (S l, j) = Cell (st0 (S l, j) + Z.b2z (other_dl pl pr) + 1) (left_ (Nd (S l, j))) (right_ (Nd (S l, j))) ->
  state (Nd' (S l, j)) = st0 (S l, j) + Z.b2z (dl Th' l pl) + Z.b2z (dl Th' l pr) /\
  (dl Th' l pl && dl Th' l pr)%bool = other_dl pl pr /\
  (forall t', pl = Some t' -> writ l (Th' t') = true -> left_ (Nd' (S l, j)) = H l (2 * j)) /\
  (forall t', pr = Some t' -> writ l (Th' t') = true -> right_ (Nd' (S l, j)) = H l (2 * j + 1)).
Proof.
  intros [M1 M2 M3 _] Ha Hw Hd Hd' ->. cbn [state left_ right_].
  assert (Hold : forall p, p <> Some t -> dl Th' l p = dl Th l p).
  { intros [t'|] Hp; [|done]. simpl. by rewrite Hother by congruence. }
  assert (Hwr : forall t', writ l (Th' t') = true -> writ l (Th t') = true).
  { intros t'. destruct (decide (t' = t)) as [->|]; [done|by rewrite Hother]. }
  unfold other_dl. split_and!; [| |by eauto..].
  all: destruct Ha as [[-> Hp]|[-> Hp]];
    [rewrite decide_True by done|rewrite decide_False by done]; rewrite (Hold _ Hp); simpl; rewrite Hd'; simpl.
  1-2: lia. all: by rewrite ?andb_true_r.
Qed.

Lemma meet_first pl pr w : meet Th Nd l j pl pr w -> arrives t pl pr ->
  writ l (Th t) = true -> deliv l (Th t) = false -> other_dl pl pr = false ->
  Nd' (S l, j) = Cell (st0 (S l, j) + 1) (left_ (Nd (S l, j))) (right_ (Nd (S l, j))) ->
  Th' t = (if (t =? pos)%nat then Up (S l) None else Stop l) ->
  meet Th' Nd' l j pl pr w /\ out_step w w.
Proof.
  intros Hm Ha Hw Hd Ho HN E.
  assert (w = None) as -> by by eapply arrives_dl.
  assert (Hd' : deliv l (Th' t) = true) by (rewrite E; destruct (t =? pos)%nat; simpl; lia).
  destruct (meet_toggle_fields _ _ _ Hm Ha Hw Hd Hd') as (H1 & H2 & H3 & H4).
  { rewrite HN, Ho. f_equal. simpl. lia. }
  assert (Hout : outb (S l) (Th t) = false) by (destruct (outb (S l) (Th t)) eqn:?; [rewrite outb_S_deliv in Hd; done|done]).
  split.
  - split; [done..|]. split; [congruence|]. intros t' Hp Hdt. unfold lost.
    destruct (decide (t' = t)) as [->|Hne].
    + rewrite E. destruct (t =? pos)%nat; [unfold outb; lia|done].
    + rewrite Hother in Hdt |- * by done. by apply (m_win _ _ _ _ _ _ _ Hm).
  - destruct (Nat.eqb_spec t pos) as [Et|Hne].
    + unfold out_step. rewrite !fw_here by congruence. unfold f_of. rewrite <- Et, Hout, E.
      assert (outb (S l) (Up (S l) None) = true) as -> by (unfold outb; lia).
      rewrite decide_False by done. by apply ext_none.
    + apply ext_same_status; [done|]. rewrite E. apply Stop_not_outb.
Qed.

Lemma meet_second pl pr w : meet Th Nd l j pl pr w -> arrives t pl pr ->
  writ l (Th t) = true -> deliv l (Th t) = false -> other_dl pl pr = true ->
  Nd' (S l, j) = Cell (st0 (S l, j) + 2) (left_ (Nd (S l, j))) (right_ (Nd (S l, j))) ->
  Th' t = Won l ->
  meet Th' Nd' l j pl pr (Some t) /\ out_step w (Some t).
Proof.
  intros Hm Ha Hw Hd Ho HN E.
  assert (w = None) as -> by by eapply arrives_dl.
  assert (Hd' : deliv l (Th' t) = true) by (rewrite E; simpl; lia).
  destruct (meet_toggle_fields _ _ _ Hm Ha Hw Hd Hd') as (H1 & H2 & H3 & H4).
  { rewrite HN, Ho. f_equal. simpl. lia. }
  assert (Hout : outb (S l) (Th t) = false) by (destruct (outb (S l) (Th t)) eqn:?; [rewrite outb_S_deliv in Hd; done|done]).
  assert (Hout' : outb (S l) (Th' t) = false) by (rewrite E; unfold outb; lia).
  split.
  - rewrite Ho in H2. apply andb_true_iff in H2 as [H2a H2b]. split; [done..|]. split_and!; [done|done|by left|].
    assert (exists t', t' <> t /\ deliv l (Th t') = true /\ (pl = Some t /\ pr = Some t' \/ pl = Some t' /\ pr = Some t))
      as (t' & Hne & Hdt & Hp).
    { unfold other_dl in Ho. destruct Ha as [[-> Hp]|[-> Hp]].
      - rewrite decide_True in Ho by done. destruct pr as [t'|]; [|done]. exists t'. naive_solver.
      - rewrite decide_False in Ho by done. destruct pl as [t'|]; [|done]. exists t'. naive_solver. }
    exists t'. split; [|done]. unfold lost. rewrite Hother by done.
    destruct (m_win _ _ _ _ _ _ _ Hm) as [_ Hl]. apply Hl; [naive_solver|done].
  - assert (out_step None None) as Hs by by apply ext_same_status.
    unfold out_step in *. replace (fw Th' l j (Some t)) with (fw Th' l j None).
    + simpl. rewrite Hout'. by destruct (t =? pos)%nat.
    + unfold fw, f_of. case_decide; [|done]. destruct (outb (S l) (Th' pos)) eqn:Eo; [|done].
      rewrite !decide_False; [done| |done]. intros [= ->]. congruence.
Qed.

Lemma meet_won pl pr w : meet Th Nd l j pl pr w -> arrives t pl pr -> Th t = Won l ->
  w = Some t /\ left_ (Nd (S l, j)) = H l (2 * j) /\ right_ (Nd (S l, j)) = H l (2 * j + 1).
Proof.
  intros [M1 M2 M3 M4] Ha E.
  assert (Hnl : ~ lost Th l t).
  { unfold lost. rewrite E. destruct (t =? pos)%nat; [unfold outb; intros ?; lia|done]. }
  assert (Hp : pl = Some t \/ pr = Some t) by (destruct Ha as [[??]|[??]]; auto).
  destruct w as [t1|].
  - destruct M4 as (H1 & H2 & _ & t2 & Hl & Hpp).
    split_and!; [naive_solver|..].
    + destruct pl as [t3|]; [|done]. eapply M2; [done|]. by apply deliv_writ.
    + destruct pr as [t3|]; [|done]. eapply M3; [done|]. by apply deliv_writ.
  - destruct M4 as [_ M4]. destruct Hnl. apply M4; [done|]. rewrite E. simpl. lia.
Qed.

Lemma meet_hash pl pr w : meet Th Nd l j pl pr w -> arrives t pl pr -> Th t = Won l ->
  Nd' (S l, j) = Nd (S l, j) -> Th' t = Up (S l) (Some (H (S l) j)) ->
  meet Th' Nd' l j pl pr w /\ out_step w w.
Proof.
  intros Hm Ha E HN E'. destruct (meet_won _ _ _ Hm Ha E) as (-> & _).
  assert (Hd : forall t', deliv l (Th' t') = deliv l (Th t')).
  { intros t'. destruct (decide (t' = t)) as [->|]; [rewrite E, E'; simpl; lia|by rewrite Hother]. }
  assert (Hwr : forall t', writ l (Th' t') = true -> writ l (Th t') = true).
  { intros t'. destruct (decide (t' = t)) as [->|]; [rewrite E; simpl; lia|by rewrite Hother]. }
  assert (Hdl : forall p, dl Th' l p = dl Th l p) by (by intros [?|]; simpl).
  assert (Ho : outb (S l) (Th t) = false) by (rewrite E; unfold outb; lia).
  assert (Ho' : outb (S l) (Th' t) = true) by (rewrite E'; unfold outb; lia).
  destruct Hm as [M1 M2 M3 (M4 & M5 & _ & t' & Hl & Hp)]. split.
  - split; rewrite ?Hdl, ?HN; [done|by eauto..|]. split_and!; [done|done|by right|].
    exists t'. split; [|done]. unfold lost.
    destruct (decide (t' = t)) as [->|]; [|by rewrite Hother]. unfold arrives in Ha. naive_solver.
  - unfold out_step. simpl. rewrite Ho, Ho'. destruct (Nat.eqb_spec t pos) as [Et|Hne].
    + rewrite !fw_here by congruence. unfold f_of. rewrite <- Et, Ho, Ho', decide_True by done.
      by apply ext_some.
    + unfold fw. replace (f_of Th' l (Some t)) with (f_of Th l (Some t)) by (apply f_of_ext; by rewrite Hother by auto).
      by apply ext_em.
Qed.

(** *** Where the goroutine stands in [node_rel] *)

(** The two cases that are not a meeting: the final goroutine comes from the
    left with a hash, or from the right with nil. *)
Inductive seat (fa : fstat) (ea : option nat) (fb : fstat) (eb : option nat) (f : fstat) (em : option nat) : Prop :=
| seat_meet pl pr w :
    meet Th Nd l j pl pr w -> arrives t pl pr -> f = fw Th l j w -> em = em_of Th l w ->
    (pl = Some t -> t <> pos /\ ea = Some t) ->
    (pr = Some t -> eb = Some t \/ (t = pos /\ (fb = FSome \/ (fa = FNone /\ anc l pos = 2 * j)%nat))) ->
    (forall w', meet Th' Nd' l j pl pr w' -> node_rel Th' Nd' l j fa ea fb eb (fw Th' l j w') (em_of Th' l w')) ->
    seat fa ea fb eb f em
| seat_solo :
    t = pos -> anc l pos = (2 * j)%nat -> fa = FSome -> solo Th Nd l j -> em = None ->
    f = f_of Th l (Some pos) -> seat fa ea fb eb f em
| seat_nil w :
    t = pos -> anc l pos = (2 * j + 1)%nat -> fb = FNone -> w <> Some pos ->
    (Th pos = Up l None \/ outb (S l) (Th pos) = true) -> em = em_of Th l w -> f = f_of Th l w ->
    (Nd' (S l, j) = Nd (S l, j) -> outb (S l) (Th' pos) = true ->
     node_rel Th' Nd' l j fa ea fb eb (f_of Th' l w) (em_of Th' l w)) ->
    seat fa ea fb eb f em.

Section Seat.
Context (fa fb : fstat) (ea eb : option nat) (f : fstat) (em : option nat).
Context (Ht : (t <= pos)%nat) (Hout : outb l (Th t) = true).
Context (Fa : facts Th l (2 * j) fa ea) (Fb : facts Th l (2 * j + 1) fb eb).

Lemma ea_ne_eb t' : ea = Some t' -> eb = Some t' -> False.
Proof.
  intros E1 E2. destruct (fa_em _ _ _ _ _ Fa t' E1) as (_ & _ & ? & _).
  destruct (fa_em _ _ _ _ _ Fb t' E2) as (_ & _ & ? & _). lia.
Qed.

Lemma em_ne_pos : ea <> Some pos /\ eb <> Some pos.
Proof.
  split; intros E; [destruct (fa_em _ _ _ _ _ Fa pos E)|destruct (fa_em _ _ _ _ _ Fb pos E)]; done.
Qed.

Lemma t_in_child : t <> pos -> ea = Some t \/ eb = Some t.
Proof.
  intros Hne. destruct (anc_child _ _ _ Htj).
  - left. by apply (fa_uniq _ _ _ _ _ Fa).
  - right. by apply (fa_uniq _ _ _ _ _ Fb).
Qed.

Lemma seat_R : anc l pos = (2 * j + 1)%nat -> node_rel Th Nd l j fa ea fb eb f em -> seat fa ea fb eb f em.
Proof.
  intros HR. unfold node_rel. rewrite decide_True by done. intros (w & Hm & -> & -> & Hf).
  pose proof em_ne_pos as [Ha Hb]. pose proof ea_ne_eb as Hab.
  assert (Hj : anc (S l) pos = j) by (apply anc_child_inv; lia).
  destruct (decide (t = pos /\ fb = FNone)) as [[Et Efb]|Hnil].
  - apply (seat_nil _ _ _ _ _ _ w); auto.
    + intros Ew. apply (meet_w_part _ _ _ _ _ _ _ _ Hm) in Ew. rewrite Efb in Ew. naive_solver.
    + intros HN Ho. unfold node_rel. rewrite decide_True by done. exists w. split_and!; auto.
      eapply meet_ext; [|exact HN|exact Hm]. intros t' Ht'. rewrite Hother; [done|].
      intros ->. rewrite Et, Efb in Ht'. naive_solver.
  - apply (seat_meet _ _ _ _ _ _ ea (match fb with FSome => Some pos | _ => eb end) w); auto.
    + unfold arrives. destruct (decide (t = pos)) as [Et|Hne].
      * destruct (decide (fb = FSome)) as [->|]; [right; by rewrite Et|].
        assert (fb = FNo) as Efb by (destruct fb; naive_solver).
        rewrite Et in Hout. rewrite (fa_FNo _ _ _ _ _ Fb HR Efb) in Hout. done.
      * destruct (t_in_child Hne) as [E|E].
        -- left. split; [done|]. destruct fb; naive_solver.
        -- right. destruct fb; [naive_solver..|]. by rewrite (fa_FSome _ _ _ _ _ Fb) in E.
    + by rewrite fw_here.
    + intros E. split; [intros ->; done|done].
    + intros E. destruct fb; naive_solver.
    + intros w' Hm'. unfold node_rel. rewrite decide_True by done. exists w'.
      split_and!; [done|done|by rewrite fw_here|]. intros Efb.
      rewrite Hother; [by apply Hf|]. intros <-. naive_solver.
Qed.

Lemma seat_L : anc l pos = (2 * j)%nat -> node_rel Th Nd l j fa ea fb eb f em -> seat fa ea fb eb f em.
Proof.
  intros HL. unfold node_rel. rewrite (decide_False (P := anc l pos = (2 * j + 1)%nat)) by lia. rewrite decide_True by done.
  pose proof em_ne_pos as [Ha Hb]. pose proof (anc_mono l _ _ Ht).
  assert (Hj : anc (S l) pos = j) by (apply anc_child_inv; lia).
  assert (Hanc : anc l t = (2 * j)%nat) by (destruct (anc_child _ _ _ Htj); lia).
  destruct (decide (fa = FSome)) as [Efa|HnS].
  { rewrite Efa. intros (Hs & -> & ->). rewrite <- Efa. destruct (decide (t = pos)) as [Et|Hne]; [by apply seat_solo|].
    assert (ea = Some t) as E by by apply (fa_uniq _ _ _ _ _ Fa).
    by rewrite (fa_FSome _ _ _ _ _ Fa) in E. }
  intros Hn. assert (exists w, meet Th Nd l j ea (match fa with FNone => Some pos | _ => None end) w /\
     em = em_of Th l w /\ f = f_of Th l w) as (w & Hm & -> & ->) by by destruct fa.
  apply (seat_meet _ _ _ _ _ _ ea (match fa with FNone => Some pos | _ => None end) w); auto.
  - unfold arrives. destruct (decide (t = pos)) as [Et|Hne].
    + right. assert (fa = FNone) as ->; [|by rewrite Et].
      destruct fa eqn:Efa; [|done|done]. rewrite Et in Hout. by rewrite (fa_FNo _ _ _ _ _ Fa HL eq_refl) in Hout.
    + left. split; [by apply (fa_uniq _ _ _ _ _ Fa)|]. destruct fa; naive_solver.
  - by rewrite fw_here.
  - intros E. split; [intros ->; done|done].
  - intros E. right. destruct fa; naive_solver.
  - intros w' Hm'. unfold node_rel. rewrite (decide_False (P := anc l pos = (2 * j + 1)%nat)) by lia.
    rewrite decide_True by done. rewrite fw_here by done. destruct fa; eauto; done.
Qed.

Lemma seat_full : anc (S l) pos <> j -> node_rel Th Nd l j fa ea fb eb f em -> seat fa ea fb eb f em.
Proof.
  intros Hj. assert (anc l pos <> 2 * j + 1 /\ anc l pos <> 2 * j)%nat as [H1 H2].
  { split; intros E; apply Hj, anc_child_inv; lia. }
  unfold node_rel. rewrite !decide_False by done. intros (w & Hm & -> & ->).
  pose proof em_ne_pos as [Ha Hb]. pose proof ea_ne_eb as Hab.
  assert (Hne : t <> pos) by (intros ->; done).
  apply (seat_meet _ _ _ _ _ _ ea eb w); auto.
  - unfold arrives. destruct (t_in_child Hne) as [E|E]; [left|right]; naive_solver.
  - unfold fw. by rewrite decide_False.
  - intros w' Hm'. unfold node_rel, fw. rewrite !decide_False by done. eauto.
Qed.

Lemma seat_of : node_rel Th Nd l j fa ea fb eb f em -> seat fa ea fb eb f em.
Proof.
  destruct (decide (anc (S l) pos = j)) as [E|]; [|by apply seat_full].
  destruct (anc_child _ _ _ E); [by apply seat_L|by apply seat_R].
Qed.

Definition steps_to : Prop :=
  exists f' em', node_rel Th' Nd' l j fa ea fb eb f' em' /\ ext Th Th' t (S l) j f em f' em'.

Context (Ca : carries Th l (2 * j) fa ea) (Cb : carries Th l (2 * j + 1) fb eb).
Context (Hzero : forall l j, (anc l pos < j)%nat -> H l j = zh (S l)).

Lemma ea_Up s : ea = Some t -> Th t = Up l s -> s = Some (H l (2 * j)) /\ Nat.even (anc l t) = true.
Proof.
  intros E Eu. split; [apply (proj1 Ca t E); auto|].
  destruct (fa_em _ _ _ _ _ Fa t E) as (_ & _ & -> & _). by rewrite Nat.even_mul.
Qed.

Lemma odd_anc i : i = (2 * j + 1)%nat -> Nat.even i = false.
Proof. intros ->. by rewrite Nat.even_add, Nat.even_mul. Qed.

Lemma eb_Up s : eb = Some t \/ (t = pos /\ fb = FSome) -> Th t = Up l s ->
  s = Some (H l (2 * j + 1)) /\ Nat.even (anc l t) = false.
Proof.
  intros [E|[-> E]] Eu.
  - split; [apply (proj1 Cb t E); auto|]. apply odd_anc. by destruct (fa_em _ _ _ _ _ Fb t E) as (_ & _ & -> & _).
  - split; [destruct Cb as [_ C]; rewrite E in C; apply C; auto|]. apply odd_anc, (fa_f _ _ _ _ _ Fb). congruence.
Qed.

Lemma step_Up_meet s x' o pl pr w : (l < D)%nat -> Th t = Up l s ->
  thread_step hash segmentSize D sec (t =? pos)%nat t (Th t) Nd = Some (x', Nd', o) -> Th' t = x' ->
  meet Th Nd l j pl pr w -> arrives t pl pr ->
  (pl = Some t -> t <> pos /\ ea = Some t) ->
  (pr = Some t -> eb = Some t \/ (t = pos /\ (fb = FSome \/ (fa = FNone /\ anc l pos = 2 * j)%nat))) ->
  meet Th' Nd' l j pl pr w /\ out_step w w.
Proof.
  intros Hl E Hst' E' Hm Ha Hpl Hpr. rewrite E in Hst'. cbn [thread_step] in Hst'.
  rewrite (proj2 (Nat.eqb_neq _ _)) in Hst' by lia. rewrite Htj in Hst'.
  destruct Ha as [[E1 E2]|[E1 E2]].
  - destruct (Hpl E1) as [Hne Hea]. destruct (ea_Up s Hea E) as [-> Hev].
    rewrite Hev, (proj2 (Nat.eqb_neq _ _) Hne) in Hst'. injection Hst' as E3 E4 _.
    eapply meet_write; [exact Hm|by left|done|by rewrite E', <- E3| |done]. intros _. by rewrite <- E4, fn_lookup_insert.
  - assert (exists s', Nd' = <[(S l, j) := set_right (H l (2 * j + 1)) (Nd (S l, j))]> Nd /\ x' = Written l s')
      as (s' & E3 & E4).
    { destruct (Hpr E1) as [Heb|[Et [Hfb|[Hfa HL]]]].
      1-2: destruct (eb_Up s ltac:(auto) E) as [-> Hev]; rewrite Hev in Hst'; injection Hst' as <- <- _; eauto.
      assert (s = None) as -> by (destruct Ca as [_ C]; rewrite Hfa in C; apply C; rewrite <- Et; auto).
      rewrite Et, HL, Nat.even_mul in Hst'. simpl in Hst'. injection Hst' as <- <- _.
      rewrite (Hzero l (2 * j + 1)) by lia. eauto. }
    eapply meet_write; [exact Hm|by right|done|by rewrite E'|done|]. intros _. by rewrite E3, fn_lookup_insert.
Qed.

Lemma solo_Up s x' o : (l < D)%nat -> Th t = Up l s ->
  thread_step hash segmentSize D sec (t =? pos)%nat t (Th t) Nd = Some (x', Nd', o) -> Th' t = x' ->
  t = pos -> anc l pos = (2 * j)%nat -> fa = FSome -> solo Th Nd l j -> em = None ->
  f = f_of Th l (Some pos) -> steps_to.
Proof.
  intros Hl E Hst' E' Et HL Hfa [S1 S2] Hem Hf.
  assert (s = Some (H l (2 * j))) as ->.
  { destruct Ca as [_ C]; rewrite Hfa in C; apply C; rewrite <- Et; auto. }
  rewrite E in Hst'. cbn [thread_step] in Hst'. rewrite (proj2 (Nat.eqb_neq _ _)) in Hst' by lia.
  rewrite Et, Nat.eqb_refl, HL, Nat.even_mul in Hst'. simpl in Hst'.
  assert (Hj : anc (S l) pos = j) by congruence. rewrite Hj in Hst'.
  assert (Eo : outb (S l) (Th pos) = false) by (rewrite <- Et, E; apply Up_not_outb).
  assert (Eo' : outb (S l) (Th' pos) = false) by (rewrite <- Et, E'; injection Hst' as <- _ _; unfold outb; lia).
  exists f, em. split; [|apply ext_same; by rewrite Et].
  unfold node_rel. rewrite (decide_False (P := anc l pos = (2 * j + 1)%nat)), decide_True by lia.
  rewrite Hfa. split_and!; [|done|rewrite Hf; unfold f_of; by rewrite Eo, Eo'].
  injection Hst' as E3 E4 _. split; rewrite <- E4, fn_lookup_insert; [done|right; left].
  rewrite <- Et, E', (Hzero l (2 * j + 1)) by lia. done.
Qed.

Lemma nil_step s x' o w : (l < D)%nat -> Th t = Up l s ->
  thread_step hash segmentSize D sec (t =? pos)%nat t (Th t) Nd = Some (x', Nd', o) -> Th' t = x' ->
  t = pos -> anc l pos = (2 * j + 1)%nat -> fb = FNone -> w <> Some pos ->
  em = em_of Th l w -> f = f_of Th l w ->
  (Nd' (S l, j) = Nd (S l, j) -> outb (S l) (Th' pos) = true ->
     node_rel Th' Nd' l j fa ea fb eb (f_of Th' l w) (em_of Th' l w)) -> steps_to.
Proof.
  intros Hl E Hst' E' Et HR Hfb Hw Hem Hf Hn.
  assert (s = None) as ->.
  { destruct Cb as [_ C]; rewrite Hfb in C; apply C; rewrite <- Et; auto. }
  rewrite E in Hst'. cbn [thread_step] in Hst'. rewrite (proj2 (Nat.eqb_neq _ _)) in Hst' by lia.
  rewrite Et, HR, (odd_anc _ eq_refl) in Hst'. injection Hst' as E3 E4 _.
  assert (Eo : outb (S l) (Th pos) = false) by (rewrite <- Et, E; apply Up_not_outb).
  assert (Eo' : outb (S l) (Th' pos) = true) by (rewrite <- Et, E', <- E3; unfold outb; lia).
  eexists _, _. split; [by apply Hn; rewrite <- ?E4|]. rewrite Hf, Hem. unfold f_of. rewrite Eo, Eo', decide_False by done.
  rewrite (em_of_ext Th Th').
  - apply ext_none; [done|done|congruence].
  - intros t' ->. by rewrite Hother by congruence.
Qed.

Lemma step_Up s x' o : (l < D)%nat -> Th t = Up l s ->
  thread_step hash segmentSize D sec (t =? pos)%nat t (Th t) Nd = Some (x', Nd', o) -> Th' t = x' ->
  node_rel Th Nd l j fa ea fb eb f em -> steps_to.
Proof.
  intros Hl E Hst' E' [pl pr w Hm Ha Hf Hem Hpl Hpr Hn|Et HL Hfa Hs Hem Hf|w Et HR Hfb Hw _ Hem Hf Hn]%seat_of.
  - destruct (step_Up_meet s x' o pl pr w Hl E Hst' E' Hm Ha Hpl Hpr) as [Hm' Ho].
    eexists _, _. split; [by apply Hn|]. by rewrite Hf, Hem.
  - by eapply solo_Up.
  - by eapply nil_step.
Qed.

Lemma step_Written s x' o : Th t = Written l s ->
  thread_step hash segmentSize D sec (t =? pos)%nat t (Th t) Nd = Some (x', Nd', o) -> Th' t = x' ->
  node_rel Th Nd l j fa ea fb eb f em -> steps_to.
Proof.
  intros E Hst' E' [pl pr w Hm Ha Hf Hem Hpl Hpr Hn|Et _ _ [_ Hs] _ _|w Et _ _ _ Hs _ _ _]%seat_of.
  2-3: rewrite <- Et, E in Hs; unfold outb in Hs; intuition (done || lia).
  assert (Hw : writ l (Th t) = true) by (rewrite E; simpl; lia).
  assert (Hd : deliv l (Th t) = false) by (rewrite E; simpl; lia).
  pose proof (arrives_state _ _ _ Hm Ha Hd) as Hst1.
  rewrite E in Hst'. cbn [thread_step] in Hst'. rewrite Htj in Hst'.
  destruct (other_dl pl pr) eqn:Ho; simpl in Hst1.
  - rewrite (toggle_second _ Hst1) in Hst'. injection Hst' as E3 E4 _.
    destruct (meet_second pl pr w) as [Hm' Hx]; try done; [by rewrite <- E4, fn_lookup_insert|congruence|].
    eexists _, _. split; [by apply Hn|]. by rewrite Hf, Hem.
  - rewrite toggle_first in Hst' by lia. injection Hst' as E3 E4 _.
    destruct (meet_first pl pr w) as [Hm' Hx]; try done; [by rewrite <- E4, fn_lookup_insert|congruence|].
    eexists _, _. split; [by apply Hn|]. by rewrite Hf, Hem.
Qed.

Lemma step_Won x' o : Th t = Won l ->
  thread_step hash segmentSize D sec (t =? pos)%nat t (Th t) Nd = Some (x', Nd', o) -> Th' t = x' ->
  node_rel Th Nd l j fa ea fb eb f em -> steps_to.
Proof.
  intros E Hst' E' [pl pr w Hm Ha Hf Hem Hpl Hpr Hn|Et HL Hfa [S1 Hs] Hem Hf|w Et _ _ _ Hs _ _ _]%seat_of.
  all: swap 1 3. { rewrite <- Et, E in Hs; unfold outb in Hs; intuition (done || lia). }
  all: rewrite E in Hst'; cbn [thread_step] in Hst'; rewrite Htj in Hst'; injection Hst' as E3 E4 _.
  - assert (left_ (Nd (S l, j)) = H l (2 * j) /\ right_ (Nd (S l, j)) = H l (2 * j + 1)) as [Hl Hr].
    { rewrite <- Et, E in Hs. unfold outb in Hs. destruct Hs as [?|[?|?]]; [done|naive_solver|lia]. }
    assert (Eo : outb (S l) (Th pos) = false) by (rewrite <- Et, E; unfold outb; lia).
    assert (Eo' : outb (S l) (Th' pos) = true) by (rewrite <- Et, E', <- E3; unfold outb; lia).
    exists (f_of Th' l (Some pos)), em. split.
    + unfold node_rel. rewrite (decide_False (P := anc l pos = (2 * j + 1)%nat)), decide_True by lia.
      rewrite Hfa. split_and!; [|done|done]. split; [by rewrite <- E4|auto].
    + rewrite Hf. unfold f_of. rewrite Eo, Eo', decide_True by done. apply ext_some; [done|done|done|].
      rewrite E', <- E3, Hl, Hr. done.
  - destruct (meet_won _ _ _ Hm Ha E) as (_ & Hl & Hr).
    destruct (meet_hash pl pr w) as [Hm' Hx]; try done; [congruence|by rewrite E', <- E3, Hl, Hr|].
    eexists _, _. split; [by apply Hn|]. by rewrite Hf, Hem.
Qed.
End Seat.
End NodeStep.

(** ** One step of the whole tree *)

Context (Hst : forall v, Z.even (st0 v) = true /\ 0 <= st0 v < 2 ^ 31 - 2).
Context (HposD : (pos < 2 ^ D)%nat).
Context (Hsec : forall i, (pos < i)%nat -> sec i = zeros (2 * segmentSize)).

Definition at_level (l : nat) (x : pc) : Prop := exists s, x = Up l s \/ x = Written l s \/ x = Won l.

Definition pc_ok (x : pc) : Prop :=
  match x with
  | Start => True
  | Up l _ | Stop l => (l <= D)%nat
  | Written l _ | Won l => (l < D)%nat
  end.

Lemma pc_ok_step final t x Nd x' Nd' o : pc_ok x ->
  thread_step hash segmentSize D sec final t x Nd = Some (x', Nd', o) -> pc_ok x'.
Proof.
  intros Hx Hs. destruct x; cbn [thread_step] in Hs; unfold pc_ok in *;
    repeat case_match; simplify_eq; try lia.
  all: match goal with H : (_ =? _)%nat = false |- _ => apply Nat.eqb_neq in H; lia end.
Qed.

Lemma zero_subtree l j : (anc l pos < j)%nat -> H l j = zh (S l).
Proof.
  revert j. induction l as [|l IH]; intros j Hj.
  - rewrite anc_0 in Hj. rewrite <- (merkle_zero hash segmentSize (fun _ => zeros (2 * segmentSize)) 0 j) by done.
    cbn [merkle]. by rewrite Hsec.
  - cbn [merkle]. rewrite !IH; [done|..]; pose proof (anc_split l pos); destruct (Nat.even _); lia.
Qed.

Lemma at_level_step final t l x Nd x' Nd' o : at_level l x -> (l < D)%nat ->
  thread_step hash segmentSize D sec final t x Nd = Some (x', Nd', o) ->
  o = None /\ outb l x = true /\ outb l x' = true /\ outb (S (S l)) x' = false /\ outb (S l) x = false /\
  (forall s, x' = Up l s \/ x' = Written l s -> x = Up l s \/ x = Written l s) /\
  (forall v, v <> (S l, anc (S l) t) -> Nd' v = Nd v).
Proof.
  intros [s Hx] Hl Hs. destruct Hx as [->|[->| ->]]; cbn [thread_step] in Hs; unfold toggle in Hs;
    rewrite ?(proj2 (Nat.eqb_neq l D)) in Hs by lia; repeat case_match; simplify_eq;
    (split_and!; [done|unfold outb; lia|unfold outb; lia|unfold outb; lia|unfold outb; lia| |
       intros v Hv; by rewrite ?fn_lookup_insert_ne by auto]).
  all: intros s' [Es|Es]; simplify_eq; auto; lia.
Qed.

Lemma node_Inv Th Th' Nd Nd' t l o : (t <= pos)%nat -> (l < D)%nat -> at_level l (Th t) ->
  (forall t', t' <> t -> Th' t' = Th t') ->
  thread_step hash segmentSize D sec (t =? pos)%nat t (Th t) Nd = Some (Th' t, Nd', o) ->
  forall f em, Inv Th Nd (S l) (anc (S l) t) f em ->
  exists f' em', Inv Th' Nd' (S l) (anc (S l) t) f' em' /\ ext Th Th' t (S l) (anc (S l) t) f em f' em'.
Proof.
  intros Ht Hl Hat Hother Hs f em HI. pose proof (anc_mono (S l) _ _ Ht).
  apply Inv_S in HI; [|done]. destruct HI as (fa & ea & fb & eb & Ha & Ca & Hb & Cb & Hn).
  destruct (at_level_step _ _ _ _ _ _ _ _ Hat Hl Hs) as (_ & Ho1 & Ho2 & _ & _ & Hv & HN).
  pose proof (Inv_facts _ _ _ _ _ _ Ha) as Fa. pose proof (Inv_facts _ _ _ _ _ _ Hb) as Fb.
  assert (steps_to Th Th' Nd' t l (anc (S l) t) fa fb ea eb f em) as (f' & em' & Hn' & Hx).
  { destruct Hat as [s [E|[E|E]]].
    - eapply step_Up; eauto using zero_subtree.
    - eapply step_Written; eauto using zero_subtree.
    - eapply step_Won; eauto using zero_subtree. }
  exists f', em'. split; [|done]. apply Inv_S; [done|].
  assert (Hsub : forall i f em, Inv Th Nd l i f em -> Inv Th' Nd' l i f em).
  { intros i f0 em0. apply Inv_frame.
    - intros t' _. destruct (decide (t' = t)) as [->|]; [by right|left; by rewrite Hother].
    - intros v [Hv1 _]. apply HN. intros ->. simpl in Hv1. lia. }
  assert (Hcar : forall i f em, carries Th l i f em -> carries Th' l i f em).
  { assert (Hh : forall t' v, holds Th l t' v -> holds Th' l t' v).
    { intros t' v Hh s Hs'. destruct (decide (t' = t)) as [->|]; [by apply Hh, Hv|].
      rewrite Hother in Hs' by done. by apply Hh. }
    intros i f0 em0 [C1 C2]. split; [eauto|]. destruct f0; auto. }
  exists fa, ea, fb, eb. eauto 10.
Qed.

Lemma leaf_Inv Th Th' Nd t : (t <= pos)%nat -> Th t = Start -> Th' t = Up 0 (Some (H 0 t)) ->
  forall f em, Inv Th Nd 0 (anc 0 t) f em ->
  exists f' em', Inv Th' Nd 0 (anc 0 t) f' em' /\ ext Th Th' t 0 (anc 0 t) f em f' em'.
Proof.
  intros Ht E E' f em. cbn [Inv]. rewrite !anc_0.
  destruct (decide (pos < t)%nat); [lia|]. rewrite E, E'.
  destruct (decide (t = pos)) as [Et|Hne]; intros [-> ->]; eexists _, _; (split; [done|]).
  - by apply ext_some.
  - by apply ext_em.
Qed.

Lemma anc_root t : (t <= pos)%nat -> anc D t = 0%nat.
Proof. intros. unfold anc. apply Nat.div_small. lia. Qed.

Lemma root_Inv Th Th' Nd Nd' t L f em : (t <= pos)%nat -> (L <= D)%nat ->
  (forall t', t' <> t -> Th' t' = Th t') -> outb L (Th t) = false -> outb (S L) (Th' t) = false ->
  (forall f em, Inv Th Nd L (anc L t) f em ->
     exists f' em', Inv Th' Nd' L (anc L t) f' em' /\ ext Th Th' t L (anc L t) f em f' em') ->
  (forall v, ~ within L (anc L t) v -> Nd' v = Nd v) ->
  Inv Th Nd D 0 f em -> exists f' em', Inv Th' Nd' D 0 f' em' /\ ext Th Th' t D 0 f em f' em'.
Proof.
  intros Ht HL Hother Ho Ho' Hsub HN HI. destruct (decide (L = D)) as [->|Hne].
  { rewrite anc_root in Hsub by done. by apply Hsub. }
  assert (exists k, D = S k + L)%nat as [k E] by (exists (D - L - 1)%nat; lia).
  exists f, em. rewrite <- (anc_root t Ht) in HI |- *. rewrite E in HI |- *. split.
  - by eapply Inv_above.
  - apply ext_same. replace (S k + L)%nat with (k + S L)%nat by lia. by apply outb_le.
Qed.

(** ** The result channel *)

Definition out_ok (Th : nat -> pc) (o : list bytes) (f : fstat) (em : option nat) : Prop :=
  (o = [] /\ (forall t, em = Some t -> Th t <> Stop D) /\ (f = FSome -> Th pos <> Stop D)) \/
  (o = [H D 0] /\ ((exists t, em = Some t /\ Th t = Stop D) \/ (f = FSome /\ Th pos = Stop D))).

Record CInv (c : config) : Prop := {
  ci_pc : forall t, (t <= pos)%nat -> pc_ok (T c t);
  ci_root : exists f em, Inv (T c) (N c) D 0 f em /\ carries (T c) D 0 f em /\ out_ok (T c) (out c) f em;
}.

Lemma out_ok_step Th Th' t o f em f' em' :
  (forall t', t' <> t -> Th' t' = Th t') -> outb D (Th t) = false ->
  facts Th D 0 f em -> facts Th' D 0 f' em' -> ext Th Th' t D 0 f em f' em' ->
  out_ok Th o f em -> out_ok Th' o f' em'.
Proof.
  intros Hother Ho F F' He Hok.
  assert (Hold : forall t', em = Some t' \/ (f <> FNo /\ t' = pos) -> Th' t' = Th t').
  { intros t' Ht'. by eapply facts_other. }
  assert (Hnew : forall s, Th' t = Up D s -> Th' t <> Stop D) by (intros ? ->; done).
  destruct Hok as [(-> & H1 & H2)|(-> & Hw)].
  - left. split; [done|]. split.
    + intros t' Et. destruct (decide (em = Some t')) as [E|Hne]; [rewrite Hold by auto; by apply H1|].
      destruct He; simplify_eq. by eapply Hnew.
    + intros Ef. destruct (decide (f = FSome)) as [E|Hne].
      * rewrite Hold by (right; split; [congruence|done]). auto.
      * rewrite Ef in He. destruct (ext_FSome _ _ _ _ _ _ _ _ He Hne) as (_ & _ & _ & _ & ->). done.
  - right. split; [done|]. destruct Hw as [(t' & -> & E)|[-> E]].
    + left. exists t'. rewrite Hold by auto. split; [|done]. by inversion He.
    + right. rewrite Hold by (right; done). split; [|done]. by inversion He.
Qed.

(** A step of a goroutine that has not left the tree. *)
Lemma CInv_inner c t L x Nd' :
  CInv c -> (t <= pos)%nat -> (L <= D)%nat -> pc_ok x ->
  outb L (T c t) = false -> outb (S L) x = false ->
  (forall f em, Inv (T c) (N c) L (anc L t) f em ->
     exists f' em', Inv (<[t := x]> (T c)) Nd' L (anc L t) f' em' /\
       ext (T c) (<[t := x]> (T c)) t L (anc L t) f em f' em') ->
  (forall v, ~ within L (anc L t) v -> Nd' v = N c v) ->
  CInv (Config (<[t := x]> (T c)) Nd' (out c)).
Proof.
  intros [Hpc (f & em & HI & HC & Hok)] Ht HL Hx Ho Ho' Hsub HN.
  assert (Hother : forall t', t' <> t -> (<[t := x]> (T c)) t' = T c t').
  { intros t' Hne. by rewrite fn_lookup_insert_ne. }
  destruct (root_Inv (T c) (<[t := x]> (T c)) (N c) Nd' t L f em) as (f' & em' & HI' & He);
    try done; [by rewrite fn_lookup_insert|].
  assert (HoD : outb D (T c t) = false) by (replace D with (D - L + L)%nat by lia; by apply outb_le).
  split; cbn [T N out].
  - intros t' Ht'. destruct (decide (t' = t)) as [->|]; [by rewrite fn_lookup_insert|].
    rewrite Hother by done. auto.
  - exists f', em'. split_and!; [done| |].
    + eapply carries_up; [exact Hother|done|by eapply Inv_facts|exact He|done].
    + eapply out_ok_step; [exact Hother|done|by eapply Inv_facts|by eapply Inv_facts|done|done].
Qed.

Lemma root_case Th t s f em : (t <= pos)%nat -> Th t = Up D s ->
  facts Th D 0 f em -> carries Th D 0 f em ->
  (s = None /\ em <> Some t /\ ~ (t = pos /\ f = FSome)) \/
  (s = Some (H D 0) /\ (em = Some t \/ (t = pos /\ f = FSome))).
Proof.
  intros Ht E F [C1 C2].
  assert (Hout : outb D (Th t) = true) by (rewrite E; unfold outb; lia).
  destruct (decide (t = pos)) as [Et|Hne].
  - assert (em <> Some t) by (intros Em; by destruct (fa_em _ _ _ _ _ F t Em)).
    rewrite Et in E. destruct f.
    + exfalso. rewrite Et in Hout. rewrite (fa_FNo _ _ _ _ _ F) in Hout; [done|by apply anc_root|done].
    + left. split_and!; [apply C2; auto|done|naive_solver].
    + right. split; [apply C2; auto|auto].
  - right. assert (em = Some t) as Em by (apply (fa_uniq _ _ _ _ _ F); [done|done|by apply anc_root|done]).
    split; [apply (C1 t Em); auto|auto].
Qed.

(** The root: a goroutine with a hash sends it, the final one with nil does not. *)
Lemma CInv_root c t s : CInv c -> (t <= pos)%nat -> T c t = Up D s ->
  CInv (Config (<[t := Stop D]> (T c)) (N c) (out c ++ option_list s)).
Proof.
  intros [Hpc (f & em & HI & HC & Hok)] Ht E.
  pose proof (Inv_facts _ _ _ _ _ _ HI) as F.
  assert (Hother : forall t', t' <> t -> (<[t := Stop D]> (T c)) t' = T c t').
  { intros t' Hne. by rewrite fn_lookup_insert_ne. }
  assert (Hother' : forall t', (<[t := Stop D]> (T c)) t' = Stop D \/ (<[t := Stop D]> (T c)) t' = T c t').
  { intros t'. destruct (decide (t' = t)) as [->|]; [left; by rewrite fn_lookup_insert|right; auto]. }
  assert (Hst1 : (<[t := Stop D]> (T c)) t = Stop D) by by rewrite fn_lookup_insert.
  split; cbn [T N out].
  { intros t' Ht'. destruct (Hother' t') as [->| ->]; [unfold pc_ok; lia|auto]. }
  pose proof (root_case _ _ _ _ _ Ht E F HC) as Hcase.
  exists f, em. split_and!.
  - eapply Inv_frame; [|done|exact HI]. intros t' _. destruct (decide (t' = t)) as [->|].
    + right. rewrite Hst1, E. unfold outb. lia.
    + left. by rewrite Hother.
  - destruct HC as [C1 C2].
    assert (Hh : forall t' v, holds (T c) D t' v -> holds (<[t := Stop D]> (T c)) D t' v).
    { intros t' v Hh s' Hs'. destruct (Hother' t') as [Eq|Eq]; rewrite Eq in Hs'; [by destruct Hs'|auto]. }
    split; [eauto|]. destruct f; auto.
  - destruct Hcase as [(-> & H1 & H2)|(-> & Hw)]; simpl; rewrite ?app_nil_r.
    + destruct Hok as [(-> & K1 & K2)|(-> & Hw)]; [left|right].
      * split_and!; [done| |].
        -- intros t' Et'. rewrite Hother by congruence. auto.
        -- intros Ef. rewrite Hother by naive_solver. auto.
      * split; [done|]. destruct Hw as [(t' & Et' & Es)|[Ef Es]]; [left; exists t'|right]; (split; [done|]).
        -- by destruct (Hother' t') as [?| ->].
        -- by destruct (Hother' pos) as [?| ->].
    + destruct Hok as [(-> & K1 & K2)|(-> & Hw')]; [right|exfalso].
      * split; [done|]. destruct Hw as [Em|[Et Ef]]; [left; eauto|right]. by rewrite <- Et.
      * pose proof (fa_FSome _ _ _ _ _ F) as Fs.
        destruct Hw as [Em|[Et Ef]], Hw' as [(t' & Em' & Es)|[Ef' Es]]; [..|congruence].
        -- assert (t' = t) as -> by congruence. congruence.
        -- rewrite Fs in Em; done.
        -- rewrite Fs in Em'; done.
Qed.

Lemma thread_at l x : at_level l x -> pc_ok x -> (forall s, x <> Up D s) -> (l < D)%nat.
Proof.
  intros [s [->|[->| ->]]] Hok Hne; simpl in Hok; [|done|done].
  destruct (decide (l = D)) as [->|]; [by destruct (Hne s)|lia].
Qed.

Lemma CInv_step c c' : cstep c c' -> CInv c -> CInv c'.
Proof.
  intros [c0 t x N' o Ht Hs] HI. pose proof (ci_pc _ HI t Ht) as Hok.
  assert (Hok' : pc_ok x) by by eapply pc_ok_step.
  assert (Hnode : forall l, at_level l (T c0 t) -> (forall s, T c0 t <> Up D s) ->
    CInv (Config (<[t := x]> (T c0)) N' (out c0 ++ option_list o))).
  { intros l Hat Hne. pose proof (thread_at l _ Hat Hok Hne) as Hl.
    destruct (at_level_step _ _ _ _ _ _ _ _ Hat Hl Hs) as (-> & Ho1 & Ho2 & Ho3 & Ho4 & _ & HN).
    simpl. rewrite app_nil_r. eapply (CInv_inner c0 t (S l)); try done.
    - eapply node_Inv; try done; [by intros; rewrite fn_lookup_insert_ne|]. by rewrite fn_lookup_insert.
    - intros v Hv. apply HN. intros ->. apply Hv, within_self. }
  destruct (T c0 t) as [|l s|l s|l|l] eqn:E.
  - cbn [thread_step] in Hs. injection Hs as <- <- <-. simpl. rewrite app_nil_r.
    apply (CInv_inner c0 t 0); try done; [by rewrite E|].
    apply leaf_Inv; [done|done|]. by rewrite fn_lookup_insert.
  - destruct (decide (l = D)) as [->|Hne].
    + cbn [thread_step] in Hs. rewrite Nat.eqb_refl in Hs. injection Hs as <- <- <-. by apply CInv_root.
    + apply (Hnode l); [exists s; auto|congruence].
  - apply (Hnode l); [exists s; auto|done].
  - apply (Hnode l); [exists None; auto|done].
  - done.
Qed.

(** The tree as [NewTree] builds it or as earlier uses left it. *)
Definition initial (c : config) : Prop :=
  (forall t, T c t = Start) /\ (forall v, state (N c v) = st0 v) /\ out c = [].

Lemma Inv_start Th Nd l j : (forall t, Th t = Start) -> (forall v, state (Nd v) = st0 v) ->
  Inv Th Nd l j FNo None.
Proof.
  intros HT HN. revert j. induction l as [|l IH]; intros j; cbn [Inv]; case_decide; try done.
  - rewrite !HT. by case_decide.
  - exists FNo, None, FNo, None. split_and!; [done|done|done|done|].
    assert (meet Th Nd l j None None None).
    { split; try done. simpl. rewrite HN. lia. split; [done|]. naive_solver. }
    unfold node_rel. unfold f_of. rewrite HT.
    repeat case_decide; exists None; by split_and!.
Qed.

Lemma CInv_initial c : initial c -> CInv c.
Proof.
  intros (HT & HN & Ho). split.
  - intros t _. by rewrite HT.
  - exists FNo, None. split_and!; [by apply Inv_start|done|left; done].
Qed.

Lemma CInv_reach c c' : initial c -> rtc cstep c c' -> CInv c'.
Proof.
  intros Hi Hr. apply CInv_initial in Hi. induction Hr; [done|]. eauto using CInv_step.
Qed.

(** ** Completion *)

Definition stopped (x : pc) : Prop := exists l, x = Stop l.

Definition complete (l j : nat) (f : fstat) (em : option nat) : Prop :=
  if decide (anc l pos = j) then f = FSome \/ (f = FNone /\ em <> None) else em <> None.

Lemma stopped_deliv l x : stopped x -> outb l x = true -> deliv l x = true.
Proof. intros [m ->]. done. Qed.

(** A meeting whose participants are all stopped has a winner, which has left. *)
Lemma meet_stopped Th Nd l j pl pr w a b : meet Th Nd l j pl pr w ->
  pl = Some a -> pr = Some b -> stopped (Th a) -> stopped (Th b) ->
  outb l (Th a) = true -> outb l (Th b) = true ->
  exists t, w = Some t /\ (t = a \/ t = b) /\ outb (S l) (Th t) = true /\
    (a = pos \/ b = pos -> outb (S l) (Th pos) = true).
Proof.
  intros [_ _ _ Hw] -> -> Sa Sb Oa Ob. pose proof (stopped_deliv _ _ Sa Oa) as Da.
  pose proof (stopped_deliv _ _ Sb Ob) as Db. destruct w as [t|].
  - destruct Hw as (_ & _ & Hwon & t' & Hlost & Hp). exists t.
    assert (Ht : outb (S l) (Th t) = true).
    { destruct Hwon as [E|?]; [|done]. destruct Sa as [? Ea], Sb as [? Eb].
      destruct Hp as [[[= ->] _]|[_ [= ->]]]; congruence. }
    split_and!; [done|destruct Hp as [[??]|[??]]; simplify_eq; auto|done|]. intros Hpos.
    destruct (decide (t = pos)) as [->|Hne]; [done|].
    assert (t' = pos) as -> by (destruct Hp as [[??]|[??]], Hpos; congruence). unfold lost in Hlost. by rewrite Nat.eqb_refl in Hlost.
  - destruct Hw as [Hw _]. simpl in Hw. by rewrite Da, Db in Hw.
Qed.

Lemma f_of_out Th l w : outb (S l) (Th pos) = true ->
  f_of Th l w = if decide (w = Some pos) then FSome else FNone.
Proof. unfold f_of. by intros ->. Qed.

(** The winner of a meeting that involves [pos], when everybody has stopped. *)
Lemma complete_win Th l j w t : anc (S l) pos = j -> w = Some t -> outb (S l) (Th t) = true ->
  outb (S l) (Th pos) = true -> complete (S l) j (f_of Th l w) (em_of Th l w).
Proof.
  intros Hj -> Ho Hp. unfold complete. rewrite decide_True by done. rewrite f_of_out by done.
  case_decide as E; [by left|right]. split; [done|]. simpl.
  destruct (Nat.eqb_spec t pos); [congruence|]. by rewrite Ho.
Qed.

Section Complete.
Context (Th : nat -> pc) (Nd : nodes) (Hall : forall t, (t <= pos)%nat -> stopped (Th t)).

Lemma complete_node l j fa ea fb eb f em : (j <= anc (S l) pos)%nat ->
  facts Th l (2 * j) fa ea -> facts Th l (2 * j + 1) fb eb ->
  complete l (2 * j) fa ea -> ((2 * j + 1 <= anc l pos)%nat -> complete l (2 * j + 1) fb eb) ->
  node_rel Th Nd l j fa ea fb eb f em -> complete (S l) j f em.
Proof.
  intros Hj Fa Fb Ka Kb. unfold node_rel.
  assert (Sa : forall a, ea = Some a -> stopped (Th a) /\ outb l (Th a) = true /\ a <> pos).
  { intros a E. destruct (fa_em _ _ _ _ _ Fa a E) as (? & ? & _ & ?). auto. }
  assert (Sb : forall a, eb = Some a -> stopped (Th a) /\ outb l (Th a) = true /\ a <> pos).
  { intros a E. destruct (fa_em _ _ _ _ _ Fb a E) as (? & ? & _ & ?). auto. }
  pose proof (Hall pos ltac:(lia)) as Sp.
  case_decide as HR; [|case_decide as HL].
  - intros (w & Hm & -> & -> & Hnil). assert (Hj' : anc (S l) pos = j) by (apply anc_child_inv; auto).
    unfold complete in Ka, Kb. rewrite decide_False in Ka by lia. rewrite decide_True in Kb by done.
    destruct ea as [a|]; [|done]. destruct (Sa a eq_refl) as (S1 & O1 & N1).
    destruct (Kb ltac:(lia)) as [->|[-> Hb]].
    + destruct (fa_f _ _ _ _ _ Fb ltac:(done)) as [_ Op].
      destruct (meet_stopped _ _ _ _ _ _ _ _ _ Hm eq_refl eq_refl S1 Sp O1 Op) as (t & Hw & _ & Ht & Hp).
      eapply complete_win; eauto.
    + destruct eb as [b|]; [|done]. destruct (Sb b eq_refl) as (S2 & O2 & N2).
      destruct (meet_stopped _ _ _ _ _ _ _ _ _ Hm eq_refl eq_refl S1 S2 O1 O2) as (t & Hw & _ & Ht & Hp).
      eapply complete_win; eauto. destruct (Hnil eq_refl) as [E|]; [|done].
      destruct Sp as [? Sp]. congruence.
  - assert (Hj' : anc (S l) pos = j) by (apply anc_child_inv; auto).
    unfold complete in Ka. rewrite decide_True in Ka by done. destruct Ka as [->|[-> Ha]].
    + intros ([_ Hs] & -> & ->). destruct Sp as [m Sp]. rewrite Sp in Hs.
      destruct Hs as [|[[? _]|Hs]]; [done|done|]. unfold complete. rewrite decide_True by done.
      left. rewrite f_of_out by by rewrite Sp. by rewrite decide_True.
    + intros (w & Hm & -> & ->). destruct ea as [a|]; [|done]. destruct (Sa a eq_refl) as (S1 & O1 & N1).
      destruct (fa_f _ _ _ _ _ Fa ltac:(done)) as [_ Op].
      destruct (meet_stopped _ _ _ _ _ _ _ _ _ Hm eq_refl eq_refl S1 Sp O1 Op) as (t & Hw & _ & Ht & Hp).
      eapply complete_win; eauto.
  - intros (w & Hm & -> & ->).
    assert (Hne : anc (S l) pos <> j) by (intros E; apply anc_child in E; lia).
    assert (2 * j + 1 < anc l pos)%nat by (pose proof (anc_split l pos); destruct (Nat.even _); lia).
    specialize (Kb ltac:(lia)). unfold complete in Ka, Kb |- *.
    rewrite decide_False in Ka by lia. rewrite decide_False in Kb by lia. rewrite decide_False by lia.
    destruct ea as [a|]; [|done]. destruct (Sa a eq_refl) as (S1 & O1 & N1).
    destruct eb as [b|]; [|done]. destruct (Sb b eq_refl) as (S2 & O2 & N2).
    destruct (meet_stopped _ _ _ _ _ _ _ _ _ Hm eq_refl eq_refl S1 S2 O1 O2) as (t & -> & Hab & Ht & Hp).
    simpl. rewrite (proj2 (Nat.eqb_neq t pos)) by naive_solver. by rewrite Ht.
Qed.

Lemma complete_Inv l j f em : (j <= anc l pos)%nat -> Inv Th Nd l j f em -> complete l j f em.
Proof.
  revert j f em. induction l as [|l IH]; intros j f em Hj HI.
  - cbn [Inv] in HI. rewrite decide_False in HI by lia. unfold complete. rewrite anc_0 in *.
    destruct (Hall j Hj) as [m E]. rewrite E in HI. simpl in HI.
    destruct (decide (j = pos)) as [->|]; destruct HI as [-> ->].
    + rewrite decide_True by done. by left.
    + by rewrite decide_False by done.
  - apply Inv_S in HI; [|done]. destruct HI as (fa & ea & fb & eb & Ha & Ca & Hb & Cb & Hn).
    eapply complete_node; [done|by eapply Inv_facts|by eapply Inv_facts|..|exact Hn].
    + apply IH; [|done]. pose proof (anc_split l pos). destruct (Nat.even _); lia.
    + intros Hle. by apply IH.
Qed.
End Complete.

(** ** Once the hash of a subtree is out, its nodes are at rest *)

Definition emitted (f : fstat) (em : option nat) : Prop := f = FSome \/ em <> None.

Definition at_rest (Th : nat -> pc) (l t : nat) : Prop :=
  outb l (Th t) = true \/ stopped (Th t) \/
  (exists m, (m < l)%nat /\ Th t = Up m None /\ Nat.even (anc m t) = false).

Lemma emitted_w Th l w : emitted (f_of Th l w) (em_of Th l w) ->
  exists t, w = Some t /\ outb (S l) (Th t) = true.
Proof.
  intros [Hf|Hem].
  - pose proof (f_of_spec Th l w) as Hs. rewrite Hf in Hs. destruct Hs as [? ->]. eauto.
  - destruct (em_of Th l w) as [t|] eqn:E; [|done]. apply em_of_Some in E as (? & ? & ?). eauto.
Qed.

Lemma emitted_fw Th l j w : emitted (fw Th l j w) (em_of Th l w) ->
  exists t, w = Some t /\ outb (S l) (Th t) = true.
Proof.
  intros He. apply emitted_w. unfold fw in He. case_decide; [done|].
  destruct He as [|He]; [done|]. by right.
Qed.

Lemma emitted_node Th Nd l j fa ea fb eb f em : node_rel Th Nd l j fa ea fb eb f em -> emitted f em ->
  emitted fa ea /\ ((2 * j + 1 <= anc l pos)%nat -> emitted fb eb) /\
  (state (Nd (S l, j)) = st0 (S l, j) \/ state (Nd (S l, j)) = st0 (S l, j) + 2).
Proof.
  assert (Hmeet : forall pl pr w t, meet Th Nd l j pl pr w -> w = Some t ->
    pl <> None /\ pr <> None /\ state (Nd (S l, j)) = st0 (S l, j) + 2).
  { intros pl pr w t [M1 _ _ M4] ->. destruct M4 as (E1 & E2 & _).
    rewrite M1, E1, E2. split_and!; [by intros ->|by intros ->|simpl; lia]. }
  unfold node_rel. case_decide as HR; [|case_decide as HL].
  - intros (w & Hm & -> & -> & _) (t & Hw & _)%emitted_w.
    destruct (Hmeet _ _ _ _ Hm Hw) as (Ha & Hb & Hs). split_and!; [by right| |by right].
    intros _. destruct fb; [by right|by right|by left].
  - destruct fa.
    + intros (w & Hm & -> & ->) (t & Hw & _)%emitted_w. destruct (Hmeet _ _ _ _ Hm Hw) as (_ & Hb & _). done.
    + intros (w & Hm & -> & ->) (t & Hw & _)%emitted_w. destruct (Hmeet _ _ _ _ Hm Hw) as (Ha & _ & Hs).
      split_and!; [by right|lia|by right].
    + intros ([Hs _] & _ & _) _. split_and!; [by left|lia|by left].
  - intros (w & Hm & -> & ->) [?|Hem]; [done|].
    destruct (em_of Th l w) as [t|] eqn:E; [|done]. apply em_of_Some in E as (Hw & _ & _).
    destruct (Hmeet _ _ _ _ Hm Hw) as (Ha & Hb & Hs). split_and!; [by right|by right|by right].
Qed.

Lemma rest_node Th Nd l j t fa ea fb eb f em : (t <= pos)%nat -> anc (S l) t = j -> outb l (Th t) = true ->
  facts Th l (2 * j) fa ea -> facts Th l (2 * j + 1) fb eb ->
  node_rel Th Nd l j fa ea fb eb f em -> emitted f em -> at_rest Th (S l) t.
Proof.
  intros Ht Htj Ho Fa Fb Hn He.
  apply (seat_of Hst Th Th Nd Nd t l j) in Hn as
    [pl pr w Hm Ha -> -> _ _ _| -> HL _ _ -> ->|w -> HR _ _ Hs _ _ _]; try done.
  - destruct (emitted_fw _ _ _ _ He) as (t1 & -> & Ho1). destruct Hm as [_ _ _ (_ & _ & _ & t2 & Hl & Hp)].
    assert (t = t1 \/ t = t2) as [->| ->] by (unfold arrives in Ha; naive_solver); [by left|].
    unfold lost in Hl. destruct (t2 =? pos)%nat; [by left|right; left; by eexists].
  - left. pose proof (f_of_spec Th l (Some pos)) as Hs. destruct He as [He|]; [|done].
    rewrite He in Hs. apply Hs.
  - destruct Hs as [E|]; [|by left]. right; right. exists l. split_and!; [lia|done|].
    rewrite HR. by rewrite Nat.even_add, Nat.even_mul.
Qed.

Lemma rest_Inv Th Nd l j f em t : (t <= pos)%nat -> anc l t = j -> Inv Th Nd l j f em -> emitted f em ->
  at_rest Th l t.
Proof.
  revert j f em. induction l as [|l IH]; intros j f em Ht Hj HI He.
  - cbn [Inv] in HI. rewrite anc_0 in *. rewrite decide_False in HI by lia. subst j. left.
    destruct (outb 0 (Th t)); [done|]. destruct (decide (t = pos)); destruct HI as [-> ->]; by destruct He.
  - pose proof (anc_mono (S l) _ _ Ht). pose proof (anc_mono l _ _ Ht).
    apply Inv_S in HI; [|lia]. destruct HI as (fa & ea & fb & eb & Ha & Ca & Hb & Cb & Hn).
    destruct (emitted_node _ _ _ _ _ _ _ _ _ _ Hn He) as (E1 & E2 & _).
    assert (at_rest Th l t) as [Ho|[Hs|(m & Hm & Hr)]].
    { destruct (anc_child _ _ _ Hj) as [Hc|Hc]; [by eapply IH|]. eapply IH; [done| |exact Hb|]; [done|apply E2; lia]. }
    + eapply rest_node; [done|done|done|by eapply Inv_facts|by eapply Inv_facts|done|done].
    + right; by left.
    + right; right. exists m. split; [lia|done].
Qed.

Lemma within_inv l j v : within (S l) j v ->
  v = (S l, j) \/ within l (2 * j) v \/ within l (2 * j + 1) v.
Proof.
  destruct v as [m i]. unfold within. simpl. intros [Hm Hi].
  destruct (decide (m = S l)) as [->|Hne].
  - left. rewrite Nat.sub_diag, Nat.div_1_r in Hi. by rewrite Hi.
  - right. replace (S l - m)%nat with (S (l - m)) in Hi by lia.
    rewrite Nat.pow_succ_r', Nat.mul_comm, <- Nat.Div0.div_div in Hi.
    pose proof (Nat.div_mod_eq (i / 2 ^ (l - m)) 2). rewrite Hi in *.
    pose proof (Nat.mod_upper_bound (i / 2 ^ (l - m)) 2). lia.
Qed.

Lemma anc_anc m l t : (m <= l)%nat -> (anc m t / 2 ^ (l - m))%nat = anc l t.
Proof.
  intros Hm. unfold anc. rewrite Nat.Div0.div_div, <- Nat.pow_add_r. do 2 f_equal. lia.
Qed.

Lemma rest_state Th Nd l j f em : Inv Th Nd l j f em -> emitted f em ->
  forall m i, (i <= anc (S m) pos)%nat -> within l j (S m, i) ->
    state (Nd (S m, i)) = st0 (S m, i) \/ state (Nd (S m, i)) = st0 (S m, i) + 2.
Proof.
  revert j f em. induction l as [|l IH]; intros j f em HI He m i Hi Hw.
  { destruct Hw as [Hw _]. simpl in Hw. lia. }
  destruct (decide (anc (S l) pos < j)%nat).
  { cbn [Inv] in HI. rewrite decide_True in HI by done. destruct HI as [-> ->]. by destruct He. }
  apply Inv_S in HI; [|lia]. destruct HI as (fa & ea & fb & eb & Ha & Ca & Hb & Cb & Hn).
  destruct (emitted_node _ _ _ _ _ _ _ _ _ _ Hn He) as (E1 & E2 & E3).
  destruct (within_inv _ _ _ Hw) as [E|[Hc|Hc]].
  - by simplify_eq.
  - eapply IH; [exact Ha|done..].
  - eapply IH; [exact Hb| |done|done]. apply E2. destruct Hc as [Hc1 Hc2]. cbn [fst snd] in Hc1, Hc2.
    rewrite <- (anc_anc (S m) l pos), <- Hc2 by done. by apply Nat.Div0.div_le_mono.
Qed.

(** ** Termination *)

Definition remaining (x : pc) : nat :=
  match x with
  | Start => 3 * D + 2
  | Up l _ => 3 * (D - l) + 1
  | Written l _ => 3 * (D - l)
  | Won l => 3 * (D - l) - 1
  | Stop _ => 0
  end.

Definition work (Th : nat -> pc) : nat := sum_list_with (remaining ∘ Th) (seq 0 (S pos)).

Lemma remaining_step final t x Nd x' Nd' o : pc_ok x ->
  thread_step hash segmentSize D sec final t x Nd = Some (x', Nd', o) ->
  (remaining x' < remaining x)%nat.
Proof.
  intros Hx Hs. destruct x; cbn [thread_step] in Hs; unfold pc_ok in *;
    repeat case_match; simplify_eq; unfold remaining; try lia.
  all: match goal with H : (_ =? _)%nat = false |- _ => apply Nat.eqb_neq in H; lia end.
Qed.

Lemma sum_with_cons (f : nat -> nat) a l :
  (sum_list_with f (a :: l) = f a + sum_list_with f l)%nat.
Proof. done. Qed.

Lemma sum_list_lt (f g : nat -> nat) (t : nat) (l : list nat) :
  t ∈ l -> NoDup l -> (f t < g t)%nat -> (forall i, i <> t -> f i = g i) ->
  (sum_list_with f l < sum_list_with g l)%nat.
Proof.
  intros Ht Hnd Hlt Heq.
  assert (Hsame : forall l', t ∉ l' -> sum_list_with f l' = sum_list_with g l').
  { induction l' as [|a l' IH]; intros Hn; [done|]. rewrite not_elem_of_cons in Hn.
    rewrite !sum_with_cons, IH, (Heq a) by naive_solver. done. }
  induction l as [|a l IH]; [by apply not_elem_of_nil in Ht|].
  apply list.NoDup_cons in Hnd as [Hna Hnd]. rewrite !sum_with_cons.
  destruct (decide (a = t)) as [->|Hne]; [rewrite Hsame by done; lia|].
  rewrite (Heq a) by done. apply elem_of_cons in Ht as [?|Ht]; [done|]. specialize (IH Ht Hnd). lia.
Qed.

Lemma work_step c c' : cstep c c' -> CInv c -> (work (T c') < work (T c))%nat.
Proof.
  intros [c0 t x N' o Ht Hs] HI. cbn [T]. apply (sum_list_lt _ _ t).
  - apply elem_of_seq. lia.
  - apply NoDup_seq.
  - simpl. rewrite fn_lookup_insert. eapply remaining_step; [|exact Hs]. by apply (ci_pc _ HI).
  - intros i Hne. simpl. by rewrite fn_lookup_insert_ne.
Qed.

Lemma work_steps n c c' : nsteps cstep n c c' -> CInv c -> (n + work (T c') <= work (T c))%nat.
Proof.
  induction 1 as [|n c1 c2 c3 Hs _ IH]; intros HI; [lia|].
  pose proof (work_step _ _ Hs HI). specialize (IH (CInv_step _ _ Hs HI)). lia.
Qed.

Lemma work_initial c : initial c -> work (T c) = ((pos + 1) * (3 * D + 2))%nat.
Proof.
  intros [HT _].
  assert (Hn : forall n a, sum_list_with (remaining ∘ T c) (seq a n) = (n * (3 * D + 2))%nat).
  { induction n as [|n IH]; intros a; [done|]. cbn [seq]. rewrite sum_with_cons, IH.
    unfold compose. rewrite HT. cbn [remaining]. lia. }
  unfold work. rewrite Hn. lia.
Qed.

(** ** Results *)

Lemma conc_safe c c' : initial c -> rtc cstep c c' -> out c' = [] \/ out c' = [H D 0].
Proof.
  intros Hi Hr. destruct (CInv_reach _ _ Hi Hr) as [_ (f & em & _ & _ & Hok)].
  destruct Hok as [(-> & _)|(-> & _)]; auto.
Qed.

Lemma conc_done c c' : initial c -> rtc cstep c c' -> (forall t, (t <= pos)%nat -> stopped (T c' t)) ->
  out c' = [H D 0].
Proof.
  intros Hi Hr Hall. destruct (CInv_reach _ _ Hi Hr) as [Hpc (f & em & HI & _ & Hok)].
  assert (Hroot : anc D pos = 0%nat) by by apply anc_root.
  pose proof (complete_Inv _ _ Hall D 0 f em ltac:(lia) HI) as Hc.
  pose proof (Inv_facts _ _ _ _ _ _ HI) as F.
  assert (Hstop : forall t, (t <= pos)%nat -> outb D (T c' t) = true -> T c' t = Stop D).
  { intros t Ht Ho. destruct (Hall t Ht) as [m E]. pose proof (Hpc t Ht) as Hok'. rewrite E in *.
    unfold outb, pc_ok in *. f_equal. lia. }
  unfold complete in Hc. rewrite decide_True in Hc by done.
  destruct Hok as [(_ & H1 & H2)|(-> & _)]; [exfalso|done].
  destruct Hc as [Hf|[_ He]].
  - apply H2; [done|]. apply Hstop; [lia|]. apply (fa_f _ _ _ _ _ F). congruence.
  - destruct em as [t|]; [|done]. destruct (fa_em _ _ _ _ _ F t eq_refl) as (_ & Ht & _ & Ho).
    apply (H1 t); auto.
Qed.

Lemma conc_terminates n c c' : initial c -> nsteps cstep n c c' -> (n <= (pos + 1) * (3 * D + 2))%nat.
Proof.
  intros Hi Hr. pose proof (work_steps _ _ _ Hr (CInv_initial _ Hi)) as Hw. rewrite (work_initial c Hi) in Hw. lia.
Qed.

Lemma stopped_or_step c t : (t <= pos)%nat -> stopped (T c t) \/ exists c', cstep c c'.
Proof.
  intros Ht. destruct (thread_step hash segmentSize D sec (t =? pos)%nat t (T c t) (N c)) as [[[x N'] o]|] eqn:E.
  - right. eexists. by econstructor.
  - left. destruct (T c t) eqn:Et; cbn [thread_step] in E; repeat case_match; try done. by eexists.
Qed.

Lemma rest_no_write Th t l : at_rest Th D t -> at_level l (Th t) -> pc_ok (Th t) ->
  (exists s, l = D /\ Th t = Up D s) \/ (Th t = Up l None /\ Nat.even (anc l t) = false).
Proof.
  intros Hr [s Hat] Hok. destruct Hr as [Ho|[[m E]|(m & Hm & E & Hev)]].
  - destruct Hat as [E|[E|E]]; rewrite E in Ho, Hok; unfold outb, pc_ok in *; [|lia|lia].
    assert (l = D) as -> by lia. eauto.
  - rewrite E in Hat. naive_solver.
  - rewrite E in Hat. right. destruct Hat as [?|[?|?]]; simplify_eq. done.
Qed.

Lemma sent_emitted Th o f em : out_ok Th o f em -> o <> [] -> emitted f em.
Proof.
  intros [(-> & _)|(_ & [(t & -> & _)|[-> _]])] Ho; [done|by right|by left].
Qed.

(** After the result has been sent no goroutine writes to the tree any more. *)
Lemma conc_quiet c c' c'' v : initial c -> rtc cstep c c' -> out c' <> [] -> cstep c' c'' -> N c'' v = N c' v.
Proof.
  intros Hi Hr Ho Hs. destruct (CInv_reach _ _ Hi Hr) as [Hpc (f & em & HI & _ & Hok)].
  pose proof (sent_emitted _ _ _ _ Hok Ho) as He.
  destruct Hs as [c0 t x N' o Ht Hs]. cbn [N].
  pose proof (rest_Inv _ _ _ _ _ _ t Ht (anc_root t Ht) HI He) as Hrest. pose proof (Hpc t Ht) as Hokt.
  assert (Hat : forall l, at_level l (T c0 t) ->
    (exists s, l = D /\ T c0 t = Up D s) \/ (T c0 t = Up l None /\ Nat.even (anc l t) = false)).
  { intros l Hl. by apply rest_no_write. }
  destruct (T c0 t) as [|l s|l s|l|l] eqn:E; cbn [thread_step] in Hs.
  1,4,5: by simplify_eq.
  all: destruct (Hat l ltac:(exists s; auto)) as [(s' & -> & ?)|[? Hev]]; simplify_eq.
  - rewrite Nat.eqb_refl in Hs. by simplify_eq.
  - rewrite Hev in Hs. case_match; by simplify_eq.
Qed.

Lemma untouched c c' v : rtc cstep c c' ->
  (forall l t, (t <= pos)%nat -> v = (S l, anc (S l) t) -> (D <= l)%nat) -> CInv c -> N c' v = N c v.
Proof.
  intros Hr Hv. induction Hr as [|c1 c2 c3 Hs Hr IH]; intros HI; [done|].
  rewrite IH by by eapply CInv_step. destruct Hs as [c0 t x N' o Ht Hs]. cbn [N].
  pose proof (ci_pc _ HI t Ht) as Hok.
  destruct (T c0 t) as [|l s|l s|l|l] eqn:E; cbn [thread_step] in Hs; unfold pc_ok in Hok; try by simplify_eq.
  all: destruct (decide (v = (S l, anc (S l) t))) as [Ev|Hne].
  1,3: pose proof (Hv l t Ht Ev).
  - assert (l = D) as -> by lia. rewrite Nat.eqb_refl in Hs. by simplify_eq.
  - lia.
  - repeat case_match; simplify_eq; by rewrite ?fn_lookup_insert_ne by auto.
  - repeat case_match; simplify_eq; by rewrite ?fn_lookup_insert_ne by auto.
Qed.

(** ... and every toggle is back in its passive state, at most two higher. *)
Lemma conc_states c c' v : initial c -> rtc cstep c c' -> out c' <> [] ->
  state (N c' v) = st0 v \/ state (N c' v) = st0 v + 2.
Proof.
  intros Hi Hr Ho. destruct (CInv_reach _ _ Hi Hr) as [Hpc (f & em & HI & _ & Hok)].
  pose proof (sent_emitted _ _ _ _ Hok Ho) as He.
  destruct v as [[|m] i].
  { left. rewrite (untouched c c') by (try done; by apply CInv_initial). apply Hi. }
  destruct (decide (m < D /\ i <= anc (S m) pos)%nat) as [[Hm Hle]|Hn].
  - eapply rest_state; [exact HI|done|done|]. split; [done|]. cbn [fst snd].
    apply Nat.div_small. rewrite <- (Nat.add_0_l (2 ^ _)).
    assert (anc (S m) pos < 2 ^ (D - S m))%nat; [|lia].
    unfold anc. apply Nat.Div0.div_lt_upper_bound. rewrite <- Nat.pow_add_r.
    replace (S m + (D - S m))%nat with D by lia. done.
  - left. rewrite (untouched c c'); [by apply Hi|done| |by apply CInv_initial].
    intros l t Ht [= -> ->]. pose proof (anc_mono (S l) _ _ Ht). lia.
Qed.
End Conc.
