(* ===== verification/BmtHasher.v ===== *)
(** * The BMT hasher (pkg/bmt, [Hasher] and [Pool])

    [Write] cuts the data into sections and starts a goroutine for every
    section that is complete; [Hash] zero-pads the last one, starts the final
    goroutine and waits for the root.  A run is a list of events: the calls of
    the owner of the hasher and, in any order, single steps of the goroutines
    that have been started.  The results: whatever the interleaving, [Hash]
    returns what the reference hasher computes, every run is finite, and the
    tree can be handed out again as soon as the root has been received. *)

From Stdlib Require Import ZArith Lia ZifyBool FunctionalExtensionality.
From stdpp Require Import base gmap list numbers functions.
From S2P Require Import Prelude Boson Bmt BmtConc.

Open Scope Z_scope.

Definition zerosection : bytes := replicate 64 0.


Record tree := {
  t_nodes : nodes;
  t_buffer : bytes;
}.

Record Hasher := {
  bmt_nodes : nodes;
  bmt_buffer : bytes;
  size : Z;
  pos : Z;
  offset : Z;
  span : bytes;
  result : list bytes;                   (** what has been received from the channel *)
  running : nat -> option (pc * bool);   (** goroutine of each section, with its [final] flag *)
  hashing : bool;                        (** [Hash] has been called *)
}.

Section Hasher.
Context (hash : bytes -> bytes) (conf : Conf).

Abbreviation segmentSize := (c_segmentSize conf).
Abbreviation maxSize := (c_maxSize conf).
Abbreviation D := (c_depth conf - 1)%nat.
Abbreviation secsize := (2 * Z.of_nat segmentSize).

Definition Get (t : tree) : Hasher :=
  {| bmt_nodes := t_nodes t; bmt_buffer := t_buffer t; size := 0; pos := 0; offset := 0;
     span := zeros SpanSize; result := []; running := fun _ => None; hashing := false |}.

Definition Put (h : Hasher) : tree := {| t_nodes := bmt_nodes h; t_buffer := bmt_buffer h |}.

Definition Reset (h : Hasher) : Hasher :=
  {| bmt_nodes := bmt_nodes h; bmt_buffer := bmt_buffer h; size := 0; pos := 0; offset := 0;
     span := copy_at 0 (zeros SpanSize) (span h); result := []; running := fun _ => None; hashing := false |}.

Definition SetHeader (h : Hasher) (s : bytes) : Hasher :=
  {| bmt_nodes := bmt_nodes h; bmt_buffer := bmt_buffer h; size := size h; pos := pos h; offset := offset h;
     span := copy_at 0 s (span h); result := result h; running := running h; hashing := hashing h |}.

Definition SetHeaderInt64 (h : Hasher) (length : Z) : Hasher := SetHeader h (PutUint64 (u64 length)).

Definition LengthToSpan (length : Z) : bytes := PutUint64 (u64 length).

(** [for i := from; i < to; i++ { go h.processSection(i, false) }] *)
Definition spawn (from to : Z) (r : nat -> option (pc * bool)) : nat -> option (pc * bool) :=
  fun i => if (from <=? Z.of_nat i) && (Z.of_nat i <? to) then Some (Start, false) else r i.

Definition Write (h : Hasher) (b : bytes) : Hasher * Z :=
  let max := maxSize - size h in
  let l := if max <? zlen b then max else zlen b in
  let from := size h / secsize in
  let size' := size h + l in
  let to := size' / secsize in
  let to := if l =? max then to - 1 else to in
  ({| bmt_nodes := bmt_nodes h;
      bmt_buffer := copy_at (Z.to_nat (size h)) b (bmt_buffer h);
      size := size';
      pos := to;
      offset := size h mod secsize;
      span := span h;
      result := result h;
      running := spawn from to (running h);
      hashing := hashing h |}, l).

(** [Hash] up to the [select]. *)
Definition Hash (h : Hasher) : Hasher :=
  if size h =? 0 then
    {| bmt_nodes := bmt_nodes h; bmt_buffer := bmt_buffer h; size := size h; pos := pos h; offset := offset h;
       span := span h; result := result h; running := running h; hashing := true |}
  else
    {| bmt_nodes := bmt_nodes h;
       bmt_buffer := copy_at (Z.to_nat (size h)) zerosection (bmt_buffer h);
       size := size h; pos := pos h; offset := offset h; span := span h; result := result h;
       running := <[Z.to_nat (pos h) := Some (Start, true)]> (running h);
       hashing := true |}.

(** What [Hash] returns, once it returns. *)
Definition Hash_result (h : Hasher) : option bytes :=
  if hashing h then
    if size h =? 0 then
      zh ← c_zerohashes conf !! c_depth conf; Some (doHash hash [span h; zh])
    else match result h with
         | r :: _ => Some (doHash hash [span h; r])
         | [] => None
         end
  else None.

(** One step of the goroutine of section [t]; it reads its section of the
    buffer in the first one. *)
Definition go (h : Hasher) (t : nat) : option Hasher :=
  '(x, final) ← running h t;
  '(x', N', o) ← thread_step hash segmentSize D
    (fun i => slice (i * (2 * segmentSize)) (i * (2 * segmentSize) + 2 * segmentSize) (bmt_buffer h))
    final t x (bmt_nodes h);
  Some {| bmt_nodes := N'; bmt_buffer := bmt_buffer h; size := size h; pos := pos h; offset := offset h;
          span := span h; result := result h ++ option_list o;
          running := <[t := Some (x', final)]> (running h); hashing := hashing h |}.

Inductive event :=
| EWrite (b : bytes)
| EHeader (s : bytes)
| EHash
| EGo (t : nat).

(** The owner does not touch the hasher while [Hash] runs. *)
Definition exec (h : Hasher) (e : event) : option Hasher :=
  match e with
  | EWrite b => if hashing h then None else Some (Write h b).1
  | EHeader s => if hashing h then None else Some (SetHeader h s)
  | EHash => if hashing h then None else Some (Hash h)
  | EGo t => go h t
  end.

Fixpoint run (h : Hasher) (es : list event) : option Hasher :=
  match es with
  | [] => Some h
  | e :: es => h' ← exec h e; run h' es
  end.

Definition payload (e : event) : bytes := match e with EWrite b => b | _ => [] end.

(** Everything that was written. *)
Definition written (es : list event) : bytes := es ≫= payload.

Definition steps (es : list event) : nat :=
  sum_list_with (fun e => match e with EGo _ => 1%nat | _ => 0%nat end) es.

(** ** The invariant of the calls *)

Context (Hseg : (0 < segmentSize <= 32)%nat).
Context (Hmax : maxSize = Z.of_nat (2 ^ D * (2 * segmentSize))).

(** Index of the section left to [Hash] when [n] bytes have been accepted. *)
Definition last_of (n : Z) : Z := if n =? maxSize then n / secsize - 1 else n / secsize.

Record HInv (w : bytes) (h : Hasher) : Prop := {
  hi_len : zlen (bmt_buffer h) = maxSize;
  hi_size : size h = Z.min (zlen w) maxSize;
  hi_data : forall k, Z.of_nat k < size h -> bmt_buffer h !! k = w !! k;
  hi_pos : pos h = last_of (size h);
  hi_run : forall t, Z.of_nat t < pos h -> exists x, running h t = Some (x, false);
  hi_idle : forall t, pos h < Z.of_nat t \/ (hashing h = false /\ pos h <= Z.of_nat t) -> running h t = None;
  hi_final : hashing h = true ->
    if size h =? 0 then running h 0%nat = None
    else (exists x, running h (Z.to_nat (pos h)) = Some (x, true)) /\
      forall k, size h <= Z.of_nat k < (pos h + 1) * secsize -> bmt_buffer h !! k = Some 0;
}.

Lemma maxSize_pos : secsize <= maxSize.
Proof. rewrite Hmax. pose proof (Nat.pow_nonzero 2 D). nia. Qed.

Lemma max_div : maxSize / secsize = Z.of_nat (2 ^ D).
Proof. rewrite Hmax, Nat2Z.inj_mul, Nat2Z.inj_mul. apply Z.div_mul. lia. Qed.

Lemma last_of_spec n : 0 <= n <= maxSize ->
  0 <= last_of n < Z.of_nat (2 ^ D) /\ last_of n * secsize <= n <= (last_of n + 1) * secsize.
Proof.
  intros Hn. unfold last_of. pose proof max_div as Hd. pose proof maxSize_pos as Hp.
  pose proof (Z.div_mod n secsize ltac:(lia)) as E. pose proof (Z.mod_pos_bound n secsize ltac:(lia)).
  destruct (Z.eqb_spec n maxSize) as [->|Hne].
  - rewrite Hd in *. assert (maxSize mod secsize = 0) as Hm.
    { rewrite Hmax, Nat2Z.inj_mul, Nat2Z.inj_mul. apply Z.mod_mul. lia. }
    pose proof (Nat.pow_nonzero 2 D). rewrite Hm in *. nia.
  - pose proof (Z.div_pos n secsize ltac:(lia) ltac:(lia)).
    assert (n / secsize < Z.of_nat (2 ^ D)).
    { rewrite <- Hd. apply Z.div_lt_upper_bound; [lia|]. rewrite Hd, Hmax in *. nia. }
    nia.
Qed.

Lemma last_of_mono n m : 0 <= n <= m -> m <= maxSize -> last_of n <= last_of m.
Proof.
  intros Hn Hm. destruct (last_of_spec n ltac:(lia)) as [_ [H1 _]].
  pose proof (last_of_spec m ltac:(lia)) as [[_ H3] _].
  unfold last_of in *. destruct (Z.eqb_spec n maxSize), (Z.eqb_spec m maxSize); try lia.
  - by replace m with n by lia.
  - assert (n / secsize < maxSize / secsize); [|subst; lia].
    rewrite max_div. apply Z.div_lt_upper_bound; [lia|]. rewrite Hmax in *. nia.
  - apply Z.div_le_mono; lia.
Qed.

Lemma HInv_Get t : zlen (t_buffer t) = maxSize -> HInv [] (Get t).
Proof.
  intros Hb. pose proof maxSize_pos. split; cbn [bmt_buffer size pos running hashing Get]; try done; try lia.
  - simpl. lia.
  - unfold last_of. rewrite (proj2 (Z.eqb_neq _ _)) by lia. by rewrite Z.div_0_l by lia.
Qed.

Lemma HInv_header w h s : HInv w h -> HInv w (SetHeader h s).
Proof. by intros []. Qed.

Lemma HInv_write w h b : hashing h = false -> HInv w h -> HInv (w ++ b) (Write h b).1.
Proof.
  intros Hh [I1 I2 I3 I4 I5 I6 _]. pose proof maxSize_pos as Hp.
  assert (Hs : 0 <= size h <= maxSize) by lia.
  assert (Hsz : size (Write h b).1 = Z.min (zlen (w ++ b)) maxSize).
  { cbn [Write fst size]. rewrite length_app. destruct (Z.ltb_spec (maxSize - size h) (zlen b)); lia. }
  assert (Hpos : pos (Write h b).1 = last_of (size (Write h b).1)).
  { cbn [Write fst size pos]. unfold last_of. set (l := if _ <? _ then _ else _).
    destruct (Z.eqb_spec l (maxSize - size h)), (Z.eqb_spec (size h + l) maxSize); lia. }
  pose proof (last_of_spec _ Hs) as [Hl1 Hl2].
  pose proof (last_of_mono (size h) (size (Write h b).1) ltac:(rewrite Hsz, length_app; lia) ltac:(lia)) as Hmono.
  assert (Hfrom : size h / secsize = pos h \/ (size h = maxSize /\ size h / secsize = pos h + 1)).
  { rewrite I4. unfold last_of. destruct (Z.eqb_spec (size h) maxSize); lia. }
  assert (Hfull : size h = maxSize -> pos (Write h b).1 = pos h).
  { intros E. rewrite Hpos, I4. f_equal. rewrite Hsz, length_app. lia. }
  assert (Hrun : running (Write h b).1 = spawn (size h / secsize) (pos (Write h b).1) (running h)) by done.
  split; [..|intros Hc; cbn [Write fst hashing] in Hc; congruence].
  - cbn [Write fst bmt_buffer]. by rewrite length_copy_at.
  - done.
  - intros k Hk. cbn [Write fst bmt_buffer]. rewrite lookup_copy_at by lia.
    rewrite Hsz, length_app in Hk. case_decide as Hd.
    + rewrite lookup_app_r by lia. f_equal. lia.
    + rewrite lookup_app_l by lia. apply I3. lia.
  - done.
  - intros t Ht. rewrite Hrun. unfold spawn. case_match eqn:E; [by eexists|]. apply I5. lia.
  - intros t Ht. rewrite Hrun. unfold spawn. case_match eqn:E; [|apply I6; right; split; [done|]]; lia.
Qed.

Lemma size_bounds w h : HInv w h -> 0 <= size h <= maxSize.
Proof. intros HI. rewrite (hi_size _ _ HI). pose proof maxSize_pos. lia. Qed.

Lemma HInv_Hash w h : hashing h = false -> HInv w h -> HInv w (Hash h).
Proof.
  intros Hh HI. pose proof (size_bounds _ _ HI) as Hs. destruct HI as [I1 I2 I3 I4 I5 I6 _].
  pose proof (last_of_spec _ Hs) as [Hl1 Hl2]. pose proof maxSize_pos as Hp. rewrite <- I4 in Hl1, Hl2.
  assert (Hb : (pos h + 1) * secsize <= maxSize) by (rewrite Hmax; nia).
  unfold Hash. destruct (Z.eqb_spec (size h) 0) as [E0|Hne].
  { split; cbn [bmt_buffer size pos running hashing]; try done.
    - intros t [Ht|[? _]]; [|done]. apply I6. auto with lia.
    - intros _. rewrite E0. simpl. apply I6. right. split; [done|]. rewrite E0 in *. nia. }
  split; cbn [bmt_buffer size pos running hashing]; try done.
  - by rewrite length_copy_at.
  - intros k Hk. rewrite lookup_copy_at by lia. rewrite decide_False by lia. auto.
  - intros t Ht. rewrite fn_lookup_insert_ne by lia. auto.
  - intros t [Ht|[? _]]; [|done]. rewrite fn_lookup_insert_ne by lia. apply I6. auto.
  - intros _. rewrite (proj2 (Z.eqb_neq _ _) Hne). split; [eexists; by rewrite fn_lookup_insert|].
    intros k Hk. rewrite lookup_copy_at by lia. unfold zerosection. rewrite length_replicate, decide_True by lia.
    apply lookup_replicate_2. lia.
Qed.

Lemma go_inv h t h' : go h t = Some h' -> exists x final x' N' o,
  running h t = Some (x, final) /\
  thread_step hash segmentSize D
    (fun i => slice (i * (2 * segmentSize)) (i * (2 * segmentSize) + 2 * segmentSize) (bmt_buffer h))
    final t x (bmt_nodes h) = Some (x', N', o) /\
  h' = {| bmt_nodes := N'; bmt_buffer := bmt_buffer h; size := size h; pos := pos h; offset := offset h;
          span := span h; result := result h ++ option_list o;
          running := <[t := Some (x', final)]> (running h); hashing := hashing h |}.
Proof.
  unfold go. intros Hg. destruct (running h t) as [[x final]|] eqn:E; [|done]. cbn [mbind option_bind] in Hg.
  destruct (thread_step _ _ _ _ _ _ _ _) as [[[x' N'] o]|] eqn:Es; [|done]. simplify_eq.
  exists x, final, x', N', o. split_and!; [done|exact Es|]. by injection Hg as <-.
Qed.

Lemma HInv_go w h t h' : HInv w h -> go h t = Some h' -> HInv w h'.
Proof.
  intros HI Hg. destruct (go_inv _ _ _ Hg) as (x & final & x' & N' & o & Ht & _ & ->).
  destruct HI as [I1 I2 I3 I4 I5 I6 I7].
  split; cbn [bmt_buffer size pos running hashing]; try done.
  - intros t' Hlt. destruct (I5 t' Hlt) as [y Hy]. destruct (decide (t' = t)) as [->|].
    + simplify_eq. exists x'. by rewrite fn_lookup_insert.
    + exists y. by rewrite fn_lookup_insert_ne.
  - intros t' Hlt. rewrite fn_lookup_insert_ne; [auto|]. intros ->. rewrite I6 in Ht; done.
  - intros Hh. specialize (I7 Hh). destruct (size h =? 0).
    + rewrite fn_lookup_insert_ne; [done|]. intros ->. congruence.
    + destruct I7 as [[y Hy] Hz]. split; [|done]. destruct (decide (Z.to_nat (pos h) = t)) as [<-|].
      * simplify_eq. exists x'. by rewrite fn_lookup_insert.
      * exists y. by rewrite fn_lookup_insert_ne.
Qed.

(** ** Simulation by the goroutines of the final number of sections *)

Section Sim.
Context (W : bytes).

Definition accepted : bytes := take (Z.to_nat maxSize) W.
Definition P : nat := Z.to_nat (last_of (Z.min (zlen W) maxSize)).
Definition sec : nat -> bytes := section segmentSize accepted.

Definition cfg (h : Hasher) : config :=
  Config (fun t => match running h t with Some (x, _) => x | None => Start end) (bmt_nodes h) (result h).

Lemma thread_step_sec final t x Nd (sec1 sec2 : nat -> bytes) : sec1 t = sec2 t ->
  thread_step hash segmentSize D sec1 final t x Nd = thread_step hash segmentSize D sec2 final t x Nd.
Proof. intros E. destruct x; cbn [thread_step]; [by rewrite E|done..]. Qed.

Lemma slice_section (buf : bytes) t : zlen buf = maxSize -> (t < 2 ^ D)%nat ->
  (forall k, (t * (2 * segmentSize) <= k < (t + 1) * (2 * segmentSize))%nat ->
     buf !! k = if decide (k < length accepted)%nat then accepted !! k else Some 0) ->
  slice (t * (2 * segmentSize)) (t * (2 * segmentSize) + 2 * segmentSize) buf = sec t.
Proof.
  intros Hb Ht Hk. assert (Hlen : ((t + 1) * (2 * segmentSize) <= length buf)%nat) by nia.
  apply list_eq_same_length with (2 * segmentSize)%nat.
  - unfold sec, section. by rewrite length_resize.
  - unfold slice. rewrite length_take, length_drop. lia.
  - intros i x y Hi Hx Hy. unfold slice in Hx. rewrite lookup_take_lt, lookup_drop, Hk in Hx by lia.
    unfold sec, section in Hy. rewrite resize_spec in Hy. case_decide as Hd.
    + rewrite lookup_app_l in Hy by (rewrite length_take, length_drop; lia).
      rewrite lookup_take_lt, lookup_drop in Hy by lia. congruence.
    + rewrite lookup_app_r in Hy by (rewrite length_take, length_drop; lia).
      apply lookup_replicate in Hy as [-> _]. congruence.
Qed.

Lemma accepted_lookup k : Z.of_nat k < maxSize -> accepted !! k = W !! k.
Proof. intros Hk. unfold accepted. apply lookup_take_lt. lia. Qed.

Lemma length_accepted : zlen accepted = Z.min (zlen W) maxSize.
Proof. unfold accepted. rewrite length_take. pose proof maxSize_pos. lia. Qed.

Lemma go_section w h t x final : HInv w h -> w `prefix_of` W -> (hashing h = true -> w = W) ->
  running h t = Some (x, final) ->
  (t <= P)%nat /\ (t =? P)%nat = final /\
  slice (t * (2 * segmentSize)) (t * (2 * segmentSize) + 2 * segmentSize) (bmt_buffer h) = sec t.
Proof.
  intros HI [w' HW] Hw Ht. pose proof (size_bounds _ _ HI) as Hsz. destruct HI as [I1 I2 I3 I4 I5 I6 I7].
  pose proof (last_of_spec _ Hsz) as [Hl1 Hl2]. rewrite <- I4 in Hl1, Hl2.
  assert (HlenW : zlen w <= zlen W) by (rewrite HW, length_app; lia).
  pose proof (last_of_mono (size h) (Z.min (zlen W) maxSize) ltac:(lia) ltac:(lia)) as Hmono. rewrite <- I4 in Hmono.
  assert (Hdata : forall k, Z.of_nat k < size h -> bmt_buffer h !! k = accepted !! k).
  { intros k Hk. rewrite I3, accepted_lookup, HW by lia. by rewrite lookup_app_l by lia. }
  pose proof length_accepted as Hacc.
  destruct (decide (Z.of_nat t < pos h)) as [Hlt|Hge].
  - destruct (I5 t Hlt) as [y Hy]. assert (final = false) as -> by congruence.
    split; [unfold P; lia|]. split; [unfold P; lia|]. apply slice_section; [done|lia|].
    intros k Hk. assert (Z.of_nat k < size h) by nia. rewrite Hdata, decide_True by lia. done.
  - assert (hashing h = true) as Hh.
    { destruct (hashing h) eqn:E; [done|]. rewrite I6 in Ht by auto with lia. done. }
    assert (Z.of_nat t = pos h) as Et.
    { destruct (decide (Z.of_nat t = pos h)); [done|]. rewrite I6 in Ht by (left; lia). done. }
    rewrite (Hw Hh) in *. assert (HP : P = t) by (unfold P; rewrite <- I2, <- I4; lia).
    specialize (I7 Hh). destruct (Z.eqb_spec (size h) 0) as [E0|Hne0].
    + exfalso. assert (t = 0%nat) as -> by nia. congruence.
    + destruct I7 as [[y Hy] Hz]. replace (Z.to_nat (pos h)) with t in Hy by lia.
      assert (final = true) as -> by congruence. split; [lia|]. split; [lia|].
      apply slice_section; [done|lia|]. intros k Hk. case_decide; [apply Hdata|apply Hz]; nia.
Qed.

Lemma sim_go w h t h' : HInv w h -> w `prefix_of` W -> (hashing h = true -> w = W) ->
  go h t = Some h' -> cstep hash segmentSize D P sec (cfg h) (cfg h').
Proof.
  intros HI HW Hw Hg. destruct (go_inv _ _ _ Hg) as (x & final & x' & N' & o & Ht & Hs & ->).
  destruct (go_section _ _ _ _ _ HI HW Hw Ht) as (HtP & Hf & Hsec).
  assert (E : cfg {| bmt_nodes := N'; bmt_buffer := bmt_buffer h; size := size h; pos := pos h; offset := offset h;
          span := span h; result := result h ++ option_list o;
          running := <[t := Some (x', final)]> (running h); hashing := hashing h |} =
    Config (<[t := x']> (T (cfg h))) N' (out (cfg h) ++ option_list o)).
  { unfold cfg. cbn [running bmt_nodes result T out]. f_equal. extensionality t'.
    destruct (decide (t' = t)) as [->|]; [by rewrite !fn_lookup_insert|by rewrite !fn_lookup_insert_ne]. }
  rewrite E. constructor; [done|]. cbn [cfg T N]. rewrite Ht, Hf, <- Hs. by apply thread_step_sec.
Qed.

Lemma sim_other w h e h' : HInv w h -> (forall t, e <> EGo t) -> exec h e = Some h' -> cfg h' = cfg h.
Proof.
  intros HI He Hx. destruct e as [b|s'| |t]; cbn [exec] in Hx; [..|by destruct (He t)].
  all: destruct (hashing h) eqn:Hh; [done|]; simplify_eq.
  - unfold cfg. cbn [Write fst running bmt_nodes result]. f_equal. extensionality t. unfold spawn.
    destruct ((_ <=? _) && _) eqn:E; [|done]. rewrite (hi_idle _ _ HI t); [done|]. right. split; [done|].
    pose proof (size_bounds _ _ HI). rewrite (hi_pos _ _ HI). unfold last_of. destruct (_ =? maxSize); lia.
  - done.
  - unfold Hash. destruct (Z.eqb_spec (size h) 0); [done|]. unfold cfg. cbn [running bmt_nodes result].
    f_equal. extensionality t. destruct (decide (t = Z.to_nat (pos h))) as [->|]; [|by rewrite fn_lookup_insert_ne].
    rewrite fn_lookup_insert. rewrite (hi_idle _ _ HI); [done|]. right. split; [done|].
    pose proof (last_of_spec _ (size_bounds _ _ HI)). rewrite (hi_pos _ _ HI). lia.
Qed.

Lemma HInv_exec w h e h' : HInv w h -> exec h e = Some h' -> HInv (w ++ payload e) h'.
Proof.
  intros HI Hx. destruct e as [b|s'| |t]; cbn [exec payload] in *; rewrite ?app_nil_r.
  4: by eapply HInv_go.
  all: destruct (hashing h) eqn:Hh; [done|]; simplify_eq.
  - by apply HInv_write.
  - by apply HInv_header.
  - by apply HInv_Hash.
Qed.

Lemma hashing_exec h e h' : hashing h = true -> exec h e = Some h' -> hashing h' = true /\ payload e = [].
Proof.
  intros Hh Hx. destruct e as [b|s'| |t]; cbn [exec payload] in *; rewrite ?Hh in Hx; [done..|].
  destruct (go_inv _ _ _ Hx) as (x & final & x' & N' & o & _ & _ & ->). done.
Qed.

Lemma hashing_written es h h' : hashing h = true -> run h es = Some h' -> written es = [].
Proof.
  revert h. induction es as [|e es IH]; intros h Hh Hr; [done|]. cbn [run] in Hr.
  destruct (exec h e) as [h1|] eqn:Hx; [|done]. destruct (hashing_exec _ _ _ Hh Hx) as [Hh1 He].
  unfold written. rewrite bind_cons, He. by eapply IH.
Qed.

Lemma run_sim es h h' w : HInv w h -> run h es = Some h' -> W = w ++ written es ->
  HInv W h' /\ nsteps (cstep hash segmentSize D P sec) (steps es) (cfg h) (cfg h').
Proof.
  revert h w. induction es as [|e es IH]; intros h w HI Hr HW; cbn [run] in Hr.
  { simplify_eq. assert (w = W) as <- by (rewrite HW; by rewrite app_nil_r). split; [done|constructor]. }
  destruct (exec h e) as [h1|] eqn:Hx; [|done]. cbn [mbind option_bind] in Hr.
  pose proof (HInv_exec _ _ _ _ HI Hx) as HI1.
  assert (HW1 : W = (w ++ payload e) ++ written es).
  { rewrite HW. unfold written. by rewrite bind_cons, app_assoc. }
  destruct (IH _ _ HI1 Hr HW1) as [HI' Hn]. split; [done|].
  assert ((exists t, e = EGo t) \/ forall t, e <> EGo t) as [[t ->]|Hne] by (destruct e; eauto).
  - eapply nsteps_l; [|exact Hn]. eapply sim_go; [exact HI| |..|exact Hx]; [by eexists|].
    intros Hh. rewrite HW. replace (written (EGo t :: es)) with ([] : bytes); [by rewrite app_nil_r|].
    symmetry. apply (hashing_written (EGo t :: es) h h'); [done|]. cbn [run]. by rewrite Hx.
  - rewrite <- (sim_other w h e h1); [|done|done|done].
    replace (steps (e :: es)) with (steps es); [done|]. destruct e; [done..|]. by destruct (Hne t).
Qed.

(** ** The conditions of the goroutine theorems *)

Lemma P_lt : (P < 2 ^ D)%nat.
Proof.
  pose proof maxSize_pos. pose proof (last_of_spec (Z.min (zlen W) maxSize) ltac:(lia)) as [? _]. unfold P. lia.
Qed.

Lemma sec_zero i : (P < i)%nat -> sec i = zeros (2 * segmentSize).
Proof.
  intros Hi. pose proof maxSize_pos. pose proof length_accepted as Hl.
  pose proof (last_of_spec (Z.min (zlen W) maxSize) ltac:(lia)) as [_ [_ Hb]]. unfold P in Hi.
  unfold sec, section. rewrite drop_ge by nia. unfold zeros. apply resize_nil.
Qed.

Lemma all_spawned h t : HInv W h -> hashing h = true -> size h <> 0 -> (t <= P)%nat ->
  exists x final, running h t = Some (x, final).
Proof.
  intros [I1 I2 I3 I4 I5 I6 I7] Hh Hne Ht. specialize (I7 Hh). rewrite (proj2 (Z.eqb_neq _ _) Hne) in I7.
  destruct I7 as [[y Hy] _]. unfold P in Ht. rewrite <- I2, <- I4 in Ht.
  destruct (decide (Z.of_nat t < pos h)) as [Hlt|].
  - destruct (I5 t Hlt). eauto.
  - destruct (decide (t = Z.to_nat (pos h))) as [->|]; [eauto|]. lia.
Qed.

Lemma go_None h t x final : running h t = Some (x, final) -> go h t = None -> stopped x.
Proof.
  unfold go. intros -> Hg. cbn [mbind option_bind] in Hg.
  destruct x; cbn [thread_step] in Hg; [done| | |done|by eexists].
  all: repeat case_match; done.
Qed.
End Sim.

(** ** A run from a tree of the pool *)

(** What the pool keeps: a buffer of the right size, every toggle passive and
    far enough from the end of the [int32] range. *)
Record tree_ok (t : tree) : Prop := {
  tok_buffer : zlen (t_buffer t) = maxSize;
  tok_state : forall v, Z.even (state (t_nodes t v)) = true /\ 0 <= state (t_nodes t v) < 2 ^ 31 - 2;
}.

Section Run.
Context (t : tree) (es : list event) (h : Hasher).
Context (Hok : tree_ok t) (Hrun : run (Get t) es = Some h).

Abbreviation W := (written es).

Lemma run_cfg : HInv W h /\
  nsteps (cstep hash segmentSize D (P W) (sec W)) (steps es) (cfg (Get t)) (cfg h).
Proof.
  apply (run_sim W es (Get t) h []); [|done|done]. apply HInv_Get. apply Hok.
Qed.

Lemma Get_initial : initial (fun v => state (t_nodes t v)) (cfg (Get t)).
Proof. done. Qed.

Lemma run_safe : result h = [] \/ result h = [merkle hash (sec W) D 0].
Proof.
  destruct run_cfg as [_ Hn]. apply rtc_nsteps_2 in Hn.
  apply (conc_safe hash segmentSize D (P W) (sec W) (fun v => state (t_nodes t v)) (tok_state _ Hok)
    (P_lt W) (sec_zero W) _ _ Get_initial Hn).
Qed.

Lemma run_done : hashing h = true -> size h <> 0 -> (forall i, go h i = None) ->
  result h = [merkle hash (sec W) D 0].
Proof.
  intros Hh Hs Hg. destruct run_cfg as [HI Hn]. apply rtc_nsteps_2 in Hn.
  apply (conc_done hash segmentSize D (P W) (sec W) (fun v => state (t_nodes t v)) (tok_state _ Hok)
    (P_lt W) (sec_zero W) _ _ Get_initial Hn).
  intros i Hi. destruct (all_spawned _ _ _ HI Hh Hs Hi) as (x & final & E). cbn [cfg T]. rewrite E.
  by eapply go_None.
Qed.
End Run.
End Hasher.

Section Correct.
Context (hash : bytes -> bytes) (segmentSize : nat) (segmentCount capacity : Z).
Context (Hseg : (0 < segmentSize <= 32)%nat).

Abbreviation conf := (NewConf hash segmentSize segmentCount capacity).

Lemma conf_max : c_segmentSize conf = segmentSize /\
  c_maxSize conf = Z.of_nat (2 ^ (c_depth conf - 1) * (2 * segmentSize)) /\
  maxDataLength (NewRefHasher segmentSize segmentCount) = c_maxSize conf /\
  c_depth conf = S (c_depth conf - 1).
Proof.
  destruct (NewConf_params hash segmentSize (proj1 Hseg) segmentCount capacity) as (D & E1 & E2 & E3).
  rewrite E1, E2, E3. simpl. rewrite Nat.sub_0_r. split_and!; try done.
  unfold NewConf. by destruct (sizeToParams segmentCount).
Qed.

Lemma conf_hyps : (0 < c_segmentSize conf <= 32)%nat /\
  c_maxSize conf = Z.of_nat (2 ^ (c_depth conf - 1) * (2 * c_segmentSize conf)).
Proof. destruct conf_max as (Es & Em & _ & _). by rewrite Es. Qed.

Lemma conf_zero_root : c_zerohashes conf !! c_depth conf =
  Some (merkle hash (section (c_segmentSize conf) []) (c_depth conf - 1) 0).
Proof.
  destruct conf_max as (Es & _ & _ & Ed). rewrite NewConf_zerohashes by lia. f_equal. rewrite Ed at 1.
  rewrite Es. symmetry. apply merkle_zero. intros i. unfold section. rewrite drop_nil. apply resize_nil.
Qed.

(** The root the reference hasher computes for the data of a run. *)
Lemma ref_root es fuel : (c_depth conf <= fuel)%nat ->
  ref_Hash hash (NewRefHasher segmentSize segmentCount) fuel (written es) =
    Some (merkle hash (sec conf (written es)) (c_depth conf - 1) 0).
Proof.
  intros Hf. destruct conf_max as (Es & Em & Er & Ed). rewrite Em in Er.
  rewrite (ref_Hash_merkle hash segmentSize (proj1 Hseg) segmentCount _ fuel (written es) Er) by lia.
  unfold sec, accepted. by rewrite Es, Em, Nat2Z.id.
Qed.

(** C2: whatever the interleaving of the goroutines and however the data was
    split over calls of [Write], [Hash] returns the hash of the span and the
    reference root of the written data (cut at the capacity), and it has
    returned once no goroutine can move. *)
Theorem Hash_correct t es h :
  tree_ok conf t -> run hash conf (Get t) es = Some h -> hashing h = true ->
  exists root,
    (forall fuel, (c_depth conf <= fuel)%nat ->
       ref_Hash hash (NewRefHasher segmentSize segmentCount) fuel (written es) = Some root) /\
    (forall r, Hash_result hash conf h = Some r -> r = doHash hash [span h; root]) /\
    ((forall i, go hash conf h i = None) -> Hash_result hash conf h = Some (doHash hash [span h; root])).
Proof.
  intros Hok Hr Hh. destruct conf_hyps as [Hs Hm].
  exists (merkle hash (sec conf (written es)) (c_depth conf - 1) 0). split; [by apply ref_root|].
  unfold Hash_result. rewrite Hh. destruct (Z.eqb_spec (size h) 0) as [E0|Hne].
  - destruct (run_cfg hash conf Hs Hm t es h Hok Hr) as [HI _].
    assert (written es = []) as ->.
    { apply nil_length_inv. pose proof (hi_size _ _ _ HI). pose proof (maxSize_pos conf Hs Hm). lia. }
    rewrite conf_zero_root. unfold sec, accepted. rewrite take_nil. cbn [mbind option_bind]. naive_solver.
  - split.
    + intros r. destruct (run_safe hash conf Hs Hm t es h Hok Hr) as [-> | ->]; naive_solver.
    + intros Hg. by rewrite (run_done hash conf Hs Hm t es h Hok Hr Hh Hne Hg).
Qed.

(** C13: the goroutines of a run make at most [2^D * (3 D + 2)] steps together,
    [D] being the number of levels above the leaves. *)
Theorem Hash_terminates t es h :
  tree_ok conf t -> run hash conf (Get t) es = Some h ->
  (steps es <= 2 ^ (c_depth conf - 1) * (3 * (c_depth conf - 1) + 2))%nat.
Proof.
  intros Hok Hr. destruct conf_hyps as [Hs Hm].
  destruct (run_cfg hash conf Hs Hm t es h Hok Hr) as [_ Hn].
  pose proof (conc_terminates hash _ _ _ _ (fun v => state (t_nodes t v)) (tok_state _ _ Hok)
    (P_lt conf Hs Hm _) (sec_zero conf Hs Hm _) _ _ _ (Get_initial t) Hn) as Hle.
  pose proof (P_lt conf Hs Hm (written es)). nia.
Qed.

(** Once the root has been received the tree can go back to the pool: every
    toggle is passive and at most two higher, the buffer has its size, and the
    goroutines still running do not write to the nodes any more. *)
Theorem Hash_tree_reusable t es h :
  tree_ok conf t -> run hash conf (Get t) es = Some h -> result h <> [] ->
  zlen (t_buffer (Put h)) = c_maxSize conf /\
  (forall v, Z.even (state (t_nodes (Put h) v)) = true /\
     state (t_nodes t v) <= state (t_nodes (Put h) v) <= state (t_nodes t v) + 2) /\
  (forall i h', go hash conf h i = Some h' -> forall v, bmt_nodes h' v = bmt_nodes h v).
Proof.
  intros Hok Hr Hres. destruct conf_hyps as [Hs Hm].
  destruct (run_cfg hash conf Hs Hm t es h Hok Hr) as [HI Hn]. apply rtc_nsteps_2 in Hn.
  split_and!; [apply HI| |].
  - intros v. pose proof (tok_state _ _ Hok v) as [He _].
    destruct (conc_states hash _ _ _ _ (fun v => state (t_nodes t v)) (tok_state _ _ Hok)
      (P_lt conf Hs Hm _) (sec_zero conf Hs Hm _) _ _ v (Get_initial t) Hn Hres) as [E|E];
      cbn [cfg N] in E; cbn [Put t_nodes]; rewrite E; [split; [done|lia]|].
    rewrite Z.even_add, He. split; [done|lia].
  - intros i h' Hg v.
    apply (conc_quiet hash _ _ _ _ (fun v => state (t_nodes t v)) (tok_state _ _ Hok)
      (P_lt conf Hs Hm _) (sec_zero conf Hs Hm _) _ _ (cfg h') v (Get_initial t) Hn Hres).
    by apply (sim_go hash conf Hs Hm _ (written es) h i h').
Qed.
End Correct.

(** ** Examples: a two-byte checksum in the place of Keccak *)

Definition toy_hash (l : bytes) : bytes :=
  [foldl (fun a x => (a * 31 + x) mod 256) 7 l; foldl (fun a x => (a * 17 + x) mod 256) 3 l].

Definition toy_conf : Conf := NewConf toy_hash 2 4 1.

Definition toy_tree : tree := {| t_nodes := fun _ => Cell 4 [9] [9]; t_buffer := replicate 8 255 |}.

(** Five bytes in two writes; the final goroutine loses at the root node. *)
Definition toy_run : list event :=
  [EHeader [5]; EWrite [1; 2; 3]; EWrite [4; 6]; EHash;
   EGo 1; EGo 1; EGo 1; EGo 1; EGo 0; EGo 0; EGo 0; EGo 0; EGo 0].

Lemma toy_tree_ok : tree_ok toy_conf toy_tree.
Proof. by split. Qed.

Lemma toy_run_some : exists h, run toy_hash toy_conf (Get toy_tree) toy_run = Some h /\
  hashing h = true /\ result h <> [] /\ exists r, Hash_result toy_hash toy_conf h = Some r.
Proof.
  destruct (run toy_hash toy_conf (Get toy_tree) toy_run) as [h|] eqn:E.
  - exists h. split; [done|].
    assert (Hv : (fun h => (hashing h, bool_decide (result h = []), bool_decide (Hash_result toy_hash toy_conf h = None)))
      <$> run toy_hash toy_conf (Get toy_tree) toy_run = Some (true, false, false)) by (vm_compute; reflexivity).
    rewrite E in Hv. injection Hv as H1 H2 H3.
    apply bool_decide_eq_false in H2. apply bool_decide_eq_false in H3.
    apply not_eq_None_Some in H3. by split_and!.
  - exfalso. assert (Hv : bool_decide (is_Some (run toy_hash toy_conf (Get toy_tree) toy_run)) = true)
      by (vm_compute; reflexivity). by rewrite E in Hv.
Qed.

Lemma Hash_correct_witness : exists h root,
  run toy_hash toy_conf (Get toy_tree) toy_run = Some h /\
  ref_Hash toy_hash (NewRefHasher 2 4) 2 [1; 2; 3; 4; 6] = Some root /\
  Hash_result toy_hash toy_conf h = Some (doHash toy_hash [span h; root]).
Proof.
  destruct toy_run_some as (h & Hr & Hh & _ & r & Hv).
  destruct (Hash_correct toy_hash 2 4 1 ltac:(lia) toy_tree toy_run h toy_tree_ok Hr Hh) as (root & H1 & H2 & _).
  exists h, root. split; [done|]. split; [apply (H1 2%nat); vm_compute; lia|].
  rewrite Hv. f_equal. exact (H2 r Hv).
Defined.

Lemma Hash_terminates_witness : (steps toy_run <= 10)%nat.
Proof.
  destruct toy_run_some as (h & Hr & _).
  exact (Hash_terminates toy_hash 2 4 1 ltac:(lia) toy_tree toy_run h toy_tree_ok Hr).
Defined.

Lemma Hash_tree_reusable_witness : exists h,
  run toy_hash toy_conf (Get toy_tree) toy_run = Some h /\ tree_ok toy_conf (Put h).
Proof.
  destruct toy_run_some as (h & Hr & _ & Hres & _). exists h. split; [done|].
  destruct (Hash_tree_reusable toy_hash 2 4 1 ltac:(lia) toy_tree toy_run h toy_tree_ok Hr Hres) as (H1 & H2 & _).
  split; [done|]. intros v. destruct (H2 v) as [He Hb]. split; [done|]. cbn in Hb |- *. lia.
Defined.
