(* ===== verification/Crypto.v ===== *)
(** * Keys, signatures and Ethereum addresses (pkg/crypto)

    The elliptic-curve library (btcec) is third-party code: the class [Ecdsa]
    holds its operations with the behaviour the package relies on.  What is
    modelled is the code around it: the Ethereum message prefix, the
    conversion between the compact format [v|r|s] of the library and the
    Ethereum format [r|s|v], and the addresses derived from public keys. *)

From Stdlib Require Import ZArith Lia String Ascii.
From stdpp Require Import base gmap list numbers.
From S2P Require Import Prelude Boson.

Open Scope Z_scope.

Definition AddressSize : nat := 20.

Inductive cryptoError := ErrInvalidLength | ErrInvalidPublicKey | ErrRecover.

#[export] Instance cryptoError_eq_dec : EqDecision cryptoError.
Proof. solve_decision. Defined.

(** Keccak256 and secp256k1. *)
Class Ecdsa := {
  keccak : bytes -> bytes;
  length_keccak : forall l, length (keccak l) = 32%nat;
  PrivateKey : Type;
  PublicKey : Type;
  public : PrivateKey -> PublicKey;
  Marshal : PublicKey -> option bytes;   (** nil coordinates: [None] *)
  Marshal_public : forall k, is_Some (Marshal (public k));
  SignCompact : PrivateKey -> bytes -> bytes;
  length_SignCompact : forall k h, length (SignCompact k h) = 65%nat;
  RecoverCompact : bytes -> bytes -> option PublicKey;
  Recover_SignCompact : forall k h, RecoverCompact (SignCompact k h) h = Some (public k);
}.

Definition bytes_of_string (s : string) : bytes :=
  map (fun c => Z.of_N (N_of_ascii c)) (list_ascii_of_string s).

(** [%d] of a length; [n] has at most [n + 1] digits. *)
Fixpoint digits (fuel : nat) (n : Z) : bytes :=
  match fuel with
  | O => []
  | S fuel => if n <? 10 then [48 + n] else digits fuel (n / 10) ++ [48 + n mod 10]
  end.

Definition format_int (n : nat) : bytes := digits (S n) (Z.of_nat n).

Definition addEthereumPrefix (data : bytes) : bytes :=
  25 :: bytes_of_string "Ethereum Signed Message:" ++ 10 :: format_int (length data) ++ data.

Section Crypto.
Context `{Ecdsa}.

Definition LegacyKeccak256 (data : bytes) : bytes := keccak data.

Definition hashWithEthereumPrefix (data : bytes) : bytes := LegacyKeccak256 (addEthereumPrefix data).

Definition NewEthereumAddress (p : PublicKey) : result cryptoError bytes :=
  match Marshal p with
  | None => Err ErrInvalidPublicKey
  | Some pubBytes => Ok (drop 12 (LegacyKeccak256 (drop 1 pubBytes)))
  end.

Definition Recover (signature data : bytes) : result cryptoError PublicKey :=
  if negb (length signature =? 65)%nat then Err ErrInvalidLength
  else
    let btcsig := replicate 65 0 in
    let btcsig := <[0%nat := default 0 (signature !! 64%nat)]> btcsig in
    let btcsig := copy_at 1 signature btcsig in
    match RecoverCompact btcsig (hashWithEthereumPrefix data) with
    | Some p => Ok p
    | None => Err ErrRecover
    end.

(** [defaultSigner.sign] and [Sign]. *)
Definition sign (key : PrivateKey) (sighash : bytes) : bytes :=
  let signature := SignCompact key sighash in
  let v := default 0 (signature !! 0%nat) in
  let signature := copy_at 0 (drop 1 signature) signature in
  <[64%nat := v]> signature.

Definition Sign (key : PrivateKey) (data : bytes) : bytes := sign key (hashWithEthereumPrefix data).

(** ** Lemmas *)

Lemma length_sign k h : length (sign k h) = 65%nat.
Proof. unfold sign. by rewrite length_insert, length_copy_at, length_SignCompact. Qed.

(** The two format conversions are inverse to each other. *)
Lemma btcsig_sign k h :
  copy_at 1 (sign k h) (<[0%nat := default 0 (sign k h !! 64%nat)]> (replicate 65 0)) = SignCompact k h.
Proof.
  pose proof (length_SignCompact k h) as Hl.
  apply list_eq_same_length with 65%nat; [done|by rewrite length_copy_at, length_insert, length_replicate|].
  intros i x y Hi Hx Hy. rewrite lookup_copy_at in Hx by (rewrite length_insert, length_replicate; lia).
  rewrite length_insert, length_replicate, length_sign in Hx.
  case_decide as Hd.
  - unfold sign in Hx. rewrite list_lookup_insert_ne, lookup_copy_at, length_drop, Hl in Hx by lia.
    rewrite decide_True, lookup_drop in Hx by lia. replace (1 + (i - 1 - 0))%nat with i in Hx by lia. congruence.
  - assert (i = 0%nat) as -> by lia.
    rewrite list_lookup_insert_eq in Hx by (rewrite length_replicate; lia). injection Hx as <-.
    unfold sign. rewrite list_lookup_insert_eq by (rewrite length_copy_at; lia). by rewrite Hy.
Qed.

Lemma Recover_Sign k data : Recover (Sign k data) data = Ok (public k).
Proof.
  unfold Recover, Sign. rewrite length_sign. cbn [negb Nat.eqb].
  by rewrite btcsig_sign, Recover_SignCompact.
Qed.

Lemma length_NewEthereumAddress p a : NewEthereumAddress p = Ok a -> length a = AddressSize.
Proof.
  unfold NewEthereumAddress. destruct (Marshal p); [|done]. intros [= <-].
  by unfold LegacyKeccak256; rewrite length_drop, length_keccak.
Qed.

Lemma NewEthereumAddress_public k : exists a, NewEthereumAddress (public k) = Ok a.
Proof. unfold NewEthereumAddress. destruct (Marshal_public k) as [b ->]. eauto. Qed.
End Crypto.

(** A model of the class for the examples: a key is its own public key and the
    recovery id names it. *)
Program Definition toy_ecdsa : Ecdsa := {|
  keccak l := replicate 31 0 ++ [foldl (fun a x => (a * 31 + x) mod 256) 7 l];
  PrivateKey := Z; PublicKey := Z; public k := k;
  Marshal k := Some (4 :: replicate 64 k);
  SignCompact k h := k :: replicate 64 0;
  RecoverCompact s h := head s;
|}.
Next Obligation. done. Qed.
Next Obligation. by eexists. Qed.
Next Obligation. done. Qed.
Next Obligation. done. Qed.
