(* ===== verification/Chunk.v ===== *)
(** * Content-addressed and single-owner chunks (pkg/cac, pkg/soc)

    A content-addressed chunk carries its span and payload under the BMT hash
    of both; a single-owner chunk wraps one with an identifier and a signature,
    under the hash of the identifier and the owner.  Both packages are clients
    of the BMT hasher through the class [BmtSum]; the reference hasher, which
    the concurrent one implements, is the instance. *)

From Stdlib Require Import ZArith Lia.
From stdpp Require Import base gmap list numbers.
From S2P Require Import Prelude Boson Bmt Crypto.

Open Scope Z_scope.

(** What [bmtpool.Get], [SetHeader], [Write], [Hash] compute together. *)
Class BmtSum := {
  bmt_sum : bytes -> bytes -> bytes;
  length_bmt_sum : forall span data, length (bmt_sum span data) = HashSize;
}.

(** [bmtpool]: [boson.BmtBranches] segments of 32 bytes. *)
Definition BmtBranches : Z := 128 * 64.

Definition ref_bmt_sum (hash : bytes -> bytes) (span data : bytes) : bytes :=
  let root := ref_Hash hash (NewRefHasher 32 BmtBranches) 14 data in
  doHash hash [copy_at 0 span (zeros SpanSize); default [] root].

#[export, refine] Instance ref_BmtSum (hash : bytes -> bytes)
    (Hlen : forall l, length (hash l) = HashSize) : BmtSum := {| bmt_sum := ref_bmt_sum hash |}.
Proof. intros span data. apply Hlen. Defined.

(** A small instance for the examples. *)
#[refine] Definition toy_bmt : BmtSum :=
  {| bmt_sum span data := @keccak toy_ecdsa (span ++ data) |}.
Proof. intros span data. apply (@length_keccak toy_ecdsa). Defined.

(** ** Package cac *)

Module cac.

Inductive cacError := errTooShortChunkData | errTooLargeChunkData.

#[export] Instance cacError_eq_dec : EqDecision cacError.
Proof. solve_decision. Defined.

Section Cac.
Context `{BmtSum}.

Definition hasher (data span : bytes) : bytes := bmt_sum span data.

Definition newWithSpan (data span : bytes) : chunk :=
  let hash := hasher data span in
  let cdata := replicate (length data + length span) 0 in
  let cdata := copy_at 0 span (take SpanSize cdata) ++ drop SpanSize cdata in
  let cdata := copy_at SpanSize data cdata in
  NewChunk hash cdata.

Definition New (data : bytes) : result cacError chunk :=
  let dataLength := zlen data in
  if ChunkSize <? dataLength then Err errTooLargeChunkData
  else if dataLength =? 0 then Err errTooShortChunkData
  else Ok (newWithSpan data (PutUint64 (u64 dataLength))).

Definition NewWithDataSpan (data : bytes) : result cacError chunk :=
  let dataLength := zlen data in
  if ChunkSize + Z.of_nat SpanSize <? dataLength then Err errTooLargeChunkData
  else if dataLength <? Z.of_nat SpanSize then Err errTooShortChunkData
  else Ok (newWithSpan (drop SpanSize data) (take SpanSize data)).

Definition Valid (c : chunk) : bool :=
  let data := sdata c in
  if zlen data <? Z.of_nat SpanSize then false
  else if ChunkSize + Z.of_nat SpanSize <? zlen data then false
  else bool_decide (hasher (drop SpanSize data) (take SpanSize data) = addr c).

(** *** Lemmas *)

Lemma newWithSpan_data data span : length span = SpanSize ->
  newWithSpan data span = NewChunk (bmt_sum span data) (span ++ data).
Proof.
  intros Hs. unfold newWithSpan, hasher. f_equal.
  set (z := replicate _ 0). assert (Hz : length z = (length data + SpanSize)%nat) by (unfold z; by rewrite length_replicate, Hs).
  assert (copy_at 0 span (take SpanSize z) = span) as ->.
  { unfold copy_at. rewrite take_0, Nat.sub_0_r, length_take, Hz. cbn [app].
    rewrite take_ge by lia. rewrite drop_ge by (rewrite length_take; lia). apply app_nil_r. }
  unfold copy_at. rewrite take_app_length' by done. rewrite length_app, length_drop, Hz, Hs.
  rewrite take_ge by lia. rewrite drop_ge by (rewrite length_app, length_drop; lia). by rewrite app_nil_r.
Qed.

Lemma NewWithDataSpan_Ok data c : NewWithDataSpan data = Ok c <->
  (SpanSize <= length data)%nat /\ zlen data <= ChunkSize + Z.of_nat SpanSize /\
  c = NewChunk (bmt_sum (take SpanSize data) (drop SpanSize data)) data.
Proof.
  unfold NewWithDataSpan. destruct (Z.ltb_spec (ChunkSize + Z.of_nat SpanSize) (zlen data)); [split; [done|lia]|].
  destruct (Z.ltb_spec (zlen data) (Z.of_nat SpanSize)); [split; [done|lia]|].
  rewrite newWithSpan_data by (rewrite length_take; lia). rewrite take_drop.
  split; [intros [= <-]; split_and!; [lia|lia|done]|by intros (_ & _ & ->)].
Qed.

Lemma Valid_iff c : Valid c = true <->
  exists c', NewWithDataSpan (sdata c) = Ok c' /\ addr c' = addr c.
Proof.
  unfold Valid, hasher. destruct (Z.ltb_spec (zlen (sdata c)) (Z.of_nat SpanSize)).
  { split; [done|]. intros (c' & E & _). apply NewWithDataSpan_Ok in E. lia. }
  destruct (Z.ltb_spec (ChunkSize + Z.of_nat SpanSize) (zlen (sdata c))).
  { split; [done|]. intros (c' & E & _). apply NewWithDataSpan_Ok in E. lia. }
  rewrite bool_decide_eq_true. setoid_rewrite NewWithDataSpan_Ok. split.
  - intros E. eexists. split; [split_and!; [lia|lia|done]|done].
  - intros (c' & (_ & _ & ->) & E). exact E.
Qed.

Lemma New_Ok data c : New data = Ok c <->
  1 <= zlen data <= ChunkSize /\
  c = NewChunk (bmt_sum (PutUint64 (zlen data)) data) (PutUint64 (zlen data) ++ data).
Proof.
  unfold New. destruct (Z.ltb_spec ChunkSize (zlen data)); [split; [done|lia]|].
  destruct (Z.eqb_spec (zlen data) 0); [split; [done|lia]|].
  rewrite newWithSpan_data by apply length_PutUint64. rewrite u64_small by (unfold ChunkSize, Branches in *; lia).
  split; [intros [= <-]; split; [lia|done]|by intros (_ & ->)].
Qed.

(** [New] succeeds exactly on 1 to [ChunkSize] bytes; the chunk it makes is
    valid, its data is the little-endian length followed by the payload, and
    re-reading that data gives the same chunk. *)
Theorem New_valid data :
  (is_ok (New data) = true <-> 1 <= zlen data <= ChunkSize) /\
  (forall c, New data = Ok c ->
     Valid c = true /\ NewWithDataSpan (sdata c) = Ok c /\
     drop SpanSize (sdata c) = data /\ Uint64 (sdata c) = zlen data /\ length (addr c) = HashSize).
Proof.
  split.
  - destruct (New data) as [c|e] eqn:E.
    + apply New_Ok in E. split; [lia|done].
    + split; [done|]. intros Hl.
      assert (New data = Ok (NewChunk (bmt_sum (PutUint64 (zlen data)) data) (PutUint64 (zlen data) ++ data)))
        by by apply New_Ok. congruence.
  - intros c [Hl ->]%New_Ok. cbn [sdata addr NewChunk].
    assert (E : NewWithDataSpan (PutUint64 (zlen data) ++ data) =
      Ok (NewChunk (bmt_sum (PutUint64 (zlen data)) data) (PutUint64 (zlen data) ++ data))).
    { apply NewWithDataSpan_Ok. rewrite length_app, length_PutUint64. split_and!; [unfold SpanSize; lia|unfold SpanSize; lia|].
      by rewrite take_app_length', drop_app_length' by (by rewrite length_PutUint64). }
    split_and!; [apply Valid_iff; eexists; split; [exact E|done]|done| | |].
    + by rewrite drop_app_length' by (by rewrite length_PutUint64).
    + apply Uint64_PutUint64. unfold ChunkSize, Branches in Hl. lia.
    + apply length_bmt_sum.
Qed.
End Cac.

Lemma New_valid_witness : exists c, @New toy_bmt [1; 2; 3] = Ok c /\ @Valid toy_bmt c = true.
Proof.
  destruct (@New_valid toy_bmt [1; 2; 3]) as [_ Hv].
  set (c := NewChunk (@bmt_sum toy_bmt (PutUint64 3) [1; 2; 3]) (PutUint64 3 ++ [1; 2; 3])).
  exists c. assert (E : @New toy_bmt [1; 2; 3] = Ok c) by by vm_compute.
  split; [exact E|]. exact (proj1 (Hv c E)).
Defined.
End cac.

(** ** Package soc *)

Module soc.

Definition IdSize : nat := 32.
Definition SignatureSize : nat := 65.
Definition minChunkSize : nat := IdSize + SignatureSize + SpanSize.

Inductive socError :=
| errInvalidAddress
| errWrongChunkSize
| errCac (e : cac.cacError)
| errCrypto (e : cryptoError).

Record SOC := MkSOC {
  id : bytes;
  owner : bytes;
  signature : bytes;
  wrapped : chunk;
}.

Section Soc.
Context `{BmtSum} `{Ecdsa}.

Definition lift_cac {A} (r : result cac.cacError A) : result socError A :=
  match r with Ok a => Ok a | Err e => Err (errCac e) end.

Definition lift_crypto {A} (r : result cryptoError A) : result socError A :=
  match r with Ok a => Ok a | Err e => Err (errCrypto e) end.

Definition hash (values : list bytes) : bytes := keccak (mjoin values).

Definition CreateAddress (id owner : bytes) : Address := hash [id; owner].

Definition recoverAddress (signature digest : bytes) : result cryptoError bytes :=
  p ← Recover signature digest; NewEthereumAddress p.

Definition New (id : bytes) (ch : chunk) : SOC := MkSOC id [] [] ch.

Definition NewSigned (id : bytes) (ch : chunk) (owner sig : bytes) : result socError SOC :=
  if negb (length owner =? AddressSize)%nat then Err errInvalidAddress
  else Ok (MkSOC id owner sig ch).

Definition address (s : SOC) : result socError Address :=
  if negb (length (owner s) =? AddressSize)%nat then Err errInvalidAddress
  else Ok (CreateAddress (id s) (owner s)).

Definition toBytes (s : SOC) : bytes := id s ++ signature s ++ sdata (wrapped s).

Definition Chunk (s : SOC) : result socError chunk :=
  socAddress ← address s; Ok (NewChunk socAddress (toBytes s)).

(** [Sign] stores the owner and the signature in the SOC and returns its chunk. *)
Definition Sign (s : SOC) (signer : PrivateKey) : result socError (SOC * chunk) :=
  ownerAddressBytes ← lift_crypto (NewEthereumAddress (public signer));
  if negb (length ownerAddressBytes =? AddressSize)%nat then Err errInvalidAddress
  else
    let toSignBytes := hash [id s; addr (wrapped s)] in
    let s := MkSOC (id s) ownerAddressBytes (Crypto.Sign signer toSignBytes) (wrapped s) in
    c ← Chunk s; Ok (s, c).

Definition FromChunk (sch : chunk) : result socError SOC :=
  let chunkData := sdata sch in
  if (length chunkData <? minChunkSize)%nat then Err errWrongChunkSize
  else
    let id := slice 0 IdSize chunkData in
    let cursor := IdSize in
    let signature := slice cursor (cursor + SignatureSize) chunkData in
    let cursor := (cursor + SignatureSize)%nat in
    ch ← lift_cac (cac.NewWithDataSpan (drop cursor chunkData));
    let toSignBytes := hash [id; addr ch] in
    recoveredOwnerAddress ← lift_crypto (recoverAddress signature toSignBytes);
    if negb (length recoveredOwnerAddress =? AddressSize)%nat then Err errInvalidAddress
    else Ok (MkSOC id recoveredOwnerAddress signature ch).

Definition Valid (ch : chunk) : bool :=
  match FromChunk ch with
  | Err _ => false
  | Ok s => match address s with
            | Err _ => false
            | Ok a => Equal (addr ch) a
            end
  end.

(** *** Lemmas *)

Lemma recoverAddress_Sign k d a : NewEthereumAddress (public k) = Ok a ->
  recoverAddress (Crypto.Sign k d) d = Ok a.
Proof. intros E. unfold recoverAddress. rewrite Recover_Sign. exact E. Qed.

Lemma length_recoverAddress sig d a : recoverAddress sig d = Ok a -> length a = AddressSize.
Proof.
  unfold recoverAddress. destruct (Recover sig d) as [p|e]; [|done].
  apply length_NewEthereumAddress.
Qed.

Lemma FromChunk_Ok sch s : FromChunk sch = Ok s <->
  (minChunkSize <= length (sdata sch))%nat /\ toBytes s = sdata sch /\
  length (id s) = IdSize /\ length (signature s) = SignatureSize /\
  cac.NewWithDataSpan (sdata (wrapped s)) = Ok (wrapped s) /\
  recoverAddress (signature s) (hash [id s; addr (wrapped s)]) = Ok (owner s).
Proof.
  unfold FromChunk. set (data := sdata sch).
  destruct (Nat.ltb_spec (length data) minChunkSize) as [Hlt|Hge]; [split; [done|lia]|].
  unfold minChunkSize, IdSize, SignatureSize in Hge. split.
  - intros E. destruct (cac.NewWithDataSpan _) as [ch|] eqn:Ec; [|done]. cbn [lift_cac mbind result_bind] in E.
    destruct (recoverAddress _ _) as [o|] eqn:Eo; [|done]. cbn [lift_crypto mbind result_bind] in E.
    rewrite (length_recoverAddress _ _ _ Eo) in E. simplify_eq/=.
    pose proof Ec as (_ & _ & Ech)%cac.NewWithDataSpan_Ok. rewrite Ech in Ec |- *. cbn [sdata NewChunk] in *.
    unfold toBytes, slice. cbn [id signature wrapped sdata NewChunk].
    split_and!; [done| |rewrite length_take, length_drop; unfold IdSize; lia|
      rewrite length_take, length_drop; unfold IdSize, SignatureSize; lia|done|by rewrite Ech in Eo].
    change (take 32 data ++ take 65 (drop 32 data) ++ drop 97 data = data).
    replace (drop 97 data) with (drop 65 (drop 32 data)) by by rewrite drop_drop.
    by rewrite !take_drop.
  - intros (_ & Hb & Hi & Hs & Hc & Ho). unfold toBytes in Hb. rewrite <- Hb.
    assert (slice 0 IdSize (id s ++ signature s ++ sdata (wrapped s)) = id s) as ->.
    { unfold slice. by rewrite drop_0, Nat.sub_0_r, take_app_length'. }
    assert (slice IdSize (IdSize + SignatureSize) (id s ++ signature s ++ sdata (wrapped s)) = signature s) as ->.
    { unfold slice. rewrite drop_app_length' by done. rewrite take_app_length' by (rewrite Hs; unfold SignatureSize; lia). done. }
    assert (drop (IdSize + SignatureSize) (id s ++ signature s ++ sdata (wrapped s)) = sdata (wrapped s)) as ->.
    { rewrite app_assoc. rewrite drop_app_length'; [done|]. rewrite length_app. lia. }
    rewrite Hc. cbn [lift_cac mbind result_bind]. rewrite Ho. cbn [lift_crypto mbind result_bind].
    rewrite (length_recoverAddress _ _ _ Ho). cbn [negb Nat.eqb]. by destruct s.
Qed.

Lemma hash_length values : length (hash values) = HashSize.
Proof. apply length_keccak. Qed.

(** A chunk is a valid single-owner chunk exactly when its data parses into
    an identifier, a signature and a valid content-addressed chunk that print
    back to the data, the signature over the identifier and the wrapped address
    yields the owner, and its address is the hash of identifier and owner. *)
Theorem Valid_spec ch : Valid ch = true <->
  exists s, FromChunk ch = Ok s /\ toBytes s = sdata ch /\ cac.Valid (wrapped s) = true /\
    recoverAddress (signature s) (hash [id s; addr (wrapped s)]) = Ok (owner s) /\
    addr ch = CreateAddress (id s) (owner s).
Proof.
  unfold Valid. split.
  - destruct (FromChunk ch) as [s|] eqn:E; [|done].
    pose proof E as (_ & Hb & _ & _ & Hc & Ho)%FromChunk_Ok.
    unfold address. rewrite (length_recoverAddress _ _ _ Ho). cbn [negb Nat.eqb AddressSize].
    unfold Equal. rewrite bool_decide_eq_true. intros Ha. exists s. split_and!; [done..| |done|done].
    apply cac.Valid_iff. eauto.
  - intros (s & -> & _ & _ & Ho & ->). unfold address. rewrite (length_recoverAddress _ _ _ Ho).
    cbn [negb Nat.eqb AddressSize]. unfold Equal. by rewrite bool_decide_eq_true.
Qed.

(** Signing a single-owner chunk with a 32-byte identifier around a valid
    content-addressed chunk succeeds, the chunk it gives is valid, and parsing it
    returns the signed SOC. *)
Theorem Sign_valid i c key :
  length i = IdSize -> cac.NewWithDataSpan (sdata c) = Ok c ->
  exists s ch, Sign (New i c) key = Ok (s, ch) /\ FromChunk ch = Ok s /\ Valid ch = true /\
    id s = i /\ wrapped s = c /\ Chunk s = Ok ch.
Proof.
  intros Hi Hc. destruct (NewEthereumAddress_public key) as [a Ea].
  pose proof (length_NewEthereumAddress _ _ Ea) as Hl.
  pose proof Hc as (Hlen & _ & _)%cac.NewWithDataSpan_Ok.
  set (s := MkSOC i a (Crypto.Sign key (hash [i; addr c])) c).
  assert (Hadr : address s = Ok (CreateAddress i a)) by (unfold address; cbn [owner s]; by rewrite Hl).
  exists s, (NewChunk (CreateAddress i a) (toBytes s)).
  assert (Hf : FromChunk (NewChunk (CreateAddress i a) (toBytes s)) = Ok s).
  { apply FromChunk_Ok. cbn [sdata NewChunk id signature wrapped s].
    assert (Hsig : length (Crypto.Sign key (hash [i; addr c])) = SignatureSize) by apply length_sign.
    split_and!; [|done|done|done|done|by apply recoverAddress_Sign].
    unfold toBytes. cbn [id signature wrapped s]. rewrite !length_app, Hi, Hsig. unfold minChunkSize. lia. }
  split_and!; [|done| |done|done|].
  - unfold Sign, New. cbn [id wrapped]. rewrite Ea. cbn [lift_crypto mbind result_bind]. rewrite Hl.
    cbn [negb Nat.eqb AddressSize]. fold s. unfold Chunk. by rewrite Hadr.
  - unfold Valid. rewrite Hf, Hadr. unfold Equal. by rewrite bool_decide_eq_true.
  - unfold Chunk. by rewrite Hadr.
Qed.
End Soc.

Lemma Sign_valid_witness : exists c s ch,
  @cac.New toy_bmt [1; 2; 3] = Ok c /\
  @Sign toy_ecdsa (New (replicate 32 7) c) 9 = Ok (s, ch) /\
  @Valid toy_bmt toy_ecdsa ch = true.
Proof.
  set (c := NewChunk (@bmt_sum toy_bmt (PutUint64 3) [1; 2; 3]) (PutUint64 3 ++ [1; 2; 3])).
  destruct (@Sign_valid toy_bmt toy_ecdsa (replicate 32 7) c 9) as (s & ch & H1 & _ & H2 & _); [done|by vm_compute|].
  exists c, s, ch. split_and!; [by vm_compute|exact H1|exact H2].
Defined.
End soc.
