(* ===== verification/Encryption.v ===== *)
(** * Chunk encryption (pkg/encryption, pkg/encryption/store)

    Counter-mode encryption by XOR with double-hashed counters, the chunk
    encrypter of the upload pipeline and the decrypting getter of the download
    side.  The hash is a parameter; the bytes of [crypto/rand] are arguments. *)

From Stdlib Require Import ZArith Lia.
From stdpp Require Import base gmap list numbers.
From S2P Require Import Prelude Boson.

Open Scope Z_scope.

Definition KeyLength : nat := 32.
Definition ReferenceSize : nat := 64.

Inductive encError :=
| errLongerThanPadding
| errDifferentThanPadding
| errEndless               (** the segment loop does not advance: empty key *)
| errReferenceLength
| errNotFound
| errSlice.                (** slice bounds out of range *)

Record Encryption := {
  key : bytes;
  padding : Z;
  eindex : Z;
  initCtr : Z;
}.

Definition keyLen (e : Encryption) : nat := length (key e).

Definition New (key : bytes) (padding initCtr : Z) : Encryption :=
  {| key := key; padding := padding; eindex := 0; initCtr := initCtr |}.

Definition Reset (e : Encryption) : Encryption :=
  {| key := key e; padding := padding e; eindex := 0; initCtr := initCtr e |}.

Section Enc.
Context (hash : bytes -> bytes).

Definition segmentKey (e : Encryption) (i : Z) : bytes :=
  let ctrBytes := PutUint32 (u32 (u32 i + initCtr e)) in
  hash (hash (key e ++ ctrBytes)).

(** [out\[j\] = in\[j\] ^ segmentKey\[j\]] on an [out] as long as [in]. *)
Definition Transcrypt (e : Encryption) (i : Z) (inp : bytes) : bytes :=
  zip_with Z.lxor inp (segmentKey e i).

(** The segment loop of [transform]; [None]: it does not end. *)
Fixpoint segments (fuel : nat) (e : Encryption) (i : Z) (inp : bytes) : option (bytes * Z) :=
  match inp with
  | [] => Some ([], i)
  | _ =>
      match fuel with
      | O => None
      | S fuel =>
          let l := (keyLen e `min` length inp)%nat in
          '(out, i') ← segments fuel e (i + 1) (drop l inp);
          Some (Transcrypt e i (take l inp) ++ out, i')
      end
  end.

(** [transform] and the padding of the rest of [out] with [rnd]. *)
Definition transform (e : Encryption) (inp rnd : bytes) : result encError (bytes * Encryption) :=
  match segments (length inp) e (eindex e) inp with
  | None => Err errEndless
  | Some (out, i) =>
      Ok (out ++ rnd, {| key := key e; padding := padding e; eindex := i; initCtr := initCtr e |})
  end.

(** [rnd n]: [n] random bytes. *)
Definition Encrypt (e : Encryption) (data : bytes) (rnd : nat -> bytes) : result encError (bytes * Encryption) :=
  let length := zlen data in
  if 0 <? padding e then
    if padding e <? length then Err errLongerThanPadding
    else transform e data (rnd (Z.to_nat (padding e - length)))
  else transform e data [].

Definition Decrypt (e : Encryption) (data : bytes) : result encError (bytes * Encryption) :=
  if (0 <? padding e) && negb (zlen data =? padding e) then Err errDifferentThanPadding
  else transform e data [].

(** ** Chunks *)

Definition refSize : Z := Z.of_nat (HashSize + KeyLength).

Definition newSpanEncryption (key : bytes) : Encryption := New key 0 (u32 (ChunkSize / refSize)).
Definition newDataEncryption (key : bytes) : Encryption := New key ChunkSize 0.

(** The key is fresh random data, here an argument; the slices of the chunk
    data panic on less than a span. *)
Definition EncryptChunk (chunkData key : bytes) (rnd : nat -> bytes) : result encError (bytes * bytes * bytes) :=
  if zlen chunkData <? 8 then Err errSlice
  else
    '(encryptedSpan, _) ← Encrypt (newSpanEncryption key) (take 8 chunkData) rnd;
    '(encryptedData, _) ← Encrypt (newDataEncryption key) (drop 8 chunkData) rnd;
    Ok (key, encryptedSpan, encryptedData).

Definition decrypt (chunkData key : bytes) : result encError (bytes * bytes) :=
  if zlen chunkData <? 8 then Err errSlice
  else
    '(decryptedSpan, _) ← Decrypt (newSpanEncryption key) (take SpanSize chunkData);
    '(decryptedData, _) ← Decrypt (newDataEncryption key) (drop SpanSize chunkData);
    Ok (decryptedSpan, decryptedData).

(** [for length > boson.ChunkSize { ... }] on [uint64]. *)
Fixpoint payload_length (fuel : nat) (length : Z) : option Z :=
  if ChunkSize <? length then
    match fuel with
    | O => None
    | S fuel => payload_length fuel (u64 (u64 (length + (ChunkSize - 1)) / ChunkSize * refSize))
    end
  else Some length.

Definition decryptChunkData (chunkData encryptionKey : bytes) : result encError bytes :=
  '(decryptedSpan, decryptedData) ← decrypt chunkData encryptionKey;
  match payload_length 64 (Uint64 decryptedSpan) with
  | None => Err errEndless
  | Some length =>
      if zlen decryptedData <? length then Err errSlice
      else Ok (decryptedSpan ++ take (Z.to_nat length) decryptedData)
  end.

(** [decryptingStore.Get] over a getter of chunk data. *)
Definition Get (getter : Address -> result encError bytes) (a : Address) : result encError chunk :=
  if (length a =? HashSize)%nat then d ← getter a; Ok (NewChunk a d)
  else if (length a =? ReferenceSize)%nat then
    let address := take HashSize a in
    ch ← getter address;
    d ← decryptChunkData ch (drop HashSize a);
    Ok (NewChunk address d)
  else Err errReferenceLength.
End Enc.

(** * Lemmas *)

Section Facts.
Context (hash : bytes -> bytes) (Hlen : forall l, length (hash l) = HashSize).

Lemma xor_xor (x k : bytes) : (length x <= length k)%nat ->
  zip_with Z.lxor (zip_with Z.lxor x k) k = x.
Proof.
  revert k. induction x as [|a x IH]; intros [|b k] Hl; simpl in *; [done|done|lia|].
  rewrite Z.lxor_assoc, Z.lxor_nilpotent, Z.lxor_0_r. f_equal. apply IH. lia.
Qed.

(** The key stream of [n] segments from counter [i] on. *)
Fixpoint stream (n : nat) (e : Encryption) (i : Z) : bytes :=
  match n with
  | O => []
  | S n => take (keyLen e) (segmentKey hash e i) ++ stream n e (i + 1)
  end.

Lemma length_stream n e i : (keyLen e <= HashSize)%nat -> length (stream n e i) = (n * keyLen e)%nat.
Proof.
  intros Hk. revert i. induction n as [|n IH]; intros i; [done|]. cbn [stream].
  rewrite length_app, length_take, IH. unfold segmentKey. rewrite Hlen. lia.
Qed.

Lemma zip_with_take {A} (f : Z -> Z -> A) l k : zip_with f l k = zip_with f l (take (length l) k).
Proof. revert k. induction l as [|a l IH]; intros [|b k]; simpl; [done..|]. by rewrite <- IH. Qed.

(** The segment loop is one XOR with the key stream. *)
Lemma segments_stream fuel e i inp n : (0 < keyLen e <= HashSize)%nat ->
  (length inp <= fuel)%nat -> (length inp <= n * keyLen e)%nat ->
  exists i', segments hash fuel e i inp = Some (zip_with Z.lxor inp (stream n e i), i').
Proof.
  intros Hk. revert i inp n. induction fuel as [|fuel IH]; intros i inp n Hf Hn.
  { destruct inp; simpl in Hf; [|lia]. by eexists. }
  destruct inp as [|a inp]; [by eexists|]. cbn [segments].
  set (l := (keyLen e `min` length (a :: inp))%nat) in *.
  destruct n as [|n]; [simpl in Hn; lia|].
  destruct (IH (i + 1) (drop l (a :: inp)) n) as [i' Hs].
  { rewrite length_drop. simpl in *. lia. }
  { rewrite length_drop. simpl in *. lia. }
  rewrite Hs. cbn [mbind option_bind stream]. exists i'. f_equal. f_equal.
  unfold Transcrypt. rewrite <- (take_drop l (a :: inp)) at 3.
  assert (Hkey : length (take (keyLen e) (segmentKey hash e i)) = keyLen e).
  { rewrite length_take. unfold segmentKey. rewrite Hlen. lia. }
  rewrite (zip_with_take _ (take l (a :: inp)) (segmentKey hash e i)).
  assert (Hl : length (take l (a :: inp)) = l) by (rewrite length_take; lia). rewrite Hl.
  destruct (decide (l = keyLen e)) as [El|Hne].
  - rewrite zip_with_app by (rewrite Hl, Hkey; lia). by rewrite El.
  - rewrite drop_ge by lia. cbn [zip_with]. rewrite !app_nil_r.
    rewrite (zip_with_take _ _ (_ ++ _)), Hl, take_app_le, take_take by lia. do 2 f_equal. lia.
Qed.

Lemma transform_stream e inp rnd n : (0 < keyLen e <= HashSize)%nat -> (length inp <= n * keyLen e)%nat ->
  exists e', transform hash e inp rnd = Ok (zip_with Z.lxor inp (stream n e (eindex e)) ++ rnd, e').
Proof.
  intros Hk Hn. unfold transform. destruct (segments_stream (length inp) e (eindex e) inp n) as [i' ->]; [done|lia|done|].
  by eexists.
Qed.

(** Decrypting what was encrypted with the same parameters restores the data,
    followed by whatever the padding decrypts to. *)
Lemma xor_pad (d s s' r : bytes) : (length d <= length s)%nat -> s `prefix_of` s' ->
  take (length d) (zip_with Z.lxor (zip_with Z.lxor d s ++ r) s') = d.
Proof.
  intros Hl [s2 ->]. rewrite zip_with_app_l. rewrite length_zip_with, Nat.min_l by done.
  rewrite take_app_le by (rewrite length_zip_with, length_zip_with, length_take, length_app; lia).
  rewrite take_ge by (rewrite length_zip_with, length_zip_with; lia).
  rewrite take_app_le by done. rewrite (zip_with_take _ d s). apply xor_xor. rewrite length_take. lia.
Qed.

Lemma stream_prefix n m e i : (n <= m)%nat -> stream n e i `prefix_of` stream m e i.
Proof.
  revert m i. induction n as [|n IH]; intros m i Hm; [apply prefix_nil|].
  destruct m as [|m]; [lia|]. cbn [stream]. apply prefix_app, IH. lia.
Qed.

Lemma Encrypt_Ok e data rnd : (0 < keyLen e <= HashSize)%nat ->
  (0 < padding e -> zlen data <= padding e) ->
  exists e', Encrypt hash e data rnd =
    Ok (zip_with Z.lxor data (stream (length data) e (eindex e)) ++
        (if 0 <? padding e then rnd (Z.to_nat (padding e - zlen data)) else []), e').
Proof.
  intros Hk Hp. unfold Encrypt. destruct (Z.ltb_spec 0 (padding e)).
  - rewrite (proj2 (Z.ltb_ge _ _)) by lia. apply transform_stream; [done|nia].
  - apply transform_stream; [done|nia].
Qed.

Lemma Decrypt_Ok e data n : (0 < keyLen e <= HashSize)%nat -> (0 < padding e -> zlen data = padding e) ->
  (length data <= n * keyLen e)%nat ->
  exists e', Decrypt hash e data = Ok (zip_with Z.lxor data (stream n e (eindex e)), e').
Proof.
  intros Hk Hp Hn. unfold Decrypt.
  assert ((0 <? padding e) && negb (zlen data =? padding e) = false) as ->.
  { destruct (Z.ltb_spec 0 (padding e)); [|done]. rewrite (proj2 (Z.eqb_eq _ _)) by lia. done. }
  destruct (transform_stream e data [] n Hk Hn) as [e' ->]. rewrite app_nil_r. by eexists.
Qed.

(** One encryption and the decryption with the same parameters. *)
Lemma Decrypt_Encrypt e data rnd c e1 : (0 < keyLen e <= HashSize)%nat ->
  (forall n, length (rnd n) = n) ->
  Encrypt hash e data rnd = Ok (c, e1) ->
  zlen c = (if 0 <? padding e then padding e else zlen data) /\
  exists p e2, Decrypt hash e c = Ok (p, e2) /\ length p = length c /\ take (length data) p = data.
Proof.
  intros Hk Hr He.
  assert (Hp : 0 < padding e -> zlen data <= padding e).
  { intros Hp. unfold Encrypt in He. rewrite (proj2 (Z.ltb_lt _ _) Hp) in He.
    destruct (Z.ltb_spec (padding e) (zlen data)); [done|lia]. }
  destruct (Encrypt_Ok e data rnd Hk Hp) as [e' E]. rewrite E in He. simplify_eq.
  set (r := if 0 <? padding e then _ else _).
  assert (Hs : (length data <= length (stream (length data) e (eindex e)))%nat) by (rewrite length_stream by lia; nia).
  assert (Hc : zlen (zip_with Z.lxor data (stream (length data) e (eindex e)) ++ r) =
    if 0 <? padding e then padding e else zlen data).
  { rewrite length_app, length_zip_with, Nat.min_l by done. unfold r.
    destruct (Z.ltb_spec 0 (padding e)); [rewrite Hr; lia|simpl; lia]. }
  split; [done|].
  set (c := zip_with Z.lxor data (stream (length data) e (eindex e)) ++ r) in *.
  destruct (Decrypt_Ok e c (length c)) as [e2 E2]; [done| |nia|].
  { intros Hpos. rewrite Hc. by rewrite (proj2 (Z.ltb_lt _ _) Hpos). }
  eexists _, e2. split; [exact E2|].
  assert (length data <= length c)%nat by (unfold c; rewrite length_app, length_zip_with; lia).
  split; [rewrite length_zip_with, length_stream by lia; nia|].
  apply xor_pad; [done|]. apply stream_prefix. done.
Qed.

(** Bytes a chunk of span [s] carries, as [decryptChunkData] computes it. *)
Lemma payload_length_leaf fuel s : 0 <= s <= ChunkSize -> payload_length fuel s = Some s.
Proof. intros Hs. destruct fuel; cbn [payload_length]; by rewrite (proj2 (Z.ltb_ge _ _)) by lia. Qed.

Lemma chunk_roundtrip span payload k rnd : length k = KeyLength -> (forall n, length (rnd n) = n) ->
  length span = SpanSize -> zlen payload <= ChunkSize ->
  payload_length 64 (Uint64 span) = Some (zlen payload) ->
  exists es ed, EncryptChunk hash (span ++ payload) k rnd = Ok (k, es, ed) /\
    length es = SpanSize /\ zlen ed = ChunkSize /\
    decryptChunkData hash (es ++ ed) k = Ok (span ++ payload).
Proof.
  intros Hk Hr Hs Hp Hpl.
  assert (Hks : (0 < keyLen (newSpanEncryption k) <= HashSize)%nat) by (unfold keyLen; simpl; rewrite Hk; unfold KeyLength, HashSize; lia).
  assert (Hkd : (0 < keyLen (newDataEncryption k) <= HashSize)%nat) by (unfold keyLen; simpl; rewrite Hk; unfold KeyLength, HashSize; lia).
  assert (HC : 0 < ChunkSize) by done.
  destruct (Encrypt_Ok (newSpanEncryption k) span rnd Hks) as [e1 E1]; [done|].
  destruct (Encrypt_Ok (newDataEncryption k) payload rnd Hkd) as [e2 E2]; [done|].
  destruct (Decrypt_Encrypt _ _ _ _ _ Hks Hr E1) as (L1 & p1 & d1 & D1 & M1 & T1).
  destruct (Decrypt_Encrypt _ _ _ _ _ Hkd Hr E2) as (L2 & p2 & d2 & D2 & M2 & T2).
  set (es := zip_with Z.lxor span _ ++ _) in *. set (ed := zip_with Z.lxor payload _ ++ _) in *.
  clearbody es ed. change (zlen es = zlen span) in L1. change (zlen ed = ChunkSize) in L2.
  assert (Hes : length es = SpanSize) by lia. exists es, ed.
  assert (p1 = span) as -> by (rewrite <- T1; symmetry; apply take_ge; lia).
  split_and!; [|done|done|].
  - unfold EncryptChunk. rewrite (proj2 (Z.ltb_ge _ _)) by (rewrite length_app, Hs; unfold SpanSize; lia).
    rewrite take_app_length', drop_app_length' by done. rewrite E1. cbn [mbind result_bind]. by rewrite E2.
  - unfold decryptChunkData, decrypt. rewrite (proj2 (Z.ltb_ge _ _)) by (rewrite length_app, Hes; unfold SpanSize; lia).
    rewrite take_app_length', drop_app_length' by done. rewrite D1. cbn [mbind result_bind]. rewrite D2. cbn [mbind result_bind].
    rewrite Hpl, (proj2 (Z.ltb_ge _ _)) by lia. by rewrite Nat2Z.id, T2.
Qed.

(** For keys of 1 to 32 bytes, encryption fails exactly on data longer than
    a positive padding; otherwise the ciphertext has the padded length and
    decrypting it with the same parameters gives the data back, followed by
    padding the caller cuts off. *)
Theorem Encrypt_roundtrip k pad ctr data rnd :
  (0 < length k <= HashSize)%nat -> (forall n, length (rnd n) = n) ->
  if (0 <? pad) && (pad <? zlen data)
  then Encrypt hash (New k pad ctr) data rnd = Err errLongerThanPadding
  else exists c e1 p e2, Encrypt hash (New k pad ctr) data rnd = Ok (c, e1) /\
    zlen c = (if 0 <? pad then pad else zlen data) /\
    Decrypt hash (New k pad ctr) c = Ok (p, e2) /\ length p = length c /\ take (length data) p = data.
Proof.
  intros Hk Hr. destruct ((0 <? pad) && (pad <? zlen data)) eqn:E.
  - apply andb_true_iff in E as [E1 E2]. unfold Encrypt. cbn [padding New]. by rewrite E1, E2.
  - destruct (Encrypt_Ok (New k pad ctr) data rnd) as [e1 He]; [done| |].
    { cbn [padding New]. intros Hp. rewrite (proj2 (Z.ltb_lt _ _) Hp) in E. simpl in E.
      destruct (Z.ltb_spec pad (zlen data)); [done|lia]. }
    destruct (Decrypt_Encrypt (New k pad ctr) _ _ _ _ Hk Hr He) as (Hc & p & e2 & Hd & Hl & Ht).
    eexists _, e1, p, e2. split_and!; [exact He|exact Hc|exact Hd|exact Hl|exact Ht].
Qed.

(** A stored encrypted data chunk, fetched by its 64-byte reference, comes
    back as it was before encryption. *)
Theorem encrypted_chunk_roundtrip payload k rnd getter a :
  length k = KeyLength -> (forall n, length (rnd n) = n) -> zlen payload <= ChunkSize -> length a = HashSize ->
  exists es ed, EncryptChunk hash (PutUint64 (zlen payload) ++ payload) k rnd = Ok (k, es, ed) /\
    (getter a = Ok (es ++ ed) ->
     Get hash getter (a ++ k) = Ok (NewChunk a (PutUint64 (zlen payload) ++ payload))).
Proof.
  intros Hk Hr Hp Ha. assert (ChunkSize < 2 ^ 64) by done.
  destruct (chunk_roundtrip (PutUint64 (zlen payload)) payload k rnd) as (es & ed & He & _ & _ & Hd);
    [done|done|apply length_PutUint64|done| |].
  { rewrite <- (app_nil_r (PutUint64 _)), Uint64_PutUint64 by lia. apply payload_length_leaf. lia. }
  exists es, ed. split; [done|]. intros Hg. unfold Get. rewrite length_app, Ha, Hk. cbn [Nat.eqb plus HashSize KeyLength ReferenceSize].
  rewrite take_app_length', drop_app_length' by done. rewrite Hg. cbn [mbind result_bind]. by rewrite Hd.
Qed.
End Facts.

Definition toy_hash32 (l : bytes) : bytes := replicate 32 (foldl (fun a x => (a * 31 + x) mod 256) 7 l).

Lemma Encrypt_roundtrip_witness :
  exists c e1 p e2, Encrypt toy_hash32 (New [1; 2; 3] 8 5) [10; 20; 30; 40] (fun n => replicate n 9) = Ok (c, e1) /\
    zlen c = 8 /\ Decrypt toy_hash32 (New [1; 2; 3] 8 5) c = Ok (p, e2) /\ length p = length c /\
    take 4 p = [10; 20; 30; 40].
Proof.
  refine (Encrypt_roundtrip toy_hash32 (fun l => eq_refl) [1; 2; 3] 8 5 [10; 20; 30; 40] (fun n => replicate n 9) _ _).
  - split; [simpl; lia|]. simpl. unfold HashSize. lia.
  - intros n. apply length_replicate.
Defined.

Lemma encrypted_chunk_roundtrip_witness : exists es ed,
  EncryptChunk toy_hash32 (PutUint64 3 ++ [1; 2; 3]) (replicate 32 5) (fun n => replicate n 9) = Ok (replicate 32 5, es, ed) /\
  Get toy_hash32 (fun _ => Ok (es ++ ed)) (replicate 32 0 ++ replicate 32 5) =
    Ok (NewChunk (replicate 32 0) (PutUint64 3 ++ [1; 2; 3])).
Proof.
  assert (Hr : forall n : nat, length (replicate n 9) = n) by (intros n; apply length_replicate).
  assert (Hp : zlen [1; 2; 3] <= ChunkSize) by (vm_compute; congruence).
  destruct (encrypted_chunk_roundtrip toy_hash32 (fun l => eq_refl) [1; 2; 3] (replicate 32 5)
    (fun n => replicate n 9) (fun _ => Err errNotFound) (replicate 32 0) eq_refl Hr Hp eq_refl) as (es & ed & He & _).
  destruct (encrypted_chunk_roundtrip toy_hash32 (fun l => eq_refl) [1; 2; 3] (replicate 32 5)
    (fun n => replicate n 9) (fun _ => Ok (es ++ ed)) (replicate 32 0) eq_refl Hr Hp eq_refl) as (es' & ed' & He' & Hg).
  assert (es' = es /\ ed' = ed) as [-> ->] by (rewrite He in He'; by injection He' as -> ->).
  exists es, ed. split; [exact He|]. exact (Hg eq_refl).
Defined.
