(* ===== verification/Pipeline.v ===== *)
(** * The upload pipeline: writers and the chunk feeder (pkg/file/pipeline)

    A pipeline is a chain of writers that pass one [PipeWriteArgs] along and
    may change it.  The feeder cuts the written bytes into chunks whatever the
    sizes of the single writes; behind it come the BMT writer, the store writer
    and, in the encrypting pipeline, the encryption writer. *)

From Stdlib Require Import ZArith Lia ZifyBool.
From stdpp Require Import base gmap list numbers.
From S2P Require Import Prelude Boson Bmt Crypto Chunk Encryption.

Open Scope Z_scope.

Inductive pipeError :=
| errBmtData
| errStoreData
| errEncrypt (e : encError)
| errInconsistentRefs
| errTrieFull
| errPut
| errIndex       (** index or slice bounds out of range *)
| errNil         (** call through a nil [next] *)
| errShortWrite
| errContext
| errRead.

(** [Data] is never nil here; a nil [Ref] is [None]. *)
Record PipeWriteArgs := Args {
  Ref : option bytes;
  Key : bytes;
  Span : bytes;
  Data : bytes;
}.

(** [pipeline.ChainWriter]: the state is that of the writer and all its
    successors; the arguments come back as the callees left them. *)
Record ChainWriter (St : Type) := {
  ChainWrite : St -> PipeWriteArgs -> result pipeError (St * PipeWriteArgs);
  Sum : St -> result pipeError (St * bytes);
}.

Arguments ChainWrite {St}.
Arguments Sum {St}.

(** ** The feeder *)

Module feeder.

Definition span : nat := SpanSize.

Section Feeder.
Context {St : Type} (next : ChainWriter St) (size : nat).

Record chunkFeeder := MkFeeder {
  buffer : bytes;
  bufferIdx : nat;
  wrote : Z;
  nxt : St;
}.

Definition NewChunkFeederWriter (st : St) : chunkFeeder := MkFeeder (replicate size 0) 0 0 st.

(** The [for i := 0; i < len(b);] loop; every round but the last consumes at
    least one byte. *)
Fixpoint write_loop (fuel : nat) (f : chunkFeeder) (d : bytes) (sp i : nat) (w : Z) (b : bytes) :
    option (result pipeError (chunkFeeder * Z)) :=
  if (i <? length b)%nat then
    if (sp + (length b - i) <? size)%nat then
      let n := (size `min` (length b - i))%nat in
      Some (Ok (MkFeeder (copy_at 0 (drop i b) (buffer f)) n (wrote f) (nxt f), w + Z.of_nat n))
    else
      match fuel with
      | O => None
      | S fuel =>
          let n := ((length d - (span + bufferIdx f)) `min` (length b - i))%nat in
          let d := copy_at (span + bufferIdx f) (drop i b) d in
          let i := (i + n)%nat in
          let sp := (sp + n)%nat in
          let d := copy_at 0 (PutUint64 (u64 (Z.of_nat sp))) d in
          let args := Args None [] (take span d) (take (span + sp) d) in
          match ChainWrite next (nxt f) args with
          | Err e => Some (Err e)
          | Ok (st, _) =>
              write_loop fuel (MkFeeder (buffer f) 0 (wrote f) st) d 0 i (w + Z.of_nat sp) b
          end
      end
  else Some (Ok (MkFeeder (buffer f) (bufferIdx f) (wrote f + w) (nxt f), w)).

Definition Write (f : chunkFeeder) (b : bytes) : option (result pipeError (chunkFeeder * Z)) :=
  if (length b + bufferIdx f <? size)%nat then
    let n := ((length (buffer f) - bufferIdx f) `min` length b)%nat in
    Some (Ok (MkFeeder (copy_at (bufferIdx f) b (buffer f)) (bufferIdx f + n) (wrote f) (nxt f), Z.of_nat n))
  else
    let d := replicate (size + span) 0 in
    let sp := bufferIdx f in
    let d := copy_at span (take (bufferIdx f) (buffer f)) d in
    write_loop (length b) f d sp 0 (- Z.of_nat sp) b.

Definition Sum (f : chunkFeeder) : result pipeError (chunkFeeder * bytes) :=
  f ← (if (0 <? bufferIdx f)%nat then
         let d := replicate (bufferIdx f + span) 0 in
         let d := copy_at span (take (bufferIdx f) (buffer f)) d in
         let d := copy_at 0 (PutUint64 (u64 (Z.of_nat (bufferIdx f)))) d in
         '(st, _) ← ChainWrite next (nxt f) (Args None [] (take span d) d);
         Ok (MkFeeder (buffer f) (bufferIdx f) (wrote f + zlen d) st)
       else Ok f);
  f ← (if wrote f =? 0 then
         let d := replicate span 0 in
         '(st, _) ← ChainWrite next (nxt f) (Args None [] d d);
         Ok (MkFeeder (buffer f) (bufferIdx f) (wrote f + zlen d) st)
       else Ok f);
  '(st, r) ← Pipeline.Sum next (nxt f);
  Ok (MkFeeder (buffer f) (bufferIdx f) (wrote f) st, r).

(** A sequence of writes and the final [Sum]. *)
Fixpoint feed (f : chunkFeeder) (ws : list bytes) : option (result pipeError (St * bytes)) :=
  match ws with
  | [] => Some ('(f, r) ← Sum f; Ok (nxt f, r))
  | b :: ws =>
      r ← Write f b;
      match r with
      | Ok (f, _) => feed f ws
      | Err e => Some (Err e)
      end
  end.

(** ** Specification: cut into blocks of [size] *)

Fixpoint split (fuel : nat) (data : bytes) : list bytes * bytes :=
  match fuel with
  | O => ([], data)
  | S fuel =>
      if (length data <? size)%nat then ([], data)
      else let '(cs, r) := split fuel (drop size data) in (take size data :: cs, r)
  end.

(** The chunks of a file: an empty file is one empty chunk. *)
Definition leaves (data : bytes) : list bytes :=
  let '(cs, r) := split (length data) data in
  match data with
  | [] => [[]]
  | _ => cs ++ match r with [] => [] | _ => [r] end
  end.

Definition leaf_args (c : bytes) : PipeWriteArgs :=
  Args None [] (PutUint64 (zlen c)) (PutUint64 (zlen c) ++ c).

Fixpoint emit (st : St) (cs : list bytes) : result pipeError St :=
  match cs with
  | [] => Ok st
  | c :: cs => '(st, _) ← ChainWrite next st (leaf_args c); emit st cs
  end.

(** *** Lemmas on cutting *)

Context (Hsize : (0 < size)%nat) (Hsmall : Z.of_nat size < 2 ^ 64).

Lemma split_fuel n m data : (length data <= n)%nat -> (length data <= m)%nat -> split n data = split m data.
Proof.
  revert m data. induction n as [|n IH]; intros [|m] data Hn Hm; [done|..].
  - destruct data; simpl in *; [|lia]. by destruct (0 <? size)%nat eqn:E; [|lia].
  - destruct data; simpl in *; [|lia]. by destruct (0 <? size)%nat eqn:E; [|lia].
  - cbn [split]. destruct (length data <? size)%nat eqn:E; [done|].
    rewrite (IH m); [done|rewrite length_drop; lia|rewrite length_drop; lia].
Qed.

Definition cut (data : bytes) : list bytes * bytes := split (length data) data.

Lemma cut_small data : (length data < size)%nat -> cut data = ([], data).
Proof. intros Hd. unfold cut. destruct (length data) eqn:E; cbn [split]; [done|]. by rewrite E, (proj2 (Nat.ltb_lt _ _)). Qed.

Lemma cut_step data : (size <= length data)%nat ->
  cut data = (take size data :: (cut (drop size data)).1, (cut (drop size data)).2).
Proof.
  intros Hd. unfold cut. destruct (length data) eqn:E; [lia|]. cbn [split]. rewrite E.
  rewrite (proj2 (Nat.ltb_ge _ _)) by lia.
  rewrite (split_fuel n (length (drop size data))) by (rewrite ?length_drop; lia). by destruct (split _ _).
Qed.

Lemma cut_rest data : (length (cut data).2 < size)%nat.
Proof.
  remember (length data) as n eqn:E. revert data E. induction n as [n IH] using lt_wf_ind. intros data ->.
  destruct (decide (length data < size)%nat); [by rewrite cut_small|].
  rewrite cut_step by lia. cbn [snd]. eapply IH; [|done]. rewrite length_drop. lia.
Qed.

Lemma cut_concat data : mjoin (cut data).1 ++ (cut data).2 = data.
Proof.
  remember (length data) as n eqn:E. revert data E. induction n as [n IH] using lt_wf_ind. intros data ->.
  destruct (decide (length data < size)%nat); [by rewrite cut_small|].
  rewrite cut_step by lia. cbn [fst snd]. change (mjoin (?a :: ?l)) with (a ++ mjoin l). rewrite <- app_assoc.
  erewrite IH; [apply take_drop| |done]. rewrite length_drop. lia.
Qed.

Lemma cut_full data : Forall (fun c => length c = size) (cut data).1.
Proof.
  remember (length data) as n eqn:E. revert data E. induction n as [n IH] using lt_wf_ind. intros data ->.
  destruct (decide (length data < size)%nat); [by rewrite cut_small|].
  rewrite cut_step by lia. constructor; [rewrite length_take; lia|].
  eapply IH; [|done]. rewrite length_drop. lia.
Qed.

(** Cutting can be resumed from the rest. *)
Lemma cut_app a b : cut (a ++ b) = ((cut a).1 ++ (cut ((cut a).2 ++ b)).1, (cut ((cut a).2 ++ b)).2).
Proof.
  remember (length a) as n eqn:E. revert a E. induction n as [n IH] using lt_wf_ind. intros a ->.
  destruct (decide (length a < size)%nat); [rewrite (cut_small a) by done; cbn [fst snd app]; by destruct (cut (a ++ b))|].
  rewrite (cut_step a) by lia. cbn [fst snd]. rewrite cut_step by (rewrite length_app; lia).
  rewrite take_app_le, drop_app_le by lia. erewrite (IH _ _ (drop size a)) by done. done.
  Unshelve. rewrite length_drop. lia.
Qed.

(** *** One round of the loop *)

Lemma fill_chunk (d q rest : bytes) : length d = (size + span)%nat -> take (length q) (drop span d) = q ->
  (length q < size)%nat -> (size <= length q + length rest)%nat ->
  copy_at 0 (PutUint64 (u64 (Z.of_nat size))) (copy_at (span + length q) rest d) =
    PutUint64 (Z.of_nat size) ++ q ++ take (size - length q) rest.
Proof.
  intros Hd Hq Hlt Hle. rewrite u64_small by lia.
  assert (E : copy_at (span + length q) rest d = take span d ++ q ++ take (size - length q) rest).
  { unfold copy_at. rewrite Hd, (drop_ge d) by lia. rewrite app_nil_r.
    rewrite <- (take_drop span d) at 1. rewrite take_app_ge by (rewrite length_take; lia).
    rewrite length_take, Nat.min_l by lia. replace (span + length q - span)%nat with (length q) by lia.
    rewrite Hq, <- app_assoc. do 3 f_equal. lia. }
  rewrite E. unfold copy_at. rewrite take_0, length_PutUint64. cbn [app].
  assert (length (take span d) = span) by (rewrite length_take; lia).
  rewrite take_ge by (rewrite length_app, length_PutUint64; unfold span, SpanSize in *; lia).
  f_equal. rewrite drop_app_length'; [done|]. unfold span, SpanSize in *. lia.
Qed.

Lemma loop_round fuel f d i w b q : let rest := drop i b in
  length d = (size + span)%nat -> take (length q) (drop span d) = q ->
  bufferIdx f = length q -> (length q < size)%nat -> (size <= length q + length rest)%nat -> (i < length b)%nat ->
  exists d', length d' = (size + span)%nat /\
  write_loop (S fuel) f d (length q) i w b =
    match ChainWrite next (nxt f) (leaf_args (q ++ take (size - length q) rest)) with
    | Err e => Some (Err e)
    | Ok (st, _) => write_loop fuel (MkFeeder (buffer f) 0 (wrote f) st) d' 0
        (i + (size - length q)) (w + Z.of_nat size) b
    end.
Proof.
  intros rest Hd Hq Hb Hlt Hle Hi.
  assert (Hr : length rest = (length b - i)%nat) by (unfold rest; apply length_drop).
  exists (PutUint64 (Z.of_nat size) ++ q ++ take (size - length q) rest). split.
  { rewrite !length_app, length_PutUint64, length_take. unfold span, SpanSize. lia. }
  cbn [write_loop]. rewrite (proj2 (Nat.ltb_lt _ _) Hi), (proj2 (Nat.ltb_ge _ _)) by lia.
  rewrite Hd, Hb. fold rest.
  replace ((size + span - (span + length q)) `min` (length b - i))%nat with (size - length q)%nat by lia.
  replace (length q + (size - length q))%nat with size by lia.
  rewrite fill_chunk by done. unfold leaf_args.
  assert (Hl : zlen (q ++ take (size - length q) rest) = Z.of_nat size) by (rewrite length_app, length_take; lia).
  rewrite Hl. rewrite (take_app_length' (PutUint64 _)) by (by rewrite length_PutUint64).
  rewrite (take_ge (PutUint64 _ ++ _)) by (rewrite length_app, length_PutUint64; unfold span, SpanSize; lia). done.
Qed.

(** The state after [b], when the chunks went through. *)
Definition after (f : chunkFeeder) (r : bytes) (w : Z) (st : St) : chunkFeeder :=
  match r with
  | [] => MkFeeder (buffer f) 0 (wrote f + w) st
  | _ => MkFeeder (copy_at 0 r (buffer f)) (length r) (wrote f) st
  end.

Lemma loop_spec fuel f d i w b : (i <= length b)%nat -> (length b - i <= fuel)%nat ->
  length d = (size + span)%nat -> bufferIdx f = 0%nat ->
  write_loop fuel f d 0 i w b =
    Some (st ← emit (nxt f) (cut (drop i b)).1;
          Ok (after f (cut (drop i b)).2 (w + Z.of_nat (length b - i)) st, w + Z.of_nat (length b - i))).
Proof.
  revert f d i w. induction fuel as [|fuel IH]; intros f d i w Hi Hf Hd Hb.
  { assert (i = length b) as -> by lia. cbn [write_loop]. rewrite Nat.ltb_irrefl, Nat.sub_diag, drop_all.
    rewrite cut_small by (simpl; lia). cbn. rewrite Hb, Z.add_0_r. done. }
  destruct (decide (i = length b)) as [->|Hne].
  { cbn [write_loop]. rewrite Nat.ltb_irrefl, Nat.sub_diag, drop_all.
    rewrite cut_small by (simpl; lia). cbn. rewrite Hb, Z.add_0_r. done. }
  assert (Hr : length (drop i b) = (length b - i)%nat) by apply length_drop.
  destruct (decide (length (drop i b) < size)%nat) as [Hs|Hs].
  - rewrite cut_small by done. cbn [write_loop fst snd emit mbind result_bind].
    rewrite (proj2 (Nat.ltb_lt i _)), (proj2 (Nat.ltb_lt _ size)) by lia.
    rewrite Nat.min_r by lia. unfold after. rewrite <- Hr.
    destruct (drop i b) eqn:E; [simpl in Hr; lia|done].
  - destruct (loop_round fuel f d i w b []) as (d' & Hd' & Eq); [done|done|done|simpl; lia|simpl; lia|lia|].
    cbn [length] in Eq. rewrite Eq. rewrite cut_step by lia. cbn [length app fst snd emit].
    rewrite Nat.sub_0_r.
    destruct (ChainWrite next (nxt f) (leaf_args (take size (drop i b)))) as [[st a]|e]; [|done].
    cbn [mbind result_bind].
    rewrite (IH (MkFeeder (buffer f) 0 (wrote f) st)) by (simpl; lia || done). cbn [nxt].
    rewrite drop_drop.
    replace (w + Z.of_nat size + Z.of_nat (length b - (i + size))) with (w + Z.of_nat (length b - i)) by lia.
    done.
Qed.

Lemma emit_app st a b : emit st (a ++ b) = st' ← emit st a; emit st' b.
Proof.
  revert st. induction a as [|c a IH]; intros st; [done|]. cbn [app emit].
  destruct (ChainWrite next st (leaf_args c)) as [[st' x]|e]; [|done]. cbn [mbind result_bind]. apply IH.
Qed.

(** Feeder [f] holds the bytes [q] back. *)
Record finv (f : chunkFeeder) (q : bytes) : Prop := {
  fi_len : length (buffer f) = size;
  fi_idx : bufferIdx f = length q;
  fi_small : (length q < size)%nat;
  fi_data : take (length q) (buffer f) = q;
}.

Lemma finv_after f q r w st : finv f q -> (length r < size)%nat -> finv (after f r w st) r.
Proof.
  intros [F1 F2 F3 F4] Hr. unfold after. destruct r as [|x r].
  - by split.
  - split; cbn [buffer bufferIdx].
    + by rewrite length_copy_at.
    + done.
    + done.
    + unfold copy_at. rewrite take_0. cbn [app]. rewrite take_app_length'; rewrite ?take_ge by lia; done.
Qed.

Lemma Write_spec f q b : finv f q ->
  let '(cs, r) := cut (q ++ b) in
  Write f b = Some (st ← emit (nxt f) cs;
    Ok (if (length b + length q <? size)%nat
        then MkFeeder (copy_at (length q) b (buffer f)) (length q + length b) (wrote f) st
        else after f r (zlen b) st, zlen b)).
Proof.
  intros [F1 F2 F3 F4]. destruct (cut (q ++ b)) as [cs r] eqn:Ec.
  unfold Write. rewrite F2. destruct (Nat.ltb_spec (length b + length q) size) as [Hlt|Hge].
  { rewrite cut_small in Ec by (rewrite length_app; lia). injection Ec as <- <-. cbn [emit mbind result_bind].
    rewrite F1. by replace ((size - length q) `min` length b)%nat with (length b) by lia. }
  assert (Hd : length (copy_at span (take (length q) (buffer f)) (replicate (size + span) 0)) = (size + span)%nat)
    by by rewrite length_copy_at, length_replicate.
  destruct (length b) as [|fuel] eqn:Eb; [lia|].
  destruct (loop_round fuel f (copy_at span (take (length q) (buffer f)) (replicate (size + span) 0)) 0
    (- Z.of_nat (length q)) b q) as (d' & Hd' & ->); [done| |done|done|rewrite drop_0; lia|lia|].
  { rewrite F4. unfold copy_at. rewrite drop_app_length' by (rewrite length_take, length_replicate; lia).
    rewrite length_replicate, take_app_le by (rewrite length_take; lia). rewrite (take_ge q) by lia. by rewrite take_ge. }
  rewrite drop_0, Nat.add_0_l. rewrite cut_step in Ec by (rewrite length_app; lia). injection Ec as <- <-.
  rewrite (take_app_ge q), (drop_app_ge q) by lia. cbn [emit].
  destruct (ChainWrite next (nxt f) (leaf_args (q ++ take (size - length q) b))) as [[st a]|e]; [|done].
  cbn [mbind result_bind]. rewrite loop_spec by (cbn [bufferIdx]; lia || done). cbn [nxt].
  replace (- Z.of_nat (length q) + Z.of_nat size + Z.of_nat (length b - (size - length q))) with (zlen b) by lia.
  unfold after. cbn [buffer wrote]. rewrite Eb. done.
Qed.

Lemma finv_Write f q b st : finv f q ->
  finv (if (length b + length q <? size)%nat
        then MkFeeder (copy_at (length q) b (buffer f)) (length q + length b) (wrote f) st
        else after f (cut (q ++ b)).2 (zlen b) st) (cut (q ++ b)).2.
Proof.
  intros HF. destruct (Nat.ltb_spec (length b + length q) size) as [Hlt|Hge].
  - destruct HF as [F1 F2 F3 F4]. rewrite cut_small by (rewrite length_app; lia). cbn [snd].
    split; cbn [buffer bufferIdx]; rewrite ?length_copy_at, ?length_app; try done; [lia|].
    unfold copy_at. rewrite F4, app_assoc, take_app_length'; [|rewrite !length_app, length_take; lia].
    by rewrite take_ge by lia.
  - eapply finv_after; [done|apply cut_rest].
Qed.

(** What [Sum] still has to emit. *)
Definition last_chunks (r : bytes) (empty : bool) : list bytes :=
  match r with [] => if empty then [[]] else [] | _ => [r] end.

Lemma Sum_spec f q : finv f q -> 0 <= wrote f ->
  ('(f, r) ← Sum f; Ok (nxt f, r)) = st ← emit (nxt f) (last_chunks q (wrote f =? 0)); Pipeline.Sum next st.
Proof.
  intros [F1 F2 F3 F4] Hw. unfold Sum. rewrite F2. destruct q as [|x q].
  - cbn [length Nat.ltb Nat.leb mbind result_bind last_chunks]. destruct (wrote f =? 0).
    2: { cbn [emit mbind result_bind]. by destruct (Pipeline.Sum next (nxt f)) as [[st r]|e]. }
    cbn [emit]. change (leaf_args []) with (Args None [] (replicate span 0) (replicate span 0)).
    destruct (ChainWrite next (nxt f) (Args None [] (replicate span 0) (replicate span 0))) as [[st a]|e]; [|done].
    cbn [mbind result_bind nxt]. by destruct (Pipeline.Sum next st) as [[st' r]|e].
  - assert (Hlc : last_chunks (x :: q) (wrote f =? 0) = [x :: q]) by done.
    assert (Hpos : (0 < length (x :: q))%nat) by (simpl; lia). revert Hlc Hpos F2 F3 F4.
    generalize (x :: q) as q'. intros q' -> Hpos F2 F3 F4. cbn [emit].
    rewrite (proj2 (Nat.ltb_lt 0 (length q'))) by done.
    assert (E : copy_at 0 (PutUint64 (u64 (zlen q'))) (copy_at span (take (length q') (buffer f)) (replicate (length q' + span) 0)) =
      PutUint64 (zlen q') ++ q').
    { rewrite F4, u64_small by lia. unfold copy_at at 2. rewrite length_replicate, drop_ge by (rewrite length_replicate; lia).
      rewrite (take_ge q') by lia. rewrite app_nil_r. unfold copy_at. rewrite take_0, length_PutUint64. cbn [app].
      rewrite take_ge by (rewrite length_app, length_take, length_replicate, length_PutUint64; unfold span, SpanSize; lia).
      f_equal. rewrite drop_app_length'; [done|]. rewrite length_take, length_replicate. unfold span, SpanSize. lia. }
    rewrite E. change (leaf_args q') with (Args None [] (PutUint64 (zlen q')) (PutUint64 (zlen q') ++ q')).
    rewrite (take_app_length' (PutUint64 _)) by (by rewrite length_PutUint64).
    destruct (ChainWrite next (nxt f) (Args None [] (PutUint64 (zlen q')) (PutUint64 (zlen q') ++ q')))
      as [[st a]|e]; [|done]. cbn [mbind result_bind wrote].
    rewrite (proj2 (Z.eqb_neq _ _)) by (rewrite length_app, length_PutUint64; lia).
    cbn [mbind result_bind nxt]. by destruct (Pipeline.Sum next st) as [[st' r]|e].
Qed.

(** [wrote] tells an empty file from one that ended on a chunk boundary. *)
Definition winv (f : chunkFeeder) (total : bytes) : Prop :=
  0 <= wrote f /\ finv f (cut total).2 /\ ((cut total).2 = [] -> (wrote f = 0 <-> total = [])).

Lemma winv_Write f total b st : winv f total ->
  winv (if (length b + length (cut total).2 <? size)%nat
        then MkFeeder (copy_at (length (cut total).2) b (buffer f)) (length (cut total).2 + length b) (wrote f) st
        else after f (cut ((cut total).2 ++ b)).2 (zlen b) st) (total ++ b).
Proof.
  intros (Hw & HF & Hz). assert (Er : (cut (total ++ b)).2 = (cut ((cut total).2 ++ b)).2) by by rewrite cut_app.
  unfold winv. rewrite Er. split_and!.
  - destruct (_ <? size)%nat; [done|]. unfold after. destruct (cut ((cut total).2 ++ b)).2; cbn [wrote]; lia.
  - by apply finv_Write.
  - intros E0. destruct (Nat.ltb_spec (length b + length (cut total).2) size) as [Hlt|Hge]; cbn [wrote].
    + rewrite cut_small in E0 by (rewrite length_app; lia). cbn [snd] in E0. apply app_nil in E0 as [E1 ->].
      rewrite app_nil_r. auto.
    + rewrite E0. unfold after. cbn [wrote]. pose proof (fi_small _ _ HF).
      split; [lia|]. intros E. apply (f_equal length) in E. rewrite length_app in E. simpl in E. lia.
Qed.

Lemma feed_spec ws f total : winv f total ->
  feed f ws = Some (
    st ← emit (nxt f) ((cut ((cut total).2 ++ mjoin ws)).1 ++
        last_chunks (cut (total ++ mjoin ws)).2 (bool_decide (total ++ mjoin ws = [])));
    Pipeline.Sum next st).
Proof.
  revert f total. induction ws as [|b ws IH]; intros f total HW.
  - cbn [feed]. change (mjoin []) with ([] : bytes). rewrite !app_nil_r.
    destruct HW as (Hw & HF & Hz). rewrite (Sum_spec _ _ HF Hw). pose proof (cut_rest total).
    rewrite (cut_small (cut total).2) by done. cbn [fst app]. do 3 f_equal.
    unfold last_chunks. destruct (cut total).2 eqn:E; [|done].
    replace (wrote f =? 0) with (bool_decide (total = [])); [done|].
    case_bool_decide as Ht; symmetry; [apply Z.eqb_eq|apply Z.eqb_neq]; naive_solver.
  - cbn [feed]. pose proof HW as (_ & HF & _). pose proof (Write_spec _ _ b HF) as Hs.
    destruct (cut ((cut total).2 ++ b)) as [cs r] eqn:Ec. rewrite Hs. cbn [mbind option_bind].
    change (mjoin (b :: ws)) with (b ++ mjoin ws).
    rewrite !app_assoc, (cut_app ((cut total).2 ++ b)), Ec. cbn [fst snd].
    rewrite <- app_assoc, emit_app.
    destruct (emit (nxt f) cs) as [st|e]; cbn [mbind result_bind]; [|done].
    pose proof (winv_Write f total b st HW) as HW'. rewrite Ec in HW'. cbn [snd] in HW'.
    rewrite (IH _ _ HW'). rewrite (cut_app total b), Ec. cbn [snd].
    destruct (length b + length (cut total).2 <? size)%nat; [done|]. unfold after. by destruct r.
Qed.

Lemma winv_New st : winv (NewChunkFeederWriter st) [].
Proof.
  unfold winv. rewrite (cut_small []) by done. split; [done|]. split; [|done].
  split; cbn [buffer bufferIdx NewChunkFeederWriter]; [apply length_replicate|done|done|done].
Qed.

Lemma feed_New ws st :
  feed (NewChunkFeederWriter st) ws =
    Some (st' ← emit st (leaves (mjoin ws)); Pipeline.Sum next st').
Proof.
  rewrite (feed_spec ws _ []).
  - cbn [nxt NewChunkFeederWriter]. rewrite (cut_small []) by done. cbn [snd app].
    unfold leaves. fold (cut (mjoin ws)). destruct (cut (mjoin ws)) as [cs r] eqn:Ec. cbn [fst snd].
    destruct (mjoin ws) as [|x l] eqn:E; [|done].
    rewrite cut_small in Ec by done. by injection Ec as <- <-.
  - apply winv_New.
Qed.

(** The chunks are the file, all but the last of full size. *)
Lemma leaves_spec data : exists cs c, leaves data = cs ++ [c] /\ mjoin (cs ++ [c]) = data /\
  Forall (fun x => length x = size) cs /\ (length c <= size)%nat /\ (data <> [] -> c <> []).
Proof.
  unfold leaves. fold (cut data). pose proof (cut_concat data) as Hj. pose proof (cut_full data) as Hf.
  pose proof (cut_rest data) as Hr. destruct (cut data) as [cs r] eqn:Ec. cbn [fst snd] in *.
  destruct data as [|x data]; [exists [], []; split_and!; [done|done|done|simpl; lia|done]|].
  destruct r as [|y r].
  - rewrite !app_nil_r in Hj |- *. destruct cs as [|c cs _] using rev_ind; [done|].
    exists cs, c. apply Forall_app in Hf as [Hf Hc]. apply Forall_inv in Hc. cbn beta in Hc.
    split_and!; [done|done|done|lia|]. intros _ ->. simpl in Hc. lia.
  - exists cs, (y :: r). rewrite join_app. change (mjoin [y :: r]) with ((y :: r) ++ []).
    rewrite app_nil_r. split_and!; [done|done|done|lia|done].
Qed.

(** However the data is split over calls of [Write], the feeder passes on
    the data cut into chunks with their lengths as spans, and ends with the
    [Sum] of the next writer; an error of the next writer stops it.  The chunks
    have [size] bytes, the last one at most as many; an empty file is one empty
    chunk. *)
Theorem feed_correct ws st :
  feed (NewChunkFeederWriter st) ws =
    Some (st' ← emit st (leaves (mjoin ws)); Pipeline.Sum next st') /\
  exists cs c, leaves (mjoin ws) = cs ++ [c] /\ mjoin (cs ++ [c]) = mjoin ws /\
    Forall (fun x => length x = size) cs /\ (length c <= size)%nat /\ (mjoin ws <> [] -> c <> []).
Proof. split; [apply feed_New|apply leaves_spec]. Qed.
End Feeder.

(** A writer that collects what it is given, for the examples. *)
Definition collect : ChainWriter (list bytes) :=
  {| ChainWrite st a := Ok (st ++ [Data a], a); Pipeline.Sum st := Ok (st, mjoin st) |}.

Lemma feed_correct_witness :
  feed collect 3 (NewChunkFeederWriter 3 []) [[1; 2]; [3; 4; 5; 6]; [7]] =
    Some (Ok ([PutUint64 3 ++ [1; 2; 3]; PutUint64 3 ++ [4; 5; 6]; PutUint64 1 ++ [7]],
      PutUint64 3 ++ [1; 2; 3] ++ PutUint64 3 ++ [4; 5; 6] ++ PutUint64 1 ++ [7])).
Proof.
  rewrite (proj1 (feed_correct collect 3 ltac:(lia) ltac:(lia) [[1; 2]; [3; 4; 5; 6]; [7]] [])). reflexivity.
Defined.
End feeder.
