(* ===== verification/HashTrie.v ===== *)
(** * The hash trie writer (pkg/file/pipeline/hashtrie)

    References of finished chunks are collected per level; a level that holds
    [branching] references is wrapped into an intermediate chunk whose reference
    goes one level up.  All levels live in one buffer, delimited by cursors:
    the data of level [i] lies between the cursors [i + 1] and [i].  [Sum] wraps
    what is left, carrying a single reference up without a chunk of its own.

    The theorems: the cursor arithmetic implements separate levels, and the
    chunks that are written form a tree over the data in which all children but
    the last of a node are complete. *)

From Stdlib Require Import ZArith Lia ZifyBool.
From stdpp Require Import base gmap list numbers functions.
From S2P Require Import Prelude Boson Pipeline.

Open Scope Z_scope.

Module hashtrie.

Definition maxLevel : nat := 8.

Record hashTrieWriter := MkTrie {
  cursors : list nat;
  buffer : bytes;
  full : bool;
}.

Section HashTrie.
(** [short]: a call of [ChainWrite] on a fresh short pipeline. *)
Context {St : Type} (branching refSize bufferSize : nat).
Context (short : St -> PipeWriteArgs -> result pipeError (St * PipeWriteArgs)).

Definition NewHashTrieWriter : hashTrieWriter :=
  MkTrie (replicate 9 0%nat) (replicate bufferSize 0) false.

Definition oneRef : nat := refSize + SpanSize.
Definition fullChunk : nat := oneRef * branching.

Definition cursor (h : hashTrieWriter) (level : nat) : nat := default 0%nat (cursors h !! level).

Definition set_cursor (h : hashTrieWriter) (level c : nat) : hashTrieWriter :=
  MkTrie (<[level := c]> (cursors h)) (buffer h) (full h).

Definition levelSize (h : hashTrieWriter) (level : nat) : nat :=
  if (level =? 8)%nat then cursor h level else (cursor h level - cursor h (level + 1))%nat.

(** [copy(h.buffer\[c : c+len(b)\], b)] with the cursor moved behind it. *)
Definition append_level (h : hashTrieWriter) (level : nat) (b : bytes) : result pipeError hashTrieWriter :=
  let c := cursor h level in
  if (length (buffer h) <? c + length b)%nat then Err errIndex
  else Ok (MkTrie (<[level := (c + length b)%nat]> (cursors h)) (copy_at c b (buffer h)) (full h)).

(** The loop of [wrapFullLevel] over the references of a level. *)
Fixpoint gather (fuel : nat) (data : bytes) (sp : Z) (hashes : bytes) : result pipeError (Z * bytes) :=
  match data with
  | [] => Ok (sp, hashes)
  | _ =>
      match fuel with
      | O => Err errIndex
      | S fuel =>
          if (length data <? refSize + 8)%nat then Err errIndex
          else gather fuel (drop (refSize + 8) data) (u64 (sp + Uint64 (take 8 data)))
                 (hashes ++ slice 8 (refSize + 8) data)
      end
  end.

(** [wrapFullLevel], with the call of [writeToLevel] as an argument. *)
Definition wrap_with
    (write : St -> hashTrieWriter -> nat -> bytes -> bytes -> bytes -> result pipeError (St * hashTrieWriter))
    (st : St) (h : hashTrieWriter) (level : nat) : result pipeError (St * hashTrieWriter) :=
  if (level =? 8)%nat then Err errIndex
  else
    let data := slice (cursor h (level + 1)) (cursor h level) (buffer h) in
    '(sp, hashes) ← gather (length data) data 0 [];
    let spb := PutUint64 sp in
    '(st, args) ← short st (Args None [] spb (spb ++ hashes));
    '(st, h) ← write st h (level + 1)%nat (Span args) (default [] (Ref args)) (Key args);
    let h := set_cursor h level (cursor h (level + 1)) in
    Ok (st, if (level + 1 =? 8)%nat then MkTrie (cursors h) (buffer h) true else h).

(** [fuel] bounds the level, whose index runs out of the nine cursors first. *)
Fixpoint writeToLevel (fuel : nat) (st : St) (h : hashTrieWriter) (level : nat) (span ref key : bytes) :
    result pipeError (St * hashTrieWriter) :=
  match fuel with
  | O => Err errIndex
  | S fuel =>
      h ← append_level h level span;
      h ← append_level h level ref;
      h ← append_level h level key;
      if (levelSize h level =? fullChunk)%nat then wrap_with (writeToLevel fuel) st h level
      else Ok (st, h)
  end.

Definition wrapFullLevel (st : St) (h : hashTrieWriter) (level : nat) : result pipeError (St * hashTrieWriter) :=
  wrap_with (writeToLevel (8 - level)) st h level.

Definition ChainWrite (st : St) (h : hashTrieWriter) (p : PipeWriteArgs) : result pipeError (St * hashTrieWriter) :=
  let l := (length (Span p) + length (default [] (Ref p)) + length (Key p))%nat in
  if negb (l mod oneRef =? 0)%nat then Err errInconsistentRefs
  else if full h then Err errTrieFull
  else writeToLevel 8 st h 1 (Span p) (default [] (Ref p)) (Key p).

(** [for i := 1; i < maxLevel; i++]: [n] rounds from level [i] on. *)
Fixpoint sum_loop (n : nat) (st : St) (h : hashTrieWriter) (i : nat) : result pipeError (St * hashTrieWriter) :=
  match n with
  | O => Ok (st, h)
  | S n =>
      let l := levelSize h i in
      if negb (l mod oneRef =? 0)%nat then Err errInconsistentRefs
      else if (l =? 0)%nat then sum_loop n st h (i + 1)
      else if (l =? fullChunk)%nat then
        '(st, h) ← wrapFullLevel st h i; sum_loop n st h (i + 1)
      else if (l =? oneRef)%nat then
        sum_loop n st (set_cursor h (i + 1) (cursor h i)) (i + 1)
      else
        '(st, h) ← wrapFullLevel st h i; sum_loop n st h (i + 1)
  end.

Definition Sum (st : St) (h : hashTrieWriter) : result pipeError (St * hashTrieWriter * bytes) :=
  '(st, h) ← sum_loop (maxLevel - 1) st h 1;
  if negb (levelSize h 8 =? oneRef)%nat then Err errInconsistentRefs
  else Ok (st, h, drop 8 (take (cursor h 8) (buffer h))).

(** The writer at the end of the pipeline, with the state of the short one. *)
Definition writer : ChainWriter (St * hashTrieWriter) :=
  {| Pipeline.ChainWrite '(st, h) p := '(st, h) ← ChainWrite st h p; Ok (st, h, p);
     Pipeline.Sum '(st, h) := Sum st h |}.

(** ** Separate levels

    An entry is a span and a reference; a level is a list of entries. *)

Abbreviation entry := (Z * bytes)%type.

Definition enc_entry (e : entry) : bytes := PutUint64 e.1 ++ e.2.
Definition enc (es : list entry) : bytes := es ≫= enc_entry.

Definition entry_ok (e : entry) : Prop := 0 <= e.1 < 2 ^ 64 /\ length e.2 = refSize.

Definition span_sum (es : list entry) : Z := foldl (fun s e => u64 (s + e.1)) 0 es.

(** The intermediate chunk over [es] and its entry. *)
Definition node_chunk (st : St) (es : list entry) : result pipeError (St * entry) :=
  let sp := span_sum es in
  '(st, args) ← short st (Args None [] (PutUint64 sp) (PutUint64 sp ++ (es ≫= snd)));
  Ok (st, (sp, default [] (Ref args) ++ Key args)).

Definition wrap_lv (write : St -> (nat -> list entry) -> entry -> result pipeError (St * (nat -> list entry)))
    (st : St) (lv : nat -> list entry) (level : nat) : result pipeError (St * (nat -> list entry)) :=
  if (level =? 8)%nat then Err errIndex
  else
    '(st, e') ← node_chunk st (lv level);
    '(st, lv) ← write st lv e';
    Ok (st, <[level := []]> lv).

Fixpoint push (fuel : nat) (st : St) (lv : nat -> list entry) (level : nat) (e : entry) :
    result pipeError (St * (nat -> list entry)) :=
  match fuel with
  | O => Err errIndex
  | S fuel =>
      let lv := <[level := lv level ++ [e]]> lv in
      if (length (lv level) =? branching)%nat
      then wrap_lv (fun st lv => push fuel st lv (level + 1)) st lv level
      else Ok (st, lv)
  end.

Definition ChainWrite_lv (st : St) (lv : nat -> list entry) (e : entry) : result pipeError (St * (nat -> list entry)) :=
  if bool_decide (lv 8%nat <> []) then Err errTrieFull else push 8 st lv 1 e.

Fixpoint sum_lv (n : nat) (st : St) (lv : nat -> list entry) (i : nat) : result pipeError (St * bytes) :=
  match n with
  | O => match lv i with [e] => Ok (st, e.2) | _ => Err errInconsistentRefs end
  | S n =>
      match lv i with
      | [] => sum_lv n st lv (i + 1)
      | [e] => sum_lv n st (<[(i + 1)%nat := lv (i + 1)%nat ++ [e]]> (<[i := []]> lv)) (i + 1)
      | _ =>
          '(st, lv) ← wrap_lv (fun st lv => push (8 - i) st lv (i + 1)) st lv i;
          sum_lv n st lv (i + 1)
      end
  end.

(** The writer [h] holds the levels from [k] on. *)
Record Rep (k : nat) (h : hashTrieWriter) (lv : nat -> list entry) : Prop := {
  r_len : length (cursors h) = 9%nat;
  r_buf : length (buffer h) = bufferSize;
  r_cur : forall i, (k <= i <= 8)%nat -> cursor h i = (cursor h (i + 1) + length (lv i) * oneRef)%nat;
  r_fit : forall i, (k <= i <= 8)%nat -> (cursor h i <= bufferSize)%nat;
  r_data : forall i, (k <= i <= 8)%nat -> slice (cursor h (i + 1)) (cursor h i) (buffer h) = enc (lv i);
  r_ok : forall i, Forall entry_ok (lv i);
}.

Lemma copy_at_app {A} i (a b d : list A) : (i + length a + length b <= length d)%nat ->
  copy_at (i + length a) b (copy_at i a d) = copy_at i (a ++ b) d.
Proof.
  intros Hl. apply list_eq. intros k.
  rewrite !lookup_copy_at by (rewrite ?length_copy_at; lia). rewrite length_copy_at, length_app.
  repeat case_decide; try lia.
  - rewrite lookup_app_r by lia. f_equal. lia.
  - rewrite lookup_app_l by lia. done.
  - done.
Qed.

Lemma append_level_ok h level b : (cursor h level + length b <= length (buffer h))%nat ->
  append_level h level b =
    Ok (MkTrie (<[level := (cursor h level + length b)%nat]> (cursors h)) (copy_at (cursor h level) b (buffer h)) (full h)).
Proof. intros Hl. unfold append_level. by rewrite (proj2 (Nat.ltb_ge _ _)) by lia. Qed.

Lemma cursor_insert h level c b f i : (level < length (cursors h))%nat ->
  cursor (MkTrie (<[level := c]> (cursors h)) b f) i = if decide (i = level) then c else cursor h i.
Proof.
  intros Hl. unfold cursor. cbn [cursors]. case_decide as E.
  - subst. by rewrite list_lookup_insert_eq.
  - by rewrite list_lookup_insert_ne.
Qed.

Lemma append3 {B} (K : hashTrieWriter -> result pipeError B) h level a b c :
  length (cursors h) = 9%nat -> (level < 9)%nat ->
  (cursor h level + length (a ++ b ++ c) <= length (buffer h))%nat ->
  (h ← append_level h level a; h ← append_level h level b; h ← append_level h level c; K h) =
    K (MkTrie (<[level := (cursor h level + length (a ++ b ++ c))%nat]> (cursors h))
         (copy_at (cursor h level) (a ++ b ++ c) (buffer h)) (full h)).
Proof.
  intros Hc Hl Hb. rewrite !length_app in Hb. rewrite append_level_ok by lia. cbn [mbind result_bind].
  rewrite append_level_ok by (rewrite cursor_insert, decide_True by lia; cbn [buffer]; rewrite length_copy_at; lia).
  cbn [mbind result_bind cursors buffer full].
  rewrite cursor_insert, decide_True by lia. rewrite list_insert_insert_eq.
  rewrite append_level_ok by (rewrite cursor_insert, decide_True by lia; cbn [buffer]; rewrite !length_copy_at; lia).
  cbn [mbind result_bind cursors buffer full]. rewrite cursor_insert, decide_True by lia. rewrite list_insert_insert_eq.
  rewrite copy_at_app by (rewrite length_copy_at; lia). rewrite copy_at_app by (rewrite length_app; lia).
  do 2 f_equal. f_equal. rewrite !length_app. lia.
Qed.

Lemma length_enc_entry e : entry_ok e -> length (enc_entry e) = oneRef.
Proof. intros [_ He]. unfold enc_entry, oneRef. rewrite length_app, length_PutUint64, He. unfold SpanSize. lia. Qed.

Lemma length_enc es : Forall entry_ok es -> length (enc es) = (length es * oneRef)%nat.
Proof.
  induction 1 as [|e es He _ IH]; [done|]. unfold enc in *. rewrite bind_cons, length_app, IH, length_enc_entry by done. simpl. lia.
Qed.

Lemma gather_enc es fuel sp acc : Forall entry_ok es -> (length (enc es) <= fuel)%nat ->
  gather fuel (enc es) sp acc = Ok (foldl (fun s e => u64 (s + e.1)) sp es, acc ++ (es ≫= snd)).
Proof.
  intros Hok. revert fuel sp acc. induction Hok as [|e es He Hes IH]; intros fuel sp acc Hf.
  { destruct fuel; cbn; by rewrite app_nil_r. }
  pose proof (length_enc_entry e He) as Hle. destruct He as [Hs Hr].
  change (enc (e :: es)) with (enc_entry e ++ enc es) in *. rewrite length_app in Hf. unfold oneRef, SpanSize in Hle.
  destruct fuel as [|fuel]; [lia|]. cbn [gather].
  destruct (enc_entry e ++ enc es) as [|x l] eqn:E; [apply (f_equal length) in E; rewrite length_app in E; simpl in E; lia|].
  rewrite <- E. rewrite (proj2 (Nat.ltb_ge _ _)) by (rewrite length_app; lia).
  rewrite drop_app_length' by lia. rewrite IH by lia. cbn [foldl]. rewrite bind_cons, app_assoc.
  assert (E1 : Uint64 (take 8 (enc_entry e ++ enc es)) = e.1).
  { unfold Uint64. rewrite take_take, Nat.min_id. change (Uint64 (enc_entry e ++ enc es) = e.1).
    unfold enc_entry. rewrite <- app_assoc. by apply Uint64_PutUint64. }
  assert (E2 : slice 8 (refSize + 8) (enc_entry e ++ enc es) = e.2).
  { unfold slice, enc_entry. rewrite <- app_assoc, drop_app_length' by (by rewrite length_PutUint64).
    rewrite take_app_length' by lia. done. }
  by rewrite E1, E2.
Qed.

Definition small (k : nat) (lv : nat -> list entry) : Prop :=
  forall i, (k <= i <= 8)%nat -> (length (lv i) < branching)%nat.

Lemma cursor_bound k h lv B : Rep k h lv ->
  (forall i, (k <= i <= 8)%nat -> (length (lv i) <= B)%nat) ->
  forall i, (k <= i <= 9)%nat -> (cursor h i <= (9 - i) * (B * oneRef))%nat.
Proof.
  intros HR HB i Hi. remember (9 - i)%nat as n eqn:En. revert i En Hi.
  induction n as [|n IH]; intros i En Hi.
  - assert (i = 9%nat) as -> by lia. unfold cursor. rewrite lookup_ge_None_2 by (rewrite (r_len _ _ _ HR); lia). simpl. lia.
  - rewrite (r_cur _ _ _ HR) by lia. specialize (IH (i + 1)%nat ltac:(lia) ltac:(lia)).
    specialize (HB i ltac:(lia)). nia.
Qed.

Lemma cursor_mono k h lv n : Rep k h lv -> (k + n <= 9)%nat -> (cursor h (k + n) <= cursor h k)%nat.
Proof.
  intros HR. induction n as [|n IH]; intros Hn; [by rewrite Nat.add_0_r|].
  specialize (IH ltac:(lia)). pose proof (r_cur _ _ _ HR (k + n)%nat ltac:(lia)).
  replace (k + S n)%nat with (k + n + 1)%nat by lia. lia.
Qed.

Lemma slice_copy_at_before {A} i j k (src dst : list A) : (j <= i <= length dst)%nat ->
  slice k j (copy_at i src dst) = slice k j dst.
Proof.
  intros H. apply list_eq. intros m. unfold slice.
  destruct (decide (m < j - k)%nat) as [Hm|Hm].
  - rewrite !lookup_take_lt, !lookup_drop by done. rewrite lookup_copy_at by lia. by rewrite decide_False by lia.
  - rewrite !lookup_take_ge by lia. done.
Qed.

Lemma slice_copy_at_at {A} i k (src dst : list A) : (k <= i)%nat -> (i + length src <= length dst)%nat ->
  slice k (i + length src) (copy_at i src dst) = slice k i dst ++ src.
Proof.
  intros Hk Hl. unfold copy_at, slice.
  rewrite (take_ge src) by lia.
  rewrite drop_app_le by (rewrite length_take; lia).
  assert (E : length (drop k (take i dst)) = (i - k)%nat) by (rewrite length_drop, length_take; lia).
  rewrite app_assoc, take_app_length' by (rewrite length_app, E; lia). f_equal.
  rewrite skipn_firstn_comm. done.
Qed.

Lemma Rep_insert_above k h lv i l : Rep k h lv -> (i < k)%nat -> Forall entry_ok l -> Rep k h (<[i := l]> lv).
Proof.
  intros [H1 H2 H3 H4 H5 H6] Hi Hl. split; try done.
  - intros j Hj. rewrite fn_lookup_insert_ne by lia. auto.
  - intros j Hj. rewrite fn_lookup_insert_ne by lia. auto.
  - intros j. destruct (decide (i = j)) as [->|]; [by rewrite fn_lookup_insert|by rewrite fn_lookup_insert_ne].
Qed.

Lemma Rep_le k k' h lv : Rep k h lv -> (k <= k')%nat -> Rep k' h lv.
Proof. intros [H1 H2 H3 H4 H5 H6] Hk. split; try done; intros; [apply H3|apply H4|apply H5]; lia. Qed.

Lemma Rep_levelSize k h lv i : Rep k h lv -> (k <= i <= 8)%nat -> levelSize h i = (length (lv i) * oneRef)%nat.
Proof.
  intros HR Hi. unfold levelSize. pose proof (r_cur _ _ _ HR i ltac:(lia)) as E. case_match eqn:E8; [|lia].
  apply Nat.eqb_eq in E8 as ->. rewrite E. unfold cursor at 1.
  rewrite lookup_ge_None_2 by (rewrite (r_len _ _ _ HR); lia). done.
Qed.

Lemma Rep_New : Rep 1 NewHashTrieWriter (fun _ => []).
Proof.
  assert (Hc : forall i, cursor NewHashTrieWriter i = 0%nat).
  { intros i. unfold cursor, NewHashTrieWriter. cbn [cursors].
    destruct (decide (i < 9)%nat); [by rewrite lookup_replicate_2|by rewrite lookup_ge_None_2 by (rewrite length_replicate; lia)]. }
  split; try done.
  - cbn. by rewrite length_replicate.
  - intros i _. by rewrite !Hc.
  - intros i _. rewrite Hc. lia.
  - intros i _. by rewrite !Hc.
Qed.

Context (Hbuf : (9 * (branching * oneRef) <= bufferSize)%nat) (Hbr : (1 < branching)%nat).

(** Appending an entry to a level. *)
Lemma Rep_append k h lv e f : Rep k h lv -> small k lv -> (k <= 8)%nat -> entry_ok e ->
  let h' := MkTrie (<[k := (cursor h k + oneRef)%nat]> (cursors h)) (copy_at (cursor h k) (enc_entry e) (buffer h)) f in
  (cursor h k + oneRef <= bufferSize)%nat /\ Rep k h' (<[k := lv k ++ [e]]> lv).
Proof.
  intros HR Hs Hk He h'.
  assert (Hc : (cursor h k + oneRef <= bufferSize)%nat).
  { pose proof (cursor_bound k h lv branching HR ltac:(intros i Hi; specialize (Hs i Hi); lia) (k + 1) ltac:(lia)).
    rewrite (r_cur _ _ _ HR) by lia. specialize (Hs k ltac:(lia)).
    assert (9 - (k + 1) <= 8)%nat by lia. nia. }
  split; [done|]. pose proof HR as [H1 H2 H3 H4 H5 H6].
  assert (Hcur : forall i, cursor h' i = if decide (i = k) then (cursor h k + oneRef)%nat else cursor h i).
  { intros i. apply cursor_insert. lia. }
  assert (Hne : forall i, (k < i)%nat -> cursor h' i = cursor h i).
  { intros i Hi. by rewrite Hcur, decide_False by lia. }
  split.
  - subst h'. cbn [cursors]. by rewrite length_insert.
  - subst h'. cbn [buffer]. by rewrite length_copy_at.
  - intros i Hi. destruct (decide (i = k)) as [->|Hik].
    + rewrite fn_lookup_insert, length_app, (Hne (k + 1)%nat), Hcur, decide_True, (H3 k) by lia. simpl. lia.
    + rewrite fn_lookup_insert_ne, !Hne by lia. apply H3. lia.
  - intros i Hi. rewrite Hcur. case_decide; [done|]. apply H4; lia.
  - intros i Hi. subst h'. cbn [buffer]. destruct (decide (i = k)) as [->|Hik].
    + rewrite fn_lookup_insert, (Hne (k + 1)%nat), Hcur, decide_True by lia.
      rewrite <- (length_enc_entry e He). rewrite slice_copy_at_at.
      * rewrite H5 by lia. unfold enc. rewrite bind_app. cbn. by rewrite app_nil_r.
      * rewrite (H3 k) by lia. lia.
      * rewrite length_enc_entry by done. lia.
    + rewrite fn_lookup_insert_ne, !Hne by lia. rewrite slice_copy_at_before; [apply H5; lia|].
      pose proof (H4 k ltac:(lia)). pose proof (cursor_mono k h lv (i - k) HR ltac:(lia)) as Hm.
      replace (k + (i - k))%nat with i in Hm by lia. lia.
  - intros i. destruct (decide (i = k)) as [->|Hik].
    + rewrite fn_lookup_insert. apply Forall_app. split; [done|]. constructor; [done|constructor].
    + by rewrite fn_lookup_insert_ne.
Qed.

(** Moving the cursor of a level back to the next one empties the level. *)
Lemma Rep_truncate k h lv f : Rep (k + 1) h lv -> (k < 8)%nat ->
  Rep k (MkTrie (cursors (set_cursor h k (cursor h (k + 1)))) (buffer h) f) (<[k := []]> lv).
Proof.
  intros [H1 H2 H3 H4 H5 H6] Hk. unfold set_cursor. cbn [cursors].
  assert (Hcur : forall i, cursor (MkTrie (<[k := cursor h (k + 1)]> (cursors h)) (buffer h) f) i =
      if decide (i = k) then cursor h (k + 1) else cursor h i).
  { intros i. apply cursor_insert. lia. }
  split; cbn [cursors buffer].
  - by rewrite length_insert.
  - done.
  - intros i Hi. rewrite !Hcur. destruct (decide (i = k)) as [->|Hik].
    + rewrite fn_lookup_insert, decide_False by lia. simpl. lia.
    + rewrite fn_lookup_insert_ne, decide_False by lia. apply H3. lia.
  - intros i Hi. rewrite Hcur. case_decide; apply H4; lia.
  - intros i Hi. rewrite !Hcur. destruct (decide (i = k)) as [->|Hik].
    + rewrite fn_lookup_insert, decide_False by lia. unfold slice. by rewrite Nat.sub_diag.
    + rewrite fn_lookup_insert_ne, decide_False by lia. apply H5. lia.
  - intros i. destruct (decide (i = k)) as [->|Hik]; [by rewrite fn_lookup_insert|by rewrite fn_lookup_insert_ne].
Qed.

(** Raising the cursor of the next level to this one moves the entries there. *)
Lemma Rep_carry k h lv : Rep k h lv -> (k < 8)%nat ->
  Rep (k + 1) (set_cursor h (k + 1) (cursor h k)) (<[(k + 1)%nat := lv (k + 1)%nat ++ lv k]> (<[k := []]> lv)).
Proof.
  intros HR Hk. pose proof HR as [H1 H2 H3 H4 H5 H6]. unfold set_cursor.
  assert (Hcur : forall i, cursor (MkTrie (<[(k + 1)%nat := cursor h k]> (cursors h)) (buffer h) (full h)) i =
      if decide (i = k + 1)%nat then cursor h k else cursor h i).
  { intros i. apply cursor_insert. lia. }
  assert (Hlv : forall i, i <> (k + 1)%nat -> i <> k ->
      (<[(k + 1)%nat := lv (k + 1)%nat ++ lv k]> (<[k := []]> lv)) i = lv i).
  { intros i Hi1 Hi2. by rewrite !fn_lookup_insert_ne by done. }
  pose proof (H3 k ltac:(lia)) as E0. pose proof (H3 (k + 1)%nat ltac:(lia)) as E1.
  split; cbn [cursors buffer].
  - by rewrite length_insert.
  - done.
  - intros i Hi. rewrite !Hcur. rewrite (decide_False (P := (i + 1 = k + 1)%nat)) by lia. case_decide as Hd.
    + subst i. rewrite fn_lookup_insert, length_app. lia.
    + rewrite Hlv by lia. apply H3. lia.
  - intros i Hi. rewrite Hcur. case_decide; apply H4; lia.
  - intros i Hi. rewrite !Hcur. rewrite (decide_False (P := (i + 1 = k + 1)%nat)) by lia. case_decide as Hd.
    + subst i. rewrite fn_lookup_insert. unfold enc. rewrite bind_app. fold (enc (lv (k + 1)%nat)) (enc (lv k)).
      rewrite <- H5, <- H5 by lia. unfold slice.
      replace (cursor h k - cursor h (k + 1 + 1))%nat
        with ((cursor h (k + 1) - cursor h (k + 1 + 1)) + (cursor h k - cursor h (k + 1)))%nat by lia.
      rewrite <- take_take_drop, drop_drop. do 3 f_equal. lia.
    + rewrite Hlv by lia. apply H5. lia.
  - intros i. destruct (decide (i = k + 1)%nat) as [->|Hik]; [rewrite fn_lookup_insert; by apply Forall_app|].
    rewrite fn_lookup_insert_ne by done.
    destruct (decide (i = k)) as [->|Hik']; [by rewrite fn_lookup_insert|by rewrite fn_lookup_insert_ne].
Qed.

(** A concrete and an abstract result agree; [P] relates the flags. *)
Definition agree (k : nat) (P : Prop) (r : result pipeError (St * hashTrieWriter))
    (r' : result pipeError (St * (nat -> list entry))) : Prop :=
  match r, r' with
  | Ok (st, h), Ok (st', lv) =>
      st = st' /\ Rep k h lv /\ small k lv /\
      (P -> if (k =? 8)%nat then lv 8%nat <> [] else full h = bool_decide (lv 8%nat <> []))
  | Err e, Err e' => e = e'
  | _, _ => False
  end.

Definition flag_ok (h : hashTrieWriter) (lv : nat -> list entry) : Prop :=
  full h = bool_decide (lv 8%nat <> []).

(** Law of the short pipeline: the span stays, reference and key fill an entry. *)
Context (Hshort : forall st sp payload st' a, short st (Args None [] (PutUint64 sp) (PutUint64 sp ++ payload)) = Ok (st', a) ->
  Span a = PutUint64 sp /\ (length (default [] (Ref a)) + length (Key a) = refSize)%nat).

Lemma span_sum_range (es : list entry) s : 0 <= s < 2 ^ 64 -> 0 <= foldl (fun s e => u64 (s + e.1)) s es < 2 ^ 64.
Proof.
  revert s. induction es as [|e es IH]; intros s Hs; [done|]. cbn [foldl]. apply IH.
  unfold u64. apply Z.mod_pos_bound. lia.
Qed.

Lemma wrap_agree k write push' P st h lv : (1 <= k <= 8)%nat -> Rep k h lv -> small (k + 1) lv -> (P -> flag_ok h lv) ->
  (forall st h lv e sp r ky, Rep (k + 1) h lv -> small (k + 1) lv -> entry_ok e ->
     sp = PutUint64 e.1 -> r ++ ky = e.2 -> (k < 8)%nat ->
     agree (k + 1) (flag_ok h lv) (write st h (k + 1)%nat sp r ky) (push' st lv e)) ->
  agree k P (wrap_with write st h k) (wrap_lv push' st lv k).
Proof.
  intros Hk HR Hs HP Hw. unfold wrap_with, wrap_lv. case_match eqn:E8; [done|].
  apply Nat.eqb_neq in E8. rewrite (r_data _ _ _ HR) by lia.
  rewrite gather_enc by (apply (r_ok _ _ _ HR) || done). cbn [mbind result_bind app].
  unfold node_chunk. fold (span_sum (lv k)). destruct (short _ _) as [[st1 a]|x] eqn:E; cbn [mbind result_bind]; [|done].
  pose proof (Hshort _ _ _ _ _ E) as [Esp El].
  specialize (Hw st1 h lv (span_sum (lv k), default [] (Ref a) ++ Key a) (Span a) (default [] (Ref a)) (Key a)
    (Rep_le k (k + 1) h lv HR ltac:(lia)) Hs).
  assert (Hok : entry_ok (span_sum (lv k), default [] (Ref a) ++ Key a)).
  { split; cbn [fst snd]; [apply span_sum_range; lia|by rewrite length_app]. }
  specialize (Hw Hok Esp eq_refl ltac:(lia)).
  destruct (write _ _ _ _ _ _) as [[st2 h2]|x], (push' _ _ _) as [[st2' lv2]|x']; try done.
  cbn [mbind result_bind agree] in *. destruct Hw as (-> & HR2 & Hs2 & Hf2).
  split; [done|]. split; [|split].
  - case_match; apply (Rep_truncate k h2 lv2); (done || lia).
  - intros i Hi. destruct (decide (i = k)) as [->|]; [rewrite fn_lookup_insert; simpl; lia|].
    rewrite fn_lookup_insert_ne by done. apply Hs2. lia.
  - intros HP'. specialize (Hf2 (HP HP')). rewrite (proj2 (Nat.eqb_neq _ _) E8).
    rewrite fn_lookup_insert_ne by lia. destruct (k + 1 =? 8)%nat; [|done].
    cbn. symmetry. by apply bool_decide_eq_true.
Qed.

Lemma writeToLevel_push fuel st h lv k e sp r ky : (1 <= k <= 8)%nat ->
  Rep k h lv -> small k lv -> entry_ok e -> sp = PutUint64 e.1 -> r ++ ky = e.2 ->
  agree k (flag_ok h lv) (writeToLevel fuel st h k sp r ky) (push fuel st lv k e).
Proof.
  revert st h lv k e sp r ky. induction fuel as [|fuel IH]; intros st h lv k e sp r ky Hk HR Hs He -> Er; [done|].
  assert (Ee : PutUint64 e.1 ++ r ++ ky = enc_entry e) by (unfold enc_entry; by rewrite Er).
  pose proof (length_enc_entry e He) as Hle.
  destruct (Rep_append k h lv e (full h) HR Hs ltac:(lia) He) as [Hfit HR'].
  cbn [writeToLevel push].
  rewrite append3; rewrite ?Ee, ?Hle, ?(r_buf _ _ _ HR); [|apply (r_len _ _ _ HR)|lia|done].
  set (h' := MkTrie _ _ _) in *. set (lv' := <[k := _]> lv) in *.
  assert (Hlen : length (lv' k) = S (length (lv k))) by (subst lv'; rewrite fn_lookup_insert, length_app; simpl; lia).
  assert (Hsz : (levelSize h' k =? fullChunk)%nat = (length (lv' k) =? branching)%nat).
  { rewrite (Rep_levelSize k h' lv') by (done || lia).
    unfold fullChunk, oneRef, SpanSize. destruct (Nat.eqb_spec (length (lv' k)) branching); nia. }
  assert (Hs' : small (k + 1) lv').
  { intros i Hi. subst lv'. rewrite fn_lookup_insert_ne by lia. apply Hs. lia. }
  assert (Hfl : k <> 8%nat -> flag_ok h lv -> flag_ok h' lv').
  { intros Hk8 Hf. unfold flag_ok. subst lv'. by rewrite fn_lookup_insert_ne by lia. }
  rewrite Hsz. destruct (Nat.eqb_spec (length (lv' k)) branching) as [Hfull|Hnf].
  - destruct (decide (k = 8%nat)) as [->|Hk8]; [done|].
    apply wrap_agree; [lia|done|done|auto|]. intros. apply IH; [lia|done..].
  - cbn [agree]. split; [done|]. split; [done|]. split.
    + intros i Hi. destruct (decide (i = k)) as [->|]; [specialize (Hs k Hi); lia|apply Hs'; lia].
    + intros Hf. destruct (Nat.eqb_spec k 8) as [->|Hk8]; [|by apply Hfl].
      intros E. rewrite E in Hlen. done.
Qed.

(** The trie writer's [ChainWrite] on an entry. *)
Lemma ChainWrite_agree st h lv e p : Rep 1 h lv -> small 1 lv -> flag_ok h lv -> entry_ok e ->
  Span p = PutUint64 e.1 -> default [] (Ref p) ++ Key p = e.2 ->
  match ChainWrite st h p, ChainWrite_lv st lv e with
  | Ok (st1, h1), Ok (st2, lv2) => st1 = st2 /\ Rep 1 h1 lv2 /\ small 1 lv2 /\ flag_ok h1 lv2
  | Err e1, Err e2 => e1 = e2
  | _, _ => False
  end.
Proof.
  intros HR Hs Hf He Esp Er. unfold ChainWrite, ChainWrite_lv.
  assert (El : (length (Span p) + length (default [] (Ref p)) + length (Key p) = oneRef)%nat).
  { rewrite <- (length_enc_entry e He). unfold enc_entry. rewrite <- Esp, <- Er, !length_app. lia. }
  rewrite El, Nat.Div0.mod_same. cbn [negb Nat.eqb]. rewrite Hf. case_bool_decide; [done|].
  pose proof (writeToLevel_push 8 st h lv 1 e _ _ _ ltac:(lia) HR Hs He Esp Er) as Ha. unfold agree in Ha.
  destruct (writeToLevel _ _ _ _ _ _ _) as [[st1 h1]|x], (push _ _ _ _ _) as [[st2 lv2]|x']; try done.
  destruct Ha as (? & ? & ? & Hfl). split_and!; try done. exact (Hfl Hf).
Qed.

Lemma sum_agree n st h lv i : (i + n = 8)%nat -> (1 <= i)%nat -> Rep i h lv -> small (i + 1) lv ->
  (length (lv i) <= branching)%nat ->
  ('(st, h) ← sum_loop n st h i;
   if negb (levelSize h 8 =? oneRef)%nat then Err errInconsistentRefs
   else Ok (st, drop 8 (take (cursor h 8) (buffer h)))) = sum_lv n st lv i.
Proof.
  revert st h lv i. induction n as [|n IH]; intros st h lv i Hn Hi HR Hs Hb; cbn [sum_loop sum_lv mbind result_bind].
  { assert (i = 8)%nat as -> by lia. rewrite (Rep_levelSize 8 h lv) by (done || lia).
    pose proof (r_data _ _ _ HR 8%nat ltac:(lia)) as Hd.
    assert (Ho : (0 < oneRef)%nat) by (unfold oneRef, SpanSize; lia).
    assert (E9 : cursor h (8 + 1) = 0%nat).
    { unfold cursor. by rewrite lookup_ge_None_2 by (rewrite (r_len _ _ _ HR); lia). }
    rewrite E9 in Hd. unfold slice in Hd. rewrite Nat.sub_0_r, drop_0 in Hd. rewrite Hd.
    destruct (lv 8%nat) as [|e [|e' es]]; cbn [length].
    - by rewrite (proj2 (Nat.eqb_neq _ _)) by lia.
    - rewrite Nat.mul_1_l, Nat.eqb_refl. cbn [negb].
      change (enc [e]) with (enc_entry e ++ []). rewrite app_nil_r. unfold enc_entry.
      by rewrite drop_app_length' by (by rewrite length_PutUint64).
    - by rewrite (proj2 (Nat.eqb_neq _ _)) by nia. }
  assert (Ho : (0 < oneRef)%nat) by (unfold oneRef, SpanSize; lia).
  rewrite (Rep_levelSize i h lv) by (done || lia). rewrite Nat.Div0.mod_mul. cbn [negb Nat.eqb].
  assert (Hwrap : (2 <= length (lv i))%nat ->
    ('(st, h) ← ('(st, h) ← wrapFullLevel st h i; sum_loop n st h (i + 1));
     if negb (levelSize h 8 =? oneRef)%nat then Err errInconsistentRefs
     else Ok (st, drop 8 (take (cursor h 8) (buffer h)))) =
    '(st, lv) ← wrap_lv (fun st lv => push (8 - i) st lv (i + 1)) st lv i; sum_lv n st lv (i + 1)).
  { intros _. unfold wrapFullLevel.
    assert (Ha : agree i False (wrap_with (writeToLevel (8 - i)) st h i)
      (wrap_lv (fun st lv => push (8 - i) st lv (i + 1)) st lv i)).
    { apply wrap_agree; [lia|done..|]. intros. apply writeToLevel_push; [lia|done..]. }
    destruct (wrap_with _ _ _ _) as [[st1 h1]|x], (wrap_lv _ _ _ _) as [[st2 lv2]|x'];
      cbn [agree] in Ha; try done; cbn [mbind result_bind]; [|by rewrite Ha].
    destruct Ha as (-> & HR1 & Hs1 & _). apply IH; [lia|lia|apply (Rep_le i); [done|lia]| |].
    - intros j Hj. apply Hs1. lia.
    - pose proof (Hs1 (i + 1)%nat ltac:(lia)). lia. }
  destruct (lv i) as [|e [|e' es]] eqn:El; cbn [length].
  - cbn [Nat.mul Nat.eqb]. apply IH; [lia|lia|apply (Rep_le i); [done|lia]| |].
    + intros j Hj. apply Hs. lia.
    + pose proof (Hs (i + 1)%nat ltac:(lia)). lia.
  - rewrite Nat.mul_1_l, (proj2 (Nat.eqb_neq oneRef 0)) by lia. unfold fullChunk.
    rewrite (proj2 (Nat.eqb_neq oneRef (oneRef * branching))) by nia. rewrite Nat.eqb_refl.
    pose proof (Rep_carry i h lv HR ltac:(lia)) as HR'. rewrite El in HR'. apply IH; [lia|lia|done| |].
    + intros j Hj. rewrite !fn_lookup_insert_ne by lia. apply Hs. lia.
    + rewrite fn_lookup_insert, length_app. pose proof (Hs (i + 1)%nat ltac:(lia)). simpl. lia.
  - rewrite (proj2 (Nat.eqb_neq _ 0)) by nia. rewrite (proj2 (Nat.eqb_neq _ oneRef)) by nia.
    specialize (Hwrap ltac:(simpl; lia)). case_match; exact Hwrap.
Qed.

(** The cursor arithmetic implements separate levels. *)
Lemma Sum_lv st h lv : Rep 1 h lv -> small 1 lv -> ('(st, _, r) ← Sum st h; Ok (st, r)) = sum_lv 7 st lv 1.
Proof.
  intros HR Hs. rewrite <- (sum_agree 7 st h lv 1); [|done|lia|done| |].
  - unfold Sum. destruct (sum_loop _ _ _ _) as [[st1 h1]|x]; cbn [mbind result_bind]; [|done]. by case_match.
  - intros i Hi. apply Hs. lia.
  - pose proof (Hs 1%nat ltac:(lia)). lia.
Qed.

(** A sequence of writes. *)
Fixpoint write_all (st : St) (h : hashTrieWriter) (ps : list PipeWriteArgs) : result pipeError (St * hashTrieWriter) :=
  match ps with
  | [] => Ok (st, h)
  | p :: ps => '(st, h) ← ChainWrite st h p; write_all st h ps
  end.

Fixpoint write_all_lv (st : St) (lv : nat -> list entry) (es : list entry) : result pipeError (St * (nat -> list entry)) :=
  match es with
  | [] => Ok (st, lv)
  | e :: es => '(st, lv) ← ChainWrite_lv st lv e; write_all_lv st lv es
  end.

(** The arguments that carry an entry. *)
Definition carries (p : PipeWriteArgs) (e : entry) : Prop :=
  entry_ok e /\ Span p = PutUint64 e.1 /\ default [] (Ref p) ++ Key p = e.2.

Lemma write_all_agree ps es st h lv : Forall2 carries ps es -> Rep 1 h lv -> small 1 lv -> flag_ok h lv ->
  match write_all st h ps, write_all_lv st lv es with
  | Ok (st1, h1), Ok (st2, lv2) => st1 = st2 /\ Rep 1 h1 lv2 /\ small 1 lv2
  | Err e1, Err e2 => e1 = e2
  | _, _ => False
  end.
Proof.
  intros Hc. revert st h lv. induction Hc as [|p e ps es (Hok & Hsp & Hr) _ IH]; intros st h lv HR Hs Hf; [done|].
  cbn [write_all write_all_lv]. pose proof (ChainWrite_agree st h lv e p HR Hs Hf Hok Hsp Hr) as Ha.
  destruct (ChainWrite _ _ _) as [[st1 h1]|x], (ChainWrite_lv _ _ _) as [[st2 lv2]|x']; cbn [mbind result_bind]; try done.
  destruct Ha as (-> & HR1 & Hs1 & Hf1). by apply IH.
Qed.

(** C26: the trie writer, which keeps all levels in one buffer delimited by
    cursors, behaves on every sequence of writes and a final [Sum] like one that
    keeps a separate list of references per level: same chunks, same result,
    same errors, and never a slice out of range. *)
Theorem trie_refines ps es st : Forall2 carries ps es ->
  ('(st, h) ← write_all st NewHashTrieWriter ps; '(st, _, r) ← Sum st h; Ok (st, r)) =
  ('(st, lv) ← write_all_lv st (fun _ => []) es; sum_lv 7 st lv 1).
Proof.
  intros Hc. pose proof (write_all_agree ps es st NewHashTrieWriter (fun _ => []) Hc Rep_New) as Ha.
  destruct (write_all _ _ _) as [[st1 h1]|x], (write_all_lv _ _ _) as [[st2 lv2]|x']; cbn [mbind result_bind];
    (destruct Ha as (-> & HR & Hs); [intros i Hi; simpl; lia|done|]) || (rewrite Ha; [done|intros i Hi; simpl; lia|done]) ||
    (exfalso; apply Ha; [intros i Hi; simpl; lia|done]).
  by apply Sum_lv.
Qed.
End HashTrie.

(** A short pipeline that collects the chunks and numbers them. *)
Definition numbering (st : list bytes) (a : PipeWriteArgs) : result pipeError (list bytes * PipeWriteArgs) :=
  Ok (st ++ [Data a], Args (Some [zlen st]) [] (Span a) (Data a)).

Definition leaf_ref (n : Z) : PipeWriteArgs := Args (Some [n]) [] (PutUint64 1) [].

Lemma trie_refines_witness :
  ('(st, h) ← write_all 2 1 numbering [] (NewHashTrieWriter 162) (map leaf_ref [50; 51; 52; 53; 54]);
   '(st, _, r) ← Sum 2 1 numbering st h; Ok (st, r)) =
  Ok ([PutUint64 2 ++ [50; 51]; PutUint64 2 ++ [52; 53]; PutUint64 4 ++ [0; 1]; PutUint64 5 ++ [2; 54]], [3]).
Proof.
  rewrite (trie_refines 2 1 162 numbering ltac:(vm_compute; lia) ltac:(lia)
    ltac:(intros st sp payload st' a [= <- <-]; done) (map leaf_ref [50; 51; 52; 53; 54])
    [(1, [50]); (1, [51]); (1, [52]); (1, [53]); (1, [54])] []).
  - reflexivity.
  - repeat (constructor; [split; [split; [cbn; lia|done]|done]|]). constructor.
Defined.
End hashtrie.
