(* ===== verification/FileTree.v ===== *)
(** * The tree of a file

    The chunks the trie writer stores form a tree over the data of the file.
    In a node all children but the last are complete trees of one height; the
    last may be lower, because [Sum] carries a single reference up without a
    chunk of its own.  This shape is what the joiner relies on. *)

From Stdlib Require Import ZArith Lia ZifyBool.
From stdpp Require Import base gmap list numbers functions.
From S2P Require Import Prelude Boson Pipeline HashTrie.

Open Scope Z_scope.

Inductive tree :=
| TLeaf (d : bytes)
| TNode (ts : list tree).

Fixpoint flatten (t : tree) : bytes :=
  match t with
  | TLeaf d => d
  | TNode ts => concat (map flatten ts)
  end.

Definition size (t : tree) : Z := zlen (flatten t).

Lemma flatten_node ts : flatten (TNode ts) = ts ≫= flatten.
Proof. cbn. induction ts as [|t ts IH]; [done|]. cbn. by rewrite IH. Qed.

Lemma size_app ts t : size (TNode (ts ++ [t])) = size (TNode ts) + size t.
Proof.
  unfold size. rewrite !flatten_node, bind_app, !length_app. cbn. rewrite app_nil_r. lia.
Qed.

Lemma size_nonneg t : 0 <= size t.
Proof. unfold size. lia. Qed.

Lemma size_cons t ts : size (TNode (t :: ts)) = size t + size (TNode ts).
Proof. unfold size. rewrite !flatten_node, bind_cons, length_app. lia. Qed.

Lemma size_uniform ts s : Forall (fun t => size t = s) ts -> size (TNode ts) = zlen ts * s.
Proof.
  induction 1 as [|t ts Ht _ IH]; [done|]. rewrite size_cons, IH, Ht. cbn [length]. lia.
Qed.

Section Tree.
(** [C]: bytes of a leaf; [b]: references of a node. *)
Context (C : Z) (b : nat).
Context (HC : 0 < C) (Hb : (1 < b)%nat).

(** Complete trees of height [h]. *)
Fixpoint complete (h : nat) (t : tree) : Prop :=
  match h, t with
  | O, TLeaf d => zlen d = C
  | S h, TNode ts => length ts = b /\ Forall (complete h) ts
  | _, _ => False
  end.

(** Trees of height at most [h], complete but for the right edge. *)
Inductive ws : nat -> tree -> Prop :=
| ws_leaf h d : 0 < zlen d <= C -> ws h (TLeaf d)
| ws_node h h' ts t : ts <> [] -> (length ts < b)%nat -> Forall (complete h') ts -> ws h' t -> (h' < h)%nat ->
    ws h (TNode (ts ++ [t])).

Definition cap (h : nat) : Z := C * Z.of_nat b ^ Z.of_nat h.

Lemma cap_S h : cap (S h) = Z.of_nat b * cap h.
Proof. unfold cap. rewrite Nat2Z.inj_succ, Z.pow_succ_r by lia. ring. Qed.

Lemma cap_pos h : 0 < cap h.
Proof. unfold cap. pose proof (Z.pow_pos_nonneg (Z.of_nat b) (Z.of_nat h)). nia. Qed.

Lemma cap_mono h h' : (h <= h')%nat -> cap h <= cap h'.
Proof.
  induction 1 as [|h' _ IH]; [done|]. rewrite cap_S. pose proof (cap_pos h'). nia.
Qed.

Lemma complete_size h t : complete h t -> size t = cap h.
Proof.
  revert t. induction h as [|h IH]; intros [d|ts]; cbn [complete]; try done.
  - intros E. unfold size, cap. cbn [flatten]. rewrite E. simpl. lia.
  - intros [El Hf]. rewrite (size_uniform ts (cap h)); [rewrite El, cap_S; done|].
    eapply Forall_impl; [|exact Hf]. auto.
Qed.

Lemma ws_mono h h' t : ws h t -> (h <= h')%nat -> ws h' t.
Proof. intros Hw Hh. inversion Hw; subst; econstructor; try done. lia. Qed.

Lemma complete_ws h t : complete h t -> ws h t.
Proof.
  revert t. induction h as [|h IH]; intros [d|ts]; cbn [complete]; try done.
  - intros E. constructor. lia.
  - intros [El Hf]. destruct (exists_last (l := ts)) as (ts' & t & ->).
    { intros ->. simpl in El. lia. }
    rewrite length_app in El. simpl in El. apply Forall_app in Hf as [Hf Ht]. apply Forall_inv in Ht. cbn beta in Ht.
    apply (ws_node _ h); [destruct ts'; [simpl in El; lia|done]|lia|done|by apply IH|lia].
Qed.

(** The size of a node tells the height of its complete children. *)
Lemma node_size h ts t : Forall (complete h) ts -> size (TNode (ts ++ [t])) = zlen ts * cap h + size t.
Proof.
  intros Hf. rewrite size_app, (size_uniform ts (cap h)); [done|].
  eapply Forall_impl; [|exact Hf]. intros x. apply complete_size.
Qed.

Lemma ws_size h t : ws h t -> 0 < size t <= cap h.
Proof.
  induction 1 as [h d Hd|h h' ts t Hne Hl Hf Ht IH Hh].
  - unfold size. cbn [flatten]. pose proof (cap_mono 0 h ltac:(lia)) as Hm.
    assert (cap 0 = C) by (unfold cap; simpl; lia). lia.
  - rewrite (node_size h') by done. pose proof (cap_mono (S h') h ltac:(lia)) as Hm. rewrite cap_S in Hm.
    pose proof (cap_pos h'). nia.
Qed.

(** ** References

    [final] is what the reader of the finished file gets for a reference. *)
Context (refSize : nat) (final : bytes -> option bytes).

Inductive den : tree -> bytes -> Prop :=
| den_leaf d r : final r = Some (PutUint64 (zlen d) ++ d) -> den (TLeaf d) r
| den_node ts rs r :
    final r = Some (PutUint64 (size (TNode ts)) ++ mjoin rs) ->
    Forall2 den ts rs -> Forall (fun r => length r = refSize) rs -> den (TNode ts) r.

(** A short pipeline that stores the node chunks so that the reader finds them
    in the end, [good] being the states from which the end is reached. *)
Context {St : Type} (short : St -> PipeWriteArgs -> result pipeError (St * PipeWriteArgs)).
Context (good : St -> Prop).

Definition node_shape (sp : Z) (payload : bytes) : Prop :=
  exists n h, 2 <= n <= Z.of_nat b /\ zlen payload = n * Z.of_nat refSize /\ (n - 1) * cap h < sp <= n * cap h /\ sp < 2 ^ 63.

Definition chunk_shape (sp : Z) (payload : bytes) : Prop :=
  sp = zlen payload /\ sp <= C /\ sp < 2 ^ 63 \/ node_shape sp payload.

Definition stores : Prop := forall st sp payload st' a,
  short st (Args None [] (PutUint64 sp) (PutUint64 sp ++ payload)) = Ok (st', a) ->
  (Span a = PutUint64 sp /\ (length (default [] (Ref a)) + length (Key a) = refSize)%nat) /\
  (good st' -> good st) /\
  (chunk_shape sp payload -> good st' -> final (default [] (Ref a) ++ Key a) = Some (PutUint64 sp ++ payload)).

Context (Hst : stores).

(** An error of the short pipeline on a chunk of the file. *)
Definition fails (x : pipeError) : Prop := exists st sp payload, chunk_shape sp payload /\
  short st (Args None [] (PutUint64 sp) (PutUint64 sp ++ payload)) = Err x.

(** Entry [e] stands for [t]. *)
Definition stands (st : St) (t : tree) (e : Z * bytes) : Prop :=
  e.1 = size t /\ length e.2 = refSize /\ (good st -> den t e.2).

Lemma stands_mono st st' t e : (good st' -> good st) -> stands st t e -> stands st' t e.
Proof. intros Hg (? & ? & Hd). split; [done|]. split; [done|]. auto. Qed.

Lemma stands_all st st' ts es : (good st' -> good st) -> Forall2 (stands st) ts es -> Forall2 (stands st') ts es.
Proof. intros Hg Hf. eapply Forall2_impl; [|exact Hf]. intros t e. by apply stands_mono. Qed.

Lemma span_sum_size st ts es s : Forall2 (stands st) ts es -> 0 <= s -> s + size (TNode ts) < 2 ^ 64 ->
  foldl (fun s (e : Z * bytes) => u64 (s + e.1)) s es = s + size (TNode ts).
Proof.
  intros Hf. revert s. induction Hf as [|t e ts es (E & _ & _) _ IH]; intros s Hs Hlt.
  - unfold size. simpl. lia.
  - rewrite size_cons in *. cbn [foldl]. pose proof (size_nonneg t). pose proof (size_nonneg (TNode ts)).
    rewrite E. unfold u64. rewrite Z.mod_small by lia. rewrite IH by lia. lia.
Qed.

Lemma stands_refs st ts es : Forall2 (stands st) ts es ->
  zlen (es ≫= snd) = zlen ts * Z.of_nat refSize /\ Forall (fun r => length r = refSize) (snd <$> es) /\
  (good st -> Forall2 den ts (snd <$> es)).
Proof.
  induction 1 as [|t e ts es (_ & El & Hd) _ (IH1 & IH2 & IH3)]; [done|]. split_and!.
  - rewrite bind_cons, length_app, El. cbn [length]. lia.
  - rewrite fmap_cons. by constructor.
  - intros Hg. rewrite fmap_cons. constructor; auto.
Qed.

(** The chunk of a node. *)
Lemma node_chunk_spec st es h ts t : Forall2 (stands st) (ts ++ [t]) es ->
  ts <> [] -> (length ts < b)%nat -> Forall (complete h) ts -> ws h t -> size (TNode (ts ++ [t])) < 2 ^ 63 ->
  match hashtrie.node_chunk short st es with
  | Ok (st', e) => (good st' -> good st) /\ stands st' (TNode (ts ++ [t])) e
  | Err x => fails x
  end.
Proof.
  intros Hf Hne Hl Hc Hw Hlt. unfold hashtrie.node_chunk, hashtrie.span_sum.
  rewrite (span_sum_size st (ts ++ [t])) by (done || lia). rewrite Z.add_0_l.
  destruct (stands_refs _ _ _ Hf) as (R1 & R2 & R3).
  assert (Hshape : chunk_shape (size (TNode (ts ++ [t]))) (es ≫= snd)).
  { right. pose proof (ws_size _ _ Hw) as Hs. rewrite (node_size h) in * by done.
    exists (zlen (ts ++ [t])), h. rewrite R1, length_app. destruct ts as [|t0 ts]; [done|]. cbn [length] in *.
    pose proof (cap_pos h). split_and!; nia. }
  destruct (short _ _) as [[st' a]|x] eqn:E; cbn [mbind result_bind]; [|by eexists _, _, _].
  destruct (Hst _ _ _ _ _ E) as ([_ El] & Hg & Hfin). split; [done|].
  split; [done|]. split; [cbn; by rewrite length_app|]. cbn [snd]. intros Hgood.
  apply (den_node _ (snd <$> es)); [|by auto|done].
  assert (es ≫= snd = mjoin (snd <$> es)) as <-.
  { clear. induction es as [|e es IH]; [done|]. by rewrite bind_cons, IH. }
  by apply Hfin.
Qed.

(** ** Levels of trees *)

(** The data under the [n] levels from [k] on, the highest level first. *)
Fixpoint flat (T : nat -> list tree) (k n : nat) : bytes :=
  match n with
  | O => []
  | S n => flat T (k + 1) n ++ (T k ≫= flatten)
  end.

Lemma flat_ext T T' k n : (forall j, (k <= j < k + n)%nat -> T j = T' j) -> flat T k n = flat T' k n.
Proof.
  revert k. induction n as [|n IH]; intros k H; [done|]. cbn [flat]. rewrite (H k) by lia. f_equal. apply IH.
  intros j Hj. apply H. lia.
Qed.

Lemma flat_level T k n j : (k <= j < k + n)%nat -> zlen (T j ≫= flatten) <= zlen (flat T k n).
Proof.
  revert k. induction n as [|n IH]; intros k H; [lia|]. cbn [flat]. rewrite length_app.
  destruct (decide (j = k)) as [->|]; [lia|]. specialize (IH (k + 1)%nat ltac:(lia)). lia.
Qed.

Definition levels_ok (k : nat) (T : nat -> list tree) : Prop :=
  forall j, (k <= j <= 8)%nat -> Forall (complete (j - 1)) (T j) /\ (length (T j) < b)%nat.

Definition rep_levels (k : nat) (st : St) (T : nat -> list tree) (lv : nat -> list (Z * bytes)) : Prop :=
  forall j, (k <= j <= 8)%nat -> Forall2 (stands st) (T j) (lv j).

(** What fits in the trie and in a span. *)
Definition fits (n : Z) : Prop := n <= cap 7 /\ n < 2 ^ 63.

(** [t] joined the levels: it went up to [i0], taking the levels below along. *)
Definition joined (k : nat) (T : nat -> list tree) (t : tree) (T' : nat -> list tree) : Prop :=
  exists i0 t', (k <= i0 <= 8)%nat /\ (forall j, (k <= j < i0)%nat -> T' j = []) /\
    (forall j, (i0 < j <= 8)%nat -> T' j = T j) /\ T' i0 = T i0 ++ [t'] /\ (length (T' i0) < b)%nat /\
    ws (i0 - 1) t' /\ (complete (k - 1) t -> complete (i0 - 1) t') /\
    flat T' k (9 - k) = flat T k (9 - k) ++ flatten t.

Lemma flat_S T k : (k <= 8)%nat -> flat T k (9 - k) = flat T (k + 1) (9 - (k + 1)) ++ (T k ≫= flatten).
Proof. intros Hk. replace (9 - k)%nat with (S (9 - (k + 1))) by lia. done. Qed.

Lemma top_room T t : levels_ok 8 T -> 0 < size t -> fits (zlen (flat T 8 (9 - 8)) + size t) -> T 8%nat = [].
Proof.
  intros HL Ht [Hf _]. cbn [flat Nat.sub app] in Hf. destruct (T 8%nat) as [|t0 ts] eqn:E; [done|]. exfalso.
  destruct (HL 8%nat ltac:(lia)) as [Hc _]. rewrite E in *. apply Forall_inv, complete_size in Hc. cbn [Nat.sub] in Hc.
  change (size t0 = cap 7) in Hc. rewrite bind_cons, length_app in Hf. unfold size in Hc at 1. lia.
Qed.

Lemma joined_here k T t : (1 <= k <= 8)%nat -> ws (k - 1) t -> (length (T k ++ [t]) < b)%nat ->
  joined k T t (<[k := T k ++ [t]]> T).
Proof.
  intros Hk Hw Hl. exists k, t. split_and!; try done; try lia.
  - intros j Hj. by rewrite fn_lookup_insert_ne by lia.
  - by rewrite fn_lookup_insert.
  - by rewrite fn_lookup_insert.
  - rewrite (flat_S (<[k := _]> T) k), (flat_S T k) by lia. rewrite fn_lookup_insert, bind_app, app_assoc. cbn [mbind list_bind]. rewrite app_nil_r. f_equal. f_equal.
    apply flat_ext. intros j Hj. by rewrite fn_lookup_insert_ne by lia.
Qed.

Lemma joined_up k T ts t T' : (1 <= k < 8)%nat -> T k = ts -> length (ts ++ [t]) = b -> Forall (complete (k - 1)) ts ->
  joined (k + 1) T (TNode (ts ++ [t])) T' -> joined k T t (<[k := []]> T').
Proof.
  intros Hk Ek Hl Hts (i0 & t' & Hi & H1 & H2 & H3 & H4 & H5 & H6 & H7). exists i0, t'.
  assert (Hne : forall j, j <> k -> (<[k := []]> T') j = T' j) by (intros j Hj; by rewrite fn_lookup_insert_ne by done).
  split_and!; try lia.
  - intros j Hj. destruct (decide (j = k)) as [->|]; [by rewrite fn_lookup_insert|]. rewrite Hne by done. apply H1. lia.
  - intros j Hj. rewrite Hne by lia. by apply H2.
  - rewrite Hne by lia. done.
  - rewrite Hne by lia. done.
  - done.
  - intros Ht. apply H6. replace (k + 1 - 1)%nat with (S (k - 1)) by lia. split; [done|]. apply Forall_app. split; [done|by constructor].
  - rewrite (flat_S (<[k := _]> T') k), (flat_S T k) by lia. rewrite fn_lookup_insert, app_nil_r, Ek.
    rewrite (flat_ext _ T') by (intros j Hj; apply Hne; lia). rewrite H7, flatten_node, bind_app.
    cbn [mbind list_bind]. by rewrite app_nil_r, app_assoc.
Qed.

Lemma push_spec fuel k st lv T t e : (fuel = 9 - k)%nat -> (1 <= k <= 8)%nat ->
  levels_ok k T -> rep_levels k st T lv -> ws (k - 1) t -> stands st t e -> fits (zlen (flat T k (9 - k)) + size t) ->
  match hashtrie.push b short fuel st lv k e with
  | Ok (st', lv') => (good st' -> good st) /\ exists T', joined k T t T' /\ rep_levels k st' T' lv'
  | Err x => fails x
  end.
Proof.
  revert k st lv T t e. induction fuel as [|fuel IH]; intros k st lv T t e Hfu Hk HL HR Hw He Hf; [lia|].
  cbn [hashtrie.push]. rewrite fn_lookup_insert. pose proof (ws_size _ _ Hw) as Hsz.
  destruct (HL k ltac:(lia)) as [Hc Hl]. pose proof (HR k ltac:(lia)) as HRk.
  assert (HRk' : Forall2 (stands st) (T k ++ [t]) (lv k ++ [e])) by (apply Forall2_app; [done|by constructor]).
  pose proof (Forall2_length HRk') as El. destruct (Nat.eqb_spec (length (lv k ++ [e])) b) as [Eb|Nb].
  - unfold hashtrie.wrap_lv. destruct (Nat.eqb_spec k 8) as [->|Hk8].
    { exfalso. rewrite (top_room T t) in El by (done || lia). simpl in El. lia. }
    rewrite fn_lookup_insert. rewrite length_app in El. cbn [length] in El.
    rewrite flat_S, length_app in Hf by lia.
    assert (Ent : size (TNode (T k ++ [t])) = zlen (T k ≫= flatten) + size t).
    { rewrite size_app. unfold size at 1. by rewrite flatten_node. }
    assert (Hne : T k <> []) by (intros E; rewrite E in El; simpl in El; lia).
    pose proof (node_chunk_spec st _ (k - 1) (T k) t HRk' Hne Hl Hc Hw) as Hn.
    destruct (hashtrie.node_chunk _ _ _) as [[st1 e1]|x]; cbn [mbind result_bind];
      [destruct Hn as [Hg1 He1]; [unfold fits in Hf; lia|]|by apply Hn; unfold fits in Hf; lia].
    assert (HL1 : levels_ok (k + 1) T) by (intros j Hj; apply HL; lia).
    assert (HR1 : rep_levels (k + 1) st1 T (<[k := lv k ++ [e]]> lv)).
    { intros j Hj. rewrite fn_lookup_insert_ne by lia. apply (stands_all st); [done|apply HR; lia]. }
    assert (Hw1 : ws (k + 1 - 1) (TNode (T k ++ [t]))) by (apply (ws_node _ (k - 1)); (done || lia)).
    assert (Hf1 : fits (zlen (flat T (k + 1) (9 - (k + 1))) + size (TNode (T k ++ [t])))).
    { rewrite Ent. unfold fits in *. lia. }
    specialize (IH (k + 1)%nat st1 _ T _ e1 ltac:(lia) ltac:(lia) HL1 HR1 Hw1 He1 Hf1).
    destruct (hashtrie.push _ _ _ _ _ _ _) as [[st2 lv2]|x]; cbn [mbind result_bind]; [|done].
    destruct IH as [Hg2 (T' & HJ & HR')].
    split; [by auto|]. exists (<[k := []]> T'). split; [apply (joined_up k T (T k)); try (done || lia); rewrite length_app; simpl; lia|].
    intros j Hj. destruct (decide (j = k)) as [->|]; [by rewrite !fn_lookup_insert|].
    rewrite !fn_lookup_insert_ne by done. apply HR'. lia.
  - split; [done|]. exists (<[k := T k ++ [t]]> T). split.
    + apply joined_here; [done|done|]. rewrite <- El in Nb. rewrite length_app in *. simpl in *. lia.
    + intros j Hj. destruct (decide (j = k)) as [->|]; [by rewrite !fn_lookup_insert|].
      rewrite !fn_lookup_insert_ne by done. by apply HR.
Qed.

(** The levels from [i] on as [Sum] finds them: the last tree of the lowest
    occupied level ends the data, all others are complete. *)
Definition ready (i : nat) (T : nat -> list tree) : Prop :=
  exists i0 ts t, (i <= i0 <= 8)%nat /\ (forall j, (i <= j < i0)%nat -> T j = []) /\
    levels_ok (i0 + 1) T /\ T i0 = ts ++ [t] /\ Forall (complete (i0 - 1)) ts /\ (length (T i0) <= b)%nat /\ ws (i0 - 1) t.

Lemma joined_ready k T t T' : levels_ok k T -> joined k T t T' -> ready k T'.
Proof.
  intros HL (i0 & t' & Hi & H1 & H2 & H3 & H4 & H5 & _ & _). exists i0, (T i0), t'. split_and!; try (done || lia).
  - intros j Hj. rewrite H2 by lia. apply HL. lia.
  - apply HL. lia.
Qed.

Lemma joined_levels_ok k T t T' : levels_ok k T -> complete (k - 1) t -> joined k T t T' -> levels_ok k T'.
Proof.
  intros HL Hc (i0 & t' & Hi & H1 & H2 & H3 & H4 & H5 & H6 & _) j Hj.
  destruct (decide (j < i0)%nat); [rewrite H1 by lia; split; [constructor|simpl; lia]|].
  destruct (decide (j = i0)) as [->|]; [|rewrite H2 by lia; apply HL; lia].
  split; [|done]. rewrite H3. apply Forall_app. split; [apply HL; lia|]. constructor; [auto|constructor].
Qed.

(** The root is alone on the top level. *)
Lemma ready_top T : ready 8 T -> fits (zlen (flat T 8 (9 - 8))) -> exists t, T 8%nat = [t] /\ ws 7 t /\ flatten t = flat T 8 (9 - 8).
Proof.
  intros (i0 & ts & t & Hi & _ & _ & E & Hc & _ & Hw) [Hf _]. assert (i0 = 8)%nat as -> by lia. cbn [Nat.sub] in *.
  cbn [flat Nat.sub app] in *. rewrite E in *. exists t. destruct ts as [|t0 ts].
  - cbn [mbind list_bind app]. by rewrite app_nil_r.
  - exfalso. apply Forall_inv, complete_size in Hc. apply ws_size in Hw. unfold size in Hc, Hw.
    rewrite bind_app, length_app in Hf. cbn [mbind list_bind] in Hf. rewrite !length_app in Hf. simpl in Hf. lia.
Qed.

Lemma ready_next i T : (i < 8)%nat -> ready i T -> T i = [] -> ready (i + 1) T.
Proof.
  intros Hi (i0 & ts & t & Hi0 & H1 & H2 & H3 & H4) E. exists i0, ts, t.
  assert (i0 <> i) by (intros ->; rewrite E in H3; by destruct ts). split_and!; try (apply H4 || done || lia).
  intros j Hj. apply H1. lia.
Qed.

(** The lowest level is [i] itself. *)
Lemma ready_here i T : ready i T -> T i <> [] -> exists ts t, levels_ok (i + 1) T /\ T i = ts ++ [t] /\
  Forall (complete (i - 1)) ts /\ (length (T i) <= b)%nat /\ ws (i - 1) t.
Proof.
  intros (i0 & ts & t & Hi0 & H1 & H2 & H3 & H4) Hne.
  destruct (decide (i0 = i)) as [->|]; [by exists ts, t|]. destruct Hne. apply H1. lia.
Qed.

Lemma ready_carry i T t : (1 <= i < 8)%nat -> levels_ok (i + 1) T -> T i = [t] -> ws (i - 1) t ->
  let T' := <[(i + 1)%nat := T (i + 1)%nat ++ [t]]> (<[i := []]> T) in
  ready (i + 1) T' /\ flat T' (i + 1) (9 - (i + 1)) = flat T i (9 - i).
Proof.
  intros Hi HL E Hw T'.
  assert (Hne : forall j, (i + 1 < j)%nat -> T' j = T j) by (intros j Hj; subst T'; by rewrite !fn_lookup_insert_ne by lia).
  assert (Ei : T' (i + 1)%nat = T (i + 1)%nat ++ [t]) by (subst T'; by rewrite fn_lookup_insert).
  destruct (HL (i + 1)%nat ltac:(lia)) as [Hc Hl]. split.
  - exists (i + 1)%nat, (T (i + 1)%nat), t. split_and!; try (done || lia).
    + intros j Hj. rewrite Hne by lia. apply HL. lia.
    + rewrite Ei, length_app. simpl. lia.
    + apply (ws_mono (i - 1)); [done|lia].
  - rewrite (flat_S T' (i + 1)), (flat_S T i), (flat_S T (i + 1)), Ei, E, bind_app by lia.
    rewrite (flat_ext T' T) by (intros j Hj; apply Hne; lia). cbn [mbind list_bind]. by rewrite !app_nil_r, app_assoc.
Qed.

Definition sum_post (st : St) (data : bytes) (r : result pipeError (St * bytes)) : Prop :=
  match r with
  | Ok (st', r) => (good st' -> good st) /\
      exists t, ws 7 t /\ flatten t = data /\ length r = refSize /\ (good st' -> den t r)
  | Err x => fails x
  end.

(** Wrapping a level with at least two references. *)
Lemma wrap_spec i st lv T : (1 <= i < 8)%nat -> ready i T -> rep_levels i st T lv -> fits (zlen (flat T i (9 - i))) ->
  (2 <= length (lv i))%nat ->
  match hashtrie.wrap_lv short (fun st lv => hashtrie.push b short (8 - i) st lv (i + 1)) st lv i with
  | Ok (st', lv') => (good st' -> good st) /\ exists T', ready (i + 1) T' /\ rep_levels (i + 1) st' T' lv' /\
      flat T' (i + 1) (9 - (i + 1)) = flat T i (9 - i)
  | Err x => fails x
  end.
Proof.
  intros Hi Hr HR Hf H2. pose proof (HR i ltac:(lia)) as HRi. pose proof (Forall2_length HRi) as Elen.
  destruct (ready_here i T Hr) as (ts & t & HL & Et & Hc & Hlen & Hw); [intros E; rewrite E in Elen; simpl in Elen; lia|].
  rewrite Et in HRi. rewrite Et, length_app in Elen, Hlen. simpl in Elen, Hlen.
  unfold hashtrie.wrap_lv. rewrite (proj2 (Nat.eqb_neq i 8)) by lia.
  rewrite flat_S, length_app, Et in Hf by lia. rewrite (flat_S T i), Et by lia.
  assert (Ent : size (TNode (ts ++ [t])) = zlen ((ts ++ [t]) ≫= flatten)) by (unfold size; by rewrite flatten_node).
  assert (Hf1 : fits (zlen (flat T (i + 1) (9 - (i + 1))) + size (TNode (ts ++ [t])))) by (rewrite Ent; unfold fits in *; lia).
  assert (Hne : ts <> []) by (intros ->; simpl in Elen; lia).
  pose proof (node_chunk_spec st _ (i - 1) ts t HRi Hne ltac:(lia) Hc Hw) as Hnc.
  destruct (hashtrie.node_chunk _ _ _) as [[st1 e1]|x]; cbn [mbind result_bind];
    [destruct Hnc as [Hg1 He1]; [unfold fits in Hf; lia|]|by apply Hnc; unfold fits in Hf; lia].
  assert (Hw1 : ws (i + 1 - 1) (TNode (ts ++ [t]))) by (apply (ws_node _ (i - 1)); (done || lia)).
  assert (HR1 : rep_levels (i + 1) st1 T lv) by (intros j Hj; apply (stands_all st); [done|apply HR; lia]).
  pose proof (push_spec (8 - i) (i + 1) st1 lv T _ e1 ltac:(lia) ltac:(lia) HL HR1 Hw1 He1 Hf1) as Hp.
  destruct (hashtrie.push _ _ _ _ _ _ _) as [[st2 lv2]|x]; cbn [mbind result_bind]; [|done].
  destruct Hp as [Hg2 (T' & HJ & HR2)]. split; [by auto|]. exists T'.
  split; [by apply (joined_ready _ T (TNode (ts ++ [t])))|]. split.
  - intros j Hj. rewrite fn_lookup_insert_ne by lia. by apply HR2.
  - destruct HJ as (i0 & t' & _ & _ & _ & _ & _ & _ & _ & Efl). by rewrite Efl, flatten_node.
Qed.

Lemma sum_spec n st lv T i : (i + n = 8)%nat -> (1 <= i)%nat -> ready i T -> rep_levels i st T lv ->
  fits (zlen (flat T i (9 - i))) -> sum_post st (flat T i (9 - i)) (hashtrie.sum_lv b short n st lv i).
Proof.
  revert st lv T i. induction n as [|n IH]; intros st lv T i Hn Hi Hr HR Hf; cbn [hashtrie.sum_lv].
  { assert (i = 8)%nat as -> by lia. destruct (ready_top T Hr Hf) as (t & E & Hw & Ef).
    pose proof (HR 8%nat ltac:(lia)) as H8. rewrite E in H8. inversion H8 as [|? e ? ? (? & ? & ?) Hnil E1 E2]; subst.
    inversion Hnil; subst. split; [done|]. by exists t. }
  pose proof (HR i ltac:(lia)) as HRi. destruct (lv i) as [|e [|e' es]] eqn:El.
  - apply Forall2_nil_inv_r in HRi. rewrite flat_S, HRi by lia. cbn [mbind list_bind]. rewrite app_nil_r.
    apply IH; [lia|lia|by apply ready_next; [lia|..]| |].
    + intros j Hj. apply HR. lia.
    + rewrite flat_S, HRi in Hf by lia. cbn [mbind list_bind] in Hf. by rewrite app_nil_r in Hf.
  - destruct (ready_here i T Hr) as (ts & t & HL & Et & Hc & _ & Hw).
    { intros E. rewrite E in HRi. inversion HRi. }
    pose proof (Forall2_length HRi) as Elen. rewrite Et, length_app in Elen. simpl in Elen.
    destruct ts as [|? ts]; [|simpl in Elen; lia]. cbn [app] in Et. rewrite Et in HRi.
    destruct (ready_carry i T t) as [Hr' Ef]; [lia|done..|]. rewrite <- Ef in *. apply IH; [lia|lia|done| |done].
    intros j Hj. destruct (decide (j = i + 1)%nat) as [->|].
    + rewrite !fn_lookup_insert. apply Forall2_app; [apply HR; lia|done].
    + rewrite !fn_lookup_insert_ne by lia. apply HR. lia.
  - pose proof (wrap_spec i st lv T ltac:(lia) Hr HR Hf ltac:(rewrite El; simpl; lia)) as Hwr.
    destruct (hashtrie.wrap_lv _ _ _ _ _) as [[st2 lv2]|x]; cbn [mbind result_bind]; [|done].
    destruct Hwr as [Hg2 (T' & Hr' & HR' & Ef)]. rewrite <- Ef in *.
    specialize (IH st2 lv2 T' (i + 1)%nat ltac:(lia) ltac:(lia) Hr' HR' Hf). unfold sum_post in *.
    destruct (hashtrie.sum_lv _ _ _ _ _ _) as [[st3 r]|x]; [|done]. destruct IH as [Hg3 Hs]. split; [by auto|done].
Qed.

(** ** The whole file *)

Context (bufferSize : nat) (Hbuf : (9 * (b * hashtrie.oneRef refSize) <= bufferSize)%nat).
(** The pipeline behind the feeder: a leaf goes through the short pipeline and
    on to the trie writer. *)
Context (next : ChainWriter (St * hashtrie.hashTrieWriter)).
Context (Hnext : forall st h c, ChainWrite next (st, h) (feeder.leaf_args c) =
  ('(st, a) ← short st (feeder.leaf_args c); ChainWrite (hashtrie.writer b refSize short) (st, h) a)).
Context (HSum : forall sh, Sum next sh = Sum (hashtrie.writer b refSize short) sh).

(** The trie writer [h] holds the trees [T]. *)
Definition holds (st : St) (h : hashtrie.hashTrieWriter) (T : nat -> list tree) : Prop :=
  exists lv, hashtrie.Rep refSize bufferSize 1 h lv /\ hashtrie.small b 1 lv /\ hashtrie.flag_ok h lv /\ rep_levels 1 st T lv.

Lemma short_law st sp payload st' a : short st (Args None [] (PutUint64 sp) (PutUint64 sp ++ payload)) = Ok (st', a) ->
  Span a = PutUint64 sp /\ (length (default [] (Ref a)) + length (Key a) = refSize)%nat.
Proof. intros E. by destruct (Hst _ _ _ _ _ E). Qed.

(** One leaf. *)
Lemma leaf_step st h T c : holds st h T -> levels_ok 1 T -> 0 < zlen c <= C -> fits (zlen (flat T 1 8) + zlen c) ->
  match ChainWrite next (st, h) (feeder.leaf_args c) with
  | Ok (st', h', _) => (good st' -> good st) /\ exists T', joined 1 T (TLeaf c) T' /\ holds st' h' T'
  | Err x => fails x
  end.
Proof.
  intros (lv & HR & Hs & Hfl & Hlv) HL Hc Hf. rewrite Hnext. unfold feeder.leaf_args.
  assert (Hshape : chunk_shape (zlen c) c) by (left; unfold fits in Hf; lia).
  destruct (short _ _) as [[st1 a]|x] eqn:E; cbn [mbind result_bind]; [|by eexists _, _, _].
  destruct (Hst _ _ _ _ _ E) as ([Esp El] & Hg & Hfin).
  set (e := (zlen c, default [] (Ref a) ++ Key a)).
  assert (He : stands st1 (TLeaf c) e).
  { split; [done|]. split; [cbn; by rewrite length_app|]. intros Hgood. constructor. apply Hfin; [|done].
    left. unfold fits in Hf. lia. }
  assert (Hok : hashtrie.entry_ok refSize e).
  { split; [|cbn; by rewrite length_app]. cbn. unfold fits in Hf. lia. }
  pose proof (hashtrie.ChainWrite_agree b refSize bufferSize short Hbuf Hb short_law st1 h lv e a HR Hs Hfl Hok Esp eq_refl) as Ha.
  cbn [ChainWrite hashtrie.writer].
  assert (Hnf : lv 8%nat = []).
  { pose proof (Hlv 8%nat ltac:(lia)) as H8. destruct (T 8%nat) as [|t0 ts] eqn:E8; [by inversion H8|]. exfalso.
    pose proof (flat_level T 1 8 8 ltac:(lia)) as Hz. rewrite E8, bind_cons, length_app in Hz.
    destruct (HL 8%nat ltac:(lia)) as [Hcs _]. rewrite E8 in Hcs. apply Forall_inv, complete_size in Hcs.
    change (zlen (flatten t0) = cap 7) in Hcs. unfold fits in Hf. lia. }
  unfold hashtrie.ChainWrite_lv in Ha. rewrite bool_decide_eq_false_2 in Ha by (rewrite Hnf; naive_solver).
  assert (HR1 : rep_levels 1 st1 T lv) by (intros j Hj; apply (stands_all st); [done|by apply Hlv]).
  assert (Hw : ws (1 - 1) (TLeaf c)) by (by constructor).
  pose proof (push_spec 8 1 st1 lv T (TLeaf c) e ltac:(lia) ltac:(lia) HL HR1 Hw He Hf) as Hp.
  destruct (hashtrie.ChainWrite _ _ _ _ _ _) as [[st2 h2]|x], (hashtrie.push _ _ _ _ _ _ _) as [[st2' lv2]|x'];
    cbn [mbind result_bind]; try done; [|by subst].
  destruct Ha as (-> & HR2 & Hs2 & Hf2), Hp as [Hg2 (T' & HJ & Hlv2)]. split; [by auto|].
  exists T'. split; [done|]. by exists lv2.
Qed.

(** Leaves of full size. *)
Lemma emit_full cs st h T : holds st h T -> levels_ok 1 T -> Forall (fun c => zlen c = C) cs ->
  fits (zlen (flat T 1 8) + zlen (mjoin cs)) ->
  match feeder.emit next (st, h) cs with
  | Ok (st', h') => (good st' -> good st) /\ exists T', holds st' h' T' /\ levels_ok 1 T' /\ flat T' 1 8 = flat T 1 8 ++ mjoin cs
  | Err x => fails x
  end.
Proof.
  intros Hh HL Hcs. revert st h T Hh HL. induction Hcs as [|c cs Hc _ IH]; intros st h T Hh HL Hf; cbn [feeder.emit].
  { split; [done|]. exists T. split_and!; [done|done|]. change (mjoin []) with ([] : bytes). by rewrite app_nil_r. }
  change (mjoin (c :: cs)) with (c ++ mjoin cs) in *. rewrite length_app in Hf.
  assert (Hf1 : fits (zlen (flat T 1 8) + zlen c)) by (unfold fits in *; lia).
  pose proof (leaf_step st h T c Hh HL ltac:(lia) Hf1) as Hl.
  destruct (ChainWrite next _ _) as [[[st1 h1] a]|x]; cbn [mbind result_bind]; [|done].
  destruct Hl as [Hg (T1 & HJ & Hh1)].
  assert (HL1 : levels_ok 1 T1) by (by apply (joined_levels_ok 1 T (TLeaf c))).
  destruct HJ as (i0 & t' & _ & _ & _ & _ & _ & _ & _ & Ef). change (9 - 1)%nat with 8%nat in Ef. cbn [flatten] in Ef.
  assert (Hf2 : fits (zlen (flat T1 1 8) + zlen (mjoin cs))) by (rewrite Ef, length_app; unfold fits in *; lia).
  specialize (IH st1 h1 T1 Hh1 HL1 Hf2). destruct (feeder.emit _ _ _) as [[st2 h2]|x]; [|done].
  destruct IH as [Hg2 (T2 & Hh2 & HL2 & Ef2)]. split; [by auto|]. exists T2. split_and!; [done|done|].
  by rewrite Ef2, Ef, app_assoc.
Qed.

Lemma holds_New st : holds st (hashtrie.NewHashTrieWriter bufferSize) (fun _ => []).
Proof.
  exists (fun _ => []). split_and!.
  - apply hashtrie.Rep_New.
  - intros i Hi. simpl. lia.
  - done.
  - intros j Hj. constructor.
Qed.

Lemma levels_New : levels_ok 1 (fun _ => []).
Proof. intros j Hj. split; [constructor|simpl; lia]. Qed.

Definition file_post (st : St) (data : bytes) (r : result pipeError (St * hashtrie.hashTrieWriter * bytes)) : Prop :=
  match r with
  | Ok (st', _, r) => (good st' -> good st) /\
      exists t, (ws 7 t \/ t = TLeaf [] /\ data = []) /\ flatten t = data /\ length r = refSize /\ (good st' -> den t r)
  | Err x => fails x
  end.

Lemma file_nonempty st cs c : Forall (fun c => zlen c = C) cs -> 0 < zlen c <= C -> fits (zlen (mjoin cs ++ c)) ->
  file_post st (mjoin cs ++ c)
    (sh ← feeder.emit next (st, hashtrie.NewHashTrieWriter bufferSize) (cs ++ [c]); Sum next sh).
Proof.
  intros Hcs Hc Hf. rewrite length_app in Hf.
  assert (E0 : flat (fun _ => []) 1 8 = []) by done.
  pose proof (emit_full cs st _ _ (holds_New st) levels_New Hcs) as He. rewrite E0 in He.
  rewrite feeder.emit_app. destruct (feeder.emit _ _ cs) as [[st1 h1]|x]; cbn [mbind result_bind].
  2: { apply He. unfold fits in *. simpl. lia. }
  destruct He as [Hg1 (T1 & Hh1 & HL1 & Ef1)]; [unfold fits in *; simpl; lia|]. cbn [app] in Ef1. cbn [feeder.emit].
  assert (Hf1 : fits (zlen (flat T1 1 8) + zlen c)) by (rewrite Ef1; unfold fits in *; lia).
  pose proof (leaf_step st1 h1 T1 c Hh1 HL1 Hc Hf1) as Hl.
  destruct (ChainWrite next _ _) as [[[st2 h2] a]|x]; cbn [mbind result_bind]; [|done].
  destruct Hl as [Hg2 (T2 & HJ & (lv & HR & Hs & _ & Hlv))]. pose proof (joined_ready _ _ _ _ HL1 HJ) as Hr.
  destruct HJ as (i0 & t' & _ & _ & _ & _ & _ & _ & _ & Ef2). change (9 - 1)%nat with 8%nat in Ef2. cbn [flatten] in Ef2.
  rewrite Ef1 in Ef2. rewrite HSum. cbn [Sum hashtrie.writer].
  pose proof (hashtrie.Sum_lv b refSize bufferSize short Hbuf Hb short_law st2 h2 lv HR Hs) as ES.
  pose proof (sum_spec 7 st2 lv T2 1 ltac:(lia) ltac:(lia) Hr Hlv) as Hsp.
  change (9 - 1)%nat with 8%nat in Hsp. rewrite Ef2, <- ES in Hsp. unfold sum_post in Hsp.
  destruct (hashtrie.Sum _ _ _ _ _) as [[[st3 h3] r]|x]; cbn [mbind result_bind] in Hsp.
  - destruct Hsp as [Hg3 (t & Hw & Efl & Hr')]; [rewrite length_app; unfold fits in *; lia|].
    split; [by auto|]. exists t. split; [by left|]. done.
  - apply Hsp. rewrite length_app. unfold fits in *. lia.
Qed.

(** A lone reference is carried to the top. *)
Lemma sum_alone n st lv i e : lv i = [e] -> (forall j, (i < j)%nat -> lv j = []) ->
  hashtrie.sum_lv b short n st lv i = Ok (st, e.2).
Proof.
  revert lv i. induction n as [|n IH]; intros lv i E Hj; cbn [hashtrie.sum_lv]; rewrite E; [done|].
  apply IH.
  - rewrite fn_lookup_insert, Hj by lia. done.
  - intros j Hl. rewrite !fn_lookup_insert_ne by lia. apply Hj. lia.
Qed.

Lemma file_empty st :
  file_post st [] (sh ← feeder.emit next (st, hashtrie.NewHashTrieWriter bufferSize) [[]]; Sum next sh).
Proof.
  cbn [feeder.emit]. rewrite Hnext. unfold feeder.leaf_args.
  destruct (short _ _) as [[st1 a]|x] eqn:E; cbn [mbind result_bind]; [|by exists st, 0, []; split; [left; cbn; lia|done]].
  destruct (Hst _ _ _ _ _ E) as ([Esp El] & Hg & Hfin).
  set (e := (0, default [] (Ref a) ++ Key a)). set (h := hashtrie.NewHashTrieWriter bufferSize) in *.
  assert (Hok : hashtrie.entry_ok refSize e) by (split; [done|cbn; by rewrite length_app]).
  assert (Hs0 : hashtrie.small b 1 (fun _ => [])) by (intros i Hi; simpl; lia).
  pose proof (hashtrie.ChainWrite_agree b refSize bufferSize short Hbuf Hb short_law st1 h (fun _ => []) e a
    (hashtrie.Rep_New _ _) Hs0 eq_refl Hok Esp eq_refl) as Ha.
  unfold hashtrie.ChainWrite_lv in Ha. rewrite bool_decide_eq_false_2 in Ha by naive_solver.
  cbn [hashtrie.push] in Ha. rewrite fn_lookup_insert in Ha. cbn [app length] in Ha.
  rewrite (proj2 (Nat.eqb_neq 1 b)) in Ha by lia.
  cbn [ChainWrite hashtrie.writer]. destruct (hashtrie.ChainWrite _ _ _ _ _ _) as [[st2 h2]|x]; [|done].
  destruct Ha as (-> & HR & Hs & _). cbn [mbind result_bind]. rewrite HSum. cbn [Sum hashtrie.writer].
  pose proof (hashtrie.Sum_lv b refSize bufferSize short Hbuf Hb short_law st1 h2 _ HR Hs) as ES.
  rewrite (sum_alone 7 st1 _ 1 e) in ES; [|by rewrite fn_lookup_insert|intros j Hj; by rewrite fn_lookup_insert_ne by lia].
  destruct (hashtrie.Sum _ _ _ _ _) as [[[st3 h3] r]|x]; cbn [mbind result_bind] in ES; [|done].
  injection ES as -> ->. split; [done|]. exists (TLeaf []). split_and!; [by right|done|cbn; by rewrite length_app|].
  intros Hgood. constructor. apply Hfin; [left; cbn; lia|done].
Qed.

(** The file [data], in any sequence of writes, becomes a tree over [data]; an
    error is an error of the short pipeline. *)
Lemma file_tree size st data : C = Z.of_nat size -> C < 2 ^ 64 -> fits (zlen data) ->
  file_post st data
    (sh ← feeder.emit next (st, hashtrie.NewHashTrieWriter bufferSize) (feeder.leaves size data); Sum next sh).
Proof.
  intros ES HC64 Hf. destruct (feeder.leaves_spec size) with (data := data) as (cs & c & -> & Ed & Hcs & Hc & Hne); [lia|].
  destruct (decide (data = [])) as [->|Hd].
  - destruct cs as [|c0 cs].
    + rewrite <- Ed. change (mjoin ([] ++ [c])) with (c ++ []) in *. rewrite app_nil_r in *. subst c. apply file_empty.
    + exfalso. apply Forall_inv in Hcs. apply (f_equal length) in Ed. change (mjoin ((c0 :: cs) ++ [c])) with (c0 ++ mjoin (cs ++ [c])) in Ed.
      rewrite length_app in Ed. simpl in Ed. lia.
  - specialize (Hne Hd). rewrite join_app in Ed. change (mjoin [c]) with (c ++ []) in Ed. rewrite app_nil_r in Ed.
    rewrite <- Ed in *. apply file_nonempty; [|destruct c; simpl in *; [done|lia]|done].
    eapply Forall_impl; [|exact Hcs]. cbn beta. intros x Hx. lia.
Qed.
End Tree.
