(* ===== verification/Joiner.v ===== *)
(** * The joiner (pkg/file/joiner)

    Reading a file back from its root reference: [ReadAt] descends from the root
    chunk to the leaves that hold the requested range.  The sizes of the
    subtrees are not stored; [subtrieSection] recovers them from the size of the
    node and the number of its references.

    The goroutines of [readAtOffset] write disjoint parts of the buffer and add
    to a counter; they are run here in the order in which they are started.  The
    capacity of a chunk's data is its length.  The theorems say what a reader
    gets from a tree of the shape the splitter makes, and that a chunk of less
    than one reference keeps [subtrieSection] in its loop forever. *)

From Stdlib Require Import ZArith Lia ZifyBool.
From stdpp Require Import base gmap list numbers.
From S2P Require Import Prelude Boson Encryption Pipeline HashTrie FileTree.

Open Scope Z_scope.

Inductive joinError :=
| EOF
| errGet (e : encError)
| ErrMalformedTrie
| errWhence
| errOffset
| errCanceled
| errFn
| errPanic.       (** slice bounds out of range *)

Record joiner := MkJoiner {
  jaddr : Address;
  rootData : bytes;
  jspan : Z;
  off : Z;
  jindex : Z;
  refLength : nat;
  dataChunks : list bytes;
  allowSaveData : bool;
  edgeChunks : gmap bytes bytes;
  allowSaveEdge : bool;
}.

(** The loop of [subtrieSection]; [None]: it does not end. *)
Fixpoint branch_size (fuel : nat) (refs branching subtrieSize branchSize : Z) : option Z :=
  let whatsLeft := i64 (subtrieSize - i64 (branchSize * i64 (refs - 1))) in
  if whatsLeft <=? branchSize then Some branchSize
  else
    match fuel with
    | O => None
    | S fuel => branch_size fuel refs branching subtrieSize (i64 (branchSize * branching))
    end.

Definition subtrieSection (fuel : nat) (data : bytes) (startIdx refLen : nat) (subtrieSize : Z) : option Z :=
  let refs := Z.of_nat (length data / refLen) in
  let branching := ChunkSize / Z.of_nat refLen in
  branchSize ← branch_size fuel refs branching subtrieSize ChunkSize;
  Some (if Z.of_nat startIdx =? (refs - 1) * Z.of_nat refLen
        then i64 (subtrieSize - i64 ((refs - 1) * branchSize)) else branchSize).

(** Rounds of the loop of [subtrieSection] that can change [branchSize]. *)
Definition sectionFuel : nat := 64.

Definition chunkToSpan (data : bytes) : Z := Uint64 (take 8 data).

Section Joiner.
Context (hash : bytes -> bytes).
(** The getter below the decrypting store; the flag is a cancelled context. *)
Context (getter : bool -> Address -> Z -> result encError bytes).

Definition get (done : bool) (a : Address) (idx : Z) : result joinError chunk :=
  match Get hash (fun a => getter done a idx) a with
  | Ok ch => Ok ch
  | Err e => Err (errGet e)
  end.

(** [New]; the data of a chunk without a span is sliced out of range. *)
Definition New (address : Address) (index : Z) : result joinError (joiner * Z) :=
  rootChunk ← get false address index;
  let chunkData := sdata rootChunk in
  if (length chunkData <? SpanSize)%nat then Err errPanic
  else
    let span := i64 (Uint64 (take SpanSize chunkData)) in
    Ok (MkJoiner (addr rootChunk) (drop SpanSize chunkData) span 0 index (length address) [] false ∅ false, span).

Definition GetRootData (j : joiner) : bytes := rootData j.

Definition SetSaveDataChunks (j : joiner) : joiner :=
  MkJoiner (jaddr j) (rootData j) (jspan j) (off j) (jindex j) (refLength j) [] true (edgeChunks j) (allowSaveEdge j).

Definition SetSaveEdgeChunks (j : joiner) (data : gmap bytes bytes) : joiner :=
  MkJoiner (jaddr j) (rootData j) (jspan j) (off j) (jindex j) (refLength j) (dataChunks j) (allowSaveData j) data true.

Definition GetDataChunks (j : joiner) : list bytes := dataChunks j.

Definition set_off (j : joiner) (o : Z) : joiner :=
  MkJoiner (jaddr j) (rootData j) (jspan j) o (jindex j) (refLength j) (dataChunks j) (allowSaveData j)
    (edgeChunks j) (allowSaveEdge j).

Definition Size (j : joiner) : Z := jspan j.

(** The leaf case of [readAtOffset]. *)
Definition read_leaf (b data : bytes) (cur off bufferOffset bytesToRead bytesRead : Z) : result joinError (bytes * Z) :=
  let dataOffsetStart := off - cur in
  let lenDataToCopy := zlen data - dataOffsetStart in
  let dataOffsetEnd := if lenDataToCopy <? bytesToRead then dataOffsetStart + lenDataToCopy else dataOffsetStart + bytesToRead in
  if (dataOffsetStart <? 0) || (dataOffsetEnd <? dataOffsetStart) || (zlen data <? dataOffsetEnd) then Err errPanic
  else
    let bs := slice (Z.to_nat dataOffsetStart) (Z.to_nat dataOffsetEnd) data in
    if (bufferOffset <? 0) || (zlen b <? bufferOffset + zlen bs) then Err errPanic
    else Ok (copy_at (Z.to_nat bufferOffset) bs b, bytesRead + zlen bs).

(** The loop of [readAtOffset] over the references from [cursor] on, [rd] being
    the call for a child; the loop takes at most a round per byte. *)
Fixpoint read_refs (rd : bytes -> bytes -> Z -> Z -> Z -> Z -> Z -> Z -> Z -> Z -> option (result joinError (bytes * Z)))
    (n : nat) (j : joiner) (b data : bytes) (cursor : nat)
    (index lastIndex cur subTrieSize off bufferOffset bytesToRead bytesRead : Z) : option (result joinError (bytes * Z)) :=
  if (cursor <? length data)%nat then
    if bytesToRead =? 0 then Some (Ok (b, bytesRead))
    else
      match n with
      | O => None
      | S n =>
          sec ← subtrieSection sectionFuel data cursor (refLength j) subTrieSize;
          if cur + sec <? off then
            read_refs rd n j b data (cursor + refLength j) index lastIndex (cur + sec) subTrieSize off bufferOffset bytesToRead bytesRead
          else if (length data <? cursor + refLength j)%nat then Some (Err errPanic)
          else
            let address := slice cursor (cursor + refLength j) data in
            let currentReadSize := sec - (off - cur) in
            let currentReadSize := if bytesToRead <? currentReadSize then bytesToRead else currentReadSize in
            let currentReadSize := if sec <? currentReadSize then sec else currentReadSize in
            let chunkIndex := Z.of_nat (cursor / refLength j) in
            let index' := i64 (lastIndex + 1 + index * Branches + chunkIndex) in
            let lastIndex' := Z.of_nat (length data / refLength j) in
            r ← match get false address (i64 (index' + jindex j)) with
                | Err e => Some (Err e)
                | Ok ch =>
                    if (length (sdata ch) <? 8)%nat then Some (Err errPanic)
                    else
                      let subtrieSpan := i64 (chunkToSpan (sdata ch)) in
                      if sec <? subtrieSpan then Some (Err ErrMalformedTrie)
                      else rd b (drop 8 (sdata ch)) index' lastIndex' cur subtrieSpan off bufferOffset currentReadSize bytesRead
                end;
            match r with
            | Err e => Some (Err e)
            | Ok (b, bytesRead) =>
                read_refs rd n j b data (cursor + refLength j) index lastIndex (cur + sec) subTrieSize (cur + sec)
                  (bufferOffset + currentReadSize) (bytesToRead - currentReadSize) bytesRead
            end
      end
  else Some (Ok (b, bytesRead)).

(** [fuel]: the levels below. *)
Fixpoint readAtOffset (fuel : nat) (j : joiner) (b data : bytes)
    (index lastIndex cur subTrieSize off bufferOffset bytesToRead bytesRead : Z) : option (result joinError (bytes * Z)) :=
  if subTrieSize <=? zlen data then Some (read_leaf b data cur off bufferOffset bytesToRead bytesRead)
  else
    match fuel with
    | O => None
    | S fuel =>
        read_refs (readAtOffset fuel j) (length data) j b data 0 index lastIndex cur subTrieSize off bufferOffset bytesToRead bytesRead
    end.

(** The levels of a trie of the splitter. *)
Definition maxDepth : nat := 8.

(** [buffer] is the underlying array up to its capacity. *)
Definition ReadAt (j : joiner) (buffer : bytes) (off : Z) : option (result joinError (bytes * Z)) :=
  if jspan j <=? off then Some (Err EOF)
  else
    let readLen := zlen buffer in
    let readLen := if jspan j - off <? readLen then jspan j - off else readLen in
    readAtOffset maxDepth j buffer (rootData j) 0 0 0 (jspan j) off 0 readLen 0.

Definition Read (j : joiner) (b : bytes) : option (result joinError (joiner * bytes * Z)) :=
  r ← ReadAt j b (off j);
  Some match r with
       | Err e => Err e
       | Ok (b, read) => Ok (set_off j (off j + read), b, read)
       end.

Definition Seek (j : joiner) (offset whence : Z) : result joinError (joiner * Z) :=
  offset ← (if whence =? 0 then Ok offset
            else if whence =? 1 then Ok (offset + off j)
            else if whence =? 2 then if jspan j - offset <? 0 then Err EOF else Ok (jspan j - offset)
            else Err errWhence);
  if offset <? 0 then Err errOffset
  else if jspan j <? offset then Err EOF
  else Ok (set_off j offset, offset).

(** ** Chunk addresses

    [fn] is the callback with its state.  The goroutine of a child is waited for
    before the next one starts; an error cancels the context of the group, but
    the loop goes on. *)
Context {F : Type} (fn : F -> Address -> F + joinError).

Definition save_data (j : joiner) (a : bytes) : joiner :=
  if allowSaveData j then
    MkJoiner (jaddr j) (rootData j) (jspan j) (off j) (jindex j) (refLength j) (dataChunks j ++ [a]) (allowSaveData j)
      (edgeChunks j) (allowSaveEdge j)
  else j.

Definition save_edge (j : joiner) (a d : bytes) (subtrieSpan : Z) : joiner :=
  if allowSaveEdge j && (zlen (drop 8 d) <? subtrieSpan) then
    MkJoiner (jaddr j) (rootData j) (jspan j) (off j) (jindex j) (refLength j) (dataChunks j) (allowSaveData j)
      (<[a := d]> (edgeChunks j)) (allowSaveEdge j)
  else j.

Fixpoint process_refs (proc : bool -> joiner -> F -> bytes -> Z -> Z -> Z -> option (joiner * F * option joinError))
    (n : nat) (j : joiner) (f : F) (data : bytes) (cursor : nat) (index lastIndex subTrieSize : Z) (err : option joinError) :
    option (joiner * F * option joinError) :=
  if (cursor <? length data)%nat then
    match n with
    | O => None
    | S n =>
        if (length data <? cursor + refLength j)%nat then Some (j, f, Some errPanic)
        else
          let address := slice cursor (cursor + refLength j) data in
          match fn f address with
          | inr e => Some (j, f, Some e)
          | inl f =>
              sec ← subtrieSection sectionFuel data cursor (refLength j) subTrieSize;
              if sec <=? ChunkSize then
                process_refs proc n (save_data j address) f data (cursor + refLength j) index lastIndex subTrieSize err
              else
                let done := match err with Some _ => true | None => false end in
                let chunkIndex := Z.of_nat (cursor / refLength j) in
                let index' := i64 (lastIndex + 1 + index * Branches + chunkIndex) in
                let lastIndex' := if index' =? 2 then 0 else Z.of_nat (length data / refLength j) in
                '(j, f, e) ←
                  match get done address index' with
                  | Err e => Some (j, f, Some e)
                  | Ok ch =>
                      if (length (sdata ch) <? 8)%nat then Some (j, f, Some errPanic)
                      else
                        let subtrieSpan := i64 (chunkToSpan (sdata ch)) in
                        proc done (save_edge j address (sdata ch) subtrieSpan) f (drop 8 (sdata ch)) index' lastIndex' subtrieSpan
                  end;
                let err := match err with Some e => Some e | None => e end in
                process_refs proc n j f data (cursor + refLength j) index lastIndex subTrieSize err
          end
    end
  else Some (j, f, err).

Fixpoint processChunkAddresses (fuel : nat) (done : bool) (j : joiner) (f : F) (data : bytes)
    (index lastIndex subTrieSize : Z) : option (joiner * F * option joinError) :=
  if subTrieSize <=? zlen data then Some (save_data j (jaddr j), f, None)
  else if done then Some (j, f, Some errCanceled)
  else
    match fuel with
    | O => None
    | S fuel =>
        process_refs (processChunkAddresses fuel) (length data) j f data 0 index lastIndex subTrieSize None
    end.

Definition IterateChunkAddresses (j : joiner) (f : F) : option (joiner * F * option joinError) :=
  match fn f (jaddr j) with
  | inr e => Some (j, f, Some e)
  | inl f => processChunkAddresses maxDepth false j f (rootData j) 0 0 (jspan j)
  end.

(** Reading in blocks of [k] bytes until the end of the file, as [io.Copy] does. *)
Fixpoint read_all (fuel : nat) (k : nat) (j : joiner) : option (result joinError bytes) :=
  match fuel with
  | O => None
  | S fuel =>
      r ← Read j (replicate k 0);
      match r with
      | Err EOF => Some (Ok [])
      | Err e => Some (Err e)
      | Ok (j, b, n) =>
          rest ← read_all fuel k j;
          Some (rest ← rest; Ok (take (Z.to_nat n) b ++ rest))
      end
  end.
End Joiner.

(** * Ranges and references *)

Lemma chunkToSpan_spec s p : 0 <= s < 2 ^ 63 -> i64 (chunkToSpan (PutUint64 s ++ p)) = s.
Proof.
  intros Hs. unfold chunkToSpan. rewrite (take_app_length' (PutUint64 s)) by (by rewrite length_PutUint64).
  rewrite <- (app_nil_r (PutUint64 s)), Uint64_PutUint64 by lia. apply i64_small. lia.
Qed.

Lemma length_refs (R : nat) (rs : list bytes) : Forall (fun r => length r = R) rs -> length (mjoin rs) = (length rs * R)%nat.
Proof.
  induction 1 as [|r rs Hr _ IH]; [done|]. change (mjoin (r :: rs)) with (r ++ mjoin rs).
  rewrite length_app, IH, Hr. simpl. lia.
Qed.

Lemma slice_refs (R : nat) (rs : list bytes) i r : Forall (fun r => length r = R) rs -> rs !! i = Some r ->
  slice (i * R) (i * R + R) (mjoin rs) = r.
Proof.
  intros Hf Hi. rewrite <- (take_drop_middle rs i r Hi) at 1. rewrite join_app.
  change (mjoin (r :: drop (S i) rs)) with (r ++ mjoin (drop (S i) rs)).
  assert (E : length (mjoin (take i rs)) = (i * R)%nat).
  { rewrite (length_refs R) by (by apply Forall_take). rewrite length_take. apply lookup_lt_Some in Hi. lia. }
  unfold slice. rewrite drop_app_length' by done. apply take_app_length'.
  pose proof (Forall_lookup_1 _ _ _ _ Hf Hi) as Hr. cbn beta in Hr. lia.
Qed.

(** A range of a concatenation. *)
Lemma slice_split (u v : bytes) (o m : nat) : (o <= length u)%nat ->
  slice o (o + m) (u ++ v) = slice o (o + (m `min` (length u - o))) u ++ slice 0 (m - (length u - o)) v.
Proof.
  intros Ho. unfold slice. replace (o + m - o)%nat with m by lia.
  replace (o + m `min` (length u - o) - o)%nat with (m `min` (length u - o))%nat by lia.
  rewrite drop_app_le, take_app, length_drop by done. f_equal.
  - rewrite <- (take_ge (drop o u) (length u - o)) at 1 by (rewrite length_drop; lia). by rewrite take_take.
  - by rewrite drop_0, Nat.sub_0_r.
Qed.

Lemma slice_skip (u v : bytes) (o m : nat) : (length u <= o)%nat ->
  slice o (o + m) (u ++ v) = slice (o - length u) (o - length u + m) v.
Proof. intros Ho. unfold slice. rewrite drop_app_ge by done. f_equal. lia. Qed.

Lemma length_slice {A} i j (l : list A) : (j <= length l)%nat -> length (slice i j l) = (j - i)%nat.
Proof. intros. unfold slice. rewrite length_take, length_drop. lia. Qed.

Lemma copy_at_nil {A} i (d : list A) : copy_at i [] d = d.
Proof. unfold copy_at. cbn [length]. rewrite take_nil, Nat.add_0_r. apply take_drop. Qed.

Lemma read_leaf_spec d bf cur off bo m br : 0 <= off - cur -> 0 <= m -> off - cur + m <= zlen d -> 0 <= bo -> bo + m <= zlen bf ->
  read_leaf bf d cur off bo m br =
    Ok (copy_at (Z.to_nat bo) (slice (Z.to_nat (off - cur)) (Z.to_nat (off - cur) + Z.to_nat m) d) bf, br + m).
Proof.
  intros H1 H2 H3 H4 H5. unfold read_leaf.
  rewrite (proj2 (Z.ltb_ge (zlen d - (off - cur)) m)) by lia.
  rewrite (proj2 (Z.ltb_ge (off - cur) 0)), (proj2 (Z.ltb_ge (off - cur + m) (off - cur))), (proj2 (Z.ltb_ge (zlen d) _)) by lia.
  cbn [orb]. replace (Z.to_nat (off - cur + m)) with (Z.to_nat (off - cur) + Z.to_nat m)%nat by lia.
  assert (El : length (slice (Z.to_nat (off - cur)) (Z.to_nat (off - cur) + Z.to_nat m) d) = Z.to_nat m).
  { rewrite length_slice by lia. lia. }
  rewrite El. rewrite (proj2 (Z.ltb_ge bo 0)), (proj2 (Z.ltb_ge (zlen bf) _)) by lia. cbn [orb]. do 3 f_equal. lia.
Qed.

(** * Section sizes *)

Section Sections.
Context (R b : nat) (HR : (0 < R)%nat) (Hb : (1 < b)%nat) (HRb : Z.of_nat R * Z.of_nat b = ChunkSize).

Abbreviation cap := (cap ChunkSize b).

Lemma branching_eq : ChunkSize / Z.of_nat R = Z.of_nat b.
Proof. rewrite <- HRb, Z.mul_comm. apply Z.div_mul. lia. Qed.

Lemma ChunkSize_pos : 0 < ChunkSize.
Proof. done. Qed.

(** The loop finds the height of the complete children. *)
Lemma branch_size_spec fuel n g h s : 2 <= n -> (g <= h <= g + fuel)%nat ->
  (n - 1) * cap h < s <= n * cap h -> s < 2 ^ 63 ->
  branch_size fuel n (Z.of_nat b) s (cap g) = Some (cap h).
Proof.
  intros Hn. revert g. induction fuel as [|fuel IH]; intros g Hg Hs Hlt.
  all: pose proof (cap_pos _ _ ChunkSize_pos Hb g) as Hpos; pose proof (cap_mono _ _ ChunkSize_pos Hb g h ltac:(lia)) as Hm.
  all: cbn [branch_size]; rewrite (i64_small (n - 1)), (i64_small (cap g * (n - 1))), (i64_small (s - _)) by nia.
  - assert (g = h) as -> by lia. by rewrite (proj2 (Z.leb_le _ _)) by nia.
  - destruct (decide (g = h)) as [->|Hne]; [by rewrite (proj2 (Z.leb_le _ _)) by nia|].
    pose proof (cap_mono _ _ ChunkSize_pos Hb (S g) h ltac:(lia)) as Hm'. rewrite (cap_S _ _ Hb) in Hm'.
    rewrite (proj2 (Z.leb_gt _ _)) by nia. rewrite i64_small by nia.
    rewrite (Z.mul_comm (cap g)), <- (cap_S _ _ Hb). apply IH; [lia|done..].
Qed.

(** The section of a child is its size. *)
Lemma subtrieSection_spec data h ts t i u : ts <> [] -> (length ts < b)%nat -> Forall (complete ChunkSize b h) ts ->
  ws ChunkSize b h t -> (h <= sectionFuel)%nat -> size (TNode (ts ++ [t])) < 2 ^ 63 ->
  length data = (length (ts ++ [t]) * R)%nat -> (ts ++ [t]) !! i = Some u ->
  subtrieSection sectionFuel data (i * R) R (size (TNode (ts ++ [t]))) = Some (size u).
Proof.
  intros Hne Hl Hc Hw Hh Hlt Hd Hi. unfold subtrieSection. rewrite Hd, Nat.div_mul, branching_eq by lia.
  pose proof (node_size _ _ Hb _ _ t Hc) as Hs. pose proof (ws_size _ _ ChunkSize_pos Hb _ _ Hw) as Hws.
  pose proof (cap_pos _ _ ChunkSize_pos Hb h) as Hpos. rewrite length_app in *. cbn [length] in *.
  assert (0 < length ts)%nat by (destruct ts; [done|simpl; lia]).
  assert (E0 : ChunkSize = cap 0) by (unfold FileTree.cap; rewrite Z.pow_0_r; lia). rewrite E0 at 1.
  rewrite (branch_size_spec _ _ 0 h) by (lia || nia). cbn [mbind option_bind]. f_equal.
  apply lookup_lt_Some in Hi as Hil. rewrite length_app in Hil. cbn [length] in Hil.
  replace (Z.of_nat (length ts + 1) - 1) with (zlen ts) by lia.
  destruct (decide (i = length ts)) as [->|Hil'].
  - rewrite (proj2 (Z.eqb_eq _ _)) by lia. rewrite lookup_app_r, Nat.sub_diag in Hi by lia. injection Hi as ->.
    assert (0 <= zlen ts * cap h) by nia. rewrite (i64_small (zlen ts * cap h)) by lia. rewrite i64_small; lia.
  - rewrite (proj2 (Z.eqb_neq _ _)) by nia. rewrite lookup_app_l in Hi by lia.
    apply (Forall_lookup_1 _ _ _ _ Hc), (complete_size _ _ Hb) in Hi. done.
Qed.

(** * Reading a tree *)

Context (hash : bytes -> bytes) (getter : bool -> Address -> Z -> result encError bytes).
Context (getter0 : Address -> result encError bytes) (Hget : forall d a i, getter d a i = getter0 a).

(** What the decrypting store returns for a reference. *)
Definition final (r : bytes) : option bytes :=
  match Get hash getter0 r with Ok ch => Some (sdata ch) | Err _ => None end.

Abbreviation den := (den R final).

Definition payload_of (t : tree) (p : bytes) : Prop :=
  match t with
  | TLeaf d => p = d
  | TNode ts => exists rs, p = mjoin rs /\ Forall2 den ts rs /\ Forall (fun r => length r = R) rs
  end.

Lemma Get_ext g1 g2 r : (forall a, g1 a = g2 a) -> Get hash g1 r = Get hash g2 r.
Proof. intros H. unfold Get. by rewrite !H. Qed.

Lemma get_final d r i x : final r = Some x -> exists ch, get hash getter d r i = Ok ch /\ sdata ch = x.
Proof.
  unfold final, get. intros Hf. rewrite (Get_ext _ getter0) by (intros a; apply Hget).
  destruct (Get hash getter0 r) as [ch|e]; [|done]. injection Hf as <-. by exists ch.
Qed.

Lemma den_payload t r : den t r -> exists p, final r = Some (PutUint64 (size t) ++ p) /\ payload_of t p.
Proof.
  intros H. inversion H as [d r' Hf|ts rs r' Hf Hr Hl]; subst; [by exists d|]. exists (mjoin rs). split; [done|]. by exists rs.
Qed.

(** [rd] reads the range [off, off + m) of the subtree [u] that starts at [cur]
    into the buffer at [bo]. *)
Definition reads (rd : bytes -> bytes -> Z -> Z -> Z -> Z -> Z -> Z -> Z -> Z -> option (result joinError (bytes * Z)))
    (u : tree) : Prop :=
  forall p bf idx li cur off bo m br, payload_of u p -> 0 <= off - cur -> 0 <= m -> off - cur + m <= size u ->
    0 <= bo -> bo + m <= zlen bf ->
    rd bf p idx li cur (size u) off bo m br =
      Some (Ok (copy_at (Z.to_nat bo) (slice (Z.to_nat (off - cur)) (Z.to_nat (off - cur) + Z.to_nat m) (flatten u)) bf, br + m)).

(** The loop over the references of a node. *)
Lemma read_refs_spec rd j h ts t rs : refLength j = R -> ts <> [] -> (length ts < b)%nat ->
  Forall (complete ChunkSize b h) ts -> ws ChunkSize b h t -> (h <= sectionFuel)%nat ->
  size (TNode (ts ++ [t])) < 2 ^ 63 -> Forall2 den (ts ++ [t]) rs -> Forall (fun r => length r = R) rs ->
  (forall u, u ∈ ts ++ [t] -> reads rd u) ->
  forall rem pre n bf idx li cur off bo m br, ts ++ [t] = pre ++ rem -> (length rem <= n)%nat ->
    0 <= off - cur -> 0 <= m -> off - cur + m <= size (TNode rem) -> 0 <= bo -> bo + m <= zlen bf ->
    read_refs hash getter rd n j bf (mjoin rs) (length pre * R) idx li cur (size (TNode (ts ++ [t]))) off bo m br =
      Some (Ok (copy_at (Z.to_nat bo)
        (slice (Z.to_nat (off - cur)) (Z.to_nat (off - cur) + Z.to_nat m) (flatten (TNode rem))) bf, br + m)).
Proof.
  intros HRj Hne Hl Hc Hw Hh Hlt Hden Hrl Hrd. pose proof (Forall2_length Hden) as Elen.
  induction rem as [|u rem IH]; intros pre n bf idx li cur off bo m br E Hn H1 H2 H3 H4 H5.
  { assert (m = 0) as -> by (change (size (TNode [])) with 0 in H3; lia). rewrite app_nil_r in E.
    assert (Hfl : (length pre * R <? length (mjoin rs))%nat = false).
    { apply Nat.ltb_ge. rewrite (length_refs R) by done. rewrite <- Elen, E. lia. }
    destruct n; cbn [read_refs]; rewrite Hfl; unfold slice; rewrite Nat.add_0_r, Nat.sub_diag, take_0, copy_at_nil, Z.add_0_r; done. }
  cbn [length] in Hn. destruct n as [|n]; [lia|]. cbn [read_refs].
  assert (Hi : (ts ++ [t]) !! length pre = Some u) by (rewrite E, lookup_app_r, Nat.sub_diag by lia; done).
  assert (Eln : length (ts ++ [t]) = (length pre + S (length rem))%nat) by (rewrite E, length_app; done).
  rewrite (proj2 (Nat.ltb_lt _ _)) by (rewrite (length_refs R) by done; nia).
  destruct (Z.eqb_spec m 0) as [->|Hm0].
  { unfold slice. by rewrite Nat.add_0_r, Nat.sub_diag, take_0, copy_at_nil, Z.add_0_r. }
  rewrite HRj. rewrite (subtrieSection_spec _ h ts t (length pre) u) by (try done; rewrite (length_refs R) by done; lia).
  cbn [mbind option_bind]. rewrite size_cons in H3. assert (E' : ts ++ [t] = (pre ++ [u]) ++ rem) by (rewrite E, <- app_assoc; done).
  assert (Ecur : (length pre * R + R)%nat = (length (pre ++ [u]) * R)%nat) by (rewrite length_app; simpl; lia).
  assert (Efl : flatten (TNode (u :: rem)) = flatten u ++ flatten (TNode rem)) by done. rewrite Efl.
  assert (Hzu : size u = zlen (flatten u)) by done.
  destruct (Z.ltb_spec (cur + size u) off) as [Hskip|Hin].
  { rewrite Ecur, (IH (pre ++ [u])) by (done || lia). rewrite slice_skip by lia. do 6 f_equal; lia. }
  rewrite (proj2 (Nat.ltb_ge _ _)) by (rewrite (length_refs R) by done; nia).
  destruct (Forall2_lookup_l _ _ _ _ _ Hden Hi) as (r & Hr & Hdu).
  rewrite (slice_refs R rs (length pre) r Hrl Hr).
  destruct (den_payload _ _ Hdu) as (p & Hfin & Hp). cbn zeta.
  set (c1 := if m <? size u - (off - cur) then m else size u - (off - cur)).
  assert (Hc1 : c1 = m `min` (size u - (off - cur))) by (unfold c1; case_match; lia).
  assert (Ec : (if size u <? c1 then size u else c1) = c1) by (case_match; lia). rewrite Ec. clearbody c1.
  match goal with |- context [get hash getter false r ?i] => destruct (get_final false r i _ Hfin) as (ch & -> & ->) end.
  rewrite (proj2 (Nat.ltb_ge _ _)) by (rewrite length_app, length_PutUint64; lia).
  assert (Hus : size u <= size (TNode (ts ++ [t]))).
  { rewrite E. unfold size. rewrite flatten_node, bind_app, bind_cons, !length_app. lia. }
  rewrite chunkToSpan_spec by (pose proof (size_nonneg u); lia). rewrite (proj2 (Z.ltb_ge _ _)) by lia.
  rewrite (drop_app_length' (PutUint64 _)) by (by rewrite length_PutUint64).
  rewrite (Hrd u) by (try done; try lia; rewrite E; set_solver). cbn [mbind option_bind].
  pose proof (size_nonneg (TNode rem)) as Hnn. assert (Hzr : size (TNode rem) = zlen (flatten (TNode rem))) by done.
  rewrite Ecur, (IH (pre ++ [u])) by (try done; try rewrite length_copy_at; lia). rewrite Z.sub_diag. change (Z.to_nat 0) with 0%nat.
  assert (Hls : length (slice (Z.to_nat (off - cur)) (Z.to_nat (off - cur) + Z.to_nat c1) (flatten u)) = Z.to_nat c1).
  { rewrite length_slice by lia. lia. }
  rewrite slice_split by lia. do 3 f_equal; [|lia].
  replace (Z.to_nat (bo + c1)) with (Z.to_nat bo + Z.to_nat c1)%nat by lia. rewrite <- Hls at 1.
  rewrite hashtrie.copy_at_app by (rewrite Hls, length_slice by lia; lia).
  do 2 f_equal; f_equal; lia.
Qed.

Lemma read_spec h fuel j t : refLength j = R -> (h <= fuel)%nat -> (h <= sectionFuel)%nat ->
  ws ChunkSize b h t -> size t < 2 ^ 63 -> reads (readAtOffset hash getter fuel j) t.
Proof.
  intros HRj. revert fuel t. induction h as [h IH] using lt_wf_ind. intros fuel t Hf Hs Hw Hlt.
  intros p bf idx li cur off bo m br Hp H1 H2 H3 H4 H5.
  pose proof (ws_size _ _ ChunkSize_pos Hb _ _ Hw) as Hsz. inversion Hw as [h0 d Hd|h0 h' ts t' Hne Hl Hc Hw' Hh]; subst.
  - cbn [payload_of] in Hp. subst p. destruct fuel; cbn [readAtOffset]; rewrite (proj2 (Z.leb_le _ _)) by (unfold size; cbn; lia);
      f_equal; apply read_leaf_spec; try done; unfold size in H3; cbn in H3; lia.
  - destruct Hp as (rs & -> & Hden & Hrl). destruct fuel as [|fuel]; [lia|]. cbn [readAtOffset].
    pose proof (Forall2_length Hden) as Elen. pose proof (node_size _ _ Hb _ _ t' Hc) as En.
    pose proof (cap_mono _ _ ChunkSize_pos Hb 0 h' ltac:(lia)) as Hcap.
    assert (E0 : FileTree.cap ChunkSize b 0 = ChunkSize) by (unfold FileTree.cap; rewrite Z.pow_0_r; lia).
    pose proof (ws_size _ _ ChunkSize_pos Hb _ _ Hw') as Hsz'.
    rewrite (proj2 (Z.leb_gt _ _)).
    2: { rewrite (length_refs R) by done. rewrite <- Elen, length_app. simpl. destruct ts; [done|]. cbn [length] in *. nia. }
    apply (read_refs_spec _ j h' ts t' rs) with (pre := []); try done; try lia.
    + intros u Hu. destruct (list_elem_of_split _ _ Hu) as (l1 & l2 & Eu).
      assert (size u <= size (TNode (ts ++ [t']))).
      { rewrite Eu. unfold size. rewrite flatten_node, bind_app, bind_cons, !length_app. lia. }
      apply (IH h'); [lia|lia|lia| |lia]. apply elem_of_app in Hu as [Hu|Hu].
      * apply list_elem_of_lookup in Hu as [i Hi]. apply complete_ws; [done|done|]. exact (Forall_lookup_1 _ _ _ _ Hc Hi).
      * apply list_elem_of_singleton in Hu as ->. done.
    + rewrite (length_refs R) by done. rewrite <- Elen. nia.
Qed.

(** A joiner opened on the tree [t]. *)
Record opened (j : joiner) (t : tree) : Prop := {
  o_payload : payload_of t (rootData j);
  o_span : jspan j = size t;
  o_ref : refLength j = R;
  o_ws : ws ChunkSize b 7 t \/ t = TLeaf [];
  o_size : size t < 2 ^ 63;
}.

Lemma New_spec t r idx : den t r -> length r = R -> ws ChunkSize b 7 t \/ t = TLeaf [] -> size t < 2 ^ 63 ->
  exists j, New hash getter r idx = Ok (j, size t) /\ opened j t /\ off j = 0.
Proof.
  intros Hd Hr Hw Hlt. destruct (den_payload _ _ Hd) as (p & Hf & Hp). unfold New.
  destruct (get_final false r idx _ Hf) as (ch & -> & Es). cbn [mbind result_bind]. rewrite Es.
  rewrite (proj2 (Nat.ltb_ge _ _)) by (rewrite length_app, length_PutUint64; unfold SpanSize; lia).
  pose proof (size_nonneg t). pose proof (chunkToSpan_spec (size t) p ltac:(lia)) as Ec.
  unfold chunkToSpan in Ec. change SpanSize with 8%nat. rewrite Ec. eexists. split; [done|]. split; [|done].
  split; cbn [rootData jspan refLength]; done.
Qed.

Lemma ReadAt_spec j t buf o : opened j t -> 0 <= o ->
  ReadAt hash getter j buf o =
    if size t <=? o then Some (Err EOF)
    else
      let m := zlen buf `min` (size t - o) in
      Some (Ok (copy_at 0 (slice (Z.to_nat o) (Z.to_nat o + Z.to_nat m) (flatten t)) buf, m)).
Proof.
  intros [Hp Es Hr Hw Hlt] Ho. unfold ReadAt. rewrite Es. case_match eqn:El; [done|]. apply Z.leb_gt in El.
  destruct Hw as [Hw| ->]; [|change (size (TLeaf [])) with 0 in El; lia].
  set (m := zlen buf `min` (size t - o)). replace (if _ <? _ then _ else _) with m by (subst m; case_match; lia).
  rewrite (read_spec 7 maxDepth j t Hr ltac:(unfold maxDepth; lia) ltac:(unfold sectionFuel; lia) Hw Hlt) by (done || lia).
  rewrite Z.sub_0_r. done.
Qed.

Lemma opened_set_off j t o : opened j t -> opened (set_off j o) t.
Proof. intros [? ? ? ? ?]. by split. Qed.

Lemma read_all_spec fuel k j t : opened j t -> (0 < k)%nat -> 0 <= off j -> (length (drop (Z.to_nat (off j)) (flatten t)) < fuel)%nat ->
  read_all hash getter fuel k j = Some (Ok (drop (Z.to_nat (off j)) (flatten t))).
Proof.
  intros Ho Hk. revert j Ho. induction fuel as [|fuel IH]; intros j Ho Hoff Hf; [lia|]. cbn [read_all].
  unfold Read. rewrite (ReadAt_spec j t) by done. rewrite length_drop in Hf. assert (Ez : size t = zlen (flatten t)) by done.
  case_match eqn:El; cbn [mbind option_bind].
  { apply Z.leb_le in El. by rewrite drop_ge by lia. }
  apply Z.leb_gt in El. rewrite length_replicate. set (m := Z.of_nat k `min` (size t - off j)).
  rewrite IH; [|by apply opened_set_off|cbn; lia|cbn [off set_off]; rewrite length_drop; lia].
  cbn [mbind option_bind result_bind off set_off]. do 2 f_equal.
  assert (Hls : length (slice (Z.to_nat (off j)) (Z.to_nat (off j) + Z.to_nat m) (flatten t)) = Z.to_nat m).
  { rewrite length_slice by lia. lia. }
  assert (Et : take (Z.to_nat m) (copy_at 0 (slice (Z.to_nat (off j)) (Z.to_nat (off j) + Z.to_nat m) (flatten t)) (replicate k 0)) =
    slice (Z.to_nat (off j)) (Z.to_nat (off j) + Z.to_nat m) (flatten t)).
  { unfold copy_at. rewrite take_0, length_replicate. cbn [app].
    rewrite (take_ge (slice _ _ _) (k - 0)) by (rewrite Hls; lia). apply take_app_length'. lia. }
  rewrite Et. unfold slice. replace (Z.to_nat (off j) + Z.to_nat m - Z.to_nat (off j))%nat with (Z.to_nat m) by lia.
  replace (Z.to_nat (off j + m)) with (Z.to_nat (off j) + Z.to_nat m)%nat by lia. rewrite <- drop_drop. apply take_drop.
Qed.

(** ** Walking over the references *)

(** The references below a node with payload [p], parents before children. *)
Fixpoint refs_of (t : tree) (p : bytes) : list bytes :=
  match t with
  | TLeaf _ => []
  | TNode ts =>
      (fix go ts p :=
         match ts with
         | [] => []
         | u :: ts => take R p :: refs_of u (drop 8 (default [] (final (take R p)))) ++ go ts (drop R p)
         end) ts p
  end.

(** Those of the leaves among them. *)
Fixpoint leaf_refs (t : tree) (r p : bytes) : list bytes :=
  match t with
  | TLeaf _ => [r]
  | TNode ts =>
      (fix go ts p :=
         match ts with
         | [] => []
         | u :: ts => leaf_refs u (take R p) (drop 8 (default [] (final (take R p)))) ++ go ts (drop R p)
         end) ts p
  end.

Definition visit (f : list bytes) (a : Address) : list bytes + joinError := inl (f ++ [a]).

(** [j'] is [j] with the references [ls] saved as data chunks. *)
Definition saved (j j' : joiner) (ls : list bytes) : Prop :=
  refLength j' = refLength j /\ allowSaveData j' = allowSaveData j /\
  dataChunks j' = dataChunks j ++ (if allowSaveData j then ls else []).

Lemma saved_trans j1 j2 j3 l1 l2 : saved j1 j2 l1 -> saved j2 j3 l2 -> saved j1 j3 (l1 ++ l2).
Proof.
  intros (A1 & A2 & A3) (B1 & B2 & B3). unfold saved. rewrite B1, B2, B3, A1, A2, A3. split_and!; try done.
  rewrite <- app_assoc. by destruct (allowSaveData j1).
Qed.

Lemma saved_data j a : saved j (save_data j a) [a].
Proof. unfold saved, save_data. destruct (allowSaveData j) eqn:E; cbn; rewrite ?E, ?app_nil_r; done. Qed.

Lemma saved_edge j a d s : saved j (save_edge j a d s) [].
Proof. unfold saved, save_edge. case_match; cbn; destruct (allowSaveData j); by rewrite app_nil_r. Qed.

Definition walks (proc : bool -> joiner -> list bytes -> bytes -> Z -> Z -> Z -> option (joiner * list bytes * option joinError))
    (u : tree) : Prop :=
  forall p j f idx li r, payload_of u p -> refLength j = R -> ChunkSize < size u ->
    exists j', proc false j f p idx li (size u) = Some (j', f ++ refs_of u p, None) /\ saved j j' (leaf_refs u r p).

Lemma process_refs_spec proc h ts t rs : ts <> [] -> (length ts < b)%nat ->
  Forall (complete ChunkSize b h) ts -> ws ChunkSize b h t -> (h <= sectionFuel)%nat ->
  size (TNode (ts ++ [t])) < 2 ^ 63 -> Forall2 den (ts ++ [t]) rs -> Forall (fun r => length r = R) rs ->
  (forall u, u ∈ ts ++ [t] -> walks proc u /\ (size u <= ChunkSize -> exists d, u = TLeaf d)) ->
  forall rem pre n j f idx li, ts ++ [t] = pre ++ rem -> (length rem <= n)%nat -> refLength j = R ->
    exists j', process_refs hash getter visit proc n j f (mjoin rs) (length pre * R) idx li (size (TNode (ts ++ [t]))) None =
        Some (j', f ++ refs_of (TNode rem) (drop (length pre * R) (mjoin rs)), None) /\
      saved j j' (leaf_refs (TNode rem) [] (drop (length pre * R) (mjoin rs))).
Proof.
  intros Hne Hl Hc Hw Hh Hlt Hden Hrl Hwk. pose proof (Forall2_length Hden) as Elen.
  induction rem as [|u rem IH]; intros pre n j f idx li E Hn HRj.
  { rewrite app_nil_r in E. assert (Hfl : (length pre * R <? length (mjoin rs))%nat = false).
    { apply Nat.ltb_ge. rewrite (length_refs R) by done. rewrite <- Elen, E. lia. }
    exists j. destruct n; cbn [process_refs refs_of leaf_refs]; rewrite Hfl, app_nil_r; (split; [done|]);
      unfold saved; destruct (allowSaveData j); by rewrite app_nil_r. }
  cbn [length] in Hn. destruct n as [|n]; [lia|]. cbn [process_refs].
  assert (Hi : (ts ++ [t]) !! length pre = Some u) by (rewrite E, lookup_app_r, Nat.sub_diag by lia; done).
  assert (Eln : length (ts ++ [t]) = (length pre + S (length rem))%nat) by (rewrite E, length_app; done).
  rewrite (proj2 (Nat.ltb_lt _ _)) by (rewrite (length_refs R) by done; nia). rewrite HRj.
  rewrite (proj2 (Nat.ltb_ge _ _)) by (rewrite (length_refs R) by done; nia).
  rewrite (subtrieSection_spec _ h ts t (length pre) u) by (try done; rewrite (length_refs R) by done; lia).
  destruct (Forall2_lookup_l _ _ _ _ _ Hden Hi) as (r & Hr & Hdu). cbn [visit mbind option_bind].
  assert (E' : ts ++ [t] = (pre ++ [u]) ++ rem) by (rewrite E, <- app_assoc; done).
  assert (Ecur : (length pre * R + R)%nat = (length (pre ++ [u]) * R)%nat) by (rewrite length_app; simpl; lia).
  pose proof (slice_refs R rs (length pre) r Hrl Hr) as Esl. rewrite Esl.
  assert (Etk : take R (drop (length pre * R) (mjoin rs)) = r).
  { unfold slice in Esl. by replace (length pre * R + R - length pre * R)%nat with R in Esl by lia. }
  cbn [refs_of leaf_refs]. rewrite Etk, drop_drop, Ecur.
  destruct (den_payload _ _ Hdu) as (p & Hfin & Hp). rewrite Hfin. cbn [default].
  change (drop 8 (PutUint64 (size u) ++ p)) with p.
  destruct (Hwk u) as [Hu1 Hu2]; [rewrite E; set_solver|].
  destruct (Z.leb_spec (size u) ChunkSize) as [Hle|Hgt].
  - destruct (Hu2 Hle) as [d ->]. cbn [refs_of leaf_refs app].
    destruct (IH (pre ++ [TLeaf d]) n (save_data j r) (f ++ [r]) idx li) as (j' & -> & Hs'); [done|lia| |].
    { rewrite (proj1 (saved_data j r)). done. }
    exists j'. rewrite <- app_assoc. split; [done|]. apply (saved_trans _ _ _ [r] _ (saved_data j r) Hs').
  - cbn zeta. match goal with |- context [get hash getter false r ?i] => destruct (get_final false r i _ Hfin) as (ch & -> & ->) end.
    rewrite (proj2 (Nat.ltb_ge _ _)) by (rewrite length_app, length_PutUint64; lia).
    assert (Hus : size u <= size (TNode (ts ++ [t]))).
    { rewrite E. unfold size. rewrite flatten_node, bind_app, bind_cons, !length_app. lia. }
    rewrite chunkToSpan_spec by (pose proof (size_nonneg u); lia). change (drop 8 (PutUint64 (size u) ++ p)) with p.
    match goal with |- context [proc false ?j0 ?f0 p ?i0 ?l0 (size u)] =>
      destruct (Hu1 p j0 f0 i0 l0 r Hp) as (j1 & -> & Hs1); [by rewrite (proj1 (saved_edge j r _ _))|done|] end.
    assert (HR1 : refLength j1 = R) by (by rewrite (proj1 Hs1), (proj1 (saved_edge j r _ _))).
    cbn [mbind option_bind]. rewrite HR1, Ecur.
    destruct (IH (pre ++ [u]) n j1 ((f ++ [r]) ++ refs_of u p) idx li) as (j' & -> & Hs'); [done|lia|done|].
    exists j'. split; [by rewrite <- !app_assoc|]. refine (saved_trans _ _ _ (leaf_refs u r p) _ _ Hs').
    exact (saved_trans _ _ _ [] _ (saved_edge j r _ _) Hs1).
Qed.

Lemma ws_leaf_size h u : ws ChunkSize b h u -> size u <= ChunkSize -> exists d, u = TLeaf d.
Proof.
  intros Hw Hs. inversion Hw as [h0 d Hd|h0 h' ts t' Hne Hl Hc Hw' Hh]; subst; [by exists d|].
  pose proof (node_size _ _ Hb _ _ t' Hc) as En. pose proof (ws_size _ _ ChunkSize_pos Hb _ _ Hw') as Hsz'.
  pose proof (cap_mono _ _ ChunkSize_pos Hb 0 h' ltac:(lia)) as Hcap.
  assert (E0 : FileTree.cap ChunkSize b 0 = ChunkSize) by (unfold FileTree.cap; rewrite Z.pow_0_r; lia).
  destruct ts; [done|]. cbn [length] in En. nia.
Qed.

Lemma process_spec h fuel t : (h <= fuel)%nat -> (h <= sectionFuel)%nat ->
  ws ChunkSize b h t -> size t < 2 ^ 63 -> walks (processChunkAddresses hash getter visit fuel) t.
Proof.
  revert fuel t. induction h as [h IH] using lt_wf_ind. intros fuel t Hf Hs Hw Hlt p j f idx li r Hp HRj Hbig.
  inversion Hw as [h0 d Hd|h0 h' ts t' Hne Hl Hc Hw' Hh]; subst; [unfold size in Hbig; cbn in Hbig; lia|].
  destruct Hp as (rs & -> & Hden & Hrl). destruct fuel as [|fuel]; [lia|]. cbn [processChunkAddresses].
  pose proof (Forall2_length Hden) as Elen. rewrite (proj2 (Z.leb_gt _ _)).
  2: { rewrite (length_refs R) by done. rewrite <- Elen, length_app. simpl. nia. }
  destruct (process_refs_spec (processChunkAddresses hash getter visit fuel) h' ts t' rs) with
    (rem := ts ++ [t']) (pre := @nil tree) (n := length (mjoin rs)) (j := j) (f := f) (idx := idx) (li := li) as (j' & E & Hsv);
    try done; try lia.
  - intros u Hu. destruct (list_elem_of_split _ _ Hu) as (l1 & l2 & Eu).
    assert (size u <= size (TNode (ts ++ [t']))).
    { rewrite Eu. unfold size. rewrite flatten_node, bind_app, bind_cons, !length_app. lia. }
    assert (Hwu : ws ChunkSize b h' u).
    { apply elem_of_app in Hu as [Hu|Hu]; [|by apply list_elem_of_singleton in Hu as ->].
      apply list_elem_of_lookup in Hu as [i Hi]. apply complete_ws; [done|done|]. exact (Forall_lookup_1 _ _ _ _ Hc Hi). }
    split; [apply (IH h'); (done || lia)|]. apply (ws_leaf_size h' u Hwu).
  - rewrite (length_refs R) by done. rewrite <- Elen. nia.
  - exists j'. split; [exact E|exact Hsv].
Qed.

(** Iterating over an opened file. *)
Lemma Iterate_spec j t f : opened j t -> exists j',
  IterateChunkAddresses hash getter visit j f = Some (j', f ++ jaddr j :: refs_of t (rootData j), None) /\
  saved j j' (leaf_refs t (jaddr j) (rootData j)).
Proof.
  intros [Hp Es Hr Hw Hlt]. unfold IterateChunkAddresses. cbn [visit]. rewrite Es.
  destruct (decide (ChunkSize < size t)) as [Hbig|Hsmall].
  - destruct Hw as [Hw| ->]; [|change (size (TLeaf [])) with 0 in Hbig; done].
    destruct (process_spec 7 maxDepth t ltac:(unfold maxDepth; lia) ltac:(unfold sectionFuel; lia) Hw Hlt
      (rootData j) j (f ++ [jaddr j]) 0 0 (jaddr j) Hp Hr Hbig) as (j' & E & Hsv).
    exists j'. split; [|done]. rewrite E. by rewrite <- app_assoc.
  - assert (exists d, t = TLeaf d) as [d ->].
    { destruct Hw as [Hw| ->]; [|by eexists]. apply (ws_leaf_size 7 t Hw). lia. }
    cbn [payload_of] in Hp. exists (save_data j (jaddr j)). split; [|apply saved_data].
    cbn [processChunkAddresses maxDepth]. rewrite Hp, (proj2 (Z.leb_le _ _)) by (unfold size; cbn; lia). done.
Qed.
End Sections.

(** ** Less than one reference *)

Lemma branch_size_zero fuel br s : 0 < s < 2 ^ 63 -> branch_size fuel 0 br s 0 = None.
Proof.
  intros Hs. induction fuel as [|fuel IH]; cbn [branch_size];
    change (i64 (0 * i64 (0 - 1))) with 0; rewrite Z.sub_0_r, i64_small, (proj2 (Z.leb_gt _ _)) by lia; [done|].
  change (i64 (0 * br)) with 0. apply IH.
Qed.

Lemma branch_size_none fuel br s B : 0 < s -> 0 < B -> s + B < 2 ^ 63 ->
  (forall fuel, branch_size fuel 0 br s (i64 (B * br)) = None) -> branch_size fuel 0 br s B = None.
Proof.
  intros Hs HB Hlt Hn. assert (E : (i64 (s - i64 (B * i64 (0 - 1))) <=? B) = false).
  { change (i64 (0 - 1)) with (-1). rewrite (i64_small (B * -1)), i64_small by lia. apply Z.leb_gt. lia. }
  destruct fuel as [|fuel]; cbn [branch_size]; rewrite E; [done|]. apply Hn.
Qed.

(** C40: a chunk whose span announces a node but whose data is shorter than one
    reference keeps [subtrieSection], and with it [ReadAt], in its loop forever:
    the branch size overflows to zero and stays there. *)
Theorem subtrieSection_endless fuel data refLen subtrieSize :
  refLen = HashSize \/ refLen = ReferenceSize -> (length data < refLen)%nat -> 0 < subtrieSize <= 2 ^ 62 ->
  subtrieSection fuel data 0 refLen subtrieSize = None.
Proof.
  intros HR Hd Hs. unfold subtrieSection. rewrite Nat.div_small by done. change (Z.of_nat 0) with 0.
  assert (Hz : forall fuel br, branch_size fuel 0 br subtrieSize 0 = None) by (intros; apply branch_size_zero; lia).
  destruct HR as [-> | ->].
  - change (ChunkSize / Z.of_nat HashSize) with (2 ^ 13). change ChunkSize with (2 ^ 18).
    rewrite branch_size_none; [done|lia..|]. intros f1. change (i64 (2 ^ 18 * 2 ^ 13)) with (2 ^ 31).
    apply branch_size_none; [lia..|]. intros f2. change (i64 (2 ^ 31 * 2 ^ 13)) with (2 ^ 44).
    apply branch_size_none; [lia..|]. intros f3. change (i64 (2 ^ 44 * 2 ^ 13)) with (2 ^ 57).
    apply branch_size_none; [lia..|]. intros f4. change (i64 (2 ^ 57 * 2 ^ 13)) with 0. apply Hz.
  - change (ChunkSize / Z.of_nat ReferenceSize) with (2 ^ 12). change ChunkSize with (2 ^ 18).
    rewrite branch_size_none; [done|lia..|]. intros f1. change (i64 (2 ^ 18 * 2 ^ 12)) with (2 ^ 30).
    apply branch_size_none; [lia..|]. intros f2. change (i64 (2 ^ 30 * 2 ^ 12)) with (2 ^ 42).
    apply branch_size_none; [lia..|]. intros f3. change (i64 (2 ^ 42 * 2 ^ 12)) with (2 ^ 54).
    apply branch_size_none; [lia..|]. intros f4. change (i64 (2 ^ 54 * 2 ^ 12)) with 0. apply Hz.
Qed.

Lemma subtrieSection_endless_witness : subtrieSection 1000 [1; 2; 3] 0 HashSize 100 = None.
Proof. apply subtrieSection_endless; [by left|unfold HashSize; simpl; lia|lia]. Defined.
