(* ===== verification/Builder.v ===== *)
(** * The pipelines (pkg/file/pipeline: bmt, store, encryption, builder)

    The writers between the feeder and the trie, their composition to the plain
    and the encrypting pipeline, and the whole way of a file: fed into a
    pipeline, stored in chunks, and read back by the joiner from the returned
    reference.

    The storage below and the source of random bytes are parameters, with the
    law that what was put stays recorded. *)

From Stdlib Require Import ZArith Lia ZifyBool.
From stdpp Require Import base gmap list numbers.
From S2P Require Import Prelude Boson Bmt Crypto Chunk Encryption Pipeline HashTrie FileTree Joiner.

Open Scope Z_scope.

(** [storage.Putter], and the random bytes of [crypto/rand]: a key, and padding
    of any length. *)
Class Storage (S : Type) := {
  Put : S -> Address -> bytes -> result pipeError S;
  random : S -> (bytes * (nat -> bytes)) * S;
  (** the chunk [a] was put with data [d] *)
  recorded : S -> Address -> bytes -> Prop;
  Put_recorded : forall st a d st', Put st a d = Ok st' ->
    recorded st' a d /\ (forall a' d', recorded st a' d' -> recorded st' a' d');
  random_recorded : forall st a d, recorded st a d -> recorded (random st).2 a d;
  random_key : forall st, length (random st).1.1 = KeyLength;
  random_padding : forall st n, length ((random st).1.2 n) = n;
}.

Section Writers.
Context `{BS : BmtSum} (hash : bytes -> bytes) {S : Type} `{Storage S}.

(** ** The writers; their states are a storage and what follows in the chain. *)

Definition bmtWriter {St} (next : ChainWriter St) : ChainWriter St :=
  {| ChainWrite st p :=
       if (length (Data p) <? SpanSize)%nat then Err errBmtData
       else
         let ref := bmt_sum (take SpanSize (Data p)) (drop SpanSize (Data p)) in
         ChainWrite next st (Args (Some ref) (Key p) (Span p) (Data p));
     Sum st := Sum next st |}.

Definition storeWriter {X} (next : option (ChainWriter (S * X))) : ChainWriter (S * X) :=
  {| ChainWrite '(st, x) p :=
       match Ref p with
       | None => Err errStoreData
       | Some ref =>
           st ← Put st ref (Data p);
           match next with
           | None => Ok (st, x, p)
           | Some next => ChainWrite next (st, x) p
           end
       end;
     Sum st :=
       match next with
       | None => Err errNil
       | Some next => Sum next st
       end |}.

Definition encryptionWriter {X} (next : ChainWriter (S * X)) : ChainWriter (S * X) :=
  {| ChainWrite '(st, x) p :=
       let '((k, rnd), st) := random st in
       match EncryptChunk hash (Data p) k rnd with
       | Err e => Err (errEncrypt e)
       | Ok (key, encryptedSpan, encryptedData) =>
           let c := replicate (length encryptedSpan + length encryptedData) 0 in
           let c := copy_at 8 encryptedData (copy_at 0 (take 8 encryptedSpan) c) in
           ChainWrite next (st, x) (Args (Ref p) key (Span p) c)
       end;
     Sum st := Sum next st |}.

(** ** The builder *)

Definition run_short (w : ChainWriter (S * unit)) (st : S) (a : PipeWriteArgs) : result pipeError (S * PipeWriteArgs) :=
  '(st, _, a) ← ChainWrite w (st, tt) a; Ok (st, a).

Definition newShortPipelineFunc : ChainWriter (S * unit) := bmtWriter (storeWriter None).

Definition newShortEncryptionPipelineFunc : ChainWriter (S * unit) := encryptionWriter (bmtWriter (storeWriter None)).

Definition trieBuffer : nat := (Z.to_nat ChunkSize + SpanSize) * 9 * 2.

Abbreviation trieState := (S * hashtrie.hashTrieWriter)%type.

Definition newPipeline : ChainWriter trieState :=
  let tw := hashtrie.writer (Z.to_nat Branches) HashSize (run_short newShortPipelineFunc) in
  let lsw := storeWriter (Some tw) in
  bmtWriter lsw.

Definition newEncryptionPipeline : ChainWriter trieState :=
  let tw := hashtrie.writer (Z.to_nat (Branches / 2)) (HashSize + KeyLength) (run_short newShortEncryptionPipelineFunc) in
  let lsw := storeWriter (Some tw) in
  let b := bmtWriter lsw in
  encryptionWriter b.

Definition NewPipelineBuilder (encrypt : bool) : ChainWriter trieState :=
  if encrypt then newEncryptionPipeline else newPipeline.

(** The feeder in front, with fresh buffers. *)
Definition newFeeder (st : S) : feeder.chunkFeeder :=
  feeder.NewChunkFeederWriter (Z.to_nat ChunkSize) (st, hashtrie.NewHashTrieWriter trieBuffer).

(** The results of the reads of [FeedPipeline]. *)
Inductive readResult :=
| Rd (data : bytes)
| RdEOF (data : bytes)
| RdErr.

(** [ctx k] tells whether the context is done when it is asked for the [k]-th time.
    [None]: no end of the file in the list, or an endless write. *)
Fixpoint FeedPipeline (encrypt : bool) (ctx : nat -> bool) (f : feeder.chunkFeeder) (rs : list readResult) :
    option (result pipeError (S * bytes)) :=
  match rs with
  | [] => None
  | RdErr :: _ => Some (Err errRead)
  | RdEOF data :: _ =>
      r ← (if (0 <? length data)%nat then feeder.Write (NewPipelineBuilder encrypt) (Z.to_nat ChunkSize) f data
           else Some (Ok (f, 0)));
      match r with
      | Err e => Some (Err e)
      | Ok (f, cc) =>
          if cc <? zlen data then Some (Err errShortWrite)
          else if ctx O then Some (Err errContext)
          else
            Some ('(f, sum) ← feeder.Sum (NewPipelineBuilder encrypt) f; Ok ((feeder.nxt f).1, sum))
      end
  | Rd data :: rs =>
      r ← feeder.Write (NewPipelineBuilder encrypt) (Z.to_nat ChunkSize) f data;
      match r with
      | Err e => Some (Err e)
      | Ok (f, cc) =>
          if cc <? zlen data then Some (Err errShortWrite)
          else if ctx O then Some (Err errContext)
          else FeedPipeline encrypt (fun k => ctx (Datatypes.S k)) f rs
      end
  end.
End Writers.

(** * The pipelines store what they are given *)

(** The length a chunk carries, as the decrypting side computes it. *)
Lemma payload_rounds fuel h n b x : Z.of_nat b * refSize = ChunkSize -> 2 <= n <= Z.of_nat b ->
  (n - 1) * Z.of_nat b ^ Z.of_nat h < x <= n * Z.of_nat b ^ Z.of_nat h -> x * refSize < 2 ^ 63 -> (h <= fuel)%nat ->
  payload_length fuel (x * refSize) = Some (n * refSize).
Proof.
  intros Hb Hn. assert (Er : refSize = 64) by done. assert (EC : ChunkSize = 262144) by done.
  rewrite Er, EC in *. revert x fuel. induction h as [|h IH]; intros x fuel Hx Hlt Hf.
  { change (Z.of_nat b ^ Z.of_nat 0) with 1 in Hx. assert (x = n) as -> by lia.
    apply (payload_length_leaf fuel). rewrite EC. lia. }
  rewrite Nat2Z.inj_succ, Z.pow_succ_r in Hx by lia.
  assert (0 < Z.of_nat b ^ Z.of_nat h) by (apply Z.pow_pos_nonneg; lia).
  destruct fuel as [|fuel]; [lia|]. cbn [payload_length]. rewrite EC, Er, (proj2 (Z.ltb_lt _ _)) by nia.
  assert (Ed : (x * 64 + (262144 - 1)) / 262144 = (x + (Z.of_nat b - 1)) / Z.of_nat b).
  { rewrite <- Hb at 2. rewrite (Z.mul_comm (Z.of_nat b)), <- Z.div_div by lia. f_equal.
    replace (x * 64 + (262144 - 1)) with ((x + (Z.of_nat b - 1)) * 64 + 63) by lia.
    rewrite Z.div_add_l by lia. change (63 / 64) with 0. lia. }
  assert (0 < x) by nia. rewrite (u64_small (x * 64 + _)) by lia. rewrite Ed.
  set (y := (x + (Z.of_nat b - 1)) / Z.of_nat b).
  assert (Hy : Z.of_nat b * y <= x + (Z.of_nat b - 1) < Z.of_nat b * y + Z.of_nat b).
  { pose proof (Z.div_mod (x + (Z.of_nat b - 1)) (Z.of_nat b) ltac:(lia)) as E. fold y in E.
    pose proof (Z.mod_pos_bound (x + (Z.of_nat b - 1)) (Z.of_nat b) ltac:(lia)). lia. }
  clearbody y. assert (0 <= y) by nia. assert (y * 64 < 2 ^ 63) by nia. rewrite u64_small by lia. apply IH; [|done|lia].
  split; nia.
Qed.

Lemma payload_node b sp payload : Z.of_nat b * refSize = ChunkSize -> (1 < b)%nat ->
  node_shape ChunkSize b 64 sp payload -> payload_length 64 sp = Some (zlen payload).
Proof.
  intros Hb Hb1 (n & h & Hn & -> & Hs & Hlt). change (Z.of_nat 64) with refSize.
  assert (Er : refSize = 64) by done. assert (EC : ChunkSize = 262144) by done.
  unfold cap in Hs. rewrite EC in *. pose proof (Z.pow_pos_nonneg (Z.of_nat b) (Z.of_nat h) ltac:(lia) ltac:(lia)) as Hp.
  assert (Hh : (h < 63)%nat).
  { assert (2 ^ Z.of_nat h <= Z.of_nat b ^ Z.of_nat h) by (apply Z.pow_le_mono_l; lia).
    assert (2 ^ Z.of_nat h < 2 ^ 63) as Hlt2 by nia. apply Z.pow_lt_mono_r_iff in Hlt2; lia. }
  cbn [payload_length]. rewrite EC, (proj2 (Z.ltb_lt _ _)) by nia.
  rewrite (u64_small (sp + _)) by nia. set (x := (sp + (262144 - 1)) / 262144).
  assert (Hx : 262144 * x <= sp + (262144 - 1) < 262144 * x + 262144).
  { pose proof (Z.div_mod (sp + (262144 - 1)) 262144 ltac:(lia)) as E. fold x in E.
    pose proof (Z.mod_pos_bound (sp + (262144 - 1)) 262144 ltac:(lia)). lia. }
  clearbody x. assert (0 < x) by nia. rewrite u64_small by lia.
  apply (payload_rounds 63 h n b); [by rewrite Er, EC in *|done| |lia|lia]. split; nia.
Qed.

Section Laws.
Context `{BS : BmtSum} (hash : bytes -> bytes) (Hlen : forall l, length (hash l) = HashSize).
Context {S : Type} `{St : Storage S} (getter0 : Address -> result encError bytes).

(** The reader gets every chunk that was put. *)
Definition served (st : S) : Prop := forall a d, recorded st a d -> getter0 a = Ok d.

Lemma Put_served st a d st' : Put st a d = Ok st' -> served st' -> served st /\ getter0 a = Ok d.
Proof.
  intros E Hs. destruct (Put_recorded _ _ _ _ E) as [H1 H2]. split; [intros a' d' Hr; by apply Hs, H2|by apply Hs].
Qed.

Lemma run_short_plain st sp payload :
  run_short newShortPipelineFunc st (Args None [] (PutUint64 sp) (PutUint64 sp ++ payload)) =
    (st ← Put st (bmt_sum (PutUint64 sp) payload) (PutUint64 sp ++ payload);
     Ok (st, Args (Some (bmt_sum (PutUint64 sp) payload)) [] (PutUint64 sp) (PutUint64 sp ++ payload))).
Proof.
  unfold run_short, newShortPipelineFunc. cbn [ChainWrite bmtWriter storeWriter Data Key Span Ref].
  rewrite (proj2 (Nat.ltb_ge _ _)) by (rewrite length_app, length_PutUint64; unfold SpanSize; lia).
  rewrite (take_app_length' (PutUint64 sp)), (drop_app_length' (PutUint64 sp)) by (by rewrite length_PutUint64).
  by destruct (Put _ _ _).
Qed.

Lemma final_plain a d : length a = HashSize -> getter0 a = Ok d -> final hash getter0 a = Some d.
Proof. intros Ha Hg. unfold final, Get. by rewrite Ha, Hg. Qed.

Lemma plain_stores b : stores ChunkSize b HashSize (final hash getter0) (run_short newShortPipelineFunc) served.
Proof.
  intros st sp payload st' a. rewrite run_short_plain. destruct (Put _ _ _) as [st1|x] eqn:E; cbn [mbind result_bind]; [|done].
  intros [= <- <-]. cbn [Span Ref Key default from_option id]. split_and!.
  - done.
  - rewrite length_bmt_sum. cbn [length]. apply Nat.add_0_r.
  - intros Hs. by destruct (Put_served _ _ _ _ E Hs).
  - intros _ Hs. rewrite app_nil_r. apply final_plain; [apply length_bmt_sum|]. by destruct (Put_served _ _ _ _ E Hs).
Qed.

Lemma copy_span_data (es ed : bytes) : length es = 8%nat ->
  copy_at 8 ed (copy_at 0 (take 8 es) (replicate (length es + length ed) 0)) = es ++ ed.
Proof.
  intros El. rewrite (take_ge es) by lia. unfold copy_at at 2. rewrite take_0, length_replicate. cbn [app].
  rewrite (take_ge es) by lia. unfold copy_at. rewrite take_app_length' by done. f_equal.
  rewrite length_app, length_drop, length_replicate, drop_ge by (rewrite length_app, length_drop, length_replicate; lia).
  rewrite app_nil_r. apply take_ge. lia.
Qed.

(** An encrypted chunk and how it comes back. *)
Lemma chunk_encrypts b st sp payload : Z.of_nat b * refSize = ChunkSize -> (1 < b)%nat -> chunk_shape ChunkSize b 64 sp payload ->
  exists es ed, EncryptChunk hash (PutUint64 sp ++ payload) (random st).1.1 (random st).1.2 = Ok ((random st).1.1, es, ed) /\
    length es = 8%nat /\ decryptChunkData hash (es ++ ed) (random st).1.1 = Ok (PutUint64 sp ++ payload).
Proof.
  intros Hb Hb1 Hsh. assert (Er : refSize = 64) by done.
  assert (Hp : zlen payload <= ChunkSize /\ payload_length 64 sp = Some (zlen payload) /\ 0 <= sp < 2 ^ 64).
  { destruct Hsh as [(-> & Hle & Hlt)|Hn]; [split_and!; [done|apply payload_length_leaf; lia|lia..]|].
    split_and!; [|by apply (payload_node b)|..]; destruct Hn as (n & h & Hn & Hz & Hs & Hlt).
    - rewrite Hz, <- Hb, Er. change (Z.of_nat 64) with 64. lia.
    - pose proof (cap_pos ChunkSize b ltac:(done) Hb1 h). nia.
    - lia. }
  destruct Hp as (H1 & H2 & H3).
  destruct (chunk_roundtrip hash Hlen (PutUint64 sp) payload (random st).1.1 (random st).1.2) as (es & ed & E & L1 & _ & Hd);
    [apply random_key|apply random_padding|apply length_PutUint64|done| |by exists es, ed].
  by rewrite <- (app_nil_r (PutUint64 sp)), Uint64_PutUint64.
Qed.

Lemma run_short_enc st sp payload :
  run_short (newShortEncryptionPipelineFunc hash) st (Args None [] (PutUint64 sp) (PutUint64 sp ++ payload)) =
    match EncryptChunk hash (PutUint64 sp ++ payload) (random st).1.1 (random st).1.2 with
    | Err e => Err (errEncrypt e)
    | Ok (key, es, ed) =>
        let c := copy_at 8 ed (copy_at 0 (take 8 es) (replicate (length es + length ed) 0)) in
        if (length c <? SpanSize)%nat then Err errBmtData
        else
          st ← Put (random st).2 (bmt_sum (take SpanSize c) (drop SpanSize c)) c;
          Ok (st, Args (Some (bmt_sum (take SpanSize c) (drop SpanSize c))) key (PutUint64 sp) c)
    end.
Proof.
  unfold run_short, newShortEncryptionPipelineFunc. cbn [ChainWrite encryptionWriter bmtWriter storeWriter Data Key Span Ref].
  destruct (random st) as [[k rnd] st1]. cbn [fst snd].
  destruct (EncryptChunk _ _ _ _) as [[[key es] ed]|e]; [|done]. cbn [Data Key Span Ref ChainWrite].
  case_match; [done|]. by destruct (Put _ _ _).
Qed.

Lemma EncryptChunk_key d k rnd key es ed : EncryptChunk hash d k rnd = Ok (key, es, ed) -> key = k.
Proof.
  unfold EncryptChunk. case_match; [done|].
  destruct (Encrypt _ _ (take 8 d) _) as [[a e1]|x]; cbn [mbind result_bind]; [|done].
  destruct (Encrypt _ _ (drop 8 d) _) as [[c e2]|x]; cbn [mbind result_bind]; [|done]. by intros [= <- _ _].
Qed.

Lemma enc_stores b : Z.of_nat b * refSize = ChunkSize -> (1 < b)%nat ->
  stores ChunkSize b (HashSize + KeyLength) (final hash getter0) (run_short (newShortEncryptionPipelineFunc hash)) served.
Proof.
  intros Hb Hb1 st sp payload st' a. rewrite run_short_enc.
  destruct (EncryptChunk _ _ _ _) as [[[key es] ed]|e] eqn:Ee; [|done]. cbn zeta.
  set (c := copy_at 8 ed _). case_match; [done|]. destruct (Put _ _ _) as [st1|x] eqn:E; cbn [mbind result_bind]; [|done].
  apply EncryptChunk_key in Ee as Ek. subst key. intros [= <- <-]. cbn [Span Ref Key default from_option id].
  assert (Hrs : served (random st).2 -> served st) by (intros Hs a d Hr; by apply Hs, random_recorded).
  split_and!.
  - done.
  - rewrite length_bmt_sum, random_key. done.
  - intros Hs. apply Hrs. by destruct (Put_served _ _ _ _ E Hs).
  - intros Hsh Hs. destruct (chunk_encrypts b st sp payload Hb Hb1 Hsh) as (es' & ed' & E' & L & Hd).
    rewrite Ee in E'. injection E' as <- <-. subst c. rewrite copy_span_data in * by done.
    destruct (Put_served _ _ _ _ E Hs) as [_ Hg]. unfold final, Get. rewrite length_app, length_bmt_sum, random_key.
    cbn [Nat.eqb Nat.add HashSize KeyLength ReferenceSize].
    rewrite (take_app_length' (bmt_sum _ _)), (drop_app_length' (bmt_sum _ _)) by (by rewrite length_bmt_sum).
    rewrite Hg. cbn [mbind result_bind]. by rewrite Hd.
Qed.

Definition branching (encrypt : bool) : nat := Z.to_nat (if encrypt then Branches / 2 else Branches).
Definition refLen (encrypt : bool) : nat := if encrypt then HashSize + KeyLength else HashSize.
Definition short (encrypt : bool) : S -> PipeWriteArgs -> result pipeError (S * PipeWriteArgs) :=
  run_short (if encrypt then newShortEncryptionPipelineFunc hash else newShortPipelineFunc).

Lemma branching_gt encrypt : (1 < branching encrypt)%nat.
Proof. unfold branching. destruct encrypt; [change (Branches / 2) with 4096|change Branches with 8192]; lia. Qed.

Lemma branching_refLen encrypt : Z.of_nat (refLen encrypt) * Z.of_nat (branching encrypt) = ChunkSize.
Proof.
  unfold branching, refLen. destruct encrypt; rewrite Z2Nat.id by done; done.
Qed.

Lemma refLen_pos encrypt : (0 < refLen encrypt)%nat.
Proof. unfold refLen, HashSize. destruct encrypt; lia. Qed.

Lemma pipeline_stores encrypt :
  stores ChunkSize (branching encrypt) (refLen encrypt) (final hash getter0) (short encrypt) served.
Proof.
  destruct encrypt; [|apply plain_stores]. apply enc_stores; [|apply (branching_gt true)].
  rewrite Z.mul_comm. apply (branching_refLen true).
Qed.

Lemma trieBuffer_fits encrypt : (9 * (branching encrypt * hashtrie.oneRef (refLen encrypt)) <= trieBuffer)%nat.
Proof.
  pose proof (branching_refLen encrypt) as E. unfold hashtrie.oneRef, trieBuffer, SpanSize.
  assert (Z.of_nat (branching encrypt) <= 8192) by (unfold branching; destruct encrypt; rewrite Z2Nat.id by done; done).
  assert (ChunkSize = 262144) as EC by done. rewrite EC in *. lia.
Qed.

Lemma pipeline_next encrypt st h c :
  ChainWrite (NewPipelineBuilder hash encrypt) (st, h) (feeder.leaf_args c) =
  ('(st, a) ← short encrypt st (feeder.leaf_args c);
   ChainWrite (hashtrie.writer (branching encrypt) (refLen encrypt) (short encrypt)) (st, h) a).
Proof.
  unfold short, feeder.leaf_args. destruct encrypt.
  - rewrite run_short_enc. cbn [NewPipelineBuilder]. unfold newEncryptionPipeline.
    cbn [ChainWrite encryptionWriter bmtWriter storeWriter Data Key Span Ref].
    destruct (random st) as [[k rnd] st1]. cbn [fst snd].
    destruct (EncryptChunk _ _ _ _) as [[[key es] ed]|e]; [|done]. cbn [Data Key Span Ref ChainWrite].
    cbn zeta. case_match; [done|]. by destruct (Put _ _ _).
  - rewrite run_short_plain. cbn [NewPipelineBuilder]. unfold newPipeline.
    cbn [ChainWrite bmtWriter storeWriter Data Key Span Ref].
    rewrite (proj2 (Nat.ltb_ge _ _)) by (rewrite length_app, length_PutUint64; unfold SpanSize; lia).
    rewrite (take_app_length' (PutUint64 _)), (drop_app_length' (PutUint64 _)) by (by rewrite length_PutUint64).
    by destruct (Put _ _ _).
Qed.

(** The storage fails on a content-addressed chunk. *)
Definition Put_fails (x : pipeError) : Prop := exists st d, Put st (bmt_sum (take SpanSize d) (drop SpanSize d)) d = Err x.

(** Errors on the chunks of a file are errors of the storage. *)
Lemma short_fails encrypt x : fails ChunkSize (branching encrypt) (refLen encrypt) (short encrypt) x -> Put_fails x.
Proof.
  intros (st & sp & payload & Hsh & E). unfold short in E. destruct encrypt.
  - rewrite run_short_enc in E.
    destruct (chunk_encrypts (branching true) st sp payload) as (es & ed & Ee & L & _);
      [rewrite Z.mul_comm; apply (branching_refLen true)|apply (branching_gt true)|done|].
    rewrite Ee, copy_span_data in E by done. cbn zeta in E.
    rewrite (proj2 (Nat.ltb_ge _ _)) in E by (rewrite length_app, L; unfold SpanSize; lia).
    destruct (Put _ _ _) as [st1|y] eqn:EP; cbn [mbind result_bind] in E; [done|]. injection E as ->. by eexists _, _.
  - rewrite run_short_plain in E. destruct (Put _ _ _) as [st1|y] eqn:EP; cbn [mbind result_bind] in E; [done|].
    injection E as ->. exists st, (PutUint64 sp ++ payload).
    rewrite (take_app_length' (PutUint64 _)), (drop_app_length' (PutUint64 _)) by (by rewrite length_PutUint64). done.
Qed.

(** A file in the pipeline becomes a tree. *)
Lemma pipeline_tree encrypt st ws : zlen (mjoin ws) < 2 ^ 63 ->
  match feeder.feed (NewPipelineBuilder hash encrypt) (Z.to_nat ChunkSize) (newFeeder st) ws with
  | None => False
  | Some r => file_post ChunkSize (branching encrypt) (refLen encrypt) (final hash getter0) (short encrypt) served st (mjoin ws) r
  end.
Proof.
  intros Hlt. unfold newFeeder. rewrite feeder.feed_New by (change ChunkSize with 262144; lia).
  apply file_tree; [done|apply branching_gt|apply pipeline_stores|apply trieBuffer_fits|apply pipeline_next| |by rewrite Z2Nat.id|done|].
  - intros [st1 h]. by destruct encrypt.
  - split; [|done]. unfold cap.
    assert (4096 ^ 7 <= Z.of_nat (branching encrypt) ^ Z.of_nat 7).
    { apply Z.pow_le_mono_l. unfold branching. destruct encrypt; rewrite Z2Nat.id by done; done. }
    assert (ChunkSize = 262144) as -> by done. lia.
Qed.

(** The reads of a file that ends with [last]. *)
Definition reads (ws : list bytes) (last : bytes) : list readResult := map Rd ws ++ [RdEOF last].

(** A context that is not done. *)
Definition background (k : nat) : bool := false.

Lemma FeedPipeline_feed encrypt ws last f total :
  feeder.winv (Z.to_nat ChunkSize) f total ->
  FeedPipeline hash encrypt background f (reads ws last) =
    (r ← feeder.feed (NewPipelineBuilder hash encrypt) (Z.to_nat ChunkSize) f (ws ++ match last with [] => [] | _ => [last] end);
     Some ('(sh, sum) ← r; Ok (sh.1, sum))).
Proof.
  set (next := NewPipelineBuilder hash encrypt). set (n := Z.to_nat ChunkSize).
  assert (Hn : (0 < n)%nat) by (subst n; change ChunkSize with 262144; lia).
  assert (Hn64 : Z.of_nat n < 2 ^ 64) by (subst n; change ChunkSize with 262144; lia).
  revert f total. induction ws as [|b ws IH]; intros f total HW; unfold reads; cbn [map app FeedPipeline].
  - fold next n. destruct last as [|x last].
    + cbn [Nat.ltb Nat.leb length mbind option_bind feeder.feed]. f_equal.
      by destruct (feeder.Sum next f) as [[f1 r]|e].
    + cbn [feeder.feed]. set (b := x :: last). assert (Hb : (0 <? length b)%nat = true) by done. rewrite Hb.
      pose proof (feeder.Write_spec next n Hn Hn64 f _ b (proj1 (proj2 HW))) as Hs.
      destruct (feeder.cut _ _) as [cs r]. rewrite Hs. cbn [mbind option_bind].
      destruct (feeder.emit next (feeder.nxt f) cs) as [st1|e]; cbn [mbind result_bind]; [|done].
      rewrite Z.ltb_irrefl. f_equal. by destruct (feeder.Sum next _) as [[f1 r1]|e].
  - fold next n. cbn [feeder.feed].
    pose proof (feeder.Write_spec next n Hn Hn64 f _ b (proj1 (proj2 HW))) as Hs.
    destruct (feeder.cut n _) as [cs r] eqn:Ec. rewrite Hs. cbn [mbind option_bind].
    destruct (feeder.emit next (feeder.nxt f) cs) as [st1|e]; cbn [mbind result_bind]; [|done].
    rewrite Z.ltb_irrefl. pose proof (feeder.winv_Write n Hn f total b st1 HW) as HW'. rewrite Ec in HW'.
    exact (IH _ _ HW').
Qed.

(** Feeding a file and what [FeedPipeline] returns. *)
Lemma FeedPipeline_tree encrypt st bs last : zlen (mjoin bs ++ last) < 2 ^ 63 ->
  exists r, FeedPipeline hash encrypt background (newFeeder st) (reads bs last) = Some r /\
    match r with
    | Ok (st', root) => length root = refLen encrypt /\
        exists t, (ws ChunkSize (branching encrypt) 7 t \/ t = TLeaf []) /\ flatten t = mjoin bs ++ last /\
          (served st' -> den (refLen encrypt) (final hash getter0) t root)
    | Err e => Put_fails e
    end.
Proof.
  intros Hlt. rewrite (FeedPipeline_feed encrypt bs last _ []).
  2: { apply feeder.winv_New. change ChunkSize with 262144. lia. }
  assert (Ej : mjoin (bs ++ match last with [] => [] | _ => [last] end) = mjoin bs ++ last).
  { rewrite join_app. f_equal. destruct last; [done|]. change (mjoin [z :: last]) with ((z :: last) ++ []). apply app_nil_r. }
  pose proof (pipeline_tree encrypt st (bs ++ match last with [] => [] | _ => [last] end)) as Hp. rewrite Ej in Hp.
  specialize (Hp Hlt). destruct (feeder.feed _ _ _ _) as [r|]; [|done]. cbn [mbind option_bind].
  eexists. split; [done|]. unfold file_post in Hp. destruct r as [[[st' h] root]|e]; cbn [mbind result_bind fst].
  - destruct Hp as [_ (t & Hw & Hf & Hr & Hd)]. split; [done|]. exists t. split; [|done]. naive_solver.
  - by apply (short_fails encrypt).
Qed.

(** A context that gets done only makes the call end earlier. *)
Lemma FeedPipeline_ctx encrypt rs : forall ctx f,
  FeedPipeline hash encrypt ctx f rs = FeedPipeline hash encrypt background f rs \/
  FeedPipeline hash encrypt ctx f rs = Some (Err errContext) /\ exists k, (k < length rs)%nat /\ ctx k = true.
Proof.
  induction rs as [|r rs IH]; intros ctx f; cbn [FeedPipeline]; [by left|]. destruct r as [data|data|]; [| |by left].
  - destruct (feeder.Write _ _ f data) as [[[f1 cc]|e]|]; cbn [mbind option_bind]; [|by left|by left].
    destruct (cc <? zlen data); [by left|]. destruct (ctx O) eqn:E0; [right; split; [done|]; exists O; cbn; split; [lia|done]|].
    destruct (IH (fun k => ctx (Datatypes.S k)) f1) as [->|[-> (k & Hk & Hc)]]; [by left|].
    right. split; [done|]. exists (Datatypes.S k). cbn. split; [lia|done].
  - destruct (if (0 <? length data)%nat then _ else _) as [[[f1 cc]|e]|]; cbn [mbind option_bind]; [|by left|by left].
    destruct (cc <? zlen data); [by left|]. destruct (ctx O) eqn:E0; [right; split; [done|]; exists O; cbn; split; [lia|done]|by left].
Qed.

Lemma FeedPipeline_ok encrypt rs ctx f x : FeedPipeline hash encrypt ctx f rs = Some (Ok x) ->
  FeedPipeline hash encrypt background f rs = Some (Ok x).
Proof. intros E. by destruct (FeedPipeline_ctx encrypt rs ctx f) as [<-|[E' _]]; [|congruence]. Qed.

(** A reader that fails, compared with one that ends there. *)
Lemma FeedPipeline_read_error encrypt bs : forall f,
  FeedPipeline hash encrypt background f (map Rd bs ++ [RdErr]) = Some (Err errRead) \/
  FeedPipeline hash encrypt background f (map Rd bs ++ [RdErr]) = FeedPipeline hash encrypt background f (reads bs []) /\
  forall x, FeedPipeline hash encrypt background f (reads bs []) <> Some (Ok x).
Proof.
  unfold reads. induction bs as [|b bs IH]; intros f; cbn [map app FeedPipeline]; [by left|].
  destruct (feeder.Write _ _ f b) as [[[f1 cc]|e]|]; cbn [mbind option_bind]; [|by right|by right].
  destruct (cc <? zlen b); [by right|]. apply IH.
Qed.

(** C25: feeding a reader of less than 2^63 bytes always ends.  The result is a
    reference of 32 or, encrypted, 64 bytes, which needs a reader that ends without
    an error; or the error of a failed [Put] of a content-addressed chunk, the error
    of the reader if it failed, or that of the context if it was done when asked.  No
    other error and no slice panic is possible. *)
Theorem FeedPipeline_total encrypt ctx st bs (end_ : option bytes) : zlen (mjoin bs ++ default [] end_) < 2 ^ 63 ->
  let r := FeedPipeline hash encrypt ctx (newFeeder st) (map Rd bs ++ [match end_ with Some last => RdEOF last | None => RdErr end]) in
  (exists st' root, r = Some (Ok (st', root)) /\ length root = refLen encrypt /\ end_ <> None) \/
  (exists e, r = Some (Err e) /\
     (Put_fails e \/ e = errRead /\ end_ = None \/ e = errContext /\ exists k, (k <= length bs)%nat /\ ctx k = true)).
Proof.
  intros Hlt. cbv zeta. set (rs := map Rd bs ++ _). assert (Hrs : length rs = Datatypes.S (length bs)).
  { unfold rs. rewrite length_app, length_map. cbn. lia. }
  destruct (FeedPipeline_ctx encrypt rs ctx (newFeeder st)) as [->|[-> (k & Hk & Hc)]].
  2: { right. exists errContext. split; [done|]. right. right. split; [done|]. exists k. split; [lia|done]. }
  destruct (FeedPipeline_tree encrypt st bs (default [] end_) Hlt) as (r & E & Hr). unfold rs. destruct end_ as [last|]; cbn [default from_option id] in E.
  - change (map Rd bs ++ [RdEOF last]) with (reads bs last). rewrite E.
    destruct r as [[st' root]|e]; [left; exists st', root|right; exists e]; (split; [done|]); [by destruct Hr|by left].
  - right. destruct (FeedPipeline_read_error encrypt bs (newFeeder st)) as [->|[-> Hn]]; [exists errRead; split; [done|]; right; by left|].
    rewrite E. destruct r as [x|e]; [by destruct (Hn x)|]. exists e. split; [done|by left].
Qed.

Context (getter : bool -> Address -> Z -> result encError bytes).
Context (Hget : forall d a i, getter d a i = getter0 a).

Lemma feed_opened encrypt ctx st bs last st' root idx : zlen (mjoin bs ++ last) < 2 ^ 63 ->
  FeedPipeline hash encrypt ctx (newFeeder st) (reads bs last) = Some (Ok (st', root)) -> served st' ->
  exists j t, Joiner.New hash getter root idx = Ok (j, zlen (mjoin bs ++ last)) /\
    opened (refLen encrypt) (branching encrypt) hash getter0 j t /\ off j = 0 /\ flatten t = mjoin bs ++ last.
Proof.
  intros Hlt E%FeedPipeline_ok Hs. destruct (FeedPipeline_tree encrypt st bs last Hlt) as (r & E' & Hr).
  rewrite E in E'. injection E' as <-. destruct Hr as [Hl (t & Hw & Hf & Hd)].
  assert (Es : size t = zlen (mjoin bs ++ last)) by (unfold size; by rewrite Hf).
  destruct (New_spec _ _ (refLen_pos encrypt) (branching_gt encrypt) hash getter getter0 Hget t root idx (Hd Hs) Hl Hw) as (j & EN & Ho & Hoff);
    [lia|]. rewrite Es in EN. by exists j, t.
Qed.

(** C1: a file fed into the plain or the encrypting pipeline in any portions,
    and read back by a joiner on the returned reference in blocks of any size,
    is the file; the joiner's size is the file's length.  The getter has to
    return every chunk that was put. *)
Theorem file_roundtrip encrypt ctx st bs last st' root idx k :
  zlen (mjoin bs ++ last) < 2 ^ 63 ->
  FeedPipeline hash encrypt ctx (newFeeder st) (reads bs last) = Some (Ok (st', root)) -> served st' -> (0 < k)%nat ->
  exists j, Joiner.New hash getter root idx = Ok (j, zlen (mjoin bs ++ last)) /\
    read_all hash getter (length (mjoin bs ++ last) + 1) k j = Some (Ok (mjoin bs ++ last)).
Proof.
  intros Hlt E Hs Hk. destruct (feed_opened encrypt ctx st bs last st' root idx Hlt E Hs) as (j & t & EN & Ho & Hoff & Hf).
  exists j. split; [done|]. rewrite <- Hf.
  rewrite (read_all_spec _ _ (refLen_pos encrypt) (branching_gt encrypt) (branching_refLen encrypt) hash getter getter0 Hget _ k j t Ho Hk).
  - rewrite Hoff. done.
  - lia.
  - rewrite Hoff. change (drop (Z.to_nat 0) (flatten t)) with (flatten t). lia.
Qed.

(** C27: [ReadAt] on an uploaded file returns, for any offset, as many bytes as
    the buffer's capacity or the rest of the file allows, and they are the
    file's bytes from that offset on; behind the end it returns [io.EOF]. *)
Theorem file_ReadAt encrypt ctx st bs last st' root idx buf o :
  zlen (mjoin bs ++ last) < 2 ^ 63 ->
  FeedPipeline hash encrypt ctx (newFeeder st) (reads bs last) = Some (Ok (st', root)) -> served st' -> 0 <= o ->
  exists j, Joiner.New hash getter root idx = Ok (j, zlen (mjoin bs ++ last)) /\
    ReadAt hash getter j buf o =
      if zlen (mjoin bs ++ last) <=? o then Some (Err EOF)
      else
        let m := zlen buf `min` (zlen (mjoin bs ++ last) - o) in
        Some (Ok (copy_at 0 (slice (Z.to_nat o) (Z.to_nat o + Z.to_nat m) (mjoin bs ++ last)) buf, m)).
Proof.
  intros Hlt E Hs Hk. destruct (feed_opened encrypt ctx st bs last st' root idx Hlt E Hs) as (j & t & EN & Ho & Hoff & Hf).
  exists j. split; [done|]. rewrite <- Hf.
  by rewrite (ReadAt_spec _ _ (refLen_pos encrypt) (branching_gt encrypt) (branching_refLen encrypt) hash getter getter0 Hget j t).
Qed.

(** [IterateChunkAddresses] on an uploaded file reports the address of the
    root and then every reference of the file's tree once, parents before
    children and in the order of the data; with data chunks to be saved, it saves
    exactly the references of the leaves. *)
Theorem file_IterateChunkAddresses encrypt ctx st bs last st' root idx :
  zlen (mjoin bs ++ last) < 2 ^ 63 ->
  FeedPipeline hash encrypt ctx (newFeeder st) (reads bs last) = Some (Ok (st', root)) -> served st' ->
  exists j t, Joiner.New hash getter root idx = Ok (j, zlen (mjoin bs ++ last)) /\ flatten t = mjoin bs ++ last /\
    exists j', IterateChunkAddresses hash getter visit (SetSaveDataChunks j) [] =
        Some (j', jaddr j :: refs_of (refLen encrypt) hash getter0 t (rootData j), None) /\
      dataChunks j' = leaf_refs (refLen encrypt) hash getter0 t (jaddr j) (rootData j).
Proof.
  intros Hlt E Hs. destruct (feed_opened encrypt ctx st bs last st' root idx Hlt E Hs) as (j & t & EN & [O1 O2 O3 O4 O5] & Hoff & Hf).
  exists j, t. split; [done|]. split; [done|].
  destruct (Iterate_spec _ _ (refLen_pos encrypt) (branching_gt encrypt) (branching_refLen encrypt) hash getter getter0 Hget
    (SetSaveDataChunks j) t [] ltac:(split; done)) as (j' & EI & (_ & _ & Hd)). by exists j'.
Qed.
End Laws.

(** ** A storage for the examples

    The address of a chunk is a number that encodes its data, so that the
    storage needs no memory: it accepts a chunk if its address encodes it. *)

Definition code_address (span data : bytes) : Address :=
  replicate 31 0 ++ [Zpos (encode (span ++ data))].

Definition code_get (a : Address) : result encError bytes :=
  match drop 31 a with
  | Zpos n :: _ => match decode n with Some d => Ok d | None => Err errNotFound end
  | _ => Err errNotFound
  end.

#[refine] Definition code_bmt : BmtSum := {| bmt_sum := code_address |}.
Proof. done. Defined.

#[refine] Definition code_storage : Storage unit := {|
  Put _ a d := match code_get a with
               | Ok d' => if decide (d' = d) then Ok tt else Err errPut
               | Err _ => Err errPut
               end;
  random _ := ((replicate 32 1, fun n => replicate n 2), tt);
  recorded _ a d := code_get a = Ok d;
|}.
Proof.
  - intros _ a d st'. destruct (code_get a) as [d'|e]; [|done]. case_decide; [|done]. subst. done.
  - done.
  - done.
  - intros _ n. apply length_replicate.
Defined.

Lemma code_get_address s d : code_get (code_address s d) = Ok (s ++ d).
Proof. unfold code_get, code_address. rewrite drop_app_length' by done. by rewrite decode_encode. Qed.

Lemma code_Put_ok x : ~ @Put_fails code_bmt unit code_storage x.
Proof.
  intros (st & d & E). cbn [Put code_storage bmt_sum code_bmt] in E.
  rewrite code_get_address, take_drop in E. by rewrite decide_True in E.
Qed.

Lemma code_feeds encrypt bs last : zlen (mjoin bs ++ last) < 2 ^ 63 -> exists root,
  @FeedPipeline code_bmt toy_hash32 unit code_storage encrypt background (newFeeder tt) (reads bs last) = Some (Ok (tt, root)).
Proof.
  intros Hlt. destruct (@FeedPipeline_tree code_bmt toy_hash32 (fun _ => eq_refl) unit code_storage code_get encrypt tt bs last Hlt)
    as ([[[] root]|e] & E & Hr); [by exists root|]. by destruct (code_Put_ok e).
Qed.

Definition code_getter (done : bool) (a : Address) (i : Z) : result encError bytes := code_get a.

(** Instances of the parameters for the examples. *)
Abbreviation code_Feed encrypt bs last :=
  (@FeedPipeline code_bmt toy_hash32 unit code_storage encrypt background (newFeeder tt) (reads bs last)).

Lemma FeedPipeline_total_witness :
  exists st' root, code_Feed true [[1; 2]; [3]] [4] = Some (Ok (st', root)) /\ length root = refLen true.
Proof.
  destruct (@FeedPipeline_total code_bmt toy_hash32 (fun _ => eq_refl) unit code_storage code_get true background tt [[1; 2]; [3]] (Some [4]) eq_refl)
    as [(st' & root & E & Hl & _)|(e & _ & [H|[[_ H]|(_ & k & _ & H)]])].
  - exists st', root. split; [exact E|exact Hl].
  - destruct (code_Put_ok e H).
  - discriminate H.
  - discriminate H.
Defined.

Lemma file_roundtrip_witness : exists root, code_Feed true [[1; 2]; [3]] [4] = Some (Ok (tt, root)) /\
  exists j, Joiner.New toy_hash32 code_getter root 0 = Ok (j, 4) /\
    read_all toy_hash32 code_getter 5 3 j = Some (Ok [1; 2; 3; 4]).
Proof.
  destruct (code_feeds true [[1; 2]; [3]] [4] eq_refl) as [root E]. exists root. split; [exact E|].
  apply (@file_roundtrip code_bmt toy_hash32 (fun _ => eq_refl) unit code_storage code_get code_getter
    (fun _ _ _ => eq_refl) true background tt [[1; 2]; [3]] [4] tt root 0 3 eq_refl E).
  - intros a d Hr. exact Hr.
  - lia.
Defined.

Lemma file_ReadAt_witness : exists root, code_Feed false [[1; 2]; [3]] [4] = Some (Ok (tt, root)) /\
  exists j, Joiner.New toy_hash32 code_getter root 0 = Ok (j, 4) /\
    ReadAt toy_hash32 code_getter j [0; 0] 1 = Some (Ok ([2; 3], 2)).
Proof.
  destruct (code_feeds false [[1; 2]; [3]] [4] eq_refl) as [root E]. exists root. split; [exact E|].
  apply (@file_ReadAt code_bmt toy_hash32 (fun _ => eq_refl) unit code_storage code_get code_getter
    (fun _ _ _ => eq_refl) false background tt [[1; 2]; [3]] [4] tt root 0 [0; 0] 1 eq_refl E).
  - intros a d Hr. exact Hr.
  - lia.
Defined.

Lemma file_IterateChunkAddresses_witness : exists root, code_Feed false [[1; 2]; [3]] [4] = Some (Ok (tt, root)) /\
  exists j t, Joiner.New toy_hash32 code_getter root 0 = Ok (j, 4) /\ flatten t = [1; 2; 3; 4] /\
    exists j', IterateChunkAddresses toy_hash32 code_getter visit (SetSaveDataChunks j) [] =
        Some (j', jaddr j :: refs_of 32 toy_hash32 code_get t (rootData j), None) /\
      dataChunks j' = leaf_refs 32 toy_hash32 code_get t (jaddr j) (rootData j).
Proof.
  destruct (code_feeds false [[1; 2]; [3]] [4] eq_refl) as [root E]. exists root. split; [exact E|].
  apply (@file_IterateChunkAddresses code_bmt toy_hash32 (fun _ => eq_refl) unit code_storage code_get code_getter
    (fun _ _ _ => eq_refl) false background tt [[1; 2]; [3]] [4] tt root 0 eq_refl E).
  intros a d Hr. exact Hr.
Defined.
