(* ===== verification/StateStore.v ===== *)
(** * The state store (pkg/storage: StateStorer)

    Small values of the node are kept under string keys.  The LevelDB behind it
    is not part of the program's logic, so the store is an interface with its
    laws; values are encoded by [encoding/json] or their own [MarshalBinary],
    again an interface. *)

From Stdlib Require Import ZArith Lia.
From stdpp Require Import base gmap list numbers strings.
From S2P Require Import Prelude.

Open Scope Z_scope.

(** A Go string literal as its bytes. *)
Fixpoint str (s : string) : bytes :=
  match s with
  | String.EmptyString => []
  | String.String c s => Z.of_N (Ascii.N_of_ascii c) :: str s
  end.

Inductive storeError :=
| ErrNotFound
| errStorage
| errUnmarshal.

#[export] Instance storeError_eq_dec : EqDecision storeError.
Proof. solve_decision. Defined.

Class StateStorer (S V : Type) := {
  sget : S -> bytes -> result storeError V;
  sput : S -> bytes -> V -> result storeError S;
  sdelete : S -> bytes -> result storeError S;
  (** the keys [Iterate] calls its function with, in that order *)
  skeys : S -> bytes -> list bytes;
  sget_put : forall st k v st' k', sput st k v = Ok st' ->
    sget st' k' = if decide (k' = k) then Ok v else sget st k';
  sget_delete : forall st k st' k', sdelete st k = Ok st' ->
    sget st' k' = if decide (k' = k) then Err ErrNotFound else sget st k';
  skeys_spec : forall st p k, k ∈ skeys st p <-> p `prefix_of` k /\ sget st k <> Err ErrNotFound;
  skeys_NoDup : forall st p, NoDup (skeys st p);
}.

(** Values of type [A] in the store. *)
Class Codec (A V : Type) := {
  marshal : A -> V;
  unmarshal : V -> option A;
  unmarshal_marshal : forall a, unmarshal (marshal a) = Some a;
}.

Section Ops.
Context {S V : Type} `{StateStorer S V}.

Definition Get {A} `{Codec A V} (st : S) (k : bytes) : result storeError A :=
  v ← sget st k;
  match unmarshal v with
  | Some a => Ok a
  | None => Err errUnmarshal
  end.

Definition Put {A} `{Codec A V} (st : S) (k : bytes) (a : A) : result storeError S := sput st k (marshal a).

(** [Iterate] with a function that updates [x] and may stop or fail. *)
Fixpoint iterate_keys {X E} (f : X -> bytes -> result E (X * bool)) (x : X) (ks : list bytes) : result E X :=
  match ks with
  | [] => Ok x
  | k :: ks =>
      '(x, stop) ← f x k;
      if stop : bool then Ok x else iterate_keys f x ks
  end.

Definition Iterate {X E} (st : S) (prefix : bytes) (f : X -> bytes -> result E (X * bool)) (x : X) : result E X :=
  iterate_keys f x (skeys st prefix).

Lemma Get_Put {A} `{Codec A V} st k (a : A) st' : Put st k a = Ok st' -> Get st' k = Ok a.
Proof.
  unfold Put, Get. intros E. rewrite (sget_put _ _ _ _ k E), decide_True by done. cbn [mbind result_bind].
  by rewrite unmarshal_marshal.
Qed.

Lemma Get_Put_ne {A B} `{Codec A V} `{Codec B V} st k k' (a : A) st' : Put st k a = Ok st' -> k' <> k ->
  Get (A := B) st' k' = Get st k'.
Proof. unfold Put, Get. intros E Hk. by rewrite (sget_put _ _ _ _ k' E), decide_False. Qed.
End Ops.

(** ** A store in memory *)

Section Memory.
Context {V : Type}.

#[refine] Definition memory_store : StateStorer (gmap bytes V) V := {|
  sget st k := match st !! k with Some v => Ok v | None => Err ErrNotFound end;
  sput st k v := Ok (<[k := v]> st);
  sdelete st k := Ok (delete k st);
  skeys st p := fst <$> map_to_list (filter (fun kv : bytes * V => p `prefix_of` kv.1) st);
|}.
Proof.
  - intros st k v st' k' [= <-]. case_decide; simplify_map_eq; done.
  - intros st k st' k' [= <-]. case_decide; simplify_map_eq; done.
  - intros st p k. rewrite list_elem_of_fmap. split.
    + intros ([k' v] & E & Hin). cbn in E. subst k'. apply elem_of_map_to_list, map_lookup_filter_Some in Hin as [Hl Hp].
      by rewrite Hl.
    + intros [Hp Hg]. destruct (st !! k) as [v|] eqn:E; [|done]. exists (k, v). split; [done|].
      apply elem_of_map_to_list, map_lookup_filter_Some. done.
  - intros st p. apply NoDup_fst_map_to_list.
Defined.
End Memory.
