(* ===== verification/Cheque.v ===== *)
(** * Cheques (pkg/settlement/traffic/cheque)

    A cheque carries the cumulative amount its issuer owes; only the last one
    counts.  [ReceiveCheque] accepts a cheque that is addressed to this node,
    signed by the beneficiary it names and worth more than the last one.

    The recovery of the signer from a signature is a parameter, as is
    [common.HexToAddress]. *)

From Stdlib Require Import ZArith Lia ZifyBool.
From stdpp Require Import base gmap list numbers strings.
From S2P Require Import Prelude Boson StateStore.

Open Scope Z_scope.

(** [common.Address]: 20 bytes. *)
Abbreviation EthAddress := (list Z).
Definition zeroEth : EthAddress := replicate 20 0.
Definition eth_ok (a : EthAddress) : Prop := length a = 20%nat /\ bytes_ok a.

Record Cheque := MkCheque {
  Recipient : EthAddress;
  Beneficiary : EthAddress;
  CumulativePayout : Z;
}.

(** A nil signature is [None]. *)
Record SignedCheque := MkSigned {
  cheque : Cheque;
  Signature : option bytes;
}.

Definition Equal (c other : Cheque) : bool :=
  if decide (Beneficiary c <> Beneficiary other) then false
  else if negb (CumulativePayout c =? CumulativePayout other) then false
  else true.

(** [bytes.Equal] takes nil for the empty slice. *)
Definition Signed_Equal (c other : SignedCheque) : bool :=
  if decide (default [] (Signature c) <> default [] (Signature other)) then false
  else Equal (cheque c) (cheque other).

Inductive chequeError :=
| ErrNoCheque
| ErrChequeNotIncreasing
| ErrChequeInvalid
| ErrWrongBeneficiary
| errRecover
| errNoPeer
| errStore (e : storeError).

#[export] Instance chequeError_eq_dec : EqDecision chequeError.
Proof. solve_decision. Defined.

Definition lastReceivedChequePrefix : bytes := str "traffic_last_received_cheque_".
Definition lastSendChequePrefix : bytes := str "traffic_last_send_cheque_".
Definition retrievedTrafficPrefix : bytes := str "retrieved_traffic_".
Definition transferredTrafficPrefix : bytes := str "transferred_traffic_".
Definition chainRetrievedTrafficPrefix : bytes := str "chain_retrieved_traffic_".
Definition chainTransferredTrafficPrefix : bytes := str "chain_transferred_traffic_".

(** [fmt.Sprintf("%s_%x", prefix, chainAddress)] *)
Definition key_of (prefix : bytes) (a : EthAddress) : bytes := prefix ++ str "_" ++ EncodeToString a.

Definition lastReceivedChequeKey (a : EthAddress) : bytes := key_of lastReceivedChequePrefix a.
Definition lastSendChequeKey (a : EthAddress) : bytes := key_of lastSendChequePrefix a.
Definition retrievedTraffic (a : EthAddress) : bytes := key_of retrievedTrafficPrefix a.
Definition transferredTraffic (a : EthAddress) : bytes := key_of transferredTrafficPrefix a.
Definition chainRetrievedTraffic (a : EthAddress) : bytes := key_of chainRetrievedTrafficPrefix a.
Definition chainTransferredTraffic (a : EthAddress) : bytes := key_of chainTransferredTrafficPrefix a.

(** [strings.SplitAfter] for a non-empty separator. *)
Fixpoint split_after (fuel : nat) (s sep acc : bytes) : list bytes :=
  match fuel, s with
  | S fuel, x :: s' =>
      if decide (sep `prefix_of` s) then (acc ++ sep) :: split_after fuel (drop (length sep) s) sep []
      else split_after fuel s' sep (acc ++ [x])
  | _, _ => [acc]
  end.

Definition SplitAfter (s sep : bytes) : list bytes := split_after (length s) s sep [].

Section Store.
Context (HexToAddress : bytes -> EthAddress).

Definition keyChainAddress (key prefix : bytes) : result chequeError EthAddress :=
  match SplitAfter key prefix with
  | [_; a] => Ok (HexToAddress a)
  | _ => Err errNoPeer
  end.

Context {S V : Type} `{StateStorer S V} `{Codec SignedCheque V} `{Codec Cheque V} `{Codec Z V}.
(** [recoverChequeFunc]. *)
Context (recover : SignedCheque -> Z -> result chequeError EthAddress).

Record chequeStore := MkStore {
  store : S;
  recipient : EthAddress;
  chainID : Z;
}.

Definition set_store (s : chequeStore) (st : S) : chequeStore := MkStore st (recipient s) (chainID s).

Definition NewChequeStore (st : S) (recipient : EthAddress) (chainID : Z) : chequeStore := MkStore st recipient chainID.

Definition lift {A} (r : result storeError A) : result chequeError A :=
  match r with Ok a => Ok a | Err e => Err (errStore e) end.

(** With [ErrNoCheque] the callee also returns an empty cheque. *)
Definition LastReceivedCheque (s : chequeStore) (a : EthAddress) : option SignedCheque * option chequeError :=
  match Get (A := SignedCheque) (store s) (lastReceivedChequeKey a) with
  | Ok c => (Some c, None)
  | Err ErrNotFound => (Some (MkSigned (MkCheque zeroEth zeroEth 0) None), Some ErrNoCheque)
  | Err e => (None, Some (errStore e))
  end.

Definition LastSendCheque (s : chequeStore) (a : EthAddress) : option Cheque * option chequeError :=
  match Get (A := Cheque) (store s) (lastSendChequeKey a) with
  | Ok c => (Some c, None)
  | Err ErrNotFound => (Some (MkCheque zeroEth zeroEth 0), Some ErrNoCheque)
  | Err e => (None, Some (errStore e))
  end.

Definition ReceiveCheque (s : chequeStore) (c : SignedCheque) : result chequeError (chequeStore * Z) :=
  if decide (Recipient (cheque c) <> recipient s) then Err ErrWrongBeneficiary
  else
    issuer ← recover c (chainID s);
    if decide (issuer <> Beneficiary (cheque c)) then Err ErrChequeInvalid
    else
      lastCumulativePayout ←
        match Get (A := SignedCheque) (store s) (lastReceivedChequeKey (Beneficiary (cheque c))) with
        | Ok last => Ok (CumulativePayout (cheque last))
        | Err ErrNotFound => Ok 0
        | Err e => Err (errStore e)
        end;
      let amount := CumulativePayout (cheque c) - lastCumulativePayout in
      if amount <=? 0 then Err ErrChequeNotIncreasing
      else
        st ← lift (Put (store s) (lastReceivedChequeKey (Beneficiary (cheque c))) c);
        Ok (set_store s st, amount).

Definition put_value {A} `{Codec A V} (s : chequeStore) (k : bytes) (x : A) : result chequeError chequeStore :=
  st ← lift (Put (store s) k x); Ok (set_store s st).

Definition PutSendCheque (s : chequeStore) (c : Cheque) (a : EthAddress) := put_value s (lastSendChequeKey a) c.
Definition PutReceivedCheques (s : chequeStore) (a : EthAddress) (c : SignedCheque) := put_value s (lastReceivedChequeKey a) c.
Definition PutRetrieveTraffic (s : chequeStore) (a : EthAddress) (traffic : Z) := put_value s (retrievedTraffic a) traffic.
Definition PutTransferTraffic (s : chequeStore) (a : EthAddress) (traffic : Z) := put_value s (transferredTraffic a) traffic.
Definition PutChainRetrieveTraffic (s : chequeStore) (a : EthAddress) (traffic : Z) := put_value s (chainRetrievedTraffic a) traffic.
Definition PutChainTransferTraffic (s : chequeStore) (a : EthAddress) (traffic : Z) := put_value s (chainTransferredTraffic a) traffic.

(** The counters are zero when missing; an error comes with a zero as well. *)
Definition get_counter (s : chequeStore) (k : bytes) : result chequeError Z :=
  match Get (A := Z) (store s) k with
  | Ok t => Ok t
  | Err ErrNotFound => Ok 0
  | Err e => Err (errStore e)
  end.

Definition GetRetrieveTraffic (s : chequeStore) (a : EthAddress) := get_counter s (retrievedTraffic a).
Definition GetTransferTraffic (s : chequeStore) (a : EthAddress) := get_counter s (transferredTraffic a).
Definition GetChainRetrieveTraffic (s : chequeStore) (a : EthAddress) := get_counter s (chainRetrievedTraffic a).
Definition GetChainTransferTraffic (s : chequeStore) (a : EthAddress) := get_counter s (chainTransferredTraffic a).

Definition VerifyCheque (c : SignedCheque) (chainID : Z) : result chequeError EthAddress := recover c chainID.

(** The function [LastReceivedCheques] and [LastSendCheques] iterate with. *)
Definition collect {A} (prefix : bytes) (last : EthAddress -> option A * option chequeError)
    (m : gmap EthAddress A) (key : bytes) : result chequeError (gmap EthAddress A * bool) :=
  addr ← keyChainAddress key (prefix ++ str "_");
  match m !! addr with
  | Some _ => Ok (m, false)
  | None =>
      match last addr with
      | (_, Some ErrNoCheque) => Ok (m, false)
      | (_, Some e) => Err e
      | (Some c, None) => Ok (<[addr := c]> m, false)
      | (None, None) => Ok (m, false)
      end
  end.

Definition LastReceivedCheques (s : chequeStore) : result chequeError (gmap EthAddress SignedCheque) :=
  Iterate (store s) lastReceivedChequePrefix (collect lastReceivedChequePrefix (LastReceivedCheque s)) ∅.

Definition LastSendCheques (s : chequeStore) : result chequeError (gmap EthAddress Cheque) :=
  Iterate (store s) lastSendChequePrefix (collect lastSendChequePrefix (LastSendCheque s)) ∅.

Definition add_address (prefix : bytes) (m : gset EthAddress) (key : bytes) : result chequeError (gset EthAddress * bool) :=
  addr ← keyChainAddress key (prefix ++ str "_"); Ok ({[addr]} ∪ m, false).

Definition GetAllRetrieveTransferAddresses (s : chequeStore) : result chequeError (gset EthAddress) :=
  m ← Iterate (store s) retrievedTrafficPrefix (add_address retrievedTrafficPrefix) ∅;
  Iterate (store s) transferredTrafficPrefix (add_address transferredTrafficPrefix) m.
End Store.

(** * Keys *)

Lemma split_after_none fuel s sep acc x : x ∈ sep -> x ∉ s -> split_after fuel s sep acc = [acc ++ take fuel s].
Proof.
  intros Hx. revert s acc. induction fuel as [|fuel IH]; intros [|y s] acc Hs; cbn [split_after take];
    try by rewrite app_nil_r.
  rewrite decide_False.
  - rewrite IH by set_solver. by rewrite <- app_assoc.
  - intros [k E]. apply Hs. rewrite E. set_solver.
Qed.

Lemma SplitAfter_key p s x : x ∈ p -> x ∉ s -> SplitAfter (p ++ s) p = [p; s].
Proof.
  intros Hx Hs. unfold SplitAfter. destruct p as [|y p]; [by apply not_elem_of_nil in Hx|].
  rewrite length_app. cbn [length Nat.add split_after app].
  rewrite decide_True by (exists s; done). cbn [app length drop]. f_equal.
  change (drop (length p) (p ++ s)) with (drop (length p) (p ++ s)). rewrite drop_app_length.
  rewrite (split_after_none _ s (y :: p) [] x) by done. cbn [app]. f_equal. apply take_ge. lia.
Qed.

Lemma hexDigit_not_underscore d : 0 <= d < 16 -> hexDigit d <> 95.
Proof. intros Hd. unfold hexDigit. case_match; lia. Qed.

Lemma hex_no_underscore a : bytes_ok a -> 95 ∉ EncodeToString a.
Proof.
  induction 1 as [|x a Hx _ IH]; cbn [EncodeToString]; [apply not_elem_of_nil|]. unfold is_byte in Hx.
  assert (0 <= x / 16 < 16) by (split; [apply Z.div_pos; lia|apply Z.div_lt_upper_bound; lia]).
  pose proof (Z.mod_pos_bound x 16 ltac:(lia)).
  rewrite !not_elem_of_cons. split_and!; [..|done]; apply not_eq_sym, hexDigit_not_underscore; lia.
Qed.

Lemma EncodeToString_inj a b : bytes_ok a -> bytes_ok b -> EncodeToString a = EncodeToString b -> a = b.
Proof. intros Ha Hb E. apply (f_equal DecodeString) in E. rewrite !DecodeString_Encode in E by done. by injection E. Qed.

Lemma key_of_inj p a b : bytes_ok a -> bytes_ok b -> key_of p a = key_of p b -> a = b.
Proof. intros Ha Hb E. unfold key_of in E. apply app_inv_head, app_inv_head in E. by apply EncodeToString_inj. Qed.

Lemma key_of_prefix p a : p `prefix_of` key_of p a.
Proof. unfold key_of. by exists (str "_" ++ EncodeToString a). Qed.

(** Keys under prefixes that do not extend each other are different. *)
Lemma key_of_ne p q a b : ~ p `prefix_of` q -> ~ q `prefix_of` p -> key_of p a <> key_of q b.
Proof.
  intros Hp Hq E. destruct (prefix_weak_total p q (key_of p a)) as [H|H]; [apply key_of_prefix|rewrite E; apply key_of_prefix|done|done].
Qed.

Section Facts.
Context (HexToAddress : bytes -> EthAddress) (Hhex : forall a, eth_ok a -> HexToAddress (EncodeToString a) = a).
Context {S V : Type} `{ST : StateStorer S V} `{CS : Codec SignedCheque V} `{CC : Codec Cheque V} `{CZ : Codec Z V}.
Lemma keyChainAddress_key p a : eth_ok a -> keyChainAddress HexToAddress (key_of p a) (p ++ str "_") = Ok a.
Proof.
  intros Ha. unfold keyChainAddress, key_of. rewrite app_assoc.
  rewrite (SplitAfter_key _ _ 95); [by rewrite Hhex|cbn; set_solver|]. apply hex_no_underscore, Ha.
Qed.

(** ** The lists of last cheques *)

Lemma collect_key {A} p (last : EthAddress -> option A * option chequeError) m a c : eth_ok a -> last a = (Some c, None) ->
  collect HexToAddress p last m (key_of p a) = Ok (match m !! a with Some _ => m | None => <[a := c]> m end, false).
Proof. intros Ha El. unfold collect. rewrite keyChainAddress_key by done. cbn [mbind result_bind]. rewrite El. by destruct (m !! a). Qed.

Lemma collect_all {A} p (last : EthAddress -> option A * option chequeError) ks m :
  Forall (fun k => exists a c, eth_ok a /\ k = key_of p a /\ last a = (Some c, None)) ks ->
  exists m', iterate_keys (collect HexToAddress p last) m ks = Ok m' /\
    forall a, eth_ok a -> m' !! a = match m !! a with Some c => Some c | None => if decide (key_of p a ∈ ks) then (last a).1 else None end.
Proof.
  intros Hks. revert m. induction Hks as [|k ks (a & c & Ha & -> & El) _ IH]; intros m; cbn [iterate_keys].
  { exists m. split; [done|]. intros a _. rewrite decide_False by apply not_elem_of_nil. by destruct (m !! a). }
  rewrite (collect_key p last m a c Ha El). cbn [mbind result_bind].
  assert (Hmem : forall b, eth_ok b -> key_of p b ∈ key_of p a :: ks <-> b = a \/ key_of p b ∈ ks).
  { intros b Hb. rewrite elem_of_cons. split; [|naive_solver]. intros [E|?]; [left|by right].
    by apply (key_of_inj p); [apply Hb|apply Ha|]. }
  destruct (m !! a) as [c0|] eqn:Em.
  - destruct (IH m) as (m' & -> & Hm'). exists m'. split; [done|]. intros b Hb. rewrite Hm' by done.
    destruct (m !! b) as [c1|] eqn:Emb; [done|]. apply decide_ext. rewrite Hmem by done.
    split; [by right|]. intros [->|?]; [by rewrite Em in Emb|done].
  - destruct (IH (<[a := c]> m)) as (m' & -> & Hm'). exists m'. split; [done|]. intros b Hb. rewrite Hm' by done.
    destruct (decide (b = a)) as [->|Hne].
    + rewrite lookup_insert_eq, Em, decide_True by (by left). by rewrite El.
    + rewrite lookup_insert_ne by done. destruct (m !! b); [done|]. apply decide_ext. rewrite Hmem by done. naive_solver.
Qed.

(** When the received-cheque keys of the store are well formed and decode,
    [LastReceivedCheques] returns for every address exactly the cheque stored
    for it. *)
Theorem LastReceivedCheques_spec (s : @chequeStore S) :
  (forall k, k ∈ skeys (store s) lastReceivedChequePrefix -> exists a c, eth_ok a /\ k = lastReceivedChequeKey a /\
     Get (A := SignedCheque) (store s) k = Ok c) ->
  exists m, LastReceivedCheques HexToAddress s = Ok m /\
    forall a c, eth_ok a -> m !! a = Some c <-> Get (store s) (lastReceivedChequeKey a) = Ok c.
Proof.
  intros Hk. destruct (collect_all lastReceivedChequePrefix (LastReceivedCheque s) (skeys (store s) lastReceivedChequePrefix) ∅)
    as (m & E & Hm).
  { apply Forall_forall. intros k Hin. apply Hk in Hin as (a & c & Ha & -> & Hg). exists a, c.
    split_and!; [done|done|]. unfold LastReceivedCheque. by rewrite Hg. }
  exists m. split; [done|]. intros a c Ha. rewrite Hm, lookup_empty by done.
  destruct (decide (key_of lastReceivedChequePrefix a ∈ skeys (store s) lastReceivedChequePrefix)) as [Hin|Hin].
  - destruct (Hk _ Hin) as (a' & c' & Ha' & Ek & Hg). apply key_of_inj in Ek as <-; [|apply Ha|apply Ha'].
    unfold LastReceivedCheque, lastReceivedChequeKey in *. rewrite Hg. cbn [fst]. naive_solver.
  - split; [done|]. intros Hg. destruct Hin. apply skeys_spec. split; [apply key_of_prefix|].
    intros En. unfold Get, lastReceivedChequeKey in Hg. by rewrite En in Hg.
Qed.
(** ** Receiving *)

Context (recover : SignedCheque -> Z -> result chequeError EthAddress).

Abbreviation chequeStore := (@chequeStore S).
Abbreviation ReceiveCheque := (@ReceiveCheque S V ST CS recover).

(** The payout of the last cheque from [a]. *)
Definition last_payout (s : chequeStore) (a : EthAddress) : Z :=
  match Get (A := SignedCheque) (store s) (lastReceivedChequeKey a) with
  | Ok c => CumulativePayout (cheque c)
  | Err _ => 0
  end.

Lemma ReceiveCheque_Ok s c s' amount : ReceiveCheque s c = Ok (s', amount) ->
  Recipient (cheque c) = recipient s /\ recover c (chainID s) = Ok (Beneficiary (cheque c)) /\ 0 < amount /\
  CumulativePayout (cheque c) = last_payout s (Beneficiary (cheque c)) + amount /\
  last_payout s' (Beneficiary (cheque c)) = CumulativePayout (cheque c) /\
  recipient s' = recipient s /\ chainID s' = chainID s /\
  (forall k, k <> lastReceivedChequeKey (Beneficiary (cheque c)) -> sget (store s') k = sget (store s) k).
Proof.
  unfold ReceiveCheque. case_decide as Hr; [done|].
  destruct (recover c (chainID s)) as [issuer|e] eqn:Er; cbn [mbind result_bind]; [|done].
  case_decide as Hi; [done|]. subst issuer. unfold last_payout.
  set (k := lastReceivedChequeKey _).
  assert (Hcase : forall last, (if CumulativePayout (cheque c) - last <=? 0 then Err ErrChequeNotIncreasing
    else st ← lift (Put (store s) k c); Ok (set_store s st, CumulativePayout (cheque c) - last)) = Ok (s', amount) ->
    0 < amount /\ CumulativePayout (cheque c) = last + amount /\ Put (store s) k c = Ok (store s') /\
    recipient s' = recipient s /\ chainID s' = chainID s).
  { intros last. destruct (Z.leb_spec (CumulativePayout (cheque c) - last) 0); [done|].
    destruct (Put (store s) k c) as [st|e]; cbn [lift mbind result_bind]; [|done]. intros [= <- <-].
    split_and!; (done || lia). }
  intros E. assert (exists last, match Get (A := SignedCheque) (store s) k with Ok c => CumulativePayout (cheque c) | Err _ => 0 end = last /\
    0 < amount /\ CumulativePayout (cheque c) = last + amount /\ Put (store s) k c = Ok (store s') /\
    recipient s' = recipient s /\ chainID s' = chainID s) as (last & El & H1 & H2 & H3 & H4).
  { destruct (Get (store s) k) as [last|[]]; cbn [mbind result_bind] in E; try done; eexists; (split; [done|]); by apply Hcase. }
  split_and!; try done; [by rewrite El|by rewrite (Get_Put _ _ _ _ H3)|apply H4|apply H4|].
  intros k' Hk'. unfold Put in H3. by rewrite (sget_put _ _ _ _ k' H3), decide_False.
Qed.

(** A sequence of received cheques: the rejected ones change nothing; the log
    has the beneficiary and the amount of the accepted ones. *)
Fixpoint receive_all (s : chequeStore) (cs : list SignedCheque) : chequeStore * list (EthAddress * Z) :=
  match cs with
  | [] => (s, [])
  | c :: cs =>
      match ReceiveCheque s c with
      | Err _ => receive_all s cs
      | Ok (s, amount) => let '(s, log) := receive_all s cs in (s, (Beneficiary (cheque c), amount) :: log)
      end
  end.

Definition earned (b : EthAddress) (log : list (EthAddress * Z)) : Z :=
  foldr (fun e acc => (if decide (e.1 = b) then e.2 else 0) + acc) 0 log.

(** C12: over any sequence of received cheques, replays and reorderings included,
    the amounts credited for a beneficiary add up to the payout of its last
    accepted cheque; every credited amount is positive, and every credited
    cheque is signed by its beneficiary and made out to this node. *)
Theorem receive_all_credits s cs s' log b : receive_all s cs = (s', log) ->
  Forall (fun c => eth_ok (Beneficiary (cheque c))) cs -> eth_ok b ->
  last_payout s' b = last_payout s b + earned b log /\ Forall (fun e => 0 < e.2) log /\
  (forall e, e ∈ log -> exists c, c ∈ cs /\ Beneficiary (cheque c) = e.1 /\
     recover c (chainID s) = Ok e.1 /\ Recipient (cheque c) = recipient s).
Proof.
  intros E Hok Hb. revert s s' log E. induction Hok as [|c cs Hc _ IH]; intros s s' log E; cbn [receive_all] in E.
  { injection E as <- <-. split_and!; [cbn; lia|constructor|intros e He; by apply not_elem_of_nil in He]. }
  destruct (ReceiveCheque s c) as [[s1 amount]|x] eqn:ER.
  - apply ReceiveCheque_Ok in ER as (H1 & H2 & H3 & H4 & H5 & H6 & H7 & H8).
    destruct (receive_all s1 cs) as [s2 log2] eqn:E2. injection E as <- <-.
    destruct (IH s1 s2 log2 E2) as (P1 & P2 & P3). rewrite H6, H7 in P3. split_and!.
    + cbn [earned foldr fst snd]. fold (earned b log2). rewrite P1. case_decide as Hd; [subst b; lia|].
      assert (last_payout s1 b = last_payout s b) as ->; [|lia]. unfold last_payout, Get.
      rewrite H8; [done|]. intros Ek. apply Hd. symmetry. by apply (key_of_inj _ _ _ (proj2 Hb) (proj2 Hc) Ek).
    + by constructor.
    + intros e [->|He]%elem_of_cons; [exists c; by split_and!; [left|..]|].
      destruct (P3 e He) as (c' & ? & ?). exists c'. split; [by right|done].
  - destruct (IH s s' log E) as (P1 & P2 & P3). split_and!; [done|done|].
    intros e He. destruct (P3 e He) as (c' & ? & ?). exists c'. split; [by right|done].
Qed.

(** With a working storage, [ReceiveCheque] accepts a cheque exactly when it
    is made out to this node, signed by its beneficiary and worth more than the
    beneficiary's last cheque. *)
Theorem ReceiveCheque_accepts s c :
  (forall e, Get (A := SignedCheque) (store s) (lastReceivedChequeKey (Beneficiary (cheque c))) = Err e -> e = ErrNotFound) ->
  (exists st, Put (store s) (lastReceivedChequeKey (Beneficiary (cheque c))) c = Ok st) ->
  (exists s' amount, ReceiveCheque s c = Ok (s', amount)) <->
  Recipient (cheque c) = recipient s /\ recover c (chainID s) = Ok (Beneficiary (cheque c)) /\
  last_payout s (Beneficiary (cheque c)) < CumulativePayout (cheque c).
Proof.
  intros Hg [st Hp]. split.
  - intros (s' & amount & E). apply ReceiveCheque_Ok in E as (H1 & H2 & H3 & H4 & _). split_and!; [done|done|lia].
  - intros (H1 & H2 & H3). unfold Cheque.ReceiveCheque. rewrite decide_False by (by intros []). rewrite H2. cbn [mbind result_bind].
    rewrite decide_False by (by intros []). unfold last_payout in H3. rewrite Hp. cbn [lift mbind result_bind].
    destruct (Get (store s) _) as [last|e]; [|rewrite (Hg e eq_refl)]; cbn [mbind result_bind];
      rewrite (proj2 (Z.leb_gt _ _)) by lia; by eexists _, _.
Qed.

End Facts.

(** ** Examples *)

Inductive sval :=
| VSigned (c : SignedCheque)
| VCheque (c : Cheque)
| VInt (z : Z).

#[refine] Definition signed_codec : Codec SignedCheque sval :=
  {| marshal := VSigned; unmarshal v := match v with VSigned c => Some c | _ => None end |}.
Proof. done. Defined.

#[refine] Definition cheque_codec : Codec Cheque sval :=
  {| marshal := VCheque; unmarshal v := match v with VCheque c => Some c | _ => None end |}.
Proof. done. Defined.

#[refine] Definition int_codec : Codec Z sval :=
  {| marshal := VInt; unmarshal v := match v with VInt z => Some z | _ => None end |}.
Proof. done. Defined.

(** A signature is the signer's address. *)
Definition toy_recover (c : SignedCheque) (chainID : Z) : result chequeError EthAddress :=
  match Signature c with Some s => Ok s | None => Err errRecover end.

Definition toy_hex (s : bytes) : EthAddress := match DecodeString s with Ok a => a | Err _ => [] end.

Definition toy_eth (n : Z) : EthAddress := replicate 20 n.

Definition toy_cheque (from to amount : Z) : SignedCheque :=
  MkSigned (MkCheque (toy_eth to) (toy_eth from) amount) (Some (toy_eth from)).

Definition toy_receive := @receive_all (gmap bytes sval) sval memory_store signed_codec toy_recover.
Definition toy_store : chequeStore := MkStore (∅ : gmap bytes sval) (toy_eth 9) 1.

Lemma toy_eth_ok n : 0 <= n < 256 -> eth_ok (toy_eth n).
Proof. intros Hn. split; [done|]. by apply Forall_replicate. Qed.

Lemma receive_all_credits_witness :
  let cs := [toy_cheque 1 9 10; toy_cheque 1 9 10; toy_cheque 1 9 25; toy_cheque 1 9 10; toy_cheque 2 8 5] in
  (toy_receive toy_store cs).2 = [(toy_eth 1, 10); (toy_eth 1, 15)] /\
  @last_payout _ _ memory_store signed_codec (toy_receive toy_store cs).1 (toy_eth 1) = 0 + 25.
Proof.
  cbv zeta. set (cs := [_; _; _; _; _]). split; [vm_compute; reflexivity|].
  refine (proj1 (@receive_all_credits _ _ memory_store signed_codec toy_recover toy_store cs _ _ (toy_eth 1) (surjective_pairing _) _ _)).
  - repeat (constructor; [apply toy_eth_ok; lia|]). constructor.
  - apply toy_eth_ok. lia.
Defined.

Lemma ReceiveCheque_accepts_witness :
  exists s' amount, @ReceiveCheque _ _ memory_store signed_codec toy_recover toy_store (toy_cheque 1 9 10) = Ok (s', amount).
Proof.
  apply (@ReceiveCheque_accepts _ _ memory_store signed_codec toy_recover toy_store (toy_cheque 1 9 10)).
  - vm_compute. intros e [= <-]. reflexivity.
  - eexists. reflexivity.
  - split; [reflexivity|]. split; [reflexivity|]. vm_compute. reflexivity.
Defined.

Lemma LastReceivedCheques_spec_witness : exists m,
  @LastReceivedCheques toy_hex _ _ memory_store signed_codec
    (MkStore {[ lastReceivedChequeKey (toy_eth 7) := VSigned (toy_cheque 7 9 3) ]} (toy_eth 9) 1) = Ok m /\
  m !! toy_eth 7 = Some (toy_cheque 7 9 3).
Proof.
  destruct (@LastReceivedCheques_spec toy_hex ltac:(intros a [_ Ha]; unfold toy_hex; by rewrite DecodeString_Encode)
    _ _ memory_store signed_codec (MkStore {[ lastReceivedChequeKey (toy_eth 7) := VSigned (toy_cheque 7 9 3) ]} (toy_eth 9) 1))
    as (m & E & Hm).
  - intros k Hk. exists (toy_eth 7), (toy_cheque 7 9 3). split; [apply toy_eth_ok; lia|].
    apply skeys_spec in Hk as [_ Hk]. cbn [sget memory_store store] in Hk. destruct (decide (k = lastReceivedChequeKey (toy_eth 7))) as [->|Hne].
    + split; [reflexivity|]. vm_compute. reflexivity.
    + exfalso. apply Hk. by rewrite lookup_singleton_ne.
  - exists m. split; [exact E|]. apply (Hm _ _ (toy_eth_ok 7 ltac:(lia))). vm_compute. reflexivity.
Defined.
