(* ===== verification/AddressBook.v ===== *)
(** * The address book of the settlement (pkg/settlement/traffic/addressbook.go)

    Which peer pays from which chain address, and back: two maps in memory,
    mirrored in the state store and restored from there at the start.

    [common.Address.Hex] and [common.HexToAddress] are parameters. *)

From Stdlib Require Import ZArith Lia ZifyBool.
From stdpp Require Import base gmap list numbers strings.
From S2P Require Import Prelude Boson StateStore Cheque.

Open Scope Z_scope.

Inductive bookError :=
| errBookStore (e : storeError)
| errHex (e : hexError)
| errNoSeparator.     (** [keys\[1\]] out of range *)

#[export] Instance hexError_eq_dec : EqDecision hexError.
Proof. solve_decision. Defined.
#[export] Instance bookError_eq_dec : EqDecision bookError.
Proof. solve_decision. Defined.

Definition beneficiaryPeerPrefix : bytes := str "boson_beneficiary_peer_".
Definition peerBeneficiaryPrefix : bytes := str "boson_peer_beneficiary_".

(** [strings.Split] at a one-byte separator. *)
Fixpoint split_at (c : Z) (s acc : bytes) : list bytes :=
  match s with
  | [] => [acc]
  | x :: s => if x =? c then acc :: split_at c s [] else split_at c s (acc ++ [x])
  end.

Lemma split_at_none c s acc : c ∉ s -> split_at c s acc = [acc ++ s].
Proof.
  revert acc. induction s as [|x s IH]; intros acc Hc; cbn [split_at]; [by rewrite app_nil_r|].
  rewrite (proj2 (Z.eqb_neq _ _)) by set_solver. rewrite IH by set_solver. by rewrite <- app_assoc.
Qed.

Definition dash : Z := 45.

Definition TrimPrefix (s p : bytes) : bytes := if decide (p `prefix_of` s) then drop (length p) s else s.

Definition lift_book {A} (r : result storeError A) : result bookError A :=
  match r with Ok a => Ok a | Err e => Err (errBookStore e) end.

Section Book.
Context (Hex : EthAddress -> bytes) (HexToAddress : bytes -> EthAddress).
Context {S V : Type} `{ST : StateStorer S V} `{CA : Codec (list Z) V}.

Record addressBook := MkBook {
  bstore : S;
  peerBeneficiary : gmap bytes EthAddress;   (** by [peer.String()] *)
  beneficiaryPeer : gmap bytes Address;      (** by [beneficiary.String()] *)
}.

Definition NewAddressBook (st : S) : addressBook := MkBook st ∅ ∅.

Definition peerBeneficiaryKey (peer : Address) : bytes := peerBeneficiaryPrefix ++ str "-" ++ String peer.
Definition beneficiaryPeerKey (b : EthAddress) : bytes := beneficiaryPeerPrefix ++ str "-" ++ Hex b.

Definition peerUnmarshalKey (keyPrefix key : bytes) : result bookError Address :=
  match split_at dash (TrimPrefix key keyPrefix) [] with
  | _ :: k :: _ => match ParseHexAddress k with Ok a => Ok a | Err e => Err (errHex e) end
  | _ => Err errNoSeparator
  end.

Definition beneficiaryUnmarshalKey (keyPrefix key : bytes) : result bookError EthAddress :=
  match split_at dash (TrimPrefix key keyPrefix) [] with
  | _ :: k :: _ => Ok (HexToAddress k)
  | _ => Ok zeroEth
  end.

Definition putPeerBeneficiary (a : addressBook) (peer : Address) (b : EthAddress) : addressBook :=
  MkBook (bstore a) (<[String peer := b]> (peerBeneficiary a)) (beneficiaryPeer a).

Definition putBeneficiaryPeer (a : addressBook) (peer : Address) (b : EthAddress) : addressBook :=
  MkBook (bstore a) (peerBeneficiary a) (<[Hex b := peer]> (beneficiaryPeer a)).

Definition Beneficiary (a : addressBook) (peer : Address) : option EthAddress := peerBeneficiary a !! String peer.
Definition BeneficiaryPeer (a : addressBook) (b : EthAddress) : option Address := beneficiaryPeer a !! Hex b.

Definition set_bstore (a : addressBook) (st : S) : addressBook := MkBook st (peerBeneficiary a) (beneficiaryPeer a).

(** The maps are updated before the store; a failed [Put] leaves them changed,
    so the book comes back with the error. *)
Definition PutBeneficiary (a : addressBook) (peer : Address) (b : EthAddress) : addressBook * result bookError unit :=
  let a := putPeerBeneficiary a peer b in
  let a := putBeneficiaryPeer a peer b in
  match Put (A := list Z) (bstore a) (peerBeneficiaryKey peer) b with
  | Err e => (a, Err (errBookStore e))
  | Ok st =>
      match Put (A := list Z) st (beneficiaryPeerKey b) peer with
      | Err e => (set_bstore a st, Err (errBookStore e))
      | Ok st => (set_bstore a st, Ok tt)
      end
  end.

(** The functions [InitAddressBook] iterates with. *)
Definition load_peer (a : addressBook) (k : bytes) : result bookError (addressBook * bool) :=
  if decide (peerBeneficiaryPrefix `prefix_of` k) then
    peer ← peerUnmarshalKey peerBeneficiaryPrefix k;
    b ← lift_book (Get (A := list Z) (bstore a) k);
    Ok (putPeerBeneficiary a peer b, false)
  else Ok (a, true).

Definition load_beneficiary (a : addressBook) (k : bytes) : result bookError (addressBook * bool) :=
  if decide (beneficiaryPeerPrefix `prefix_of` k) then
    b ← beneficiaryUnmarshalKey beneficiaryPeerPrefix k;
    peer ← lift_book (Get (A := list Z) (bstore a) k);
    Ok (putBeneficiaryPeer a peer b, false)
  else Ok (a, true).

Definition InitAddressBook (a : addressBook) : result bookError addressBook :=
  a ← Iterate (bstore a) peerBeneficiaryPrefix load_peer a;
  Iterate (bstore a) beneficiaryPeerPrefix load_beneficiary a.

(** * Facts *)

Context (Hhex : forall a, eth_ok a -> HexToAddress (Hex a) = a) (Hdash : forall a, eth_ok a -> dash ∉ Hex a).

Lemma hexDigit_ne d c : 0 <= d < 16 -> c < 48 -> hexDigit d <> c.
Proof. intros Hd Hc. unfold hexDigit. case_match; lia. Qed.

Lemma String_no_dash a : bytes_ok a -> dash ∉ String a.
Proof.
  unfold String. induction 1 as [|x a Hx _ IH]; cbn [EncodeToString]; [apply not_elem_of_nil|]. unfold is_byte in Hx.
  assert (0 <= x / 16 < 16) by (split; [apply Z.div_pos; lia|apply Z.div_lt_upper_bound; lia]).
  pose proof (Z.mod_pos_bound x 16 ltac:(lia)).
  rewrite !not_elem_of_cons. split_and!; [..|done]; apply not_eq_sym, hexDigit_ne; unfold dash; lia.
Qed.

Lemma key_parts p s : dash ∉ s -> split_at dash (TrimPrefix (p ++ str "-" ++ s) p) [] = [[]; s].
Proof.
  intros Hs. unfold TrimPrefix. rewrite decide_True by (eexists; done). rewrite drop_app_length.
  change (str "-" ++ s) with (dash :: s). cbn [split_at]. rewrite Z.eqb_refl. by rewrite split_at_none.
Qed.

Lemma peerUnmarshalKey_key peer : bytes_ok peer ->
  peerUnmarshalKey peerBeneficiaryPrefix (peerBeneficiaryKey peer) = Ok peer.
Proof.
  intros Hp. unfold peerUnmarshalKey, peerBeneficiaryKey. rewrite key_parts by (by apply String_no_dash).
  unfold ParseHexAddress, String. by rewrite DecodeString_Encode.
Qed.

Lemma beneficiaryUnmarshalKey_key b : eth_ok b ->
  beneficiaryUnmarshalKey beneficiaryPeerPrefix (beneficiaryPeerKey b) = Ok b.
Proof. intros Hb. unfold beneficiaryUnmarshalKey, beneficiaryPeerKey. rewrite key_parts by (by apply Hdash). by rewrite Hhex. Qed.

Lemma String_inj a b : bytes_ok a -> bytes_ok b -> String a = String b -> a = b.
Proof. apply EncodeToString_inj. Qed.

Lemma Hex_inj a b : eth_ok a -> eth_ok b -> Hex a = Hex b -> a = b.
Proof. intros Ha Hb E. by rewrite <- (Hhex a Ha), E, Hhex. Qed.

Lemma peerBeneficiaryKey_inj a b : bytes_ok a -> bytes_ok b -> peerBeneficiaryKey a = peerBeneficiaryKey b -> a = b.
Proof. intros Ha Hb E. apply String_inj; [done..|]. by apply app_inv_head, app_inv_head in E. Qed.

Lemma beneficiaryPeerKey_inj a b : eth_ok a -> eth_ok b -> beneficiaryPeerKey a = beneficiaryPeerKey b -> a = b.
Proof. intros Ha Hb E. apply Hex_inj; [done..|]. by apply app_inv_head, app_inv_head in E. Qed.

Lemma keys_differ p b : peerBeneficiaryKey p <> beneficiaryPeerKey b.
Proof. intros E. by apply (f_equal (fun l => l !! 6%nat)) in E. Qed.

Definition get_ok (st : S) (k : bytes) : option (list Z) :=
  match Get (A := list Z) st k with Ok x => Some x | Err _ => None end.

(** The store below the two prefixes holds well-formed entries. *)
Record store_ok (st : S) : Prop := {
  so_peer : forall k, k ∈ skeys st peerBeneficiaryPrefix -> exists p b, bytes_ok p /\ k = peerBeneficiaryKey p /\ Get st k = Ok b;
  so_bene : forall k, k ∈ skeys st beneficiaryPeerPrefix -> exists b (p : Address), eth_ok b /\ k = beneficiaryPeerKey b /\ Get st k = Ok p;
}.

(** The maps mirror the store. *)
Definition mirrored (a : addressBook) : Prop :=
  (forall p, bytes_ok p -> Beneficiary a p = get_ok (bstore a) (peerBeneficiaryKey p)) /\
  (forall b, eth_ok b -> BeneficiaryPeer a b = get_ok (bstore a) (beneficiaryPeerKey b)).

Lemma load_peers a ks :
  (forall k, k ∈ ks -> exists p b, bytes_ok p /\ k = peerBeneficiaryKey p /\ Get (bstore a) k = Ok b) ->
  exists m, iterate_keys load_peer a ks = Ok (MkBook (bstore a) m (beneficiaryPeer a)) /\
    forall p, bytes_ok p -> m !! String p =
      if decide (peerBeneficiaryKey p ∈ ks) then get_ok (bstore a) (peerBeneficiaryKey p) else Beneficiary a p.
Proof.
  revert a. induction ks as [|k ks IH]; intros a Hk; cbn [iterate_keys].
  { exists (peerBeneficiary a). split; [by destruct a|]. intros p _. by rewrite decide_False by apply not_elem_of_nil. }
  destruct (Hk k ltac:(left)) as (q & b & Hq & -> & Hg).
  assert (El : load_peer a (peerBeneficiaryKey q) = Ok (putPeerBeneficiary a q b, false)).
  { unfold load_peer. rewrite decide_True by (by eexists). rewrite peerUnmarshalKey_key by done. cbn [mbind result_bind].
    by rewrite Hg. }
  rewrite El. cbn [mbind result_bind].
  destruct (IH (putPeerBeneficiary a q b)) as (m & -> & Hm); [intros k Hin; apply Hk; by right|].
  exists m. split; [done|]. intros p Hp. rewrite Hm by done. cbn [bstore putPeerBeneficiary].
  destruct (decide (p = q)) as [->|Hne].
  - rewrite (decide_True (P := _ ∈ _ :: _)) by (by left). case_decide; [done|]. unfold Beneficiary. cbn [peerBeneficiary putPeerBeneficiary].
    rewrite lookup_insert_eq. unfold get_ok. by rewrite Hg.
  - assert (Eb : Beneficiary (putPeerBeneficiary a q b) p = Beneficiary a p).
    { unfold Beneficiary. cbn [peerBeneficiary putPeerBeneficiary]. apply lookup_insert_ne. intros E. by apply Hne, String_inj. }
    rewrite Eb. apply decide_ext. rewrite elem_of_cons. split; [by right|]. intros [E|?]; [|done].
    by apply peerBeneficiaryKey_inj in E.
Qed.

Lemma load_beneficiaries a ks :
  (forall k, k ∈ ks -> exists b p, eth_ok b /\ k = beneficiaryPeerKey b /\ Get (bstore a) k = Ok p) ->
  exists m, iterate_keys load_beneficiary a ks = Ok (MkBook (bstore a) (peerBeneficiary a) m) /\
    forall b, eth_ok b -> m !! Hex b =
      if decide (beneficiaryPeerKey b ∈ ks) then get_ok (bstore a) (beneficiaryPeerKey b) else BeneficiaryPeer a b.
Proof.
  revert a. induction ks as [|k ks IH]; intros a Hk; cbn [iterate_keys].
  { exists (beneficiaryPeer a). split; [by destruct a|]. intros p _. by rewrite decide_False by apply not_elem_of_nil. }
  destruct (Hk k ltac:(left)) as (q & p & Hq & -> & Hg).
  assert (El : load_beneficiary a (beneficiaryPeerKey q) = Ok (putBeneficiaryPeer a p q, false)).
  { unfold load_beneficiary. rewrite decide_True by (by eexists). rewrite beneficiaryUnmarshalKey_key by done.
    cbn [mbind result_bind]. by rewrite Hg. }
  rewrite El. cbn [mbind result_bind].
  destruct (IH (putBeneficiaryPeer a p q)) as (m & -> & Hm); [intros k Hin; apply Hk; by right|].
  exists m. split; [done|]. intros b Hb. rewrite Hm by done. cbn [bstore putBeneficiaryPeer].
  destruct (decide (b = q)) as [->|Hne].
  - rewrite (decide_True (P := _ ∈ _ :: _)) by (by left). case_decide; [done|]. unfold BeneficiaryPeer. cbn [beneficiaryPeer putBeneficiaryPeer].
    rewrite lookup_insert_eq. unfold get_ok. by rewrite Hg.
  - assert (Eb : BeneficiaryPeer (putBeneficiaryPeer a p q) b = BeneficiaryPeer a b).
    { unfold BeneficiaryPeer. cbn [beneficiaryPeer putBeneficiaryPeer]. apply lookup_insert_ne. intros E. by apply Hne, Hex_inj. }
    rewrite Eb. apply decide_ext. rewrite elem_of_cons. split; [by right|]. intros [E|?]; [|done].
    by apply beneficiaryPeerKey_inj in E.
Qed.

(** A fresh book read from a well-formed store mirrors it. *)
Lemma Init_mirrors st : store_ok st -> exists a, InitAddressBook (NewAddressBook st) = Ok a /\ bstore a = st /\ mirrored a.
Proof.
  intros [H1 H2]. unfold InitAddressBook, Iterate.
  destruct (load_peers (NewAddressBook st) (skeys st peerBeneficiaryPrefix)) as (m1 & E1 & Hm1); [exact H1|].
  cbn [bstore NewAddressBook] in *. rewrite E1. cbn [mbind result_bind bstore].
  destruct (load_beneficiaries (MkBook st m1 (beneficiaryPeer (NewAddressBook st))) (skeys st beneficiaryPeerPrefix))
    as (m2 & E2 & Hm2); [exact H2|]. rewrite E2. eexists. split; [done|]. split; [done|].
  assert (Hn : forall k p, p `prefix_of` k -> k ∉ skeys st p -> get_ok st k = None).
  { intros k p Hp Hk. unfold get_ok, Get. destruct (sget st k) as [v|e] eqn:Eg; [|done].
    destruct Hk. apply skeys_spec. by rewrite Eg. }
  split; cbn [bstore].
  - intros p Hp. unfold Beneficiary at 1. cbn [peerBeneficiary]. rewrite Hm1 by done. case_decide as Hd; [done|].
    symmetry. apply (Hn _ peerBeneficiaryPrefix); [by eexists|done].
  - intros b Hb. unfold BeneficiaryPeer at 1. cbn [beneficiaryPeer]. rewrite Hm2 by done. case_decide as Hd; [done|].
    symmetry. apply (Hn _ beneficiaryPeerPrefix); [by eexists|done].
Qed.

Lemma PutBeneficiary_ok a peer b a' : bytes_ok peer -> eth_ok b -> store_ok (bstore a) -> mirrored a ->
  PutBeneficiary a peer b = (a', Ok tt) -> store_ok (bstore a') /\ mirrored a' /\
    Beneficiary a' peer = Some b /\ BeneficiaryPeer a' b = Some peer.
Proof.
  intros Hp Hb [S1 S2] [M1 M2] E. unfold PutBeneficiary in E. cbn [bstore putBeneficiaryPeer putPeerBeneficiary] in E.
  destruct (Put (bstore a) (peerBeneficiaryKey peer) b) as [st1|e] eqn:E1; [|done].
  destruct (Put st1 (beneficiaryPeerKey b) peer) as [st2|e] eqn:E2; [|done]. injection E as <-.
  cbn [bstore set_bstore]. unfold Put in E1, E2.
  assert (Hget : forall k, sget st2 k = if decide (k = beneficiaryPeerKey b) then Ok (marshal peer)
    else if decide (k = peerBeneficiaryKey peer) then Ok (marshal b) else sget (bstore a) k).
  { intros k. rewrite (sget_put _ _ _ _ k E2). case_decide; [done|]. by rewrite (sget_put _ _ _ _ k E1). }
  assert (Gp : Get (A := list Z) st2 (peerBeneficiaryKey peer) = Ok b).
  { unfold Get. rewrite Hget, decide_False, decide_True by (done || apply keys_differ). cbn. by rewrite unmarshal_marshal. }
  assert (Gb : Get (A := list Z) st2 (beneficiaryPeerKey b) = Ok peer).
  { unfold Get. rewrite Hget, decide_True by done. cbn. by rewrite unmarshal_marshal. }
  assert (Gne : forall k, k <> beneficiaryPeerKey b -> k <> peerBeneficiaryKey peer -> Get (A := list Z) st2 k = Get (bstore a) k).
  { intros k H1 H2. unfold Get. by rewrite Hget, !decide_False. }
  assert (Hkeys : forall k q, k ∈ skeys st2 q -> k <> beneficiaryPeerKey b -> k <> peerBeneficiaryKey peer -> k ∈ skeys (bstore a) q).
  { intros k q [Hq Hk]%skeys_spec H1 H2. apply skeys_spec. by rewrite Hget, !decide_False in Hk. }
  split_and!.
  - split.
    + intros k Hk. destruct (decide (k = peerBeneficiaryKey peer)) as [->|Hne]; [by exists peer, b|].
      destruct (decide (k = beneficiaryPeerKey b)) as [->|Hne'].
      { apply skeys_spec in Hk as [[x Ex] _]. by apply (f_equal (fun l => l !! 6%nat)) in Ex. }
      destruct (S1 k) as (q & b' & Hq & -> & Hg); [by apply Hkeys|]. exists q, b'. by rewrite Gne.
    + intros k Hk. destruct (decide (k = beneficiaryPeerKey b)) as [->|Hne]; [by exists b, peer|].
      destruct (decide (k = peerBeneficiaryKey peer)) as [->|Hne'].
      { apply skeys_spec in Hk as [[x Ex] _]. by apply (f_equal (fun l => l !! 6%nat)) in Ex. }
      destruct (S2 k) as (q & p' & Hq & -> & Hg); [by apply Hkeys|]. exists q, p'. by rewrite Gne.
  - split; unfold get_ok.
    + intros q Hq. unfold Beneficiary. cbn [peerBeneficiary set_bstore putBeneficiaryPeer putPeerBeneficiary bstore].
      destruct (decide (q = peer)) as [->|Hne]; [by rewrite lookup_insert_eq, Gp|].
      rewrite lookup_insert_ne by (intros Eq; by apply Hne, String_inj).
      rewrite Gne; [by apply M1|apply keys_differ|]. intros Eq. by apply peerBeneficiaryKey_inj in Eq.
    + intros q Hq. unfold BeneficiaryPeer. cbn [beneficiaryPeer set_bstore putBeneficiaryPeer putPeerBeneficiary bstore].
      destruct (decide (q = b)) as [->|Hne]; [by rewrite lookup_insert_eq, Gb|].
      rewrite lookup_insert_ne by (intros Eq; by apply Hne, Hex_inj).
      rewrite Gne; [by apply M2| |apply not_eq_sym, keys_differ]. intros Eq. by apply beneficiaryPeerKey_inj in Eq.
  - unfold Beneficiary. cbn [peerBeneficiary set_bstore putBeneficiaryPeer putPeerBeneficiary]. apply lookup_insert_eq.
  - unfold BeneficiaryPeer. cbn [beneficiaryPeer set_bstore putBeneficiaryPeer putPeerBeneficiary]. apply lookup_insert_eq.
Qed.

Fixpoint put_all (a : addressBook) (l : list (Address * EthAddress)) : addressBook * result bookError unit :=
  match l with
  | [] => (a, Ok tt)
  | (p, b) :: l =>
      match PutBeneficiary a p b with
      | (a, Ok _) => put_all a l
      | (a, Err e) => (a, Err e)
      end
  end.

(** The address book survives a restart: after any sequence of successful
    [PutBeneficiary] calls on a book over an empty store, a new book initialised
    from the store answers [Beneficiary] and [BeneficiaryPeer] like the old one. *)
Theorem book_restart st l a : skeys st peerBeneficiaryPrefix = [] -> skeys st beneficiaryPeerPrefix = [] ->
  Forall (fun pb => bytes_ok pb.1 /\ eth_ok pb.2) l -> put_all (NewAddressBook st) l = (a, Ok tt) ->
  exists a', InitAddressBook (NewAddressBook (bstore a)) = Ok a' /\
    (forall p, bytes_ok p -> Beneficiary a' p = Beneficiary a p) /\
    (forall b, eth_ok b -> BeneficiaryPeer a' b = BeneficiaryPeer a b).
Proof.
  intros K1 K2 Hl E. assert (Hinv : store_ok (bstore a) /\ mirrored a).
  { assert (H0 : store_ok st) by (split; intros k Hk; [rewrite K1 in Hk|rewrite K2 in Hk]; by apply not_elem_of_nil in Hk).
    assert (M0 : mirrored (NewAddressBook st)).
    { destruct (Init_mirrors st H0) as (a0 & E0 & _ & M). unfold InitAddressBook, Iterate in E0. cbn [bstore NewAddressBook] in E0.
      rewrite K1 in E0. cbn [iterate_keys mbind result_bind bstore NewAddressBook] in E0. rewrite K2 in E0. by injection E0 as <-. }
    revert M0 E. change st with (bstore (NewAddressBook st)) in H0. revert H0. generalize (NewAddressBook st) as a0.
    induction Hl as [|[p b] l [Hp Hb] _ IH]; intros a0 H0 M0 E; cbn [put_all] in E; [by injection E as <-|].
    destruct (PutBeneficiary a0 p b) as [a1 [[]|e]] eqn:E1; [|done].
    destruct (PutBeneficiary_ok _ _ _ _ Hp Hb H0 M0 E1) as (? & ? & _). by apply (IH a1). }
  destruct Hinv as [HS [M1 M2]]. destruct (Init_mirrors _ HS) as (a' & E' & Eb & M1' & M2'). exists a'. split; [done|].
  rewrite Eb in *. split; [intros p Hp; by rewrite M1, M1'|intros b Hb; by rewrite M2, M2'].
Qed.
End Book.

(** ** Example *)

#[refine] Definition bytes_codec : Codec (list Z) (list Z) := {| marshal x := x; unmarshal x := Some x |}.
Proof. done. Defined.

Definition toy_put_all := @put_all EncodeToString (gmap bytes (list Z)) (list Z) memory_store bytes_codec.

Lemma book_restart_witness :
  let a := (toy_put_all (NewAddressBook ∅) [([1; 2], toy_eth 5); ([3], toy_eth 6)]).1 in
  exists a', @InitAddressBook EncodeToString toy_hex _ _ memory_store bytes_codec (NewAddressBook (bstore a)) = Ok a' /\
    Beneficiary a' [3] = Some (toy_eth 6).
Proof.
  cbv zeta. destruct (@book_restart EncodeToString toy_hex (gmap bytes (list Z)) (list Z) memory_store bytes_codec
    ltac:(intros a [_ Ha]; unfold toy_hex; by rewrite DecodeString_Encode)
    ltac:(intros a [_ Ha]; by apply String_no_dash)
    ∅ [([1; 2], toy_eth 5); ([3], toy_eth 6)] (toy_put_all (NewAddressBook ∅) [([1; 2], toy_eth 5); ([3], toy_eth 6)]).1)
    as (a' & E & Hp & _).
  - reflexivity.
  - reflexivity.
  - repeat (constructor; [split; [repeat (constructor; [unfold is_byte; cbn; lia|]); constructor|apply toy_eth_ok; lia]|]). constructor.
  - vm_compute. reflexivity.
  - exists a'. split; [exact E|]. rewrite (Hp [3] ltac:(repeat constructor; unfold is_byte; lia)). vm_compute. reflexivity.
Defined.
