(* ===== verification/Traffic.v ===== *)
(** * The traffic settlement service (pkg/settlement/traffic/traffic.go)

    Per peer the service counts what was retrieved from and transferred to it,
    what was covered by cheques and what was cashed on the chain.  The counters
    are [*big.Int] pointers that are copied between fields and, in [issue],
    changed in place; so they are modelled as locations in a heap.

    The chain, the signer, the protocol and the cash-out service are external:
    their answers are the record [Env] of each call.  Handlers run one at a time
    (they hold the peer's lock); publishing to subscribers is not modelled. *)

From Stdlib Require Import ZArith Lia ZifyBool.
From stdpp Require Import base gmap list numbers strings.
From S2P Require Import Prelude Boson StateStore Cheque AddressBook.

Open Scope Z_scope.

Abbreviation loc := nat.

Inductive CashStatus := UnOperation | Operation.

Record Traffic := MkTraffic {
  trafficPeerBalance : loc;
  retrieveChainTraffic : loc;
  transferChainTraffic : loc;
  retrieveChequeTraffic : loc;
  transferChequeTraffic : loc;
  retrieveTraffic : loc;
  transferTraffic : loc;
  status : CashStatus;
}.

Inductive trafficError :=
| ErrUnknownBeneficary
| ErrInsufficientFunds
| errAccount
| errVerifyReceiver
| errOverlayExists
| errChain
| errSign
| errEmit
| errDisconnect
| errCash
| errCheque (e : chequeError)
| errBook (e : bookError)
| errNilMap.

#[export] Instance trafficError_eq_dec : EqDecision trafficError.
Proof. solve_decision. Defined.

(** What the external services answer. *)
Record Env := {
  TransAmount : EthAddress -> EthAddress -> option Z;
  BalanceOf : EthAddress -> option Z;
  RetrievedAddress : EthAddress -> option (list EthAddress);
  TransferredAddress : EthAddress -> option (list EthAddress);
  TransferredTotal : EthAddress -> option Z;
  signCheque : Cheque -> option bytes;
  EmitCheque : Address -> SignedCheque -> bool;
  cashoutCheque : Address -> EthAddress -> EthAddress -> option bytes;
  WaitForReceipt : bytes -> option Z;
  Disconnect : Address -> bool;
}.

Record cashCheque := MkCash {
  txHash : bytes;
  cpeer : Address;
  cchainAddress : EthAddress;
}.

Section Traffic.
Context (Hex : EthAddress -> bytes) (HexToAddress : bytes -> EthAddress).
Context {S V : Type} `{ST : StateStorer S V} `{CS : Codec SignedCheque V} `{CC : Codec Cheque V} `{CZ : Codec Z V}
  `{CA : Codec (list Z) V}.
Context (recover : SignedCheque -> Z -> result chequeError EthAddress).

Record Service := MkService {
  chainAddress : EthAddress;
  schainID : Z;
  heap : gmap loc Z;
  fresh : loc;
  peers : gmap EthAddress Traffic;
  balance : loc;
  totalPaidOut : loc;
  cheques : @chequeStore S;
  book : @addressBook S;
  cashChequeChan : list cashCheque;
  notified : list (Address * Z);        (** calls of [notifyPaymentFunc] *)
}.

(** ** Handlers: a state and an error; the state stays changed on errors. *)

Definition M (A : Type) : Type := Service -> Service * result trafficError A.

#[export] Instance M_ret : MRet M := fun A a s => (s, Ok a).
#[export] Instance M_bind : MBind M := fun A B f m s =>
  match m s with
  | (s, Ok a) => f a s
  | (s, Err e) => (s, Err e)
  end.

Definition fail {A} (e : trafficError) : M A := fun s => (s, Err e).
Definition get : M Service := fun s => (s, Ok s).
Definition put (s : Service) : M unit := fun _ => (s, Ok tt).
Definition catch {A} (m : M A) : M (result trafficError A) := fun s => let '(s, r) := m s in (s, Ok r).
Definition reflect {A} (r : result trafficError A) : M A := fun s => (s, r).

Definition set_heap (s : Service) (h : gmap loc Z) (f : loc) : Service :=
  MkService (chainAddress s) (schainID s) h f (peers s) (balance s) (totalPaidOut s) (cheques s) (book s) (cashChequeChan s) (notified s).
Definition set_peers (s : Service) (p : gmap EthAddress Traffic) : Service :=
  MkService (chainAddress s) (schainID s) (heap s) (fresh s) p (balance s) (totalPaidOut s) (cheques s) (book s) (cashChequeChan s) (notified s).
Definition set_balance (s : Service) (b : loc) : Service :=
  MkService (chainAddress s) (schainID s) (heap s) (fresh s) (peers s) b (totalPaidOut s) (cheques s) (book s) (cashChequeChan s) (notified s).
Definition set_totalPaidOut (s : Service) (t : loc) : Service :=
  MkService (chainAddress s) (schainID s) (heap s) (fresh s) (peers s) (balance s) t (cheques s) (book s) (cashChequeChan s) (notified s).
Definition set_cheques (s : Service) (c : @chequeStore S) : Service :=
  MkService (chainAddress s) (schainID s) (heap s) (fresh s) (peers s) (balance s) (totalPaidOut s) c (book s) (cashChequeChan s) (notified s).
Definition set_book (s : Service) (b : @addressBook S) : Service :=
  MkService (chainAddress s) (schainID s) (heap s) (fresh s) (peers s) (balance s) (totalPaidOut s) (cheques s) b (cashChequeChan s) (notified s).
Definition set_chan (s : Service) (c : list cashCheque) : Service :=
  MkService (chainAddress s) (schainID s) (heap s) (fresh s) (peers s) (balance s) (totalPaidOut s) (cheques s) (book s) c (notified s).
Definition set_notified (s : Service) (n : list (Address * Z)) : Service :=
  MkService (chainAddress s) (schainID s) (heap s) (fresh s) (peers s) (balance s) (totalPaidOut s) (cheques s) (book s) (cashChequeChan s) n.

Definition val (s : Service) (l : loc) : Z := default 0 (heap s !! l).

Definition alloc (z : Z) : M loc := fun s => (set_heap s (<[fresh s := z]> (heap s)) (fresh s + 1)%nat, Ok (fresh s)).
Definition read (l : loc) : M Z := fun s => (s, Ok (val s l)).
Definition write (l : loc) (z : Z) : M unit := fun s => (set_heap s (<[l := z]> (heap s)) (fresh s), Ok tt).

Definition of_option {A} (e : trafficError) (o : option A) : M A := match o with Some a => mret a | None => fail e end.

(** Calls of the cheque store. *)
Definition query {A} (f : @chequeStore S -> result chequeError A) : M A := fun s =>
  (s, match f (cheques s) with Ok a => Ok a | Err e => Err (errCheque e) end).
Definition update (f : @chequeStore S -> result chequeError (@chequeStore S)) : M unit := fun s =>
  match f (cheques s) with Ok c => (set_cheques s c, Ok tt) | Err e => (s, Err (errCheque e)) end.

Definition ask {A} (f : @chequeStore S -> A) : M A := fun s => (s, Ok (f (cheques s))).

(** [s.addressBook.Beneficiary(peer)] *)
Definition beneficiary (peer : Address) : M (option EthAddress) := fun s => (s, Ok (Beneficiary (book s) peer)).

Definition known_or {A} (e : trafficError) (peer : Address) (k : EthAddress -> M A) : M A :=
  o ← beneficiary peer;
  match o with Some a => k a | None => fail e end.

(** ** The operations *)

Definition newTraffic : M Traffic :=
  a ← alloc 0; b ← alloc 0; c ← alloc 0; d ← alloc 0; e ← alloc 0; f ← alloc 0; g ← alloc 0;
  mret (MkTraffic a b c d e f g UnOperation).

Definition set_traffic (peer : EthAddress) (t : Traffic) : M unit := fun s =>
  (set_peers s (<[peer := t]> (peers s)), Ok tt).

Definition getTraffic (peer : EthAddress) : M Traffic :=
  s ← get;
  match peers s !! peer with
  | Some t => mret t
  | None => t ← newTraffic; _ ← set_traffic peer t; mret t
  end.

Definition maxBigint (a b : loc) : M loc :=
  x ← read a; y ← read b; mret (if x <? y then b else a).

Definition updateStatus (peer : EthAddress) (st : CashStatus) : M unit :=
  t ← getTraffic peer;
  set_traffic peer (MkTraffic (trafficPeerBalance t) (retrieveChainTraffic t) (transferChainTraffic t)
    (retrieveChequeTraffic t) (transferChequeTraffic t) (retrieveTraffic t) (transferTraffic t) st).

Definition getAllAddress (env : Env) (addresses : gset EthAddress) : M (gset EthAddress) :=
  s ← get;
  retrieveList ← of_option errChain (RetrievedAddress env (chainAddress s));
  transferList ← of_option errChain (TransferredAddress env (chainAddress s));
  mret (addresses ∪ list_to_set retrieveList ∪ list_to_set transferList).

(** The amount on the chain, or the stored one if the chain cannot be asked. *)
Definition chain_amount (env : Env) (from to : EthAddress)
    (getStored : @chequeStore S -> result chequeError Z) (putStored : Z -> @chequeStore S -> result chequeError (@chequeStore S)) : M loc :=
  match TransAmount env from to with
  | None => z ← query getStored; alloc z
  | Some z => l ← alloc z; _ ← update (putStored z); mret l
  end.

Definition trafficPeerChainUpdate (env : Env) (peerAddress chainAddress : EthAddress) : M unit :=
  _ ← getTraffic peerAddress;
  transferTotal ← chain_amount env peerAddress chainAddress
    (fun c => GetChainTransferTraffic c peerAddress) (fun z c => PutChainTransferTraffic c peerAddress z);
  retrievedTotal ← chain_amount env chainAddress peerAddress
    (fun c => GetChainRetrieveTraffic c peerAddress) (fun z c => PutChainRetrieveTraffic c peerAddress z);
  t ← getTraffic peerAddress;
  set_traffic peerAddress (MkTraffic (trafficPeerBalance t) retrievedTotal transferTotal
    (retrieveChequeTraffic t) (transferChequeTraffic t) (retrieveTraffic t) (transferTraffic t) (status t)).

(** [cq], [tcq]: the payouts of the last sent and the last received cheque, as
    decoded from the store. *)
Definition trafficPeerChequeUpdate (peerAddress : EthAddress) (lastCheques : gmap EthAddress Cheque)
    (lastTransCheques : gmap EthAddress SignedCheque) : M unit :=
  t ← getTraffic peerAddress;
  let rcheq := retrieveChainTraffic t in
  let r := retrieveChainTraffic t in
  let tcheq := transferChainTraffic t in
  let tr := transferChainTraffic t in
  '(r, rcheq) ←
    match lastCheques !! peerAddress with
    | Some cq => l ← alloc (CumulativePayout cq); r ← maxBigint r l; rcheq ← maxBigint rcheq l; mret (r, rcheq)
    | None => mret (r, rcheq)
    end;
  '(tr, tcheq) ←
    match lastTransCheques !! peerAddress with
    | Some cq => l ← alloc (CumulativePayout (cheque cq)); tr ← maxBigint tr l; tcheq ← maxBigint tcheq l; mret (tr, tcheq)
    | None => mret (tr, tcheq)
    end;
  let set r tr := set_traffic peerAddress (MkTraffic (trafficPeerBalance t) (retrieveChainTraffic t) (transferChainTraffic t)
    rcheq tcheq r tr (status t)) in
  _ ← set r tr;
  z ← query (fun c => GetRetrieveTraffic c peerAddress);
  l ← alloc z; r ← maxBigint r l;
  _ ← set r tr;
  z ← query (fun c => GetTransferTraffic c peerAddress);
  l ← alloc z; tr ← maxBigint tr l;
  set r tr.

(** The goroutines of [replaceTraffic] work on different peers; errors are
    logged only. *)
Fixpoint replace_each (env : Env) (l : list EthAddress) (lastCheques : gmap EthAddress Cheque)
    (lastTransCheques : gmap EthAddress SignedCheque) : M unit :=
  match l with
  | [] => mret tt
  | a :: l =>
      s ← get;
      _ ← catch (trafficPeerChainUpdate env a (chainAddress s));
      _ ← catch (trafficPeerChequeUpdate a lastCheques lastTransCheques);
      replace_each env l lastCheques lastTransCheques
  end.

Definition replaceTraffic (env : Env) (addressList : gset EthAddress) (lastCheques : gmap EthAddress Cheque)
    (lastTransCheques : gmap EthAddress SignedCheque) : M unit :=
  z ← alloc 0;
  s ← get; _ ← put (set_totalPaidOut s z);
  replace_each env (elements addressList) lastCheques lastTransCheques.

Definition trafficInit (env : Env) : M unit :=
  lastCheques ← query (LastSendCheques HexToAddress);
  lastTransCheques ← query (LastReceivedCheques HexToAddress);
  allRetrieveTransfer ← query (GetAllRetrieveTransferAddresses HexToAddress);
  addressList ← getAllAddress env allRetrieveTransfer;
  _ ← replaceTraffic env addressList lastCheques lastTransCheques;
  s ← get;
  b ← of_option errChain (BalanceOf env (chainAddress s));
  l ← alloc b; s ← get; _ ← put (set_balance s l);
  p ← of_option errChain (TransferredTotal env (chainAddress s));
  l ← alloc p; s ← get; put (set_totalPaidOut s l).

Definition Init (env : Env) : M unit :=
  _ ← trafficInit env;
  s ← get;
  match InitAddressBook Hex HexToAddress (book s) with
  | Ok b => put (set_book s b)
  | Err e => fail (errBook e)
  end.

Definition LastSentCheque (peer : Address) : M (option Cheque * option chequeError) :=
  known_or (errCheque ErrNoCheque) peer (fun a => ask (fun c => LastSendCheque c a)).

Definition LastReceivedCheque (peer : Address) : M (option SignedCheque * option chequeError) :=
  o ← beneficiary peer;
  match o with
  | None => mret (Some (MkSigned (MkCheque zeroEth zeroEth 0) None), None)
  | Some a => ask (fun c => Cheque.LastReceivedCheque c a)
  end.

Definition CashCheque (env : Env) (peer : Address) : M bytes :=
  known_or (errCheque ErrNoCheque) peer (fun a =>
    _ ← getTraffic a;
    s ← get;
    c ← of_option errCash (cashoutCheque env peer a (chainAddress s));
    _ ← updateStatus a Operation;
    s ← get; _ ← put (set_chan s (cashChequeChan s ++ [MkCash c peer a]));
    mret c).

(** Sums over all peers. *)
Definition sum_peers (s : Service) (f : Traffic -> loc) : Z :=
  foldr (fun kt acc => val s (f kt.2) + acc) 0 (map_to_list (peers s)).

Record TrafficInfo := MkInfo {
  Balance : Z;
  AvailableBalance_ : Z;
  TotalSendTraffic : Z;
  ReceivedTraffic : Z;
}.

Definition trafficInfo : M TrafficInfo :=
  s ← get;
  mret (MkInfo (val s (balance s))
    (val s (balance s) + (sum_peers s retrieveChainTraffic - sum_peers s retrieveChequeTraffic))
    (sum_peers s retrieveChequeTraffic) (sum_peers s transferChequeTraffic)).

Record TrafficCheque := MkTrafficCheque {
  Peer : Address;
  OutstandingTraffic : Z;
  SentSettlements : Z;
  ReceivedSettlements : Z;
  Total : Z;
  Uncashed : Z;
  Status : CashStatus;
}.

Definition trafficChequeOf (s : Service) (peer : Address) (t : Traffic) : TrafficCheque :=
  let trans := val s (transferTraffic t) - val s (transferChequeTraffic t) in
  let retrieve := val s (retrieveTraffic t) - val s (retrieveChequeTraffic t) in
  MkTrafficCheque peer (trans - retrieve) (val s (retrieveChequeTraffic t)) (val s (transferChequeTraffic t))
    (val s (transferTraffic t) - val s (retrieveTraffic t))
    (val s (transferChequeTraffic t) - val s (transferChainTraffic t)) (status t).

Definition TrafficCheques : M (list TrafficCheque) :=
  s ← get;
  mret (omap (fun kt : EthAddress * Traffic =>
    peer ← BeneficiaryPeer Hex (book s) kt.1;
    let c := trafficChequeOf s peer kt.2 in
    if (OutstandingTraffic c =? 0) && (SentSettlements c =? 0) && (ReceivedSettlements c =? 0) then None else Some c)
    (map_to_list (peers s))).

Definition AvailableBalance : M Z :=
  s ← get;
  mret (val s (balance s) + (sum_peers s retrieveChainTraffic - sum_peers s retrieveTraffic)).

(** The unpaid retrieve traffic of a chain address. *)
Definition retrieveTraffic_ (a : EthAddress) : M Z :=
  t ← getTraffic a;
  s ← get; mret (val s (retrieveTraffic t) - val s (retrieveChequeTraffic t)).

(** [payout] is the location of the cheque's cumulative payout. *)
Definition putSendCheque (c : Cheque) (payout : loc) (recipient : EthAddress) : M unit :=
  t ← getTraffic recipient;
  r ← maxBigint (retrieveTraffic t) payout;
  _ ← set_traffic recipient (MkTraffic (trafficPeerBalance t) (retrieveChainTraffic t) (transferChainTraffic t)
    payout (transferChequeTraffic t) r (transferTraffic t) (status t));
  z ← read payout;
  update (fun cs => PutSendCheque cs (MkCheque (Recipient c) (Cheque.Beneficiary c) z) recipient).

(** The body of [issue] without the deferred notification. *)
Definition issue_body (env : Env) (peer : Address) (recipient beneficiary : EthAddress) (bal : Z) (t : Traffic) : M unit :=
  available ← AvailableBalance;
  if available <? bal then fail ErrInsufficientFunds
  else
    let cumulativePayout := retrieveChequeTraffic t in
    z ← read cumulativePayout;
    _ ← write cumulativePayout (z + bal);
    z ← read cumulativePayout;
    let c := MkCheque recipient beneficiary z in
    sin ← of_option errSign (signCheque env c);
    let signedCheque := MkSigned c (Some sin) in
    if negb (EmitCheque env peer signedCheque) then fail errEmit
    else putSendCheque c cumulativePayout recipient.

Definition issue (env : Env) (peer : Address) (recipient beneficiary : EthAddress) (bal : Z) (t : Traffic) : M unit :=
  r ← catch (issue_body env peer recipient beneficiary bal t);
  s ← get; _ ← put (set_notified s (notified s ++ [(peer, bal)]));
  reflect r.

Definition Pay (env : Env) (peer : Address) (paymentThreshold : Z) : M unit :=
  o ← beneficiary peer;
  match o with
  | None => if Disconnect env peer then fail ErrUnknownBeneficary else fail errDisconnect
  | Some recipient =>
      bal ← retrieveTraffic_ recipient;
      t ← getTraffic recipient;
      s ← get;
      if paymentThreshold <=? bal then issue env peer recipient (chainAddress s) bal t else mret tt
  end.

(** [TotalSent] and [TotalReceived] return the counters themselves; callers only
    read them. *)
Definition TotalSent (peer : Address) : M Z :=
  known_or (errCheque ErrNoCheque) peer (fun a => t ← getTraffic a; read (transferTraffic t)).
Definition TotalReceived (peer : Address) : M Z :=
  known_or (errCheque ErrNoCheque) peer (fun a => t ← getTraffic a; read (retrieveTraffic t)).

Definition TransferTraffic (peer : Address) : M Z :=
  known_or (errCheque ErrNoCheque) peer (fun a =>
    t ← getTraffic a; s ← get; mret (val s (transferTraffic t) - val s (transferChequeTraffic t))).

Definition RetrieveTraffic (peer : Address) : M Z := known_or (errCheque ErrNoCheque) peer retrieveTraffic_.

Definition PutRetrieveTraffic (peer : Address) (traffic : Z) : M unit :=
  known_or (errCheque ErrNoCheque) peer (fun a =>
    t ← getTraffic a;
    z ← read (retrieveTraffic t);
    l ← alloc (z + traffic);
    _ ← set_traffic a (MkTraffic (trafficPeerBalance t) (retrieveChainTraffic t) (transferChainTraffic t)
      (retrieveChequeTraffic t) (transferChequeTraffic t) l (transferTraffic t) (status t));
    z ← read l;
    update (fun c => Cheque.PutRetrieveTraffic c a z)).

Definition PutTransferTraffic (peer : Address) (traffic : Z) : M unit :=
  known_or (errCheque ErrNoCheque) peer (fun a =>
    t ← getTraffic a;
    z ← read (transferTraffic t);
    l ← alloc (z + traffic);
    _ ← set_traffic a (MkTraffic (trafficPeerBalance t) (retrieveChainTraffic t) (transferChainTraffic t)
      (retrieveChequeTraffic t) (transferChequeTraffic t) (retrieveTraffic t) l (status t));
    z ← read l;
    update (fun c => Cheque.PutTransferTraffic c a z)).

Definition UpdatePeerBalance (env : Env) (peer : Address) : M unit :=
  known_or (errCheque ErrNoCheque) peer (fun a =>
    b ← of_option errChain (BalanceOf env a);
    t ← getTraffic a;
    l ← alloc b;
    set_traffic a (MkTraffic l (retrieveChainTraffic t) (transferChainTraffic t)
      (retrieveChequeTraffic t) (transferChequeTraffic t) (retrieveTraffic t) (transferTraffic t) (status t))).

Definition handshake_book (peer : Address) (recipient : EthAddress) (signedCheque : SignedCheque) : M unit :=
  o ← beneficiary peer;
  match o with
  | None =>
      s ← get;
      match BeneficiaryPeer Hex (book s) recipient with
      | Some _ => fail errOverlayExists
      | None =>
          let '(b, r) := PutBeneficiary Hex (book s) peer recipient in
          _ ← put (set_book s b);
          match r with Ok _ => mret tt | Err e => fail (errBook e) end
      end
  | Some recipientLocal =>
      match Signature signedCheque with
      | Some _ => if decide (Recipient (cheque signedCheque) <> recipientLocal) then fail errVerifyReceiver else mret tt
      | None => mret tt
      end
  end.

Definition Handshake (env : Env) (peer : Address) (recipient : EthAddress) (signedCheque : SignedCheque) : M unit :=
  _ ← handshake_book peer recipient signedCheque;
  _ ← UpdatePeerBalance env peer;
  match Signature signedCheque with
  | None => mret tt
  | Some _ =>
      s ← get;
      isUser ← query (fun _ => VerifyCheque recover signedCheque (schainID s));
      if decide (isUser <> chainAddress s) then fail (errCheque ErrChequeInvalid)
      else
        last ← match LastSendCheque (cheques s) recipient with
               | (_, Some ErrNoCheque) => mret 0
               | (_, Some e) => fail (errCheque e)
               | (Some c, None) => mret (CumulativePayout c)
               | (None, None) => fail errNilMap
               end;
        let c := cheque signedCheque in
        if last <? CumulativePayout c then
          _ ← getTraffic recipient;
          l ← alloc (CumulativePayout c);
          putSendCheque c l recipient
        else mret tt
  end.

Definition ReceiveCheque (peer : Address) (c : SignedCheque) : M unit :=
  known_or errAccount peer (fun a =>
    s ← get;
    if decide (Cheque.Beneficiary (cheque c) <> a /\ Recipient (cheque c) <> chainAddress s) then fail errAccount
    else
      _ ← getTraffic a;
      _ ← update (fun cs => match Cheque.ReceiveCheque recover cs c with Ok (cs, _) => Ok cs | Err e => Err e end);
      l ← alloc (CumulativePayout (cheque c));
      t ← getTraffic a;
      set_traffic a (MkTraffic (trafficPeerBalance t) (retrieveChainTraffic t) (transferChainTraffic t)
        (retrieveChequeTraffic t) l (retrieveTraffic t) (transferTraffic t) (status t))).

Definition GetPeerBalance (peer : Address) : M Z :=
  known_or (errCheque ErrNoCheque) peer (fun a => t ← getTraffic a; read (trafficPeerBalance t)).

Definition GetUnPaidBalance (peer : Address) : M Z :=
  known_or (errCheque ErrNoCheque) peer (fun a =>
    t ← getTraffic a; s ← get; mret (val s (transferTraffic t) - val s (transferChainTraffic t))).

(** [cashUpdate] of [cashChequeReceiptUpdate]. *)
Definition cashUpdate (env : Env) (beneficiary : EthAddress) (peer : Address) : M unit :=
  s ← get;
  b ← of_option errChain (BalanceOf env (chainAddress s));
  l ← alloc b; s ← get; _ ← put (set_balance s l);
  _ ← trafficPeerChainUpdate env beneficiary (chainAddress s);
  UpdatePeerBalance env peer.

(** One round of the loop of [cashChequeReceiptUpdate]; the result is the
    published status. *)
Definition cashChequeReceipt (env : Env) (cashInfo : cashCheque) : M bool :=
  let st := WaitForReceipt env (txHash cashInfo) in
  let a := cchainAddress cashInfo in
  t ← getTraffic a;
  _ ← updateStatus a UnOperation;
  match st with
  | None => mret false
  | Some st =>
      if st =? 1 then
        z ← read (retrieveChequeTraffic t);
        _ ← catch (update (fun c => PutChainRetrieveTraffic c a z));
        z ← read (transferChequeTraffic t);
        _ ← catch (update (fun c => PutChainTransferTraffic c a z));
        _ ← catch (cashUpdate env a (cpeer cashInfo));
        mret true
      else mret false
  end.

Definition cashChequeReceiptUpdate (env : Env) : M (option bool) :=
  s ← get;
  match cashChequeChan s with
  | [] => mret None
  | cashInfo :: rest =>
      _ ← put (set_chan s rest);
      b ← cashChequeReceipt env cashInfo; mret (Some b)
  end.

Definition New (chainAddress : EthAddress) (chainID : Z) (cs : @chequeStore S) (book : @addressBook S) : Service :=
  MkService chainAddress chainID {[ 0%nat := 0; 1%nat := 0 ]} 2 ∅ 0 1 cs book [] [].

(** * Ownership of the counters *)

Definition locs (t : Traffic) : list loc :=
  [trafficPeerBalance t; retrieveChainTraffic t; transferChainTraffic t; retrieveChequeTraffic t;
   transferChequeTraffic t; retrieveTraffic t; transferTraffic t].

(** No two peers share a counter, and none of them is the balance. *)
Record inv (s : Service) : Prop := {
  i_bound : forall a t l, peers s !! a = Some t -> l ∈ locs t -> (l < fresh s)%nat;
  i_sep : forall a b t u l, a <> b -> peers s !! a = Some t -> peers s !! b = Some u -> l ∈ locs t -> l ∉ locs u;
  i_balance : (balance s < fresh s)%nat;
  i_balance_sep : forall a t, peers s !! a = Some t -> balance s ∉ locs t;
}.

(** A counter nobody owns yet. *)
Definition free (s : Service) (l : loc) : Prop :=
  (l < fresh s)%nat /\ l <> balance s /\ forall a t, peers s !! a = Some t -> l ∉ locs t.

Definition triple {A} (P : Service -> Prop) (m : M A) (Q : A -> Service -> Prop) : Prop :=
  forall s, P s -> match m s with (s', Ok a) => Q a s' | (s', Err _) => inv s' end.

Lemma t_bind {A B} P (m : M A) (f : A -> M B) R Q :
  triple P m R -> (forall a, triple (R a) (f a) Q) -> triple P (m ≫= f) Q.
Proof.
  intros Hm Hf s Hs. unfold mbind, M_bind. specialize (Hm s Hs). destruct (m s) as [s' [a|e]]; [|done]. by apply Hf.
Qed.

Lemma t_weaken {A} (P P' : Service -> Prop) (m : M A) (Q Q' : A -> Service -> Prop) :
  (forall s, P s -> P' s) -> (forall a s, Q' a s -> Q a s) -> triple P' m Q' -> triple P m Q.
Proof. intros HP HQ Hm s Hs. specialize (Hm s (HP s Hs)). destruct (m s) as [s' [a|e]]; auto. Qed.

Lemma t_ret {A} (P : Service -> Prop) (a : A) : triple P (mret a) (fun x s => x = a /\ P s).
Proof. by intros s Hs. Qed.

(** The service owns the counters of [t] for [a], and [fs] are free. *)
Definition J (a : EthAddress) (t : Traffic) (fs : list loc) (s : Service) : Prop :=
  inv s /\ peers s !! a = Some t /\ Forall (free s) fs.

(** States that differ in what the invariant does not look at. *)
Definition same_owner (s s' : Service) : Prop :=
  peers s' = peers s /\ balance s' = balance s /\ fresh s' = fresh s.

Lemma inv_same s s' : same_owner s s' -> inv s -> inv s'.
Proof. intros (E1 & E2 & E3) [H1 H2 H3 H4]. split; rewrite ?E1, ?E2, ?E3; done. Qed.

Lemma J_same a t fs s s' : same_owner s s' -> J a t fs s -> J a t fs s'.
Proof.
  intros HS (Hi & Ht & Hf). pose proof HS as (E1 & E2 & E3). split; [by apply (inv_same s)|]. rewrite E1. split; [done|].
  eapply Forall_impl; [exact Hf|]. unfold free. intros l. by rewrite E1, E2, E3.
Qed.

Lemma t_same {A} (P : Service -> Prop) (m : M A) : (forall s s', same_owner s s' -> P s -> P s') -> (forall s, P s -> inv s) ->
  (forall s, same_owner s (m s).1) -> triple P m (fun _ => P).
Proof.
  intros HP Hi Hm s Hs. specialize (Hm s). destruct (m s) as [s' [a|e]]; cbn [fst] in Hm; [by apply (HP s)|].
  apply (inv_same s); auto.
Qed.

Lemma same_refl s : same_owner s s.
Proof. done. Qed.

Lemma same_query {A} (f : @chequeStore S -> result chequeError A) s : same_owner s (query f s).1.
Proof. done. Qed.

Lemma same_update f s : same_owner s (update f s).1.
Proof. unfold update. by destruct (f (cheques s)). Qed.

Lemma inv_alloc s z : inv s -> inv (alloc z s).1.
Proof.
  intros [H1 H2 H3 H4]. split; cbn; try done; [|lia]. intros a t l Ha Hl. pose proof (H1 a t l Ha Hl). lia.
Qed.

Lemma t_alloc z : triple inv (alloc z) (fun l s => inv s /\ free s l).
Proof.
  intros s Hi. cbn. split; [by apply (inv_alloc s z)|]. destruct Hi as [H1 H2 H3 H4]. unfold free. cbn. split_and!; [lia|lia|].
  intros a t Ha Hl. pose proof (H1 a t _ Ha Hl). lia.
Qed.

Lemma tJ_alloc a t fs z : triple (J a t fs) (alloc z) (fun l => J a t (l :: fs)).
Proof.
  intros s (Hi & Ht & Hf). pose proof (t_alloc z s Hi) as Ha. cbn in Ha |- *. destruct Ha as [Hi' Hl].
  split; [done|]. split; [done|]. constructor; [done|]. eapply Forall_impl; [exact Hf|].
  intros l (L1 & L2 & L3). split_and!; cbn; [lia|done|done].
Qed.

Lemma inv_insert s a t' : inv s -> (forall l, l ∈ locs t' -> free s l \/ exists t, peers s !! a = Some t /\ l ∈ locs t) ->
  inv (set_peers s (<[a := t']> (peers s))).
Proof.
  intros [H1 H2 H3 H4] Hl. split; cbn [peers fresh balance set_peers].
  - intros b u l Hb Hin. destruct (decide (a = b)) as [->|Hne]; [rewrite lookup_insert_eq in Hb|by rewrite lookup_insert_ne in Hb by done; eauto].
    injection Hb as <-. destruct (Hl l Hin) as [(L & _)|(t & Ht & Hlt)]; [done|by apply (H1 b t)].
  - intros b c u v l Hbc Hb Hc Hu Hv. destruct (decide (a = b)) as [->|Hab].
    + rewrite lookup_insert_eq in Hb. rewrite lookup_insert_ne in Hc by done. injection Hb as <-.
      destruct (Hl l Hu) as [(_ & _ & L)|(t & Ht & Hlt)]; [by apply (L c v)|by apply (H2 b c t v l)].
    + rewrite lookup_insert_ne in Hb by done. destruct (decide (a = c)) as [->|Hac].
      * rewrite lookup_insert_eq in Hc. injection Hc as <-.
        destruct (Hl l Hv) as [(_ & _ & L)|(t & Ht & Hlt)]; [by apply (L b u)|by apply (H2 c b t u l)].
      * rewrite lookup_insert_ne in Hc by done. by apply (H2 b c u v l).
  - done.
  - intros b u Hb Hin. destruct (decide (a = b)) as [->|Hne]; [rewrite lookup_insert_eq in Hb|by rewrite lookup_insert_ne in Hb by done; eapply H4].
    injection Hb as <-. destruct (Hl _ Hin) as [(_ & L & _)|(t & Ht & Hlt)]; [done|by apply (H4 b t)].
Qed.

Lemma tJ_set_traffic a t fs t' : locs t' ⊆ locs t ++ fs -> triple (J a t fs) (set_traffic a t') (fun _ => J a t' []).
Proof.
  intros Hsub s (Hi & Ht & Hf). cbn. split; [|split; [apply lookup_insert_eq|constructor]].
  apply inv_insert; [done|]. intros l Hl. apply Hsub, elem_of_app in Hl as [Hl|Hl]; [right; by exists t|left].
  by apply (Forall_forall (free s) fs).
Qed.

Definition K (fs : list loc) (s : Service) : Prop := inv s /\ Forall (free s) fs.

Lemma tK_alloc fs z : triple (K fs) (alloc z) (fun l => K (l :: fs)).
Proof.
  intros s (Hi & Hf). pose proof (t_alloc z s Hi) as Ha. cbn in Ha |- *. destruct Ha as [Hi' Hl].
  split; [done|]. constructor; [done|]. eapply Forall_impl; [exact Hf|].
  intros l (L1 & L2 & L3). split_and!; cbn; [lia|done|done].
Qed.

Lemma t_newTraffic : triple inv newTraffic (fun t => K (locs t)).
Proof.
  unfold newTraffic. apply (t_weaken _ (K []) _ _ (fun t => K (locs t))); [by split|done|].
  do 7 (eapply t_bind; [apply tK_alloc|intros ?]). intros s HK. destruct HK as [Hi Hf]. split; [done|].
  do 7 (apply Forall_cons_1 in Hf as [? Hf]). repeat (constructor; [done|]). constructor.
Qed.

Lemma t_getTraffic a : triple inv (getTraffic a) (fun t => J a t []).
Proof.
  intros s Hi. unfold getTraffic, mbind, M_bind, get. cbn beta iota.
  destruct (peers s !! a) as [t|] eqn:Ht; [by split; [|split; [|constructor]]|].
  pose proof (t_newTraffic s Hi) as Hn. destruct (newTraffic s) as [s' [t|e]]; [|done]. destruct Hn as [Hi' Hf].
  cbn. split; [|split; [apply lookup_insert_eq|constructor]].
  apply inv_insert; [done|]. intros l Hl. left. by apply (Forall_forall (free s') (locs t)).
Qed.

Lemma tJ_getTraffic a t fs : triple (J a t fs) (getTraffic a) (fun t' s => t' = t /\ J a t fs s).
Proof.
  intros s (Hi & Ht & Hf). unfold getTraffic, mbind, M_bind, get. cbn beta iota. rewrite Ht. done.
Qed.

Lemma tJ_same {A} a t fs (m : M A) : (forall s, same_owner s (m s).1) -> triple (J a t fs) m (fun _ => J a t fs).
Proof. apply t_same; [intros s s'; apply J_same|by intros s []]. Qed.

Lemma t_inv_same {A} (m : M A) : (forall s, same_owner s (m s).1) -> triple inv m (fun _ => inv).
Proof. apply t_same; [intros s s'; apply inv_same|done]. Qed.

Lemma t_fail {A} (P : Service -> Prop) e (Q : A -> Service -> Prop) : (forall s, P s -> inv s) -> triple P (fail e) Q.
Proof. intros HP s Hs. cbn. auto. Qed.

Lemma J_inv a t fs s : J a t fs s -> inv s.
Proof. by intros []. Qed.

(** [maxBigint] returns one of its arguments. *)
Lemma tJ_max a t fs x y : triple (J a t fs) (maxBigint x y) (fun l s => (l = x \/ l = y) /\ J a t fs s).
Proof. intros s Hs. cbn. split; [|done]. case_match; auto. Qed.

Lemma t_max (P : Service -> Prop) x y : triple P (maxBigint x y) (fun l s => (l = x \/ l = y) /\ P s).
Proof. intros s Hs. cbn. split; [|done]. case_match; auto. Qed.

Lemma t_catch {A} (m : M A) : triple inv m (fun _ => inv) -> triple inv (catch m) (fun _ => inv).
Proof. intros Hm s Hs. unfold catch. specialize (Hm s Hs). destruct (m s) as [s' [a|e]]; done. Qed.

Lemma t_of_option {A} (P : Service -> Prop) e (o : option A) : (forall s, P s -> inv s) ->
  triple P (of_option e o) (fun a s => o = Some a /\ P s).
Proof. intros HP s Hs. destruct o; cbn; auto. Qed.

Lemma t_end {A} (P : Service -> Prop) (m : M A) : triple P m (fun _ => P) -> (forall s, P s -> inv s) -> triple P m (fun _ => inv).
Proof. intros Hm HP s Hs. specialize (Hm s Hs). destruct (m s) as [s' [a|e]]; auto. Qed.

Lemma t_pre {A} (P P' : Service -> Prop) (m : M A) Q : (forall s, P s -> P' s) -> triple P' m Q -> triple P m Q.
Proof. intros HP Hm s Hs. by apply Hm, HP. Qed.

Lemma t_known {A} e peer (k : EthAddress -> M A) Q : (forall a, triple inv (k a) Q) -> triple inv (known_or e peer k) Q.
Proof.
  intros Hk s Hs. unfold known_or, mbind, M_bind, beneficiary. cbn beta iota.
  destruct (Beneficiary (book s) peer) as [a|]; [by apply Hk|done].
Qed.

Lemma t_pure {A} (X : Prop) (P : Service -> Prop) (m : M A) Q : (X -> triple P m Q) -> triple (fun s => X /\ P s) m Q.
Proof. intros H s [HX HP]. by apply H. Qed.
End Traffic.

(** Steps of the ownership proofs. *)
Ltac locs_solve := unfold locs in *; cbn in *; set_solver.
Ltac t_step :=
  first
    [ eapply t_bind; [apply t_getTraffic|intros ?]
    | eapply t_bind; [apply tJ_getTraffic|intros ?; apply t_pure; intros ->]
    | eapply t_bind; [apply tJ_alloc|intros ?]
    | eapply t_bind; [apply t_alloc|intros ?]
    | eapply t_bind; [apply tJ_max|intros ?; apply t_pure; intros ?]
    | eapply t_bind; [apply tJ_set_traffic; locs_solve|intros ?]
    | eapply t_bind; [apply tJ_same; first [apply same_query|apply same_update|done]|intros ?]
    | eapply t_bind; [apply t_inv_same; first [apply same_query|apply same_update|done]|intros ?]
    | eapply t_bind; [apply t_of_option; first [apply J_inv|done]|intros ?; apply t_pure; intros ?]
    | apply t_fail; first [apply J_inv|done]
    | apply t_end; [apply tJ_same; first [apply same_query|apply same_update|done]|apply J_inv]
    | apply t_inv_same; first [apply same_query|apply same_update|done] ].

Section Ownership.
Context (Hex : EthAddress -> bytes) (HexToAddress : bytes -> EthAddress).
Context {S V : Type} `{ST : StateStorer S V} `{CS : Codec SignedCheque V} `{CC : Codec Cheque V} `{CZ : Codec Z V}
  `{CA : Codec (list Z) V}.
Context (recover : SignedCheque -> Z -> result chequeError EthAddress).
Context (env : Env).

Abbreviation owned m := (triple (S := S) inv m (fun _ => inv)).

Lemma tJ_last a t fs t' : locs t' ⊆ locs t ++ fs -> triple (S := S) (J a t fs) (set_traffic a t') (fun _ => inv).
Proof.
  intros Hs. apply (t_weaken _ (J a t fs) _ _ (fun _ => J a t' [])); [done|intros ? ?; apply J_inv|by apply tJ_set_traffic].
Qed.

Lemma o_updateStatus a st : owned (updateStatus a st).
Proof. unfold updateStatus. t_step. apply tJ_last. locs_solve. Qed.

Lemma tJ_chain_amount a t fs from to g p : triple (S := S) (J a t fs) (chain_amount env from to g p) (fun l => J a t (l :: fs)).
Proof.
  unfold chain_amount. destruct (TransAmount env from to) as [z|].
  - t_step. t_step. intros s Hs. done.
  - t_step. apply tJ_alloc.
Qed.

Lemma o_trafficPeerChainUpdate a c : owned (trafficPeerChainUpdate env a c).
Proof.
  unfold trafficPeerChainUpdate. t_step. eapply t_bind; [apply tJ_chain_amount|intros ?].
  eapply t_bind; [apply tJ_chain_amount|intros ?]. t_step. apply tJ_last. locs_solve.
Qed.

Lemma t_ex {A X} (P : X -> Service -> Prop) (m : M A) Q : (forall x, triple (S := S) (P x) m Q) -> triple (fun s => exists x, P x s) m Q.
Proof. intros H s [x Hs]. by apply (H x). Qed.

Lemma tJ_pick a t fs x y (o : option Z) : triple (S := S) (J a t fs)
  (match o with
   | Some z => l ← alloc z; r ← maxBigint x l; q ← maxBigint y l; mret (r, q)
   | None => mret (x, y)
   end)
  (fun rq s => exists fs', (rq.1 = x \/ rq.1 ∈ fs') /\ (rq.2 = y \/ rq.2 ∈ fs') /\ J a t (fs' ++ fs) s).
Proof.
  destruct o as [z|]; [|intros s Hs; exists []; by split_and!; [left|left|]].
  t_step. rename a0 into l. t_step. t_step. intros s Hs. exists [l]. cbn. split_and!; [|..|done]; set_solver.
Qed.

Lemma o_trafficPeerChequeUpdate a lc ltc : owned (trafficPeerChequeUpdate a lc ltc).
Proof.
  unfold trafficPeerChequeUpdate. t_step. rename a0 into t. cbn zeta.
  eapply t_bind.
  { pose proof (tJ_pick a t [] (retrieveChainTraffic t) (retrieveChainTraffic t) (CumulativePayout <$> lc !! a)) as H.
    destruct (lc !! a); exact H. }
  intros [r rcheq]. apply t_ex. intros fs1. apply t_pure. intros Hr. apply t_pure. intros Hrc. cbn [fst snd] in *.
  eapply t_bind.
  { pose proof (tJ_pick a t (fs1 ++ []) (transferChainTraffic t) (transferChainTraffic t)
      ((fun cq => CumulativePayout (cheque cq)) <$> ltc !! a)) as H. destruct (ltc !! a); exact H. }
  intros [tr tcheq]. apply t_ex. intros fs2. apply t_pure. intros Htr. apply t_pure. intros Htc. cbn [fst snd] in *.
  t_step. t_step. t_step. t_step. t_step. t_step. t_step. t_step. apply tJ_last. locs_solve.
Qed.

Lemma o_bind {A B} (m : M A) (f : A -> M B) : owned m -> (forall a, owned (f a)) -> owned (m ≫= f).
Proof. intros Hm Hf. by eapply t_bind. Qed.

Lemma o_replace_each l lc ltc : owned (replace_each env l lc ltc).
Proof.
  induction l as [|a l IH]; cbn [replace_each]; [t_step|]. apply o_bind; [t_step|intros s].
  apply o_bind; [apply t_catch, o_trafficPeerChainUpdate|intros _].
  apply o_bind; [apply t_catch, o_trafficPeerChequeUpdate|intros _]. apply IH.
Qed.

Lemma o_alloc z : owned (alloc z).
Proof. eapply t_weaken; [done| |apply t_alloc]. by intros l s []. Qed.

(** Reading the state and putting it back with other settings. *)
Lemma o_put_same (f : Service (S := S) -> Service) : (forall s, same_owner s (f s)) -> owned (s ← get; put (f s)).
Proof. intros Hf. apply t_inv_same. intros s. apply Hf. Qed.

Lemma o_put_then {B} (f : Service (S := S) -> Service) (m : M B) :
  (forall s, same_owner s (f s)) -> owned m -> owned (s ← get; _ ← put (f s); m).
Proof. intros Hf Hm s Hs. apply Hm, (inv_same s); [apply Hf|done]. Qed.

Lemma o_replaceTraffic l lc ltc : owned (replaceTraffic env l lc ltc).
Proof. unfold replaceTraffic. apply o_bind; [apply o_alloc|intros z]. apply o_put_then; [done|apply o_replace_each]. Qed.

Lemma t_set_balance {B} l (k : Service -> M B) : (forall s, owned (k s)) ->
  triple (S := S) (fun s => inv s /\ free s l) (s ← get; _ ← put (set_balance s l); k s) (fun _ => inv).
Proof.
  intros Hk s [[H1 H2 H3 H4] (L1 & L2 & L3)]. apply (Hk s (set_balance s l)). split; cbn; try done.
Qed.

Lemma o_trafficInit : owned (trafficInit HexToAddress env).
Proof.
  unfold trafficInit. do 3 t_step. unfold getAllAddress at 1.
  apply o_bind; [apply o_bind; [t_step|intros s]; t_step; t_step; t_step|intros l].
  apply o_bind; [apply o_replaceTraffic|intros _]. apply o_bind; [t_step|intros s]. t_step. t_step.
  apply t_set_balance. intros s'. t_step. apply o_bind; [apply o_alloc|intros p]. by apply o_put_same.
Qed.

Lemma o_Init : owned (Init Hex HexToAddress env).
Proof.
  unfold Init. apply o_bind; [apply o_trafficInit|intros _]. intros s Hs. unfold mbind, M_bind, get. cbn beta iota.
  destruct (InitAddressBook Hex HexToAddress (book s)) as [b|e]; cbn; [|done]. by apply (inv_same s).
Qed.

Lemma o_CashCheque peer : owned (CashCheque env peer).
Proof.
  apply t_known. intros a. eapply o_bind; [eapply t_weaken; [done| |apply t_getTraffic]; intros ? ?; apply J_inv|intros _].
  apply o_bind; [t_step|intros s]. t_step. apply o_bind; [apply o_updateStatus|intros _]. apply o_put_then; [done|]. t_step.
Qed.

Lemma o_getTraffic a : owned (getTraffic a).
Proof. eapply t_weaken; [done| |apply t_getTraffic]. intros ? ?. apply J_inv. Qed.

Lemma tJ_putSendCheque c l a t fs : l ∈ locs t ++ fs -> triple (S := S) (J a t fs) (putSendCheque c l a) (fun _ => inv).
Proof. intros Hl. unfold putSendCheque. t_step. t_step. t_step. t_step. t_step. Qed.

Lemma o_issue peer r b bal t : triple (S := S) (J r t []) (issue env peer r b bal t) (fun _ => inv).
Proof.
  assert (Hb : triple (S := S) (J r t []) (issue_body env peer r b bal t) (fun _ => inv)).
  { unfold issue_body. t_step. case_match; [t_step|]. t_step. t_step. t_step. t_step. case_match; [t_step|].
    apply tJ_putSendCheque. locs_solve. }
  intros s Hs. specialize (Hb s Hs). unfold issue, catch, mbind, M_bind, get, put, reflect.
  destruct (issue_body env peer r b bal t s) as [s' [[]|e]]; by apply (inv_same s').
Qed.

Lemma o_Pay peer th : owned (Pay env peer th).
Proof.
  unfold Pay. apply o_bind; [t_step|intros [r|]]; [|destruct (Disconnect env peer); t_step].
  unfold retrieveTraffic_. apply o_bind; [apply o_bind; [apply o_getTraffic|intros t; t_step; t_step]|intros bal].
  t_step. t_step. case_match; [apply o_issue|]. intros s Hs. apply (J_inv _ _ _ _ Hs).
Qed.

Lemma o_PutRetrieveTraffic peer z : owned (PutRetrieveTraffic peer z).
Proof. apply t_known. intros a. t_step. t_step. t_step. t_step. t_step. t_step. Qed.

Lemma o_PutTransferTraffic peer z : owned (PutTransferTraffic peer z).
Proof. apply t_known. intros a. t_step. t_step. t_step. t_step. t_step. t_step. Qed.

Lemma o_UpdatePeerBalance peer : owned (UpdatePeerBalance env peer).
Proof. apply t_known. intros a. t_step. t_step. t_step. apply tJ_last. locs_solve. Qed.

Lemma o_handshake_book peer r c : owned (handshake_book Hex peer r c).
Proof.
  unfold handshake_book. apply o_bind; [t_step|intros [l|]].
  - destruct (Signature c); [|t_step]. case_decide; t_step.
  - intros s Hs. unfold mbind, M_bind, get. cbn beta iota. destruct (BeneficiaryPeer Hex (book s) r); [done|].
    destruct (PutBeneficiary Hex (book s) peer r) as [b [[]|e]]; by apply (inv_same s).
Qed.

Lemma o_Handshake peer r c : owned (Handshake Hex recover env peer r c).
Proof.
  unfold Handshake. apply o_bind; [apply o_handshake_book|intros _]. apply o_bind; [apply o_UpdatePeerBalance|intros _].
  destruct (Signature c); [|t_step]. apply o_bind; [t_step|intros s]. t_step. case_decide; [t_step|].
  eapply o_bind; [|intros last].
  { destruct (LastSendCheque (cheques s) r) as [[x|] [[]|]]; t_step. }
  case_match; [|t_step]. t_step. t_step. apply tJ_putSendCheque. locs_solve.
Qed.

Lemma o_ReceiveCheque peer c : owned (ReceiveCheque recover peer c).
Proof.
  apply t_known. intros a. apply o_bind; [t_step|intros s]. case_decide; [t_step|].
  t_step. t_step. t_step. t_step. apply tJ_last. locs_solve.
Qed.

Lemma o_cashUpdate a peer : owned (cashUpdate env a peer).
Proof.
  unfold cashUpdate. apply o_bind; [t_step|intros s]. t_step. t_step. apply t_set_balance. intros s'.
  apply o_bind; [apply o_trafficPeerChainUpdate|intros _]. apply o_UpdatePeerBalance.
Qed.

Lemma o_cashChequeReceipt ci : owned (cashChequeReceipt env ci).
Proof.
  unfold cashChequeReceipt. apply o_bind; [apply o_getTraffic|intros t]. apply o_bind; [apply o_updateStatus|intros _].
  destruct (WaitForReceipt env (txHash ci)) as [st|]; [|t_step]. case_match; [|t_step].
  t_step. apply o_bind; [apply t_catch; t_step|intros _]. t_step. apply o_bind; [apply t_catch; t_step|intros _].
  apply o_bind; [apply t_catch, o_cashUpdate|intros _]. t_step.
Qed.

Lemma o_cashChequeReceiptUpdate : owned (cashChequeReceiptUpdate env).
Proof.
  intros s Hs. unfold cashChequeReceiptUpdate, mbind, M_bind, get. destruct (cashChequeChan s) as [|ci rest]; [done|].
  unfold put. pose proof (o_cashChequeReceipt ci (set_chan s rest) ltac:(by apply (inv_same s))) as H.
  destruct (cashChequeReceipt env ci (set_chan s rest)) as [s' [b|e]]; done.
Qed.

Lemma o_read_known {A} e peer (k : EthAddress -> Traffic -> M A) : (forall a t s, same_owner s (k a t s).1) ->
  owned (known_or e peer (fun a => t ← getTraffic a; k a t)).
Proof. intros Hk. apply t_known. intros a. t_step. apply t_end; [by apply tJ_same|apply J_inv]. Qed.
End Ownership.

(** ** All handlers *)

Inductive op :=
| OInit
| ORefresh
| OCashCheque (peer : Address)
| OReceipt
| OPay (peer : Address) (threshold : Z)
| OPutRetrieveTraffic (peer : Address) (traffic : Z)
| OPutTransferTraffic (peer : Address) (traffic : Z)
| OHandshake (peer : Address) (recipient : EthAddress) (c : SignedCheque)
| OReceiveCheque (peer : Address) (c : SignedCheque)
| OUpdatePeerBalance (peer : Address)
| OTotalSent (peer : Address)
| OTotalReceived (peer : Address)
| OTransferTraffic (peer : Address)
| ORetrieveTraffic (peer : Address)
| OGetPeerBalance (peer : Address)
| OGetUnPaidBalance (peer : Address).

Section Runs.
Context (Hex : EthAddress -> bytes) (HexToAddress : bytes -> EthAddress).
Context {S V : Type} `{ST : StateStorer S V} `{CS : Codec SignedCheque V} `{CC : Codec Cheque V} `{CZ : Codec Z V}
  `{CA : Codec (list Z) V}.
Context (recover : SignedCheque -> Z -> result chequeError EthAddress).

Definition exec (env : Env) (o : op) (s : Service (S := S)) : Service :=
  match o with
  | OInit => (Init Hex HexToAddress env s).1
  | ORefresh => (trafficInit HexToAddress env s).1
  | OCashCheque peer => (CashCheque env peer s).1
  | OReceipt => (cashChequeReceiptUpdate env s).1
  | OPay peer threshold => (Pay env peer threshold s).1
  | OPutRetrieveTraffic peer traffic => (PutRetrieveTraffic peer traffic s).1
  | OPutTransferTraffic peer traffic => (PutTransferTraffic peer traffic s).1
  | OHandshake peer recipient c => (Handshake Hex recover env peer recipient c s).1
  | OReceiveCheque peer c => (ReceiveCheque recover peer c s).1
  | OUpdatePeerBalance peer => (UpdatePeerBalance env peer s).1
  | OTotalSent peer => (TotalSent peer s).1
  | OTotalReceived peer => (TotalReceived peer s).1
  | OTransferTraffic peer => (TransferTraffic peer s).1
  | ORetrieveTraffic peer => (RetrieveTraffic peer s).1
  | OGetPeerBalance peer => (GetPeerBalance peer s).1
  | OGetUnPaidBalance peer => (GetUnPaidBalance peer s).1
  end.

Definition run (s : Service (S := S)) (ops : list (Env * op)) : Service := foldl (fun s eo => exec eo.1 eo.2 s) s ops.

Lemma owned_fst {A} (m : M A) s : triple (S := S) inv m (fun _ => inv) -> inv s -> inv (m s).1.
Proof. intros Hm Hs. specialize (Hm s Hs). by destruct (m s) as [s' [a|e]]. Qed.

Lemma exec_inv env o s : inv s -> inv (exec env o s).
Proof.
  intros Hs. destruct o; cbn [exec]; apply (owned_fst _ _); try done.
  - by apply o_Init.
  - by apply o_trafficInit.
  - by apply o_CashCheque.
  - by apply o_cashChequeReceiptUpdate.
  - by apply o_Pay.
  - by apply o_PutRetrieveTraffic.
  - by apply o_PutTransferTraffic.
  - by apply o_Handshake.
  - by apply o_ReceiveCheque.
  - by apply o_UpdatePeerBalance.
  - by apply o_read_known.
  - by apply o_read_known.
  - by apply o_read_known.
  - by apply o_read_known.
  - by apply o_read_known.
  - by apply o_read_known.
Qed.

Lemma New_inv a c cs b : inv (New (S := S) a c cs b).
Proof.
  split; cbn [New peers fresh balance].
  - intros x t l Hl. by rewrite lookup_empty in Hl.
  - intros x y t u l _ Hl. by rewrite lookup_empty in Hl.
  - lia.
  - intros x t Hl. by rewrite lookup_empty in Hl.
Qed.

Lemma run_inv s ops : inv s -> inv (run s ops).
Proof.
  revert s. induction ops as [|[env o] ops IH]; intros s Hs; [done|]. apply (IH (exec env o s)). by apply exec_inv.
Qed.

(** C32: however the handlers of the service are called, with whatever answers
    of the chain and the other services, the big-integer counters of different
    peers never share memory, nor do they share it with the balance; so the
    in-place addition of [issue] changes no other peer's counters. *)
Theorem counters_owned a c cs b ops : inv (run (New (S := S) a c cs b) ops).
Proof. apply run_inv, New_inv. Qed.
End Runs.
