(* ===== verification/TrafficPay.v ===== *)
(** * Paying and receiving (pkg/settlement/traffic/traffic.go)

    What the handlers that move money do to the counters, on every branch:
    [Pay] with and without success, and [ReceiveCheque].  Some of the theorems
    state what the code does where that differs from its intent: a failed
    payment is reported as made, the in-place addition raises the cashed amount
    when the two counters are one cell, and a cheque of a third party settles
    the sender's debt. *)

From Stdlib Require Import ZArith Lia ZifyBool.
From stdpp Require Import base gmap list numbers strings.
From S2P Require Import Prelude Boson StateStore Cheque AddressBook Traffic.

Open Scope Z_scope.

Section Pay.
Context {S V : Type} `{ST : StateStorer S V} `{CS : Codec SignedCheque V} `{CC : Codec Cheque V} `{CZ : Codec Z V}
  `{CA : Codec (list Z) V}.
Context (recover : SignedCheque -> Z -> result chequeError EthAddress).

Abbreviation Service := (Service (S := S)).

(** Retrieved and not yet covered by a cheque. *)
Definition unpaid (s : Service) (t : Traffic) : Z := val s (retrieveTraffic t) - val s (retrieveChequeTraffic t).

(** Transferred to the peer and not yet covered by its cheques. *)
Definition owing (s : Service) (t : Traffic) : Z := val s (transferTraffic t) - val s (transferChequeTraffic t).

Definition available (s : Service) : Z :=
  val s (balance s) + (sum_peers s retrieveChainTraffic - sum_peers s retrieveTraffic).

(** The in-place addition of [issue]. *)
Definition raise (s : Service) (t : Traffic) (bal : Z) : Service :=
  set_heap s (<[retrieveChequeTraffic t := val s (retrieveChequeTraffic t) + bal]> (heap s)) (fresh s).

Definition notify (s : Service) (peer : Address) (bal : Z) : Service := set_notified s (notified s ++ [(peer, bal)]).

Lemma val_raise s t bal l :
  val (raise s t bal) l = if decide (l = retrieveChequeTraffic t) then val s l + bal else val s l.
Proof.
  unfold val, raise. cbn [heap set_heap]. case_decide as Hd.
  - subst l. by rewrite lookup_insert_eq.
  - by rewrite lookup_insert_ne.
Qed.

Section Known.
Context (env : Env) (s : Service) (peer : Address) (r : EthAddress) (t : Traffic).
Context (Hb : Beneficiary (book s) peer = Some r) (Ht : peers s !! r = Some t).

Lemma getTraffic_known : getTraffic r s = (s, Ok t).
Proof. unfold getTraffic, mbind, M_bind, get. cbn beta iota. by rewrite Ht. Qed.

Lemma Pay_known th : Pay env peer th s =
  if th <=? unpaid s t then issue env peer r (chainAddress s) (unpaid s t) t s else (s, Ok tt).
Proof.
  unfold Pay, beneficiary, retrieveTraffic_, mbind, M_bind. cbn beta iota. rewrite Hb. rewrite getTraffic_known.
  unfold get, mret, M_ret. cbn beta iota. rewrite getTraffic_known. cbn beta iota. fold (unpaid s t). by case_match.
Qed.

Definition payout : Cheque := MkCheque r (chainAddress s) (val s (retrieveChequeTraffic t) + unpaid s t).

Lemma issue_known : let bal := unpaid s t in
  issue env peer r (chainAddress s) bal t s =
    if available s <? bal then (notify s peer bal, Err ErrInsufficientFunds)
    else
      let s1 := raise s t bal in
      match signCheque env payout with
      | None => (notify s1 peer bal, Err errSign)
      | Some sin =>
          if negb (EmitCheque env peer (MkSigned payout (Some sin))) then (notify s1 peer bal, Err errEmit)
          else let '(s2, res) := putSendCheque payout (retrieveChequeTraffic t) r s1 in (notify s2 peer bal, res)
      end.
Proof.
  cbn zeta. unfold issue, catch, reflect, mbind, M_bind, get, put. unfold issue_body at 1, mbind, M_bind.
  assert (Ea : AvailableBalance s = (s, Ok (available s))) by done. rewrite Ea. cbn beta iota.
  destruct (available s <? unpaid s t); [done|].
  change (read (retrieveChequeTraffic t) s) with (s, Ok (A := Z) (E := trafficError) (val s (retrieveChequeTraffic t))). cbn beta iota.
  change (write (retrieveChequeTraffic t) (val s (retrieveChequeTraffic t) + unpaid s t) s)
    with (raise s t (unpaid s t), Ok (A := unit) (E := trafficError) tt). cbn beta iota.
  unfold read at 1. rewrite val_raise, decide_True by done. cbn beta iota. fold payout.
  destruct (signCheque env payout) as [sin|]; cbn [of_option]; [|done]. unfold mret, M_ret. cbn beta iota.
  destruct (EmitCheque env peer _); cbn [negb]; [|done].
  by destruct (putSendCheque payout (retrieveChequeTraffic t) r (raise s t (unpaid s t))) as [s2 [[]|e]].
Qed.

Lemma val_set_cheques c l : val (set_cheques s c) l = val s l.
Proof. done. Qed.

Lemma set_same_peers (s0 : Service) : peers s0 !! r = Some t -> set_peers s0 (<[r := t]> (peers s0)) = s0.
Proof. intros E. rewrite insert_id by done. by destruct s0. Qed.

Lemma putSendCheque_raise : let s1 := raise s t (unpaid s t) in
  putSendCheque (payout) (retrieveChequeTraffic t) r s1 =
    match PutSendCheque (cheques s) payout r with
    | Ok c => (set_cheques s1 c, Ok tt)
    | Err e => (s1, Err (errCheque e))
    end.
Proof.
  cbn zeta. set (s1 := raise s t (unpaid s t)). unfold putSendCheque, mbind, M_bind.
  assert (Eg : getTraffic r s1 = (s1, Ok t)) by (unfold getTraffic, mbind, M_bind, get; cbn beta iota; change (peers s1) with (peers s); by rewrite Ht).
  rewrite Eg. cbn beta iota. unfold maxBigint, mbind, M_bind, read, mret, M_ret. cbn beta iota.
  assert (Em : (val s1 (retrieveTraffic t) <? val s1 (retrieveChequeTraffic t)) = false).
  { apply Z.ltb_ge. subst s1. rewrite !val_raise. rewrite (decide_True (P := retrieveChequeTraffic t = _)) by done.
    unfold unpaid. case_decide as Hd; [rewrite Hd|]; lia. }
  rewrite Em. cbn beta iota.
  assert (Et : MkTraffic (trafficPeerBalance t) (retrieveChainTraffic t) (transferChainTraffic t) (retrieveChequeTraffic t)
    (transferChequeTraffic t) (retrieveTraffic t) (transferTraffic t) (status t) = t) by (by destruct t).
  rewrite Et. unfold set_traffic. rewrite set_same_peers by done. cbn beta iota.
  assert (Ev : val s1 (retrieveChequeTraffic t) = CumulativePayout payout) by (subst s1; by rewrite val_raise, decide_True).
  rewrite Ev. unfold update. change (cheques s1) with (cheques s).
  change (MkCheque (Recipient payout) (Cheque.Beneficiary payout) (CumulativePayout payout)) with payout.
  by destruct (PutSendCheque (cheques s) payout r).
Qed.
End Known.

(** ** Sums over the peers *)

Lemma foldr_sum (s s' : Service) f (l : list (EthAddress * Traffic)) :
  (forall kt, kt ∈ l -> val s' (f kt.2) = val s (f kt.2)) ->
  foldr (fun kt acc => val s' (f kt.2) + acc) 0 l = foldr (fun kt acc => val s (f kt.2) + acc) 0 l.
Proof. induction l as [|kt l IH]; intros H; [done|]. cbn. rewrite H, IH by set_solver. done. Qed.

Lemma foldr_perm (s : Service) f (l l' : list (EthAddress * Traffic)) : l ≡ₚ l' ->
  foldr (fun kt acc => val s (f kt.2) + acc) 0 l = foldr (fun kt acc => val s (f kt.2) + acc) 0 l'.
Proof. induction 1; cbn; lia. Qed.

Lemma sum_split (s : Service) f r t : peers s !! r = Some t ->
  sum_peers s f = val s (f t) + foldr (fun kt acc => val s (f kt.2) + acc) 0 (map_to_list (delete r (peers s))).
Proof.
  intros Ht. unfold sum_peers. pose proof (map_to_list_delete (peers s) r t Ht) as Hp.
  symmetry in Hp. rewrite (foldr_perm s f _ _ Hp). done.
Qed.

Lemma sum_raise (s : Service) f r t bal : inv s -> peers s !! r = Some t -> (forall u, f u ∈ locs u) ->
  sum_peers (raise s t bal) f = sum_peers s f + (if decide (f t = retrieveChequeTraffic t) then bal else 0).
Proof.
  intros Hi Ht Hf. rewrite (sum_split s f r t Ht), (sum_split (raise s t bal) f r t Ht). rewrite val_raise.
  change (peers (raise s t bal)) with (peers s).
  rewrite (foldr_sum s); [case_decide; lia|]. intros [a u] Hin. cbn [snd fst]. apply elem_of_map_to_list in Hin.
  apply lookup_delete_Some in Hin as [Hne Hu]. rewrite val_raise, decide_False; [done|]. intros E.
  apply (i_sep s Hi a r u t (f u)); [done|done|done|apply Hf|]. rewrite E. unfold locs. set_solver.
Qed.

Lemma available_raise (s : Service) r t : inv s -> peers s !! r = Some t -> unpaid s t <> 0 ->
  available (raise s t (unpaid s t)) = available s + (if decide (retrieveChainTraffic t = retrieveChequeTraffic t) then unpaid s t else 0).
Proof.
  intros Hi Ht Hu. unfold available. change (balance (raise s t (unpaid s t))) with (balance s).
  rewrite (sum_raise s retrieveChainTraffic r t), (sum_raise s retrieveTraffic r t); try done;
    try (intros u; unfold locs; set_solver).
  rewrite val_raise, (decide_False (P := balance s = _)).
  2: { intros E. apply (i_balance_sep s Hi r t Ht). rewrite E. unfold locs. set_solver. }
  rewrite (decide_False (P := retrieveTraffic t = _)); [lia|]. intros E. apply Hu. unfold unpaid. rewrite E. lia.
Qed.

(** A payment that goes through sends and stores a cheque over everything
    retrieved from the peer so far, leaves nothing unpaid, changes no counter of
    another peer and is reported to the accounting.  The available balance stays
    the same, unless the counters of the cheques and of the cashed amount are
    one big integer: then it grows by the amount just paid. *)
Theorem Pay_ok env (s : Service) peer r t th sin c : inv s ->
  Beneficiary (book s) peer = Some r -> peers s !! r = Some t ->
  let bal := unpaid s t in
  th <= bal -> bal <> 0 -> bal <= available s ->
  signCheque env (payout s r t) = Some sin -> EmitCheque env peer (MkSigned (payout s r t) (Some sin)) = true ->
  PutSendCheque (cheques s) (payout s r t) r = Ok c ->
  exists s', Pay env peer th s = (s', Ok tt) /\ CumulativePayout (payout s r t) = val s (retrieveTraffic t) /\
    LastSendCheque (cheques s') r = (Some (payout s r t), None) /\
    peers s' = peers s /\ unpaid s' t = 0 /\
    (forall a u l, a <> r -> peers s !! a = Some u -> l ∈ locs u -> val s' l = val s l) /\
    notified s' = notified s ++ [(peer, bal)] /\
    available s' = available s + (if decide (retrieveChainTraffic t = retrieveChequeTraffic t) then bal else 0).
Proof.
  intros Hi Hb Ht bal Hth Hnz Hav Hsin Hem Hput. rewrite (Pay_known env s peer r t Hb Ht), (proj2 (Z.leb_le _ _)) by done.
  rewrite (issue_known env s peer r t). cbn zeta.
  rewrite (proj2 (Z.ltb_ge _ _)) by done. rewrite Hsin, Hem. cbn [negb].
  rewrite (putSendCheque_raise s r t Ht), Hput. eexists. split; [done|]. split_and!.
  - cbn. unfold unpaid. lia.
  - unfold PutSendCheque, put_value in Hput. destruct (Put _ _ _) as [st|e] eqn:EP; cbn [lift mbind result_bind] in Hput; [|done].
    injection Hput as <-. unfold LastSendCheque. cbn [cheques notify set_notified set_cheques store set_store].
    by rewrite (Get_Put _ _ _ _ EP).
  - done.
  - unfold unpaid at 1. change (val (raise s t (unpaid s t)) (retrieveTraffic t) - val (raise s t (unpaid s t)) (retrieveChequeTraffic t) = 0).
    rewrite !val_raise, (decide_True (P := retrieveChequeTraffic t = _)) by done. unfold unpaid. case_decide as Hd; [rewrite Hd|]; lia.
  - intros a u l Ha Hu Hl. change (val (raise s t (unpaid s t)) l = val s l). rewrite val_raise, decide_False; [done|].
    intros ->. apply (i_sep s Hi a r u t _ Ha Hu Ht Hl). unfold locs. set_solver.
  - done.
  - change (available (raise s t (unpaid s t)) = available s + (if decide (retrieveChainTraffic t = retrieveChequeTraffic t) then bal else 0)).
    by apply (available_raise s r t).
Qed.

(** C33: a payment that fails, for lack of funds, because the cheque cannot be
    signed or because it cannot be delivered, is still reported to the
    accounting as a payment of the whole amount; and in the last two cases the
    service itself counts the amount as paid, though no cheque is stored. *)
Theorem Pay_failed env (s : Service) peer r t th s' e : inv s ->
  Beneficiary (book s) peer = Some r -> peers s !! r = Some t -> th <= unpaid s t -> unpaid s t <> 0 ->
  Pay env peer th s = (s', Err e) -> (forall x, e <> errCheque x) ->
  notified s' = notified s ++ [(peer, unpaid s t)] /\ cheques s' = cheques s /\ peers s' = peers s /\
  unpaid s' t = if decide (e = ErrInsufficientFunds) then unpaid s t else 0.
Proof.
  intros Hi Hb Ht Hth Hnz HP He. rewrite (Pay_known env s peer r t Hb Ht), (proj2 (Z.leb_le _ _)) in HP by done.
  rewrite (issue_known env s peer r t) in HP. cbn zeta in HP.
  assert (Hraise : forall x, x <> ErrInsufficientFunds -> (notify (raise s t (unpaid s t)) peer (unpaid s t), Err (A := unit) x) = (s', Err e) ->
    notified s' = notified s ++ [(peer, unpaid s t)] /\ cheques s' = cheques s /\ peers s' = peers s /\
    unpaid s' t = if decide (e = ErrInsufficientFunds) then unpaid s t else 0).
  { intros x Hx [= <- <-]. split_and!; [done..|]. rewrite decide_False by done. unfold unpaid at 1.
    change (val (raise s t (unpaid s t)) (retrieveTraffic t) - val (raise s t (unpaid s t)) (retrieveChequeTraffic t) = 0).
    rewrite !val_raise, (decide_True (P := retrieveChequeTraffic t = _)) by done. unfold unpaid. case_decide as Hd; [rewrite Hd|]; lia. }
  destruct (available s <? unpaid s t).
  { injection HP as <- <-. split_and!; [done..|]. by rewrite decide_True. }
  destruct (signCheque env (payout s r t)) as [sin|]; [|by apply (Hraise errSign)].
  destruct (EmitCheque env peer _); cbn [negb] in HP; [|by apply (Hraise errEmit)].
  rewrite (putSendCheque_raise s r t Ht) in HP. destruct (PutSendCheque _ _ _) as [c|x]; [done|].
  injection HP as _ <-. by destruct (He x).
Qed.

(** C34: [ReceiveCheque] rejects a cheque only if both its beneficiary is not
    the peer's and its recipient is not this node.  So a valid cheque of someone
    else, forwarded by a peer, is accepted and replaces the amount the peer has
    paid, whatever the peer itself has paid. *)
Theorem ReceiveCheque_any_beneficiary (s : Service) peer a t c cs amount : inv s ->
  Beneficiary (book s) peer = Some a -> peers s !! a = Some t ->
  Recipient (cheque c) = chainAddress s -> Cheque.ReceiveCheque recover (cheques s) c = Ok (cs, amount) ->
  exists s' t', ReceiveCheque recover peer c s = (s', Ok tt) /\ peers s' !! a = Some t' /\
    owing s' t' = val s (transferTraffic t) - CumulativePayout (cheque c) /\ TransferTraffic peer s' = (s', Ok (owing s' t')).
Proof.
  intros Hi Hb Ht Hr Hc.
  assert (Hl : transferTraffic t <> fresh s).
  { pose proof (i_bound s Hi a t (transferTraffic t) Ht ltac:(unfold locs; set_solver)). lia. }
  unfold ReceiveCheque, known_or, beneficiary, mbind, M_bind. cbn beta iota. rewrite Hb. unfold get at 1. cbn beta iota.
  rewrite decide_False by naive_solver. rewrite (getTraffic_known s a t Ht). cbn beta iota.
  unfold update. rewrite Hc. cbn beta iota. unfold alloc. cbn beta iota.
  set (s1 := set_heap _ _ _). assert (Eg : getTraffic a s1 = (s1, Ok t)) by (by apply getTraffic_known).
  rewrite Eg. cbn beta iota. unfold set_traffic. set (t' := MkTraffic _ _ _ _ _ _ _ _).
  set (s2 := set_peers _ _). exists s2, t'.
  assert (E1 : val s2 (transferChequeTraffic t') = CumulativePayout (cheque c)).
  { unfold val. subst s2 s1 t'. cbn. by rewrite lookup_insert_eq. }
  assert (E2 : val s2 (transferTraffic t') = val s (transferTraffic t)).
  { unfold val. subst s2 s1 t'. cbn. by rewrite lookup_insert_ne. }
  assert (Ep : peers s2 !! a = Some t') by apply lookup_insert_eq.
  split_and!; try done; [unfold owing; congruence|]. unfold TransferTraffic, known_or, beneficiary, mbind, M_bind. cbn beta iota.
  change (book s2) with (book s). rewrite Hb. rewrite (getTraffic_known s2 a t' Ep). cbn beta iota.
  done.
Qed.
End Pay.

(** ** Examples *)

Inductive tval :=
| TV (v : sval)
| TB (b : list Z).

#[refine] Definition t_codec {A} (C : Codec A sval) : Codec A tval :=
  {| marshal a := TV (marshal a); unmarshal v := match v with TV v => unmarshal v | TB _ => None end |}.
Proof. intros a. apply unmarshal_marshal. Defined.

#[refine] Definition t_bytes : Codec (list Z) tval :=
  {| marshal := TB; unmarshal v := match v with TB b => Some b | TV _ => None end |}.
Proof. done. Defined.

#[local] Existing Instance memory_store.
#[local] Instance ts : Codec SignedCheque tval := t_codec signed_codec.
#[local] Instance tc : Codec Cheque tval := t_codec cheque_codec.
#[local] Instance tz : Codec Z tval := t_codec int_codec.
#[local] Existing Instance t_bytes.

(** A chain on which 50 were cashed in each direction, and our balance is 1000;
    cheques are delivered if [emit]. *)
Definition toy_env (emit : bool) : Env := {|
  TransAmount _ _ := Some 50;
  BalanceOf _ := Some 1000;
  RetrievedAddress _ := Some [toy_eth 1];
  TransferredAddress _ := Some [];
  TransferredTotal _ := Some 0;
  signCheque _ := Some (toy_eth 9);
  EmitCheque _ _ := emit;
  cashoutCheque _ _ _ := Some [1];
  WaitForReceipt _ := Some 1;
  Disconnect _ := true;
|}.

Definition toy_service : Traffic.Service (S := gmap bytes tval) :=
  run EncodeToString toy_hex toy_recover
    (New (toy_eth 9) 1 (MkStore ∅ (toy_eth 9) 1) (MkBook ∅ ∅ ∅))
    [(toy_env true, OHandshake [7] (toy_eth 1) (MkSigned (MkCheque [] [] 0) None)); (toy_env true, ORefresh);
     (toy_env true, OPutRetrieveTraffic [7] 100); (toy_env true, OPutTransferTraffic [7] 30)].

Definition toy_traffic : Traffic := default (MkTraffic 0 0 0 0 0 0 0 UnOperation) (peers toy_service !! toy_eth 1).

Lemma toy_inv : inv toy_service.
Proof. apply run_inv, New_inv. Qed.

Lemma toy_put (cs : chequeStore (S := gmap bytes tval)) c r :
  PutSendCheque cs c r = Ok (MkStore (<[lastSendChequeKey r := TV (VCheque c)]> (store cs)) (recipient cs) (chainID cs)).
Proof. done. Qed.

(** The available balance grows by paying. *)
Lemma Pay_ok_witness : exists s', Pay (toy_env true) [7] 100 toy_service = (s', Ok tt) /\
  available toy_service = 900 /\ available s' = 1000.
Proof.
  pose proof (toy_put (cheques toy_service) (payout toy_service (toy_eth 1) toy_traffic) (toy_eth 1)) as Hput.
  destruct (Pay_ok (toy_env true) toy_service [7] (toy_eth 1) toy_traffic 100 (toy_eth 9)
    (MkStore (<[lastSendChequeKey (toy_eth 1) := TV (VCheque (payout toy_service (toy_eth 1) toy_traffic))]>
      (store (cheques toy_service))) (recipient (cheques toy_service)) (chainID (cheques toy_service))) toy_inv)
    as (s' & E & _ & _ & _ & _ & _ & _ & Ha).
  - vm_compute. reflexivity.
  - vm_compute. reflexivity.
  - vm_compute. congruence.
  - vm_compute. congruence.
  - vm_compute. congruence.
  - vm_compute. reflexivity.
  - vm_compute. reflexivity.
  - exact Hput.
  - exists s'. split; [exact E|]. split; [vm_compute; reflexivity|]. etransitivity; [exact Ha|]. vm_compute. reflexivity.
Defined.

Lemma Pay_failed_witness : let s' := (Pay (toy_env false) [7] 100 toy_service).1 in
  notified s' = [([7], 100)] /\ unpaid s' toy_traffic = 0.
Proof.
  assert (He : (Pay (toy_env false) [7] 100 toy_service).2 = Err errEmit) by (vm_compute; reflexivity).
  destruct (Pay_failed (toy_env false) toy_service [7] (toy_eth 1) toy_traffic 100 (Pay (toy_env false) [7] 100 toy_service).1
    errEmit toy_inv) as (Hn & _ & _ & Hu).
  - vm_compute. reflexivity.
  - vm_compute. reflexivity.
  - vm_compute. congruence.
  - vm_compute. congruence.
  - rewrite <- He. apply surjective_pairing.
  - done.
  - cbv zeta. split; [rewrite Hn; vm_compute; reflexivity|rewrite Hu; reflexivity].
Defined.

(** A cheque of [toy_eth 5], forwarded by the peer of [toy_eth 1]. *)
Lemma ReceiveCheque_any_beneficiary_witness : exists s' t',
  ReceiveCheque toy_recover [7] (toy_cheque 5 9 70) toy_service = (s', Ok tt) /\
  peers s' !! toy_eth 1 = Some t' /\ owing s' t' = 80 - 70.
Proof.
  assert (Hr : match Cheque.ReceiveCheque toy_recover (cheques toy_service) (toy_cheque 5 9 70) with Ok (_, a) => a | Err _ => 0 end = 70)
    by (vm_compute; reflexivity).
  destruct (Cheque.ReceiveCheque toy_recover (cheques toy_service) (toy_cheque 5 9 70)) as [[cs a]|] eqn:Hc; [|discriminate].
  destruct (ReceiveCheque_any_beneficiary toy_recover toy_service [7] (toy_eth 1) toy_traffic (toy_cheque 5 9 70) cs a toy_inv)
    as (s' & t' & E & Hp & Ht & _).
  - vm_compute. reflexivity.
  - vm_compute. reflexivity.
  - vm_compute. reflexivity.
  - exact Hc.
  - exists s', t'. split; [exact E|]. split; [exact Hp|]. etransitivity; [exact Ht|]. vm_compute. reflexivity.
Defined.
