(* ===== verification/Accounting.v ===== *)
(** * Accounting per peer (pkg/accounting/accounting.go)

    What we owe a peer for retrieved chunks and what the peer owes us, on top of
    a settlement ([settlement.Interface], the class [Settlement]; its promises
    are the class [SettlementLaws]).  The operations are the functions [Reserve],
    [Credit], [Debit], [NotifyPayment] and [settle_one], the body of the loop in
    [settle].  Their concurrent use is a step relation: one thread per call and
    per notification, at the grain of the critical sections under the lock of an
    accounting peer and of the calls to the settlement, with the settling
    goroutine at the receiving end of the buffered channel. *)

From Stdlib Require Import ZArith Lia ZifyBool.
From stdpp Require Import base gmap list numbers.
From S2P Require Import Prelude Boson.

Open Scope Z_scope.

(** [settlement.Interface]; a payment also yields the calls of the notification
    function it makes. *)
Class Settlement (T E : Type) := {
  Pay : Address -> Z -> T -> T * list (Address * Z) * result E unit;
  TransferTraffic : Address -> T -> T * result E Z;
  RetrieveTraffic : Address -> T -> T * result E Z;
  PutRetrieveTraffic : Address -> Z -> T -> T * result E unit;
  PutTransferTraffic : Address -> Z -> T -> T * result E unit;
  AvailableBalance : T -> T * result E Z;
}.

(** What the accounting relies on, by the hexadecimal name of the peer: [debt]
    is retrieved and not yet paid, [owed] is transferred and not yet paid. *)
Class SettlementLaws (T E : Type) `{SE : Settlement T E} := {
  debt : T -> bytes -> Z;
  owed : T -> bytes -> Z;
  sgood : T -> Prop;
  same t t' := sgood t' /\ (forall k, debt t' k = debt t k) /\ (forall k, owed t' k = owed t k);
  debt_nonneg t k : sgood t -> 0 <= debt t k;
  transfer_spec p t t' r : sgood t -> TransferTraffic p t = (t', r) ->
    same t t' /\ (forall z, r = Ok z -> z = owed t (String p));
  retrieve_spec p t t' r : sgood t -> RetrieveTraffic p t = (t', r) ->
    same t t' /\ (forall z, r = Ok z -> z = debt t (String p));
  available_spec t t' r : sgood t -> AvailableBalance t = (t', r) -> same t t';
  put_retrieve_spec p x t t' r : sgood t -> 0 <= x -> PutRetrieveTraffic p x t = (t', r) ->
    sgood t' /\ (forall k, owed t' k = owed t k) /\ (forall k, k <> String p -> debt t' k = debt t k) /\
    (debt t' (String p) = debt t (String p) + x \/ debt t' (String p) = debt t (String p) /\ r <> Ok tt);
  put_transfer_spec p x t t' r : sgood t -> 0 <= x -> PutTransferTraffic p x t = (t', r) ->
    sgood t' /\ (forall k, debt t' k = debt t k) /\ (forall k, k <> String p -> owed t' k = owed t k) /\
    (owed t' (String p) = owed t (String p) + x \/ owed t' (String p) = owed t (String p) /\ r <> Ok tt);
  pay_spec p th t t' n r : sgood t -> 0 < th -> Pay p th t = (t', n, r) ->
    sgood t' /\ (forall k, owed t' k = owed t k) /\ (forall k, k <> String p -> debt t' k = debt t k) /\
    (n = [] /\ debt t' (String p) = debt t (String p) /\ (r = Ok tt -> debt t (String p) < th) \/
     n = [(p, debt t (String p))] /\ th <= debt t (String p) /\
       (debt t' (String p) = 0 \/ debt t' (String p) = debt t (String p) /\ r <> Ok tt));
}.

Record accountingPeer := MkPeer {
  peerThreshold : Z;
  unPaidTraffic : Z;
}.

Record Accounting := MkAcc {
  accountingPeers : gmap bytes accountingPeer;
  paymentTolerance : Z;
  paymentThreshold : Z;
}.

Definition NewAccounting (paymentTolerance paymentThreshold : Z) : Accounting := MkAcc ∅ paymentTolerance paymentThreshold.

Inductive accError {E : Type} :=
| ErrDisconnectThresholdExceeded
| ErrLowAvailableExceeded
| errSettlement (e : E).
Arguments accError : clear implicits.

(** The capacity of [payChan]. *)
Definition payChanSize : nat := 1000.

Section Operations.
Context {T E : Type} `{SE : Settlement T E}.

Definition from_settlement {A} (r : result E A) : result (accError E) A :=
  match r with Ok a => Ok a | Err e => Err (errSettlement e) end.

Definition set_accountingPeers (a : Accounting) (m : gmap bytes accountingPeer) : Accounting :=
  MkAcc m (paymentTolerance a) (paymentThreshold a).

Definition getAccountingPeer (peer : Address) (a : Accounting) (t : T) : Accounting * T * result (accError E) accountingPeer :=
  match accountingPeers a !! String peer with
  | Some peerData => (a, t, Ok peerData)
  | None =>
      match RetrieveTraffic peer t with
      | (t, Err e) => (a, t, Err (errSettlement e))
      | (t, Ok retrieve) =>
          let peerData := MkPeer (paymentThreshold a) retrieve in
          (set_accountingPeers a (<[String peer := peerData]> (accountingPeers a)), t, Ok peerData)
      end
  end.

Definition reserve_check (ap : accountingPeer) (traffic : Z) (t : T) : T * result (accError E) unit :=
  match AvailableBalance t with
  | (t, Err e) => (t, Err (errSettlement e))
  | (t, Ok available) => (t, if available <? unPaidTraffic ap + traffic then Err ErrLowAvailableExceeded else Ok tt)
  end.

Definition Reserve (peer : Address) (traffic : Z) (a : Accounting) (t : T) : Accounting * T * result (accError E) unit :=
  match getAccountingPeer peer a t with
  | (a, t, Err e) => (a, t, Err e)
  | (a, t, Ok ap) => let '(t, r) := reserve_check ap traffic t in (a, t, r)
  end.

(** Assignments to the fields of the accounting peer behind a pointer. *)
Definition update_peer (f : Z -> Z) (peer : Address) (a : Accounting) : Accounting :=
  set_accountingPeers a (alter (fun ap => MkPeer (peerThreshold ap) (f (unPaidTraffic ap))) (String peer) (accountingPeers a)).

(** What [Credit] sends to the settling goroutine. *)
Definition payment_due (peer : Address) (a : Accounting) : list (Address * Z) :=
  match accountingPeers a !! String peer with
  | Some ap => if peerThreshold ap <=? unPaidTraffic ap then [(peer, peerThreshold ap)] else []
  | None => []
  end.

Definition Credit (peer : Address) (traffic : Z) (a : Accounting) (t : T) :
    Accounting * T * list (Address * Z) * result (accError E) unit :=
  match getAccountingPeer peer a t with
  | (a, t, Err e) => (a, t, [], Err e)
  | (a, t, Ok _) =>
      let a := update_peer (fun u => u + traffic) peer a in
      match PutRetrieveTraffic peer traffic t with
      | (t, Err e) => (a, t, [], Err (errSettlement e))
      | (t, Ok _) => (a, t, payment_due peer a, Ok tt)
      end
  end.

(** The guard of [Debit]. *)
Definition debit_check (peer : Address) (a : Accounting) (t : T) : T * result (accError E) unit :=
  match TransferTraffic peer t with
  | (t, Err e) => (t, Err (errSettlement e))
  | (t, Ok traff) => (t, if paymentTolerance a <=? traff then Err ErrDisconnectThresholdExceeded else Ok tt)
  end.

Definition Debit (peer : Address) (traffic : Z) (a : Accounting) (t : T) : Accounting * T * result (accError E) unit :=
  match getAccountingPeer peer a t with
  | (a, t, Err e) => (a, t, Err e)
  | (a, t, Ok _) =>
      match debit_check peer a t with
      | (t, Err e) => (a, t, Err e)
      | (t, Ok _) => let '(t, r) := PutTransferTraffic peer traffic t in (a, t, from_settlement r)
      end
  end.

Definition paid (traffic unPay : Z) : Z := if unPay <=? 0 then unPay else if unPay <? traffic then 0 else unPay - traffic.

Definition NotifyPayment (peer : Address) (traffic : Z) (a : Accounting) (t : T) : Accounting * T * result (accError E) unit :=
  match getAccountingPeer peer a t with
  | (a, t, Err e) => (a, t, Err e)
  | (a, t, Ok _) => (update_peer (paid traffic) peer a, t, Ok tt)
  end.

(** ** Goroutines

    A call between two of its steps.  A thread in [CreditPut], [CreditSend] or
    [DebitPut] is inside the critical section of its accounting peer. *)
Inductive thread :=
| CreditStart (peer : Address) (traffic : Z)
| CreditLock (peer : Address) (traffic : Z)
| CreditPut (peer : Address) (traffic : Z)
| CreditSend (peer : Address) (traffic : Z)
| DebitStart (peer : Address) (traffic : Z)
| DebitLock (peer : Address) (traffic : Z)
| DebitPut (peer : Address) (traffic : Z)
| ReserveStart (peer : Address) (traffic : Z)
| ReserveCheck (peer : Address) (traffic : Z)
| NotifyStart (peer : Address) (traffic : Z)
| NotifyLock (peer : Address) (traffic : Z)
| Finished (r : result (accError E) unit).

Inductive outcome := fine | putFailed | payFailed.

Definition inside (th : thread) : option bytes :=
  match th with
  | CreditPut peer _ | CreditSend peer _ | DebitPut peer _ => Some (String peer)
  | _ => None
  end.

(** Nobody of [ths] holds the lock of the accounting peer. *)
Definition unlocked (ths : list thread) (peer : Address) : bool := forallb (fun th => negb (bool_decide (inside th = Some (String peer)))) ths.

Record shared := MkShared {
  acc : Accounting;
  sett : T;
  payChan : list (Address * Z);
}.

(** The first step of a call, which looks the accounting peer up. *)
Definition start (peer : Address) (next : thread) (s : shared) : shared * thread * outcome :=
  match getAccountingPeer peer (acc s) (sett s) with
  | (a, t, Err e) => (MkShared a t (payChan s), Finished (Err e), fine)
  | (a, t, Ok _) => (MkShared a t (payChan s), next, fine)
  end.

(** One step of a thread beside the threads [others], if it is not blocked. *)
Definition advance (others : list thread) (th : thread) (s : shared) : option (shared * thread * outcome) :=
  match th with
  | CreditStart p x => Some (start p (CreditLock p x) s)
  | CreditLock p x =>
      if unlocked others p then Some (MkShared (update_peer (fun u => u + x) p (acc s)) (sett s) (payChan s), CreditPut p x, fine) else None
  | CreditPut p x =>
      match PutRetrieveTraffic p x (sett s) with
      | (t, Err e) => Some (MkShared (acc s) t (payChan s), Finished (Err (errSettlement e)), putFailed)
      | (t, Ok _) => Some (MkShared (acc s) t (payChan s), CreditSend p x, fine)
      end
  | CreditSend p x =>
      match payment_due p (acc s) with
      | [] => Some (s, Finished (Ok tt), fine)
      | due => if (length (payChan s) <? payChanSize)%nat then Some (MkShared (acc s) (sett s) (payChan s ++ due), Finished (Ok tt), fine) else None
      end
  | DebitStart p x => Some (start p (DebitLock p x) s)
  | DebitLock p x =>
      if unlocked others p then
        match debit_check p (acc s) (sett s) with
        | (t, Err e) => Some (MkShared (acc s) t (payChan s), Finished (Err e), fine)
        | (t, Ok _) => Some (MkShared (acc s) t (payChan s), DebitPut p x, fine)
        end
      else None
  | DebitPut p x =>
      let '(t, r) := PutTransferTraffic p x (sett s) in
      Some (MkShared (acc s) t (payChan s), Finished (from_settlement r), fine)
  | ReserveStart p x => Some (start p (ReserveCheck p x) s)
  | ReserveCheck p x =>
      match accountingPeers (acc s) !! String p with
      | Some ap => let '(t, r) := reserve_check ap x (sett s) in Some (MkShared (acc s) t (payChan s), Finished r, fine)
      | None => None
      end
  | NotifyStart p x => Some (start p (NotifyLock p x) s)
  | NotifyLock p x =>
      if unlocked others p then Some (MkShared (update_peer (paid x) p (acc s)) (sett s) (payChan s), Finished (Ok tt), fine) else None
  | Finished _ => None
  end.

(** One round of the loop in [settle]; [AsyncNotifyPayment] starts a goroutine
    for each notification. *)
Definition settle_one (s : shared) : option (shared * list thread * outcome) :=
  match payChan s with
  | [] => None
  | (peer, threshold) :: c =>
      let '(t, n, r) := Pay peer threshold (sett s) in
      Some (MkShared (acc s) t c, map (fun pz => NotifyStart pz.1 pz.2) n, match r with Ok _ => fine | Err _ => payFailed end)
  end.

Inductive step : shared * list thread -> outcome -> shared * list thread -> Prop :=
| step_thread s l th r s' th' o : advance (l ++ r) th s = Some (s', th', o) -> step (s, l ++ th :: r) o (s', l ++ th' :: r)
| step_settle s ths s' n o : settle_one s = Some (s', n, o) -> step (s, ths) o (s', ths ++ n).

Inductive steps : shared * list thread -> list outcome -> shared * list thread -> Prop :=
| steps_refl c : steps c [] c
| steps_snoc c os c' o c'' : steps c os c' -> step c' o c'' -> steps c (os ++ [o]) c''.
End Operations.

(** ** The accounting and the settlement agree *)
Section Agreement.
Context {T E : Type} `{SE : Settlement T E} `{SL : !SettlementLaws T E}.

Abbreviation thread := (thread (E := E)).
Abbreviation shared := (shared (T := T)).

(** What a thread has added to the account and not yet to the settlement, or
    has still to subtract. *)
Definition pending (k : bytes) (th : thread) : Z :=
  match th with
  | CreditPut p x | NotifyStart p x | NotifyLock p x => if decide (String p = k) then x else 0
  | _ => 0
  end.

Fixpoint pendings (k : bytes) (ths : list thread) : Z :=
  match ths with [] => 0 | th :: ths => pending k th + pendings k ths end.

Definition thread_ok (m : gmap bytes accountingPeer) (th : thread) : Prop :=
  match th with
  | CreditStart p x | DebitStart p x | ReserveStart p x => 0 <= x
  | CreditLock p x | CreditPut p x | CreditSend p x | DebitLock p x | DebitPut p x
  | ReserveCheck p x | NotifyStart p x | NotifyLock p x => 0 <= x /\ is_Some (m !! String p)
  | Finished _ => True
  end.

(** How the account and the settlement compare in runs whose outcomes are all
    [allowed]: not at all, in runs in which a recorded retrieval may fail in the
    settlement; as an upper bound, if payments may fail; exactly otherwise. *)
Inductive level := Any | Bounded | Exact.

Definition allowed (lv : level) (o : outcome) : Prop :=
  match lv with Any => True | Bounded => o <> putFailed | Exact => o = fine end.

Definition compared (lv : level) (unPaid real : Z) : Prop :=
  match lv with Any => True | Bounded => unPaid <= real | Exact => unPaid = real end.

Record agree (lv : level) (thr : Z) (s : shared) (ths : list thread) : Prop := {
  a_good : sgood (sett s);
  a_threshold : paymentThreshold (acc s) = thr;
  a_peers k ap : accountingPeers (acc s) !! k = Some ap -> peerThreshold ap = thr /\ 0 <= unPaidTraffic ap /\
    compared lv (unPaidTraffic ap) (debt (sett s) k + pendings k ths);
  a_chan : Forall (fun pz => pz.2 = thr /\ is_Some (accountingPeers (acc s) !! String pz.1)) (payChan s);
  a_threads : Forall (thread_ok (accountingPeers (acc s))) ths;
}.

Lemma pendings_app k l r : pendings k (l ++ r) = pendings k l + pendings k r.
Proof. induction l as [|th l IH]; cbn [pendings app]; lia. Qed.

Lemma pendings_perm k l r : l ≡ₚ r -> pendings k l = pendings k r.
Proof. induction 1; cbn [pendings]; lia. Qed.

Lemma pendings_nonneg m k ths : Forall (thread_ok m) ths -> 0 <= pendings k ths.
Proof.
  induction 1 as [|th ths Hth _ IH]; cbn [pendings]; [lia|].
  destruct th; cbn [pending thread_ok] in *; try case_decide; lia.
Qed.

(** Who has no accounting peer has no thread behind its first step. *)
Lemma pendings_unknown m k ths : Forall (thread_ok m) ths -> m !! k = None -> pendings k ths = 0.
Proof.
  intros Hf Hk. induction Hf as [|th ths Hth _ IH]; cbn [pendings]; [done|]. rewrite IH.
  destruct th; cbn [pending thread_ok] in *; try done; case_decide; subst; try lia; destruct Hth as [_ [? Hs]]; congruence.
Qed.

Lemma thread_ok_mono m m' th : (forall k, is_Some (m !! k) -> is_Some (m' !! k)) -> thread_ok m th -> thread_ok m' th.
Proof. intros Hm. destruct th; cbn [thread_ok]; naive_solver. Qed.

Lemma agree_perm lv thr s l r : l ≡ₚ r -> agree lv thr s l -> agree lv thr s r.
Proof.
  intros Hp []. split; try done.
  - intros k ap Hk. rewrite <- (pendings_perm k l r Hp). by apply a_peers0.
  - by rewrite <- Hp.
Qed.

Lemma update_peer_lookup f p a k ap : accountingPeers (update_peer f p a) !! k = Some ap ->
  exists ap0, accountingPeers a !! k = Some ap0 /\ peerThreshold ap = peerThreshold ap0 /\
    unPaidTraffic ap = if decide (String p = k) then f (unPaidTraffic ap0) else unPaidTraffic ap0.
Proof.
  cbn [update_peer set_accountingPeers accountingPeers]. rewrite lookup_alter. case_decide; [subst k|].
  - intros (ap0 & Hk & ->)%fmap_Some. by exists ap0.
  - intros Hk. by exists ap.
Qed.

Lemma update_peer_known f p a k : is_Some (accountingPeers a !! k) -> is_Some (accountingPeers (update_peer f p a) !! k).
Proof.
  intros Hk. cbn [update_peer set_accountingPeers accountingPeers]. rewrite lookup_alter. case_decide; [subst k|done].
  by apply fmap_is_Some.
Qed.

Lemma settlement_same t : sgood t -> same t t.
Proof. by intros Hg. Qed.

Lemma getAccountingPeer_spec p a t a' t' r : sgood t -> getAccountingPeer (E := E) p a t = (a', t', r) ->
  same t t' /\ paymentThreshold a' = paymentThreshold a /\ paymentTolerance a' = paymentTolerance a /\
  (forall k ap, accountingPeers a' !! k = Some ap -> accountingPeers a !! k = Some ap \/
     accountingPeers a !! k = None /\ ap = MkPeer (paymentThreshold a) (debt t k)) /\
  (forall k, is_Some (accountingPeers a !! k) -> is_Some (accountingPeers a' !! k)) /\
  (is_Some (accountingPeers a !! String p) -> exists ap, r = Ok ap) /\
  (forall ap, r = Ok ap -> is_Some (accountingPeers a' !! String p)).
Proof.
  intros Hg. unfold getAccountingPeer. destruct (accountingPeers a !! String p) as [ap|] eqn:Hp.
  { intros [= <- <- <-]. split; [by apply settlement_same|]. rewrite Hp. naive_solver. }
  destruct (RetrieveTraffic p t) as [t1 r1] eqn:Hr. destruct (retrieve_spec p t t1 r1 Hg Hr) as [Hs Hz].
  destruct r1 as [z|e]; intros [= <- <- <-]; (split; [done|]).
  - cbn [set_accountingPeers paymentThreshold paymentTolerance accountingPeers]. split_and!; try done.
    + intros k ap. rewrite lookup_insert. case_decide as Hk; [|by left].
      subst k. intros [= <-]. right. split; [done|]. by rewrite (Hz z).
    + intros k Hk. rewrite lookup_insert. case_decide; [by eexists|done].
    + intros ap _. rewrite lookup_insert_eq. by eexists.
  - split_and!; try done; naive_solver.
Qed.

(** A step that leaves the accounts, up to new ones, and the debts alone. *)
Lemma agree_quiet lv thr s s' th th' others : agree lv thr s (th :: others) -> same (sett s) (sett s') ->
  payChan s' = payChan s -> paymentThreshold (acc s') = paymentThreshold (acc s) ->
  (forall k ap, accountingPeers (acc s') !! k = Some ap -> accountingPeers (acc s) !! k = Some ap \/
     accountingPeers (acc s) !! k = None /\ ap = MkPeer (paymentThreshold (acc s)) (debt (sett s) k)) ->
  (forall k, is_Some (accountingPeers (acc s) !! k) -> is_Some (accountingPeers (acc s') !! k)) ->
  (forall k, pending k th' = pending k th) -> thread_ok (accountingPeers (acc s')) th' ->
  agree lv thr s' (th' :: others).
Proof.
  intros Ha (Hg & Hd & _) Hc Ht Hold Hnew Hp Hok. pose proof Ha as [Hg0 Ht0 Hpe Hch Hth]. split; [done|congruence|..].
  - intros k ap Hk. cbn [pendings]. rewrite Hd, Hp. destruct (Hold k ap Hk) as [Hk0|[Hk0 ->]]; [by apply Hpe|].
    pose proof (pendings_unknown _ k _ Hth Hk0) as Hz. cbn [pendings] in Hz. cbn [peerThreshold unPaidTraffic].
    pose proof (debt_nonneg (sett s) k Hg0). split_and!; [done|lia|]. destruct lv; cbn [compared]; lia.
  - rewrite Hc. eapply Forall_impl; [|exact Hch]. intros pz [? ?]. split; [done|]. by apply Hnew.
  - apply Forall_cons_1 in Hth as [_ Hth]. constructor; [done|]. eapply Forall_impl; [|exact Hth]. intros th0. by apply thread_ok_mono.
Qed.

Lemma agree_start lv thr s p th next others s' th' o : agree lv thr s (th :: others) ->
  start p next s = (s', th', o) -> (forall k, pending k next = pending k th) ->
  (is_Some (accountingPeers (acc s) !! String p) \/ forall k, pending k th = 0) ->
  (forall m, thread_ok (accountingPeers (acc s)) th -> is_Some (m !! String p) -> thread_ok m next) ->
  agree lv thr s' (th' :: others).
Proof.
  intros Ha. unfold start. destruct (getAccountingPeer p (acc s) (sett s)) as [[a t] r] eqn:Hg.
  pose proof (getAccountingPeer_spec p _ _ _ _ _ (a_good _ _ _ _ Ha) Hg) as (Hs & Ht & _ & Hold & Hnew & Hok & Hin).
  pose proof (a_threads _ _ _ _ Ha) as [Hth _]%Forall_cons_1.
  destruct r as [ap|e]; intros [= <- <- <-] Hp Hw Hn; apply (agree_quiet lv thr s _ th); try done.
  - cbn [acc]. apply Hn; [done|]. by eapply Hin.
  - intros k. destruct Hw as [Hw|Hw]; [|by rewrite Hw]. destruct (Hok Hw) as [? ?]. congruence.
Qed.

(** A step that changes the account or the debt of the thread's own peer. *)
Lemma agree_own lv thr s p f t c th th' others : agree lv thr s (th :: others) -> sgood t ->
  Forall (fun pz => pz.2 = thr /\ is_Some (accountingPeers (acc s) !! String pz.1)) c ->
  (forall k, k <> String p -> debt t k = debt (sett s) k /\ pending k th' = pending k th) ->
  (forall u, let k := String p in let rest := pendings k others in 0 <= rest -> 0 <= u -> compared lv u (debt (sett s) k + (pending k th + rest)) ->
     0 <= f u /\ compared lv (f u) (debt t k + (pending k th' + rest))) ->
  (thread_ok (accountingPeers (acc s)) th -> thread_ok (accountingPeers (acc s)) th') ->
  agree lv thr (MkShared (update_peer f p (acc s)) t c) (th' :: others).
Proof.
  intros [Hg Ht Hpe Hch Hth] Hg' Hc Ho Hf Hn. split; cbn [acc sett payChan]; try done.
  - intros k ap (ap0 & Hk & -> & Hu)%update_peer_lookup. destruct (Hpe k ap0 Hk) as (H1 & H2 & H3).
    split; [done|]. cbn [pendings] in *. case_decide as Hd.
    + subst k. rewrite Hu. apply Forall_cons_1 in Hth as [_ Hth].
      destruct (Hf (unPaidTraffic ap0) (pendings_nonneg _ _ _ Hth) H2 H3) as [F1 F2]. done.
    + rewrite Hu. destruct (Ho k) as [-> ->]; done.
  - eapply Forall_impl; [|exact Hc]. intros pz [? ?]. split; [done|]. by apply update_peer_known.
  - assert (Hm : forall th0, thread_ok (accountingPeers (acc s)) th0 -> thread_ok (accountingPeers (update_peer f p (acc s))) th0).
    { intros th0. apply thread_ok_mono. intros k. apply update_peer_known. }
    apply Forall_cons_1 in Hth as [H1 Hth]. constructor; [by apply Hm, Hn|]. eapply Forall_impl; [|exact Hth]. exact Hm.
Qed.

Lemma update_peer_id p a : update_peer (fun u => u) p a = a.
Proof.
  unfold update_peer, set_accountingPeers. destruct a as [m tol thr]. cbn [accountingPeers paymentTolerance paymentThreshold]. f_equal.
  apply map_eq. intros k. rewrite lookup_alter. case_decide; [|done]. subst k. by destruct (m !! String p) as [[? ?]|].
Qed.

Lemma agree_advance lv thr s th others s' th' o : agree lv thr s (th :: others) ->
  advance others th s = Some (s', th', o) -> allowed lv o -> agree lv thr s' (th' :: others).
Proof.
  intros Ha. pose proof Ha as [Hg Ht Hpe Hch Hths]. pose proof Hths as [Hth _]%Forall_cons_1.
  destruct th as [p x|p x|p x|p x|p x|p x|p x|p x|p x|p x|p x|r]; cbn [advance]; try discriminate.
  - intros [= Hs] _. eapply (agree_start _ _ _ _ _ _ _ _ _ _ Ha Hs); [done|by right|]. by cbn.
  - destruct (unlocked others p); [|done]. intros [= <- <- <-] _.
    apply (agree_own lv thr s p _ _ _ (CreditLock p x)); try done.
    + intros k Hk. cbn [pending]. by rewrite decide_False.
    + intros u. cbn [pending thread_ok] in *. rewrite decide_True by done. destruct lv; cbn [compared]; lia.
  - destruct (PutRetrieveTraffic p x (sett s)) as [t [[]|e]] eqn:Hput; intros [= <- <- <-] Ho.
    2: { destruct lv; [|done..]. destruct (put_retrieve_spec p x _ _ _ Hg (proj1 Hth) Hput) as (Hg' & _ & Hd & _).
      rewrite <- (update_peer_id p (acc s)). apply (agree_own Any thr s p _ _ _ (CreditPut p x)); try done.
      intros k Hk. cbn [pending]. rewrite decide_False by done. by split; [apply Hd|]. }
    destruct (put_retrieve_spec p x _ _ _ Hg (proj1 Hth) Hput) as (Hg' & _ & Hd & Hx).
    rewrite <- (update_peer_id p (acc s)). apply (agree_own lv thr s p _ _ _ (CreditPut p x)); try done.
    + intros k Hk. cbn [pending]. rewrite decide_False by done. by split; [apply Hd|].
    + intros u. cbn [pending thread_ok] in *. rewrite decide_True by done. destruct Hx as [->|[_ ?]]; [|done]. destruct lv; cbn [compared]; lia.
  - unfold payment_due. destruct (accountingPeers (acc s) !! String p) as [ap|] eqn:Hk; [|destruct Hth as [_ [? Hk2]]; congruence].
    destruct (Z.leb_spec (peerThreshold ap) (unPaidTraffic ap)).
    + case_match; [|done]. intros [= <- <- <-] _. rewrite <- (update_peer_id p (acc s)).
      apply (agree_own lv thr s p _ _ _ (CreditSend p x)); try done.
      apply Forall_app. split; [done|]. constructor; [|constructor]. cbn [fst snd]. rewrite Hk. split; [by apply (Hpe _ _ Hk)|by eexists].
    + intros [= <- <- <-] _. by apply (agree_quiet lv thr s _ (CreditSend p x)); auto.
  - intros [= Hs] _. eapply (agree_start _ _ _ _ _ _ _ _ _ _ Ha Hs); [done|by right|]. by cbn.
  - destruct (unlocked others p); [|done]. unfold debit_check. destruct (TransferTraffic p (sett s)) as [t r] eqn:Htr.
    destruct (transfer_spec p _ _ _ Hg Htr) as [Hs _].
    destruct r as [z|e]; [destruct (Z.leb_spec (paymentTolerance (acc s)) z)|]; intros [= <- <- <-] _;
      apply (agree_quiet lv thr s _ (DebitLock p x)); try done; by left.
  - destruct (PutTransferTraffic p x (sett s)) as [t r] eqn:Htr.
    destruct (put_transfer_spec p x _ _ _ Hg (proj1 Hth) Htr) as (Hg' & Hd & _).
    intros [= <- <- <-] _. rewrite <- (update_peer_id p (acc s)). apply (agree_own lv thr s p _ _ _ (DebitPut p x)); try done.
    intros u. cbn [pending]. by rewrite Hd.
  - intros [= Hs] _. eapply (agree_start _ _ _ _ _ _ _ _ _ _ Ha Hs); [done|by right|]. by cbn.
  - unfold reserve_check. destruct (accountingPeers (acc s) !! String p) as [ap|]; [|done].
    destruct (AvailableBalance (sett s)) as [t [z|e]] eqn:Hav; pose proof (available_spec _ _ _ Hg Hav) as Hs;
      intros [= <- <- <-] _; apply (agree_quiet lv thr s _ (ReserveCheck p x)); try done; by left.
  - intros [= Hs] _. eapply (agree_start _ _ _ _ _ _ _ _ _ _ Ha Hs); [done|left; apply Hth|]. intros m [? _] ?. by split.
  - destruct (unlocked others p); [|done]. intros [= <- <- <-] _.
    apply (agree_own lv thr s p _ _ _ (NotifyLock p x)); try done.
    + intros k Hk. cbn [pending]. by rewrite decide_False.
    + pose proof (debt_nonneg (sett s) (String p) Hg). intros u. unfold paid. cbn [pending thread_ok] in *.
      rewrite decide_True by done. cbv zeta. intros ? ? ?.
      destruct lv; cbn [compared] in *; case_match; try case_match; lia.
Qed.

Lemma agree_settle lv thr s ths s' n o : 0 < thr -> agree lv thr s ths -> settle_one s = Some (s', n, o) ->
  allowed lv o -> agree lv thr s' (ths ++ n).
Proof.
  intros Hthr [Hg Ht Hpe Hch Hths]. unfold settle_one. destruct (payChan s) as [|[p th] c]; [done|].
  apply Forall_cons_1 in Hch as [[Heq Hp] Hch]. cbn [fst snd] in Heq, Hp. subst th.
  destruct (Pay p thr (sett s)) as [[t n0] r] eqn:Hpay. intros [= <- <- <-] Ho.
  destruct (pay_spec p thr _ _ _ _ Hg Hthr Hpay) as (Hg' & _ & Hd & Hcase).
  assert (Hn : Forall (thread_ok (accountingPeers (acc s))) (map (fun pz => NotifyStart pz.1 pz.2) n0)).
  { destruct Hcase as [[-> _]|[-> _]]; cbn; [constructor|]. constructor; [|constructor].
    split; [by apply debt_nonneg|done]. }
  split; cbn [acc sett payChan]; [done|done| |done|by apply Forall_app].
  intros k ap Hk. destruct (Hpe k ap Hk) as (H1 & H2 & H3). rewrite pendings_app. split_and!; [done..|].
  pose proof (debt_nonneg _ (String p) Hg). destruct (decide (String p = k)) as [<-|Hne].
  - destruct Hcase as [(-> & -> & _)|(-> & _ & Hz)]; cbn [map pendings pending]; [by rewrite Z.add_0_r|].
    cbn [fst snd]. rewrite decide_True by done. destruct lv; cbn [compared allowed] in *; [done|lia|].
    destruct r as [[]|]; [|done]. destruct Hz as [->|[_ ?]]; [lia|done].
  - rewrite Hd by done. destruct Hcase as [(-> & _)|(-> & _)]; cbn [map pendings pending]; [by rewrite Z.add_0_r|].
    cbn [fst snd]. rewrite decide_False by done. by rewrite !Z.add_0_r.
Qed.

Lemma agree_step lv thr c o c' : 0 < thr -> step c o c' -> allowed lv o -> agree lv thr c.1 c.2 -> agree lv thr c'.1 c'.2.
Proof.
  intros Hthr Hst Ho Ha. destruct Hst as [s l th r s' th' o Hadv|s ths s' n o Hset]; cbn [fst snd] in *.
  - apply (agree_perm _ _ _ (th' :: l ++ r)); [apply Permutation_middle|].
    eapply agree_advance; [|exact Hadv|exact Ho]. eapply agree_perm; [|exact Ha]. symmetry. apply Permutation_middle.
  - by eapply agree_settle.
Qed.

Lemma agree_steps lv thr c os c' : 0 < thr -> steps c os c' -> Forall (allowed lv) os -> agree lv thr c.1 c.2 -> agree lv thr c'.1 c'.2.
Proof.
  intros Hthr Hst. induction Hst as [|c os c1 o c2 _ IH Hs]; [done|].
  intros [Hp [Ho _]%Forall_cons_1]%Forall_app Ha. apply (agree_step lv thr c1 o); [done..|]. by apply IH.
Qed.

(** ** Runs *)

Definition request (th : thread) : Prop :=
  match th with CreditStart _ x | DebitStart _ x | ReserveStart _ x => 0 <= x | _ => False end.

(** A new accounting on the settlement [t], and calls to come. *)
Definition initial (tolerance threshold : Z) (t : T) (requests : list thread) : shared * list thread :=
  (MkShared (NewAccounting tolerance threshold) t [], requests).

Lemma agree_initial lv tol thr t reqs : sgood t -> Forall request reqs -> agree lv thr (initial tol thr t reqs).1 (initial tol thr t reqs).2.
Proof.
  intros Hg Hr. split; cbn [initial fst snd acc sett payChan NewAccounting accountingPeers paymentThreshold]; try done.
  eapply Forall_impl; [|exact Hr]. by intros [].
Qed.

Definition finished (th : thread) : bool := match th with Finished _ => true | _ => false end.

(** Every thread but a finished one that is not blocked by a lock or the channel
    can go on. *)
Lemma advance_free others th s : thread_ok (accountingPeers (acc s)) th -> finished th = false ->
  (forall p, inside th = None -> unlocked others p = true) -> (length (payChan s) < payChanSize)%nat ->
  is_Some (advance others th s).
Proof.
  intros Hok Hf Hu Hc. assert (Hb : (length (payChan s) <? payChanSize)%nat = true) by by apply Nat.ltb_lt.
  destruct th; cbn [advance thread_ok] in *; try rewrite Hu by done; repeat case_match; try done.
  destruct Hok as [_ [? ?]]. congruence.
Qed.

Lemma unlocked_nobody (ths : list thread) p : Forall (fun th => inside th = None) ths -> unlocked ths p = true.
Proof. intros Hf. apply forallb_forall. intros th Hth. rewrite Forall_forall in Hf. by rewrite (Hf th Hth). Qed.

(** Nobody waits for ever: a configuration without a next step is finished. *)
Lemma progress lv thr s ths : agree lv thr s ths -> (exists o c', step (s, ths) o c') \/
  payChan s = [] /\ Forall (fun th => finished th = true) ths.
Proof.
  intros Ha. destruct (payChan s) as [|[p th] c] eqn:Hc.
  2: { left. destruct (settle_one s) as [[[s' n] o]|] eqn:Hs; [by do 2 eexists; apply step_settle|].
    unfold settle_one in Hs. rewrite Hc in Hs. by repeat case_match. }
  pose proof (a_threads _ _ _ _ Ha) as Hok. rewrite Forall_forall in Hok.
  assert (Hgo : forall l th r, ths = l ++ th :: r -> finished th = false ->
    (forall p, inside th = None -> unlocked (l ++ r) p = true) -> exists o c', step (s, ths) o c').
  { intros l th r -> Hf Hu. destruct (advance_free (l ++ r) th s) as [[[s' th'] o] Hs]; try done; [apply Hok, in_elt|rewrite Hc; apply Nat.ltb_lt; reflexivity|].
    do 2 eexists. by apply step_thread. }
  destruct (decide (Exists (fun th => is_Some (inside th)) ths)) as [He|Hn].
  { left. apply Exists_exists in He as (th & (l & r & ->)%in_split & Hi). apply (Hgo l th r); [done| |].
    - destruct th; try done. by destruct Hi.
    - intros p E1. rewrite E1 in Hi. by destruct Hi. }
  apply not_Exists_Forall in Hn; [|apply _].
  assert (Hnone : forall l, incl l ths -> Forall (fun th => inside th = None) l).
  { intros l Hl. rewrite Forall_forall in Hn |- *. intros th Hth. apply eq_None_not_Some, Hn, Hl, Hth. }
  destruct (decide (Forall (fun th => finished th = true) ths)) as [Hf|Hf]; [by right|]. left.
  apply not_Forall_Exists in Hf; [|apply _]. apply Exists_exists in Hf as (th & (l & r & ->)%in_split & Hf).
  apply (Hgo l th r); [done|by apply not_true_iff_false|]. intros p _. apply unlocked_nobody, Hnone.
  intros th0. rewrite !in_app_iff. cbn. tauto.
Qed.

(** The steps a thread can still cause, those of the settling goroutine and of
    the notification included. *)
Definition weight (th : thread) : nat :=
  match th with
  | CreditStart _ _ => 7 | CreditLock _ _ => 6 | CreditPut _ _ => 5 | CreditSend _ _ => 4
  | DebitStart _ _ => 3 | DebitLock _ _ => 2 | DebitPut _ _ => 1
  | ReserveStart _ _ => 2 | ReserveCheck _ _ => 1
  | NotifyStart _ _ => 2 | NotifyLock _ _ => 1
  | Finished _ => 0
  end.

Definition weights (ths : list thread) : nat := sum_list (map weight ths).

Definition work (s : shared) (ths : list thread) : nat := (3 * length (payChan s) + weights ths)%nat.

Lemma weights_app l r : weights (l ++ r) = (weights l + weights r)%nat.
Proof. unfold weights. by rewrite map_app, sum_list_with_app. Qed.

Lemma start_weight p next s s' th' o : start p next s = (s', th', o) -> payChan s' = payChan s /\ (weight th' <= weight next)%nat.
Proof. unfold start. destruct (getAccountingPeer p (acc s) (sett s)) as [[a t] [ap|e]]; intros [= <- <- <-]; (split; [done|cbn; lia]). Qed.

Lemma advance_work others th s s' th' o : advance others th s = Some (s', th', o) ->
  (3 * length (payChan s') + weight th' < 3 * length (payChan s) + weight th)%nat.
Proof.
  destruct th; cbn [advance weight]; try discriminate.
  1,5,8,10: intros [= Hs]; apply start_weight in Hs as [-> Hw]; cbn [weight] in Hw; lia.
  3: { assert (Hd : (length (payment_due peer (acc s)) <= 1)%nat) by (unfold payment_due; repeat case_match; cbn; lia).
    case_match; [|case_match; [|done]]; intros [=]; subst; cbn [payChan weight]; [lia|]. rewrite length_app. lia. }
  all: repeat case_match; intros [=]; subst; cbn [payChan weight]; lia.
Qed.

Lemma settle_work lv thr s ths s' n o : 0 < thr -> agree lv thr s ths -> settle_one s = Some (s', n, o) ->
  (3 * length (payChan s') + weights n < 3 * length (payChan s))%nat.
Proof.
  intros Hthr [Hg Ht Hpe Hch Hths]. unfold settle_one. destruct (payChan s) as [|[p th] c]; [done|].
  apply Forall_cons_1 in Hch as [[Heq _] _]. cbn [fst snd] in Heq. subst th.
  destruct (Pay p thr (sett s)) as [[t n0] r] eqn:Hpay. intros [= <- <- <-].
  destruct (pay_spec p thr _ _ _ _ Hg Hthr Hpay) as (_ & _ & _ & [(-> & _)|(-> & _)]); cbn; lia.
Qed.

Lemma step_work lv thr c o c' : 0 < thr -> agree lv thr c.1 c.2 -> step c o c' -> (work c'.1 c'.2 < work c.1 c.2)%nat.
Proof.
  intros Hthr Ha Hs. unfold work. destruct Hs as [s l th r s' th' o Hadv|s ths s' n o Hset]; cbn [fst snd] in *; rewrite !weights_app.
  - apply advance_work in Hadv. cbn. fold (weights r). lia.
  - pose proof (settle_work _ _ _ _ _ _ _ Hthr Ha Hset). lia.
Qed.

Lemma steps_bound thr c os c' : 0 < thr -> agree Any thr c.1 c.2 -> steps c os c' -> (length os + work c'.1 c'.2 <= work c.1 c.2)%nat.
Proof.
  intros Hthr Ha Hst. induction Hst as [c|c os c1 o c2 Hst IH Hs]; [done|]. specialize (IH Ha).
  assert (Ha1 : agree Any thr c1.1 c1.2) by (eapply agree_steps; [done|exact Hst| |done]; by apply Forall_true).
  pose proof (step_work _ _ _ _ _ Hthr Ha1 Hs). rewrite length_app. cbn [length]. lia.
Qed.

(** A debt that has reached the threshold is on its way to be paid. *)
Definition covered (thr : Z) (k : bytes) (s : shared) (ths : list thread) : Prop :=
  thr <= debt (sett s) k -> Exists (fun pz => String pz.1 = k) (payChan s) \/ Exists (fun th => exists p x, th = CreditSend p x /\ String p = k) ths.

Lemma start_debt p next s s' th' o : sgood (sett s) -> start p next s = (s', th', o) ->
  payChan s' = payChan s /\ same (sett s) (sett s') /\ paymentTolerance (acc s') = paymentTolerance (acc s) /\
  (th' = next \/ exists r, th' = Finished r).
Proof.
  intros Hg. unfold start. destruct (getAccountingPeer p (acc s) (sett s)) as [[a t] r] eqn:E1.
  apply getAccountingPeer_spec in E1 as (Hs & _ & Ht & _); [|done].
  destruct r; intros [= <- <- <-]; cbn [payChan sett acc]; split_and!; try done; [by left|right; by eexists].
Qed.

Lemma covered_send thr k s p x others s' th' o : agree Exact thr s (CreditSend p x :: others) ->
  covered thr k s (CreditSend p x :: others) -> advance others (CreditSend p x) s = Some (s', th', o) -> covered thr k s' (th' :: others).
Proof.
  intros [Hg Ht Hpe Hch Hths] Hcov. pose proof Hths as [Hth _]%Forall_cons_1. cbn [advance].
  unfold payment_due. destruct (accountingPeers (acc s) !! String p) as [ap|] eqn:Hk; [|destruct Hth as [_ [? Hk2]]; congruence].
  destruct (Hpe _ _ Hk) as (Hpt & _ & Heq). pose proof (pendings_nonneg _ (String p) _ Hths). cbn [compared] in Heq.
  assert (Hrest : String p <> k -> thr <= debt (sett s) k -> Exists (fun pz => String pz.1 = k) (payChan s) \/
    Exists (fun th => exists p x, th = CreditSend p x /\ String p = k) others).
  { intros Hne Hle. destruct (Hcov Hle) as [He|[He|He]%Exists_cons]; [by left| |by right]. destruct He as (? & ? & [= <- <-] & ?). done. }
  destruct (Z.leb_spec (peerThreshold ap) (unPaidTraffic ap)).
  + case_match; [|done]. intros [= <- <- <-] Hle. cbn [payChan sett] in *. destruct (decide (String p = k)) as [He|He].
    { left. apply Exists_app. right. by apply Exists_cons_hd. }
    destruct (Hrest He Hle) as [Hx|Hx]; [left; apply Exists_app; by left|right; by apply Exists_cons_tl].
  + intros [= <- <- <-] Hle. destruct (decide (String p = k)) as [He|He]; [subst k; lia|].
    destruct (Hrest He Hle) as [Hx|Hx]; [by left|right; by apply Exists_cons_tl].
Qed.

Lemma covered_advance thr k s th others s' th' o : agree Exact thr s (th :: others) -> covered thr k s (th :: others) ->
  advance others th s = Some (s', th', o) -> o = fine -> covered thr k s' (th' :: others).
Proof.
  intros [Hg Ht Hpe Hch Hths] Hcov. pose proof Hths as [Hth Hoths]%Forall_cons_1.
  assert (Hquiet : forall s' th', (forall p x, th <> CreditSend p x) -> debt (sett s') k = debt (sett s) k -> payChan s' = payChan s ->
    covered thr k s' (th' :: others)).
  { intros s1 th1 Hn Hd Hc. unfold covered in *. rewrite Hd, Hc. intros Hle. destruct (Hcov Hle) as [He|He]; [by left|right].
    apply Exists_cons in He as [(p & x & -> & _)|He]; [by destruct (Hn p x)|]. by apply Exists_cons_tl. }
  destruct th as [p x|p x|p x|p x|p x|p x|p x|p x|p x|p x|p x|r]; cbn [advance]; try discriminate.
  1,5,8,10: intros [= Hs] _; apply start_debt in Hs as (Hc & (_ & Hd & _) & _); [|done]; apply Hquiet; done.
  - destruct (unlocked others p); [|done]. intros [= <- <- <-] _. by apply Hquiet.
  - destruct (PutRetrieveTraffic p x (sett s)) as [t [[]|e]] eqn:Hput; intros [= <- <- <-] Ho; [|done].
    destruct (decide (String p = k)) as [Hk|Hk].
    + intros _. right. apply Exists_cons_hd. eauto.
    + apply Hquiet; [done| |done]. destruct (put_retrieve_spec p x _ _ _ Hg (proj1 Hth) Hput) as (_ & _ & Hd & _). by apply Hd.
  - intros Hs _. apply (covered_send thr k s p x others s' th' o); [by split|done|exact Hs].
  - destruct (unlocked others p); [|done]. unfold debit_check. destruct (TransferTraffic p (sett s)) as [t r] eqn:Htr.
    destruct (transfer_spec p _ _ _ Hg Htr) as [(_ & Hd & _) _].
    destruct r as [z|e]; [destruct (Z.leb_spec (paymentTolerance (acc s)) z)|]; intros [= <- <- <-] _; by apply Hquiet; cbn [sett].
  - destruct (PutTransferTraffic p x (sett s)) as [t r] eqn:Htr.
    destruct (put_transfer_spec p x _ _ _ Hg (proj1 Hth) Htr) as (Hg' & Hd & _). intros [= <- <- <-] _. by apply Hquiet; cbn [sett].
  - unfold reserve_check. destruct (accountingPeers (acc s) !! String p) as [ap|]; [|done].
    destruct (AvailableBalance (sett s)) as [t [z|e]] eqn:Hav; pose proof (available_spec _ _ _ Hg Hav) as (_ & Hd & _);
      intros [= <- <- <-] _; by apply Hquiet; cbn [sett].
  - destruct (unlocked others p); [|done]. intros [= <- <- <-] _. by apply Hquiet.
Qed.

Lemma covered_settle thr k s ths s' n o : 0 < thr -> agree Exact thr s ths -> covered thr k s ths ->
  settle_one s = Some (s', n, o) -> o = fine -> covered thr k s' (ths ++ n).
Proof.
  intros Hthr [Hg Ht Hpe Hch Hths] Hcov. unfold covered in Hcov. unfold settle_one. destruct (payChan s) as [|[p th] c]; [done|].
  apply Forall_cons_1 in Hch as [[Heq Hp] Hch]. cbn [fst snd] in Heq, Hp. subst th.
  destruct (Pay p thr (sett s)) as [[t n0] r] eqn:Hpay. intros [= <- <- <-]. destruct r as [[]|]; [|done]. intros _ Hle.
  destruct (pay_spec p thr _ _ _ _ Hg Hthr Hpay) as (Hg' & _ & Hd & Hcase). cbn [sett payChan] in *.
  destruct (decide (String p = k)) as [<-|Hne].
  { exfalso. destruct Hcase as [(_ & He & Hlt)|(_ & _ & [He|[_ He]])]; [specialize (Hlt eq_refl); lia|lia|done]. }
  rewrite Hd in Hle by done. destruct (Hcov Hle) as [[He|He]%Exists_cons|He]; [done|by left|right]. apply Exists_app. by left.
Qed.

Lemma covered_steps thr k c os c' : 0 < thr -> steps c os c' -> Forall (allowed Exact) os -> agree Exact thr c.1 c.2 ->
  covered thr k c.1 c.2 -> covered thr k c'.1 c'.2.
Proof.
  intros Hthr Hst. induction Hst as [|c os c1 o c2 Hst IH Hs]; [done|].
  intros [Hf [Ho _]%Forall_cons_1]%Forall_app Ha Hc. specialize (IH Hf Ha Hc).
  pose proof (agree_steps _ _ _ _ _ Hthr Hst Hf Ha) as Ha1.
  assert (Hperm : forall s (l l' : list thread), l ≡ₚ l' -> covered thr k s l -> covered thr k s l').
  { intros s l l' Hp Hcov Hle. destruct (Hcov Hle) as [He|He]; [by left|right]. by rewrite <- Hp. }
  destruct Hs as [s l th r s' th' o Hadv|s ths s' n o Hset]; cbn [fst snd] in *.
  - apply (Hperm _ (th' :: l ++ r)); [apply Permutation_middle|].
    apply (covered_advance thr k s th (l ++ r) s' th' o); try done.
    + eapply agree_perm; [|exact Ha1]. symmetry. apply Permutation_middle.
    + eapply Hperm; [|exact IH]. symmetry. apply Permutation_middle.
  - by eapply covered_settle.
Qed.

(** ** What a peer can owe us *)

Definition debit_of (th : thread) : option (Address * Z) :=
  match th with DebitStart p x | DebitLock p x | DebitPut p x => Some (p, x) | _ => None end.

Record owes (tol X : Z) (B : bytes -> Z) (s : shared) (ths : list thread) : Prop := {
  o_tolerance : paymentTolerance (acc s) = tol;
  o_exclusive : NoDup (omap inside ths);
  o_bound k : owed (sett s) k <= B k;
  o_checked p x : DebitPut p x ∈ ths -> owed (sett s) (String p) < tol;
  o_amount th p x : th ∈ ths -> debit_of th = Some (p, x) -> x <= X;
}.

Lemma unlocked_spec (ths : list thread) p : unlocked ths p = true <-> String p ∉ omap inside ths.
Proof.
  unfold unlocked. rewrite forallb_forall. split.
  - intros Hf (th & Hth & Hi)%list_elem_of_omap. apply list_elem_of_In, Hf in Hth. by rewrite bool_decide_eq_true_2 in Hth.
  - intros Hn th Hth. apply negb_true_iff, bool_decide_eq_false_2. intros Hi. apply Hn, list_elem_of_omap. exists th.
    by rewrite list_elem_of_In.
Qed.

Lemma owes_perm tol X B s l r : l ≡ₚ r -> owes tol X B s l -> owes tol X B s r.
Proof.
  intros Hp []. split; try done.
  - by rewrite <- Hp.
  - intros p x. rewrite <- Hp. apply o_checked0.
  - intros th p x. rewrite <- Hp. apply o_amount0.
Qed.

Lemma owes_quiet tol X B s th others s' th' : owes tol X B s (th :: others) -> (forall k, owed (sett s') k = owed (sett s) k) ->
  paymentTolerance (acc s') = paymentTolerance (acc s) ->
  inside th' = None \/ inside th' = inside th \/ (exists p, inside th' = Some (String p) /\ unlocked others p = true) ->
  (forall p x, th' = DebitPut p x -> owed (sett s) (String p) < tol) -> debit_of th' = None \/ debit_of th' = debit_of th ->
  owes tol X B s' (th' :: others).
Proof.
  intros [Ht He Hb Hc Ha] Ho Htol Hi Hd Hx. split.
  - congruence.
  - cbn [omap list_omap] in *. destruct Hi as [->|[->|(p & -> & Hu%unlocked_spec)]].
    + by destruct (inside th); [apply list.NoDup_cons in He as [_ He]|].
    + done.
    + destruct (inside th); [apply list.NoDup_cons in He as [_ He]|]; by apply list.NoDup_cons.
  - intros k. by rewrite Ho.
  - intros p x Hp. rewrite Ho. apply elem_of_cons in Hp as [Hp|Hp]; [by eapply Hd|]. eapply Hc. by apply elem_of_cons; right.
  - intros th0 p x [->|Hth]%elem_of_cons Hp; [|eapply Ha; [by apply elem_of_cons; right|done]].
    destruct Hx as [Hx|Hx]; [congruence|]. eapply Ha; [by apply elem_of_cons; left|]. by rewrite <- Hx.
Qed.

Lemma owes_put tol X B s p x others t r : owes tol X B s (DebitPut p x :: others) -> (forall k, tol + X - 1 <= B k) -> sgood (sett s) ->
  0 <= x -> PutTransferTraffic p x (sett s) = (t, r) -> owes tol X B (MkShared (acc s) t (payChan s)) (Finished (from_settlement r) :: others).
Proof.
  intros [Ht He Hb Hc Ha] HB Hg Hx Hput. destruct (put_transfer_spec p x _ _ _ Hg Hx Hput) as (_ & _ & Ho & Hp).
  cbn [omap list_omap inside] in *. apply list.NoDup_cons in He as [Hn He].
  assert (Hself : owed (sett s) (String p) < tol) by (eapply Hc; by apply elem_of_cons; left).
  assert (HX : x <= X) by (eapply Ha; [by apply elem_of_cons; left|done]).
  split; cbn [acc sett]; try done.
  - intros k. destruct (decide (k = String p)) as [->|Hne]; [|by rewrite Ho]. specialize (HB (String p)). specialize (Hb (String p)). lia.
  - intros q y [Hq|Hq]%elem_of_cons; [done|]. rewrite Ho; [eapply Hc; by apply elem_of_cons; right|].
    intros E1. apply Hn. rewrite <- E1. apply list_elem_of_omap. by exists (DebitPut q y).
  - intros th0 q y [->|Hth]%elem_of_cons Hq; [done|]. eapply Ha; [by apply elem_of_cons; right|done].
Qed.

Lemma owes_start tol X B s p th next others s' th' o : sgood (sett s) -> owes tol X B s (th :: others) -> start p next s = (s', th', o) ->
  inside next = None -> debit_of next = debit_of th -> owes tol X B s' (th' :: others).
Proof.
  intros Hg Ho Hs Hi Hd. apply start_debt in Hs as (_ & (_ & _ & Hw) & Ht & Hth); [|done].
  apply (owes_quiet tol X B s th); [done..| | |]; destruct Hth as [->|[r ->]]; try (by left); try (by right); try done.
  intros q y ->. done.
Qed.

Lemma owes_advance tol X B thr s th others s' th' o : (forall k, tol + X - 1 <= B k) -> agree Any thr s (th :: others) ->
  owes tol X B s (th :: others) -> advance others th s = Some (s', th', o) -> owes tol X B s' (th' :: others).
Proof.
  intros HB [Hg _ _ _ [Hth _]%Forall_cons_1] Ho.
  destruct th as [p x|p x|p x|p x|p x|p x|p x|p x|p x|p x|p x|r]; cbn [advance]; try discriminate.
  1,5,8,10: intros [= Hs]; by eapply (owes_start tol X B s).
  - destruct (unlocked others p) eqn:Hu; [|done]. intros [= <- <- <-].
    apply (owes_quiet tol X B s (CreditLock p x)); try done; [|by left]. right. right. by exists p.
  - destruct (PutRetrieveTraffic p x (sett s)) as [t r] eqn:Hput.
    destruct (put_retrieve_spec p x _ _ _ Hg (proj1 Hth) Hput) as (_ & Hw & _).
    destruct r; intros [= <- <- <-]; apply (owes_quiet tol X B s (CreditPut p x)); try done; try (by left). right. by left.
  - repeat case_match; try discriminate; intros [= <- <- <-]; apply (owes_quiet tol X B s (CreditSend p x)); try done; by left.
  - destruct (unlocked others p) eqn:Hu; [|done]. unfold debit_check.
    destruct (TransferTraffic p (sett s)) as [t r] eqn:Htr. destruct (transfer_spec p _ _ _ Hg Htr) as [(_ & _ & Hw) Hz].
    destruct r as [z|e]; [destruct (Z.leb_spec (paymentTolerance (acc s)) z)|]; intros [= <- <- <-];
      apply (owes_quiet tol X B s (DebitLock p x)); try done; try (by left).
    + right. right. by exists p.
    + intros q y [= <- <-]. rewrite <- (Hz z eq_refl). by rewrite <- (o_tolerance _ _ _ _ _ Ho).
    + by right.
  - destruct (PutTransferTraffic p x (sett s)) as [t r] eqn:Htr. intros [= <- <- <-]. by eapply owes_put; try apply Hth.
  - unfold reserve_check. destruct (accountingPeers (acc s) !! String p) as [ap|]; [|done].
    destruct (AvailableBalance (sett s)) as [t [z|e]] eqn:Hav; pose proof (available_spec _ _ _ Hg Hav) as (_ & _ & Hw);
      intros [= <- <- <-]; apply (owes_quiet tol X B s (ReserveCheck p x)); try done; by left.
  - destruct (unlocked others p); [|done]. intros [= <- <- <-]. apply (owes_quiet tol X B s (NotifyLock p x)); try done; by left.
Qed.

Lemma owes_settle tol X B thr s ths s' n o : 0 < thr -> agree Any thr s ths -> owes tol X B s ths ->
  settle_one s = Some (s', n, o) -> owes tol X B s' (ths ++ n).
Proof.
  intros Hthr [Hg Ht Hpe Hch Hths] Ho. unfold settle_one. destruct (payChan s) as [|[p th] c]; [done|].
  apply Forall_cons_1 in Hch as [[Heq _] _]. cbn [fst snd] in Heq. subst th.
  destruct (Pay p thr (sett s)) as [[t n0] r] eqn:Hpay. intros [= <- <- <-].
  destruct (pay_spec p thr _ _ _ _ Hg Hthr Hpay) as (_ & Hw & _). destruct Ho as [H1 H2 H3 H4 H5].
  assert (Hn : forall th, th ∈ map (fun pz => NotifyStart pz.1 pz.2) n0 -> inside th = None /\ debit_of (th : thread) = None).
  { intros th (pz & -> & _)%list_elem_of_fmap. done. }
  split; cbn [acc sett]; try done.
  - rewrite omap_app. replace (omap inside (map _ n0)) with (@nil bytes); [by rewrite app_nil_r|].
    clear. induction n0 as [|pz n0 IH]; [done|]. exact IH.
  - intros k. by rewrite Hw.
  - intros q y [Hq|Hq]%elem_of_app; [rewrite Hw; by eapply H4|]. by destruct (Hn _ Hq) as [? _].
  - intros th q y [Hq|Hq]%elem_of_app He; [by eapply H5|]. destruct (Hn _ Hq) as [_ ?]. congruence.
Qed.

Lemma owes_steps tol X B thr c os c' : 0 < thr -> (forall k, tol + X - 1 <= B k) -> steps c os c' -> agree Any thr c.1 c.2 ->
  owes tol X B c.1 c.2 -> owes tol X B c'.1 c'.2.
Proof.
  intros Hthr HB Hst. induction Hst as [|c os c1 o c2 Hst IH Hs]; [done|]. intros Ha Ho. specialize (IH Ha Ho).
  assert (Ha1 : agree Any thr c1.1 c1.2) by (eapply agree_steps; [done|exact Hst| |done]; by apply Forall_true).
  destruct Hs as [s l th r s' th' o Hadv|s ths s' n o Hset]; cbn [fst snd] in *.
  - apply (owes_perm _ _ _ _ (th' :: l ++ r)); [apply Permutation_middle|].
    apply (owes_advance tol X B thr s th (l ++ r) s' th' o); try done.
    + eapply agree_perm; [|exact Ha1]. symmetry. apply Permutation_middle.
    + eapply owes_perm; [|exact IH]. symmetry. apply Permutation_middle.
  - by eapply owes_settle.
Qed.

(** ** The properties *)

Lemma step_alone s th s' th' o : advance [] th s = Some (s', th', o) -> step (s, [th]) o (s', [th']).
Proof. apply (step_thread s [] th []). Qed.

Lemma start_alone p th next s : (forall s', advance [] th s' = Some (start p next s')) ->
  step (s, [th]) (start p next s).2 ((start p next s).1.1, [(start p next s).1.2]).
Proof. intros Ha. apply step_alone. rewrite Ha. by destruct (start p next s) as [[s' th'] o]. Qed.

(** The threads are the functions: a call that no other call interleaves
    with goes through its steps to what the function computes, and [Credit] sends
    the payment that is due. *)
Theorem calls_alone p x a t c :
  (forall a' t' due r, Credit p x a t = (a', t', due, r) -> (length c < payChanSize)%nat ->
     exists os, steps (MkShared a t c, [CreditStart p x]) os (MkShared a' t' (c ++ due), [Finished r])) /\
  (forall a' t' r, Debit p x a t = (a', t', r) -> exists os, steps (MkShared a t c, [DebitStart p x]) os (MkShared a' t' c, [Finished r])) /\
  (forall a' t' r, NotifyPayment p x a t = (a', t', r) -> exists os, steps (MkShared a t c, [NotifyStart p x]) os (MkShared a' t' c, [Finished r])).
Proof.
  unfold Credit, Debit, NotifyPayment. destruct (getAccountingPeer p a t) as [[a1 t1] r1] eqn:Hg.
  assert (Hst : forall th next, (forall s', advance [] th s' = Some (start p next s')) ->
    steps (MkShared a t c, [th]) [fine] (MkShared a1 t1 c, [match r1 with Ok _ => next | Err e => Finished (Err e) end])).
  { intros th next Ha. apply (steps_snoc _ [] _ _ _ (steps_refl _)). pose proof (start_alone p th next (MkShared a t c) Ha) as Hs.
    unfold start in Hs. cbn [acc sett payChan] in Hs. rewrite Hg in Hs. by destruct r1. }
  split_and!.
  - intros a' t' due r He Hc. specialize (Hst (CreditStart p x) (CreditLock p x) (fun _ => eq_refl)).
    destruct r1 as [ap|e]; [|injection He as <- <- <- <-; rewrite app_nil_r; eauto].
    assert (Hst2 : steps (MkShared a t c, [CreditStart p x]) [fine; fine] (MkShared (update_peer (fun u => u + x) p a1) t1 c, [CreditPut p x]))
      by (eapply (steps_snoc _ [fine]); [exact Hst|by apply step_alone]).
    destruct (PutRetrieveTraffic p x t1) as [t2 [[]|e]] eqn:Hput; injection He as <- <- <- <-.
    + eexists. eapply steps_snoc; [eapply steps_snoc; [exact Hst2|]|].
      * apply step_alone. cbn [advance sett acc payChan]. by rewrite Hput.
      * apply step_alone. cbn [advance sett acc payChan]. destruct (payment_due p _) as [|pz l]; [by rewrite app_nil_r|].
        by apply Nat.ltb_lt in Hc as ->.
    + rewrite app_nil_r. eexists. eapply steps_snoc; [exact Hst2|]. apply step_alone. cbn [advance sett acc payChan]. by rewrite Hput.
  - intros a' t' r He. specialize (Hst (DebitStart p x) (DebitLock p x) (fun _ => eq_refl)).
    destruct r1 as [ap|e]; [|injection He as <- <- <-; eauto].
    destruct (debit_check p a1 t1) as [t2 [[]|e]] eqn:Hck; [destruct (PutTransferTraffic p x t2) as [t3 r3] eqn:Hput|]; injection He as <- <- <-.
    + eexists. eapply steps_snoc; [eapply steps_snoc; [exact Hst|]|].
      * apply step_alone. cbn [advance sett acc payChan unlocked forallb]. by rewrite Hck.
      * apply step_alone. cbn [advance sett acc payChan]. by rewrite Hput.
    + eexists. eapply steps_snoc; [exact Hst|]. apply step_alone. cbn [advance sett acc payChan unlocked forallb]. by rewrite Hck.
  - intros a' t' r He. specialize (Hst (NotifyStart p x) (NotifyLock p x) (fun _ => eq_refl)).
    destruct r1 as [ap|e]; injection He as <- <- <-; [|eauto]. eexists. eapply steps_snoc; [exact Hst|]. by apply step_alone.
Qed.

(** C5: the accounting follows the settlement: in every interleaving of calls,
    payments and notifications in which no recorded retrieval fails, what the
    accounting has down as unpaid is never more than the debt in the settlement
    plus what is still on its way; it is exactly that if no payment failed. *)
Theorem accounting_agrees tol thr t reqs os c k ap : sgood t -> 0 < thr -> Forall request reqs ->
  steps (initial tol thr t reqs) os c -> Forall (fun o => o <> putFailed) os -> accountingPeers (acc c.1) !! k = Some ap ->
  0 <= unPaidTraffic ap <= debt (sett c.1) k + pendings k c.2 /\
  (Forall (fun o => o = fine) os -> unPaidTraffic ap = debt (sett c.1) k + pendings k c.2).
Proof.
  intros Hg Hthr Hr Hst Hos Hk.
  pose proof (agree_steps Bounded thr _ _ _ Hthr Hst Hos (agree_initial _ tol thr t reqs Hg Hr)) as [_ _ Hb _ _].
  destruct (Hb k ap Hk) as (_ & H1 & H2). split; [done|]. intros Hf.
  pose proof (agree_steps Exact thr _ _ _ Hthr Hst Hf (agree_initial _ tol thr t reqs Hg Hr)) as [_ _ He _ _].
  by destruct (He k ap Hk) as (_ & _ & ?).
Qed.

(** The bound of a run, and what holds when it has come to its end. *)
Lemma settles tol thr t reqs os c : sgood t -> 0 < thr -> (forall k, debt t k < thr) -> Forall request reqs ->
  steps (initial tol thr t reqs) os c ->
  (length os <= 7 * length reqs)%nat /\
  ((exists o c', step c o c') \/
   payChan c.1 = [] /\ Forall (fun th => finished th = true) c.2 /\
   (Forall (fun o => o = fine) os -> forall k, debt (sett c.1) k < thr /\
      forall ap, accountingPeers (acc c.1) !! k = Some ap -> unPaidTraffic ap = debt (sett c.1) k)).
Proof.
  intros Hg Hthr Hd Hr Hst. pose proof (fun lv => agree_initial lv tol thr t reqs Hg Hr) as Hi.
  assert (Hany : agree Any thr c.1 c.2) by (eapply agree_steps; [done|exact Hst|by apply Forall_true|apply Hi]).
  split.
  { pose proof (steps_bound thr _ _ _ Hthr (Hi Any) Hst) as Hb. unfold work at 2 in Hb. cbn [initial fst snd payChan length] in Hb.
    enough (weights reqs <= 7 * length reqs)%nat by lia. clear -Hr. induction Hr as [|th ths Hth _ IH]; [done|].
    change (weights (th :: ths)) with (weight th + weights ths)%nat. destruct th; try done; cbn [weight length]; lia. }
  destruct (progress _ _ _ _ Hany) as [Hs|[Hc Hf]]; [left; by destruct c|right]. split_and!; [done..|]. intros Hos k.
  assert (Hp : pendings k c.2 = 0).
  { clear -Hf. induction Hf as [|th ths Hth _ IH]; [done|]. cbn [pendings]. rewrite IH. by destruct th. }
  pose proof (agree_steps Exact thr _ _ _ Hthr Hst Hos (Hi Exact)) as [_ _ He _ _].
  assert (Hcov : covered thr k c.1 c.2).
  { eapply covered_steps; [done|exact Hst|done|apply Hi|]. unfold covered. cbn [initial fst snd sett]. intros Hle. specialize (Hd k). lia. }
  split.
  - destruct (Z.lt_ge_cases (debt (sett c.1) k) thr) as [|Hle]; [done|]. destruct (Hcov Hle) as [Hx|Hx].
    + rewrite Hc in Hx. by apply Exists_nil in Hx.
    + apply Exists_exists in Hx as (th & Hin & p & x & -> & _). rewrite Forall_forall in Hf. by specialize (Hf _ Hin).
  - intros ap Hk. destruct (He k ap Hk) as (_ & _ & Hx). cbn [compared] in Hx. lia.
Qed.

(** C6: every debt that reaches the payment threshold is paid: a run of the
    accounting makes at most seven steps per call; it cannot come to a halt
    before all calls, payments and notifications are finished, with the payment
    channel full or a lock held; and at its end, if nothing failed, every debt is
    below the threshold and equal to what the accounting has down. *)
Theorem accounting_settles tol thr t reqs os c : sgood t -> 0 < thr -> (forall k, debt t k < thr) -> Forall request reqs ->
  steps (initial tol thr t reqs) os c ->
  (length os <= 7 * length reqs)%nat /\
  ((exists o c', step c o c') \/
   payChan c.1 = [] /\ Forall (fun th => finished th = true) c.2 /\
   (Forall (fun o => o = fine) os -> forall k, debt (sett c.1) k < thr /\
      forall ap, accountingPeers (acc c.1) !! k = Some ap -> unPaidTraffic ap = debt (sett c.1) k)).
Proof. apply settles. Qed.

(** No peer gets more than the tolerance and one more request for nothing:
    in every interleaving, and whatever fails, what a peer owes us stays below
    the tolerance plus the largest single request, or where it was before. *)
Theorem Debit_bounded tol thr t reqs X os c k : sgood t -> 0 < thr -> Forall request reqs ->
  (forall p x, DebitStart p x ∈ reqs -> x <= X) -> steps (initial tol thr t reqs) os c ->
  owed (sett c.1) k <= Z.max (owed t k) (tol + X - 1).
Proof.
  intros Hg Hthr Hr HX Hst.
  refine (o_bound tol X (fun k => Z.max (owed t k) (tol + X - 1)) c.1 c.2 _ k).
  eapply owes_steps; [done| |exact Hst|by apply agree_initial|].
  - intros j. cbn. lia.
  - split; cbn [initial fst snd acc sett NewAccounting paymentTolerance]; try done.
    + replace (omap inside reqs) with (@nil bytes); [by constructor|]. clear -Hr.
      induction Hr as [|th ths Hth _ IH]; [done|]. cbn. rewrite <- IH. by destruct th.
    + intros j. lia.
    + intros p x Hp. rewrite Forall_forall in Hr. apply list_elem_of_In in Hp. by specialize (Hr _ Hp).
    + intros th p x Hth Hp. destruct th; cbn in Hp; try done; injection Hp as <- <-; [by eapply HX|..];
        rewrite Forall_forall in Hr; apply list_elem_of_In in Hth; by specialize (Hr _ Hth).
Qed.
End Agreement.

(** ** Examples *)
Section Schedule.
Context {T E : Type} `{SE : Settlement T E}.

(** One step of the [i]-th thread, or of the settling goroutine. *)
Definition sched_one (i : option nat) (c : shared (T := T) * list (thread (E := E))) : option (outcome * (shared * list thread)) :=
  match i with
  | Some i =>
      match c.2 !! i with
      | Some th =>
          match advance (take i c.2 ++ drop (S i) c.2) th c.1 with
          | Some (s, th, o) => Some (o, (s, <[i := th]> c.2))
          | None => None
          end
      | None => None
      end
  | None => match settle_one c.1 with Some (s, n, o) => Some (o, (s, c.2 ++ n)) | None => None end
  end.

Fixpoint schedule (sel : list (option nat)) (c : shared (T := T) * list (thread (E := E))) (os : list outcome) :
    option (list outcome * (shared * list thread)) :=
  match sel with
  | [] => Some (os, c)
  | i :: sel => match sched_one i c with Some (o, c) => schedule sel c (os ++ [o]) | None => None end
  end.

Lemma sched_one_sound i c o c' : sched_one i c = Some (o, c') -> step c o c'.
Proof.
  destruct c as [s ths], i as [i|]; cbn [sched_one fst snd].
  - destruct (ths !! i) as [th|] eqn:Hi; [|done]. destruct (advance _ th s) as [[[s' th'] o']|] eqn:Ha; [|done]. intros [= <- <-].
    rewrite (insert_take_drop ths i th') by (by eapply lookup_lt_Some).
    replace (s, ths) with (s, take i ths ++ th :: drop (S i) ths) by (by rewrite take_drop_middle). by apply step_thread.
  - destruct (settle_one s) as [[[s' n] o']|] eqn:Hs; [|done]. intros [= <- <-]. by apply step_settle.
Qed.

Lemma finished_stuck (c : shared (T := T) * list (thread (E := E))) o c' : payChan c.1 = [] ->
  Forall (fun th => finished th = true) c.2 -> ~ step c o c'.
Proof.
  intros Hc Hf Hs. destruct Hs as [s l th r s' th' o Ha|s ths s' n o Hs]; cbn [fst snd] in *.
  - apply Forall_app in Hf as [_ [Hf _]%Forall_cons_1]. by destruct th.
  - unfold settle_one in Hs. by rewrite Hc in Hs.
Qed.

Lemma schedule_sound c0 sel : forall c os r, steps c0 os c -> schedule sel c os = Some r -> steps c0 r.1 r.2.
Proof.
  induction sel as [|i sel IH]; intros c os r Hs; cbn [schedule]; [by intros [= <-]|].
  destruct (sched_one i c) as [[o c']|] eqn:Hi; [|done]. apply IH. eapply steps_snoc; [exact Hs|]. by eapply sched_one_sound.
Qed.
End Schedule.

(** A settlement that keeps the two amounts per peer and always pays. *)
Definition toy_read (t : gmap bytes (Z * Z)) (k : bytes) : Z * Z := default (0, 0) (t !! k).

#[local] Instance toy_settlement : Settlement (gmap bytes (Z * Z)) unit := {|
  Pay p th t := let '(d, o) := toy_read t (String p) in
    if th <=? d then (<[String p := (0, o)]> t, [(p, d)], Ok tt) else (t, [], Ok tt);
  TransferTraffic p t := (t, Ok (toy_read t (String p)).2);
  RetrieveTraffic p t := (t, Ok (toy_read t (String p)).1);
  PutRetrieveTraffic p x t := let '(d, o) := toy_read t (String p) in (<[String p := (d + x, o)]> t, Ok tt);
  PutTransferTraffic p x t := let '(d, o) := toy_read t (String p) in (<[String p := (d, o + x)]> t, Ok tt);
  AvailableBalance t := (t, Ok 100000);
|}.

Lemma toy_insert t k v j : toy_read (<[k := v]> t) j = if decide (k = j) then v else toy_read t j.
Proof. unfold toy_read. rewrite lookup_insert. by case_decide. Qed.

#[local] Instance toy_laws : SettlementLaws (gmap bytes (Z * Z)) unit.
Proof.
  refine {| debt t k := (toy_read t k).1; owed t k := (toy_read t k).2; sgood t := forall k, 0 <= (toy_read t k).1 |}.
  - intros t k Hg. apply Hg.
  - intros p t t' r Hg [= <- <-]. split; [done|]. by intros z [= <-].
  - intros p t t' r Hg [= <- <-]. split; [done|]. by intros z [= <-].
  - by intros t t' r Hg [= <- _].
  - intros p x t t' r Hg Hx. cbn [PutRetrieveTraffic toy_settlement]. destruct (toy_read t (String p)) as [d o] eqn:Hr.
    pose proof (Hg (String p)) as Hd. rewrite Hr in Hd. cbn [fst] in Hd. intros [= <- <-].
    split_and!; intros; rewrite ?toy_insert, ?decide_True by done; try case_decide; subst; rewrite ?Hr; cbn [fst snd]; try done; [lia|by left].
  - intros p x t t' r Hg Hx. cbn [PutTransferTraffic toy_settlement]. destruct (toy_read t (String p)) as [d o] eqn:Hr.
    pose proof (Hg (String p)) as Hd. rewrite Hr in Hd. cbn [fst] in Hd. intros [= <- <-].
    split_and!; intros; rewrite ?toy_insert, ?decide_True by done; try case_decide; subst; rewrite ?Hr; cbn [fst snd]; try done; by left.
  - intros p th t t' n r Hg Hth. cbn [Pay toy_settlement]. destruct (toy_read t (String p)) as [d o] eqn:Hr.
    destruct (Z.leb_spec th d) as [Hle|Hlt]; intros [= <- <- <-].
    + split_and!; intros; rewrite ?toy_insert, ?decide_True by done; try case_decide; subst; rewrite ?Hr; cbn [fst snd]; try done.
      right. split_and!; [done..|by left].
    + split_and!; intros; try done. left. by rewrite Hr.
Defined.

(** Two retrievals of 256 from one peer and two deliveries to it; the payment of
    the first retrieval is made between the steps of the second. *)
Definition toy_requests : list (thread (E := unit)) :=
  [CreditStart [1] 256; CreditStart [1] 256; DebitStart [1] 256; DebitStart [1] 256].

Definition toy_start := initial (T := gmap bytes (Z * Z)) 300 200 ∅ toy_requests.

Definition toy_schedule : list (option nat) :=
  map Some [0; 0; 0; 2; 3; 1; 0; 1]%nat ++ [None] ++ map Some [1; 1; 2; 2; 3; 3]%nat ++ [None] ++ map Some [4; 4; 5; 5]%nat.

Definition toy_run : list outcome * (shared * list thread) := default ([], toy_start) (schedule toy_schedule toy_start []).

Lemma toy_run_steps : steps toy_start toy_run.1 toy_run.2.
Proof.
  unfold toy_run. destruct (schedule toy_schedule toy_start []) as [r|] eqn:Hs; [|apply steps_refl].
  cbn [default]. eapply schedule_sound; [|exact Hs]. apply steps_refl.
Qed.

Lemma toy_good : sgood (∅ : gmap bytes (Z * Z)).
Proof. intros k. unfold toy_read. by rewrite lookup_empty. Qed.

Lemma toy_requests_ok : Forall request toy_requests.
Proof. repeat constructor; done. Qed.

Lemma toy_fine : Forall (fun o => o = fine) toy_run.1.
Proof. vm_compute. repeat constructor. Qed.

Lemma calls_alone_witness : exists os, steps (MkShared (NewAccounting 300 200) (∅ : gmap bytes (Z * Z)) [], [CreditStart (E := unit) [1] 256]) os
  (MkShared (Credit [1] 256 (NewAccounting 300 200) (∅ : gmap bytes (Z * Z))).1.1.1 (Credit [1] 256 (NewAccounting 300 200) (∅ : gmap bytes (Z * Z))).1.1.2
     [([1], 200)], [Finished (Ok tt)]).
Proof.
  apply (proj1 (calls_alone [1] 256 (NewAccounting 300 200) (∅ : gmap bytes (Z * Z)) []) _ _ [([1], 200)] (Ok tt)).
  - rewrite (surjective_pairing (Credit _ _ _ _)), (surjective_pairing (Credit _ _ _ _).1), (surjective_pairing (Credit _ _ _ _).1.1).
    f_equal.
  - apply Nat.ltb_lt. reflexivity.
Defined.

Lemma accounting_agrees_witness : exists ap, accountingPeers (acc toy_run.2.1) !! String [1] = Some ap /\ unPaidTraffic ap = 0.
Proof.
  destruct (accountingPeers (acc toy_run.2.1) !! String [1]) as [ap|] eqn:Hk; [|vm_compute in Hk; discriminate].
  exists ap. split; [done|].
  destruct (accounting_agrees 300 200 ∅ toy_requests toy_run.1 toy_run.2 (String [1]) ap toy_good ltac:(lia) toy_requests_ok toy_run_steps) as [_ He].
  - eapply Forall_impl; [|exact toy_fine]. by intros o ->.
  - exact Hk.
  - rewrite (He toy_fine). vm_compute. reflexivity.
Defined.

Lemma accounting_settles_witness : debt (sett toy_run.2.1) (String [1]) < 200.
Proof.
  destruct (accounting_settles 300 200 ∅ toy_requests toy_run.1 toy_run.2 toy_good ltac:(lia)) as [_ Hc].
  - intros k. cbn. unfold toy_read. rewrite lookup_empty. cbn. lia.
  - exact toy_requests_ok.
  - exact toy_run_steps.
  - destruct Hc as [(o & c & Hs)|(_ & _ & Hk)]; [|apply (Hk toy_fine (String [1]))].
    exfalso. apply (finished_stuck toy_run.2 o c); [vm_compute; reflexivity| |exact Hs].
    vm_compute. repeat constructor.
Defined.

Lemma Debit_bounded_witness : owed (sett toy_run.2.1) (String [1]) = 512 /\ 512 <= Z.max 0 (300 + 256 - 1).
Proof.
  assert (Ho : owed (sett toy_run.2.1) (String [1]) = 512) by (vm_compute; reflexivity). split; [exact Ho|].
  pose proof (Debit_bounded 300 200 ∅ toy_requests 256 toy_run.1 toy_run.2 (String [1]) toy_good ltac:(lia) toy_requests_ok) as Hb.
  rewrite Ho in Hb. apply Hb.
  - intros p x Hp. unfold toy_requests in Hp. rewrite !elem_of_cons, elem_of_nil in Hp.
    destruct Hp as [[=]|[[=]|[[= _ ->]|[[= _ ->]|[]]]]]; lia.
  - exact toy_run_steps.
Defined.
