(* ===== verification/AccountingTraffic.v ===== *)
(** * The accounting on top of the traffic service

    The traffic service (pkg/settlement/traffic) implements the settlement that
    the accounting (pkg/accounting) relies on: the interface of [Accounting] is
    instantiated by the handlers of [Traffic], its laws are proved about their
    heap of shared counters, and the properties of the accounting hold of the two
    components together, wired as in pkg/node/node.go. *)

From Stdlib Require Import ZArith Lia ZifyBool.
From stdpp Require Import base gmap list numbers strings.
From S2P Require Import Prelude Boson StateStore Cheque AddressBook Traffic TrafficPay Accounting.

Open Scope Z_scope.

Section Amounts.
Context {S V : Type} `{ST : StateStorer S V} `{CS : Codec SignedCheque V} `{CC : Codec Cheque V} `{CZ : Codec Z V}
  `{CA : Codec (list Z) V}.

Abbreviation Service := (Traffic.Service (S := S)).

(** The amounts of an account on the chain. *)
Definition debt_at (s : Service) (a : EthAddress) : Z := match peers s !! a with Some t => unpaid s t | None => 0 end.
Definition owed_at (s : Service) (a : EthAddress) : Z :=
  match peers s !! a with Some t => val s (transferTraffic t) - val s (transferChequeTraffic t) | None => 0 end.

(** The ownership invariant of the service, and that the amounts in one
    direction do not share memory with those in the other. *)
Record tgood (s : Service) : Prop := {
  t_inv : inv s;
  t_sides a t : peers s !! a = Some t -> retrieveChequeTraffic t <> transferTraffic t /\ retrieveChequeTraffic t <> transferChequeTraffic t;
  t_debt a : 0 <= debt_at s a;
  t_book k k' a : peerBeneficiary (book s) !! k = Some a -> peerBeneficiary (book s) !! k' = Some a -> k = k';
}.

(** Nothing but the account [a] changes. *)
Record only (a : EthAddress) (s s' : Service) : Prop := {
  f_book : book s' = book s;
  f_peers b : b <> a -> peers s' !! b = peers s !! b;
  f_vals b u l : b <> a -> peers s !! b = Some u -> l ∈ locs u -> val s' l = val s l;
}.

Lemma only_amounts a s s' b : only a s s' -> b <> a -> debt_at s' b = debt_at s b /\ owed_at s' b = owed_at s b.
Proof.
  intros [_ Hp Hv] Hb. unfold debt_at, owed_at. rewrite (Hp b Hb). destruct (peers s !! b) as [u|] eqn:Hu; [|done].
  unfold unpaid. rewrite !(Hv b u) by (done || (unfold locs; set_solver)). done.
Qed.

Lemma only_trans a s1 s2 s3 : only a s1 s2 -> only a s2 s3 -> only a s1 s3.
Proof.
  intros [H1 H2 H3] [K1 K2 K3]. split.
  - congruence.
  - intros b Hb. by rewrite K2, H2.
  - intros b u l Hb Hu Hl. rewrite (K3 b u l); [by apply (H3 b u)|done| |done]. by rewrite H2.
Qed.

Lemma only_good a s s' : tgood s -> only a s s' -> inv s' -> 0 <= debt_at s' a ->
  (forall t, peers s' !! a = Some t -> retrieveChequeTraffic t <> transferTraffic t /\ retrieveChequeTraffic t <> transferChequeTraffic t) ->
  tgood s'.
Proof.
  intros [Hi Hs Hd Hb] Ho Hi' Ha Ht. split; [done|..].
  - intros b t Hbt. destruct (decide (b = a)) as [->|Hne]; [by apply Ht|]. apply (Hs b). by rewrite <- (f_peers a s s' Ho b Hne).
  - intros b. destruct (decide (b = a)) as [->|Hne]; [done|]. destruct (only_amounts a s s' b Ho Hne) as [-> _]. apply Hd.
  - rewrite (f_book a s s' Ho). exact Hb.
Qed.

(** [s] is [s0] with the new cells [ls], at zero. *)
Record zeros (s0 : Service) (ls : list loc) (s : Service) : Prop := {
  z_peers : peers s = peers s0;
  z_book : book s = book s0;
  z_notified : notified s = notified s0;
  z_fresh : (fresh s0 <= fresh s)%nat;
  z_old l : (l < fresh s0)%nat -> val s l = val s0 l;
  z_new l : l ∈ ls -> (l < fresh s)%nat /\ val s l = 0;
  z_nodup : NoDup ls;
}.

Lemma z_alloc s0 ls : triple (zeros s0 ls) (alloc 0) (fun l => zeros s0 (l :: ls)).
Proof.
  intros s [H1 H2 H0 H3 H4 H5 H6]. cbn. split; cbn [peers book notified fresh set_heap]; try done; [lia|..].
  - intros l Hl. rewrite <- (H4 l Hl). unfold val. cbn [heap set_heap]. rewrite lookup_insert_ne by lia. done.
  - intros l [->|Hl]%elem_of_cons; unfold val; cbn [heap set_heap]; [rewrite lookup_insert_eq; split; [lia|done]|].
    destruct (H5 l Hl) as [Hlt Hv]. rewrite lookup_insert_ne by lia. split; [lia|exact Hv].
  - apply NoDup_cons. split; [|done]. intros Hl. destruct (H5 _ Hl). lia.
Qed.

Lemma z_newTraffic s0 : triple (zeros s0 []) newTraffic (fun t => zeros s0 (reverse (locs t))).
Proof. unfold newTraffic. do 7 (eapply t_bind; [apply z_alloc|intros ?]). intros s Hz. exact Hz. Qed.

Lemma zeros_refl s : zeros s [] s.
Proof. split; try done; [intros l Hl; by apply elem_of_nil in Hl|constructor]. Qed.

(** [getTraffic] finds the counters or makes new ones at zero. *)
Lemma getTraffic_amounts s a : tgood s -> exists s1 t, getTraffic a s = (s1, Ok t) /\ tgood s1 /\ only a s s1 /\ notified s1 = notified s /\
  peers s1 !! a = Some t /\ debt_at s1 a = debt_at s a /\ owed_at s1 a = owed_at s a.
Proof.
  intros Hg. pose proof (t_getTraffic a s (t_inv s Hg)) as Hj. revert Hj. unfold getTraffic, mbind, M_bind, get. cbn beta iota.
  destruct (peers s !! a) as [t|] eqn:Ht.
  { intros _. exists s, t. by split_and!. }
  pose proof (z_newTraffic s s (zeros_refl s)) as Hz. destruct (newTraffic s) as [s1 [t|e]] eqn:Hn; [|by vm_compute in Hn].
  cbn beta iota. unfold set_traffic, mret, M_ret. intros (Hi & Hp & _). set (s2 := set_peers s1 _) in *. exists s2, t.
  destruct Hz as [H1 H2 H0 H3 H4 H5 H6].
  assert (Hv : forall l, l ∈ locs t -> val s2 l = 0) by (intros l Hl; by apply H5, elem_of_reverse).
  assert (Ho : only a s s2).
  { split; [done| |].
    - intros b Hb. unfold s2. cbn [peers set_peers]. by rewrite lookup_insert_ne, H1.
    - intros b u l Hb Hu Hl. apply H4. by apply (i_bound s (t_inv s Hg) b u). }
  assert (Hd : debt_at s2 a = debt_at s a /\ owed_at s2 a = owed_at s a).
  { unfold debt_at, owed_at, unpaid. rewrite Hp, Ht. by rewrite !Hv by (unfold locs; set_solver). }
  destruct Hd as [Hd1 Hd2]. split; [done|]. split; [|by split_and!].
  apply (only_good a s); [done..|rewrite Hd1; apply Hg|]. intros u Hu. rewrite Hp in Hu. injection Hu as <-.
  rewrite reverse_Permutation in H6. unfold locs in H6. rewrite !NoDup_cons in H6. set_solver.
Qed.

(** Replacing one counter of an account by a new cell. *)
Definition replaced (s : Service) (a : EthAddress) (t : Traffic) (z : Z) : Service :=
  set_peers (alloc z s).1 (<[a := t]> (peers s)).

Lemma replaced_spec s a t t' z : tgood s -> peers s !! a = Some t -> (forall l, l ∈ locs t' -> l = fresh s \/ l ∈ locs t) ->
  let s2 := replaced s a t' z in
  inv s2 /\ only a s s2 /\ peers s2 !! a = Some t' /\ val s2 (fresh s) = z /\ (forall l, l ∈ locs t -> val s2 l = val s l).
Proof.
  intros Hg Ht Hl s2. pose proof (t_inv s Hg) as Hi.
  assert (Hold : forall b u l, peers s !! b = Some u -> l ∈ locs u -> val s2 l = val s l).
  { intros b u l Hu Hlu. pose proof (i_bound s Hi b u l Hu Hlu). unfold val, s2. cbn. by rewrite lookup_insert_ne by lia. }
  split_and!.
  - pose proof (t_alloc z s Hi) as Ha. cbn in Ha. destruct Ha as [Hi1 Hfree].
    apply (inv_insert (alloc z s).1 a t' Hi1). intros l Hin. destruct (Hl l Hin) as [->|Hlt]; [by left|right; by exists t].
  - split; [done| |].
    + intros b Hb. unfold s2. cbn. by rewrite lookup_insert_ne.
    + intros b u l _. apply Hold.
  - unfold s2. cbn. apply lookup_insert_eq.
  - unfold val, s2. cbn. by rewrite lookup_insert_eq.
  - intros l. by apply (Hold a t).
Qed.

Lemma tgood_cheques s c : tgood s -> tgood (set_cheques s c).
Proof. intros [H1 H2 H3 H4]. split; [by apply (inv_same s)|exact H2|exact H3|exact H4]. Qed.

Lemma update_amounts f s s' r : tgood s -> update f s = (s', r) ->
  tgood s' /\ (forall a, debt_at s' a = debt_at s a) /\ (forall a, owed_at s' a = owed_at s a) /\ book s' = book s.
Proof. intros Hg. unfold update. destruct (f (cheques s)); intros [= <- _]; (split; [|done]); [by apply tgood_cheques|done]. Qed.

Lemma PutRetrieve_amounts s p a x s' r : tgood s -> 0 <= x -> AddressBook.Beneficiary (book s) p = Some a -> Traffic.PutRetrieveTraffic p x s = (s', r) ->
  tgood s' /\ book s' = book s /\ (forall b, owed_at s' b = owed_at s b) /\ (forall b, b <> a -> debt_at s' b = debt_at s b) /\
  debt_at s' a = debt_at s a + x.
Proof.
  intros Hg Hx Hb. unfold Traffic.PutRetrieveTraffic, known_or, beneficiary, mbind, M_bind. cbn beta iota. rewrite Hb.
  destruct (getTraffic_amounts s a Hg) as (s1 & t & -> & Hg1 & Ho1 & _ & Ht & Hd1 & Hw1). cbn beta iota. unfold read at 1. cbn beta iota.
  set (z := val s1 (retrieveTraffic t) + x). unfold alloc at 1, set_traffic at 1. cbn beta iota. set (t' := MkTraffic _ _ _ _ _ _ _ _).
  change (set_peers (set_heap s1 _ _) _) with (replaced s1 a t' z).
  destruct (replaced_spec s1 a t t' z Hg1 Ht) as (Hi2 & Ho2 & Ht2 & Hz & Hv); [unfold locs, t'; cbn; set_solver|].
  set (s2 := replaced s1 a t' z) in *. unfold read. cbn beta iota. intros Hu.
  assert (Hd2 : debt_at s2 a = debt_at s1 a + x).
  { unfold debt_at, unpaid. rewrite Ht2, Ht. cbn [t' retrieveTraffic retrieveChequeTraffic]. rewrite Hz, (Hv (retrieveChequeTraffic t)) by (unfold locs; set_solver).
    unfold z. lia. }
  assert (Hw2 : owed_at s2 a = owed_at s1 a).
  { unfold owed_at. rewrite Ht2, Ht. cbn [t' transferTraffic transferChequeTraffic]. by rewrite !Hv by (unfold locs; set_solver). }
  assert (Hg2 : tgood s2).
  { apply (only_good a s1); [done..| |].
    - rewrite Hd2. pose proof (t_debt s1 Hg1 a). lia.
    - intros u Hu2. rewrite Ht2 in Hu2. injection Hu2 as <-. apply (t_sides s1 Hg1 a t Ht). }
  destruct (update_amounts _ s2 s' r Hg2 Hu) as (Hg3 & Hd3 & Hw3 & Hb3). pose proof (only_trans _ _ _ _ Ho1 Ho2) as Ho.
  split; [done|]. rewrite Hb3. split; [apply Ho|]. split_and!.
  - intros b. rewrite Hw3. destruct (decide (b = a)) as [->|Hne]; [congruence|]. by apply (only_amounts a).
  - intros b Hne. rewrite Hd3. by apply (only_amounts a).
  - rewrite Hd3. lia.
Qed.

Lemma PutTransfer_amounts s p a x s' r : tgood s -> AddressBook.Beneficiary (book s) p = Some a -> Traffic.PutTransferTraffic p x s = (s', r) ->
  tgood s' /\ book s' = book s /\ (forall b, debt_at s' b = debt_at s b) /\ (forall b, b <> a -> owed_at s' b = owed_at s b) /\
  owed_at s' a = owed_at s a + x.
Proof.
  intros Hg Hb. unfold Traffic.PutTransferTraffic, known_or, beneficiary, mbind, M_bind. cbn beta iota. rewrite Hb.
  destruct (getTraffic_amounts s a Hg) as (s1 & t & -> & Hg1 & Ho1 & _ & Ht & Hd1 & Hw1). cbn beta iota. unfold read at 1. cbn beta iota.
  set (z := val s1 (transferTraffic t) + x). unfold alloc at 1, set_traffic at 1. cbn beta iota. set (t' := MkTraffic _ _ _ _ _ _ _ _).
  change (set_peers (set_heap s1 _ _) _) with (replaced s1 a t' z).
  destruct (replaced_spec s1 a t t' z Hg1 Ht) as (Hi2 & Ho2 & Ht2 & Hz & Hv); [unfold locs, t'; cbn; set_solver|].
  set (s2 := replaced s1 a t' z) in *. unfold read. cbn beta iota. intros Hu.
  assert (Hw2 : owed_at s2 a = owed_at s1 a + x).
  { unfold owed_at. rewrite Ht2, Ht. cbn [t' transferTraffic transferChequeTraffic].
    rewrite Hz, (Hv (transferChequeTraffic t)) by (unfold locs; set_solver). unfold z. lia. }
  assert (Hd2 : debt_at s2 a = debt_at s1 a).
  { unfold debt_at, unpaid. rewrite Ht2, Ht. cbn [t' retrieveTraffic retrieveChequeTraffic]. by rewrite !Hv by (unfold locs; set_solver). }
  assert (Hg2 : tgood s2).
  { apply (only_good a s1); [done..|rewrite Hd2; apply (t_debt s1 Hg1)|].
    intros u Hu2. rewrite Ht2 in Hu2. injection Hu2 as <-. cbn. split; [|apply (t_sides s1 Hg1 a t Ht)].
    pose proof (i_bound s1 (t_inv s1 Hg1) a t (retrieveChequeTraffic t) Ht ltac:(unfold locs; set_solver)). lia. }
  destruct (update_amounts _ s2 s' r Hg2 Hu) as (Hg3 & Hd3 & Hw3 & Hb3). pose proof (only_trans _ _ _ _ Ho1 Ho2) as Ho.
  split; [done|]. rewrite Hb3. split; [apply Ho|]. split_and!.
  - intros b. rewrite Hd3. destruct (decide (b = a)) as [->|Hne]; [congruence|]. by apply (only_amounts a).
  - intros b Hne. rewrite Hw3. by apply (only_amounts a).
  - rewrite Hw3. lia.
Qed.

(** The in-place addition of a payment. *)
Lemma raise_amounts s a t : tgood s -> peers s !! a = Some t -> let s2 := raise s t (unpaid s t) in
  tgood s2 /\ only a s s2 /\ debt_at s2 a = 0 /\ owed_at s2 a = owed_at s a.
Proof.
  intros Hg Ht s2.
  assert (Ho : only a s s2).
  { split; [done|done|]. intros b u l Hb Hu Hl. unfold s2. rewrite val_raise, decide_False; [done|].
    intros ->. apply (i_sep s (t_inv s Hg) b a u t _ Hb Hu Ht Hl). unfold locs. set_solver. }
  assert (Hd : debt_at s2 a = 0).
  { unfold debt_at. change (peers s2) with (peers s). rewrite Ht. unfold unpaid at 1, s2. rewrite !val_raise.
    rewrite (decide_True (P := retrieveChequeTraffic t = _)) by done. unfold unpaid. case_decide as He; [rewrite He|]; lia. }
  destruct (t_sides s Hg a t Ht) as [S1 S2].
  split_and!; [|done|done|].
  - apply (only_good a s); [done|done|by apply (inv_same s); [|apply Hg]|lia|].
    intros u Hu. change (peers s2) with (peers s) in Hu. rewrite Ht in Hu. by injection Hu as <-.
  - unfold owed_at. change (peers s2) with (peers s). rewrite Ht. unfold s2. by rewrite !val_raise, !decide_False by congruence.
Qed.

Lemma Pay_getTraffic env s p a th s1 t : AddressBook.Beneficiary (book s) p = Some a -> book s1 = book s ->
  getTraffic a s = (s1, Ok t) -> peers s1 !! a = Some t -> Traffic.Pay env p th s = Traffic.Pay env p th s1.
Proof.
  intros Hb Hb1 Hg Ht. pose proof (getTraffic_known s1 a t Ht) as Hk.
  unfold Traffic.Pay, beneficiary, retrieveTraffic_, mbind, M_bind. cbn beta iota. rewrite Hb1, Hb, Hg, Hk.
  unfold get, mret, M_ret. cbn beta iota. by rewrite Hk.
Qed.

Lemma notify_amounts s p z : tgood s -> tgood (notify s p z).
Proof. intros [H1 H2 H3 H4]. split; [by apply (inv_same s)|exact H2|exact H3|exact H4]. Qed.

(** What a payment does to an account that is known. *)
Lemma Pay_known_amounts env s p a t th s' r : tgood s -> 0 < th -> peers s !! a = Some t -> AddressBook.Beneficiary (book s) p = Some a -> Traffic.Pay env p th s = (s', r) ->
  tgood s' /\ book s' = book s /\ (forall b, owed_at s' b = owed_at s b) /\ (forall b, b <> a -> debt_at s' b = debt_at s b) /\
  (notified s' = notified s /\ debt_at s' a = debt_at s a /\ debt_at s a < th \/
   notified s' = notified s ++ [(p, debt_at s a)] /\ th <= debt_at s a /\ (debt_at s' a = 0 \/ debt_at s' a = debt_at s a /\ r <> Ok tt)).
Proof.
  intros Hg Hth Ht Hb. rewrite (Pay_known env s p a t Hb Ht). assert (Hd : debt_at s a = unpaid s t) by (unfold debt_at; by rewrite Ht).
  rewrite <- Hd. destruct (Z.leb_spec th (debt_at s a)) as [Hle|Hlt].
  2: { intros [= <- <-]. split_and!; try done. by left. }
  rewrite Hd. rewrite (issue_known env s p a t). cbn zeta. rewrite <- Hd.
  destruct (raise_amounts s a t Hg Ht) as (Hg2 & Ho2 & Hd2 & Hw2). rewrite <- Hd in Hg2, Ho2, Hd2, Hw2. set (s2 := raise s t (debt_at s a)) in *.
  assert (Hpaid : forall s3, tgood s3 -> (forall b, debt_at s3 b = debt_at s2 b) -> (forall b, owed_at s3 b = owed_at s2 b) -> book s3 = book s ->
    notified s3 = notified s ++ [(p, debt_at s a)] -> s' = s3 ->
    tgood s' /\ book s' = book s /\ (forall b, owed_at s' b = owed_at s b) /\ (forall b, b <> a -> debt_at s' b = debt_at s b) /\
    (notified s' = notified s /\ debt_at s' a = debt_at s a /\ debt_at s a < th \/
     notified s' = notified s ++ [(p, debt_at s a)] /\ th <= debt_at s a /\ (debt_at s' a = 0 \/ debt_at s' a = debt_at s a /\ r <> Ok tt))).
  { intros s3 Hg3 Hd3 Hw3 Hb3 Hn3 ->. split_and!; try done.
    - intros b. rewrite Hw3. destruct (decide (b = a)) as [->|Hne]; [done|]. by apply (only_amounts a).
    - intros b Hne. rewrite Hd3. by apply (only_amounts a).
    - right. split_and!; [done..|left]. by rewrite Hd3. }
  destruct (available s <? debt_at s a).
  { intros [= <- <-]. split_and!; try done; [by apply notify_amounts|]. right. split_and!; [done..|by right]. }
  assert (Hn : forall c, tgood (notify (set_cheques s2 c) p (debt_at s a))) by (intros c; by apply notify_amounts, tgood_cheques).
  destruct (signCheque env _) as [sin|]; [|intros [= <- <-]; apply (Hpaid (notify s2 p (debt_at s a))); done || by apply notify_amounts].
  destruct (EmitCheque env p _); cbn [negb]; [|intros [= <- <-]; apply (Hpaid (notify s2 p (debt_at s a))); done || by apply notify_amounts].
  unfold s2. rewrite Hd, (putSendCheque_raise s a t Ht), <- Hd. fold s2.
  destruct (PutSendCheque _ _ _) as [c|e]; intros [= <- <-].
  - by apply (Hpaid (notify (set_cheques s2 c) p (debt_at s a))).
  - apply (Hpaid (notify s2 p (debt_at s a))); done || by apply notify_amounts.
Qed.

Lemma Pay_amounts env s p a th s' r : tgood s -> 0 < th -> AddressBook.Beneficiary (book s) p = Some a -> Traffic.Pay env p th s = (s', r) ->
  tgood s' /\ book s' = book s /\ (forall b, owed_at s' b = owed_at s b) /\ (forall b, b <> a -> debt_at s' b = debt_at s b) /\
  (notified s' = notified s /\ debt_at s' a = debt_at s a /\ debt_at s a < th \/
   notified s' = notified s ++ [(p, debt_at s a)] /\ th <= debt_at s a /\ (debt_at s' a = 0 \/ debt_at s' a = debt_at s a /\ r <> Ok tt)).
Proof.
  intros Hg Hth Hb. destruct (getTraffic_amounts s a Hg) as (s1 & t & Hgt & Hg1 & Ho & Hn & Ht & Hd & Hw).
  rewrite (Pay_getTraffic env s p a th s1 t Hb (f_book _ _ _ Ho) Hgt Ht). intros HP.
  destruct (Pay_known_amounts env s1 p a t th s' r Hg1 Hth Ht) as (K1 & K2 & K3 & K4 & K5); [by rewrite (f_book _ _ _ Ho)|done|].
  rewrite Hn, Hd in K5. split_and!; [done| | | |done].
  - by rewrite K2, (f_book _ _ _ Ho).
  - intros b. rewrite K3. destruct (decide (b = a)) as [->|Hne]; [done|]. by apply (only_amounts a).
  - intros b Hne. rewrite K4 by done. by apply (only_amounts a).
Qed.
End Amounts.

(** ** The instance *)
Section Instance.
Context {S V : Type} `{ST : StateStorer S V} `{CS : Codec SignedCheque V} `{CC : Codec Cheque V} `{CZ : Codec Z V}
  `{CA : Codec (list Z) V}.

(** What the chain and the other services answer, payment by payment. *)
Context (env : nat -> Env).

Abbreviation Service := (Traffic.Service (S := S)).

Definition on_service {A} (m : Service -> Service * result trafficError A) (t : Service * nat) : (Service * nat) * result trafficError A :=
  let '(s, r) := m t.1 in ((s, t.2), r).

#[local] Instance traffic_settlement : Settlement (Service * nat) trafficError := {|
  Pay p th t := let '(s, r) := Traffic.Pay (env t.2) p th t.1 in
    ((s, (t.2 + 1)%nat), drop (length (notified t.1)) (notified s), r);
  TransferTraffic p := on_service (Traffic.TransferTraffic p);
  RetrieveTraffic p := on_service (Traffic.RetrieveTraffic p);
  PutRetrieveTraffic p x := on_service (Traffic.PutRetrieveTraffic p x);
  PutTransferTraffic p x := on_service (Traffic.PutTransferTraffic p x);
  AvailableBalance := on_service Traffic.AvailableBalance;
|}.

(** The amount [f] of the account of a peer. *)
Definition of_peer (f : Service -> EthAddress -> Z) (s : Service) (k : bytes) : Z :=
  match peerBeneficiary (book s) !! k with Some a => f s a | None => 0 end.

Lemma of_peer_same f (s s' : Service) k : book s' = book s -> (forall a, f s' a = f s a) -> of_peer f s' k = of_peer f s k.
Proof. intros Hb Hf. unfold of_peer. rewrite Hb. by destruct (peerBeneficiary (book s) !! k). Qed.

Lemma of_peer_other f (s s' : Service) p a k : tgood s -> Beneficiary (book s) p = Some a -> k <> String p -> book s' = book s ->
  (forall b, b <> a -> f s' b = f s b) -> of_peer f s' k = of_peer f s k.
Proof.
  intros Hg Hp Hk Hb Hf. unfold of_peer. rewrite Hb. destruct (peerBeneficiary (book s) !! k) as [b|] eqn:Hkb; [|done]. apply Hf.
  intros ->. apply Hk. by apply (t_book s Hg k (String p) a).
Qed.

Lemma of_peer_own f (s : Service) p a : Beneficiary (book s) p = Some a -> of_peer f s (String p) = f s a.
Proof. unfold of_peer, Beneficiary. by intros ->. Qed.

(** Reading an amount may make a new account at zero. *)
Lemma read_amounts (f : Service -> Traffic -> Z) (g : Service -> EthAddress -> Z) (m : Address -> Service -> Service * result trafficError Z)
    p (s s' : Service) r : tgood s -> (forall s a t, peers s !! a = Some t -> g s a = f s t) ->
  m p s = match Beneficiary (book s) p with
    | None => (s, Err (errCheque ErrNoCheque))
    | Some a => match getTraffic a s with (s1, Ok t) => (s1, Ok (f s1 t)) | (s1, Err e) => (s1, Err e) end
    end -> (forall s1 a, only a s s1 -> debt_at s1 a = debt_at s a -> owed_at s1 a = owed_at s a -> g s1 a = g s a) -> m p s = (s', r) ->
  tgood s' /\ book s' = book s /\ (forall a, debt_at s' a = debt_at s a) /\ (forall a, owed_at s' a = owed_at s a) /\
  (forall z, r = Ok z -> z = of_peer g s (String p)).
Proof.
  intros Hg Hfg -> Hgs. destruct (Beneficiary (book s) p) as [a|] eqn:Hb; [|intros [= <- <-]; by split_and!].
  destruct (getTraffic_amounts s a Hg) as (s1 & t & -> & Hg1 & Ho & _ & Ht & Hd & Hw). intros [= <- <-].
  assert (Hamt : forall b, debt_at s1 b = debt_at s b /\ owed_at s1 b = owed_at s b).
  { intros b. destruct (decide (b = a)) as [->|Hne]; [done|]. by apply (only_amounts a). }
  split_and!; [done|apply Ho|apply Hamt|apply Hamt|]. intros z [= <-]. rewrite (of_peer_own g s p a Hb), <- (Hgs s1 a), (Hfg s1 a t); done.
Qed.

#[local] Instance traffic_laws : SettlementLaws (Service * nat) trafficError.
Proof.
  refine {| debt t := of_peer debt_at t.1; owed t := of_peer owed_at t.1; sgood t := tgood t.1 |}.
  - intros [s n] k Hg. cbn [fst] in *. unfold of_peer. destruct (peerBeneficiary (book s) !! k); [apply (t_debt s Hg)|lia].
  - intros p [s n] [s' n'] r Hg. cbn [TransferTraffic traffic_settlement fst] in *. unfold on_service. cbn [fst snd].
    destruct (Traffic.TransferTraffic p s) as [s1 r1] eqn:Hr. intros [= -> _ ->].
    apply (read_amounts (fun s t => val s (transferTraffic t) - val s (transferChequeTraffic t)) owed_at Traffic.TransferTraffic p s s' r) in Hr;
      try done.
    + destruct Hr as (H1 & H2 & H3 & H4 & H5). split; [|done]. split; [done|]. split; intros k; by apply of_peer_same.
    + intros s0 a t Ht. unfold owed_at. by rewrite Ht.
    + unfold Traffic.TransferTraffic, known_or, beneficiary, mbind, M_bind. cbn beta iota. destruct (Beneficiary (book s) p) as [a|]; [|done].
      by destruct (getTraffic a s) as [s0 [t|e]].
  - intros p [s n] [s' n'] r Hg. cbn [RetrieveTraffic traffic_settlement fst] in *. unfold on_service. cbn [fst snd].
    destruct (Traffic.RetrieveTraffic p s) as [s1 r1] eqn:Hr. intros [= -> _ ->].
    apply (read_amounts unpaid debt_at Traffic.RetrieveTraffic p s s' r) in Hr; try done.
    + destruct Hr as (H1 & H2 & H3 & H4 & H5). split; [|done]. split; [done|]. split; intros k; by apply of_peer_same.
    + intros s0 a t Ht. unfold debt_at. by rewrite Ht.
    + unfold Traffic.RetrieveTraffic, known_or, beneficiary, retrieveTraffic_, mbind, M_bind. cbn beta iota. destruct (Beneficiary (book s) p) as [a|]; [|done].
      by destruct (getTraffic a s) as [s0 [t|e]].
  - by intros [s n] [s' n'] r Hg [= <- _ _].
  - intros p x [s n] [s' n'] r Hg Hx. cbn [PutRetrieveTraffic traffic_settlement fst] in *. unfold on_service. cbn [fst snd].
    destruct (Traffic.PutRetrieveTraffic p x s) as [s1 r1] eqn:Hr. intros [= -> _ ->]. destruct (Beneficiary (book s) p) as [a|] eqn:Hb.
    + destruct (PutRetrieve_amounts s p a x s' r Hg Hx Hb Hr) as (H1 & H2 & H3 & H4 & H5). split_and!; [done|..].
      * intros k. by apply of_peer_same.
      * intros k Hk. by eapply of_peer_other.
      * left. rewrite !(of_peer_own _ _ p a); [done|done|by rewrite H2].
    + unfold Traffic.PutRetrieveTraffic, known_or, beneficiary, mbind, M_bind in Hr. cbn beta iota in Hr. rewrite Hb in Hr.
      injection Hr as <- <-. split_and!; try done. by right.
  - intros p x [s n] [s' n'] r Hg Hx. cbn [PutTransferTraffic traffic_settlement fst] in *. unfold on_service. cbn [fst snd].
    destruct (Traffic.PutTransferTraffic p x s) as [s1 r1] eqn:Hr. intros [= -> _ ->]. destruct (Beneficiary (book s) p) as [a|] eqn:Hb.
    + destruct (PutTransfer_amounts s p a x s' r Hg Hb Hr) as (H1 & H2 & H3 & H4 & H5). split_and!; [done|..].
      * intros k. by apply of_peer_same.
      * intros k Hk. by eapply of_peer_other.
      * left. rewrite !(of_peer_own _ _ p a); [done|done|by rewrite H2].
    + unfold Traffic.PutTransferTraffic, known_or, beneficiary, mbind, M_bind in Hr. cbn beta iota in Hr. rewrite Hb in Hr.
      injection Hr as <- <-. split_and!; try done. by right.
  - intros p th [s n] [s' n'] l r Hg Hth. cbn [Pay traffic_settlement fst snd] in *.
    destruct (Traffic.Pay (env n) p th s) as [s1 r1] eqn:Hr. intros [= -> _ <- ->]. destruct (Beneficiary (book s) p) as [a|] eqn:Hb.
    + destruct (Pay_amounts (env n) s p a th s' r Hg Hth Hb Hr) as (H1 & H2 & H3 & H4 & H5). split_and!; [done|..].
      * intros k. by apply of_peer_same.
      * intros k Hk. by eapply of_peer_other.
      * rewrite !(of_peer_own _ _ p a) by (done || by rewrite H2). destruct H5 as [(-> & ? & ?)|(-> & ? & ?)]; [left|right].
        { by rewrite drop_all. } by rewrite drop_app_length.
    + unfold Traffic.Pay, beneficiary, mbind, M_bind in Hr. cbn beta iota in Hr. rewrite Hb in Hr.
      assert (s' = s /\ r <> Ok tt) as [-> Hr1] by (destruct (Disconnect (env n) p); by injection Hr as <- <-).
      rewrite drop_all. split_and!; try done. by left.
Defined.

(** C7: with the traffic service as the settlement, every debt that reaches the
    payment threshold is paid by cheque: whatever the interleaving of retrievals,
    deliveries, payments and notifications, the node cannot come to a halt before
    all of them are finished, and if no payment and no write failed, then every
    peer's retrieved traffic is covered by cheques up to less than the threshold,
    and the accounting has exactly the uncovered rest down as unpaid. *)
Theorem traffic_settles tol thr (s : Service) reqs os c : tgood s -> 0 < thr -> (forall k, of_peer debt_at s k < thr) -> Forall request reqs ->
  steps (initial tol thr (s, 0%nat) reqs) os c ->
  (length os <= 7 * length reqs)%nat /\
  ((exists o c', step c o c') \/
   payChan c.1 = [] /\ Forall (fun th => finished th = true) c.2 /\
   (Forall (fun o => o = fine) os -> forall k, of_peer debt_at (sett c.1).1 k < thr /\
      forall ap, accountingPeers (acc c.1) !! k = Some ap -> unPaidTraffic ap = of_peer debt_at (sett c.1).1 k)).
Proof. exact (settles (SL := traffic_laws) tol thr (s, 0%nat) reqs os c). Qed.
End Instance.

(** ** Example *)

#[local] Existing Instance memory_store.
#[local] Existing Instance ts.
#[local] Existing Instance tc.
#[local] Existing Instance tz.
#[local] Existing Instance t_bytes.
#[local] Existing Instance traffic_settlement.

Lemma toy_tgood : tgood toy_service.
Proof.
  assert (H1 : map_Forall (fun _ t => (retrieveChequeTraffic t <> transferTraffic t /\ retrieveChequeTraffic t <> transferChequeTraffic t) /\
    0 <= unpaid toy_service t) (peers toy_service)) by (apply (bool_decide_unpack _); vm_compute; exact I).
  assert (H2 : map_Forall (fun k a => map_Forall (fun k' a' => a = a' -> k = k') (peerBeneficiary (book toy_service)))
    (peerBeneficiary (book toy_service))) by (apply (bool_decide_unpack _); vm_compute; exact I).
  split.
  - apply toy_inv.
  - intros a t Ht. by apply (H1 a t).
  - intros a. unfold debt_at. destruct (peers toy_service !! a) as [t|] eqn:Ht; [|done]. by apply (H1 a t).
  - intros k k' a Hk Hk'. by apply (H2 k a Hk k' a Hk').
Qed.

Definition node_start := initial (E := trafficError) 300 200 (toy_service, 0%nat) [CreditStart [7] 256].
Definition node_run := default ([], node_start)
  (@schedule _ _ (traffic_settlement (fun _ => toy_env true)) (map Some [0; 0; 0; 0]%nat ++ [None] ++ map Some [1; 1]%nat) node_start []).

Lemma node_steps : @steps _ _ (traffic_settlement (fun _ => toy_env true)) node_start node_run.1 node_run.2.
Proof.
  unfold node_run. destruct (schedule _ node_start []) as [r|] eqn:Hs; [|apply steps_refl].
  cbn [default]. eapply schedule_sound; [|exact Hs]. apply steps_refl.
Qed.

Lemma traffic_settles_witness : of_peer debt_at (sett node_run.2.1).1 (String [7]) < 200.
Proof.
  assert (Hfine : Forall (fun o => o = fine) node_run.1) by (vm_compute; repeat constructor).
  destruct (traffic_settles (fun _ => toy_env true) 300 200 toy_service [CreditStart [7] 256] node_run.1 node_run.2 toy_tgood ltac:(lia)) as [_ Hc].
  - intros k. unfold of_peer.
    assert (H1 : map_Forall (fun _ a => debt_at toy_service a < 200) (peerBeneficiary (book toy_service))) by (apply (bool_decide_unpack _); vm_compute; exact I).
    destruct (peerBeneficiary (book toy_service) !! k) as [a|] eqn:Hk; [by apply (H1 k a)|lia].
  - repeat constructor. cbn. lia.
  - exact node_steps.
  - destruct Hc as [(o & c & Hs)|(_ & _ & Hk)]; [|apply (Hk Hfine (String [7]))].
    exfalso. refine (finished_stuck node_run.2 o c _ _ Hs); [vm_compute; reflexivity|]. vm_compute. repeat constructor.
Defined.
