(* ===== verification/Pseudosettle.v ===== *)
(** * The settlement without cheques (pkg/settlement/pseudosettle/pseudosettle.go)

    The service that counts traffic per peer when cheques are switched off: its
    counters in memory and in the state store, their recovery at a restart, and
    the reports over the stored totals. *)

From Stdlib Require Import ZArith Lia ZifyBool.
From stdpp Require Import base gmap list numbers strings.
From S2P Require Import Prelude Boson StateStore Cheque AddressBook.

Open Scope Z_scope.

Definition SettlementReceivedPrefix : bytes := str "pseudosettle_total_received_".
Definition SettlementSentPrefix : bytes := str "pseudosettle_total_sent_".

Record trafficInfo := MkTrafficInfo {
  retrieveTraffic : Z;
  transferTraffic : Z;
}.

Definition newTraffic : trafficInfo := MkTrafficInfo 0 0.

Inductive pseudoError :=
| errKey
| errStore (e : storeError)
| errTrafficOff.

Definition totalKey (peer : Address) (prefix : bytes) : bytes := prefix ++ String peer.

Definition totalKeyPeer (key prefix : bytes) : result pseudoError Address :=
  match SplitAfter key prefix with
  | [_; a] => match ParseHexAddress a with Ok peer => Ok peer | Err _ => Err errKey end
  | _ => Err errKey
  end.

Section Service.
Context {S V : Type} `{ST : StateStorer S V} `{CZ : Codec Z V}.

(** [trafficInfo] is keyed by the hexadecimal name of the peer. *)
Record Service := MkService {
  pstore : S;
  info : gmap bytes trafficInfo;
}.

Definition New (store : S) : Service := MkService store ∅.

Definition set_info (s : Service) (m : gmap bytes trafficInfo) : Service := MkService (pstore s) m.
Definition set_pstore (s : Service) (st : S) : Service := MkService st (info s).

Definition from_store {A} (r : result storeError A) : result pseudoError A :=
  match r with Ok a => Ok a | Err e => Err (errStore e) end.

Definition putRetrieveTraffic (s : Service) (peer : Address) (traffic : Z) : Service * Z :=
  let localTraffic :=
    match info s !! String peer with
    | Some t => MkTrafficInfo (retrieveTraffic t + traffic) (transferTraffic t)
    | None => MkTrafficInfo traffic (transferTraffic newTraffic)
    end in
  (set_info s (<[String peer := localTraffic]> (info s)), retrieveTraffic localTraffic).

Definition putTransferTraffic (s : Service) (peer : Address) (traffic : Z) : Service * Z :=
  let localTraffic :=
    match info s !! String peer with
    | Some t => MkTrafficInfo (retrieveTraffic t) (transferTraffic t + traffic)
    | None => MkTrafficInfo (retrieveTraffic newTraffic) traffic
    end in
  (set_info s (<[String peer := localTraffic]> (info s)), transferTraffic localTraffic).

(** The counter in memory is raised also if the store fails. *)
Definition PutRetrieveTraffic (s : Service) (peer : Address) (traffic : Z) : Service * result pseudoError unit :=
  let '(s, total) := putRetrieveTraffic s peer traffic in
  match Put (pstore s) (totalKey peer SettlementReceivedPrefix) total with
  | Ok st => (set_pstore s st, Ok tt)
  | Err e => (s, Err (errStore e))
  end.

Definition PutTransferTraffic (s : Service) (peer : Address) (traffic : Z) : Service * result pseudoError unit :=
  let '(s, total) := putTransferTraffic s peer traffic in
  match Put (pstore s) (totalKey peer SettlementSentPrefix) total with
  | Ok st => (set_pstore s st, Ok tt)
  | Err e => (s, Err (errStore e))
  end.

Definition load (put : Service -> Address -> Z -> Service * Z) (prefix : bytes) (s : Service) (key : bytes) :
    result pseudoError (Service * bool) :=
  addr ← totalKeyPeer key prefix;
  t ← from_store (Get (pstore s) key);
  Ok ((put s addr t).1, false).

Definition Init (s : Service) : result pseudoError Service :=
  s ← Iterate (pstore s) SettlementReceivedPrefix (load putRetrieveTraffic SettlementReceivedPrefix) s;
  Iterate (pstore s) SettlementSentPrefix (load putTransferTraffic SettlementSentPrefix) s.

Definition stored_total (s : Service) (key : bytes) : result pseudoError Z :=
  match Get (pstore s) key with
  | Ok total => Ok total
  | Err e => if decide (e = ErrNotFound) then Ok 0 else Err (errStore e)
  end.

Definition TotalSent (s : Service) (peer : Address) : result pseudoError Z := stored_total s (totalKey peer SettlementSentPrefix).
Definition TotalReceived (s : Service) (peer : Address) : result pseudoError Z := stored_total s (totalKey peer SettlementReceivedPrefix).

Definition report (s : Service) (prefix : bytes) (m : gmap bytes Z) (key : bytes) : result pseudoError (gmap bytes Z * bool) :=
  addr ← totalKeyPeer key prefix;
  match m !! String addr with
  | Some _ => Ok (m, false)
  | None => z ← from_store (Get (pstore s) (totalKey addr prefix)); Ok (<[String addr := z]> m, false)
  end.

Definition SettlementsSent (s : Service) : result pseudoError (gmap bytes Z) :=
  Iterate (pstore s) SettlementSentPrefix (report s SettlementSentPrefix) ∅.

(** The test of the prefix stops the iteration. *)
Definition report_received (s : Service) (m : gmap bytes Z) (key : bytes) : result pseudoError (gmap bytes Z * bool) :=
  if decide (SettlementReceivedPrefix `prefix_of` key) then report s SettlementReceivedPrefix m key else Ok (m, true).

Definition SettlementsReceived (s : Service) : result pseudoError (gmap bytes Z) :=
  Iterate (pstore s) SettlementReceivedPrefix (report_received s) ∅.

(** The constant answers to the accounting; a payment calls the notification
    function with the threshold. *)
Definition Pay (peer : Address) (paymentThreshold : Z) : Address * Z := (peer, paymentThreshold).
Definition TransferTraffic (peer : Address) : Z := 0.
Definition RetrieveTraffic (peer : Address) : Z := 256.
Definition AvailableBalance : Z := 256 * 4 * 33.
Definition Balance : Z := 0.
Definition GetPeerBalance (peer : Address) : Z := 256 * 4 * 33.
Definition GetUnPaidBalance (peer : Address) : Z := 0.

(** ** Restart *)

Lemma totalKeyPeer_key peer prefix : bytes_ok peer -> 95 ∈ prefix -> totalKeyPeer (totalKey peer prefix) prefix = Ok peer.
Proof.
  intros Hp Hu. unfold totalKeyPeer, totalKey. rewrite (SplitAfter_key _ _ 95); [|done|by apply hex_no_underscore].
  unfold ParseHexAddress, String. by rewrite DecodeString_Encode.
Qed.

Lemma totalKey_inj p q prefix : bytes_ok p -> bytes_ok q -> totalKey p prefix = totalKey q prefix -> p = q.
Proof. intros Hp Hq E. apply app_inv_head in E. by apply EncodeToString_inj. Qed.

Lemma prefixes_differ p q : totalKey p SettlementReceivedPrefix <> totalKey q SettlementSentPrefix.
Proof. intros E. by apply (f_equal (fun l => l !! 19%nat)) in E. Qed.

Lemma not_received_prefix q : ~ SettlementReceivedPrefix `prefix_of` totalKey q SettlementSentPrefix.
Proof. intros [x E]. by apply (f_equal (fun l => l !! 19%nat)) in E. Qed.

Lemma not_sent_prefix q : ~ SettlementSentPrefix `prefix_of` totalKey q SettlementReceivedPrefix.
Proof. intros [x E]. by apply (f_equal (fun l => l !! 19%nat)) in E. Qed.

Definition stored (st : S) (k : bytes) : option Z := match Get st k with Ok z => Some z | Err _ => None end.

(** The counters of a peer with these stored totals. *)
Definition entry (received sent : option Z) : option trafficInfo :=
  match received, sent with
  | None, None => None
  | _, _ => Some (MkTrafficInfo (default 0 received) (default 0 sent))
  end.

Definition keys_ok (st : S) (prefix : bytes) : Prop :=
  forall k, k ∈ skeys st prefix -> exists p (z : Z), bytes_ok p /\ k = totalKey p prefix /\ Get st k = Ok z.

Record mirrored (s : Service) : Prop := {
  m_received : keys_ok (pstore s) SettlementReceivedPrefix;
  m_sent : keys_ok (pstore s) SettlementSentPrefix;
  m_info p : bytes_ok p -> info s !! String p =
    entry (stored (pstore s) (totalKey p SettlementReceivedPrefix)) (stored (pstore s) (totalKey p SettlementSentPrefix));
}.

(** What both puts do to the counters in memory. *)
Definition bumps (put : Service -> Address -> Z -> Service * Z) (bump : Z -> trafficInfo -> trafficInfo) : Prop :=
  forall s p x, (put s p x).1 = set_info s (<[String p := bump x (default newTraffic (info s !! String p))]> (info s)).

Definition bump_received (x : Z) (t : trafficInfo) : trafficInfo := MkTrafficInfo (retrieveTraffic t + x) (transferTraffic t).
Definition bump_sent (x : Z) (t : trafficInfo) : trafficInfo := MkTrafficInfo (retrieveTraffic t) (transferTraffic t + x).

Lemma putRetrieveTraffic_bumps : bumps putRetrieveTraffic bump_received.
Proof. intros s p x. unfold putRetrieveTraffic. by destruct (info s !! String p). Qed.

Lemma putTransferTraffic_bumps : bumps putTransferTraffic bump_sent.
Proof. intros s p x. unfold putTransferTraffic. by destruct (info s !! String p). Qed.

Lemma stored_keys st prefix p : keys_ok st prefix ->
  (totalKey p prefix ∈ skeys st prefix) /\ (exists z, stored st (totalKey p prefix) = Some z) \/
  (totalKey p prefix ∉ skeys st prefix) /\ stored st (totalKey p prefix) = None.
Proof.
  intros Hk. unfold stored. destruct (decide (totalKey p prefix ∈ skeys st prefix)) as [Hd|Hd].
  - left. split; [done|]. destruct (Hk _ Hd) as (_ & z & _ & _ & ->). by exists z.
  - right. split; [done|]. unfold Get. destruct (sget st (totalKey p prefix)) as [v|e] eqn:Hg; [|done].
    destruct Hd. apply skeys_spec. split; [by eexists|]. by rewrite Hg.
Qed.

Lemma load_all put bump prefix s ks : bumps put bump -> 95 ∈ prefix -> NoDup ks ->
  (forall k, k ∈ ks -> exists p (z : Z), bytes_ok p /\ k = totalKey p prefix /\ Get (pstore s) k = Ok z) ->
  exists m, iterate_keys (load put prefix) s ks = Ok (set_info s m) /\
    forall p, bytes_ok p -> m !! String p = if decide (totalKey p prefix ∈ ks)
      then Some (bump (default 0 (stored (pstore s) (totalKey p prefix))) (default newTraffic (info s !! String p))) else info s !! String p.
Proof.
  intros Hput Hu Hnd. revert s. induction Hnd as [|k ks Hnk _ IH]; intros s Hk; cbn [iterate_keys].
  { exists (info s). split; [by destruct s|]. intros p _. by rewrite decide_False by apply not_elem_of_nil. }
  destruct (Hk k ltac:(left)) as (q & z & Hq & -> & Hg). 
  assert (El : load put prefix s (totalKey q prefix) = Ok ((put s q z).1, false)).
  { unfold load. rewrite totalKeyPeer_key by done. cbn [mbind result_bind]. by rewrite Hg. }
  rewrite El, Hput. cbn [mbind result_bind]. set (s1 := set_info s _).
  destruct (IH s1) as (m & -> & Hm); [intros k Hin; apply Hk; by right|]. exists m. split; [done|]. intros p Hp. rewrite Hm by done.
  change (pstore s1) with (pstore s). destruct (decide (p = q)) as [->|Hne].
  - rewrite (decide_True (P := _ ∈ _ :: _)) by (by left). rewrite decide_False by done. unfold s1. cbn [info set_info].
    rewrite lookup_insert_eq. unfold stored. by rewrite Hg.
  - assert (Hi : info s1 !! String p = info s !! String p).
    { unfold s1. cbn [info set_info]. apply lookup_insert_ne. intros E. by apply Hne, EncodeToString_inj. }
    rewrite Hi. apply decide_ext. rewrite elem_of_cons. split; [by right|]. intros [E|?]; [|done]. by apply totalKey_inj in E.
Qed.

Lemma Init_mirrored st : keys_ok st SettlementReceivedPrefix -> keys_ok st SettlementSentPrefix ->
  exists s, Init (New st) = Ok s /\ pstore s = st /\ mirrored s.
Proof.
  intros K1 K2. unfold Init, Iterate.
  destruct (load_all _ _ SettlementReceivedPrefix (New st) (skeys st SettlementReceivedPrefix) putRetrieveTraffic_bumps) as (m1 & E1 & M1);
    [cbn; set_solver|apply skeys_NoDup|exact K1|].
  cbn [pstore New] in *. rewrite E1. cbn [mbind result_bind pstore set_info New].
  destruct (load_all _ _ SettlementSentPrefix (set_info (New st) m1) (skeys st SettlementSentPrefix) putTransferTraffic_bumps) as (m2 & E2 & M2);
    [cbn; set_solver|apply skeys_NoDup|exact K2|].
  change (MkService st m1) with (set_info (New st) m1). rewrite E2. eexists. split; [done|]. split; [done|]. split; [exact K1|exact K2|].
  intros p Hp. cbn [info pstore set_info New] in *. rewrite M2, M1, lookup_empty by done.
  destruct (stored_keys st _ p K1) as [[D1 [z1 ->]]|[D1 ->]], (stored_keys st _ p K2) as [[D2 [z2 ->]]|[D2 ->]];
    rewrite ?(decide_True (P := _ ∈ skeys st SettlementReceivedPrefix)), ?(decide_True (P := _ ∈ skeys st SettlementSentPrefix)),
      ?(decide_False (P := _ ∈ skeys st SettlementReceivedPrefix)), ?(decide_False (P := _ ∈ skeys st SettlementSentPrefix)) by done; done.
Qed.

Lemma Put_keys st k (z : Z) st' prefix : Put st k z = Ok st' -> keys_ok st prefix ->
  (prefix `prefix_of` k -> exists p, bytes_ok p /\ k = totalKey p prefix) -> keys_ok st' prefix.
Proof.
  intros HP Hk Hnew k' [Hpre Hin]%skeys_spec. destruct (decide (k' = k)) as [->|Hne].
  - destruct (Hnew Hpre) as (p & Hp & E). exists p, z. by rewrite (Get_Put _ _ _ _ HP).
  - rewrite (sget_put _ _ _ _ k' HP), decide_False in Hin by done. destruct (Hk k') as (p & z' & Hp & E & Hg); [by apply skeys_spec|].
    exists p, z'. by rewrite (Get_Put_ne _ _ _ _ _ HP Hne).
Qed.

Lemma Put_stored st k (z : Z) st' k' : Put st k z = Ok st' -> stored st' k' = if decide (k' = k) then Some z else stored st k'.
Proof.
  intros HP. unfold stored. case_decide as Hd; [subst; by rewrite (Get_Put _ _ _ _ HP)|]. by rewrite (Get_Put_ne _ _ _ _ _ HP Hd).
Qed.

Lemma PutRetrieve_mirrored s p x s' : bytes_ok p -> mirrored s -> PutRetrieveTraffic s p x = (s', Ok tt) -> mirrored s'.
Proof.
  intros Hp [M1 M2 M3]. unfold PutRetrieveTraffic. pose proof (putRetrieveTraffic_bumps s p x) as Hb.
  destruct (putRetrieveTraffic s p x) as [s1 total] eqn:E1. cbn [fst] in Hb. subst s1.
  destruct (Put _ _ total) as [st|e] eqn:EP; [|done]. intros [= <-]. cbn [pstore set_info] in EP.
  split; cbn [pstore set_pstore].
  - apply (Put_keys _ _ _ _ _ EP M1). intros _. by exists p.
  - apply (Put_keys _ _ _ _ _ EP M2). intros Hpre. by apply not_sent_prefix in Hpre.
  - intros q Hq. cbn [info set_info set_pstore]. rewrite !(Put_stored _ _ _ _ _ EP).
    rewrite (decide_False (P := totalKey q SettlementSentPrefix = _)) by apply not_eq_sym, prefixes_differ.
    destruct (decide (q = p)) as [->|Hne].
    + rewrite decide_True by done. rewrite lookup_insert_eq. unfold putRetrieveTraffic in E1. injection E1 as _ <-. specialize (M3 p Hp).
      rewrite M3. by destruct (stored (pstore s) (totalKey p SettlementReceivedPrefix)), (stored (pstore s) (totalKey p SettlementSentPrefix)).
    + rewrite decide_False by (intros E; by apply totalKey_inj in E). rewrite lookup_insert_ne; [by apply M3|].
      intros E. by apply Hne, EncodeToString_inj.
Qed.

Lemma PutTransfer_mirrored s p x s' : bytes_ok p -> mirrored s -> PutTransferTraffic s p x = (s', Ok tt) -> mirrored s'.
Proof.
  intros Hp [M1 M2 M3]. unfold PutTransferTraffic. pose proof (putTransferTraffic_bumps s p x) as Hb.
  destruct (putTransferTraffic s p x) as [s1 total] eqn:E1. cbn [fst] in Hb. subst s1.
  destruct (Put _ _ total) as [st|e] eqn:EP; [|done]. intros [= <-]. cbn [pstore set_info] in EP.
  split; cbn [pstore set_pstore].
  - apply (Put_keys _ _ _ _ _ EP M1). intros Hpre. by apply not_received_prefix in Hpre.
  - apply (Put_keys _ _ _ _ _ EP M2). intros _. by exists p.
  - intros q Hq. cbn [info set_info set_pstore]. rewrite !(Put_stored _ _ _ _ _ EP).
    rewrite (decide_False (P := totalKey q SettlementReceivedPrefix = _)) by apply prefixes_differ.
    destruct (decide (q = p)) as [->|Hne].
    + rewrite decide_True by done. rewrite lookup_insert_eq. unfold putTransferTraffic in E1. injection E1 as _ <-. specialize (M3 p Hp).
      rewrite M3. by destruct (stored (pstore s) (totalKey p SettlementReceivedPrefix)), (stored (pstore s) (totalKey p SettlementSentPrefix)).
    + rewrite decide_False by (intros E; by apply totalKey_inj in E). rewrite lookup_insert_ne; [by apply M3|].
      intros E. by apply Hne, EncodeToString_inj.
Qed.

(** A call of [PutRetrieveTraffic] or, if [sent], of [PutTransferTraffic]. *)
Definition put_traffic (s : Service) (sent : bool) (peer : Address) (traffic : Z) : Service * result pseudoError unit :=
  if sent then PutTransferTraffic s peer traffic else PutRetrieveTraffic s peer traffic.

Fixpoint put_traffics (s : Service) (l : list (bool * Address * Z)) : Service * result pseudoError unit :=
  match l with
  | [] => (s, Ok tt)
  | (sent, peer, traffic) :: l =>
      match put_traffic s sent peer traffic with
      | (s, Ok _) => put_traffics s l
      | (s, Err e) => (s, Err e)
      end
  end.

Lemma put_traffics_mirrored l : forall s s', Forall (fun e => bytes_ok e.1.2) l -> mirrored s -> put_traffics s l = (s', Ok tt) -> mirrored s'.
Proof.
  induction l as [|[[sent p] x] l IH]; intros s s' Hl Hm; cbn [put_traffics]; [by intros [= <-]|].
  apply Forall_cons_1 in Hl as [Hp Hl]. cbn [fst snd] in Hp. destruct (put_traffic s sent p x) as [s1 [[]|e]] eqn:E1; [|done].
  apply IH; [done|]. destruct sent; [by eapply PutTransfer_mirrored|by eapply PutRetrieve_mirrored].
Qed.

(** The counters survive a restart: after any sequence of successful calls
    on a service over an empty store, a new service initialised from the store
    has the same counters for every peer, and the reported totals are these
    counters. *)
Theorem pseudosettle_restart st l s : skeys st SettlementReceivedPrefix = [] -> skeys st SettlementSentPrefix = [] ->
  Forall (fun e => bytes_ok e.1.2) l -> put_traffics (New st) l = (s, Ok tt) ->
  exists s', Init (New (pstore s)) = Ok s' /\ forall p, bytes_ok p -> info s' !! String p = info s !! String p /\
    TotalReceived s p = Ok (retrieveTraffic (default newTraffic (info s !! String p))) /\
    TotalSent s p = Ok (transferTraffic (default newTraffic (info s !! String p))).
Proof.
  intros K1 K2 Hl E. assert (Hk : forall prefix, skeys st prefix = [] -> keys_ok st prefix).
  { intros prefix Hp k Hin. rewrite Hp in Hin. by apply not_elem_of_nil in Hin. }
  assert (Hnew : mirrored (New st)).
  { split; cbn [pstore info New]; [by apply Hk|by apply Hk|]. intros p Hp. rewrite lookup_empty.
    destruct (stored_keys st _ p (Hk _ K1)) as [[D _]|[_ ->]]; [rewrite K1 in D; by apply not_elem_of_nil in D|].
    destruct (stored_keys st _ p (Hk _ K2)) as [[D _]|[_ ->]]; [rewrite K2 in D; by apply not_elem_of_nil in D|done]. }
  pose proof (put_traffics_mirrored l _ _ Hl Hnew E) as [M1 M2 M3].
  destruct (Init_mirrored (pstore s) M1 M2) as (s' & Ei & Es & [_ _ M3']). exists s'. split; [done|]. intros p Hp.
  rewrite M3', Es, M3 by done. split; [done|].
  assert (Ht : forall prefix, keys_ok (pstore s) prefix -> stored_total s (totalKey p prefix) = Ok (default 0 (stored (pstore s) (totalKey p prefix)))).
  { intros prefix Hkk. unfold stored_total, stored. destruct (Get (pstore s) (totalKey p prefix)) as [z|e] eqn:Hg; [done|].
    rewrite decide_True; [done|]. unfold Get in Hg. destruct (sget (pstore s) (totalKey p prefix)) as [v|e'] eqn:Hs; [|].
    - destruct (Hkk (totalKey p prefix)) as (? & ? & _ & _ & Hg'); [apply skeys_spec; split; [by eexists|by rewrite Hs]|].
      unfold Get in Hg'. rewrite Hs in Hg'. congruence.
    - cbn in Hg. injection Hg as ->. destruct (decide (e = ErrNotFound)) as [|Hne]; [done|].
      destruct (Hkk (totalKey p prefix)) as (? & ? & _ & _ & Hg'); [apply skeys_spec; split; [by eexists|rewrite Hs; congruence]|].
      unfold Get in Hg'. by rewrite Hs in Hg'. }
  unfold TotalReceived, TotalSent. rewrite !Ht by done.
  by destruct (stored (pstore s) (totalKey p SettlementReceivedPrefix)), (stored (pstore s) (totalKey p SettlementSentPrefix)).
Qed.
End Service.

#[refine] Definition z_codec : Codec Z Z := {| marshal x := x; unmarshal x := Some x |}.
Proof. done. Defined.

#[local] Existing Instance memory_store.
#[local] Existing Instance z_codec.

Lemma pseudosettle_restart_witness :
  let s := (put_traffics (New (∅ : gmap bytes Z)) [(false, [1], 5); (true, [2], 7); (false, [1], 6)]).1 in
  exists s', Init (New (pstore s)) = Ok s' /\ info s' !! String [1] = Some (MkTrafficInfo 11 0).
Proof.
  set (l := [(false, [1], 5); (true, [2], 7); (false, [1], 6)]). cbv zeta.
  destruct (pseudosettle_restart (∅ : gmap bytes Z) l (put_traffics (New ∅) l).1) as (s' & E & Hi).
  - vm_compute. reflexivity.
  - vm_compute. reflexivity.
  - repeat (constructor; [repeat constructor; cbn; lia|]). constructor.
  - assert (E2 : (put_traffics (New (∅ : gmap bytes Z)) l).2 = Ok tt) by (vm_compute; reflexivity). rewrite <- E2. apply surjective_pairing.
  - exists s'. split; [exact E|]. destruct (Hi [1]) as [H1 _]; [repeat constructor; cbn; lia|]. etransitivity; [exact H1|]. vm_compute. reflexivity.
Defined.
