(* ===== verification/BitVector.v ===== *)
(** * Bit vectors (pkg/bitvector/bitvector.go)

    Bytes with a length in bits, as the code has them: bit [i] is bit [i mod 8],
    counted from the least significant one, of byte [i / 8].  An index outside
    the bytes is a run-time panic, the error [panicIndex]. *)

From Stdlib Require Import ZArith Lia ZifyBool.
From stdpp Require Import base gmap list numbers.
From S2P Require Import Prelude.

Open Scope Z_scope.

Inductive bitError :=
| errInvalidLength
| panicIndex.

Record BitVector := MkBits {
  bvLen : Z;
  b : bytes;
}.

Definition Len (bv : BitVector) : Z := bvLen bv.
Definition Bytes (bv : BitVector) : bytes := b bv.

Definition NewFromBytes (bs : bytes) (l : Z) : result bitError BitVector :=
  if l <=? 0 then Err errInvalidLength
  else if zlen bs * 8 <? l then Err errInvalidLength
  else Ok (MkBits l bs).

(** [make] panics for a negative length. *)
Definition New (l : Z) : result bitError BitVector :=
  let length := if (Z.rem l 8 =? 0) && negb (l =? 0) then Z.quot l 8 else Z.quot l 8 + 1 in
  if length <? 0 then Err panicIndex else NewFromBytes (replicate (Z.to_nat length) 0) l.

(** [0x1 << uint(i%8)] as a byte: zero if the remainder is negative, which as an
    unsigned number is a huge shift. *)
Definition mask (i : Z) : Z := if Z.rem i 8 <? 0 then 0 else Z.shiftl 1 (Z.rem i 8).

Definition byte_at (bs : bytes) (i : Z) : option Z :=
  if Z.quot i 8 <? 0 then None else bs !! Z.to_nat (Z.quot i 8).

Definition Get (bv : BitVector) (i : Z) : result bitError bool :=
  match byte_at (b bv) i with
  | Some x => Ok (negb (Z.land x (mask i) =? 0))
  | None => Err panicIndex
  end.

Definition set (bv : BitVector) (i : Z) (v : bool) : result bitError BitVector :=
  cv ← Get bv i;
  if eqb cv v then Ok bv
  else match byte_at (b bv) i with
    | Some x => Ok (MkBits (bvLen bv) (<[Z.to_nat (Z.quot i 8) := Z.lxor x (mask i)]> (b bv)))
    | None => Err panicIndex
    end.

Definition Set_ (bv : BitVector) (i : Z) : result bitError BitVector := set bv i true.
Definition Unset (bv : BitVector) (i : Z) : result bitError BitVector := set bv i false.

(** The loop of [SetBytes] and [UnsetBytes], [n] bits from [i] on. *)
Fixpoint set_loop (n : nat) (i : Z) (bs : bytes) (v : bool) (bv : BitVector) : result bitError BitVector :=
  match n with
  | O => Ok bv
  | S n =>
      match byte_at bs i with
      | Some x => bv ← (if 0 <? Z.land x (mask i) then set bv i v else Ok bv); set_loop n (i + 1) bs v bv
      | None => Err panicIndex
      end
  end.

Definition SetBytes (bv : BitVector) (bs : bytes) : result bitError BitVector :=
  if zlen (b bv) <? zlen bs then Err errInvalidLength else set_loop (8 * length bs) 0 bs true bv.

Definition UnsetBytes (bv : BitVector) (bs : bytes) : result bitError BitVector :=
  if zlen (b bv) <? zlen bs then Err errInvalidLength else set_loop (8 * length bs) 0 bs false bv.

(** The digits of [String], as booleans. *)
Fixpoint digits (n : nat) (i : Z) (bv : BitVector) : result bitError (list bool) :=
  match n with
  | O => Ok []
  | S n => x ← Get bv i; xs ← digits n (i + 1) bv; Ok (x :: xs)
  end.

Definition String (bv : BitVector) : result bitError (list bool) := digits (8 * length (b bv)) 0 bv.

(** The bits below [n] of a byte are all set. *)
Fixpoint low_bits (n : nat) (x : Z) : bool :=
  match n with
  | O => true
  | S n => if Z.land x (Z.shiftl 1 (Z.of_nat n mod 8)) =? 0 then false else low_bits n x
  end.

Fixpoint equals_from (bs : bytes) (rest : nat) : bool :=
  match bs with
  | [] => true
  | x :: bs =>
      if negb (rest =? 0)%nat && match bs with [] => true | _ => false end then low_bits rest x
      else if negb (x =? 255) then false
      else equals_from bs rest
  end.

Definition Equals (bv : BitVector) : bool := equals_from (b bv) (Z.to_nat (bvLen bv mod 8)).

(** ** Bits *)

Definition bit (bs : bytes) (i : nat) : bool := Z.testbit (default 0 (bs !! (i / 8)%nat)) (Z.of_nat (i mod 8)).

Definition wf (bv : BitVector) : Prop := 0 < bvLen bv <= zlen (b bv) * 8 /\ bytes_ok (b bv).

Lemma mask_nat i : mask (Z.of_nat i) = Z.shiftl 1 (Z.of_nat (i mod 8)).
Proof.
  unfold mask. rewrite Z.rem_mod_nonneg by lia. rewrite Nat2Z.inj_mod. change (Z.of_nat 8) with 8.
  pose proof (Z.mod_pos_bound (Z.of_nat i) 8). case_match; [lia|done].
Qed.

Lemma quot_nat i : Z.quot (Z.of_nat i) 8 = Z.of_nat (i / 8).
Proof. rewrite Z.quot_div_nonneg by lia. by rewrite Nat2Z.inj_div. Qed.

Lemma byte_at_nat bs i : byte_at bs (Z.of_nat i) = bs !! (i / 8)%nat.
Proof. unfold byte_at. rewrite quot_nat. case_match; [lia|]. by rewrite Nat2Z.id. Qed.

Lemma land_shift x j : 0 <= j -> (Z.land x (Z.shiftl 1 j) =? 0) = negb (Z.testbit x j).
Proof.
  intros Hj. apply eq_iff_eq_true. rewrite Z.eqb_eq, negb_true_iff. split.
  - intros E. apply (f_equal (fun z => Z.testbit z j)) in E. rewrite Z.land_spec, Z.shiftl_spec, Z.sub_diag, Z.bits_0 in E by lia.
    by rewrite andb_true_r in E.
  - intros E. apply Z.bits_inj'. intros k Hk. rewrite Z.land_spec, Z.shiftl_spec, Z.bits_0 by lia.
    destruct (decide (k = j)) as [->|Hne]; [by rewrite E|]. destruct (Z.lt_ge_cases k j).
    + rewrite (Z.testbit_neg_r 1) by lia. apply andb_false_r.
    + rewrite (Z.bits_above_log2 1) by (change (Z.log2 1) with 0 || idtac; lia). apply andb_false_r.
Qed.

Lemma Get_bit bv i : (i < 8 * length (b bv))%nat -> Get bv (Z.of_nat i) = Ok (bit (b bv) i).
Proof.
  intros Hi. unfold Get, bit. rewrite byte_at_nat, mask_nat.
  destruct (lookup_lt_is_Some_2 (b bv) (i / 8)) as [x Hx]; [apply Nat.Div0.div_lt_upper_bound; lia|]. rewrite Hx. cbn [default].
  rewrite land_shift by lia. by rewrite negb_involutive.
Qed.

Lemma bit_out bs i : (8 * length bs <= i)%nat -> bit bs i = false.
Proof.
  intros Hi. unfold bit. rewrite (proj2 (lookup_ge_None bs (i / 8))); [apply Z.bits_0|]. apply Nat.div_le_lower_bound; lia.
Qed.

(** A bit of a byte flipped. *)
Lemma lxor_shift x j k : 0 <= j -> 0 <= k -> Z.testbit (Z.lxor x (Z.shiftl 1 j)) k = xorb (Z.testbit x k) (j =? k).
Proof.
  intros Hj Hk. rewrite Z.lxor_spec. f_equal. rewrite Z.shiftl_spec by lia. destruct (Z.eqb_spec j k) as [->|Hne]; [by rewrite Z.sub_diag|].
  destruct (Z.lt_ge_cases k j); [by rewrite Z.testbit_neg_r by lia|]. rewrite (Z.bits_above_log2 1) by (change (Z.log2 1) with 0 || idtac; lia). done.
Qed.

Lemma set_bit bv i v : (i < 8 * length (b bv))%nat -> bytes_ok (b bv) -> exists bs, set bv (Z.of_nat i) v = Ok (MkBits (bvLen bv) bs) /\
  length bs = length (b bv) /\ bytes_ok bs /\ forall k, bit bs k = if decide (k = i) then v else bit (b bv) k.
Proof.
  intros Hi Hok. unfold set. rewrite Get_bit by done. cbn [mbind result_bind].
  destruct (eqb (bit (b bv) i) v) eqn:He.
  { apply eqb_prop in He. exists (b bv). destruct bv as [l bs]. split_and!; try done. intros k. case_decide; [by subst k|done]. }
  rewrite byte_at_nat, quot_nat, Nat2Z.id, mask_nat.
  destruct (lookup_lt_is_Some_2 (b bv) (i / 8)) as [x Hx]; [apply Nat.Div0.div_lt_upper_bound; lia|]. rewrite Hx. cbn [bvLen].
  pose proof (Nat.mod_upper_bound i 8 ltac:(lia)) as Hm. eexists. split; [done|]. split; [apply length_insert|]. split.
  - apply Forall_insert; [done|]. pose proof (Forall_lookup_1 _ _ _ _ Hok Hx) as Hb. apply is_byte_lxor; [done|].
    unfold is_byte. rewrite Z.shiftl_1_l. split; [apply Z.pow_nonneg; lia|]. change 256 with (2 ^ 8). apply Z.pow_lt_mono_r; lia.
  - intros k. unfold bit. destruct (decide (k / 8 = i / 8)%nat) as [Hk|Hk].
    + rewrite Hk, list_lookup_insert_eq by (by eapply lookup_lt_Some). rewrite Hx. cbn [default]; unfold id. rewrite lxor_shift by lia.
      assert (Hki : k = i <-> (k mod 8)%nat = (i mod 8)%nat).
      { split; [by intros ->|]. intros E. rewrite (Nat.div_mod_eq k 8), (Nat.div_mod_eq i 8). lia. }
      unfold bit in He. rewrite Hx in He. cbn [default] in He. unfold id in He. case_decide as Hd.
      * subst k. rewrite Z.eqb_refl. by destruct (Z.testbit x (Z.of_nat (i mod 8))), v.
      * rewrite (proj2 (Z.eqb_neq _ _)) by (rewrite Nat2Z.inj_iff; naive_solver). apply xorb_false_r.
    + rewrite list_lookup_insert_ne by done. rewrite decide_False by (by intros ->). done.
Qed.

Lemma set_loop_bits n : forall i bs v bv, (i + n <= 8 * length bs)%nat -> (length bs <= length (b bv))%nat -> bytes_ok (b bv) -> bytes_ok bs ->
  exists bs', set_loop n (Z.of_nat i) bs v bv = Ok (MkBits (bvLen bv) bs') /\ length bs' = length (b bv) /\ bytes_ok bs' /\
    forall k, bit bs' k = if decide ((i <= k < i + n)%nat /\ bit bs k = true) then v else bit (b bv) k.
Proof.
  induction n as [|n IH]; intros i bs v bv Hn Hl Hok Hbs; cbn [set_loop].
  { exists (b bv). split; [by destruct bv|]. split_and!; try done. intros k. rewrite decide_False by lia. done. }
  rewrite byte_at_nat, mask_nat. destruct (lookup_lt_is_Some_2 bs (i / 8)) as [x Hx]; [apply Nat.Div0.div_lt_upper_bound; lia|]. rewrite Hx.
  assert (Hbit : (0 <? Z.land x (Z.shiftl 1 (Z.of_nat (i mod 8)))) = bit bs i).
  { unfold bit. rewrite Hx. cbn [default]. unfold id. pose proof (land_shift x (Z.of_nat (i mod 8)) ltac:(lia)) as Hs.
    pose proof (Forall_lookup_1 _ _ _ _ Hbs Hx) as [Hx0 _].
    pose proof (proj2 (Z.land_nonneg x (Z.shiftl 1 (Z.of_nat (i mod 8)))) (or_introl Hx0)). 
    destruct (Z.testbit x (Z.of_nat (i mod 8))); cbn [negb] in Hs; lia. }
  rewrite Hbit. replace (Z.of_nat i + 1) with (Z.of_nat (i + 1)) by lia.
  destruct (bit bs i) eqn:Hb.
  - destruct (set_bit bv i v) as (bs1 & -> & L1 & O1 & B1); [lia|done|]. cbn [mbind result_bind].
    destruct (IH (i + 1)%nat bs v (MkBits (bvLen bv) bs1)) as (bs2 & -> & L2 & O2 & B2); cbn [b]; try done; [lia|lia|].
    cbn [b] in L2. exists bs2. split_and!; try done; [congruence|]. intros k. rewrite B2. cbn [b]. rewrite B1.
    destruct (decide (k = i)) as [->|Hne].
    + rewrite decide_False by lia. rewrite decide_True by (split; [lia|done]). done.
    + apply decide_ext. lia.
  - cbn [mbind result_bind].
    destruct (IH (i + 1)%nat bs v bv) as (bs2 & -> & L2 & O2 & B2); try done; [lia|].
    exists bs2. split_and!; try done. intros k. rewrite B2. apply decide_ext.
    destruct (decide (k = i)) as [->|Hne]; [rewrite Hb; naive_solver lia|lia].
Qed.

Lemma SetBytes_bits bv bs : bytes_ok (b bv) -> bytes_ok bs -> (length bs <= length (b bv))%nat ->
  exists bs', SetBytes bv bs = Ok (MkBits (bvLen bv) bs') /\ length bs' = length (b bv) /\ bytes_ok bs' /\
    forall k, bit bs' k = bit (b bv) k || bit bs k.
Proof.
  intros Hok Hbs Hl. unfold SetBytes. rewrite (proj2 (Z.ltb_ge (zlen (b bv)) (zlen bs))) by lia. change 0 with (Z.of_nat 0).
  destruct (set_loop_bits (8 * length bs) 0 bs true bv) as (bs' & -> & L & O & B); try done.
  exists bs'. split_and!; try done. intros k. rewrite B. case_decide as Hd; [destruct Hd as [_ ->]; by rewrite orb_true_r|].
  destruct (bit bs k) eqn:Hb; [|by rewrite orb_false_r]. destruct Hd. split; [|done]. split; [lia|].
  destruct (Nat.lt_ge_cases k (8 * length bs)); [lia|]. by rewrite bit_out in Hb.
Qed.

Lemma UnsetBytes_bits bv bs : bytes_ok (b bv) -> bytes_ok bs -> (length bs <= length (b bv))%nat ->
  exists bs', UnsetBytes bv bs = Ok (MkBits (bvLen bv) bs') /\ length bs' = length (b bv) /\ bytes_ok bs' /\
    forall k, bit bs' k = bit (b bv) k && negb (bit bs k).
Proof.
  intros Hok Hbs Hl. unfold UnsetBytes. rewrite (proj2 (Z.ltb_ge (zlen (b bv)) (zlen bs))) by lia. change 0 with (Z.of_nat 0).
  destruct (set_loop_bits (8 * length bs) 0 bs false bv) as (bs' & -> & L & O & B); try done.
  exists bs'. split_and!; try done. intros k. rewrite B. case_decide as Hd; [destruct Hd as [_ ->]; by rewrite andb_false_r|].
  destruct (bit bs k) eqn:Hb; [|by rewrite andb_true_r]. destruct Hd. split; [|done]. split; [lia|].
  destruct (Nat.lt_ge_cases k (8 * length bs)); [lia|]. by rewrite bit_out in Hb.
Qed.

Lemma bit_cons x bs i : bit (x :: bs) i = if decide (i < 8)%nat then Z.testbit x (Z.of_nat i) else bit bs (i - 8).
Proof.
  unfold bit. case_decide as Hi.
  - rewrite Nat.div_small, Nat.mod_small by done. done.
  - replace i with (i - 8 + 1 * 8)%nat at 1 2 by lia. rewrite Nat.div_add, Nat.Div0.mod_add by lia.
    by rewrite Nat.add_1_r.
Qed.

Lemma low_bits_spec n x : (n <= 8)%nat -> low_bits n x = true <-> forall j, (j < n)%nat -> Z.testbit x (Z.of_nat j) = true.
Proof.
  induction n as [|n IH]; intros Hn; cbn [low_bits]; [split; [intros _ j Hj; lia|done]|].
  rewrite Z.mod_small by lia. rewrite land_shift by lia. destruct (Z.testbit x (Z.of_nat n)) eqn:Hb; cbn [negb].
  - rewrite IH by lia. split; intros Hj j Hlt; [|apply Hj; lia]. destruct (decide (j = n)) as [->|]; [done|apply Hj; lia].
  - split; [done|]. intros Hj. rewrite Hj in Hb by lia. done.
Qed.

Lemma byte_full x : is_byte x -> (x =? 255) = true <-> forall j, (j < 8)%nat -> Z.testbit x (Z.of_nat j) = true.
Proof.
  intros Hx. rewrite Z.eqb_eq. change 255 with (Z.ones 8). split.
  - intros -> j Hj. apply Z.ones_spec_low. lia.
  - intros Hj. apply Z.bits_inj'. intros k Hk. unfold is_byte in Hx. destruct (Z.lt_ge_cases k 8).
    + rewrite Z.ones_spec_low by lia. rewrite <- (Z2Nat.id k) by lia. apply Hj. lia.
    + rewrite Z.ones_spec_high by lia. rewrite <- (Z.mod_small x (2 ^ 8)) by (change (2 ^ 8) with 256; lia). by apply Z.mod_pow2_bits_high.
Qed.

(** How many bits [Equals] looks at. *)
Definition looked_at (bs : bytes) (rest : nat) : nat := (8 * length bs - (if (rest =? 0)%nat then 0 else 8 - rest))%nat.

Lemma equals_from_spec bs rest : (rest < 8)%nat -> bytes_ok bs ->
  equals_from bs rest = true <-> forall i, (i < looked_at bs rest)%nat -> bit bs i = true.
Proof.
  intros Hr Hok. unfold looked_at. induction Hok as [|x bs Hx Hok IH]; cbn [equals_from length].
  { split; [intros _ i Hi; lia|done]. }
  pose proof (byte_full x Hx) as Hfull. destruct (negb (rest =? 0)%nat && match bs with [] => true | _ => false end) eqn:Hc.
  - destruct bs; [|by rewrite andb_false_r in Hc]. rewrite andb_true_r in Hc. cbn [length].
    destruct (Nat.eqb_spec rest 0); [done|]. rewrite low_bits_spec by lia. split; intros Hj j Hlt.
    + rewrite bit_cons, decide_True by lia. apply Hj. lia.
    + specialize (Hj j ltac:(lia)). by rewrite bit_cons, decide_True in Hj by lia.
  - assert (Hlen : ((if (rest =? 0)%nat then 0 else 8 - rest) <= 8 * length bs)%nat).
    { destruct (Nat.eqb_spec rest 0); [lia|]. destruct bs; [done|]. cbn [length]. lia. }
    destruct (x =? 255) eqn:H255; cbn [negb].
    + rewrite IH. split; intros Hj i Hi.
      * rewrite bit_cons. case_decide; [by apply Hfull|]. apply Hj. lia.
      * specialize (Hj (i + 8)%nat ltac:(lia)). rewrite bit_cons, decide_False in Hj by lia. by rewrite Nat.add_sub in Hj.
    + split; [done|]. intros Hj. apply Hfull. intros j Hlt. specialize (Hj j ltac:(lia)). by rewrite bit_cons, decide_True in Hj.
Qed.

Lemma New_bits l bv : New l = Ok bv -> wf bv /\ bvLen bv = l /\ forall k, bit (b bv) k = false.
Proof.
  unfold New, NewFromBytes. cbv zeta. match goal with |- context [?x <? 0] => set (n := x) end. destruct (n <? 0) eqn:Hn; [done|].
  destruct (l <=? 0) eqn:Hl; [done|]. rewrite length_replicate. destruct (_ <? l) eqn:Hlt; [done|]. intros [= <-]. unfold wf. cbn [bvLen b].
  rewrite length_replicate. split_and!; [lia|lia| |done|].
  - apply Forall_replicate. unfold is_byte. lia.
  - intros k. unfold bit. destruct (replicate (Z.to_nat n) 0 !! (k / 8)%nat) as [x|] eqn:Hx; [|apply Z.bits_0].
    apply lookup_replicate in Hx as [-> _]. apply Z.bits_0.
Qed.

Lemma set_Ok bv i v bv' : wf bv -> 0 <= i -> set bv i v = Ok bv' ->
  wf bv' /\ bvLen bv' = bvLen bv /\ forall k, bit (b bv') k = if decide (k = Z.to_nat i) then v else bit (b bv) k.
Proof.
  intros [Hl Hok] Hi Hs. destruct (Z.lt_ge_cases i (8 * zlen (b bv))) as [Hlt|Hge].
  - destruct (set_bit bv (Z.to_nat i) v) as (bs & E & L & O & B); [lia|done|]. rewrite Z2Nat.id in E by done. rewrite E in Hs. injection Hs as <-.
    split; [|done]. split; [cbn [bvLen b]; lia|done].
  - unfold set, Get in Hs. rewrite <- (Z2Nat.id i) in Hs by done. rewrite byte_at_nat in Hs.
    rewrite (proj2 (lookup_ge_None (b bv) _)) in Hs; [done|]. apply Nat.div_le_lower_bound; lia.
Qed.

Lemma SetBytes_Ok bv bs bv' : wf bv -> bytes_ok bs -> SetBytes bv bs = Ok bv' ->
  wf bv' /\ bvLen bv' = bvLen bv /\ forall k, bit (b bv') k = bit (b bv) k || bit bs k.
Proof.
  intros [Hl Hok] Hbs Hs. destruct (Nat.le_gt_cases (length bs) (length (b bv))) as [Hle|Hgt].
  - destruct (SetBytes_bits bv bs Hok Hbs Hle) as (bs' & E & L & O & B). rewrite E in Hs. injection Hs as <-.
    split; [|done]. split; [cbn [bvLen b]; lia|done].
  - unfold SetBytes in Hs. rewrite (proj2 (Z.ltb_lt (zlen (b bv)) (zlen bs))) in Hs by lia. done.
Qed.

Lemma NewFromBytes_Ok bs l bv : bytes_ok bs -> NewFromBytes bs l = Ok bv -> wf bv /\ bvLen bv = l /\ b bv = bs.
Proof.
  intros Hbs. unfold NewFromBytes. destruct (Z.leb_spec l 0); [done|]. destruct (Z.ltb_spec (zlen bs * 8) l); [done|]. intros [= <-].
  split; [|done]. split; [cbn [bvLen b]; lia|done].
Qed.

(** The bit vectors are sets of indices: [SetBytes] is the union and
    [UnsetBytes] the difference with the argument's bits, neither ever panics, and
    on a vector with no more bytes than its length needs [Equals] tells whether all
    its bits are set. *)
Theorem BitVector_sets bv bs : wf bv -> bytes_ok bs -> (length bs <= length (b bv))%nat ->
  (exists bv', SetBytes bv bs = Ok bv' /\ wf bv' /\ Len bv' = Len bv /\ forall k, bit (b bv') k = bit (b bv) k || bit bs k) /\
  (exists bv', UnsetBytes bv bs = Ok bv' /\ wf bv' /\ Len bv' = Len bv /\ forall k, bit (b bv') k = bit (b bv) k && negb (bit bs k)) /\
  (zlen (b bv) * 8 < bvLen bv + 8 -> Equals bv = true <-> forall i, (i < Z.to_nat (Len bv))%nat -> bit (b bv) i = true).
Proof.
  intros [Hl Hok] Hbs Hle. split_and!.
  - destruct (SetBytes_bits bv bs Hok Hbs Hle) as (bs' & -> & L & O & B). eexists. split; [done|]. split; [|done].
    split; [|done]. cbn [bvLen b]. lia.
  - destruct (UnsetBytes_bits bv bs Hok Hbs Hle) as (bs' & -> & L & O & B). eexists. split; [done|]. split; [|done].
    split; [|done]. cbn [bvLen b]. lia.
  - intros Hex. unfold Equals, Len. pose proof (Z.mod_pos_bound (bvLen bv) 8 ltac:(lia)). rewrite equals_from_spec by (done || lia).
    enough (looked_at (b bv) (Z.to_nat (bvLen bv mod 8)) = Z.to_nat (bvLen bv)) as -> by done. unfold looked_at.
    pose proof (Z.div_mod (bvLen bv) 8 ltac:(lia)). destruct (Nat.eqb_spec (Z.to_nat (bvLen bv mod 8)) 0); lia.
Qed.

Lemma BitVector_sets_witness : Equals (MkBits 10 [255; 3]) = true /\ exists bv', UnsetBytes (MkBits 10 [255; 3]) [4] = Ok bv' /\ bit (b bv') 2 = false.
Proof.
  assert (Hok : bytes_ok [255; 3]) by (repeat constructor; unfold is_byte; lia).
  assert (Hok2 : bytes_ok [4]) by (repeat constructor; unfold is_byte; lia).
  destruct (BitVector_sets (MkBits 10 [255; 3]) [4]) as (_ & (bv' & E & _ & _ & Hb) & He).
  - split; [vm_compute; split; [reflexivity|discriminate]|exact Hok].
  - exact Hok2.
  - vm_compute. lia.
  - split.
    + apply He; [vm_compute; reflexivity|]. intros i Hi. cbn in Hi. do 10 (destruct i as [|i]; [reflexivity|]). lia.
    + exists bv'. split; [exact E|]. rewrite Hb. vm_compute. reflexivity.
Defined.
