(* ===== verification/ChunkStore.v ===== *)
(** * Who has which chunks (pkg/localstore/chunkstore)

    Three tables of bit vectors, one bit per chunk of a file, by the root of the
    file and by peer: the chunks a peer says it has ([discover]), the chunks a peer
    was served ([service]) and the peers chunks were fetched from ([source]).  Each
    table is kept in memory and in the state store.  The source and the service
    table have the same code twice; here it is written once, with the table and the
    key prefix as arguments.  A panic of the code is the error [panicked].  A vector made from
    the bytes of a message keeps these bytes; they are taken to be used by nobody
    else, so that a vector is a value. *)

From Stdlib Require Import ZArith Lia ZifyBool.
From stdpp Require Import base gmap list numbers strings.
From S2P Require Import Prelude Boson StateStore Cheque AddressBook BitVector.

Open Scope Z_scope.

Inductive ChunkType := DISCOVER | SERVICE | SOURCE | otherType (n : Z).

#[export] Instance ChunkType_eq_dec : EqDecision ChunkType.
Proof. solve_decision. Defined.

Inductive chunkError :=
| TypeError
| errNotFound
| errParse
| errBits (e : bitError)
| errState (e : storeError)
| panicked.

Definition keyPrefix : bytes := str "chunk".
Definition sourceKeyPrefix : bytes := str "source".
Definition discoverKeyPrefix : bytes := str "discover".

Record Provider := MkProvider {
  Overlay : Address;
  Bit : Z;
  PLen : Z;
  PB : bytes;
  PTime : Z;
}.

Record Consumer := MkConsumer {
  COverlay : Address;
  CLen : Z;
  CB : bytes;
  CTime : Z;
}.

Record discoverBitVector := MkDiscover {
  dbit : BitVector;
  dtime : Z;
}.

Definition generateKey (prefix : bytes) (rootCid overlay : Address) : bytes :=
  prefix ++ str "-" ++ Boson.String rootCid ++ str "-" ++ Boson.String overlay.

(** [keys[1]] and [keys[2]] panic if the key has fewer than two dashes. *)
Definition unmarshalKey (key : bytes) : result chunkError (Address * Address) :=
  let keys := split_at dash key [] in
  match keys !! 1%nat with
  | None => Err panicked
  | Some r =>
      match ParseHexAddress r with
      | Err _ => Err errParse
      | Ok rootCid =>
          match keys !! 2%nat with
          | None => Err panicked
          | Some o => match ParseHexAddress o with Err _ => Err errParse | Ok overlay => Ok (rootCid, overlay) end
          end
      end
  end.

Definition of_bits {A} (r : result bitError A) : result chunkError A :=
  match r with Ok a => Ok a | Err panicIndex => Err panicked | Err e => Err (errBits e) end.
Definition of_state {A} (r : result storeError A) : result chunkError A := match r with Ok a => Ok a | Err e => Err (errState e) end.
Definition of_parse {A B} (r : result A B) : result chunkError B := match r with Ok a => Ok a | Err _ => Err panicked end.

(** ** One table *)

(** [map[string]map[string]D], by the names of the root and of the peer. *)
Abbreviation table D := (gmap bytes (gmap bytes D)).

Definition find {D} (m : table D) (rootCid overlay : Address) : option D := v ← m !! Boson.String rootCid; v !! Boson.String overlay.

Definition put_entry {D} (m : table D) (rootCid overlay : Address) (d : D) : table D :=
  <[Boson.String rootCid := <[Boson.String overlay := d]> (default ∅ (m !! Boson.String rootCid))]> m.

Definition delete_entry {D} (m : table D) (rootCid overlay : Address) : table D := alter (delete (Boson.String overlay)) (Boson.String rootCid) m.

Definition has {D} (m : table D) (rootCid overlay : Address) : bool := match find m rootCid overlay with Some _ => true | None => false end.

Fixpoint any_bit (l : list BitVector) (k : Z) : result chunkError bool :=
  match l with
  | [] => Ok false
  | bv :: l => x ← (if k <? Len bv then of_bits (BitVector.Get bv k) else Ok false); if x : bool then Ok true else any_bit l k
  end.

Definition has_bit {D} (bits : D -> BitVector) (m : table D) (rootCid : Address) (k : Z) : result chunkError bool :=
  match m !! Boson.String rootCid with
  | None => Ok false
  | Some v => any_bit (map (fun od => bits od.2) (map_to_list v)) k
  end.

(** The vector a put of bit [k] of a file of [l] chunks writes, or [None] if the
    bit is set already. *)
Definition next_bits (old : option BitVector) (k l : Z) : result chunkError (option BitVector) :=
  bv ← match old with
    | Some bv =>
        if Len bv <? l then newbv ← of_bits (BitVector.New l); newbv ← of_bits (SetBytes newbv (Bytes bv)); Ok (Some newbv)
        else x ← of_bits (BitVector.Get bv k); Ok (if x : bool then None else Some bv)
    | None => newbv ← of_bits (BitVector.New l); Ok (Some newbv)
    end;
  match bv with
  | None => Ok None
  | Some bv => bv ← of_bits (Set_ bv k); Ok (Some bv)
  end.

(** The vector a message with the bits [bs] of a file of [l] chunks leads to. *)
Definition merged_bits (old : option BitVector) (bs : bytes) (l : Z) : result chunkError BitVector :=
  match old with
  | Some bit =>
      if Len bit <? l then bv ← of_bits (NewFromBytes bs l); of_bits (SetBytes bv (Bytes bit))
      else of_bits (SetBytes bit bs)
  | None => of_bits (NewFromBytes bs l)
  end.

Section Store.
Context {S V : Type} `{ST : StateStorer S V} `{CB' : Codec BitVector V}.

Record chunkStore := MkChunkStore {
  stateStore : S;
  source : table BitVector;
  service : table BitVector;
  discover : table discoverBitVector;
  finder : gset bytes;
}.

Definition New (store : S) : chunkStore := MkChunkStore store ∅ ∅ ∅ ∅.

Definition set_state (cs : chunkStore) (st : S) : chunkStore := MkChunkStore st (source cs) (service cs) (discover cs) (finder cs).
Definition set_source (cs : chunkStore) (m : table BitVector) : chunkStore := MkChunkStore (stateStore cs) m (service cs) (discover cs) (finder cs).
Definition set_service (cs : chunkStore) (m : table BitVector) : chunkStore := MkChunkStore (stateStore cs) (source cs) m (discover cs) (finder cs).
Definition set_discover (cs : chunkStore) (m : table discoverBitVector) : chunkStore := MkChunkStore (stateStore cs) (source cs) (service cs) m (finder cs).
Definition set_finder (cs : chunkStore) (m : gset bytes) : chunkStore := MkChunkStore (stateStore cs) (source cs) (service cs) (discover cs) m.

(** Write a vector through to the state store; the memory keeps it either way. *)
Definition persist (cs : chunkStore) (key : bytes) (bv : BitVector) : chunkStore * result chunkError unit :=
  match Put (stateStore cs) key bv with
  | Ok st => (set_state cs st, Ok tt)
  | Err e => (cs, Err (errState e))
  end.

Definition put_bit (get_table : chunkStore -> table BitVector) (set_table : chunkStore -> table BitVector -> chunkStore) (prefix : bytes)
    (cs : chunkStore) (rootCid overlay : Address) (k l : Z) : chunkStore * result chunkError unit :=
  match next_bits (find (get_table cs) rootCid overlay) k l with
  | Err e => (cs, Err e)
  | Ok None => (cs, Ok tt)
  | Ok (Some bv) => persist (set_table cs (put_entry (get_table cs) rootCid overlay bv)) (generateKey prefix rootCid overlay) bv
  end.

Definition putChunkSource := put_bit source set_source sourceKeyPrefix.
Definition putChunkService := put_bit service set_service keyPrefix.

Definition putDiscover (now : Z) (cs : chunkStore) (rootCid overlay : Address) (bs : bytes) (l : Z) : chunkStore * result chunkError unit :=
  let old := find (discover cs) rootCid overlay in
  match merged_bits (dbit <$> old) bs l with
  | Err e => (cs, Err e)
  | Ok bv =>
      let data := match old with Some data => MkDiscover bv (dtime data) | None => MkDiscover bv now end in
      persist (set_discover cs (put_entry (discover cs) rootCid overlay data)) (generateKey discoverKeyPrefix rootCid overlay) bv
  end.

(** [putInitSource], [putInitService] and [putInitDiscover]. *)
Definition put_init {D} (make : BitVector -> D) (m : table D) (rootCid overlay : Address) (bs : bytes) (l : Z) : table D :=
  if has m rootCid overlay then m
  else match NewFromBytes bs l with Ok bv => put_entry m rootCid overlay (make bv) | Err _ => m end.

(** The function given to [Iterate] by [initSource], [initService] and [initDiscover]. *)
Definition load {D} (make : BitVector -> D) (prefix : bytes) (st : S) (m : table D) (key : bytes) : result chunkError (table D * bool) :=
  if decide (prefix `prefix_of` key) then
    ro ← unmarshalKey key;
    vb ← of_state (StateStore.Get st key);
    Ok (put_init make m ro.1 ro.2 (b vb) (bvLen vb), false)
  else Ok (m, true).

Definition initSource (cs : chunkStore) : result chunkError chunkStore :=
  m ← Iterate (stateStore cs) sourceKeyPrefix (load (fun bv => bv) sourceKeyPrefix (stateStore cs)) (source cs);
  Ok (set_source cs m).
Definition initService (cs : chunkStore) : result chunkError chunkStore :=
  m ← Iterate (stateStore cs) keyPrefix (load (fun bv => bv) keyPrefix (stateStore cs)) (service cs);
  Ok (set_service cs m).
Definition initDiscover (now : Z) (cs : chunkStore) : result chunkError chunkStore :=
  m ← Iterate (stateStore cs) discoverKeyPrefix (load (fun bv => MkDiscover bv now) discoverKeyPrefix (stateStore cs)) (discover cs);
  Ok (set_discover cs m).

Definition Init (now : Z) (cs : chunkStore) : result chunkError chunkStore :=
  cs ← initService cs; cs ← initDiscover now cs; initSource cs.

(** The loops over the peers of [removeSource], [removeService], [removeDiscover];
    the first failed deletion ends them. *)
Fixpoint delete_keys (prefix : bytes) (rootCid : Address) (names : list bytes) (st : S) : S * result chunkError unit :=
  match names with
  | [] => (st, Ok tt)
  | name :: names =>
      match ParseHexAddress name with
      | Err _ => (st, Err panicked)
      | Ok overlay =>
          match sdelete st (generateKey prefix rootCid overlay) with
          | Err e => (st, Err (errState e))
          | Ok st => delete_keys prefix rootCid names st
          end
      end
  end.

Definition remove_root {D} (m : table D) (prefix : bytes) (rootCid : Address) (st : S) : table D * S * result chunkError unit :=
  match m !! Boson.String rootCid with
  | None => (m, st, Ok tt)
  | Some v =>
      match delete_keys prefix rootCid (map fst (map_to_list v)) st with
      | (st, Err e) => (m, st, Err e)
      | (st, Ok _) => (delete (Boson.String rootCid) m, st, Ok tt)
      end
  end.

Definition remove_peer {D} (m : table D) (prefix : bytes) (rootCid overlay : Address) (st : S) : table D * S * result chunkError unit :=
  if has m rootCid overlay then
    match sdelete st (generateKey prefix rootCid overlay) with
    | Err e => (m, st, Err (errState e))
    | Ok st => (delete_entry m rootCid overlay, st, Ok tt)
    end
  else (m, st, Ok tt).

Definition removeSource (cs : chunkStore) (rootCid : Address) : chunkStore * result chunkError unit :=
  let '(m, st, r) := remove_root (source cs) sourceKeyPrefix rootCid (stateStore cs) in (set_state (set_source cs m) st, r).
Definition removeService (cs : chunkStore) (rootCid : Address) : chunkStore * result chunkError unit :=
  let '(m, st, r) := remove_root (service cs) keyPrefix rootCid (stateStore cs) in (set_state (set_service cs m) st, r).
Definition removeDiscover (cs : chunkStore) (rootCid : Address) : chunkStore * result chunkError unit :=
  let '(m, st, r) := remove_root (discover cs) discoverKeyPrefix rootCid (stateStore cs) in (set_state (set_discover cs m) st, r).

Definition removeSourceByOverlay (cs : chunkStore) (rootCid overlay : Address) : chunkStore * result chunkError unit :=
  let '(m, st, r) := remove_peer (source cs) sourceKeyPrefix rootCid overlay (stateStore cs) in (set_state (set_source cs m) st, r).
Definition removeServiceByOverlay (cs : chunkStore) (rootCid overlay : Address) : chunkStore * result chunkError unit :=
  let '(m, st, r) := remove_peer (service cs) keyPrefix rootCid overlay (stateStore cs) in (set_state (set_service cs m) st, r).
Definition removeDiscoverByOverlay (cs : chunkStore) (rootCid overlay : Address) : chunkStore * result chunkError unit :=
  let '(m, st, r) := remove_peer (discover cs) discoverKeyPrefix rootCid overlay (stateStore cs) in (set_state (set_discover cs m) st, r).

(** ** The interface *)

(** Only the error of the last provider is returned. *)
Fixpoint put_each (put : chunkStore -> Provider -> chunkStore * result chunkError unit) (cs : chunkStore) (ps : list Provider)
    (err : result chunkError unit) : chunkStore * result chunkError unit :=
  match ps with
  | [] => (cs, err)
  | p :: ps =>
      match put cs p with
      | (cs, Err panicked) => (cs, Err panicked)
      | (cs, err) => put_each put cs ps err
      end
  end.

Definition Put (now : Z) (cs : chunkStore) (chunkType : ChunkType) (reference : Address) (providers : list Provider) :
    chunkStore * result chunkError unit :=
  match chunkType with
  | DISCOVER => put_each (fun cs p => putDiscover now cs reference (Overlay p) (PB p) (PLen p)) cs providers (Ok tt)
  | SOURCE => put_each (fun cs p => putChunkSource cs reference (Overlay p) (Bit p) (PLen p)) cs providers (Ok tt)
  | SERVICE => put_each (fun cs p => putChunkService cs reference (Overlay p) (Bit p) (PLen p)) cs providers (Ok tt)
  | otherType _ => (cs, Err TypeError)
  end.

Definition bits_consumer (bv : BitVector) (overlay : Address) : Consumer := MkConsumer overlay (Len bv) (Bytes bv) 0.
Definition discover_consumer (d : discoverBitVector) (overlay : Address) : Consumer :=
  MkConsumer overlay (Len (dbit d)) (Bytes (dbit d)) (dtime d).

(** [boson.MustParseHexAddress] panics on a malformed name. *)
Fixpoint consumers {D} (consumer : D -> Address -> Consumer) (l : list (bytes * D)) : result chunkError (list Consumer) :=
  match l with
  | [] => Ok []
  | (name, d) :: l => overlay ← of_parse (ParseHexAddress name); cs ← consumers consumer l; Ok (consumer d overlay :: cs)
  end.

Definition get_consumers {D} (consumer : D -> Address -> Consumer) (m : table D) (reference : Address) : result chunkError (list Consumer) :=
  match m !! Boson.String reference with
  | None => Err errNotFound
  | Some d => consumers consumer (map_to_list d)
  end.

Definition Get (cs : chunkStore) (chunkType : ChunkType) (reference : Address) : result chunkError (list Consumer) :=
  match chunkType with
  | DISCOVER => get_consumers discover_consumer (discover cs) reference
  | SOURCE => get_consumers bits_consumer (source cs) reference
  | SERVICE => get_consumers bits_consumer (service cs) reference
  | otherType _ => Err TypeError
  end.

Definition noConsumer : Consumer := MkConsumer [] 0 [] 0.

Definition GetByOverlay (cs : chunkStore) (chunkType : ChunkType) (reference overlay : Address) : result chunkError Consumer :=
  match chunkType with
  | DISCOVER => Ok (match find (discover cs) reference overlay with Some d => discover_consumer d overlay | None => noConsumer end)
  | SOURCE => Ok (match find (source cs) reference overlay with Some bv => bits_consumer bv overlay | None => noConsumer end)
  | SERVICE => Ok (match find (service cs) reference overlay with Some bv => bits_consumer bv overlay | None => noConsumer end)
  | otherType _ => Err TypeError
  end.

Fixpoint all_consumers {D} (consumer : D -> Address -> Consumer) (l : list (bytes * gmap bytes D)) (r : gmap bytes (list Consumer)) :
    result chunkError (gmap bytes (list Consumer)) :=
  match l with
  | [] => Ok r
  | (rootCid, node) :: l => p ← consumers consumer (map_to_list node); all_consumers consumer l (<[rootCid := p]> r)
  end.

Definition GetAll (cs : chunkStore) (chunkType : ChunkType) : result chunkError (gmap bytes (list Consumer)) :=
  match chunkType with
  | DISCOVER => all_consumers discover_consumer (map_to_list (discover cs)) ∅
  | SOURCE => all_consumers bits_consumer (map_to_list (source cs)) ∅
  | SERVICE => all_consumers bits_consumer (map_to_list (service cs)) ∅
  | otherType _ => Err TypeError
  end.

Definition Remove (cs : chunkStore) (chunkType : ChunkType) (reference overlay : Address) : chunkStore * result chunkError unit :=
  match chunkType with
  | DISCOVER => removeDiscoverByOverlay cs reference overlay
  | SOURCE => removeSourceByOverlay cs reference overlay
  | SERVICE => removeServiceByOverlay cs reference overlay
  | otherType _ => (cs, Err TypeError)
  end.

Definition RemoveAll (cs : chunkStore) (chunkType : ChunkType) (reference : Address) : chunkStore * result chunkError unit :=
  match chunkType with
  | DISCOVER => removeDiscover cs reference
  | SOURCE => removeSource cs reference
  | SERVICE => removeService cs reference
  | otherType _ => (cs, Err TypeError)
  end.

Definition Has (cs : chunkStore) (chunkType : ChunkType) (reference overlay : Address) : result chunkError bool :=
  match chunkType with
  | DISCOVER => Ok (has (discover cs) reference overlay)
  | SOURCE => Ok (has (source cs) reference overlay)
  | SERVICE => Ok (has (service cs) reference overlay)
  | otherType _ => Err TypeError
  end.

Definition HasChunk (cs : chunkStore) (chunkType : ChunkType) (reference : Address) (k : Z) : result chunkError bool :=
  match chunkType with
  | DISCOVER => has_bit dbit (discover cs) reference k
  | SOURCE => has_bit (fun bv => bv) (source cs) reference k
  | SERVICE => has_bit (fun bv => bv) (service cs) reference k
  | otherType _ => Err TypeError
  end.

Definition StartFinder (cs : chunkStore) (rootCid : Address) : chunkStore := set_finder cs ({[Boson.String rootCid]} ∪ finder cs).
Definition CancelFinder (cs : chunkStore) (rootCid : Address) : chunkStore := set_finder cs (finder cs ∖ {[Boson.String rootCid]}).
Definition IsFinder (cs : chunkStore) (rootCid : Address) : bool := bool_decide (Boson.String rootCid ∈ finder cs).

(** ** Tables and keys *)

Lemma find_put {D} (m : table D) r o d r' o' :
  find (put_entry m r o d) r' o' = if decide (Boson.String r = Boson.String r' /\ Boson.String o = Boson.String o') then Some d else find m r' o'.
Proof.
  unfold find, put_entry. destruct (decide (Boson.String r = Boson.String r')) as [Er|Hr].
  - rewrite Er, lookup_insert_eq. cbn [mbind option_bind]. destruct (decide (Boson.String o = Boson.String o')) as [Eo|Ho].
    + by rewrite Eo, lookup_insert_eq, decide_True.
    + rewrite lookup_insert_ne by done. rewrite decide_False by naive_solver. by destruct (m !! Boson.String r').
  - rewrite lookup_insert_ne by done. rewrite decide_False by naive_solver. done.
Qed.

Lemma find_delete {D} (m : table D) r o r' o' :
  find (delete_entry m r o) r' o' = if decide (Boson.String r = Boson.String r' /\ Boson.String o = Boson.String o') then None else find m r' o'.
Proof.
  unfold find, delete_entry. rewrite lookup_alter. destruct (decide (Boson.String r = Boson.String r')) as [Er|Hr].
  - rewrite Er. destruct (m !! Boson.String r') as [v|]; cbn [fmap option_fmap option_map mbind option_bind].
    + rewrite lookup_delete. destruct (decide (Boson.String o = Boson.String o')); [by rewrite decide_True|by rewrite decide_False by naive_solver].
    + by case_decide.
  - by rewrite decide_False by naive_solver.
Qed.

Lemma find_delete_root {D} (m : table D) r r' o' :
  find (delete (Boson.String r) m) r' o' = if decide (Boson.String r = Boson.String r') then None else find m r' o'.
Proof. unfold find. rewrite lookup_delete. by case_decide. Qed.

Lemma names_inj r r' o o' : bytes_ok r -> bytes_ok r' -> bytes_ok o -> bytes_ok o' ->
  Boson.String r = Boson.String r' /\ Boson.String o = Boson.String o' <-> (r, o) = (r', o').
Proof. intros. split; [intros [? ?]; f_equal; by apply EncodeToString_inj|by intros [= -> ->]]. Qed.

Lemma split_at_word c s rest acc : c ∉ s -> split_at c (s ++ c :: rest) acc = (acc ++ s) :: split_at c rest [].
Proof.
  revert acc. induction s as [|x s IH]; intros acc Hc; cbn [app split_at].
  - rewrite Z.eqb_refl. by rewrite app_nil_r.
  - rewrite (proj2 (Z.eqb_neq _ _)) by set_solver. rewrite IH by set_solver. by rewrite <- app_assoc.
Qed.

Lemma split_key prefix r o : dash ∉ prefix -> bytes_ok r -> bytes_ok o ->
  split_at dash (generateKey prefix r o) [] = [prefix; Boson.String r; Boson.String o].
Proof.
  intros Hp Hr Ho. unfold generateKey. change (str "-" ++ ?x) with (dash :: x).
  rewrite (split_at_word dash prefix) by done. cbn [app]. change (str "-" ++ Boson.String o) with (dash :: Boson.String o).
  rewrite (split_at_word dash (Boson.String r)) by (by apply String_no_dash). rewrite split_at_none by (by apply String_no_dash). done.
Qed.

Lemma unmarshalKey_key prefix r o : dash ∉ prefix -> bytes_ok r -> bytes_ok o -> unmarshalKey (generateKey prefix r o) = Ok (r, o).
Proof.
  intros Hp Hr Ho. unfold unmarshalKey. rewrite split_key by done. cbn. unfold ParseHexAddress, Boson.String. by rewrite !DecodeString_Encode.
Qed.

Lemma generateKey_inj prefix r o r' o' : dash ∉ prefix -> bytes_ok r -> bytes_ok o -> bytes_ok r' -> bytes_ok o' ->
  generateKey prefix r o = generateKey prefix r' o' -> r = r' /\ o = o'.
Proof.
  intros Hp Hr Ho Hr' Ho' E. apply (f_equal unmarshalKey) in E. rewrite !unmarshalKey_key in E by done. by injection E as -> ->.
Qed.

(** ** Memory and store agree *)

Definition stored (st : S) (k : bytes) : option BitVector := match StateStore.Get st k with Ok bv => Some bv | Err _ => None end.

Record synced {D} (bits : D -> BitVector) (prefix : bytes) (m : table D) (st : S) : Prop := {
  s_keys k : k ∈ skeys st prefix -> exists r o bv, bytes_ok r /\ bytes_ok o /\ k = generateKey prefix r o /\ StateStore.Get st k = Ok bv /\ wf bv;
  s_find r o : bytes_ok r -> bytes_ok o -> bits <$> find m r o = stored st (generateKey prefix r o);
  s_names rn v on d : m !! rn = Some v -> v !! on = Some d -> exists r o, bytes_ok r /\ bytes_ok o /\ rn = Boson.String r /\ on = Boson.String o;
}.

Lemma stored_wf {D} (bits : D -> BitVector) prefix m st r o bv : synced bits prefix m st -> stored st (generateKey prefix r o) = Some bv -> wf bv.
Proof.
  intros Hs. unfold stored. destruct (StateStore.Get st (generateKey prefix r o)) as [bv'|] eqn:Hg; [|done]. intros [= <-].
  destruct (s_keys _ _ _ _ Hs (generateKey prefix r o)) as (r' & o' & bv'' & _ & _ & _ & Hg' & Hw).
  - apply skeys_spec. split; [by eexists|]. unfold StateStore.Get in Hg. by destruct (sget st (generateKey prefix r o)).
  - congruence.
Qed.

(** A store that is the same below the prefix. *)
Lemma synced_same {D} (bits : D -> BitVector) prefix m st st' : (forall k, prefix `prefix_of` k -> sget st' k = sget st k) ->
  synced bits prefix m st -> synced bits prefix m st'.
Proof.
  intros Hg [H1 H2 H3].
  assert (Hget : forall k, prefix `prefix_of` k -> StateStore.Get (A := BitVector) st' k = StateStore.Get st k).
  { intros k Hk. unfold StateStore.Get. by rewrite Hg. }
  split; [|intros r o Hr Ho; unfold stored; rewrite Hget; [by apply H2|by eexists]|exact H3].
  intros k Hk. apply skeys_spec in Hk as [Hp Hk]. rewrite Hget by done. apply H1, skeys_spec. by rewrite <- Hg.
Qed.

Lemma synced_put {D} (bits : D -> BitVector) prefix m st r o d st' : dash ∉ prefix -> bytes_ok r -> bytes_ok o -> wf (bits d) ->
  synced bits prefix m st -> StateStore.Put st (generateKey prefix r o) (bits d) = Ok st' -> synced bits prefix (put_entry m r o d) st'.
Proof.
  intros Hp Hr Ho Hw [H1 H2 H3] HP. split.
  - intros k Hk. destruct (decide (k = generateKey prefix r o)) as [->|Hne]; [exists r, o, (bits d); by rewrite (Get_Put _ _ _ _ HP)|].
    rewrite (Get_Put_ne _ _ _ _ _ HP Hne). apply H1. apply skeys_spec in Hk as [Hpk Hk]. apply skeys_spec. split; [done|].
    by rewrite (sget_put _ _ _ _ k HP), decide_False in Hk.
  - intros r' o' Hr' Ho'. rewrite find_put. unfold stored. destruct (decide ((r, o) = (r', o'))) as [E|Hne].
    + rewrite decide_True by (by apply names_inj). injection E as -> ->. by rewrite (Get_Put _ _ _ _ HP).
    + rewrite decide_False by (rewrite names_inj; done). rewrite (Get_Put_ne _ _ _ _ _ HP); [by apply H2|].
      intros E. apply generateKey_inj in E as [-> ->]; done.
  - intros rn v on d' Hv Hd. unfold put_entry in Hv. rewrite lookup_insert in Hv. case_decide as Er.
    + injection Hv as <-. rewrite lookup_insert in Hd. case_decide as Eo; [by exists r, o|].
      destruct (m !! Boson.String r) as [v|] eqn:Hm; [|change ((∅ : gmap bytes D) !! on = Some d') in Hd; by rewrite lookup_empty in Hd]. subst rn. by apply (H3 _ v on d').
    + by apply (H3 rn v on d').
Qed.

Lemma synced_remove_peer {D} (bits : D -> BitVector) prefix m st r o m' st' x : dash ∉ prefix -> bytes_ok r -> bytes_ok o ->
  synced bits prefix m st -> remove_peer m prefix r o st = (m', st', x) -> synced bits prefix m' st'.
Proof.
  intros Hp Hr Ho Hs. unfold remove_peer. destruct (has m r o); [|by intros [= <- <- _]].
  destruct (sdelete st (generateKey prefix r o)) as [st1|e] eqn:Hdel; intros [= <- <- _]; [|done]. destruct Hs as [H1 H2 H3].
  assert (Hget : forall k, k <> generateKey prefix r o -> sget st1 k = sget st k).
  { intros k Hk. by rewrite (sget_delete _ _ _ k Hdel), decide_False. }
  assert (Hgone : sget st1 (generateKey prefix r o) = Err ErrNotFound) by (by rewrite (sget_delete _ _ _ _ Hdel), decide_True).
  split.
  - intros k Hk. apply skeys_spec in Hk as [Hpk Hk]. assert (Hne : k <> generateKey prefix r o) by (by intros ->).
    unfold StateStore.Get. rewrite Hget by done. apply H1, skeys_spec. by rewrite <- Hget.
  - intros r' o' Hr' Ho'. rewrite find_delete. unfold stored, StateStore.Get. destruct (decide ((r, o) = (r', o'))) as [E|Hne].
    + rewrite decide_True by (by apply names_inj). injection E as <- <-. by rewrite Hgone.
    + rewrite decide_False by (rewrite names_inj; done). rewrite Hget; [by apply H2|]. intros E. apply generateKey_inj in E as [-> ->]; done.
  - intros rn v on d Hv Hd. unfold delete_entry in Hv. rewrite lookup_alter in Hv. case_decide as Er; [|by apply (H3 rn v on d)].
    apply fmap_Some in Hv as (v0 & Hv0 & ->). rewrite lookup_delete in Hd. case_decide; [done|]. subst rn. by apply (H3 _ v0 on d).
Qed.

Lemma delete_keys_get prefix r names st st' x : bytes_ok r -> Forall (fun n => exists o, bytes_ok o /\ n = Boson.String o) names ->
  delete_keys prefix r names st = (st', x) -> forall k, sget st' k = sget st k \/
    sget st' k = Err ErrNotFound /\ exists o, bytes_ok o /\ Boson.String o ∈ names /\ k = generateKey prefix r o.
Proof.
  intros Hr Hn. revert st. induction Hn as [|n names (o & Ho & ->) _ IH]; intros st; cbn [delete_keys]; [intros [= <- _]; by left|].
  unfold ParseHexAddress at 1, Boson.String at 1. rewrite DecodeString_Encode by done.
  destruct (sdelete st (generateKey prefix r o)) as [st1|e] eqn:Hdel; [|intros [= <- _]; by left].
  intros E k. destruct (IH st1 E k) as [Hk|(Hk & o' & Ho' & Hin & ->)].
  - rewrite Hk, (sget_delete _ _ _ k Hdel). case_decide as Hd; [right|by left]. split; [done|]. exists o. split; [done|]. split; [by left|done].
  - right. split; [done|]. exists o'. split; [done|]. split; [by right|done].
Qed.

Lemma delete_keys_gone prefix r names st st' : bytes_ok r -> Forall (fun n => exists o, bytes_ok o /\ n = Boson.String o) names ->
  delete_keys prefix r names st = (st', Ok tt) -> forall o, bytes_ok o -> Boson.String o ∈ names -> sget st' (generateKey prefix r o) = Err ErrNotFound.
Proof.
  intros Hr Hn. revert st. induction Hn as [|n names (q & Hq & ->) Hn IH]; intros st; cbn [delete_keys]; [intros _ o _ Hin; by apply not_elem_of_nil in Hin|].
  unfold ParseHexAddress at 1, Boson.String at 1. rewrite DecodeString_Encode by done.
  destruct (sdelete st (generateKey prefix r q)) as [st1|e] eqn:Hdel; [|done]. intros E o Ho [Eo|Hin]%elem_of_cons; [|by eapply IH].
  apply EncodeToString_inj in Eo as ->; [|done..]. destruct (delete_keys_get _ _ _ _ _ _ Hr Hn E (generateKey prefix r q)) as [->|[? _]]; [|done].
  by rewrite (sget_delete _ _ _ _ Hdel), decide_True.
Qed.

Lemma synced_remove_root {D} (bits : D -> BitVector) prefix m st r m' st' : dash ∉ prefix -> bytes_ok r ->
  synced bits prefix m st -> remove_root m prefix r st = (m', st', Ok tt) -> synced bits prefix m' st'.
Proof.
  intros Hp Hr Hs. unfold remove_root. destruct (m !! Boson.String r) as [v|] eqn:Hv; [|by intros [= <- <-]].
  destruct (delete_keys prefix r (map fst (map_to_list v)) st) as [st1 [[]|e]] eqn:Hdel; intros [= <- <-]. destruct Hs as [H1 H2 H3].
  assert (Hnames : Forall (fun n => exists o, bytes_ok o /\ n = Boson.String o) (map fst (map_to_list v))).
  { apply Forall_forall. intros n ([on d] & -> & Hin%elem_of_map_to_list)%list_elem_of_fmap.
    destruct (H3 _ _ _ _ Hv Hin) as (_ & o & _ & Ho & _ & E). by exists o. }
  pose proof (delete_keys_get _ _ _ _ _ _ Hr Hnames Hdel) as Hget. pose proof (delete_keys_gone _ _ _ _ _ Hr Hnames Hdel) as Hgone.
  split.
  - intros k Hk. apply skeys_spec in Hk as [Hpk Hk]. destruct (Hget k) as [E|[E _]]; [|congruence].
    unfold StateStore.Get. rewrite E. apply H1, skeys_spec. by rewrite <- E.
  - intros r' o' Hr' Ho'. rewrite find_delete_root. unfold stored, StateStore.Get. case_decide as Er.
    + apply EncodeToString_inj in Er as <-; [|done..]. specialize (H2 r o' Hr Ho'). unfold find in H2. rewrite Hv in H2. cbn [mbind option_bind] in H2.
      destruct (v !! Boson.String o') as [d|] eqn:Hd.
      * rewrite (Hgone o'); [done|done|]. apply list_elem_of_fmap. exists (Boson.String o', d). split; [done|]. by apply elem_of_map_to_list.
      * destruct (Hget (generateKey prefix r o')) as [->|[-> _]]; [exact H2|done].
    + destruct (Hget (generateKey prefix r' o')) as [->|[_ (o & Ho & _ & E)]]; [by apply H2|].
      apply generateKey_inj in E as [-> _]; done.
  - intros rn v' on d Hv' Hd. rewrite lookup_delete in Hv'. case_decide; [done|]. by apply (H3 rn v' on d).
Qed.

Lemma NewFromBytes_wf bv : wf bv -> NewFromBytes (b bv) (bvLen bv) = Ok bv.
Proof.
  intros [Hl _]. unfold NewFromBytes. rewrite (proj2 (Z.leb_gt _ _)) by lia. rewrite (proj2 (Z.ltb_ge _ _)) by lia. by destruct bv.
Qed.

Lemma load_key {D} (make : BitVector -> D) prefix st m r o bv : dash ∉ prefix -> bytes_ok r -> bytes_ok o ->
  StateStore.Get st (generateKey prefix r o) = Ok bv -> wf bv ->
  load make prefix st m (generateKey prefix r o) = Ok (if has m r o then m else put_entry m r o (make bv), false).
Proof.
  intros Hp Hr Ho Hg Hw. unfold load. rewrite decide_True by (by eexists). rewrite unmarshalKey_key by done. cbn [mbind result_bind fst snd].
  rewrite Hg. cbn [of_state mbind result_bind]. unfold put_init. by rewrite NewFromBytes_wf.
Qed.

Lemma load_keys_all {D} (make : BitVector -> D) prefix st ks m : dash ∉ prefix ->
  (forall k, k ∈ ks -> exists r o bv, bytes_ok r /\ bytes_ok o /\ k = generateKey prefix r o /\ StateStore.Get st k = Ok bv /\ wf bv) ->
  exists m', iterate_keys (load make prefix st) m ks = Ok m' /\
    forall r o, bytes_ok r -> bytes_ok o -> find m' r o = match find m r o with
      | Some d => Some d
      | None => if decide (generateKey prefix r o ∈ ks) then make <$> stored st (generateKey prefix r o) else None
      end.
Proof.
  intros Hp. revert m. induction ks as [|k ks IH]; intros m Hk; cbn [iterate_keys].
  { exists m. split; [done|]. intros r o _ _. rewrite decide_False by apply not_elem_of_nil. by destruct (find m r o). }
  destruct (Hk k ltac:(left)) as (q & p & bv & Hq & Hpp & -> & Hg & Hw). rewrite (load_key make prefix st m q p bv) by done. cbn [mbind result_bind].
  destruct (IH (if has m q p then m else put_entry m q p (make bv))) as (m' & -> & Hm'); [intros k Hin; apply Hk; by right|].
  exists m'. split; [done|]. intros r o Hr Ho. rewrite Hm' by done.
  assert (Hmem : generateKey prefix r o ∈ generateKey prefix q p :: ks <-> (q, p) = (r, o) \/ generateKey prefix r o ∈ ks).
  { rewrite elem_of_cons. split; [|intros [[= -> ->]|?]; auto]. intros [E|?]; [left|by right].
    apply generateKey_inj in E as [-> ->]; done. }
  unfold has. destruct (find m q p) as [d|] eqn:Hf.
  - destruct (find m r o) as [d'|] eqn:Hf'; [done|]. apply decide_ext. rewrite Hmem. split; [by right|]. intros [[= -> ->]|?]; [congruence|done].
  - rewrite find_put. destruct (decide ((q, p) = (r, o))) as [E|Hne].
    + rewrite decide_True by (by apply names_inj). injection E as <- <-. rewrite Hf, decide_True by (by apply Hmem; left). unfold stored. by rewrite Hg.
    + rewrite decide_False by (rewrite names_inj; done). destruct (find m r o); [done|]. apply decide_ext. rewrite Hmem. naive_solver.
Qed.

(** A table loaded from a synced store has the same vectors. *)
Lemma load_synced {D} (bits : D -> BitVector) (make : BitVector -> D) prefix m st : dash ∉ prefix -> (forall bv, bits (make bv) = bv) ->
  synced bits prefix m st -> exists m', Iterate st prefix (load make prefix st) ∅ = Ok m' /\
    forall r o, bytes_ok r -> bytes_ok o -> bits <$> find m' r o = bits <$> find m r o.
Proof.
  intros Hp Hb [H1 H2 _]. destruct (load_keys_all make prefix st (skeys st prefix) ∅ Hp H1) as (m' & E & Hm'). exists m'. split; [done|].
  intros r o Hr Ho. rewrite Hm' by done. rewrite (H2 r o Hr Ho). unfold find at 1. rewrite lookup_empty. cbn [mbind option_bind].
  case_decide as Hd.
  - destruct (stored st (generateKey prefix r o)); cbn; [by rewrite Hb|done].
  - unfold stored, StateStore.Get. destruct (sget st (generateKey prefix r o)) as [v|e] eqn:Hg; [|done].
    destruct Hd. apply skeys_spec. split; [by eexists|]. by rewrite Hg.
Qed.
End Store.

(** ** The vectors written *)

(** Nothing is set behind the length. *)
Definition clean (bv : BitVector) : Prop := wf bv /\ forall j, bvLen bv <= Z.of_nat j -> bit (b bv) j = false.

Definition old_bit (old : option BitVector) (j : nat) : bool := match old with Some bv => bit (b bv) j | None => false end.

Lemma of_bits_Ok {A} (r : result bitError A) a : of_bits r = Ok a -> r = Ok a.
Proof. by destruct r as [x|[]]; cbn; [intros [= ->]|..]. Qed.

Lemma next_bits_spec old k l r : (forall bv, old = Some bv -> clean bv) -> 0 <= k < l -> next_bits old k l = Ok r ->
  match r with
  | Some bv => clean bv /\ (forall j, bit (b bv) j = old_bit old j || (j =? Z.to_nat k)%nat)
  | None => exists bv, old = Some bv /\ bit (b bv) (Z.to_nat k) = true
  end.
Proof.
  intros Hold Hk. unfold next_bits.
  assert (Hset : forall bv0 bv, clean bv0 -> l <= bvLen bv0 -> (forall j, bit (b bv0) j = old_bit old j) -> Set_ bv0 k = Ok bv ->
    clean bv /\ (forall j, bit (b bv) j = old_bit old j || (j =? Z.to_nat k)%nat)).
  { intros bv0 bv [Hw Hc] Hl Hb Hs. destruct (set_Ok bv0 k true bv Hw ltac:(lia) Hs) as (Hw' & Hl' & Hb'). split; [split; [done|]|].
    - intros j Hj. rewrite Hb'. rewrite decide_False by lia. apply Hc. lia.
    - intros j. rewrite Hb', Hb. case_decide as Hd; [subst j; rewrite Nat.eqb_refl; by rewrite orb_true_r|].
      rewrite (proj2 (Nat.eqb_neq _ _)) by done. by rewrite orb_false_r. }
  destruct old as [bv0|].
  - destruct (Hold bv0 eq_refl) as [Hw Hc]. destruct (Z.ltb_spec (Len bv0) l) as [Hlt|Hge]; unfold Len in *.
    + destruct (BitVector.New l) as [nb|e] eqn:Hn; [|by destruct e]. cbn [of_bits mbind result_bind].
      destruct (New_bits l nb Hn) as (Hwn & Hln & Hbn). destruct (SetBytes nb (Bytes bv0)) as [nb2|e] eqn:Hs; [|by destruct e].
      cbn [of_bits mbind result_bind]. destruct (SetBytes_Ok _ _ _ Hwn (proj2 Hw) Hs) as (Hw2 & Hl2 & Hb2).
      destruct (Set_ nb2 k) as [bv|e] eqn:Hset2; [|by destruct e]. cbn [of_bits mbind result_bind]. intros [= <-].
      apply (Hset nb2); [split; [done|]|lia| |done].
      * intros j Hj. rewrite Hb2, Hbn. cbn [orb]. apply Hc. lia.
      * intros j. rewrite Hb2, Hbn. done.
    + destruct (BitVector.Get bv0 k) as [x|e] eqn:Hg; [|by destruct e]. cbn [of_bits mbind result_bind].
      assert (Hx : x = bit (b bv0) (Z.to_nat k)).
      { rewrite <- (Z2Nat.id k) in Hg by lia. destruct Hw as [Hw _]. rewrite Get_bit in Hg by lia. by injection Hg as <-. }
      destruct x; cbn [mbind result_bind]; [intros [= <-]; by exists bv0|].
      destruct (Set_ bv0 k) as [bv|e] eqn:Hset2; [|by destruct e]. cbn [of_bits mbind result_bind]. intros [= <-].
      by apply (Hset bv0).
  - destruct (BitVector.New l) as [nb|e] eqn:Hn; [|by destruct e]. cbn [of_bits mbind result_bind].
    destruct (New_bits l nb Hn) as (Hwn & Hln & Hbn). destruct (Set_ nb k) as [bv|e] eqn:Hset2; [|by destruct e]. cbn [of_bits mbind result_bind].
    intros [= <-]. apply (Hset nb); [split; [done|]|lia|done|done]. intros j _. apply Hbn.
Qed.

Lemma merged_bits_wf old bs l bv : (forall bv, old = Some bv -> wf bv) -> bytes_ok bs -> merged_bits old bs l = Ok bv -> wf bv.
Proof.
  intros Hold Hbs. unfold merged_bits. destruct old as [bv0|].
  - specialize (Hold bv0 eq_refl). destruct (Len bv0 <? l).
    + destruct (NewFromBytes bs l) as [nb|e] eqn:Hn; [|by destruct e]. cbn [of_bits mbind result_bind]. intros Hs%of_bits_Ok.
      destruct (NewFromBytes_Ok _ _ _ Hbs Hn) as (Hwn & _). apply (SetBytes_Ok _ _ _ Hwn (proj2 Hold) Hs).
    + intros Hs%of_bits_Ok. apply (SetBytes_Ok _ _ _ Hold Hbs Hs).
  - intros Hs%of_bits_Ok. by apply (NewFromBytes_Ok _ _ _ Hbs Hs).
Qed.

(** ** Histories *)
Section Runs.
Context {S V : Type} `{ST : StateStorer S V} `{CB' : Codec BitVector V}.

Abbreviation chunkStore := (chunkStore (S := S)).

Inductive op :=
| OPut (now : Z) (t : ChunkType) (reference : Address) (p : Provider)
| ORemove (t : ChunkType) (reference overlay : Address)
| ORemoveAll (t : ChunkType) (reference : Address)
| OStartFinder (rootCid : Address)
| OCancelFinder (rootCid : Address).

Definition exec (cs : chunkStore) (o : op) : chunkStore * result chunkError unit :=
  match o with
  | OPut now t reference p => Put now cs t reference [p]
  | ORemove t reference overlay => Remove cs t reference overlay
  | ORemoveAll t reference => RemoveAll cs t reference
  | OStartFinder rootCid => (StartFinder cs rootCid, Ok tt)
  | OCancelFinder rootCid => (CancelFinder cs rootCid, Ok tt)
  end.

Fixpoint run (cs : chunkStore) (ops : list op) : chunkStore * result chunkError unit :=
  match ops with
  | [] => (cs, Ok tt)
  | o :: ops => match exec cs o with (cs, Ok _) => run cs ops | (cs, Err e) => (cs, Err e) end
  end.

(** Addresses are bytes, and the bit is one of the file. *)
Definition op_ok (o : op) : Prop :=
  match o with
  | OPut _ _ reference p => bytes_ok reference /\ bytes_ok (Overlay p) /\ bytes_ok (PB p) /\ 0 <= Bit p < PLen p
  | ORemove _ reference overlay => bytes_ok reference /\ bytes_ok overlay
  | ORemoveAll _ reference => bytes_ok reference
  | OStartFinder _ | OCancelFinder _ => True
  end.

(** The store changes below the prefix only. *)
Definition touches (prefix : bytes) (st st' : S) : Prop := forall k, ~ prefix `prefix_of` k -> sget st' k = sget st k.

Lemma key_prefix prefix r o : prefix `prefix_of` generateKey prefix r o.
Proof. by eexists. Qed.

Lemma put_touches prefix st r o (bv : BitVector) st' : StateStore.Put st (generateKey prefix r o) bv = Ok st' -> touches prefix st st'.
Proof. intros HP k Hk. rewrite (sget_put _ _ _ _ k HP), decide_False; [done|]. intros ->. apply Hk, key_prefix. Qed.

Lemma remove_peer_touches {D} (m : table D) prefix r o st m' st' x : remove_peer m prefix r o st = (m', st', x) -> touches prefix st st'.
Proof.
  unfold remove_peer. destruct (has m r o); [|by intros [= _ <- _]].
  destruct (sdelete st (generateKey prefix r o)) as [st1|e] eqn:Hdel; intros [= _ <- _]; [|done].
  intros k Hk. rewrite (sget_delete _ _ _ k Hdel), decide_False; [done|]. intros ->. apply Hk, key_prefix.
Qed.

Lemma remove_root_touches {D} (bits : D -> BitVector) (m : table D) prefix r st m' st' x : bytes_ok r -> synced bits prefix m st ->
  remove_root m prefix r st = (m', st', x) -> touches prefix st st'.
Proof.
  intros Hr Hs. unfold remove_root. destruct (m !! Boson.String r) as [v|] eqn:Hv; [|by intros [= _ <- _]].
  destruct (delete_keys prefix r (map fst (map_to_list v)) st) as [st1 y] eqn:Hdel.
  assert (Hnames : Forall (fun n => exists o, bytes_ok o /\ n = Boson.String o) (map fst (map_to_list v))).
  { apply Forall_forall. intros n ([on d] & -> & Hin%elem_of_map_to_list)%list_elem_of_fmap.
    destruct (s_names _ _ _ _ Hs _ _ _ _ Hv Hin) as (_ & o & _ & Ho & _ & E). by exists o. }
  intros E. assert (st' = st1) as -> by (destruct y; by injection E as _ <- _). intros k Hk.
  destruct (delete_keys_get _ _ _ _ _ _ Hr Hnames Hdel k) as [?|[_ (o & _ & _ & ->)]]; [done|]. destruct Hk. apply key_prefix.
Qed.

Lemma synced_apart {D} (bits : D -> BitVector) p q m st st' : hd 0 p <> hd 0 q -> p <> [] -> q <> [] -> touches p st st' ->
  synced bits q m st -> synced bits q m st'.
Proof.
  intros Hne Hp Hq Ht. apply synced_same. intros k [x ->]. apply Ht. intros [y E]. destruct p, q; try done. by injection E.
Qed.

(** ** What was recorded *)

(** Bit [k] of the peer named [on] for the root named [rn] in the table [t], after
    the operation. *)
Definition record (t : ChunkType) (rn on : bytes) (k : nat) (set : bool) (o : op) : bool :=
  match o with
  | OPut _ t' reference p =>
      if decide (t' = t /\ Boson.String reference = rn /\ Boson.String (Overlay p) = on /\ Z.to_nat (Bit p) = k) then true else set
  | ORemove t' reference overlay => if decide (t' = t /\ Boson.String reference = rn /\ Boson.String overlay = on) then false else set
  | ORemoveAll t' reference => if decide (t' = t /\ Boson.String reference = rn) then false else set
  | OStartFinder _ | OCancelFinder _ => set
  end.

Definition recorded (t : ChunkType) (ops : list op) (rn on : bytes) (k : nat) : bool := foldl (record t rn on k) false ops.

Lemma recorded_snoc t ops o rn on k : recorded t (ops ++ [o]) rn on k = record t rn on k (recorded t ops rn on k) o.
Proof. unfold recorded. by rewrite foldl_app. Qed.

(** A table of single bits holds what was recorded, in memory and in the store. *)
Record kept (t : ChunkType) (prefix : bytes) (m : table BitVector) (st : S) (ops : list op) : Prop := {
  k_synced : synced (fun bv => bv) prefix m st;
  k_clean r o bv : bytes_ok r -> bytes_ok o -> find m r o = Some bv -> clean bv;
  k_bits r o k : bytes_ok r -> bytes_ok o -> old_bit (find m r o) k = recorded t ops (Boson.String r) (Boson.String o) k;
}.

(** An operation on another table. *)
Lemma kept_other t prefix m st st' ops o p : kept t prefix m st ops -> hd 0 p <> hd 0 prefix -> p <> [] -> prefix <> [] -> touches p st st' ->
  (forall rn on k x, record t rn on k x o = x) -> kept t prefix m st' (ops ++ [o]).
Proof.
  intros [H1 H2 H3] Hne Hp Hq Ht Hr. split; [by apply (synced_apart _ p prefix m st)|exact H2|].
  intros r o' k Hrk Ho. rewrite recorded_snoc, Hr. by apply H3.
Qed.

Lemma kept_put t prefix m st ops now r p x st' : dash ∉ prefix -> kept t prefix m st ops -> op_ok (OPut now t r p) ->
  next_bits (find m r (Overlay p)) (Bit p) (PLen p) = Ok x ->
  match x with Some bv => StateStore.Put st (generateKey prefix r (Overlay p)) bv = Ok st' | None => st' = st end ->
  kept t prefix (match x with Some bv => put_entry m r (Overlay p) bv | None => m end) st' (ops ++ [OPut now t r p]).
Proof.
  intros Hdash [H1 H2 H3] (Hr & Ho & _ & Hk) Hn HP. pose proof (next_bits_spec _ _ _ _ (fun bv => H2 r (Overlay p) bv Hr Ho) Hk Hn) as Hs.
  destruct x as [bv|].
  - destruct Hs as [Hc Hb]. split; [apply (synced_put (fun bv => bv) prefix m st r (Overlay p) bv); try done; apply Hc|..].
    + intros r' o' bv' Hr' Ho'. rewrite find_put. case_decide; [by intros [= <-]|by apply H2].
    + intros r' o' k Hr' Ho'. rewrite find_put, recorded_snoc, <- (H3 r' o' k) by done. cbn [record].
      destruct (decide (Boson.String r = Boson.String r' /\ Boson.String (Overlay p) = Boson.String o')) as [[Er Eo]|Hne].
      * apply EncodeToString_inj in Er as <-; [|done..]. apply EncodeToString_inj in Eo as <-; [|done..]. cbn [old_bit]. rewrite Hb.
        case_decide as Hd; [destruct Hd as (_ & _ & _ & ->); rewrite Nat.eqb_refl; by rewrite orb_true_r|].
        rewrite (proj2 (Nat.eqb_neq k (Z.to_nat (Bit p)))) by naive_solver. by rewrite orb_false_r.
      * rewrite (decide_False (P := _ /\ _)) by naive_solver. done.
  - destruct Hs as (bv & Hf & Hb). subst st'. split; [done|done|]. intros r' o' k Hr' Ho'. rewrite recorded_snoc, <- (H3 r' o' k) by done. cbn [record].
    case_decide as Hd; [|done]. destruct Hd as (_ & Er & Eo & <-). apply EncodeToString_inj in Er as <-; [|done..].
    apply EncodeToString_inj in Eo as <-; [|done..]. by rewrite Hf.
Qed.

Lemma kept_remove_peer t prefix m st ops r o m' st' : dash ∉ prefix -> kept t prefix m st ops -> bytes_ok r -> bytes_ok o ->
  remove_peer m prefix r o st = (m', st', Ok tt) -> kept t prefix m' st' (ops ++ [ORemove t r o]).
Proof.
  intros Hdash [H1 H2 H3] Hr Ho E. pose proof (synced_remove_peer _ _ _ _ _ _ _ _ _ Hdash Hr Ho H1 E) as Hs.
  assert (Hf : forall r' o', find m' r' o' = if decide (Boson.String r = Boson.String r' /\ Boson.String o = Boson.String o') then None else find m r' o').
  { unfold remove_peer, has in E. destruct (find m r o) as [bv|] eqn:Hf.
    - destruct (sdelete st (generateKey prefix r o)); [|done]. injection E as <- _. apply find_delete.
    - injection E as <- _. intros r' o'. case_decide as Hd; [|done]. destruct Hd as [Er Eo]. unfold find in *. by rewrite <- Er, <- Eo. }
  split; [done|..].
  - intros r' o' bv Hr' Ho'. rewrite Hf. case_decide; [done|by apply H2].
  - intros r' o' k Hr' Ho'. rewrite Hf, recorded_snoc, <- (H3 r' o' k) by done. cbn [record]. repeat case_decide; naive_solver.
Qed.

Lemma kept_remove_root t prefix m st ops r m' st' : dash ∉ prefix -> kept t prefix m st ops -> bytes_ok r ->
  remove_root m prefix r st = (m', st', Ok tt) -> kept t prefix m' st' (ops ++ [ORemoveAll t r]).
Proof.
  intros Hdash [H1 H2 H3] Hr E. pose proof (synced_remove_root _ _ _ _ _ _ _ Hdash Hr H1 E) as Hs.
  assert (Hf : forall r' o', find m' r' o' = if decide (Boson.String r = Boson.String r') then None else find m r' o').
  { unfold remove_root in E. destruct (m !! Boson.String r) as [v|] eqn:Hv.
    - destruct (delete_keys prefix r (map fst (map_to_list v)) st) as [st1 [[]|e]]; [|done]. injection E as <- _. apply find_delete_root.
    - injection E as <- _. intros r' o'. case_decide as Hd; [|done]. unfold find. by rewrite <- Hd, Hv. }
  split; [done|..].
  - intros r' o' bv Hr' Ho'. rewrite Hf. case_decide; [done|by apply H2].
  - intros r' o' k Hr' Ho'. rewrite Hf, recorded_snoc, <- (H3 r' o' k) by done. cbn [record]. repeat case_decide; naive_solver.
Qed.

Record history (cs : chunkStore) (ops : list op) : Prop := {
  h_source : kept SOURCE sourceKeyPrefix (source cs) (stateStore cs) ops;
  h_service : kept SERVICE keyPrefix (service cs) (stateStore cs) ops;
  h_discover : synced dbit discoverKeyPrefix (discover cs) (stateStore cs);
}.

Lemma dashes : (dash ∉ sourceKeyPrefix) /\ (dash ∉ keyPrefix) /\ (dash ∉ discoverKeyPrefix).
Proof. repeat split; apply (bool_decide_unpack _); vm_compute; exact I. Qed.

Lemma Put_one (f : chunkStore -> Provider -> chunkStore * result chunkError unit) cs p cs' :
  put_each f cs [p] (Ok tt) = (cs', Ok tt) -> f cs p = (cs', Ok tt).
Proof. cbn [put_each]. destruct (f cs p) as [cs1 [[]|[]]]; by intros [= <-]. Qed.

Lemma put_bit_Ok get_table set_table prefix (cs cs' : chunkStore) r o k l : (forall m, stateStore (set_table cs m) = stateStore cs) ->
  put_bit get_table set_table prefix cs r o k l = (cs', Ok tt) ->
  exists x st', next_bits (find (get_table cs) r o) k l = Ok x /\
    match x with Some bv => StateStore.Put (stateStore cs) (generateKey prefix r o) bv = Ok st' | None => st' = stateStore cs end /\
    cs' = match x with Some bv => set_state (set_table cs (put_entry (get_table cs) r o bv)) st' | None => cs end.
Proof.
  intros Hst. unfold put_bit. destruct (next_bits _ k l) as [[bv|]|e]; [| |done].
  - unfold persist. rewrite Hst. destruct (StateStore.Put _ _ bv) as [st'|e] eqn:HP; [|done]. intros [= <-]. by exists (Some bv), st'.
  - intros [= <-]. by exists None, (stateStore cs).
Qed.

Lemma put_touches_opt prefix st r o (x : option BitVector) st' :
  match x with Some bv => StateStore.Put st (generateKey prefix r o) bv = Ok st' | None => st' = st end -> touches prefix st st'.
Proof. destruct x; [apply put_touches|by intros ->]. Qed.

Ltac other p Ht :=
  first [ eapply (kept_other _ _ _ _ _ _ _ p);
            [eassumption|by vm_compute|by vm_compute|by vm_compute|exact Ht|intros rn on k x; cbn [record]; by rewrite decide_False by naive_solver]
        | eapply (synced_apart _ p); [by vm_compute|by vm_compute|by vm_compute|exact Ht|eassumption] ].

Lemma exec_put now t r p cs ops cs' : history cs ops -> op_ok (OPut now t r p) -> exec cs (OPut now t r p) = (cs', Ok tt) ->
  history cs' (ops ++ [OPut now t r p]).
Proof.
  intros [H1 H2 H3] Hok. pose proof Hok as (Hr & Ho & Hb & Hk). destruct dashes as (D1 & D2 & D3). cbn [exec].
  destruct t; cbn [Put]; [..|done]; intros E%Put_one.
  - unfold putDiscover in E. destruct (merged_bits (dbit <$> find (discover cs) r (Overlay p)) (PB p) (PLen p)) as [bv|e] eqn:Hm; [|done].
    unfold persist in E. cbn [stateStore set_discover] in E. destruct (StateStore.Put (stateStore cs) _ bv) as [st'|e] eqn:HP; [|done].
    injection E as <-. pose proof (put_touches _ _ _ _ _ _ HP) as Ht.
    assert (Hw : wf bv).
    { eapply merged_bits_wf; [|exact Hb|exact Hm]. intros bv0 Hf. apply (stored_wf _ _ _ _ r (Overlay p) bv0 H3).
      rewrite <- (s_find _ _ _ _ H3) by done. done. }
    split; cbn [source service discover stateStore set_state set_discover].
    + other discoverKeyPrefix Ht.
    + other discoverKeyPrefix Ht.
    + set (d := match find (discover cs) r (Overlay p) with Some data => _ | None => _ end).
      assert (Hd : dbit d = bv) by (unfold d; by destruct (find (discover cs) r (Overlay p))).
      apply (synced_put dbit _ _ (stateStore cs)); try done; by rewrite Hd.
  - destruct (put_bit_Ok service set_service keyPrefix cs cs' r (Overlay p) (Bit p) (PLen p) ltac:(done) E) as (x & st' & Hn & HP & ->).
    pose proof (put_touches_opt _ _ _ _ _ _ HP) as Ht. pose proof (kept_put _ _ _ _ _ _ _ _ _ _ D2 H2 Hok Hn HP) as Hkept.
    destruct x as [bv|]; [|subst st']; split; cbn [source service discover stateStore set_state set_service]; try exact Hkept; other keyPrefix Ht.
  - destruct (put_bit_Ok source set_source sourceKeyPrefix cs cs' r (Overlay p) (Bit p) (PLen p) ltac:(done) E) as (x & st' & Hn & HP & ->).
    pose proof (put_touches_opt _ _ _ _ _ _ HP) as Ht. pose proof (kept_put _ _ _ _ _ _ _ _ _ _ D1 H1 Hok Hn HP) as Hkept.
    destruct x as [bv|]; [|subst st']; split; cbn [source service discover stateStore set_state set_source]; try exact Hkept; other sourceKeyPrefix Ht.
Qed.

Lemma exec_remove t r o cs ops cs' : history cs ops -> bytes_ok r -> bytes_ok o -> exec cs (ORemove t r o) = (cs', Ok tt) ->
  history cs' (ops ++ [ORemove t r o]).
Proof.
  intros [H1 H2 H3] Hr Ho. destruct dashes as (D1 & D2 & D3). cbn [exec]. destruct t; cbn [Remove]; [..|done].
  - unfold removeDiscoverByOverlay. destruct (remove_peer (discover cs) discoverKeyPrefix r o (stateStore cs)) as [[m st] x] eqn:E. intros [= <- ->].
    pose proof (remove_peer_touches _ _ _ _ _ _ _ _ E) as Ht.
    split; cbn [source service discover stateStore set_state set_discover]; [other discoverKeyPrefix Ht|other discoverKeyPrefix Ht|exact (synced_remove_peer _ _ _ _ _ _ _ _ _ D3 Hr Ho H3 E)].
  - unfold removeServiceByOverlay. destruct (remove_peer (service cs) keyPrefix r o (stateStore cs)) as [[m st] x] eqn:E. intros [= <- ->].
    pose proof (remove_peer_touches _ _ _ _ _ _ _ _ E) as Ht.
    split; cbn [source service discover stateStore set_state set_service]; [other keyPrefix Ht|exact (kept_remove_peer _ _ _ _ _ _ _ _ _ D2 H2 Hr Ho E)|other keyPrefix Ht].
  - unfold removeSourceByOverlay. destruct (remove_peer (source cs) sourceKeyPrefix r o (stateStore cs)) as [[m st] x] eqn:E. intros [= <- ->].
    pose proof (remove_peer_touches _ _ _ _ _ _ _ _ E) as Ht.
    split; cbn [source service discover stateStore set_state set_source]; [exact (kept_remove_peer _ _ _ _ _ _ _ _ _ D1 H1 Hr Ho E)|other sourceKeyPrefix Ht|other sourceKeyPrefix Ht].
Qed.

Lemma exec_remove_all t r cs ops cs' : history cs ops -> bytes_ok r -> exec cs (ORemoveAll t r) = (cs', Ok tt) ->
  history cs' (ops ++ [ORemoveAll t r]).
Proof.
  intros [H1 H2 H3] Hr. destruct dashes as (D1 & D2 & D3). cbn [exec]. destruct t; cbn [RemoveAll]; [..|done].
  - unfold removeDiscover. destruct (remove_root (discover cs) discoverKeyPrefix r (stateStore cs)) as [[m st] x] eqn:E. intros [= <- ->].
    pose proof (remove_root_touches _ _ _ _ _ _ _ _ Hr H3 E) as Ht.
    split; cbn [source service discover stateStore set_state set_discover]; [other discoverKeyPrefix Ht|other discoverKeyPrefix Ht|].
    exact (synced_remove_root _ _ _ _ _ _ _ D3 Hr H3 E).
  - unfold removeService. destruct (remove_root (service cs) keyPrefix r (stateStore cs)) as [[m st] x] eqn:E. intros [= <- ->].
    pose proof (remove_root_touches _ _ _ _ _ _ _ _ Hr (k_synced _ _ _ _ _ H2) E) as Ht.
    split; cbn [source service discover stateStore set_state set_service]; [other keyPrefix Ht| |other keyPrefix Ht].
    exact (kept_remove_root _ _ _ _ _ _ _ _ D2 H2 Hr E).
  - unfold removeSource. destruct (remove_root (source cs) sourceKeyPrefix r (stateStore cs)) as [[m st] x] eqn:E. intros [= <- ->].
    pose proof (remove_root_touches _ _ _ _ _ _ _ _ Hr (k_synced _ _ _ _ _ H1) E) as Ht.
    split; cbn [source service discover stateStore set_state set_source]; [|other sourceKeyPrefix Ht|other sourceKeyPrefix Ht].
    exact (kept_remove_root _ _ _ _ _ _ _ _ D1 H1 Hr E).
Qed.

(** The finder is in memory only, and apart from the tables. *)
Lemma history_finder cs ops o f : history cs ops -> (forall t rn on k x, record t rn on k x o = x) -> history (set_finder cs f) (ops ++ [o]).
Proof.
  intros [H1 H2 H3] Hr. split; [| |exact H3].
  - apply (kept_other _ _ _ _ _ _ _ keyPrefix H1); [by vm_compute..|done|apply Hr].
  - apply (kept_other _ _ _ _ _ _ _ sourceKeyPrefix H2); [by vm_compute..|done|apply Hr].
Qed.

Lemma exec_history cs ops o cs' : history cs ops -> op_ok o -> exec cs o = (cs', Ok tt) -> history cs' (ops ++ [o]).
Proof.
  destruct o; intros Hh Hok E.
  - by eapply exec_put.
  - destruct Hok. by eapply exec_remove.
  - by eapply exec_remove_all.
  - injection E as <-. by apply history_finder.
  - injection E as <-. by apply history_finder.
Qed.

Lemma run_history ops : forall cs done cs', history cs done -> Forall op_ok ops -> run cs ops = (cs', Ok tt) -> history cs' (done ++ ops).
Proof.
  induction ops as [|o ops IH]; intros cs done cs' Hh Hok E; cbn [run] in E; [injection E as <-; by rewrite app_nil_r|].
  apply Forall_cons in Hok as [Ho Hok]. destruct (exec cs o) as [cs1 [[]|e]] eqn:Ex; [|done].
  rewrite cons_middle, app_assoc. apply (IH cs1); [by apply (exec_history cs)|done|done].
Qed.

(** No keys below the prefixes. *)
Definition fresh (st : S) : Prop := skeys st sourceKeyPrefix = [] /\ skeys st keyPrefix = [] /\ skeys st discoverKeyPrefix = [].

Lemma fresh_synced {D} (bits : D -> BitVector) prefix st : skeys st prefix = [] -> synced bits prefix ∅ st.
Proof.
  intros H. split.
  - intros k. rewrite H. by intros ?%elem_of_nil.
  - intros r o _ _. unfold stored, StateStore.Get. destruct (sget st (generateKey prefix r o)) as [v|e] eqn:Hg; [|done].
    destruct (not_elem_of_nil (generateKey prefix r o)). rewrite <- H. apply skeys_spec. split; [apply key_prefix|]. by rewrite Hg.
  - intros rn v on d. by rewrite lookup_empty.
Qed.

Lemma fresh_history st : fresh st -> history (New st) [].
Proof.
  intros (F1 & F2 & F3). split; [| |by apply fresh_synced].
  - split; [by apply fresh_synced| |]; intros r o; unfold find; cbn; by rewrite lookup_empty.
  - split; [by apply fresh_synced| |]; intros r o; unfold find; cbn; by rewrite lookup_empty.
Qed.

(** ** Looking up a bit *)

Lemma any_bit_spec l k : Forall clean l -> 0 <= k -> any_bit l k = Ok (existsb (fun bv => bit (b bv) (Z.to_nat k)) l).
Proof.
  intros Hl Hk. induction Hl as [|bv l [Hw Hc] Hl IH]; [done|]. cbn [any_bit existsb]. destruct (Z.ltb_spec k (Len bv)) as [Hlt|Hge]; unfold Len in *.
  - rewrite <- (Z2Nat.id k) at 1 by done. destruct Hw as [Hlen _]. rewrite Get_bit by lia. cbn [of_bits mbind result_bind].
    by destruct (bit (b bv) (Z.to_nat k)).
  - cbn [mbind result_bind]. rewrite IH, Hc by lia. done.
Qed.

Lemma has_bit_spec t prefix m st ops r k : kept t prefix m st ops -> bytes_ok r -> 0 <= k ->
  exists x, has_bit (fun bv => bv) m r k = Ok x /\
    (x = true <-> exists o, bytes_ok o /\ recorded t ops (Boson.String r) (Boson.String o) (Z.to_nat k) = true).
Proof.
  intros [H1 H2 H3] Hr Hk. unfold has_bit. destruct (m !! Boson.String r) as [v|] eqn:Hv.
  2:{ exists false. split; [done|]. split; [done|]. intros (o & Ho & E). rewrite <- (H3 r o _ Hr Ho) in E. unfold find in E. by rewrite Hv in E. }
  assert (Hin : forall on bv, (on, bv) ∈ map_to_list v -> exists o, bytes_ok o /\ on = Boson.String o /\ find m r o = Some bv).
  { intros on bv Hl%elem_of_map_to_list. destruct (s_names _ _ _ _ H1 _ _ _ _ Hv Hl) as (_ & o & _ & Ho & _ & ->).
    exists o. unfold find. by rewrite Hv. }
  rewrite any_bit_spec; [eexists; split; [reflexivity|]|apply Forall_forall|done].
  - rewrite existsb_exists. split.
    + intros (bv & ([on bv'] & -> & Hl)%list_elem_of_In%list_elem_of_fmap & Hb). destruct (Hin _ _ Hl) as (o & Ho & _ & Hf).
      exists o. split; [done|]. by rewrite <- (H3 r o _ Hr Ho), Hf.
    + intros (o & Ho & E). rewrite <- (H3 r o _ Hr Ho) in E. unfold find in E. rewrite Hv in E. cbn [mbind option_bind] in E.
      destruct (v !! Boson.String o) as [bv|] eqn:Hl; [|done]. exists bv. split; [|done].
      apply list_elem_of_In, list_elem_of_fmap. exists (Boson.String o, bv). split; [done|by apply elem_of_map_to_list].
  - intros bv ([on bv'] & -> & Hl)%list_elem_of_fmap. destruct (Hin _ _ Hl) as (o & Ho & _ & Hf). by apply (H2 r o).
Qed.

Lemma bits_of t prefix m st ops r o : kept t prefix m st ops -> bytes_ok r -> bytes_ok o -> forall j,
  bit (CB match find m r o with Some bv => bits_consumer bv o | None => noConsumer end) j = recorded t ops (Boson.String r) (Boson.String o) j.
Proof. intros Hm Hr Ho j. rewrite <- (k_bits _ _ _ _ _ Hm r o j Hr Ho). destruct (find m r o); [done|]. cbn. by apply bit_out; cbn; lia. Qed.
End Runs.

(** C23: the tables say what was recorded.  Start on a store without entries and run
    any calls of [Put], [Remove], [RemoveAll], [StartFinder] and [CancelFinder] on the
    three tables, in any order, that all succeed, where addresses are bytes and the
    bits put are inside the file.  Then for the source and for the service table,
    [HasChunk] answers without a panic, and answers true exactly if the bit was put
    for some peer and neither the peer nor the root was removed from that table
    since; and the vector [GetByOverlay] returns for a peer has exactly the bits put
    for it since. *)
Theorem chunkstore_refines {S V : Type} `{ST : StateStorer S V} `{CB' : Codec BitVector V} (st : S) (ops : list op) cs t r k :
  fresh st -> Forall op_ok ops -> run (New st) ops = (cs, Ok tt) -> t = SOURCE \/ t = SERVICE -> bytes_ok r -> 0 <= k ->
  (exists x, HasChunk cs t r k = Ok x /\
     (x = true <-> exists o, bytes_ok o /\ recorded t ops (Boson.String r) (Boson.String o) (Z.to_nat k) = true)) /\
  (forall o, bytes_ok o -> exists c, GetByOverlay cs t r o = Ok c /\
     forall j, bit (CB c) j = recorded t ops (Boson.String r) (Boson.String o) j).
Proof.
  intros Hf Hok E Ht Hr Hk. destruct (run_history ops (New st) [] cs (fresh_history st Hf) Hok E) as [H1 H2 _].
  destruct Ht as [-> | ->]; (split; [by eapply has_bit_spec|]); intros o Ho; eexists; (split; [reflexivity|]); by eapply bits_of.
Qed.

(** C24: a restart keeps the tables.  After a run as above, [Init] of a new chunk store over
    the state store the run left succeeds, and for every root and peer it returns
    the vectors the old one had: the same consumer from the source and the service
    table, and from the discover table the same up to the time, which becomes the
    time of the restart.  Searches in progress are forgotten. *)
Theorem chunkstore_restart {S V : Type} `{ST : StateStorer S V} `{CB' : Codec BitVector V} (st : S) (ops : list op) cs now :
  fresh st -> Forall op_ok ops -> run (New st) ops = (cs, Ok tt) ->
  exists cs', Init now (New (stateStore cs)) = Ok cs' /\ forall r o, bytes_ok r -> bytes_ok o ->
    GetByOverlay cs' SOURCE r o = GetByOverlay cs SOURCE r o /\
    GetByOverlay cs' SERVICE r o = GetByOverlay cs SERVICE r o /\
    (c ← GetByOverlay cs' DISCOVER r o; Ok (COverlay c, CLen c, CB c)) = (c ← GetByOverlay cs DISCOVER r o; Ok (COverlay c, CLen c, CB c)) /\
    IsFinder cs' r = false.
Proof.
  intros Hf Hok E. destruct (run_history ops (New st) [] cs (fresh_history st Hf) Hok E) as [[H1 _ _] [H2 _ _] H3]. destruct dashes as (D1 & D2 & D3).
  destruct (load_synced _ (fun bv => bv) _ _ _ D1 (fun bv => eq_refl) H1) as (m1 & E1 & F1).
  destruct (load_synced _ (fun bv => bv) _ _ _ D2 (fun bv => eq_refl) H2) as (m2 & E2 & F2).
  destruct (load_synced _ (fun bv => MkDiscover bv now) _ _ _ D3 (fun bv => eq_refl) H3) as (m3 & E3 & F3).
  exists (MkChunkStore (stateStore cs) m1 m2 m3 ∅). split.
  - unfold Init, initService, initDiscover, initSource. cbn [New stateStore service]. rewrite E2.
    cbn [mbind result_bind set_service New stateStore discover source service]. rewrite E3. cbn [mbind result_bind set_discover set_service New stateStore discover source service]. by rewrite E1.
  - intros r o Hr Ho. specialize (F1 r o Hr Ho). specialize (F2 r o Hr Ho). specialize (F3 r o Hr Ho). rewrite !option_fmap_id in F1, F2.
    cbn [GetByOverlay source service discover]. rewrite F1, F2. repeat split.
    destruct (find m3 r o) as [[]|], (find (discover cs) r o) as [[]|]; try done. by injection F3 as ->.
Qed.

(** Two peers of one file, in the three tables, over a store in memory. *)
Definition bits_codec : Codec BitVector BitVector.
Proof. by refine {| marshal := fun bv => bv; unmarshal := Some |}. Defined.

#[local] Existing Instance memory_store.
#[local] Existing Instance bits_codec.

Definition toy_ops : list op :=
  [OPut 5 SOURCE [1] (MkProvider [2] 9 12 [] 0); OPut 6 DISCOVER [1] (MkProvider [2] 0 12 [3; 8] 0); OStartFinder [1];
   OPut 7 SERVICE [1] (MkProvider [3] 4 12 [] 0); OPut 8 SOURCE [1] (MkProvider [3] 0 12 [] 0); ORemove SOURCE [1] [3]].

Definition toy_run_ops := run (New (∅ : gmap bytes BitVector)) toy_ops.

Lemma toy_ops_ok : Forall op_ok toy_ops.
Proof. repeat (constructor; [cbn; repeat split; repeat constructor; lia|]). constructor. Qed.

Lemma toy_fresh : fresh (∅ : gmap bytes BitVector).
Proof. repeat split. Qed.

Lemma toy_ops_run : toy_run_ops = (toy_run_ops.1, Ok tt).
Proof. assert (E : toy_run_ops.2 = Ok tt) by (vm_compute; reflexivity). rewrite <- E. apply surjective_pairing. Qed.

Lemma chunkstore_refines_witness : HasChunk toy_run_ops.1 SOURCE [1] 9 = Ok true /\ HasChunk toy_run_ops.1 SOURCE [1] 0 = Ok false.
Proof.
  split.
  - destruct (chunkstore_refines ∅ toy_ops toy_run_ops.1 SOURCE [1] 9 toy_fresh toy_ops_ok toy_ops_run) as [(x & -> & Hx) _];
      [by left|repeat constructor; lia|lia|]. f_equal. apply Hx. exists [2]. split; [repeat constructor; lia|vm_compute; reflexivity].
  - vm_compute. reflexivity.
Defined.

Lemma chunkstore_restart_witness : exists cs', Init 100 (New (stateStore toy_run_ops.1)) = Ok cs' /\
  GetByOverlay cs' SOURCE [1] [2] = Ok (MkConsumer [2] 12 [0; 2] 0).
Proof.
  destruct (chunkstore_restart ∅ toy_ops toy_run_ops.1 100 toy_fresh toy_ops_ok toy_ops_run) as (cs' & E & H). exists cs'. split; [exact E|].
  destruct (H [1] [2]) as [-> _]; [repeat constructor; lia..|]. vm_compute. reflexivity.
Defined.
