(* ===== verification/Shed.v ===== *)
(** * Indexes over an ordered key-value store (pkg/shed)

    Items are kept in indexes: key-value pairs below a prefix byte of one ordered
    database.  The database itself (goleveldb or WiredTiger) is an interface with
    its laws; the two drivers of the program differ in their batches, and both are
    modelled: [leveldb] collects the operations of a batch and writes them at
    [Commit], [wiredtiger] writes each at once and does nothing at [Commit].  The
    schema hands out the prefixes; it is that of the leveldb driver. *)

From Stdlib Require Import ZArith Lia ZifyBool.
From stdpp Require Import base gmap list numbers strings sorting.
From S2P Require Import Prelude Boson StateStore.

Open Scope Z_scope.

(** ** Bytes *)

(** [binary.BigEndian.PutUint64] and [Uint64] at eight bytes. *)
Definition be_put (n : nat) (z : Z) : bytes := reverse (le_put n z).
Definition BE_PutUint64 (z : Z) : bytes := be_put 8 z.
Definition BE_Uint64 (l : bytes) : option Z := if (length l <? 8)%nat then None else Some (be_get (take 8 l)).

(** [bytes.Compare(a, b) < 0] *)
Fixpoint blt (a b : bytes) : bool :=
  match a, b with
  | _, [] => false
  | [], _ :: _ => true
  | x :: a, y :: b => if x <? y then true else if y <? x then false else blt a b
  end.

(** The last byte below 255 incremented, what follows it cut off. *)
Fixpoint increment_from (rb : bytes) : option bytes :=
  match rb with
  | [] => None
  | x :: rb => if x =? 255 then increment_from rb else Some (reverse (x + 1 :: rb))
  end.

Definition bytesIncrement (bs : bytes) : option bytes := increment_from (reverse bs).

(** The bytes as a number incremented, [None] if they are all 255. *)
Fixpoint inc_from (rb : bytes) : option bytes :=
  match rb with
  | [] => None
  | x :: rb => if x =? 255 then cons 0 <$> inc_from rb else Some (x + 1 :: rb)
  end.

Definition incByteSlice (bs : bytes) : option bytes := reverse <$> inc_from (reverse bs).

(** ** The database *)

Inductive Driver := leveldb | wiredtiger.

Inductive dbError :=
| ErrNotFound
| errBackend
| errInvalidPrefix
| errBlank
| errFieldType
| errPanic.

#[export] Instance dbError_eq_dec : EqDecision dbError.
Proof. solve_decision. Defined.

Inductive bop :=
| BPut (key value : bytes)
| BDelete (key : bytes).

(** What a list of operations makes of a key that had the value [r]. *)
Definition bop_apply (k : bytes) (r : result dbError bytes) (o : bop) : result dbError bytes :=
  match o with
  | BPut key value => if decide (key = k) then Ok value else r
  | BDelete key => if decide (key = k) then Err ErrNotFound else r
  end.

Class Backend (S : Type) := {
  bget : S -> bytes -> result dbError bytes;
  bput : S -> bytes -> bytes -> result dbError S;
  bdelete : S -> bytes -> result dbError S;
  (** all operations or none *)
  bwrite : S -> list bop -> result dbError S;
  (** the keys, as an iterator goes through them *)
  bkeys : S -> list bytes;
  bget_put : forall st k v st' k', bput st k v = Ok st' -> bget st' k' = bop_apply k' (bget st k') (BPut k v);
  bget_delete : forall st k st' k', bdelete st k = Ok st' -> bget st' k' = bop_apply k' (bget st k') (BDelete k);
  bget_delete_none : forall st k, bdelete st k = Err ErrNotFound -> bget st k = Err ErrNotFound;
  bget_write : forall st ops st' k, bwrite st ops = Ok st' -> bget st' k = foldl (bop_apply k) (bget st k) ops;
  bkeys_spec : forall st k, k ∈ bkeys st <-> bget st k <> Err ErrNotFound;
  bkeys_sorted : forall st, StronglySorted (fun a b => blt a b = true) (bkeys st);
}.

(** ** Items *)

(** A nil slice is [None]. *)
Record Item := MkItem {
  Address : option bytes;
  Data : option bytes;
  AccessTimestamp : Z;
  StoreTimestamp : Z;
  BinID : Z;
  Type_ : Z;
  Counter : Z;
  PinCounter : Z;
  GCounter : Z;
  Tag : Z;
}.

Definition emptyItem : Item := MkItem None None 0 0 0 0 0 0 0 0.

Definition orElse {A} (a b : option A) : option A := match a with Some _ => a | None => b end.
Definition orZero (a b : Z) : Z := if a =? 0 then b else a.

(** [Type] and [Counter] are not merged. *)
Definition Merge (i i2 : Item) : Item :=
  MkItem (orElse (Address i) (Address i2)) (orElse (Data i) (Data i2))
    (orZero (AccessTimestamp i) (AccessTimestamp i2)) (orZero (StoreTimestamp i) (StoreTimestamp i2)) (orZero (BinID i) (BinID i2))
    (Type_ i) (Counter i) (orZero (PinCounter i) (PinCounter i2)) (orZero (GCounter i) (GCounter i2)) (orZero (Tag i) (Tag i2)).

(** ** Indexes *)

(** Decoding panics on bytes that are too short. *)
Record Index := MkIndex {
  prefix : bytes;
  EncodeKey : Item -> bytes;
  DecodeKey : bytes -> option Item;
  EncodeValue : Item -> bytes;
  DecodeValue : bytes -> option Item;
}.

(** An error of the database or of the function given to [Iterate]. *)
Inductive iterError (E : Type) := iterDb (e : dbError) | iterFn (e : E).
Arguments iterDb {E} e.
Arguments iterFn {E} e.

Definition of_panic {A} (o : option A) : result dbError A := match o with Some a => Ok a | None => Err errPanic end.

Section Indexes.
Context {S : Type} `{BE : Backend S}.

Definition encodeKeyFunc (f : Index) (e : Item) : bytes := prefix f ++ EncodeKey f e.
Definition decodeKeyFunc (f : Index) (key : bytes) : result dbError Item := of_panic (DecodeKey f (drop 1 key)).
Definition ItemKey := encodeKeyFunc.

Definition Get (f : Index) (st : S) (keyFields : Item) : result dbError Item :=
  value ← bget st (encodeKeyFunc f keyFields);
  out ← of_panic (DecodeValue f value);
  Ok (Merge out keyFields).

(** A snapshot of the store does not change while it is read. *)
Fixpoint Fill (f : Index) (st : S) (items : list Item) : result dbError (list Item) :=
  match items with
  | [] => Ok []
  | item :: items => v ← Get f st item; items ← Fill f st items; Ok (v :: items)
  end.

Definition Has (f : Index) (st : S) (keyFields : Item) : result dbError bool :=
  match bget st (encodeKeyFunc f keyFields) with
  | Ok _ => Ok true
  | Err ErrNotFound => Ok false
  | Err e => Err e
  end.

Fixpoint HasMulti (f : Index) (st : S) (items : list Item) : result dbError (list bool) :=
  match items with
  | [] => Ok []
  | item :: items => h ← Has f st item; hs ← HasMulti f st items; Ok (h :: hs)
  end.

Definition Put (f : Index) (st : S) (i : Item) : result dbError S := bput st (encodeKeyFunc f i) (EncodeValue f i).

Definition Delete (f : Index) (st : S) (keyFields : Item) : result dbError S :=
  match bdelete st (encodeKeyFunc f keyFields) with Err ErrNotFound => Ok st | r => r end.

(** ** Batches *)

(** A database with a batch that is being filled. *)
Definition batch_put (d : Driver) (sb : S * list bop) (k v : bytes) : result dbError (S * list bop) :=
  match d with
  | leveldb => Ok (sb.1, sb.2 ++ [BPut k v])
  | wiredtiger => st ← bput sb.1 k v; Ok (st, sb.2)
  end.

Definition batch_delete (d : Driver) (sb : S * list bop) (k : bytes) : result dbError (S * list bop) :=
  match d with
  | leveldb => Ok (sb.1, sb.2 ++ [BDelete k])
  | wiredtiger => st ← bdelete sb.1 k; Ok (st, sb.2)
  end.

Definition Commit (d : Driver) (sb : S * list bop) : result dbError S :=
  match d with
  | leveldb => bwrite sb.1 sb.2
  | wiredtiger => Ok sb.1
  end.

Definition PutInBatch (f : Index) (d : Driver) (sb : S * list bop) (i : Item) : result dbError (S * list bop) :=
  batch_put d sb (encodeKeyFunc f i) (EncodeValue f i).

Definition DeleteInBatch (f : Index) (d : Driver) (sb : S * list bop) (keyFields : Item) : result dbError (S * list bop) :=
  match batch_delete d sb (encodeKeyFunc f keyFields) with Err ErrNotFound => Ok sb | r => r end.

(** ** Iteration *)

(** A cursor: the keys before it, nearest first, and from it on. *)
Fixpoint seek_from (before keys : list bytes) (key : bytes) : list bytes * list bytes :=
  match keys with
  | [] => (before, [])
  | k :: keys' => if blt k key then seek_from (k :: before) keys' key else (before, keys)
  end.

Definition seek (keys : list bytes) (key : bytes) : list bytes * list bytes := seek_from [] keys key.

(** [Prev] on a cursor, if there is a key before it. *)
Definition prev (c : list bytes * list bytes) : option (list bytes * list bytes) :=
  match c.1 with [] => None | k :: before => Some (before, k :: c.2) end.

Record IterateOptions := MkOptions {
  StartFrom : option Item;
  SkipStartFromItem : bool;
  Prefix : bytes;
  Reverse : bool;
}.

Definition noOptions : IterateOptions := MkOptions None false [] false.

(** The keys the cursor goes through from where it is. *)
Definition ahead (r : bool) (c : list bytes * list bytes) : list bytes :=
  if r then match c.2 with [] => [] | k :: _ => k :: c.1 end else c.2.

Definition has_prefix (p k : bytes) : bool := bool_decide (p `prefix_of` k).

(** The reverse seeker; [None] if there is no key to start from. *)
Definition reverse_start (keys : list bytes) (prefix : bytes) : result dbError (option (list bytes * list bytes)) :=
  match reverse keys with
  | [] => Ok None
  | last :: before =>
      if has_prefix prefix last then Ok (Some (before, [last]))
      else match bytesIncrement prefix with
        | None => Err errInvalidPrefix
        | Some incrementedPrefix =>
            let c := seek keys incrementedPrefix in
            match c.2 with [] => Ok None | _ => Ok (prev c) end
        end
  end.

Definition itemFromIterator (f : Index) (st : S) (key : bytes) : result dbError Item :=
  keyItem ← decodeKeyFunc f key;
  value ← bget st key;
  valueItem ← of_panic (DecodeValue f value);
  Ok (Merge keyItem valueItem).

(** What the function has done stays done when the iteration fails. *)
Fixpoint iterate_loop {X E} (f : Index) (st : S) (total : bytes) (fn : X -> Item -> result E (X * bool)) (x : X) (keys : list bytes) :
    X * option (iterError E) :=
  match keys with
  | [] => (x, None)
  | k :: keys =>
      if has_prefix total k then
        match itemFromIterator f st k with
        | Err e => (x, Some (iterDb e))
        | Ok item =>
            match fn x item with
            | Err e => (x, Some (iterFn e))
            | Ok (x, true) => (x, None)
            | Ok (x, false) => iterate_loop f st total fn x keys
            end
        end
      else (x, None)
  end.

Definition Iterate {X E} (f : Index) (st : S) (fn : X -> Item -> result E (X * bool)) (o : IterateOptions) (x : X) : X * option (iterError E) :=
  let total := prefix f ++ Prefix o in
  let keys := bkeys st in
  let startKey := match StartFrom o with Some i => encodeKeyFunc f i | None => total end in
  let start := if Reverse o then match StartFrom o with None => reverse_start keys total | Some _ => Ok (Some (seek keys startKey)) end
               else Ok (Some (seek keys startKey)) in
  match start with
  | Err e => (x, Some (iterDb e))
  | Ok None => (x, None)
  | Ok (Some c) =>
      let ks := ahead (Reverse o) c in
      let ks := if SkipStartFromItem o && match ks with k :: _ => bool_decide (startKey = k) | [] => false end then tail ks else ks in
      iterate_loop f st total fn x ks
  end.

Definition First (f : Index) (st : S) (p : bytes) : result dbError Item :=
  match (seek (bkeys st) (prefix f ++ p)).2 with
  | k :: _ => if has_prefix (prefix f ++ p) k then itemFromIterator f st k else Err ErrNotFound
  | [] => Err ErrNotFound
  end.

Definition Last (f : Index) (st : S) (p : bytes) : result dbError Item :=
  let c := match p, incByteSlice p with
    | _ :: _, Some nextPrefix => prev (seek (bkeys st) (prefix f ++ nextPrefix))
    | _, _ => match reverse (bkeys st) with [] => None | k :: before => Some (before, [k]) end
    end in
  match c with
  | Some (_, k :: _) => if has_prefix (prefix f ++ p) k then itemFromIterator f st k else Err ErrNotFound
  | _ => Err ErrNotFound
  end.

(** Counting stops at the first key of another index; keys and prefixes are not empty. *)
Fixpoint count_from (p : bytes) (keys : list bytes) : Z :=
  match keys with
  | [] => 0
  | k :: keys => if bool_decide (head k = head p) then 1 + count_from p keys else 0
  end.

Definition Count (f : Index) (st : S) : Z := count_from (prefix f) (seek (bkeys st) (prefix f)).2.
Definition CountFrom (f : Index) (st : S) (start : Item) : Z := count_from (prefix f) (seek (bkeys st) (encodeKeyFunc f start)).2.

(** ** Fields and vectors of counters *)

Definition encodeUint64 (val : Z) : bytes := BE_PutUint64 val.

Definition Field_Get (st : S) (key : bytes) : result dbError Z :=
  match bget st key with
  | Err ErrNotFound => Ok 0
  | Err e => Err e
  | Ok b => of_panic (BE_Uint64 b)
  end.
Definition Field_Put (st : S) (key : bytes) (val : Z) : result dbError S := bput st key (encodeUint64 val).
Definition Field_PutInBatch (d : Driver) (sb : S * list bop) (key : bytes) (val : Z) : result dbError (S * list bop) :=
  batch_put d sb key (encodeUint64 val).

Definition Field_Inc (st : S) (key : bytes) : result dbError (Z * S) :=
  val ← Field_Get st key; let val := u64 (val + 1) in st ← Field_Put st key val; Ok (val, st).
Definition Field_Dec (st : S) (key : bytes) : result dbError (Z * S) :=
  val ← Field_Get st key; let val := if val =? 0 then val else val - 1 in st ← Field_Put st key val; Ok (val, st).
Definition Field_IncInBatch (d : Driver) (sb : S * list bop) (key : bytes) : result dbError (Z * (S * list bop)) :=
  val ← Field_Get sb.1 key; let val := u64 (val + 1) in sb ← Field_PutInBatch d sb key val; Ok (val, sb).
Definition Field_DecInBatch (d : Driver) (sb : S * list bop) (key : bytes) : result dbError (Z * (S * list bop)) :=
  val ← Field_Get sb.1 key; let val := if val =? 0 then val else val - 1 in sb ← Field_PutInBatch d sb key val; Ok (val, sb).

(** An element of a vector is the field under this key. *)
Definition indexKey (key : bytes) (i : Z) : bytes := key ++ BE_PutUint64 i.

Definition Vector_Get (st : S) (key : bytes) (i : Z) : result dbError Z := Field_Get st (indexKey key i).
Definition Vector_Put (st : S) (key : bytes) (i val : Z) : result dbError S := Field_Put st (indexKey key i) val.
Definition Vector_PutInBatch (d : Driver) (sb : S * list bop) (key : bytes) (i val : Z) : result dbError (S * list bop) :=
  Field_PutInBatch d sb (indexKey key i) val.
Definition Vector_Inc (st : S) (key : bytes) (i : Z) : result dbError (Z * S) := Field_Inc st (indexKey key i).
Definition Vector_Dec (st : S) (key : bytes) (i : Z) : result dbError (Z * S) := Field_Dec st (indexKey key i).
Definition Vector_IncInBatch (d : Driver) (sb : S * list bop) (key : bytes) (i : Z) := Field_IncInBatch d sb (indexKey key i).
Definition Vector_DecInBatch (d : Driver) (sb : S * list bop) (key : bytes) (i : Z) := Field_DecInBatch d sb (indexKey key i).
End Indexes.

(** ** The schema *)

Record FieldSpec := MkFieldSpec { FieldName : bytes; FieldType : bytes }.
Record IndexSpec := MkIndexSpec { IndexName : bytes; IndexPrefix : bytes }.
Record SchemaSpec := MkSchemaSpec { Fields : list FieldSpec; Indexes : list IndexSpec }.

Definition keySchema : bytes := [0].
Definition keyPrefixFields : Z := 1.
Definition keyPrefixIndexStart : Z := 2.

Section Schema.
Context {S : Type} `{BE : Backend S} `{CS : Codec SchemaSpec bytes}.

Definition getSchema (st : S) : result dbError SchemaSpec :=
  b ← bget st keySchema; match unmarshal b with Some s => Ok s | None => Err errBackend end.

Definition putSchema (st : S) (s : SchemaSpec) : result dbError S := bput st keySchema (marshal s).

Definition InitSchema (st : S) : result dbError S :=
  match getSchema st with
  | Ok _ => Ok st
  | Err ErrNotFound => putSchema st (MkSchemaSpec [] [])
  | Err e => Err e
  end.

Definition field_clash (spec : FieldSpec) (l : list FieldSpec) : bool :=
  match List.find (fun f => bool_decide (FieldName f = FieldName spec)) l with
  | Some f => negb (bool_decide (FieldType f = FieldType spec))
  | None => false
  end.

(** [found] is never set: a field is appended each time it is opened. *)
Definition CreateField (st : S) (spec : FieldSpec) : result dbError (bytes * S) :=
  if bool_decide (FieldName spec = []) || bool_decide (FieldType spec = []) then Err errBlank
  else
    s ← getSchema st;
    if field_clash spec (Fields s) then Err errFieldType
    else st ← putSchema st (MkSchemaSpec (Fields s ++ [spec]) (Indexes s)); Ok (keyPrefixFields :: FieldName spec, st).

(** The identifier of the index, or the next one free; a byte wraps around. *)
Fixpoint find_index (name : bytes) (nextID : Z) (l : list IndexSpec) : result dbError (bytes + Z) :=
  match l with
  | [] => Ok (inr nextID)
  | f :: l =>
      match IndexPrefix f with
      | [] => Err errPanic
      | p0 :: _ =>
          let nextID := if nextID <=? p0 then u8 (p0 + 1) else nextID in
          if bool_decide (IndexName f = name) then Ok (inl (IndexPrefix f)) else find_index name nextID l
      end
  end.

Definition CreateIndex (st : S) (name : bytes) : result dbError (bytes * S) :=
  s ← getSchema st;
  r ← find_index name keyPrefixIndexStart (Indexes s);
  match r with
  | inl p => Ok (p, st)
  | inr id => st ← putSchema st (MkSchemaSpec (Fields s) (Indexes s ++ [MkIndexSpec name [id]])); Ok ([id], st)
  end.

Definition schemaFieldKey (st : S) (name fieldType : bytes) : result dbError (bytes * S) := CreateField st (MkFieldSpec name fieldType).
Definition schemaIndexPrefix (st : S) (name : bytes) : result dbError (bytes * S) :=
  if bool_decide (name = []) then Err errBlank else CreateIndex st name.

Fixpoint rename_index (oldName newName : bytes) (l : list IndexSpec) : bool * option (list IndexSpec) :=
  match l with
  | [] => (false, None)
  | f :: l =>
      if bool_decide (IndexName f = oldName) then (true, Some (MkIndexSpec newName (IndexPrefix f) :: l))
      else if bool_decide (IndexName f = newName) then (true, None)
      else let '(b, r) := rename_index oldName newName l in (b, (fun l => f :: l) <$> r)
  end.

Definition RenameIndex (st : S) (name newName : bytes) : result dbError (bool * S) :=
  if bool_decide (name = []) || bool_decide (newName = []) then Err errBlank
  else if bool_decide (newName = name) then Ok (false, st)
  else
    s ← getSchema st;
    match rename_index name newName (Indexes s) with
    | (b, None) => Ok (b, st)
    | (b, Some l) => st ← putSchema st (MkSchemaSpec (Fields s) l); Ok (b, st)
    end.
End Schema.

(** ** The order of keys *)

Abbreviation blts a b := (blt a b = true).

Lemma blt_irrefl a : blt a a = false.
Proof. induction a as [|x a IH]; [done|]. cbn. by rewrite Z.ltb_irrefl. Qed.

Lemma blt_trans a b c : blts a b -> blts b c -> blts a c.
Proof.
  revert b c. induction a as [|x a IH]; intros [|y b] [|z c]; cbn; try done.
  destruct (Z.ltb_spec x y), (Z.ltb_spec y x), (Z.ltb_spec y z), (Z.ltb_spec z y), (Z.ltb_spec x z), (Z.ltb_spec z x); try done; try lia.
  apply IH.
Qed.

Lemma blt_total a b : a = b \/ blts a b \/ blts b a.
Proof.
  revert b. induction a as [|x a IH]; intros [|y b]; cbn; auto.
  destruct (Z.ltb_spec x y), (Z.ltb_spec y x); auto. replace y with x by lia. destruct (IH b) as [->|?]; auto.
Qed.

Lemma prefix_not_blt p k : p `prefix_of` k -> blt k p = false.
Proof.
  intros [t ->]. induction p as [|x p IH]; [by destruct t|]. cbn. rewrite Z.ltb_irrefl. done.
Qed.

(** Keys from [p] on: those that start with [p] come first. *)
Lemma prefix_first p k k' : blt k p = false -> ~ p `prefix_of` k -> p `prefix_of` k' -> blts k' k.
Proof.
  intros Hk Hp [t ->]. revert k Hk Hp. induction p as [|x p IH]; intros k Hk Hp; [destruct Hp; apply prefix_nil|].
  destruct k as [|y k]; [done|]. cbn in Hk |- *. destruct (Z.ltb_spec y x), (Z.ltb_spec x y); try done.
  replace y with x in * by lia. apply IH; [done|]. intros Hpk. apply Hp. by apply prefix_cons.
Qed.

(** Below the end of the keys that start with [p]. *)
Definition upto (p k : bytes) : Prop := blts k p \/ p `prefix_of` k.

Lemma blt_cons x y k p : blts (x :: k) (y :: p) <-> x < y \/ x = y /\ blts k p.
Proof. cbn. destruct (Z.ltb_spec x y), (Z.ltb_spec y x); intuition lia. Qed.

Lemma upto_cons x y k p : upto (y :: p) (x :: k) <-> x < y \/ x = y /\ upto p k.
Proof.
  unfold upto. rewrite blt_cons. split.
  - intros [[?|[? ?]]|Hp]; auto. right. pose proof (prefix_cons_inv_1 _ _ _ _ Hp). pose proof (prefix_cons_inv_2 _ _ _ _ Hp). auto.
  - intros [?|[-> [?|?]]]; auto. right. by apply prefix_cons.
Qed.

Lemma upto_255 p k : bytes_ok k -> upto (p ++ [255]) k <-> upto p k.
Proof.
  revert k. induction p as [|y p IH]; intros [|x k]; cbn [app].
  - intros _. split; intros _; [right; apply prefix_nil|by left].
  - intros [Hx _]%Forall_cons. unfold is_byte in Hx. split; intros _; [right; apply prefix_nil|].
    apply upto_cons. destruct (decide (x = 255)) as [->|?]; [right|left; lia]. split; [done|right; apply prefix_nil].
  - intros _. split; intros _; by left.
  - intros [_ Hk]%Forall_cons. by rewrite !upto_cons, IH.
Qed.

Lemma blt_succ p x k : blts k (p ++ [x + 1]) <-> upto (p ++ [x]) k.
Proof.
  revert k. induction p as [|y p IH]; intros [|z k]; cbn [app].
  - split; [by left|done].
  - rewrite blt_cons, upto_cons. split.
    + intros [?|[_ ?]]; [|by destruct k]. destruct (decide (z = x)) as [->|?]; [right|left; lia]. split; [done|right; apply prefix_nil].
    + intros [?|[-> _]]; left; lia.
  - split; [by left|done].
  - by rewrite blt_cons, upto_cons, IH.
Qed.

(** [bytesIncrement p] is behind exactly the keys up to the last that starts with [p]. *)
Lemma bytesIncrement_spec p q k : bytesIncrement p = Some q -> bytes_ok k -> blts k q <-> upto p k.
Proof.
  unfold bytesIncrement. intros E Hk. rewrite <- (reverse_involutive p). revert E. generalize (reverse p) as rb. clear p. intros rb.
  induction rb as [|x rb IH]; cbn [increment_from]; [done|]. destruct (Z.eqb_spec x 255) as [->|Hx]; intros E.
  - by rewrite reverse_cons, upto_255, <- IH.
  - injection E as <-. rewrite !reverse_cons. apply blt_succ.
Qed.

(** ** What an iteration goes through *)

Section IterateSpec.
Context {S : Type} `{BE : Backend S}.

Lemma list_filter_all {A} (P : A -> Prop) `{forall x, Decision (P x)} l : Forall P l -> filter P l = l.
Proof. induction 1; [done|]. by rewrite filter_cons_True, IHForall. Qed.

Lemma list_filter_none {A} (P : A -> Prop) `{forall x, Decision (P x)} l : Forall (fun x => ~ P x) l -> filter P l = [].
Proof. induction 1; [done|]. by rewrite filter_cons_False. Qed.

(** Sorted keys: those below [p], those that start with [p], those behind. *)
Lemma keys_split p keys : StronglySorted (fun a b => blt a b = true) keys -> exists A B C, keys = A ++ B ++ C /\
  Forall (fun k => blt k p = true) A /\ Forall (fun k => p `prefix_of` k) B /\ Forall (fun k => ~ upto p k) C.
Proof.
  induction 1 as [|k keys Hs (A & B & C & -> & HA & HB & HC) Hk]; [by exists [], [], []|].
  destruct (blt k p) eqn:E; [exists (k :: A), B, C; by repeat constructor|].
  assert (A = []) as ->.
  { destruct A as [|a A]; [done|]. apply Forall_cons in HA as [Ha _]. apply Forall_cons in Hk as [Hk _]. by rewrite (blt_trans _ _ _ Hk Ha) in E. }
  destruct (decide (p `prefix_of` k)) as [Hp|Hp]; [exists [], (k :: B), C; by repeat constructor|].
  assert (B = []) as ->.
  { destruct B as [|b B]; [done|]. apply Forall_cons in HB as [Hb _]. apply Forall_cons in Hk as [Hk _].
    pose proof (blt_trans _ _ _ Hk (prefix_first p k b E Hp Hb)) as Hkk. by rewrite blt_irrefl in Hkk. }
  exists [], [], (k :: C). repeat constructor; try done. intros [?|?]; congruence.
Qed.

Lemma seek_app key R : forall A l, Forall (fun k => blt k key = true) A -> Forall (fun k => blt k key = false) R ->
  seek_from l (A ++ R) key = (reverse A ++ l, R).
Proof.
  intros A. induction A as [|k A IH]; intros l HA HR; cbn [app].
  - destruct R as [|k R]; [done|]. apply Forall_cons in HR as [Hk _]. cbn. by rewrite Hk.
  - apply Forall_cons in HA as [Hk HA]. cbn [seek_from]. rewrite Hk, IH by done. by rewrite reverse_cons, <- app_assoc.
Qed.

Lemma iterate_stop {X E} f st total (fn : X -> Item -> result E (X * bool)) R : Forall (fun k => ~ total `prefix_of` k) R ->
  forall B x, iterate_loop f st total fn x (B ++ R) = iterate_loop f st total fn x B.
Proof.
  intros HR. induction B as [|k B IH]; intros x; cbn [app iterate_loop].
  - destruct R as [|k R]; [done|]. apply Forall_cons in HR as [Hk _]. cbn. unfold has_prefix. by rewrite bool_decide_false.
  - destruct (has_prefix total k); [|done]. destruct (itemFromIterator f st k) as [item|e]; [|done].
    destruct (fn x item) as [[x' []]|e]; try done.
Qed.

Lemma seek_increment p A B C q : bytesIncrement p = Some q -> Forall bytes_ok (A ++ B ++ C) ->
  Forall (fun k => blt k p = true) A -> Forall (fun k => p `prefix_of` k) B -> Forall (fun k => ~ upto p k) C ->
  seek ((A ++ B) ++ C) q = (reverse (A ++ B), C).
Proof.
  intros Hq Hok HA HB HC. rewrite !Forall_app, !Forall_forall in *. destruct Hok as (OA & OB & OC).
  unfold seek. rewrite seek_app, app_nil_r; [done| |]; rewrite ?Forall_app, !Forall_forall.
  - split; intros k Hk; apply (bytesIncrement_spec _ _ _ Hq); auto; [left|right]; auto.
  - intros k Hk. apply not_true_is_false. rewrite (bytesIncrement_spec _ _ _ Hq); auto.
Qed.

Lemma reverse_start_spec p A B C q : bytesIncrement p = Some q -> Forall bytes_ok (A ++ B ++ C) ->
  Forall (fun k => blt k p = true) A -> Forall (fun k => p `prefix_of` k) B -> Forall (fun k => ~ upto p k) C ->
  exists c, reverse_start (A ++ B ++ C) p = Ok c /\
    match c with None => B = [] | Some c => ahead true c = reverse B ++ reverse A end.
Proof.
  intros Hq Hok HA HB HC. pose proof (seek_increment _ _ _ _ _ Hq Hok HA HB HC) as Hseek.
  unfold reverse_start. rewrite <- reverse_app. rewrite (app_assoc A B C). rewrite (reverse_app (A ++ B) C), Hq. cbv beta iota zeta. rewrite Hseek. clear Hseek.
  destruct (reverse C) as [|c rC] eqn:EC; cbn [app].
  - assert (C = []) as -> by (rewrite <- (reverse_involutive C); by rewrite EC).
    destruct (reverse (A ++ B)) as [|last before] eqn:E.
    { exists None. split; [done|]. apply (f_equal length) in E. rewrite length_reverse, !length_app in E. destruct B; [done|cbn in E; lia]. }
    unfold has_prefix. case_bool_decide as Hp; [by eexists|]. exists None. split; [done|].
    rewrite reverse_app in E. destruct (reverse B) as [|b rB] eqn:EB; [rewrite <- (reverse_involutive B); by rewrite EB|].
    injection E as -> _. rewrite Forall_forall in HB. destruct Hp. apply HB. rewrite <- elem_of_reverse, EB. left.
  - assert (Hc : c ∈ C) by (rewrite <- elem_of_reverse, EC; left). unfold has_prefix. rewrite bool_decide_false.
    2:{ rewrite Forall_forall in HC. intros Hp. apply (HC c Hc). by right. }
    cbn [snd]. destruct C as [|c' C]; [done|]. eexists. split; [done|]. unfold prev. cbn [fst snd].
    destruct (reverse (A ++ B)) as [|k before] eqn:E; [|done].
    apply (f_equal length) in E. rewrite length_reverse, !length_app in E. destruct B; [done|cbn in E; lia].
Qed.

(** C31: an iteration over the keys of an index that start with a further prefix
    calls the function with exactly these items, in the order of their keys, until
    the function stops or fails, whatever other indexes and fields the database
    has; and in the reverse order if asked to, unless index prefix and prefix
    are nothing but bytes 255. *)
Theorem Iterate_visits {X Er} (f : Index) (st : S) (fn : X -> Item -> result Er (X * bool)) (p : bytes) (r : bool) (x : X) :
  (r = true -> Forall bytes_ok (bkeys st) /\ bytesIncrement (prefix f ++ p) <> None) ->
  Iterate f st fn (MkOptions None false p r) x =
  iterate_loop f st (prefix f ++ p) fn x
    ((if r then reverse else fun l => l) (filter (fun k => prefix f ++ p `prefix_of` k) (bkeys st))).
Proof.
  intros Hrev. unfold Iterate. cbn [StartFrom Reverse SkipStartFromItem Prefix]. set (total := prefix f ++ p) in *.
  destruct (keys_split total (bkeys st) (bkeys_sorted st)) as (A & B & C & Ek & HA & HB & HC). rewrite Ek in *.
  assert (HA' : Forall (fun k => ~ total `prefix_of` k) A).
  { apply (Forall_impl _ _ _ HA). intros k Hk Hp%prefix_not_blt. congruence. }
  assert (HC' : Forall (fun k => ~ total `prefix_of` k) C).
  { apply (Forall_impl _ _ _ HC). intros k Hk Hp. apply Hk. by right. }
  rewrite !filter_app, (list_filter_none _ A), (list_filter_none _ C), (list_filter_all _ B), app_nil_r by done. cbn [app].
  destruct r.
  - destruct Hrev as [Hok Hq]; [done|]. destruct (bytesIncrement total) as [q|] eqn:Eq; [|done].
    destruct (reverse_start_spec total A B C q Eq Hok HA HB HC) as ([c|] & -> & Hc).
    + cbn [andb]. rewrite Hc. apply iterate_stop. by apply Forall_reverse.
    + by rewrite Hc.
  - cbn [andb ahead]. unfold seek. rewrite seek_app; [|done|].
    + cbn [snd]. by apply iterate_stop.
    + apply Forall_app. split; [apply (Forall_impl _ _ _ HB); apply prefix_not_blt|].
      apply (Forall_impl _ _ _ HC). intros k Hk. apply not_true_is_false. intros ?. apply Hk. by left.
Qed.
End IterateSpec.

(** ** Prefixes of the indexes *)

Section SchemaSpec_.
Context {S : Type} `{BE : Backend S} `{CS : Codec SchemaSpec bytes}.

(** Identifiers are given out in order. *)
Definition in_order (n : Z) (l : list IndexSpec) : Prop := forall i f, l !! i = Some f -> IndexPrefix f = [n + Z.of_nat i].

Lemma in_order_cons n f l : in_order n (f :: l) <-> IndexPrefix f = [n] /\ in_order (n + 1) l.
Proof.
  split.
  - intros H. split; [rewrite (H 0%nat f eq_refl); f_equal; lia|]. intros i g Hi. rewrite (H (Datatypes.S i) g Hi). f_equal. lia.
  - intros [H1 H2] [|i] g; cbn; [intros [= <-]; rewrite H1; f_equal; lia|]. intros Hi. rewrite (H2 i g Hi). f_equal. lia.
Qed.

Lemma find_index_spec name l : forall n, in_order n l -> 0 <= n -> n + zlen l <= 255 ->
  find_index name n l = Ok (match list_find (fun f => IndexName f = name) l with Some (i, _) => inl [n + Z.of_nat i] | None => inr (n + zlen l) end).
Proof.
  induction l as [|f l IH]; intros n Ho Hn Hl; cbn [find_index list_find length]; [by rewrite Z.add_0_r|].
  apply in_order_cons in Ho as [Hf Ho]. rewrite Hf, Z.leb_refl. cbn [length] in Hl. case_bool_decide as Hname.
  - rewrite decide_True by done. by rewrite Z.add_0_r.
  - rewrite decide_False by done. unfold u8. rewrite Z.mod_small, IH by (done || lia). destruct (list_find _ l) as [[i g]|]; cbn; do 2 f_equal; try lia. f_equal. lia.
Qed.

Fixpoint create_all (st : S) (names : list bytes) : result dbError (list bytes * S) :=
  match names with
  | [] => Ok ([], st)
  | name :: names => '(p, st) ← CreateIndex st name; '(ps, st) ← create_all st names; Ok (p :: ps, st)
  end.

Record schema_ok (s : SchemaSpec) : Prop := {
  so_order : in_order keyPrefixIndexStart (Indexes s);
  so_names : NoDup (IndexName <$> Indexes s);
}.

(** The index of this name has this prefix. *)
Definition given (s : SchemaSpec) (name p : bytes) : Prop := MkIndexSpec name p ∈ Indexes s.

Lemma given_unique s n m p q : schema_ok s -> given s n p -> given s m q -> p = q <-> n = m.
Proof.
  intros [Ho Hn] (i & Hi)%list_elem_of_lookup (j & Hj)%list_elem_of_lookup. split.
  - intros ->. pose proof (Ho i _ Hi) as E1. pose proof (Ho j _ Hj) as E2. cbn in E1, E2.
    assert (i = j) as -> by (rewrite E1 in E2; injection E2; lia). congruence.
  - intros ->. assert (i = j) as ->; [|congruence].
    apply (NoDup_lookup _ _ _ m Hn); rewrite list_lookup_fmap, ?Hi, ?Hj; done.
Qed.

Lemma given_byte s n p : schema_ok s -> given s n p -> zlen (Indexes s) <= 254 -> exists b, p = [b] /\ 2 <= b <= 255.
Proof.
  intros [Ho _] (i & Hi)%list_elem_of_lookup Hl. pose proof (Ho i _ Hi) as E. cbn in E. apply lookup_lt_Some in Hi. unfold keyPrefixIndexStart in E.
  eexists. split; [exact E|]. lia.
Qed.

Lemma getSchema_put st s st' : putSchema st s = Ok st' -> getSchema st' = Ok s.
Proof.
  unfold putSchema, getSchema. intros E. rewrite (bget_put _ _ _ _ keySchema E). unfold bop_apply.
  rewrite decide_True by done. cbn [mbind result_bind]. by rewrite unmarshal_marshal.
Qed.

Lemma CreateIndex_spec st s name p st' : getSchema st = Ok s -> schema_ok s -> zlen (Indexes s) < 254 -> CreateIndex st name = Ok (p, st') ->
  exists s', getSchema st' = Ok s' /\ schema_ok s' /\ given s' name p /\ zlen (Indexes s') <= zlen (Indexes s) + 1 /\ forall n q, given s n q -> given s' n q.
Proof.
  intros Hs [Ho Hn] Hl. unfold CreateIndex. rewrite Hs. cbn [mbind result_bind].
  rewrite find_index_spec by (done || unfold keyPrefixIndexStart; lia). cbn [mbind result_bind].
  destruct (list_find _ (Indexes s)) as [[i f]|] eqn:Hf.
  - intros [= <- <-]. exists s. repeat split; try done; [|lia]. apply list_find_Some in Hf as (Hi & Hname & _).
    apply list_elem_of_lookup. exists i. rewrite Hi. f_equal. rewrite <- (Ho i f Hi), <- Hname. by destruct f.
  - destruct (putSchema _ _) as [st1|] eqn:Hp; [|done]. intros [= <- <-]. apply list_find_None in Hf.
    eexists. split; [by eapply getSchema_put|]. cbn [Indexes]. split; [split; cbn [Indexes]|split; [|split]].
    + intros j g [[_ Hj]|[Hj <-]]%lookup_snoc_Some; [by apply Ho|]. by subst j.
    + rewrite fmap_app. apply NoDup_app. split; [done|]. split; [|apply NoDup_singleton].
      intros m (g & -> & Hg)%list_elem_of_fmap E%list_elem_of_singleton. rewrite Forall_forall in Hf. by apply (Hf g Hg).
    + apply elem_of_app. right. by left.
    + rewrite length_app. cbn. lia.
    + intros n q Hg. apply elem_of_app. by left.
Qed.

Lemma create_all_spec names : forall st s ps st', getSchema st = Ok s -> schema_ok s -> zlen (Indexes s) + zlen names <= 254 ->
  create_all st names = Ok (ps, st') -> exists s', getSchema st' = Ok s' /\ schema_ok s' /\ Forall2 (given s') names ps /\
    zlen (Indexes s') <= 254 /\ forall n q, given s n q -> given s' n q.
Proof.
  induction names as [|name names IH]; intros st s ps st' Hs Hok Hl; cbn [create_all length] in *.
  - intros [= <- <-]. exists s. repeat split; try done; try apply Hok. lia.
  - destruct (CreateIndex st name) as [[p st1]|] eqn:Hc; [|done]. cbn [mbind result_bind].
    destruct (CreateIndex_spec st s name p st1 Hs Hok ltac:(lia) Hc) as (s1 & Hs1 & Hok1 & Hg1 & Hl1 & Hm1).
    destruct (create_all st1 names) as [[ps1 st2]|] eqn:Hr; [|done]. cbn [mbind result_bind]. intros [= <- <-].
    destruct (IH st1 s1 ps1 st2 Hs1 Hok1 ltac:(lia) Hr) as (s2 & Hs2 & Hok2 & Hg2 & Hl2 & Hm2).
    exists s2. split; [done|]. split; [done|]. split; [|auto]. constructor; [by apply Hm2|done].
Qed.

(** Opening indexes that are in the schema changes nothing. *)
Lemma create_all_again names : forall st s ps, getSchema st = Ok s -> schema_ok s -> zlen (Indexes s) <= 253 -> Forall2 (given s) names ps ->
  create_all st names = Ok (ps, st).
Proof.
  induction names as [|name names IH]; intros st s ps Hs Hok Hl Hg; inversion Hg as [|? p ? ps' Hg1 Hg2]; subst; [done|].
  cbn [create_all]. unfold CreateIndex. rewrite Hs. cbn [mbind result_bind].
  rewrite find_index_spec by (apply Hok || unfold keyPrefixIndexStart; lia). cbn [mbind result_bind].
  destruct (list_find _ (Indexes s)) as [[i f]|] eqn:Hf.
  - apply list_find_Some in Hf as (Hi & Hname & _). rewrite <- (so_order s Hok i f Hi).
    assert (IndexPrefix f = p) as ->.
    { apply (given_unique s (IndexName f) name _ p Hok); [|done|done]. apply list_elem_of_lookup. exists i. rewrite Hi. by destruct f. }
    cbn [mbind result_bind]. by rewrite (IH st s ps').
  - apply list_find_None in Hf. rewrite Forall_forall in Hf. by destruct (Hf _ Hg1).
Qed.
End SchemaSpec_.

(** ** Big-endian integers *)

Lemma length_be_put n z : length (be_put n z) = n.
Proof. unfold be_put. by rewrite length_reverse, length_le_put. Qed.

Lemma be_get_reverse l : be_get (reverse l) = le_get l.
Proof.
  induction l as [|x l IH]; [done|]. rewrite reverse_cons. unfold be_get in *. rewrite foldl_app, IH. cbn. lia.
Qed.

Lemma be_get_put n z : be_get (be_put n z) = z mod 2 ^ (8 * Z.of_nat n).
Proof. unfold be_put. by rewrite be_get_reverse, le_get_put. Qed.

Lemma be_put_ok n z : bytes_ok (be_put n z).
Proof. apply Forall_reverse, le_put_ok. Qed.

Lemma BE_Uint64_Put z l : BE_Uint64 (BE_PutUint64 z ++ l) = Some (u64 z).
Proof.
  unfold BE_Uint64, BE_PutUint64. rewrite length_app, length_be_put. case_match eqn:E; [apply Nat.ltb_lt in E; lia|].
  rewrite take_app_le by (by rewrite length_be_put). rewrite take_ge by (by rewrite length_be_put). by rewrite be_get_put.
Qed.

Lemma BE_PutUint64_inj a b : 0 <= a < 2 ^ 64 -> 0 <= b < 2 ^ 64 -> BE_PutUint64 a = BE_PutUint64 b -> a = b.
Proof.
  intros Ha Hb E. apply (f_equal be_get) in E. unfold BE_PutUint64 in E. rewrite !be_get_put in E.
  change (8 * Z.of_nat 8) with 64 in E. by rewrite !Z.mod_small in E.
Qed.

(** Bytes of one length are ordered as the numbers they are. *)
Lemma blt_be_get a b : length a = length b -> bytes_ok a -> bytes_ok b -> blt a b = (be_get a <? be_get b).
Proof.
  intros Hl Ha. revert b Hl. induction Ha as [|x a Hx Ha IH]; intros [|y b] Hl Hb; try done.
  apply Forall_cons in Hb as [Hy Hb]. injection Hl as Hl. cbn [blt]. rewrite !be_get_cons, Hl.
  pose proof (be_get_range a Ha) as Ra. pose proof (be_get_range b Hb) as Rb. rewrite Hl in Ra. unfold is_byte in *.
  destruct (Z.ltb_spec x y), (Z.ltb_spec y x); [lia| | |].
  - symmetry. apply Z.ltb_lt. nia.
  - symmetry. apply Z.ltb_ge. nia.
  - replace y with x by lia. rewrite IH by done. destruct (Z.ltb_spec (be_get a) (be_get b)); symmetry; [apply Z.ltb_lt|apply Z.ltb_ge]; lia.
Qed.

Lemma blt_app a b x y : length a = length b -> blts (a ++ x) (b ++ y) <-> blts a b \/ a = b /\ blts x y.
Proof.
  revert b. induction a as [|u a IH]; intros [|v b] Hl; try done; cbn [app].
  - split; [by right|by intros [?|[_ ?]]].
  - injection Hl as Hl. rewrite !blt_cons, IH by done. split.
    + intros [?|[-> [?|[-> ?]]]]; auto.
    + intros [[?|[-> ?]]|[[= -> ->] ?]]; auto.
Qed.

(** ** What a batch leads to *)

Section Batches.
Context {S : Type} `{BE : Backend S}.

(** The value of a key after [Commit]. *)
Definition final (d : Driver) (sb : S * list bop) (k : bytes) : result dbError bytes :=
  match d with
  | leveldb => foldl (bop_apply k) (bget sb.1 k) sb.2
  | wiredtiger => bget sb.1 k
  end.

Lemma final_new d st k : final d (st, []) k = bget st k.
Proof. by destruct d. Qed.

Lemma Commit_final d sb st' k : Commit d sb = Ok st' -> bget st' k = final d sb k.
Proof. destruct d; cbn; [apply bget_write|by intros [= <-]]. Qed.

Lemma batch_put_final d sb key v sb' k : batch_put d sb key v = Ok sb' -> final d sb' k = bop_apply k (final d sb k) (BPut key v).
Proof.
  destruct d; cbn [batch_put final].
  - intros [= <-]. cbn. by rewrite foldl_app.
  - destruct (bput sb.1 key v) as [st|] eqn:E; [|done]. intros [= <-]. by apply bget_put.
Qed.

(** Only the key written may read differently before [Commit]. *)
Lemma batch_put_reads d sb key v sb' k : batch_put d sb key v = Ok sb' -> k <> key -> bget sb'.1 k = bget sb.1 k.
Proof.
  destruct d; cbn [batch_put].
  - by intros [= <-].
  - destruct (bput sb.1 key v) as [st|] eqn:E; [|done]. intros [= <-] Hk. cbn [fst]. rewrite (bget_put _ _ _ _ k E). cbn [bop_apply].
    by rewrite decide_False.
Qed.

Lemma DeleteInBatch_final f d sb i sb' k : DeleteInBatch f d sb i = Ok sb' ->
  final d sb' k = if decide (encodeKeyFunc f i = k) then Err ErrNotFound else final d sb k.
Proof.
  unfold DeleteInBatch. destruct d; cbn [batch_delete final].
  - intros [= <-]. cbn. by rewrite foldl_app.
  - destruct (bdelete sb.1 (encodeKeyFunc f i)) as [st|e] eqn:E; cbn [mbind result_bind].
    + intros [= <-]. cbn [fst]. by rewrite (bget_delete _ _ _ k E).
    + destruct e; try done. intros [= <-]. case_decide as Hk; [|done]. subst k. by apply bget_delete_none.
Qed.

Lemma DeleteInBatch_reads f d sb i sb' k : DeleteInBatch f d sb i = Ok sb' -> k <> encodeKeyFunc f i -> bget sb'.1 k = bget sb.1 k.
Proof.
  unfold DeleteInBatch. destruct d; cbn [batch_delete].
  - by intros [= <-].
  - destruct (bdelete sb.1 (encodeKeyFunc f i)) as [st|e] eqn:E; cbn [mbind result_bind].
    + intros [= <-] Hk. cbn [fst]. rewrite (bget_delete _ _ _ k E). cbn [bop_apply]. by rewrite decide_False.
    + destruct e; try done. by intros [= <-].
Qed.
End Batches.

(** ** A database in memory *)

Definition ble (a b : bytes) : Prop := blt b a = false.

#[export] Instance ble_dec a b : Decision (ble a b).
Proof. unfold ble. apply _. Defined.

Lemma blt_asym a b : blts a b -> blt b a = false.
Proof. intros H. apply not_true_is_false. intros H'. pose proof (blt_trans _ _ _ H H') as E. by rewrite blt_irrefl in E. Qed.

#[export] Instance ble_total : Total ble.
Proof. intros a b. unfold ble. destruct (blt_total a b) as [->|[H|H]]; [left; apply blt_irrefl|left|right]; by apply blt_asym. Qed.

#[export] Instance ble_trans : Transitive ble.
Proof.
  unfold ble. intros a b c H1 H2. apply not_true_is_false. intros H3. destruct (blt_total a b) as [->|[H|H]]; [congruence| |congruence].
  by rewrite (blt_trans _ _ _ H3 H) in H2.
Qed.

Lemma sorted_strict l : StronglySorted ble l -> NoDup l -> StronglySorted (fun a b => blt a b = true) l.
Proof.
  induction 1 as [|a l Hs IH Ha]; intros Hn; constructor; apply NoDup_cons in Hn as [Hn1 Hn2]; [auto|].
  rewrite Forall_forall in *. intros b Hb. specialize (Ha b Hb). unfold ble in Ha. destruct (blt_total a b) as [->|[?|?]]; [done|done|congruence].
Qed.

#[refine] Definition memory_backend : Backend (gmap bytes bytes) := {|
  bget st k := match st !! k with Some v => Ok v | None => Err ErrNotFound end;
  bput st k v := Ok (<[k := v]> st);
  bdelete st k := Ok (delete k st);
  bwrite st ops := Ok (foldl (fun st o => match o with BPut k v => <[k := v]> st | BDelete k => delete k st end) st ops);
  bkeys st := merge_sort ble (fst <$> map_to_list st);
|}.
Proof.
  - intros st k v st' k' [= <-]. cbn. rewrite lookup_insert. by case_decide.
  - intros st k st' k' [= <-]. cbn. rewrite lookup_delete. by case_decide.
  - done.
  - intros st ops st' k [= <-]. revert st. induction ops as [|o ops IH]; intros st; [done|]. cbn [foldl]. rewrite IH. f_equal.
    destruct o; cbn; [rewrite lookup_insert|rewrite lookup_delete]; by case_decide.
  - intros st k. rewrite (merge_sort_Permutation ble). rewrite list_elem_of_fmap. split.
    + intros ([k' v] & -> & Hin%elem_of_map_to_list). cbn. by rewrite Hin.
    + destruct (st !! k) as [v|] eqn:E; [|done]. intros _. exists (k, v). split; [done|]. by apply elem_of_map_to_list.
  - intros st. apply sorted_strict; [apply StronglySorted_merge_sort; apply _|].
    apply (proj2 (NoDup_Permutation_proper _ _ (merge_sort_Permutation ble _))), NoDup_fst_map_to_list.
Defined.

(** Two entries of an index and one of the next. *)
Definition toy_index : Index :=
  MkIndex [2] (fun i => default [] (Address i)) (fun k => Some (MkItem (Some k) None 0 0 0 0 0 0 0 0)) (fun i => default [] (Data i))
    (fun v => Some (MkItem None (Some v) 0 0 0 0 0 0 0 0)).
Definition toy_db : gmap bytes bytes := <[[3; 1] := [5]]> (<[[2; 9] := [3]]> (<[[2; 7] := [1]]> ∅)).
Definition toy_visit (l : list (option bytes)) (i : Item) : result unit (list (option bytes) * bool) := Ok (l ++ [Address i], false).

Lemma Iterate_visits_witness : @Iterate _ memory_backend _ unit toy_index toy_db toy_visit (MkOptions None false [] true) [] = ([Some [9]; Some [7]], None).
Proof.
  rewrite (@Iterate_visits _ memory_backend _ unit toy_index toy_db toy_visit [] true []); [vm_compute; reflexivity|].
  intros _. split; [|discriminate]. apply (bool_decide_unpack _). vm_compute. exact I.
Defined.
