(* ===== verification/FileStore.v ===== *)
(** * The list of files (pkg/localstore/filestore)

    The files a node knows, in memory and in the state store under [file-<root>],
    the mirrors that remember what a root was replaced by under [mirror-<root>],
    and the paging of lists.  Filtering and sorting by a field chosen by name use
    reflection and floating-point numbers and are not modelled. *)

From Stdlib Require Import ZArith Lia ZifyBool.
From stdpp Require Import base gmap list numbers strings.
From S2P Require Import Prelude Boson StateStore Cheque AddressBook.

Open Scope Z_scope.

Inductive fileError :=
| errState (e : storeError)
| panicSlice.

Record FileView := MkFileView {
  RootCid : Address;
  Hash : bytes;
  Pinned : bool;
  Registered : bool;
  Size : Z;
  Type_ : bytes;
  Name : bytes;
  Extension : bytes;
  Default : bytes;
  ErrDefault : bytes;
  MimeType : bytes;
  ReferenceLink : bytes;
}.

Inductive Operation := REMOVE | MOVE | COPY | MKDIR.

Record FileMirror := MkMirror {
  PreRootCid : Address;
  NextRootCid : Address;
  MOperation : Operation;
  MFile : FileView;
}.

Definition keyPrefix : bytes := str "file".
Definition mirrorPrefix : bytes := str "mirror".

Definition fileKey (reference : Address) : bytes := keyPrefix ++ str "-" ++ Boson.String reference.
Definition mirrorKey (reference : Address) : bytes := mirrorPrefix ++ str "-" ++ Boson.String reference.

Definition of_state {A} (r : result storeError A) : result fileError A := match r with Ok a => Ok a | Err e => Err (errState e) end.

Section Files.
Context {S V : Type} `{ST : StateStorer S V} `{CF : Codec FileView V} `{CM : Codec FileMirror V}.

Record fileStore := MkFileStore {
  stateStore : S;
  files : gmap bytes FileView;
}.

Definition New (storer : S) : fileStore := MkFileStore storer ∅.

Definition set_files (fs : fileStore) (m : gmap bytes FileView) : fileStore := MkFileStore (stateStore fs) m.
Definition set_state (fs : fileStore) (st : S) : fileStore := MkFileStore st (files fs).

Definition Get (fs : fileStore) (reference : Address) : option FileView := files fs !! Boson.String reference.

Definition Has (fs : fileStore) (reference : Address) : bool := match Get fs reference with Some _ => true | None => false end.

(** The memory keeps the file even if it cannot be stored. *)
Definition Put (fs : fileStore) (file : FileView) : fileStore * result fileError unit :=
  let fs := set_files fs (<[Boson.String (RootCid file) := file]> (files fs)) in
  match StateStore.Put (stateStore fs) (fileKey (RootCid file)) file with
  | Ok st => (set_state fs st, Ok tt)
  | Err e => (fs, Err (errState e))
  end.

Definition Update := Put.

Definition put (m : gmap bytes FileView) (file : FileView) : gmap bytes FileView :=
  match m !! Boson.String (RootCid file) with Some _ => m | None => <[Boson.String (RootCid file) := file]> m end.

Definition Delete (fs : fileStore) (reference : Address) : fileStore * result fileError unit :=
  if Has fs reference then
    let fs := set_files fs (delete (Boson.String reference) (files fs)) in
    match sdelete (stateStore fs) (fileKey reference) with
    | Ok st => (set_state fs st, Ok tt)
    | Err e => (fs, Err (errState e))
    end
  else (fs, Ok tt).

(** The function [Init] gives to [Iterate]. *)
Definition load (st : S) (m : gmap bytes FileView) (key : bytes) : result fileError (gmap bytes FileView * bool) :=
  if decide (keyPrefix `prefix_of` key) then
    fv ← of_state (StateStore.Get st key);
    Ok (put m fv, false)
  else Ok (m, true).

Definition Init (fs : fileStore) : result fileError fileStore :=
  m ← Iterate (stateStore fs) keyPrefix (load (stateStore fs)) (files fs); Ok (set_files fs m).

(** ** Mirrors *)

Definition GetMirror (fs : fileStore) (reference : Address) : result fileError FileMirror :=
  of_state (StateStore.Get (stateStore fs) (mirrorKey reference)).

Definition hasMirror (fs : fileStore) (reference : Address) : result fileError bool :=
  match GetMirror fs reference with
  | Ok _ => Ok true
  | Err (errState ErrNotFound) => Ok false
  | Err e => Err e
  end.

Definition PutMirror (fs : fileStore) (pre next : Address) (ope : Operation) (file : FileView) : fileStore * result fileError unit :=
  match hasMirror fs next with
  | Err e => (fs, Err e)
  | Ok true => (fs, Ok tt)
  | Ok false =>
      match StateStore.Put (stateStore fs) (mirrorKey next) (MkMirror pre next ope file) with
      | Ok st => (set_state fs st, Ok tt)
      | Err e => (fs, Err (errState e))
      end
  end.

Definition DeleteMirror (fs : fileStore) (reference : Address) : fileStore * result fileError unit :=
  match sdelete (stateStore fs) (mirrorKey reference) with
  | Ok st => (set_state fs st, Ok tt)
  | Err e => (fs, Err (errState e))
  end.

(** The chain of mirrors back from a root; [None] if the fuel runs out, which a
    cycle of mirrors makes it do for any fuel. *)
Fixpoint GetMirrors (fuel : nat) (fs : fileStore) (reference : Address) : option (result fileError (list FileMirror)) :=
  match fuel with
  | O => None
  | Datatypes.S fuel =>
      match GetMirror fs reference with
      | Err (errState ErrNotFound) => Some (Ok [])
      | Err e => Some (Err e)
      | Ok fm =>
          if bool_decide (PreRootCid fm = []) then Some (Ok [fm])
          else match GetMirrors fuel fs (RootCid (MFile fm)) with
            | None => None
            | Some (Err e) => Some (Err e)
            | Some (Ok nfm) => Some (Ok (fm :: nfm))
            end
      end
  end.
End Files.

Arguments fileStore S : clear implicits.

(** ** Paging *)

Definition pageFile {A} (l : list A) (pageNum pageSize : Z) : result fileError (list A) :=
  if bool_decide (l = []) then Ok l
  else if (pageNum =? 0) || (pageSize =? 0) then Ok l
  else
    let start := i64 (pageSize * (pageNum - 1)) in
    if pageSize <=? i64 (zlen l - start) then
      if (start <? 0) || (start + pageSize <? start) then Err panicSlice
      else Ok (slice (Z.to_nat start) (Z.to_nat (start + pageSize)) l)
    else if zlen l <? start then Ok []
    else if start <? 0 then Err panicSlice
    else Ok (drop (Z.to_nat start) l).
