(* ===== verification/Mantaray.v ===== *)
(** * Nodes of a manifest (pkg/localstore/marshal.go)

    The local store reads the references out of the nodes of a manifest (a mantaray
    trie) to find the chunks of a file.  A slice expression outside the data is a
    panic of the code, [None] (the data has no spare capacity); otherwise [UnmarshalBinary] returns the nodes read
    so far and an error, or all nodes. *)

From Stdlib Require Import ZArith Lia ZifyBool.
From stdpp Require Import base gmap list numbers strings.
From S2P Require Import Prelude Boson StateStore.

Open Scope Z_scope.

Definition nodeObfuscationKeySize : nat := 32.
Definition versionHashSize : nat := 31.
Definition nodeHeaderSize : nat := nodeObfuscationKeySize + versionHashSize + 1.
Definition nodeForkPreReferenceSize : nat := 32.
Definition nodePrefixMaxSize : Z := 30.
Definition nodeForkTypeBytesSize : nat := 1.
Definition nodeForkMetadataBytesSize : nat := 2.
Definition nodeTypeWithMetadata : Z := 16.
Definition nodeTypeValue : Z := 2.

Definition initVersion (hash : string) : bytes :=
  match DecodeString (str hash) with Ok b => take versionHashSize b | Err _ => [] end.

Definition version01HashBytes : bytes := initVersion "025184789d63635766d78c41900196b57d7400875ebe4d9b5d1e76bd9652a9b7".
Definition version02HashBytes : bytes := initVersion "5768b3b6a7db56d21d1abff40d41cebfc83448fed8d7e9b06ec0d3b073f28f7b".

Inductive manifestError :=
| ErrTooShort
| errNotEnough
| errPrefixLength
| ErrInvalidVersionHash.

Definition nodeTypeIsWithMetadataType (nodeType : Z) : bool := Z.land nodeType nodeTypeWithMetadata =? nodeTypeWithMetadata.
Definition IsValueType (nodeType : Z) : bool := Z.land nodeType nodeTypeValue =? nodeTypeValue.

(** [bitsForBytes.fromBytes] copies up to 32 bytes. *)
Definition bits_from (b : bytes) : bytes := take 32 b ++ replicate (32 - length b) 0.

Definition getUint8 (bits : bytes) (i : nat) : bool := 0 <? Z.land (Z.shiftr (default 0 (bits !! (i / 8)%nat)) (Z.of_nat (i mod 8))) 1.

Definition set_bits (bits : bytes) (i : nat) : bytes := alter (fun x => Z.lor x (Z.shiftl 1 (Z.of_nat (i mod 8)))) (i / 8)%nat bits.

(** The bytes [iter] calls its function with. *)
Definition iter (bits : bytes) : list nat := filter (fun i => getUint8 bits i = true) (seq 0 256).

Record node := MkNode {
  nodeType : Z;
  address : Address;
}.

(** [input\[i\] ^ key\[i%len(key)\]] *)
Fixpoint xor_from (i : nat) (input key : bytes) : bytes :=
  match input with
  | [] => []
  | x :: input => Z.lxor x (default 0 (key !! (i mod length key)%nat)) :: xor_from (S i) input key
  end.

Definition encryptDecrypt (input key : bytes) : bytes := xor_from 0 input key.

(** The loop over blocks of the size of the key; [fuel] at least their number. *)
Fixpoint xor_blocks (fuel : nat) (rest key : bytes) : bytes :=
  match fuel, rest with
  | S fuel, _ :: _ => encryptDecrypt (take nodeObfuscationKeySize rest) key ++ xor_blocks fuel (drop nodeObfuscationKeySize rest) key
  | _, _ => []
  end.

Definition xorDecrypt (data : bytes) : bytes :=
  let obfuscationKey := take nodeObfuscationKeySize data in
  obfuscationKey ++ xor_blocks (length data) (drop nodeObfuscationKeySize data) obfuscationKey.

(** [fromBytes] and [fromBytes02] on the bytes of one fork, with the end of the reference. *)
Definition fromBytes (b : bytes) (stop : nat) : option (manifestError + node) :=
  match b with
  | nodeType :: prefixLen :: _ =>
      if (prefixLen =? 0) || (nodePrefixMaxSize <? prefixLen) then Some (inl errPrefixLength)
      else if (length b <? stop)%nat then None
      else Some (inr (MkNode nodeType (slice nodeForkPreReferenceSize stop b)))
  | _ => None
  end.

(** The size of the fork at [offset] and the fork, in the two versions. *)
Definition fork01 (data : bytes) (refBytesSize offset : nat) : option (manifestError + (node * nat)) :=
  let size := (nodeForkPreReferenceSize + refBytesSize)%nat in
  if (length data <? offset + size)%nat then Some (inl errNotEnough)
  else
    n ← fromBytes (slice offset (offset + size) data) size;
    Some (match n with inl e => inl e | inr n => inr (n, size) end).

Definition Uint16 (b : bytes) : nat := Z.to_nat (be_get b).

Definition fork02 (data : bytes) (refBytesSize offset : nat) : option (manifestError + (node * nat)) :=
  if (length data <? offset + nodeForkTypeBytesSize)%nat then Some (inl errNotEnough)
  else
    nodeType ← data !! offset;
    let size := (nodeForkPreReferenceSize + refBytesSize)%nat in
    if nodeTypeIsWithMetadataType nodeType then
      if (length data <? offset + size + nodeForkMetadataBytesSize)%nat then Some (inl errNotEnough)
      else
        let metadataBytesSize := Uint16 (slice (offset + size) (offset + size + nodeForkMetadataBytesSize) data) in
        let full := (size + nodeForkMetadataBytesSize + metadataBytesSize)%nat in
        if (length data <? offset + full)%nat then None
        else
          n ← fromBytes (slice offset (offset + full) data) size;
          Some (match n with inl e => inl e | inr n => inr (n, full) end)
    else if (length data <? offset + size)%nat then Some (inl errNotEnough)
    else
      n ← fromBytes (slice offset (offset + size) data) size;
      Some (match n with inl e => inl e | inr n => inr (n, size) end).

(** One fork for each byte set. *)
Fixpoint forks (fork : nat -> option (manifestError + (node * nat))) (n : nat) (offset : nat) (nodes : list node) :
    option (list node * option manifestError) :=
  match n with
  | O => Some (nodes, None)
  | S n =>
      r ← fork offset;
      match r with
      | inl e => Some (nodes, Some e)
      | inr (nd, size) => forks fork n (offset + size)%nat (nodes ++ [nd])
      end
  end.

Definition UnmarshalBinary (data : bytes) : option (list node * option manifestError) :=
  if (length data <? nodeHeaderSize)%nat then Some ([], Some ErrTooShort)
  else
    let data := xorDecrypt data in
    let versionHash := slice nodeObfuscationKeySize (nodeObfuscationKeySize + versionHashSize) data in
    let v01 := bool_decide (versionHash = version01HashBytes) in
    if v01 || bool_decide (versionHash = version02HashBytes) then
      let refBytesSize := Z.to_nat (default 0 (data !! (nodeHeaderSize - 1)%nat)) in
      let offset := (nodeHeaderSize + refBytesSize)%nat in
      if (length data <? offset)%nat then None
      else
        let bits := bits_from (drop offset data) in
        forks (fun offset => if v01 then fork01 data refBytesSize offset else fork02 data refBytesSize offset)
          (length (iter bits)) (offset + 32)%nat []
    else Some ([], Some ErrInvalidVersionHash).
