(* ===== verification/LocalStore.v ===== *)
(** * The local store of chunks (pkg/localstore)

    Chunks are kept in five indexes of one database: their data with a reference
    count, the time they were last accessed, the chunks of a file being fetched,
    the files to collect as garbage, and the pins.  The state is threaded through a
    monad whose errors keep the state reached, as an early return does.  The lock
    [batchMu] is part of the state: locking it while it is held blocks for ever,
    the error [blocked].  The goroutines that update the garbage index after a
    [Get] wait in [updates] until [run_update] runs one.  Time and free memory
    are sequences read one after the other; metrics and logging are left out. *)

From Stdlib Require Import ZArith Lia ZifyBool.
From stdpp Require Import base gmap list numbers strings.
From S2P Require Import Prelude Boson StateStore Shed FileStore BitVector ChunkStore Mantaray.

Open Scope Z_scope.

Inductive lsError :=
| errDb (e : dbError)
| storeNotFound
| ErrInvalidMode
| errChunks (e : chunkError)
| errFiles (e : fileError)
| panicking
| blocked
| outOfFuel.

Inductive ModeGet := ModeGetRequest | ModeGetSync | ModeGetLookup | ModeGetPin | ModeGetChain | otherGet.
Inductive ModeHas := ModeHasPin | ModeHasChunk | otherHas.
Inductive ModePut := ModePutRequest | ModePutUpload | ModePutUploadPin | ModePutRequestPin | ModePutChain | otherPut.
Inductive ModeSet := ModeSetSync | ModeSetRemove | ModeSetPin | ModeSetUnpin | otherSet.

(** ** Items and indexes *)

(** The zero address is a nil slice. *)
Definition addr_bytes (a : bytes) : option bytes := match a with [] => None | _ => Some a end.
Definition key_bytes (i : Item) : bytes := default [] (Address i).

Definition addressToItem (a : bytes) : Item := MkItem (addr_bytes a) None 0 0 0 0 0 0 0 0.
Definition addressesToItems (l : list bytes) : list Item := map addressToItem l.
Definition chunkToItem (ch : chunk) : Item := MkItem (addr_bytes (addr ch)) (Some (sdata ch)) 0 0 0 0 0 0 0 (tagID ch).

Definition set_AccessTimestamp (i : Item) (t : Z) : Item :=
  MkItem (Address i) (Data i) t (StoreTimestamp i) (BinID i) (Shed.Type_ i) (Counter i) (PinCounter i) (GCounter i) (Tag i).
Definition set_StoreTimestamp (i : Item) (t : Z) : Item :=
  MkItem (Address i) (Data i) (AccessTimestamp i) t (BinID i) (Shed.Type_ i) (Counter i) (PinCounter i) (GCounter i) (Tag i).
Definition set_BinID (i : Item) (b : Z) : Item :=
  MkItem (Address i) (Data i) (AccessTimestamp i) (StoreTimestamp i) b (Shed.Type_ i) (Counter i) (PinCounter i) (GCounter i) (Tag i).
Definition set_Type (i : Item) (t : Z) : Item :=
  MkItem (Address i) (Data i) (AccessTimestamp i) (StoreTimestamp i) (BinID i) t (Counter i) (PinCounter i) (GCounter i) (Tag i).
Definition set_Counter (i : Item) (c : Z) : Item :=
  MkItem (Address i) (Data i) (AccessTimestamp i) (StoreTimestamp i) (BinID i) (Shed.Type_ i) c (PinCounter i) (GCounter i) (Tag i).
Definition set_PinCounter (i : Item) (c : Z) : Item :=
  MkItem (Address i) (Data i) (AccessTimestamp i) (StoreTimestamp i) (BinID i) (Shed.Type_ i) (Counter i) c (GCounter i) (Tag i).
Definition set_GCounter (i : Item) (c : Z) : Item :=
  MkItem (Address i) (Data i) (AccessTimestamp i) (StoreTimestamp i) (BinID i) (Shed.Type_ i) (Counter i) (PinCounter i) c (Tag i).
Definition set_Data (i : Item) (d : bytes) : Item :=
  MkItem (Address i) (Some d) (AccessTimestamp i) (StoreTimestamp i) (BinID i) (Shed.Type_ i) (Counter i) (PinCounter i) (GCounter i) (Tag i).

Definition addressKey (key : bytes) : option Item := Some (MkItem (Some key) None 0 0 0 0 0 0 0 0).

(** The field with the name of the schema. *)
Definition schemaNameKey : bytes := keyPrefixFields :: str "schema-name".

(** Where the schema put the indexes and fields. *)
Record Layout := MkLayout {
  dataPrefix : bytes;
  accessPrefix : bytes;
  transferPrefix : bytes;
  gcPrefix : bytes;
  pinPrefix : bytes;
  gcSizeKey : bytes;
  binIDsKey : bytes;
}.

Section Config.
Context (L : Layout).

Definition retrievalDataIndex : Index := MkIndex (dataPrefix L) key_bytes addressKey
  (fun i => BE_PutUint64 (BinID i) ++ BE_PutUint64 (StoreTimestamp i) ++ BE_PutUint64 (Shed.Type_ i) ++ BE_PutUint64 (Counter i) ++ default [] (Data i))
  (fun v =>
    binID ← BE_Uint64 v; ts ← BE_Uint64 (drop 8 v); ty ← BE_Uint64 (drop 16 v); counter ← BE_Uint64 (drop 24 v);
    Some (MkItem None (Some (drop 32 v)) 0 (i64 ts) binID ty counter 0 0 0)).

Definition retrievalAccessIndex : Index := MkIndex (accessPrefix L) key_bytes addressKey
  (fun i => BE_PutUint64 (AccessTimestamp i))
  (fun v => ts ← BE_Uint64 v; Some (MkItem None None (i64 ts) 0 0 0 0 0 0 0)).

Definition transferDataIndex : Index := MkIndex (transferPrefix L) key_bytes addressKey
  (fun i => default [] (Data i))
  (fun v => Some (MkItem None (Some v) 0 0 0 0 0 0 0 0)).

Definition gcIndex : Index := MkIndex (gcPrefix L)
  (fun i => BE_PutUint64 (AccessTimestamp i) ++ BE_PutUint64 (BinID i) ++ key_bytes i)
  (fun k => ts ← BE_Uint64 k; binID ← BE_Uint64 (drop 8 k); Some (MkItem (Some (drop 16 k)) None (i64 ts) 0 binID 0 0 0 0 0))
  (fun i => BE_PutUint64 (GCounter i))
  (fun v => c ← BE_Uint64 v; Some (MkItem None None 0 0 0 0 0 0 c 0)).

Definition pinIndex : Index := MkIndex (pinPrefix L) key_bytes addressKey
  (fun i => BE_PutUint64 (PinCounter i))
  (fun v => c ← BE_Uint64 v; Some (MkItem None None 0 0 0 0 0 c 0 0)).
End Config.

(** ** Floating-point ratios *)

(** A non-negative integer as a [float64]: 53 significant bits, ties to even. *)
Definition round53 (z : Z) : Z :=
  let e := Z.max 0 (Z.log2 z - 52) in
  let q := z / 2 ^ e in
  let r := z mod 2 ^ e in
  let q := if (2 ^ e <? 2 * r) || ((2 ^ e =? 2 * r) && Z.odd q) then q + 1 else q in
  q * 2 ^ e.

(** [uint64(float64(c) * 0.9)]: 0.9 is 8106479329266893 / 2^53. *)
Definition nine_tenths (c : Z) : Z := u64 (round53 (round53 c * 8106479329266893) / 2 ^ 53).

Definition gcTarget (capacity : Z) : Z := nine_tenths capacity.
Definition gcBatchSize : Z := 10000.

(** ** The state *)

Section Store.
Context {S : Type} `{BE : Backend S}.
Context {S2 V : Type} `{ST : StateStorer S2 V} `{CB' : Codec BitVector V} `{CF : Codec FileView V} `{CM : Codec FileMirror V}.

Record DB := MkDB {
  shed : S;
  batch : list bop;
  chunkstore : chunkStore (S := S2);
  filestore : fileStore S2;
  batchMu : bool;
  gcRunning : bool;
  dirtyAddresses : list bytes;
  updates : list (list Item);
  clock : nat;
  gcMemory : Z;
  collectGarbageTrigger : bool;
  collectMemoryGarbageTrigger : bool;
}.

(** What a store is opened with, and the readings of clock and free memory. *)
Record Config := MkConfig {
  driver : Driver;
  layout : Layout;
  capacity : Z;
  fullNode : bool;
  baseKey : bytes;
  time : nat -> Z;
  freeMemory : nat -> Z;
}.

Definition M (A : Type) : Type := DB -> DB * result lsError A.

#[export] Instance M_ret : MRet M := fun A a db => (db, Ok a).
#[export] Instance M_bind : MBind M := fun A B f m db => match m db with (db, Ok a) => f a db | (db, Err e) => (db, Err e) end.

Definition fail {A} (e : lsError) : M A := fun db => (db, Err e).
Definition get_state {A} (f : DB -> A) : M A := fun db => (db, Ok (f db)).

Definition set_shed (db : DB) (st : S) (b : list bop) : DB :=
  MkDB st b (chunkstore db) (filestore db) (batchMu db) (gcRunning db) (dirtyAddresses db) (updates db) (clock db) (gcMemory db)
    (collectGarbageTrigger db) (collectMemoryGarbageTrigger db).
Definition set_chunkstore (db : DB) (cs : chunkStore (S := S2)) : DB :=
  MkDB (shed db) (batch db) cs (filestore db) (batchMu db) (gcRunning db) (dirtyAddresses db) (updates db) (clock db) (gcMemory db)
    (collectGarbageTrigger db) (collectMemoryGarbageTrigger db).
Definition set_filestore (db : DB) (fs : fileStore S2) : DB :=
  MkDB (shed db) (batch db) (chunkstore db) fs (batchMu db) (gcRunning db) (dirtyAddresses db) (updates db) (clock db) (gcMemory db)
    (collectGarbageTrigger db) (collectMemoryGarbageTrigger db).
Definition set_batchMu (db : DB) (b : bool) : DB :=
  MkDB (shed db) (batch db) (chunkstore db) (filestore db) b (gcRunning db) (dirtyAddresses db) (updates db) (clock db) (gcMemory db)
    (collectGarbageTrigger db) (collectMemoryGarbageTrigger db).
Definition set_gc (db : DB) (running : bool) (dirty : list bytes) : DB :=
  MkDB (shed db) (batch db) (chunkstore db) (filestore db) (batchMu db) running dirty (updates db) (clock db) (gcMemory db)
    (collectGarbageTrigger db) (collectMemoryGarbageTrigger db).
Definition set_updates (db : DB) (u : list (list Item)) : DB :=
  MkDB (shed db) (batch db) (chunkstore db) (filestore db) (batchMu db) (gcRunning db) (dirtyAddresses db) u (clock db) (gcMemory db)
    (collectGarbageTrigger db) (collectMemoryGarbageTrigger db).
Definition set_clock (db : DB) (c : nat) : DB :=
  MkDB (shed db) (batch db) (chunkstore db) (filestore db) (batchMu db) (gcRunning db) (dirtyAddresses db) (updates db) c (gcMemory db)
    (collectGarbageTrigger db) (collectMemoryGarbageTrigger db).
Definition set_gcMemory (db : DB) (m : Z) : DB :=
  MkDB (shed db) (batch db) (chunkstore db) (filestore db) (batchMu db) (gcRunning db) (dirtyAddresses db) (updates db) (clock db) m
    (collectGarbageTrigger db) (collectMemoryGarbageTrigger db).
Definition set_triggers (db : DB) (gc mem : bool) : DB :=
  MkDB (shed db) (batch db) (chunkstore db) (filestore db) (batchMu db) (gcRunning db) (dirtyAddresses db) (updates db) (clock db) (gcMemory db) gc mem.

Context (C : Config).

Abbreviation retrievalDataIndex := (retrievalDataIndex (layout C)).
Abbreviation retrievalAccessIndex := (retrievalAccessIndex (layout C)).
Abbreviation transferDataIndex := (transferDataIndex (layout C)).
Abbreviation gcIndex := (gcIndex (layout C)).
Abbreviation pinIndex := (pinIndex (layout C)).

Definition lift {A} (r : result dbError A) : M A := fun db => (db, match r with Ok a => Ok a | Err e => Err (errDb e) end).

Definition now : M Z := fun db => (set_clock db (Datatypes.S (clock db)), Ok (time C (clock db))).
Definition getMemory : M Z := fun db => (set_clock db (Datatypes.S (clock db)), Ok (freeMemory C (clock db))).

(** [db.batchMu.Lock(); defer db.batchMu.Unlock()] *)
Definition locked {A} (m : M A) : M A := fun db =>
  if batchMu db then (db, Err blocked) else let '(db, r) := m (set_batchMu db true) in (set_batchMu db false, r).
Definition Lock : M unit := fun db => if batchMu db then (db, Err blocked) else (set_batchMu db true, Ok tt).
Definition Unlock : M unit := fun db => (set_batchMu db false, Ok tt).

(** ** Reading and writing indexes *)

Definition NewBatch : M unit := fun db => (set_shed db (shed db) [], Ok tt).

(** [Get] of an index; [None] if there is no such key. *)
Definition index_Get (f : Index) (i : Item) : M (option Item) := fun db =>
  match Shed.Get f (shed db) i with
  | Ok o => (db, Ok (Some o))
  | Err ErrNotFound => (db, Ok None)
  | Err e => (db, Err (errDb e))
  end.

Definition index_Has (f : Index) (i : Item) : M bool := db ← get_state (fun db => db); lift (Shed.Has f (shed db) i).

(** A step that fills the batch. *)
Definition in_batch (w : S * list bop -> result dbError (S * list bop)) : M unit := fun db =>
  match w (shed db, batch db) with
  | Ok (st, b) => (set_shed db st b, Ok tt)
  | Err e => (db, Err (errDb e))
  end.

Definition index_Put (f : Index) (i : Item) : M unit := in_batch (fun sb => PutInBatch f (driver C) sb i).
Definition index_Delete (f : Index) (i : Item) : M unit := in_batch (fun sb => DeleteInBatch f (driver C) sb i).

Definition batch_Commit : M unit := fun db =>
  match Commit (driver C) (shed db, batch db) with
  | Ok st => (set_shed db st [], Ok tt)
  | Err e => (db, Err (errDb e))
  end.

(** A write whose error is ignored. *)
Definition ignore (m : M unit) : M unit := fun db => match m db with (db, _) => (db, Ok tt) end.

Fixpoint for_each {A B} (f : B -> A -> M B) (acc : B) (l : list A) : M B :=
  match l with
  | [] => mret acc
  | a :: l => acc ← f acc a; for_each f acc l
  end.

(** ** Put (mode_put.go, gc.go) *)

Definition po (a : bytes) : Z := Proximity (baseKey C) a.

(** [binIDs] is the map filled during one call. *)
Definition incBinID (binIDs : gmap Z Z) (p : Z) : M (gmap Z Z * Z) :=
  id ← match binIDs !! p with
    | Some id => mret id
    | None => db ← get_state (fun db => db); lift (Vector_Get (shed db) (binIDsKey (layout C)) p)
    end;
  let id := u64 (id + 1) in
  mret (<[p := id]> binIDs, id).

(** The type bit [t] set in the lowest byte. *)
Definition add_type (ty t : Z) : Z :=
  let bit := Z.shiftl 1 (u64 (t - 1) mod 8) in
  if Z.land (ty mod 256) bit =? 0 then Z.lxor ty bit else ty.

Definition putUpload (binIDs : gmap Z Z) (item : Item) : M (gmap Z Z * bool * Item) :=
  exists_ ← index_Has retrievalDataIndex item;
  '(binIDs, item) ←
    (if exists_ : bool then
      o ← index_Get retrievalDataIndex item;
      match o with
      | None => fail (errDb ErrNotFound)
      | Some i => mret (binIDs, set_Counter (set_Type i (add_type (Shed.Type_ i) (Shed.Type_ item))) (u64 (Counter i + 1)))
      end
    else
      t ← now;
      '(binIDs, id) ← incBinID binIDs (po (key_bytes item));
      mret (binIDs, set_BinID (set_StoreTimestamp (set_Counter item 1) t) id));
  _ ← index_Put retrievalDataIndex item;
  mret (binIDs, exists_, item).

Definition setGC (item : Item) : M Z :=
  match Address item with
  | None => mret 0
  | Some _ =>
      o ← index_Get retrievalAccessIndex item;
      ts ← match o with
        | Some i => mret (AccessTimestamp i)
        | None => t ← now; _ ← index_Put retrievalAccessIndex (set_AccessTimestamp (MkItem (Address item) None 0 0 0 0 0 0 0 0) t); mret t
        end;
      let item := set_AccessTimestamp item ts in
      item ← (if BinID item =? 0 then
          o ← index_Get retrievalDataIndex item;
          mret (set_BinID item (match o with Some i => BinID i | None => 0 end))
        else mret item);
      o ← index_Get gcIndex item;
      _ ← index_Put gcIndex (match o with
        | Some gcItem => set_GCounter gcItem (u64 (GCounter gcItem + 1))
        | None => set_GCounter item 1
        end);
      mret 1
  end.

(** [setPin] writes the garbage index past the batch if its counter is not 1. *)
Definition setPin (item rootItem : Item) : M Z :=
  o ← index_Get pinIndex item;
  let item := set_PinCounter item (match o with Some i => PinCounter i | None => 0 end) in
  change ← match Address rootItem with
    | None => mret 0
    | Some _ =>
        o ← index_Get retrievalAccessIndex rootItem;
        match o with
        | None => mret 0
        | Some i =>
            let rootItem := set_AccessTimestamp rootItem (AccessTimestamp i) in
            o ← index_Get retrievalDataIndex rootItem;
            match o with
            | None => fail (errDb ErrNotFound)
            | Some i =>
                let rootItem := set_BinID (set_StoreTimestamp rootItem (StoreTimestamp i)) (BinID i) in
                o ← index_Get gcIndex rootItem;
                _ ← match o with
                  | None => mret tt
                  | Some gcItem =>
                      if GCounter gcItem =? 1 then index_Delete gcIndex gcItem
                      else fun db =>
                        match Shed.Put gcIndex (shed db) (set_GCounter gcItem (u64 (GCounter gcItem - 1))) with
                        | Ok st => (set_shed db st (batch db), Ok tt)
                        | Err e => (db, Err (errDb e))
                        end
                  end;
                mret (-1)
            end
        end
    end;
  _ ← index_Put pinIndex (set_PinCounter item (u64 (PinCounter item + 1)));
  mret change.

Definition preserveOrCache (item rootItem : Item) (forcePin : bool) : M Z :=
  if forcePin then setPin item rootItem else setGC rootItem.

Definition putRequest (binIDs : gmap Z Z) (item rootItem : Item) (forcePin : bool) : M (gmap Z Z * bool * Z) :=
  '(binIDs, exists_, item) ← putUpload binIDs item;
  if exists_ : bool then mret (binIDs, true, 0)
  else
    let rootItem := if bool_decide (key_bytes item = key_bytes rootItem) then set_BinID rootItem (BinID item) else rootItem in
    c ← preserveOrCache item rootItem forcePin;
    mret (binIDs, false, c).

Definition putTransfer (a ch : bytes) : M unit :=
  let item := addressToItem a in
  exists_ ← index_Has transferDataIndex item;
  item ← (if exists_ : bool then
      o ← index_Get transferDataIndex item; match o with Some i => mret i | None => fail (errDb ErrNotFound) end
    else mret item);
  index_Put transferDataIndex (set_Data item (default [] (Data item) ++ ch)).

Definition triggerGarbageCollection : M unit := fun db => (set_triggers db true (collectMemoryGarbageTrigger db), Ok tt).
Definition triggerGarbageMemoryCollection : M unit := fun db => (set_triggers db (collectGarbageTrigger db) true, Ok tt).

Definition incGCSizeInBatch (change : Z) : M unit :=
  if change =? 0 then mret tt
  else
    db ← get_state (fun db => db);
    gcSize ← lift (Field_Get (shed db) (gcSizeKey (layout C)));
    if (change <? 0) && (gcSize <? u64 (- change)) then mret tt
    else
      let newSize := if 0 <? change then u64 (gcSize + u64 change) else gcSize - u64 (- change) in
      _ ← ignore (in_batch (fun sb => Field_PutInBatch (driver C) sb (gcSizeKey (layout C)) newSize));
      _ ← (if capacity C <=? newSize then triggerGarbageCollection else mret tt);
      if fullNode C then
        m ← getMemory;
        db ← get_state (fun db => db);
        if m <? gcMemory db then triggerGarbageMemoryCollection else mret tt
      else mret tt.

Definition write_binIDs (binIDs : gmap Z Z) : M unit :=
  for_each (fun _ '(p, id) => ignore (in_batch (fun sb => Vector_PutInBatch (driver C) sb (binIDsKey (layout C)) p id))) tt (map_to_list binIDs).

Definition mark_dirty (l : list bytes) : M unit := fun db =>
  (if gcRunning db then set_gc db true (dirtyAddresses db ++ l) else db, Ok tt).

(** One chunk of a call of [put]: the state of the loop is the map of bins, the
    answers so far and the change of the size. *)
Definition put_chunk (mode : ModePut) (rootAddr : bytes) (acc : gmap Z Z * list bool * Z) (ch : chunk) : M (gmap Z Z * list bool * Z) :=
  let '(binIDs, exs, change) := acc in
  let rootItem := addressToItem rootAddr in
  match mode with
  | ModePutRequest | ModePutRequestPin =>
      '(binIDs, ex, c) ← putRequest binIDs (set_Type (chunkToItem ch) 1) rootItem (match mode with ModePutRequestPin => true | _ => false end);
      _ ← putTransfer rootAddr (addr ch);
      mret (binIDs, exs ++ [ex], change + c)
  | ModePutUpload | ModePutUploadPin =>
      let item := set_Type (chunkToItem ch) 1 in
      '(binIDs, ex, _) ← putUpload binIDs item;
      _ ← match mode with ModePutUploadPin => setPin item rootItem | _ => mret 0 end;
      mret (binIDs, exs ++ [ex], change)
  | ModePutChain =>
      '(binIDs, ex, c) ← putRequest binIDs (set_Type (chunkToItem ch) 2) rootItem false;
      mret (binIDs, exs ++ [ex], change + c)
  | otherPut => fail ErrInvalidMode
  end.

Definition put (mode : ModePut) (rootAddr : bytes) (chs : list chunk) : M (list bool) := locked (
  _ ← mark_dirty (map addr chs);
  _ ← NewBatch;
  _ ← match mode with otherPut => fail ErrInvalidMode | _ => mret tt end;
  '(binIDs, exs, change) ← for_each (put_chunk mode rootAddr) (∅, [], 0) chs;
  _ ← write_binIDs binIDs;
  _ ← incGCSizeInBatch change;
  _ ← batch_Commit;
  mret exs).

(** The root is that of the context. *)
Definition Put := put.

(** ** Set (mode_set.go) *)

Definition setSync (a : bytes) : M Z :=
  let item := addressToItem a in
  o ← index_Get retrievalDataIndex item;
  match o with
  | None => mret 0
  | Some i =>
      let item := set_BinID (set_StoreTimestamp item (StoreTimestamp i)) (BinID i) in
      o ← index_Get retrievalAccessIndex item;
      change ← match o with
        | Some i => _ ← index_Delete gcIndex (set_AccessTimestamp item (AccessTimestamp i)); mret (-1)
        | None => mret 0
        end;
      t ← now;
      let item := set_AccessTimestamp item t in
      _ ← index_Put retrievalAccessIndex item;
      ok ← index_Has pinIndex item;
      if ok : bool then mret change else _ ← index_Put gcIndex item; mret (change + 1)
  end.

Definition chunks_RemoveAll (t : ChunkType) (reference : bytes) : M unit := fun db =>
  let '(cs, r) := ChunkStore.RemoveAll (chunkstore db) t reference in
  (set_chunkstore db cs, match r with Ok _ => Ok tt | Err e => Err (errChunks e) end).

Definition deleteFile (reference : bytes) : M unit :=
  _ ← chunks_RemoveAll DISCOVER reference;
  _ ← chunks_RemoveAll SERVICE reference;
  chunks_RemoveAll SOURCE reference.

(** The root item with what the indexes say, [None] if it was never accessed. *)
Definition complete_root (rootItem : Item) : M (option Item) :=
  if StoreTimestamp rootItem =? 0 then
    o ← index_Get retrievalDataIndex rootItem;
    match o with
    | None => fail (errDb ErrNotFound)
    | Some i =>
        let rootItem := set_BinID (set_StoreTimestamp rootItem (StoreTimestamp i)) (BinID i) in
        o ← index_Get retrievalAccessIndex rootItem;
        mret ((fun i => set_AccessTimestamp rootItem (AccessTimestamp i)) <$> o)
    end
  else mret (Some rootItem).

Definition gcRemove (rootItem : Item) : M Z :=
  r ← complete_root rootItem;
  match r with
  | None => mret 0
  | Some rootItem =>
      _ ← deleteFile (key_bytes rootItem);
      o ← index_Get gcIndex rootItem;
      match o with
      | None => mret 0
      | Some gcItem =>
          _ ← (if 1 <? GCounter gcItem then index_Put gcIndex (set_GCounter gcItem (GCounter gcItem - 1))
               else _ ← index_Delete retrievalAccessIndex rootItem; index_Delete gcIndex gcItem);
          mret (-1)
      end
  end.

Definition setRemove (a : bytes) (rootItem : Item) : M Z :=
  o ← index_Get retrievalDataIndex (addressToItem a);
  match o with
  | None => gcRemove rootItem
  | Some item =>
      if 1 <? Counter item then _ ← index_Put retrievalDataIndex (set_Counter item (Counter item - 1)); mret 0
      else
        o ← index_Get retrievalAccessIndex item;
        let item := match o with Some i => set_AccessTimestamp item (AccessTimestamp i) | None => item end in
        o ← index_Get pinIndex item;
        pinned ← match o with
          | None => mret false
          | Some pinItem =>
              let c := u64 (PinCounter pinItem - 1) in
              if 0 <? c then _ ← index_Put pinIndex (set_PinCounter pinItem c); mret true
              else _ ← index_Delete pinIndex item; mret false
          end;
        if pinned : bool then mret 0
        else
          _ ← index_Delete retrievalDataIndex item;
          if bool_decide (a = key_bytes rootItem) then gcRemove item
          else _ ← index_Delete retrievalAccessIndex item; gcRemove rootItem
  end.

Definition setUnpin (item rootItem : Item) : M Z :=
  o ← index_Get pinIndex item;
  match o with
  | None => fail (errDb ErrNotFound)
  | Some i =>
      let item := set_PinCounter item (PinCounter i) in
      if 1 <? PinCounter item then _ ← index_Put pinIndex (set_PinCounter item (PinCounter item - 1)); mret 0
      else
        _ ← index_Delete pinIndex item;
        match Address rootItem with
        | None => mret 0
        | Some _ =>
            o ← index_Get retrievalAccessIndex rootItem;
            rootItem ← match o with
              | Some i => mret (set_AccessTimestamp rootItem (AccessTimestamp i))
              | None =>
                  t ← now;
                  let rootItem := set_AccessTimestamp rootItem t in
                  _ ← index_Put retrievalAccessIndex rootItem; mret rootItem
              end;
            o ← index_Get retrievalDataIndex rootItem;
            match o with
            | None => fail (errDb ErrNotFound)
            | Some i =>
                let rootItem := set_BinID (set_StoreTimestamp rootItem (StoreTimestamp i)) (BinID i) in
                o ← index_Get gcIndex rootItem;
                _ ← index_Put gcIndex (match o with
                  | None => set_GCounter rootItem 1
                  | Some gcItem => set_GCounter gcItem (u64 (GCounter gcItem + 1))
                  end);
                mret 1
            end
        end
  end.

Definition set_addr (mode : ModeSet) (rootAddr : bytes) (change : Z) (a : bytes) : M Z :=
  c ← match mode with
    | ModeSetSync => setSync a
    | ModeSetRemove => setRemove a (addressToItem rootAddr)
    | ModeSetPin =>
        has ← index_Has retrievalDataIndex (addressToItem a);
        if has : bool then setPin (addressToItem a) (addressToItem rootAddr) else fail storeNotFound
    | ModeSetUnpin => setUnpin (addressToItem a) (addressToItem rootAddr)
    | otherSet => fail ErrInvalidMode
    end;
  mret (change + c).

Definition set (mode : ModeSet) (rootAddr : bytes) (addrs : list bytes) : M unit := locked (
  _ ← mark_dirty addrs;
  _ ← NewBatch;
  _ ← match mode with otherSet => fail ErrInvalidMode | _ => mret tt end;
  change ← for_each (set_addr mode rootAddr) 0 addrs;
  _ ← incGCSizeInBatch change;
  batch_Commit).

Definition Set_ := set.

(** ** The chunks of a file (mode_get.go) *)

Definition getTransfer (st : S) (rootCid : bytes) : option bytes :=
  match Shed.Get transferDataIndex st (addressToItem rootCid) with
  | Ok out => Some (default [] (Data out))
  | Err _ => None
  end.

(** Addresses from the end of the data on; a rest shorter than an address is a panic. *)
Fixpoint split_hashes (fuel : nat) (data : bytes) : result lsError (list bytes) :=
  match fuel, data with
  | _, [] => Ok []
  | O, _ => Err outOfFuel
  | Datatypes.S fuel, _ =>
      if (length data <? HashSize)%nat then Err panicking
      else
        let n := (length data - HashSize)%nat in
        rest ← split_hashes fuel (take n data);
        Ok (drop n data :: rest)
  end.

(** The references in the data of a node; zeroes are padding, and a rest shorter
    than an address is a panic: the data is taken to have no spare capacity. *)
Fixpoint walk_refs (get : bytes -> result lsError (list bytes)) (fuel : nat) (data : bytes) : result lsError (list bytes) :=
  match fuel, data with
  | _, [] => Ok []
  | O, _ => Err outOfFuel
  | Datatypes.S fuel, _ =>
      if (length data <? HashSize)%nat then Err panicking
      else
        let ch := take HashSize data in
        ps ← (if bool_decide (ch = replicate HashSize 0) then Ok [] else get ch);
        rest ← walk_refs get fuel (drop HashSize data);
        Ok (ps ++ rest)
  end.

(** The chunks below the forks of a manifest; errors are ignored, panics are not. *)
Fixpoint walk_nodes (get : bytes -> result lsError (list bytes)) (nodes : list node) : result lsError (list bytes) :=
  match nodes with
  | [] => Ok []
  | n :: nodes =>
      ps ← match get (address n) with Err panicking => Err panicking | Err outOfFuel => Err outOfFuel | Err _ => Ok [] | r => r end;
      rest ← walk_nodes get nodes;
      Ok (ps ++ rest)
  end.

(** The last argument tells whether the chunk is data of the file ([t == 1]) or may
    be the node of a manifest. *)
Fixpoint getChunk (fuel : nat) (st : S) (ch : bytes) (t : bool) : result lsError (list bytes) :=
  match fuel with
  | O => Err outOfFuel
  | Datatypes.S fuel =>
      match Shed.Get retrievalDataIndex st (addressToItem ch) with
      | Err ErrNotFound => Ok []
      | Err e => Err (errDb e)
      | Ok item =>
          let all := default [] (Data item) in
          if (length all <? 8)%nat then Err panicking
          else
            let data := drop 8 all in
            let size := i64 (Uint64 all) in
            let small := size <=? zlen data in
            if small && t then Ok [ch]
            else
              nodes ← (if small then match UnmarshalBinary data with None => Err panicking | Some r => Ok r.1 end else Ok []);
              forks ← walk_nodes (fun a => getChunk fuel st a false) nodes;
              if match nodes with [] => false | _ => true end then Ok (forks ++ [ch])
              else
                subs ← walk_refs (fun a => getChunk fuel st a true) (length data) data;
                Ok (forks ++ ch :: subs)
      end
  end.

Definition getAllChunks (fuel : nat) (st : S) (rootCid : bytes) : result lsError (list bytes) :=
  match getTransfer st rootCid with
  | Some data => split_hashes (length data) data
  | None => match getChunk fuel st rootCid false with Err (errDb ErrNotFound) => Err storeNotFound | r => r end
  end.

Definition of_result {A} (r : result lsError A) : M A := fun db => (db, r).

Definition setRemoveTransfer (rootCid : bytes) : M unit := index_Delete transferDataIndex (addressToItem rootCid).

Definition setRemoveAll (fuel : nat) (item : Item) : M unit := locked (
  _ ← NewBatch;
  let rootCid := key_bytes item in
  db ← get_state (fun db => db);
  chunks ← of_result (getAllChunks fuel (shed db) rootCid);
  change ← for_each (fun change a => c ← setRemove a item; mret (change + c)) 0 chunks;
  _ ← setRemoveTransfer rootCid;
  _ ← incGCSizeInBatch change;
  batch_Commit).

Definition commonDelete (fuel : nat) (item : Item) : M unit :=
  let reference := key_bytes item in
  _ ← ((fun db => (set_chunkstore db (CancelFinder (chunkstore db) reference), Ok tt)) : M unit);
  _ ← ((fun db => let '(fs, r) := FileStore.Delete (filestore db) reference in
          (set_filestore db fs, match r with Ok _ => Ok tt | Err e => Err (errFiles e) end)) : M unit);
  setRemoveAll fuel item.

Definition DeleteFile (fuel : nat) (reference : bytes) : M unit := commonDelete fuel (addressToItem reference).
Definition gcFile := commonDelete.

(** ** Get (mode_get.go, mode_get_multi.go, mode_has.go) *)

Definition updateGCItems (items : list Item) : M unit := fun db => (set_updates db (updates db ++ [items]), Ok tt).

(** The loop of [updateGC]: the entry of the item, or that with bin 0. *)
Definition gc_entry (item : Item) : M (option Item) :=
  o ← index_Get gcIndex item;
  match o with
  | Some g => mret (Some g)
  | None => if BinID item =? 0 then mret None else index_Get gcIndex (set_BinID item 0)
  end.

(** [i] is the item read last: it gives the bin the entry is written with. *)
Definition updateGC (item : Item) : M unit := locked (
  _ ← mark_dirty [key_bytes item];
  _ ← NewBatch;
  o ← index_Get retrievalAccessIndex item;
  let i := default emptyItem o in
  let item := match o with Some i => set_AccessTimestamp item (AccessTimestamp i) | None => item end in
  if AccessTimestamp item =? 0 then mret tt
  else
    '(i, item) ← (if BinID item =? 0 then
        o ← index_Get retrievalDataIndex item;
        let i := default emptyItem o in mret (i, set_BinID item (BinID i))
      else mret (i, item));
    g ← gc_entry item;
    match g with
    | None => mret tt
    | Some gcItem =>
        let item := set_BinID item (BinID i) in
        _ ← index_Delete gcIndex gcItem;
        t ← now;
        let item := set_AccessTimestamp (set_GCounter item (GCounter gcItem)) t in
        _ ← index_Put gcIndex item;
        _ ← index_Put retrievalAccessIndex item;
        batch_Commit
    end).

(** One of the waiting goroutines runs; its errors are only logged. *)
Definition run_update (k : nat) : M unit := fun db =>
  match updates db !! k with
  | None => (db, Ok tt)
  | Some items => for_each (fun _ item => ignore (updateGC item)) tt items (set_updates db (delete k (updates db)))
  end.

(** Called with its error ignored. *)
Definition HasChunkBit (rootAddr : bytes) (k : Z) : M bool := fun db =>
  (db, match ChunkStore.HasChunk (chunkstore db) SOURCE rootAddr k with Ok b => Ok b | Err panicked => Err panicking | Err _ => Ok false end).

Definition type_bit (item : Item) (n : Z) : bool := negb (Z.land (Shed.Type_ item mod 256) (Z.shiftl 1 n) =? 0).

(** The batch of a request is never committed, and an error in it leaves the lock held. *)
Definition get (mode : ModeGet) (a rootAddr : bytes) (index : Z) : M Item :=
  let item := addressToItem a in
  o ← index_Get retrievalDataIndex item;
  match o with
  | None => fail (errDb ErrNotFound)
  | Some out =>
      match mode with
      | ModeGetRequest =>
          if negb (type_bit out 0) then fail storeNotFound
          else match rootAddr with
            | [] => _ ← updateGCItems [out]; mret out
            | _ =>
                _ ← updateGCItems [addressToItem rootAddr];
                ok ← HasChunkBit rootAddr index;
                if ok : bool then mret out
                else
                  _ ← NewBatch;
                  _ ← Lock;
                  _ ← putUpload ∅ out;
                  _ ← Unlock;
                  mret out
            end
      | ModeGetPin => o ← index_Get pinIndex item; match o with Some p => mret p | None => fail (errDb ErrNotFound) end
      | ModeGetChain => if type_bit out 1 then mret out else fail storeNotFound
      | ModeGetSync | ModeGetLookup => mret out
      | otherGet => fail ErrInvalidMode
      end
  end.

(** The not-found error of the database becomes that of the storage. *)
Definition translate {A} (m : M A) : M A := fun db => match m db with (db, Err (errDb ErrNotFound)) => (db, Err storeNotFound) | r => r end.

Definition Get (mode : ModeGet) (a rootAddr : bytes) (index : Z) : M chunk :=
  out ← translate (get mode a rootAddr index); mret (NewChunk (key_bytes out) (default [] (Data out))).

Definition getMulti (mode : ModeGet) (addrs : list bytes) : M (list Item) :=
  db ← get_state (fun db => db);
  out ← lift (Fill retrievalDataIndex (shed db) (addressesToItems addrs));
  match mode with
  | ModeGetRequest => _ ← updateGCItems out; mret out
  | ModeGetPin => lift (Fill pinIndex (shed db) out)
  | ModeGetSync | ModeGetLookup => mret out
  | ModeGetChain | otherGet => fail ErrInvalidMode
  end.

Definition GetMulti (mode : ModeGet) (addrs : list bytes) : M (list chunk) :=
  out ← translate (getMulti mode addrs); mret (map (fun i => NewChunk (key_bytes i) (default [] (Data i))) out).

Definition Has (mode : ModeHas) (a : bytes) : M bool :=
  match mode with
  | ModeHasPin => index_Has pinIndex (addressToItem a)
  | ModeHasChunk => index_Has retrievalDataIndex (addressToItem a)
  | otherHas => fail ErrInvalidMode
  end.

Definition HasMulti (mode : ModeHas) (addrs : list bytes) : M (list bool) :=
  db ← get_state (fun db => db);
  lift (Shed.HasMulti (match mode with ModeHasPin => pinIndex | _ => retrievalDataIndex end) (shed db) (addressesToItems addrs)).

Definition ChunkCounter (fuel : nat) (reference : bytes) : M unit :=
  db ← get_state (fun db => db);
  chunks ← of_result (getChunk fuel (shed db) reference true);
  _ ← NewBatch;
  _ ← Lock;
  _ ← for_each (fun binIDs c => r ← putUpload binIDs (set_Type (addressToItem c) 1); mret r.1.1) ∅ chunks;
  ((fun db => let '(db, r) := batch_Commit db in (set_batchMu db false, r)) : M unit).

(** ** Garbage collection (gc.go) *)

(** The function [collectGarbage] iterates with: the candidates and their count. *)
Definition gc_candidate (gcSize target : Z) (acc : list Item * Z) (item : Item) : result unit ((list Item * Z) * bool) :=
  let '(candidates, collectedCount) := acc in
  if u64 (gcSize - collectedCount) <=? target then Ok (acc, true)
  else
    let collectedCount := u64 (collectedCount + GCounter item) in
    Ok ((candidates ++ [item], collectedCount), gcBatchSize <=? collectedCount).

(** The functions given to [Iterate] here do not fail. *)
Definition of_iter {A} (r : A * option (iterError unit)) : M A := fun db =>
  (db, match r.2 with None => Ok r.1 | Some (iterDb e) => Err (errDb e) | Some (iterFn _) => Err panicking end).

(** Deletes the files of the candidates; the error of the last one is returned. *)
Fixpoint gc_files (fuel : nat) (candidates : list Item) (err : result lsError unit) : M unit := fun db =>
  match candidates with
  | [] => (db, err)
  | item :: candidates => let '(db, err) := gcFile fuel item db in gc_files fuel candidates err db
  end.

Definition gc_begin : M unit := locked (fun db => (set_gc db true (dirtyAddresses db), Ok tt)).
Definition gc_end : M unit := locked (fun db => (set_gc db false [], Ok tt)).

(** The deferred end of a collection runs unless the body blocks for ever. *)
Definition then_end {A} (m : M A) : M A := fun db =>
  match m db with
  | (db, Err blocked) => (db, Err blocked)
  | (db, r) => match gc_end db with (db, Ok _) => (db, r) | (db, Err e) => (db, Err e) end
  end.

Definition gc_run {A} (m : M A) : M A := _ ← gc_begin; then_end m.

(** The count of removed items and whether the collection is done. *)
Definition collectGarbage (fuel : nat) : M (Z * bool) := gc_run (
  db ← get_state (fun db => db);
  gcSize ← lift (Field_Get (shed db) (gcSizeKey (layout C)));
  let target := gcTarget (capacity C) in
  if gcSize <=? target then mret (0, true)
  else
    '(candidates, collectedCount) ← of_iter (Iterate gcIndex (shed db) (gc_candidate gcSize target) noOptions ([], 0));
    _ ← gc_files fuel candidates (Ok tt);
    mret (collectedCount, true)).

Definition memory_candidate (gcChunks : Z) (acc : list Item * Z) (item : Item) : result unit ((list Item * Z) * bool) :=
  let '(candidates, collectedCount) := acc in
  let collectedCount := u64 (collectedCount + GCounter item) in
  Ok ((candidates ++ [item], collectedCount), gcChunks <=? collectedCount).

Definition collectMemoryGarbage (fuel : nat) : M (Z * bool) := gc_run (
  m ← getMemory;
  db ← get_state (fun db => db);
  if gcMemory db <? m then mret (0, true)
  else
    let mem := u64 (gcMemory db - nine_tenths (gcMemory db)) in
    _ ← ((fun db => (set_gcMemory db mem, Ok tt)) : M unit);
    let '(candidates, collectedCount, _) := Iterate gcIndex (shed db) (memory_candidate (mem / 256)) noOptions ([], 0) in
    _ ← ignore (gc_files fuel candidates (Ok tt));
    mret (collectedCount, true)).

Definition put_gcSize (size : Z) : M Z := fun db =>
  match Field_Put (shed db) (gcSizeKey (layout C)) size with
  | Ok st => (set_shed db st (batch db), Ok size)
  | Err e => (db, Err (errDb e))
  end.

(** The part of [New] that reads the size of the garbage index back. *)
Definition repair_gcSize : M Z :=
  db ← get_state (fun db => db);
  currentSize ← of_iter (Iterate gcIndex (shed db) (fun n item => Ok (u64 (n + GCounter item), false)) noOptions 0);
  gcSize ← lift (Field_Get (shed db) (gcSizeKey (layout C)));
  if gcSize <? currentSize then put_gcSize currentSize else mret gcSize.
End Store.
