(* ===== verification/LocalStoreRefs.v ===== *)
(** * The local store counts references and pins

    An abstract store keeps, for each address, the data with a type and a reference
    count, and a pin count.  The calls of the local store implement it on the
    indexes of the database, with either driver, and with leveldb a call that
    fails changes neither chunks nor pins.  A call of several entries reads the state
    before it with leveldb, whose batches are written at the end, and the state so
    far with WiredTiger; the abstract store says which ([one_call]). *)

From Stdlib Require Import ZArith Lia ZifyBool.
From stdpp Require Import base gmap list numbers strings.
From S2P Require Import Prelude Boson StateStore Shed FileStore BitVector ChunkStore Mantaray LocalStore.

Open Scope Z_scope.

(** ** The abstract store *)

Record Abs := MkAbs {
  rdata : gmap bytes (bytes * Z * Z);
  rpins : gmap bytes Z;
}.

Definition noChunks : Abs := MkAbs ∅ ∅.

(** The operations compute what they write to [B] from what they read in [R]. *)

(** One more reference to a chunk; the data of a known chunk stays. *)
Definition add_ref (R : Abs) (a d : bytes) (t : Z) (B : Abs) : Abs :=
  MkAbs (<[a := match rdata R !! a with Some (d0, t0, c) => (d0, add_type t0 t, u64 (c + 1)) | None => (d, t, 1) end]> (rdata B)) (rpins B).

Definition add_pin (R : Abs) (a : bytes) (B : Abs) : Abs :=
  MkAbs (rdata B) (<[a := u64 (default 0 (rpins R !! a) + 1)]> (rpins B)).

Definition drop_pin (R : Abs) (a : bytes) (B : Abs) : Abs :=
  match rpins R !! a with
  | Some p => MkAbs (rdata B) (if 1 <? p then <[a := p - 1]> (rpins B) else delete a (rpins B))
  | None => B
  end.

(** One reference less; the last one goes only with the last pin. *)
Definition drop_ref (R : Abs) (a : bytes) (B : Abs) : Abs :=
  match rdata R !! a with
  | None => B
  | Some (d, t, c) =>
      if 1 <? c then MkAbs (<[a := (d, t, c - 1)]> (rdata B)) (rpins B)
      else match rpins R !! a with
        | None => MkAbs (delete a (rdata B)) (rpins B)
        | Some p => if 0 <? u64 (p - 1) then MkAbs (rdata B) (<[a := u64 (p - 1)]> (rpins B)) else MkAbs (delete a (rdata B)) (delete a (rpins B))
        end
  end.

Definition spec_put (mode : ModePut) (R B : Abs) (ch : chunk) : Abs :=
  let a := addr ch in
  match mode with
  | ModePutUpload => add_ref R a (sdata ch) 1 B
  | ModePutUploadPin => add_pin R a (add_ref R a (sdata ch) 1 B)
  | ModePutRequest => add_ref R a (sdata ch) 1 B
  | ModePutRequestPin => match rdata R !! a with Some _ => add_ref R a (sdata ch) 1 B | None => add_pin R a (add_ref R a (sdata ch) 1 B) end
  | ModePutChain => add_ref R a (sdata ch) 2 B
  | otherPut => B
  end.

Definition spec_set (mode : ModeSet) (R B : Abs) (a : bytes) : Abs :=
  match mode with
  | ModeSetPin => add_pin R a B
  | ModeSetUnpin => drop_pin R a B
  | ModeSetRemove => drop_ref R a B
  | ModeSetSync | otherSet => B
  end.

(** A request with a root counts as a further reference of the type the chunk has. *)
Definition spec_get (A : Abs) (a : bytes) : Abs :=
  match rdata A !! a with Some (d, t, c) => add_ref A a d t A | None => A end.

(** What the entries of a call are read from: with leveldb the state before the call,
    since a batch is not read; with WiredTiger the state written so far. *)
Definition read_from (d : Driver) (A B : Abs) : Abs := match d with leveldb => A | wiredtiger => B end.

(** One call for the entries [l]: an address that occurs twice takes effect once
    with leveldb, and twice with WiredTiger. *)
Definition one_call {X : Type} (d : Driver) (g : Abs -> Abs -> X -> Abs) (A : Abs) (l : list X) : Abs :=
  foldl (fun B x => g (read_from d A B) B x) A l.

Definition known (A : Abs) (a : bytes) : bool := bool_decide (is_Some (rdata A !! a)).

(** Which chunks of a call are reported as known. *)
Fixpoint known_from (d : Driver) (mode : ModePut) (A B : Abs) (chs : list chunk) : list bool :=
  match chs with
  | [] => []
  | ch :: chs => known (read_from d A B) (addr ch) :: known_from d mode A (spec_put mode (read_from d A B) B ch) chs
  end.

Definition known_before (d : Driver) (mode : ModePut) (A : Abs) (chs : list chunk) : list bool := known_from d mode A A chs.

(** ** Calls without repetitions *)

Definition same_at (a : bytes) (A B : Abs) : Prop := rdata A !! a = rdata B !! a /\ rpins A !! a = rpins B !! a.

(** An operation on an address reads and writes its entries only. *)
Definition at_addr {X : Type} (key : X -> bytes) (g : Abs -> Abs -> X -> Abs) : Prop :=
  (forall R R' B x, same_at (key x) R R' -> g R B x = g R' B x) /\ (forall R B x a, a <> key x -> same_at a (g R B x) B).

Lemma one_call_from {X : Type} (key : X -> bytes) g d A l : at_addr key g -> forall B, NoDup (key <$> l) ->
  (forall x, x ∈ l -> same_at (key x) A B) -> foldl (fun B x => g (read_from d A B) B x) B l = foldl (fun B => g B B) B l.
Proof.
  intros [Hr Hw]. induction l as [|x l IH]; intros B Hn Hs; [done|]. cbn [foldl fmap list_fmap] in *. apply NoDup_cons in Hn as [Hx Hn].
  assert (E : g (read_from d A B) B x = g B B x) by (destruct d; cbn [read_from]; [apply Hr, Hs; left|done]). rewrite E.
  apply IH; [done|]. intros y Hy. destruct (Hs y) as [H1 H2]; [by right|].
  destruct (Hw B B x (key y)) as [H3 H4]; [intros Ey; apply Hx; rewrite <- Ey; by apply list_elem_of_fmap_2|]. split; congruence.
Qed.

Lemma spec_put_at mode : at_addr addr (spec_put mode).
Proof.
  split.
  - intros R R' B ch [H1 H2]. destruct mode; cbn [spec_put]; unfold add_pin, add_ref; by rewrite ?H1, ?H2.
  - intros R B ch a Ha. destruct mode; cbn [spec_put]; repeat case_match; split; cbn [rdata rpins add_ref add_pin]; rewrite ?lookup_insert_ne by done; done.
Qed.

Lemma spec_set_at mode : at_addr (fun a => a) (spec_set mode).
Proof.
  split.
  - intros R R' B a [H1 H2]. destruct mode; cbn [spec_set]; unfold add_pin, drop_pin, drop_ref; by rewrite ?H1, ?H2.
  - intros R B a b Hb. destruct mode; cbn [spec_set]; unfold add_pin, drop_pin, drop_ref; repeat case_match; split; cbn [rdata rpins];
      rewrite ?lookup_insert_ne, ?lookup_delete_ne by done; done.
Qed.

Lemma puts_distinct d mode A chs : NoDup (addr <$> chs) -> one_call d (spec_put mode) A chs = foldl (fun B => spec_put mode B B) A chs.
Proof. intros Hn. by apply (one_call_from addr); [apply spec_put_at| |]. Qed.

Lemma sets_distinct d mode A l : NoDup l -> one_call d (spec_set mode) A l = foldl (fun B => spec_set mode B B) A l.
Proof. intros Hn. apply (one_call_from (fun a => a)); [apply spec_set_at|by rewrite list_fmap_id|done]. Qed.

Lemma known_from_distinct d mode A chs : forall B, NoDup (addr <$> chs) -> (forall ch, ch ∈ chs -> same_at (addr ch) A B) ->
  known_from d mode A B chs = (fun ch => known A (addr ch)) <$> chs.
Proof.
  induction chs as [|ch chs IH]; intros B Hn Hs; [done|]. cbn [known_from fmap list_fmap] in *. apply NoDup_cons in Hn as [Hx Hn]. f_equal.
  - unfold known. destruct d; cbn [read_from]; [done|]. by rewrite (proj1 (Hs ch ltac:(left))).
  - apply IH; [done|]. intros y Hy. destruct (Hs y) as [H1 H2]; [by right|].
    destruct (proj2 (spec_put_at mode) (read_from d A B) B ch (addr y)) as [H3 H4]; [intros Ey; apply Hx; rewrite <- Ey; by apply list_elem_of_fmap_2|].
    split; congruence.
Qed.

Lemma known_before_distinct d mode A chs : NoDup (addr <$> chs) -> known_before d mode A chs = (fun ch => known A (addr ch)) <$> chs.
Proof. intros Hn. by apply known_from_distinct. Qed.

(** ** Keys *)

Record layout_ok (L : Layout) : Prop := {
  lo_nodup : NoDup [dataPrefix L; accessPrefix L; transferPrefix L; gcPrefix L; pinPrefix L];
  lo_byte : Forall (fun p => exists b, p = [b] /\ 2 <= b) [dataPrefix L; accessPrefix L; transferPrefix L; gcPrefix L; pinPrefix L];
  lo_fields : gcSizeKey L = keyPrefixFields :: str "gc-size" /\ binIDsKey L = keyPrefixFields :: str "bin-ids";
}.

Lemma lo_heads L : layout_ok L -> head (gcSizeKey L) = Some keyPrefixFields /\ head (binIDsKey L) = Some keyPrefixFields.
Proof. intros [_ _ [-> ->]]. done. Qed.

Lemma add_type_range ty t : 0 <= ty < 2 ^ 64 -> 0 <= add_type ty t < 2 ^ 64.
Proof.
  intros H. unfold add_type. case_match; [|done].
  assert (Hb : 0 <= u64 (t - 1) mod 8 < 8) by (apply Z.mod_pos_bound; lia).
  assert (Hs : 0 <= Z.shiftl 1 (u64 (t - 1) mod 8) < 2 ^ 64).
  { rewrite Z.shiftl_mul_pow2, Z.mul_1_l by lia. split; [apply Z.pow_nonneg; lia|]. apply Z.pow_lt_mono_r; lia. }
  split; [apply Z.lxor_nonneg; lia|]. set (x := Z.lxor ty _). destruct (Z.eq_dec x 0) as [->|Hx]; [lia|].
  apply Z.log2_lt_cancel. rewrite Z.log2_pow2 by lia. unfold x.
  pose proof (Z.log2_lxor ty (Z.shiftl 1 (u64 (t - 1) mod 8)) ltac:(lia) ltac:(lia)) as Hlog.
  assert (Z.log2 ty < 64) by (destruct (Z.eq_dec ty 0) as [->|]; [cbn; lia|apply Z.log2_lt_pow2; lia]).
  assert (Z.log2 (Z.shiftl 1 (u64 (t - 1) mod 8)) < 64).
  { destruct (Z.eq_dec (Z.shiftl 1 (u64 (t - 1) mod 8)) 0) as [->|]; [cbn; lia|apply Z.log2_lt_pow2; lia]. }
  lia.
Qed.

Section Refs.
Context {S : Type} `{BE : Backend S}.
Context {S2 V : Type} `{ST : StateStorer S2 V} `{CB' : Codec BitVector V} `{CF : Codec FileView V} `{CM : Codec FileMirror V}.
Context (C : Config) (HL : layout_ok (layout C)).

Abbreviation DB := (DB (S := S) (S2 := S2)).
Abbreviation M := (M (S := S) (S2 := S2)).

Definition datakey (a : bytes) : bytes := dataPrefix (layout C) ++ a.
Definition pinkey (a : bytes) : bytes := pinPrefix (layout C) ++ a.

(** The keys of chunks and pins. *)
Definition kept_key (k : bytes) : Prop := exists a, k = datakey a \/ k = pinkey a.

Definition other_prefix (p : bytes) : Prop := exists b, p = [b] /\ [b] <> dataPrefix (layout C) /\ [b] <> pinPrefix (layout C).

Lemma prefixes : (exists b, dataPrefix (layout C) = [b] /\ 2 <= b) /\ (exists b, pinPrefix (layout C) = [b] /\ 2 <= b) /\
  dataPrefix (layout C) <> pinPrefix (layout C) /\ other_prefix (accessPrefix (layout C)) /\ other_prefix (transferPrefix (layout C)) /\ other_prefix (gcPrefix (layout C)).
Proof.
  destruct HL as [Hn Hb _]. rewrite !Forall_cons in Hb. destruct Hb as ((d & Ed & Hd) & (ac & Ea & Ha) & (t & Et & Ht) & (g & Eg & Hg) & (p & Ep & Hp) & _).
  rewrite Ed, Ea, Et, Eg, Ep in *. unfold other_prefix. rewrite Ed, Ep. rewrite !NoDup_cons, !not_elem_of_cons in Hn. naive_solver.
Qed.

Lemma datakey_inj a b : datakey a = datakey b -> a = b.
Proof. unfold datakey. apply app_inv_head. Qed.
Lemma pinkey_inj a b : pinkey a = pinkey b -> a = b.
Proof. unfold pinkey. apply app_inv_head. Qed.
Lemma datakey_pinkey a b : datakey a <> pinkey b.
Proof.
  destruct prefixes as ((d & Ed & _) & (p & Ep & _) & Hne & _). unfold datakey, pinkey. rewrite Ed, Ep in *. intros [= -> _]. done.
Qed.

Lemma kept_other_prefix p k x : other_prefix p -> kept_key k -> k <> p ++ x.
Proof.
  destruct prefixes as ((d & Ed & _) & (q & Eq & _) & _). intros (b & -> & H1 & H2) (a & [-> | ->]); unfold datakey, pinkey; rewrite ?Ed, ?Eq in *; intros [= ->]; done.
Qed.

Lemma kept_field key k x : head key = Some keyPrefixFields -> kept_key k -> k <> key ++ x.
Proof.
  destruct prefixes as ((d & Ed & ?) & (q & Eq & ?) & _). unfold keyPrefixFields. intros Hh (a & [-> | ->]); unfold datakey, pinkey; rewrite ?Ed, ?Eq;
    destruct key as [|y key]; try done; injection Hh as ->; intros [= ? _]; lia.
Qed.

(** ** Steps that leave chunks and pins alone *)

Definition rd (db : DB) (k : bytes) : result dbError bytes := bget (shed db) k.
Definition fin (db : DB) (k : bytes) : result dbError bytes := final (driver C) (shed db, batch db) k.

Definition same_kept (db db' : DB) : Prop := forall k, kept_key k -> rd db' k = rd db k /\ fin db' k = fin db k.

Definition still {A : Type} (m : M A) : Prop := forall db db' r, m db = (db', r) -> same_kept db db'.

Lemma still_pure {A : Type} (m : M A) : (forall db, shed (m db).1 = shed db /\ batch (m db).1 = batch db) -> still m.
Proof. intros H db db' r E k Hk. destruct (H db) as [H1 H2]. rewrite E in H1, H2. cbn in H1, H2. unfold rd, fin. by rewrite H1, H2. Qed.

Lemma still_bind {A B : Type} (m : M A) (f : A -> M B) : still m -> (forall a, still (f a)) -> still (m ≫= f).
Proof.
  intros Hm Hf db db' r. unfold mbind, M_bind. destruct (m db) as [db1 [a|e]] eqn:E.
  - intros E2 k Hk. destruct (Hm _ _ _ E k Hk) as [H1 H2]. destruct (Hf a _ _ _ E2 k Hk) as [H3 H4]. by rewrite H3, H4.
  - intros [= <- <-]. by apply (Hm _ _ _ E).
Qed.

Lemma still_ignore m : still m -> still (ignore m).
Proof. intros Hm db db' r. unfold ignore. destruct (m db) as [db1 x] eqn:E. intros [= <- <-]. by apply (Hm _ _ _ E). Qed.

Lemma still_for_each {A B : Type} (f : B -> A -> M B) l : (forall b a, still (f b a)) -> forall b, still (for_each f b l).
Proof. intros Hf. induction l as [|a l IH]; intros b; cbn [for_each]; [by apply still_pure|]. by apply still_bind. Qed.

Lemma still_index_Get f i : still (index_Get f i).
Proof. apply still_pure. intros db. unfold index_Get. destruct (Shed.Get f (shed db) i) as [o|[]]; done. Qed.

Lemma still_index_Has f i : still (index_Has f i).
Proof. by apply still_pure. Qed.

Lemma still_in_batch (w : S * list bop -> result dbError (S * list bop)) :
  (forall sb sb' k, kept_key k -> w sb = Ok sb' -> bget sb'.1 k = bget sb.1 k /\ final (driver C) sb' k = final (driver C) sb k) -> still (in_batch w).
Proof.
  intros Hw db db' r. unfold in_batch. destruct (w (shed db, batch db)) as [[st b]|e] eqn:E; intros [= <- <-]; [|done].
  intros k Hk. apply (Hw _ _ k Hk E).
Qed.

Lemma still_batch_put key v : (forall k, kept_key k -> k <> key) -> still (in_batch (fun sb => batch_put (driver C) sb key v)).
Proof.
  intros Hkey. apply still_in_batch. intros sb sb' k Hk E. specialize (Hkey k Hk). split; [by apply (batch_put_reads _ _ _ _ _ _ E)|].
  rewrite (batch_put_final _ _ _ _ _ k E). cbn [bop_apply]. by rewrite decide_False.
Qed.

Lemma still_index_Put f i : other_prefix (prefix f) -> still (index_Put C f i).
Proof. intros Hf. apply still_batch_put. intros k Hk. by apply kept_other_prefix. Qed.

Lemma still_index_Delete f i : other_prefix (prefix f) -> still (index_Delete C f i).
Proof.
  intros Hf. apply still_in_batch. intros sb sb' k Hk E. assert (Hkey : k <> encodeKeyFunc f i) by (by apply kept_other_prefix).
  split; [by apply (DeleteInBatch_reads _ _ _ _ _ _ E)|]. rewrite (DeleteInBatch_final _ _ _ _ _ k E). by rewrite decide_False.
Qed.

Lemma still_field key x : head key = Some keyPrefixFields -> forall v, still (in_batch (fun sb => batch_put (driver C) sb (key ++ x) v)).
Proof. intros Hh v. apply still_batch_put. intros k Hk. by apply kept_field. Qed.

Lemma still_direct i : still ((fun db => match Shed.Put (gcIndex (layout C)) (shed db) i with
  | Ok st => (set_shed db st (batch db), Ok tt) | Err e => (db, Err (errDb e)) end) : M unit).
Proof.
  intros db db' r. cbv beta. destruct (Shed.Put (gcIndex (layout C)) (shed db) i) as [st|e] eqn:E; intros [= <- <-]; [|done].
  intros k Hk. assert (Hkey : k <> encodeKeyFunc (gcIndex (layout C)) i) by (apply kept_other_prefix; [apply prefixes|done]).
  assert (Hst : bget st k = bget (shed db) k).
  { rewrite (bget_put _ _ _ _ k E). cbn [bop_apply]. by rewrite decide_False. }
  unfold rd, fin, final. cbn [shed batch set_shed fst snd]. rewrite Hst. done.
Qed.

Lemma still_chunkstore (f : chunkStore (S := S2) -> chunkStore (S := S2) * result lsError unit) :
  still ((fun db => let '(cs, r) := f (chunkstore db) in (set_chunkstore db cs, r)) : M unit).
Proof. apply still_pure. intros db. by destruct (f (chunkstore db)). Qed.

Lemma other_prefixes : other_prefix (prefix (retrievalAccessIndex (layout C))) /\ other_prefix (prefix (transferDataIndex (layout C))) /\
  other_prefix (prefix (gcIndex (layout C))).
Proof. apply prefixes. Qed.

Ltac still_step :=
  match goal with
  | |- still (_ ≫= _) => apply still_bind; [|intros ?]
  | |- still (mret _) => by apply still_pure
  | |- still (fail _) => by apply still_pure
  | |- still (now _) => by apply still_pure
  | |- still (getMemory _) => by apply still_pure
  | |- still (lift _) => by apply still_pure
  | |- still (of_result _) => by apply still_pure
  | |- still (get_state _) => by apply still_pure
  | |- still (mark_dirty _) => apply still_pure; intros ?; unfold mark_dirty; by case_match
  | |- still (HasChunkBit _ _) => by apply still_pure
  | |- still triggerGarbageCollection => by apply still_pure
  | |- still triggerGarbageMemoryCollection => by apply still_pure
  | |- still (index_Get _ _) => apply still_index_Get
  | |- still (index_Has _ _) => apply still_index_Has
  | |- still (index_Put _ _ _) => apply still_index_Put, other_prefixes
  | |- still (index_Delete _ _ _) => apply still_index_Delete, other_prefixes
  | |- still (ignore _) => apply still_ignore
  | |- still (for_each _ _ _) => apply still_for_each; intros ? ?
  | |- still (fun db => match Shed.Put _ _ _ with Ok _ => _ | Err _ => _ end) => apply still_direct
  | |- still (chunks_RemoveAll _ _) => apply still_pure; intros ?; unfold chunks_RemoveAll; by case_match
  | |- still (let '(_, _) := ?x in _) => destruct x
  | |- still (match ?x with _ => _ end) => destruct x
  | |- still ((fun _ => _) _) => cbv beta
  | |- still (let _ := _ in _) => cbv zeta
  end.
Ltac still_auto := repeat still_step.

Lemma still_setGC i : still (setGC C i).
Proof. unfold setGC. still_auto. Qed.

Lemma still_incGCSize c : still (incGCSizeInBatch C c).
Proof.
  unfold incGCSizeInBatch. still_auto. unfold Field_PutInBatch. rewrite <- (app_nil_r (gcSizeKey (layout C))). apply still_field, (lo_heads _ HL).
Qed.

Lemma still_write_binIDs m : still (write_binIDs C m).
Proof. unfold write_binIDs. still_auto. unfold Vector_PutInBatch, Field_PutInBatch, indexKey. apply still_field, (lo_heads _ HL). Qed.

Lemma still_putTransfer a ch : still (putTransfer C a ch).
Proof. unfold putTransfer. still_auto. Qed.

Lemma still_incBinID m p : still (incBinID C m p).
Proof. unfold incBinID. still_auto. Qed.

Lemma still_gcRemove i : still (gcRemove C i).
Proof. unfold gcRemove, complete_root, deleteFile. still_auto. Qed.

Lemma still_setSync a : still (setSync C a).
Proof. unfold setSync. still_auto. Qed.

(** ** Values of chunks and pins *)

Definition data_ok (r : result dbError bytes) (o : option (bytes * Z * Z)) : Prop :=
  match o with
  | None => r = Err ErrNotFound
  | Some (d, t, c) => (0 <= t < 2 ^ 64) /\ (0 <= c < 2 ^ 64) /\ exists bin ts,
      r = Ok (BE_PutUint64 bin ++ BE_PutUint64 ts ++ BE_PutUint64 t ++ BE_PutUint64 c ++ d)
  end.

Definition pin_ok (r : result dbError bytes) (o : option Z) : Prop :=
  match o with None => r = Err ErrNotFound | Some p => 0 <= p < 2 ^ 64 /\ r = Ok (BE_PutUint64 p) end.

Definition agree (g : bytes -> result dbError bytes) (A : Abs) : Prop :=
  forall a, data_ok (g (datakey a)) (rdata A !! a) /\ pin_ok (g (pinkey a)) (rpins A !! a).

Lemma drop_BE z l n : drop (8 + n) (BE_PutUint64 z ++ l) = drop n l.
Proof.
  rewrite drop_app_ge by (unfold BE_PutUint64; rewrite length_be_put; lia). unfold BE_PutUint64. rewrite length_be_put. f_equal. lia.
Qed.

Lemma Get_data st i o : data_ok (bget st (datakey (key_bytes i))) o ->
  match o with
  | None => Shed.Get (retrievalDataIndex (layout C)) st i = Err ErrNotFound /\ Shed.Has (retrievalDataIndex (layout C)) st i = Ok false
  | Some (d, t, c) => Shed.Has (retrievalDataIndex (layout C)) st i = Ok true /\ exists x, Shed.Get (retrievalDataIndex (layout C)) st i = Ok x /\
      Address x = Address i /\ Data x = Some d /\ Shed.Type_ x = t /\ Counter x = c /\ PinCounter x = PinCounter i
  end.
Proof.
  unfold Shed.Get, Shed.Has. change (encodeKeyFunc (retrievalDataIndex (layout C)) i) with (datakey (key_bytes i)).
  destruct o as [[[d t] c]|]; cbn [data_ok].
  - intros (Ht & Hc & bin & ts & ->). split; [done|]. cbn [mbind result_bind]. unfold DecodeValue, retrievalDataIndex.
    rewrite (drop_BE bin _ 0), (drop_BE bin _ 8), (drop_BE ts _ 0), (drop_BE bin _ 16), (drop_BE ts _ 8), (drop_BE t _ 0).
    rewrite (drop_BE bin _ 24), (drop_BE ts _ 16), (drop_BE t _ 8), (drop_BE c _ 0), !drop_0, !BE_Uint64_Put.
    cbn [mbind option_bind of_panic result_bind]. eexists. split; [done|]. unfold Merge. cbn. rewrite !u64_small by done. done.
  - intros ->. done.
Qed.

Lemma Get_pin st i o : pin_ok (bget st (pinkey (key_bytes i))) o -> PinCounter i = 0 ->
  match o with
  | None => Shed.Get (pinIndex (layout C)) st i = Err ErrNotFound /\ Shed.Has (pinIndex (layout C)) st i = Ok false
  | Some p => Shed.Has (pinIndex (layout C)) st i = Ok true /\ exists x, Shed.Get (pinIndex (layout C)) st i = Ok x /\ PinCounter x = p /\ Address x = Address i
  end.
Proof.
  unfold Shed.Get, Shed.Has. change (encodeKeyFunc (pinIndex (layout C)) i) with (pinkey (key_bytes i)).
  destruct o as [p|]; cbn [pin_ok].
  - intros (Hp & ->) H0. split; [done|]. cbn [mbind result_bind]. unfold DecodeValue, pinIndex. rewrite <- (app_nil_r (BE_PutUint64 p)), BE_Uint64_Put.
    cbn [mbind option_bind of_panic result_bind]. eexists. split; [done|]. unfold Merge. cbn. rewrite H0, u64_small by done. split; [|done].
    unfold orZero. destruct (Z.eqb_spec p 0); lia.
  - intros -> _. done.
Qed.

(** What may change: the keys in [P]. *)
Definition only (P : bytes -> Prop) (db db' : DB) : Prop :=
  forall k, kept_key k -> ~ P k -> rd db' k = rd db k /\ fin db' k = fin db k.

Lemma only_same P db db' : same_kept db db' -> only P db db'.
Proof. intros H k Hk _. by apply H. Qed.

Lemma only_then P db1 db2 db3 : only P db1 db2 -> only P db2 db3 -> only P db1 db3.
Proof. intros H1 H2 k Hk HP. destruct (H1 k Hk HP) as [E1 E2], (H2 k Hk HP) as [E3 E4]. by rewrite E3, E4. Qed.

Lemma kept_datakey a : kept_key (datakey a).
Proof. exists a. by left. Qed.
Lemma kept_pinkey a : kept_key (pinkey a).
Proof. exists a. by right. Qed.

Lemma agree_same db db' A : same_kept db db' -> agree (fin db) A -> agree (fin db') A.
Proof.
  intros H HA a. destruct (H _ (kept_datakey a)) as [_ ->]. destruct (H _ (kept_pinkey a)) as [_ ->]. apply HA.
Qed.

Lemma agree_data db db' A a o : only (eq (datakey a)) db db' -> data_ok (fin db' (datakey a)) o -> agree (fin db) A ->
  agree (fin db') (MkAbs (partial_alter (fun _ => o) a (rdata A)) (rpins A)).
Proof.
  intros Ho Hd HA b. cbn [rdata rpins]. split.
  - destruct (decide (a = b)) as [<-|Hne]; [by rewrite lookup_partial_alter_eq|]. rewrite lookup_partial_alter_ne by done.
    destruct (Ho _ (kept_datakey b)) as [_ ->]; [|apply HA]. intros E%datakey_inj. done.
  - destruct (Ho _ (kept_pinkey b)) as [_ ->]; [|apply HA]. apply datakey_pinkey.
Qed.

Lemma agree_pin db db' A a o : only (eq (pinkey a)) db db' -> pin_ok (fin db' (pinkey a)) o -> agree (fin db) A ->
  agree (fin db') (MkAbs (rdata A) (partial_alter (fun _ => o) a (rpins A))).
Proof.
  intros Ho Hd HA b. cbn [rdata rpins]. split.
  - destruct (Ho _ (kept_datakey b)) as [_ ->]; [|apply HA]. intros E. by apply (datakey_pinkey b a).
  - destruct (decide (a = b)) as [<-|Hne]; [by rewrite lookup_partial_alter_eq|]. rewrite lookup_partial_alter_ne by done.
    destruct (Ho _ (kept_pinkey b)) as [_ ->]; [|apply HA]. intros E%pinkey_inj. done.
Qed.

Lemma index_Put_spec f i db db' : index_Put C f i db = (db', Ok tt) ->
  fin db' (encodeKeyFunc f i) = Ok (EncodeValue f i) /\ only (eq (encodeKeyFunc f i)) db db'.
Proof.
  unfold index_Put, in_batch, PutInBatch. destruct (batch_put _ _ _ _) as [[st b]|e] eqn:E; [|done]. intros [= <-]. split.
  - unfold fin. cbn [shed batch set_shed]. rewrite (batch_put_final _ _ _ _ _ (encodeKeyFunc f i) E). cbn. by rewrite decide_True.
  - intros k _ Hk. unfold rd, fin. cbn [shed batch set_shed]. split; [apply (batch_put_reads _ _ _ _ _ k E); congruence|].
    rewrite (batch_put_final _ _ _ _ _ k E). cbn. by rewrite decide_False.
Qed.

Lemma index_Delete_spec f i db db' : index_Delete C f i db = (db', Ok tt) ->
  fin db' (encodeKeyFunc f i) = Err ErrNotFound /\ only (eq (encodeKeyFunc f i)) db db'.
Proof.
  unfold index_Delete, in_batch. destruct (DeleteInBatch _ _ _ _) as [[st b]|e] eqn:E; [|done]. intros [= <-]. split.
  - unfold fin. cbn [shed batch set_shed]. rewrite (DeleteInBatch_final _ _ _ _ _ (encodeKeyFunc f i) E). by rewrite decide_True.
  - intros k _ Hk. unfold rd, fin. cbn [shed batch set_shed]. split; [apply (DeleteInBatch_reads _ _ _ _ _ k E); congruence|].
    rewrite (DeleteInBatch_final _ _ _ _ _ k E). by rewrite decide_False.
Qed.

(** Running a sequence up to a successful end. *)
Lemma bind_Ok {A B : Type} (m : M A) (f : A -> M B) db db' b : (m ≫= f) db = (db', Ok b) -> exists a db1, m db = (db1, Ok a) /\ f a db1 = (db', Ok b).
Proof. unfold mbind, M_bind. destruct (m db) as [db1 [a|e]]; [|done]. eauto. Qed.

Lemma ret_Ok {A : Type} (a b : A) (db db' : DB) : (mret a : M A) db = (db', Ok b) -> a = b /\ db = db'.
Proof. by intros [= <- <-]. Qed.

Lemma index_Get_Ok f i (db db' : DB) o : index_Get f i db = (db', Ok o) ->
  db' = db /\ match o with Some x => Shed.Get f (shed db) i = Ok x | None => Shed.Get f (shed db) i = Err ErrNotFound end.
Proof. unfold index_Get. destruct (Shed.Get f (shed db) i) as [x|[]]; intros [= <- <-]; done. Qed.

Lemma index_Has_Ok f i (db db' : DB) h : index_Has f i db = (db', Ok h) -> db' = db /\ Shed.Has f (shed db) i = Ok h.
Proof.
  unfold index_Has. intros (d & db1 & E1 & E2)%bind_Ok. injection E1 as <- <-. unfold lift in E2. destruct (Shed.Has f (shed db) i); [|done].
  by injection E2 as <- <-.
Qed.

(** ** One chunk *)

(** The value putUpload writes for a chunk that is known, or not. *)
Lemma upload_value db db' A a i d t c : only (eq (datakey a)) db db' -> agree (fin db) A -> key_bytes i = a ->
  fin db' (encodeKeyFunc (retrievalDataIndex (layout C)) i) = Ok (EncodeValue (retrievalDataIndex (layout C)) i) ->
  Data i = Some d -> Shed.Type_ i = t -> Counter i = c -> 0 <= t < 2 ^ 64 -> 0 <= c < 2 ^ 64 ->
  agree (fin db') (MkAbs (<[a := (d, t, c)]> (rdata A)) (rpins A)).
Proof.
  intros Ho HA Ha Hf Hd Ht Hc Rt Rc. apply (agree_data db); [done| |done]. rewrite <- Ha. split; [done|]. split; [done|].
  exists (BinID i), (StoreTimestamp i). change (datakey (key_bytes i)) with (encodeKeyFunc (retrievalDataIndex (layout C)) i). rewrite Hf.
  cbn. by rewrite Hd, Ht, Hc.
Qed.

Lemma u64_range z : 0 <= u64 z < 2 ^ 64.
Proof. apply Z.mod_pos_bound. lia. Qed.

Lemma putUpload_spec bin item db db' bin' ex item' R B d t : agree (rd db) R -> agree (fin db) B -> Data item = Some d -> Shed.Type_ item = t ->
  0 <= t < 2 ^ 64 -> PinCounter item = 0 -> putUpload C bin item db = (db', Ok (bin', ex, item')) ->
  agree (fin db') (add_ref R (key_bytes item) d t B) /\ only (eq (datakey (key_bytes item))) db db' /\
  ex = known R (key_bytes item) /\ Address item' = Address item /\ PinCounter item' = 0.
Proof.
  intros HR HB Hd Ht Rt Hp. unfold putUpload. pose proof (Get_data (shed db) item _ (proj1 (HR _))) as HG. unfold add_ref, known.
  intros (h & db1 & E1 & E)%bind_Ok. apply index_Has_Ok in E1 as [-> Eh].
  destruct (rdata R !! key_bytes item) as [[[d0 t0] c0]|] eqn:Hlk.
  - destruct HG as (Hh & x & Hx & Hax & Hdx & Htx & Hcx & Hpx). rewrite Hh in Eh. injection Eh as <-.
    apply bind_Ok in E as ([b2 i2] & db2 & E2 & E). apply bind_Ok in E2 as (o & db3 & E3 & E2). apply index_Get_Ok in E3 as [-> Ho].
    destruct o as [x'|]; [|congruence]. assert (x' = x) as -> by congruence. injection E2 as <- <- <-. cbv beta iota in E.
    apply bind_Ok in E as ([] & db4 & E4 & E). injection E as <- <- <- <-. apply index_Put_spec in E4 as [Hf Hon].
    assert (Hk : key_bytes x = key_bytes item) by (unfold key_bytes; by rewrite Hax).
    destruct (HR (key_bytes item)) as [Hdo _]. rewrite Hlk in Hdo. destruct Hdo as (Rt0 & Rc0 & _).
    change (encodeKeyFunc _ _) with (datakey (key_bytes x)) in Hon. rewrite Hk in Hon. split; [|by rewrite bool_decide_true; cbn; rewrite ?Hpx].
    refine (upload_value db db4 B _ _ _ _ _ Hon HB _ Hf _ _ _ _ _); [exact Hk|exact Hdx|cbn; by rewrite Htx, Ht|cbn; by rewrite Hcx|by apply add_type_range|apply u64_range].
  - destruct HG as (Hx & Hh). rewrite Hh in Eh. injection Eh as <-.
    apply bind_Ok in E as ([b2 i2] & db2 & E2 & E). apply bind_Ok in E2 as (tn & db3 & E3 & E2). apply bind_Ok in E2 as ([b5 id] & db5 & E5 & E2).
    injection E2 as <- <- <-. cbv beta iota in E. apply bind_Ok in E as ([] & db4 & E4 & E). injection E as <- <- <- <-.
    apply index_Put_spec in E4 as [Hf Hon].
    assert (Hs1 : same_kept db db3) by (by apply (still_pure (now C) ltac:(done) _ _ _ E3)).
    pose proof (still_incBinID _ _ _ _ _ E5) as Hs2.
    assert (Hon' : only (eq (datakey (key_bytes item))) db db4) by (eapply only_then; [apply only_same, Hs1|eapply only_then; [apply only_same, Hs2|exact Hon]]).
    split; [|by rewrite bool_decide_false by (intros [? ?]; done)].
    refine (upload_value db db4 B _ _ _ _ _ Hon' HB _ Hf _ _ _ _ _); [done|exact Hd|exact Ht|done|done|lia].
Qed.

(** The hypothesis is about a sequence that leaves chunks and pins alone. *)
Ltac stills E :=
  match type of E with
  | ?m ?db = (?db', ?r) => let H := fresh "Hm" in assert (H : still m) by (still_auto; first [apply still_gcRemove | idtac]); pose proof (H _ _ _ E); clear H
  end.

(** A pin count is written. *)
Lemma pin_value db db' A a i p : only (eq (pinkey a)) db db' -> agree (fin db) A -> key_bytes i = a ->
  fin db' (encodeKeyFunc (pinIndex (layout C)) i) = Ok (EncodeValue (pinIndex (layout C)) i) -> PinCounter i = p -> 0 <= p < 2 ^ 64 ->
  agree (fin db') (MkAbs (rdata A) (<[a := p]> (rpins A))).
Proof.
  intros Ho HA Ha Hf Hp Rp. apply (agree_pin db); [done| |done]. rewrite <- Ha. split; [done|].
  change (pinkey (key_bytes i)) with (encodeKeyFunc (pinIndex (layout C)) i). rewrite Hf. cbn. by rewrite Hp.
Qed.

Lemma setPin_spec item rootItem db db' c R B : pin_ok (rd db (pinkey (key_bytes item))) (rpins R !! key_bytes item) -> agree (fin db) B -> PinCounter item = 0 ->
  setPin C item rootItem db = (db', Ok c) -> agree (fin db') (add_pin R (key_bytes item) B) /\ only (eq (pinkey (key_bytes item))) db db'.
Proof.
  intros Hr HB Hp. unfold setPin. pose proof (Get_pin (shed db) item _ Hr Hp) as HG.
  intros (o & db1 & E1 & E)%bind_Ok. apply index_Get_Ok in E1 as [-> Ho]. cbv zeta in E. apply bind_Ok in E as (ch & db2 & E2 & E). stills E2.
  apply bind_Ok in E as ([] & db3 & E3 & E). injection E as <- _. apply index_Put_spec in E3 as [Hf Hon].
  assert (Hon' : only (eq (pinkey (key_bytes item))) db db3) by (eapply only_then; [by apply only_same|exact Hon]). split; [|done].
  refine (pin_value db db3 B _ _ _ Hon' HB _ Hf _ _); [done| |apply u64_range]. cbn. do 2 f_equal.
  destruct (rpins R !! key_bytes item) as [p|].
  - destruct HG as (_ & x & Hx & Hpx & _). destruct o as [y|]; [|congruence]. cbn. congruence.
  - destruct HG as [Hx _]. destruct o; [congruence|done].
Qed.

Lemma setUnpin_spec item rootItem db db' c R B : pin_ok (rd db (pinkey (key_bytes item))) (rpins R !! key_bytes item) -> agree (fin db) B -> PinCounter item = 0 ->
  setUnpin C item rootItem db = (db', Ok c) -> agree (fin db') (drop_pin R (key_bytes item) B) /\ only (eq (pinkey (key_bytes item))) db db'.
Proof.
  intros Hr HB Hp. unfold setUnpin. pose proof (Get_pin (shed db) item _ Hr Hp) as HG.
  intros (o & db1 & E1 & E)%bind_Ok. apply index_Get_Ok in E1 as [-> Ho]. destruct o as [y|]; [|done]. unfold drop_pin.
  destruct (rpins R !! key_bytes item) as [p|]; [|destruct HG; congruence].
  destruct HG as (_ & x & Hx & Hpx & _). assert (y = x) as -> by congruence. destruct Hr as [Rp _]. cbv zeta in E. cbn [PinCounter set_PinCounter] in E.
  rewrite Hpx in E. destruct (Z.ltb_spec 1 p) as [Hlt|Hge].
  - apply bind_Ok in E as ([] & db2 & E2 & E). injection E as <- _. apply index_Put_spec in E2 as [Hf Hon]. split; [|exact Hon].
    refine (pin_value db db2 B _ _ _ Hon HB _ Hf _ _); [done|done|lia].
  - apply bind_Ok in E as ([] & db2 & E2 & E). apply index_Delete_spec in E2 as [Hf Hon]. stills E.
    assert (Hon' : only (eq (pinkey (key_bytes item))) db db') by (eapply only_then; [exact Hon|by apply only_same]). split; [|done].
    apply (agree_pin db db' B (key_bytes item) None); [done| |done]. cbn [pin_ok].
    destruct (H (pinkey (key_bytes item)) (kept_pinkey _)) as [_ ->]. exact Hf.
Qed.

(** The last part of [setRemove]: the chunk goes. *)
Lemma remove_data a item rootItem db db' c A : agree (fin db) A -> key_bytes item = a ->
  (_ ← index_Delete C (retrievalDataIndex (layout C)) item;
   if bool_decide (a = key_bytes rootItem) then gcRemove C item
   else _ ← index_Delete C (retrievalAccessIndex (layout C)) item; gcRemove C rootItem) db = (db', Ok c) ->
  agree (fin db') (MkAbs (delete a (rdata A)) (rpins A)).
Proof.
  intros HA Hk ([] & db1 & E1 & E)%bind_Ok. apply index_Delete_spec in E1 as [Hf Hon]. stills E.
  change (encodeKeyFunc _ item) with (datakey (key_bytes item)) in Hf, Hon. rewrite Hk in Hf, Hon.
  assert (Hon' : only (eq (datakey a)) db db') by (eapply only_then; [exact Hon|by apply only_same]).
  apply (agree_data db db' A a None); [done| |done]. cbn [data_ok]. by destruct (H _ (kept_datakey a)) as [_ ->].
Qed.

Lemma setRemove_spec a rootItem db db' c R B : agree (rd db) R -> agree (fin db) B -> setRemove C a rootItem db = (db', Ok c) ->
  agree (fin db') (drop_ref R a B).
Proof.
  intros HR HB. unfold setRemove. assert (Hka : key_bytes (addressToItem a) = a) by (by destruct a). destruct (HR a) as [Hdo Hpo].
  assert (Hd : data_ok (bget (shed db) (datakey (key_bytes (addressToItem a)))) (rdata R !! a)) by (by rewrite Hka).
  apply Get_data in Hd. intros (o & db1 & E1 & E)%bind_Ok. apply index_Get_Ok in E1 as [-> Ho]. unfold drop_ref.
  destruct (rdata R !! a) as [[[d t] n]|] eqn:Hlk.
  2:{ destruct o; [destruct Hd; congruence|]. apply (agree_same db); [by apply (still_gcRemove _ _ _ _ E)|done]. }
  destruct Hd as (_ & x & Hx & Hax & Hdx & Htx & Hcx & Hpx). destruct o as [y|]; [|congruence]. assert (y = x) as -> by congruence.
  assert (Hk : key_bytes x = a) by (unfold key_bytes; rewrite Hax; exact Hka). destruct Hdo as (Rt & Rc & _). rewrite Hcx in E.
  destruct (Z.ltb_spec 1 n) as [Hlt|Hge].
  - apply bind_Ok in E as ([] & db2 & E2 & E). injection E as <- _. apply index_Put_spec in E2 as [Hf Hon].
    change (encodeKeyFunc _ _) with (datakey (key_bytes x)) in Hon. rewrite Hk in Hon.
    refine (upload_value db db2 B _ _ _ _ _ Hon HB _ Hf _ _ _ _ _); [exact Hk|exact Hdx|exact Htx|done|done|lia].
  - apply bind_Ok in E as (o2 & db2 & E2 & E). apply index_Get_Ok in E2 as [-> _]. cbv zeta in E.
    set (item := match o2 with Some i => set_AccessTimestamp x (AccessTimestamp i) | None => x end) in *.
    assert (Hki : key_bytes item = a) by (by destruct o2). assert (Hp0 : PinCounter item = 0) by (destruct o2; done).
    assert (Hp : pin_ok (bget (shed db) (pinkey (key_bytes item))) (rpins R !! a)) by (by rewrite Hki).
    apply (fun H => Get_pin _ _ _ H Hp0) in Hp. apply bind_Ok in E as (o3 & db3 & E3 & E). apply index_Get_Ok in E3 as [-> Ho3].
    apply bind_Ok in E as (pinned & db4 & E4 & E). destruct (rpins R !! a) as [p|] eqn:HP.
    + destruct Hp as (_ & z & Hz & Hpz & Haz). destruct o3 as [z'|]; [|congruence]. assert (z' = z) as -> by congruence. rewrite Hpz in E4.
      assert (Hkz : key_bytes z = a) by (unfold key_bytes; rewrite Haz; exact Hki).
      destruct (0 <? u64 (p - 1)) eqn:Hu.
      * apply bind_Ok in E4 as ([] & db5 & E5 & E4). injection E4 as <- <-. injection E as <- _. apply index_Put_spec in E5 as [Hf Hon].
        change (encodeKeyFunc _ _) with (pinkey (key_bytes z)) in Hon. rewrite Hkz in Hon.
        refine (pin_value db db5 B _ _ _ Hon HB _ Hf _ _); [exact Hkz|done|apply u64_range].
      * apply bind_Ok in E4 as ([] & db5 & E5 & E4). injection E4 as <- <-. apply index_Delete_spec in E5 as [Hf Hon].
        change (encodeKeyFunc _ _) with (pinkey (key_bytes item)) in Hf, Hon. rewrite Hki in Hf, Hon.
        assert (HB5 : agree (fin db5) (MkAbs (rdata B) (delete a (rpins B)))) by (by apply (agree_pin db db5 B a None)).
        exact (remove_data a item rootItem db5 db' c _ HB5 Hki E).
    + destruct Hp as [Hp _]. destruct o3; [congruence|]. injection E4 as <- <-.
      exact (remove_data a item rootItem db db' c B HB Hki E).
Qed.

(** ** With leveldb a batch is not read *)

Definition reads_same (db db' : DB) : Prop := forall k, kept_key k -> rd db' k = rd db k.

Lemma still_removeTransfer a : still (setRemoveTransfer C a).
Proof. apply still_index_Delete, other_prefixes. Qed.

Section Leveldb.
Context (Hdr : driver C = leveldb).

(** Nothing is read differently: whatever the result, or if it is an error. *)
Definition lazy {A : Type} (m : M A) : Prop := forall db db' r, m db = (db', r) -> reads_same db db'.
Definition lazy_err {A : Type} (m : M A) : Prop := forall db db' e, m db = (db', Err e) -> reads_same db db'.

Lemma lazy_still {A : Type} (m : M A) : still m -> lazy m.
Proof. intros H db db' r E k Hk. by apply (H _ _ _ E). Qed.

Lemma lazy_weaken {A : Type} (m : M A) : lazy m -> lazy_err m.
Proof. intros H db db' e E. by apply (H _ _ _ E). Qed.

Lemma lazy_bind {A B : Type} (m : M A) (f : A -> M B) : lazy m -> (forall a, lazy (f a)) -> lazy (m ≫= f).
Proof.
  intros Hm Hf db db' r. unfold mbind, M_bind. destruct (m db) as [db1 [a|e]] eqn:E; [|intros [= <- <-]; by apply (Hm _ _ _ E)].
  intros E2 k Hk. rewrite (Hf a _ _ _ E2 k Hk). by apply (Hm _ _ _ E).
Qed.

Lemma lazy_err_bind {A B : Type} (m : M A) (f : A -> M B) : lazy m -> (forall a, lazy_err (f a)) -> lazy_err (m ≫= f).
Proof.
  intros Hm Hf db db' e. unfold mbind, M_bind. destruct (m db) as [db1 [a|e']] eqn:E; [|intros [= <- <-]; by apply (Hm _ _ _ E)].
  intros E2 k Hk. rewrite (Hf a _ _ _ E2 k Hk). by apply (Hm _ _ _ E).
Qed.

Lemma lazy_for_each {A B : Type} (f : B -> A -> M B) l : (forall b a, lazy (f b a)) -> forall b, lazy (for_each f b l).
Proof. intros Hf. induction l as [|a l IH]; intros b; cbn [for_each]; [by apply lazy_still, still_pure|]. by apply lazy_bind. Qed.

Lemma lazy_index_Put f i : lazy (index_Put C f i).
Proof. intros db db' r. unfold index_Put, in_batch, PutInBatch, batch_put. rewrite Hdr. by intros [= <- _]. Qed.

Lemma lazy_index_Delete f i : lazy (index_Delete C f i).
Proof. intros db db' r. unfold index_Delete, in_batch, DeleteInBatch, batch_delete. rewrite Hdr. by intros [= <- _]. Qed.

Lemma lazy_err_Commit {A : Type} (a : A) : lazy_err (_ ← batch_Commit C; mret a).
Proof.
  intros db db' e. unfold mbind, M_bind, batch_Commit. destruct (Commit _ _) as [st|e']; [done|]. by intros [= <- _].
Qed.

Lemma lazy_err_Commit' : lazy_err (batch_Commit C).
Proof. intros db db' e. unfold batch_Commit. destruct (Commit _ _) as [st|e']; [done|]. by intros [= <- _]. Qed.

Lemma lazy_err_locked {A : Type} (m : M A) : lazy_err m -> lazy_err (locked m).
Proof.
  intros Hm db db' e. unfold locked. destruct (batchMu db); [by intros [= <- _]|]. destruct (m (set_batchMu db true)) as [db1 r] eqn:E.
  intros [= <- ->]. apply (Hm _ _ _ E).
Qed.

Ltac lazy_step :=
  match goal with
  | |- lazy (index_Put _ _ _) => apply lazy_index_Put
  | |- lazy (index_Delete _ _ _) => apply lazy_index_Delete
  | |- lazy (gcRemove _ _) => apply lazy_still, still_gcRemove
  | |- lazy (setGC _ _) => apply lazy_still, still_setGC
  | |- lazy (setSync _ _) => apply lazy_still, still_setSync
  | |- lazy (putTransfer _ _ _) => apply lazy_still, still_putTransfer
  | |- lazy (incBinID _ _ _) => apply lazy_still, still_incBinID
  | |- lazy (_ ≫= _) => apply lazy_bind; [|intros ?]
  | |- lazy (for_each _ _ _) => apply lazy_for_each; intros ? ?
  | |- lazy (let '(_, _) := ?x in _) => destruct x
  | |- lazy (match ?x with _ => _ end) => destruct x
  | |- lazy ((fun _ => _) _) => cbv beta
  | |- lazy (let _ := _ in _) => cbv zeta
  | |- lazy _ => apply lazy_still; still_step
  end.
Ltac lazy_auto := repeat lazy_step.

Lemma lazy_putUpload m i : lazy (putUpload C m i).
Proof. unfold putUpload. lazy_auto. Qed.

Lemma lazy_setPin i r : lazy (setPin C i r).
Proof. unfold setPin. lazy_auto. Qed.

Lemma lazy_put_chunk mode root acc ch : lazy (put_chunk C mode root acc ch).
Proof.
  unfold put_chunk, putRequest, preserveOrCache. destruct acc as [[bin exs] c].
  destruct mode; lazy_auto; first [apply lazy_putUpload | apply lazy_setPin].
Qed.

Lemma lazy_setRemove a r : lazy (setRemove C a r).
Proof. unfold setRemove. lazy_auto. Qed.

Lemma lazy_set_addr mode root c a : lazy (set_addr C mode root c a).
Proof. unfold set_addr, setUnpin. destruct mode; lazy_auto; first [apply lazy_setRemove | apply lazy_setPin]. Qed.

Lemma lazy_NewBatch : lazy NewBatch.
Proof. intros db db' r. unfold NewBatch. by intros [= <- _]. Qed.

Lemma put_fails mode root chs : lazy_err (put C mode root chs).
Proof.
  apply lazy_err_locked, lazy_err_bind; [lazy_auto|intros _]. apply lazy_err_bind; [apply lazy_NewBatch|intros _].
  apply lazy_err_bind; [lazy_auto|intros _]. apply lazy_err_bind; [apply lazy_for_each; intros; apply lazy_put_chunk|intros [[bin exs] c]].
  apply lazy_err_bind; [apply lazy_still, still_write_binIDs|intros _]. apply lazy_err_bind; [apply lazy_still, still_incGCSize|intros _].
  apply lazy_err_Commit.
Qed.

Lemma set_fails mode root l : lazy_err (set C mode root l).
Proof.
  apply lazy_err_locked, lazy_err_bind; [lazy_auto|intros _]. apply lazy_err_bind; [apply lazy_NewBatch|intros _].
  apply lazy_err_bind; [lazy_auto|intros _]. apply lazy_err_bind; [apply lazy_for_each; intros; apply lazy_set_addr|intros c].
  apply lazy_err_bind; [apply lazy_still, still_incGCSize|intros _]. apply lazy_err_Commit'.
Qed.

Lemma delete_fails fuel item : lazy_err (commonDelete C fuel item).
Proof.
  unfold commonDelete. cbv zeta. apply lazy_err_bind; [by apply lazy_still, still_pure|intros _].
  apply lazy_err_bind; [apply lazy_still, still_pure; intros db; by destruct (FileStore.Delete _ _)|intros _].
  apply lazy_err_locked, lazy_err_bind; [apply lazy_NewBatch|intros _]. cbv zeta. apply lazy_err_bind; [lazy_auto|intros db].
  apply lazy_err_bind; [lazy_auto|intros l]. apply lazy_err_bind; [lazy_auto; apply lazy_setRemove|intros c].
  apply lazy_err_bind; [apply lazy_still, still_removeTransfer|intros _].
  apply lazy_err_bind; [apply lazy_still, still_incGCSize|intros _]. apply lazy_err_Commit'.
Qed.

Lemma lazy_Lock : lazy Lock.
Proof. intros db db' r. unfold Lock. destruct (batchMu db); by intros [= <- _]. Qed.

Lemma get_lazy mode a root k : lazy (get C mode a root k).
Proof.
  unfold get. cbv zeta. apply lazy_bind; [lazy_auto|]. intros [out|]; [|lazy_auto]. destruct mode; try lazy_auto; try (by apply lazy_still, still_pure).
  - apply lazy_NewBatch.
  - apply lazy_Lock.
  - apply lazy_putUpload.
Qed.
End Leveldb.

(** ** Several chunks in one batch *)

Lemma key_chunkToItem ch : key_bytes (chunkToItem ch) = addr ch.
Proof. unfold chunkToItem, key_bytes. cbn. by destruct (addr ch). Qed.

Lemma key_addressToItem a : key_bytes (addressToItem a) = a.
Proof. by destruct a. Qed.

(** A step on the chunk of an address leaves its pins to be read. *)
Lemma pins_kept db db' a R : only (eq (datakey a)) db db' -> agree (rd db) R -> pin_ok (rd db' (pinkey a)) (rpins R !! a).
Proof. intros Ho HR. destruct (Ho (pinkey a) (kept_pinkey _)) as [-> _]; [apply datakey_pinkey|apply HR]. Qed.

Lemma putRequest_spec bin ch ty rootItem pin db db' bin' ex c R B : agree (rd db) R -> agree (fin db) B -> 0 <= ty < 2 ^ 64 ->
  putRequest C bin (set_Type (chunkToItem ch) ty) rootItem pin db = (db', Ok (bin', ex, c)) ->
  agree (fin db') (if pin && negb (known R (addr ch)) then add_pin R (addr ch) (add_ref R (addr ch) (sdata ch) ty B) else add_ref R (addr ch) (sdata ch) ty B) /\
  ex = known R (addr ch).
Proof.
  intros HR HB Rt ([[b1 ex1] item1] & db1 & E1 & E)%bind_Ok. cbv beta iota in E.
  assert (Hk : key_bytes (set_Type (chunkToItem ch) ty) = addr ch) by apply key_chunkToItem.
  apply (putUpload_spec _ _ _ _ _ _ _ R B (sdata ch) ty HR HB) in E1 as (HB1 & Hon & -> & Had & Hp0); [|done..].
  rewrite Hk in HB1, Hon, E. destruct (known R (addr ch)).
  - injection E as <- <- <- <-. rewrite andb_false_r. done.
  - cbv zeta in E. apply bind_Ok in E as (c1 & db2 & E2 & E). injection E as <- <- <- <-. rewrite andb_true_r. unfold preserveOrCache in E2.
    assert (Hk1 : key_bytes item1 = addr ch) by (unfold key_bytes; rewrite Had; exact Hk). destruct pin.
    + assert (Hp : pin_ok (rd db1 (pinkey (key_bytes item1))) (rpins R !! key_bytes item1)) by (rewrite Hk1; by apply (pins_kept db)).
      destruct (setPin_spec _ _ _ _ _ R _ Hp HB1 Hp0 E2) as [HB2 _]. by rewrite Hk1 in HB2.
    + pose proof (still_setGC _ _ _ _ E2) as Hs. split; [by apply (agree_same db1)|done].
Qed.

Lemma put_chunk_spec mode root acc ch db db' acc' R B : agree (rd db) R -> agree (fin db) B -> put_chunk C mode root acc ch db = (db', Ok acc') ->
  agree (fin db') (spec_put mode R B ch) /\ acc'.1.2 = acc.1.2 ++ [known R (addr ch)].
Proof.
  intros HR HB. destruct acc as [[bin exs] change]. unfold put_chunk. cbv zeta. pose proof (key_chunkToItem ch : key_bytes (set_Type (chunkToItem ch) 1) = _) as Hk.
  destruct mode; cbn [spec_put]; [| | | | |done].
  - intros ([[b1 ex] c] & db1 & E1 & E)%bind_Ok. cbv beta iota in E. apply bind_Ok in E as ([] & db2 & E2 & E). injection E as <- <-.
    destruct (putRequest_spec _ _ 1 _ false _ _ _ _ _ _ _ HR HB ltac:(lia) E1) as (HB1 & ->). pose proof (still_putTransfer _ _ _ _ _ E2) as Hs.
    split; [by apply (agree_same db1)|done].
  - intros ([[b1 ex] i1] & db1 & E1 & E)%bind_Ok. cbv beta iota in E. apply bind_Ok in E as (c & db2 & E2 & E). injection E2 as <- <-. injection E as <- <-.
    apply (putUpload_spec _ _ _ _ _ _ _ R B (sdata ch) 1 HR HB) in E1 as (HB1 & Hon & -> & _); [|done..|lia|done]. by rewrite Hk in *.
  - intros ([[b1 ex] i1] & db1 & E1 & E)%bind_Ok. cbv beta iota in E. apply bind_Ok in E as (c & db2 & E2 & E). injection E as <- <-.
    apply (putUpload_spec _ _ _ _ _ _ _ R B (sdata ch) 1 HR HB) in E1 as (HB1 & Hon & -> & _); [|done..|lia|done]. rewrite Hk in *.
    assert (Hp : pin_ok (rd db1 (pinkey (key_bytes (set_Type (chunkToItem ch) 1)))) (rpins R !! key_bytes (set_Type (chunkToItem ch) 1)))
      by (rewrite Hk; by apply (pins_kept db)).
    destruct (setPin_spec _ _ _ _ _ R _ Hp HB1 eq_refl E2) as [HB2 _]. by rewrite Hk in HB2.
  - intros ([[b1 ex] c] & db1 & E1 & E)%bind_Ok. cbv beta iota in E. apply bind_Ok in E as ([] & db2 & E2 & E). injection E as <- <-.
    destruct (putRequest_spec _ _ 1 _ true _ _ _ _ _ _ _ HR HB ltac:(lia) E1) as (HB1 & ->). pose proof (still_putTransfer _ _ _ _ _ E2) as Hs.
    split; [|done]. apply (agree_same db1); [done|]. unfold known in HB1. destruct (rdata R !! addr ch); exact HB1.
  - intros ([[b1 ex] c] & db1 & E1 & E)%bind_Ok. cbv beta iota in E. injection E as <- <-.
    by destruct (putRequest_spec _ _ 2 _ false _ _ _ _ _ _ _ HR HB ltac:(lia) E1) as (HB1 & ->).
Qed.

Lemma set_addr_spec mode root change a db db' c R B : agree (rd db) R -> agree (fin db) B -> set_addr C mode root change a db = (db', Ok c) ->
  agree (fin db') (spec_set mode R B a).
Proof.
  intros HR HB. unfold set_addr. intros (x & db1 & E1 & E)%bind_Ok. injection E as <- _. pose proof (key_addressToItem a) as Hk.
  destruct mode; cbn [spec_set].
  - apply (agree_same db); [by apply (still_setSync _ _ _ _ E1)|done].
  - by apply (setRemove_spec _ _ _ _ _ R B) in E1.
  - apply bind_Ok in E1 as (h & db2 & E2 & E1). apply index_Has_Ok in E2 as [-> _]. destruct h; [|done].
    apply (setPin_spec _ _ _ _ _ R B) in E1 as [H _]; [by rewrite Hk in H|rewrite Hk; apply HR|done..].
  - apply (setUnpin_spec _ _ _ _ _ R B) in E1 as [H _]; [by rewrite Hk in H|rewrite Hk; apply HR|done..].
  - done.
Qed.

(** What the next entry of a call is read from. *)
Lemma next_reads {A : Type} (m : M A) db db' r R B : (driver C = leveldb -> lazy m) -> m db = (db', r) ->
  agree (rd db) R -> agree (fin db') B -> agree (rd db') (read_from (driver C) R B).
Proof.
  intros Hm E HR HB a. unfold fin in HB. destruct (driver C); cbn [read_from].
  - rewrite (Hm eq_refl _ _ _ E _ (kept_datakey a)), (Hm eq_refl _ _ _ E _ (kept_pinkey a)). apply HR.
  - apply HB.
Qed.

Lemma read_from_twice d A B B' : read_from d (read_from d A B) B' = read_from d A B'.
Proof. by destruct d. Qed.

(** The entries of a call, each with its own effect. *)
Lemma call_loop {X Y : Type} (f : Y -> X -> M Y) (g : Abs -> Abs -> X -> Abs) l :
  (forall c x, driver C = leveldb -> lazy (f c x)) ->
  (forall c x db db' c' R B, agree (rd db) R -> agree (fin db) B -> f c x db = (db', Ok c') -> agree (fin db') (g R B x)) ->
  forall A B db c db' c', agree (rd db) (read_from (driver C) A B) -> agree (fin db) B -> for_each f c l db = (db', Ok c') ->
  agree (fin db') (foldl (fun B x => g (read_from (driver C) A B) B x) B l).
Proof.
  intros Hlazy Hf A. induction l as [|x l IH]; intros B db c db' c' HR HB; cbn [for_each]; [by intros [_ ->]%ret_Ok|].
  intros (c1 & db1 & E1 & E)%bind_Ok. pose proof (Hf _ _ _ _ _ _ _ HR HB E1) as HB1.
  refine (IH _ db1 c1 db' c' _ HB1 E). rewrite <- (read_from_twice _ A B).
  eapply next_reads; [|exact E1|exact HR|exact HB1]. intros; by apply Hlazy.
Qed.

Lemma put_flags mode root chs A : forall B db acc db' acc', agree (rd db) (read_from (driver C) A B) -> agree (fin db) B ->
  for_each (put_chunk C mode root) acc chs db = (db', Ok acc') -> acc'.1.2 = acc.1.2 ++ known_from (driver C) mode A B chs.
Proof.
  induction chs as [|ch chs IH]; intros B db acc db' acc' HR HB; cbn [for_each known_from].
  { intros [-> ->]%ret_Ok. by rewrite app_nil_r. }
  intros (acc1 & db1 & E1 & E)%bind_Ok. destruct (put_chunk_spec _ _ _ _ _ _ _ _ _ HR HB E1) as [HB1 Ex1].
  assert (HR1 : agree (rd db1) (read_from (driver C) A (spec_put mode (read_from (driver C) A B) B ch))).
  { rewrite <- (read_from_twice _ A B). eapply next_reads; [|exact E1|exact HR|exact HB1]. intros; by apply lazy_put_chunk. }
  rewrite (IH _ db1 acc1 db' acc' HR1 HB1 E).
  by rewrite Ex1, <- app_assoc.
Qed.

(** ** Calls *)

Definition holds (db : DB) (A : Abs) : Prop := agree (rd db) A.

Lemma NewBatch_fin (db : DB) k : fin (set_shed db (shed db) []) k = rd db k.
Proof. unfold fin. cbn. apply final_new. Qed.

Lemma NewBatch_agree (db : DB) A : holds db A -> agree (rd (set_shed db (shed db) [])) (read_from (driver C) A A) /\ agree (fin (set_shed db (shed db) [])) A.
Proof. intros HA. split; [by destruct (driver C)|]. intros a. rewrite !NewBatch_fin. apply HA. Qed.

Lemma Commit_holds db db' A : agree (fin db) A -> batch_Commit C db = (db', Ok tt) -> holds db' A.
Proof.
  intros HA. unfold batch_Commit. destruct (Commit _ _) as [st|e] eqn:E; [|done]. intros [= <-] a. unfold rd. cbn [shed set_shed].
  rewrite !(Commit_final _ _ _ _ E). apply HA.
Qed.

Lemma locked_Ok {A : Type} (m : M A) db db' a : locked m db = (db', Ok a) ->
  exists db1, m (set_batchMu db true) = (db1, Ok a) /\ db' = set_batchMu db1 false.
Proof. unfold locked. destruct (batchMu db); [done|]. destruct (m (set_batchMu db true)) as [db1 r]. intros [= <- ->]. eauto. Qed.

Lemma mark_dirty_shed l (db db' : DB) : mark_dirty l db = (db', Ok tt) -> shed db' = shed db.
Proof. unfold mark_dirty. intros [= <-]. by case_match. Qed.

Lemma put_call mode root chs db db' exs A : holds db A -> put C mode root chs db = (db', Ok exs) ->
  holds db' (one_call (driver C) (spec_put mode) A chs) /\ exs = known_before (driver C) mode A chs.
Proof.
  intros HA (db1 & E & ->)%locked_Ok. apply bind_Ok in E as ([] & db2 & E2%mark_dirty_shed & E). apply bind_Ok in E as ([] & db3 & E3 & E).
  injection E3 as <-. apply bind_Ok in E as ([] & db4 & E4 & E). assert (db4 = set_shed db2 (shed db2) []) as -> by (destruct mode; by injection E4).
  apply bind_Ok in E as ([[bin ex] change] & db5 & E5 & E). cbv beta iota in E.
  apply bind_Ok in E as ([] & db6 & E6%still_write_binIDs & E). apply bind_Ok in E as ([] & db7 & E7%still_incGCSize & E).
  apply bind_Ok in E as ([] & db8 & E8 & E). injection E as <- <-.
  assert (HA2 : holds db2 A) by (intros a; unfold rd; rewrite E2; apply HA). apply NewBatch_agree in HA2 as [HR HB].
  pose proof (put_flags _ _ _ _ _ _ _ _ _ HR HB E5) as Hex. split; [|exact Hex].
  change (holds db8 (one_call (driver C) (spec_put mode) A chs)). eapply (Commit_holds db7); [|exact E8]. apply (agree_same db6), (agree_same db5); try done.
  refine (call_loop _ (spec_put mode) chs _ _ A A _ _ _ _ HR HB E5); [intros; by apply lazy_put_chunk|].
  intros. by eapply put_chunk_spec.
Qed.

Lemma set_call mode root l db db' A : holds db A -> set C mode root l db = (db', Ok tt) ->
  holds db' (one_call (driver C) (spec_set mode) A l).
Proof.
  intros HA (db1 & E & ->)%locked_Ok. apply bind_Ok in E as ([] & db2 & E2%mark_dirty_shed & E). apply bind_Ok in E as ([] & db3 & E3 & E).
  injection E3 as <-. apply bind_Ok in E as ([] & db4 & E4 & E). assert (db4 = set_shed db2 (shed db2) []) as -> by (destruct mode; by injection E4).
  apply bind_Ok in E as (change & db5 & E5 & E). apply bind_Ok in E as ([] & db7 & E7%still_incGCSize & E).
  assert (HA2 : holds db2 A) by (intros a; unfold rd; rewrite E2; apply HA). apply NewBatch_agree in HA2 as [HR HB].
  change (holds db1 (one_call (driver C) (spec_set mode) A l)). eapply (Commit_holds db7); [|exact E]. apply (agree_same db5); [done|].
  refine (call_loop _ (spec_set mode) l _ _ A A _ _ _ _ HR HB E5); [intros; by apply lazy_set_addr|].
  intros. by eapply set_addr_spec.
Qed.

Lemma delete_call fuel item db db' A : holds db A -> commonDelete C fuel item db = (db', Ok tt) ->
  exists l, getAllChunks C fuel (shed db) (key_bytes item) = Ok l /\ holds db' (one_call (driver C) (spec_set ModeSetRemove) A l).
Proof.
  intros HA E. unfold commonDelete in E. cbv zeta in E. apply bind_Ok in E as ([] & db1 & E1 & E). injection E1 as <-.
  apply bind_Ok in E as ([] & db2 & E2 & E).
  assert (Hs2 : shed db2 = shed db).
  { destruct (FileStore.Delete _ _) as [fs r]. injection E2 as <- _. done. }
  apply locked_Ok in E as (db3 & E & ->). apply bind_Ok in E as ([] & db4 & E4 & E). injection E4 as <-. cbv zeta in E.
  apply bind_Ok in E as (d & db5 & E5 & E). injection E5 as <- <-. apply bind_Ok in E as (l & db6 & E6 & E). injection E6 as <- El.
  exists l. cbn [shed set_shed set_batchMu] in El. rewrite <- Hs2. split; [exact El|].
  apply bind_Ok in E as (change & db7 & E7 & E). apply bind_Ok in E as ([] & db8 & E8%still_removeTransfer & E).
  apply bind_Ok in E as ([] & db9 & E9%still_incGCSize & E). change (holds db3 (one_call (driver C) (spec_set ModeSetRemove) A l)).
  eapply (Commit_holds db9); [|exact E]. apply (agree_same db8); [done|]. apply (agree_same db7); [done|].
  assert (HA2 : holds (set_batchMu db2 true) A) by (intros a; unfold rd; cbn [shed set_batchMu]; rewrite Hs2; apply HA). apply NewBatch_agree in HA2 as [HR HB].
  refine (call_loop _ (spec_set ModeSetRemove) l _ _ A A _ _ _ _ HR HB E7).
  - intros c a Hd. apply lazy_bind; [by apply lazy_setRemove|]. intros. by apply lazy_still, still_pure.
  - intros c a dba dbb c' R B HR' HB' (x & dbc & Ex & Ey)%bind_Ok. injection Ey as <- _. by eapply setRemove_spec.
Qed.

(** ** Calls that change no chunk *)

Lemma holds_same db db' A : reads_same db db' -> holds db A -> holds db' A.
Proof. intros H HA a. unfold holds, agree in *. rewrite (H _ (kept_datakey a)), (H _ (kept_pinkey a)). apply HA. Qed.

(** In a fresh batch, whatever the result. *)
Definition calm {A : Type} (m : M A) : Prop := forall db db' r, (forall k, kept_key k -> fin db k = rd db k) -> m db = (db', r) -> reads_same db db'.

Lemma still_reads {A : Type} (m : M A) db db' r : m db = (db', r) -> still m -> reads_same db db'.
Proof. intros E H k Hk. by apply (H _ _ _ E). Qed.

Lemma calm_still {A : Type} (m : M A) : still m -> calm m.
Proof. intros H db db' r _ E k Hk. by apply (H _ _ _ E). Qed.

Lemma calm_bind {A B : Type} (m : M A) (f : A -> M B) : still m -> (forall a, calm (f a)) -> calm (m ≫= f).
Proof.
  intros Hm Hf db db' r Hs. unfold mbind, M_bind. destruct (m db) as [db1 [a|e]] eqn:E; [|intros [= <- <-] k Hk; by apply (Hm _ _ _ E)].
  intros E2 k Hk. rewrite (Hf a db1 db' r); [by apply (Hm _ _ _ E)| |done|done].
  intros k' Hk'. destruct (Hm _ _ _ E k' Hk') as [-> ->]. by apply Hs.
Qed.

Lemma calm_Commit : calm (batch_Commit C).
Proof.
  intros db db' r Hs. unfold batch_Commit. destruct (Commit _ _) as [st|e] eqn:E; intros [= <- <-]; [|done].
  intros k Hk. unfold rd. cbn [shed set_shed]. rewrite (Commit_final _ _ _ k E). by apply Hs.
Qed.

Lemma begin_calm {A : Type} l (m : M A) db db' r : calm m -> (_ ← mark_dirty l; _ ← NewBatch; m) db = (db', r) -> reads_same db db'.
Proof.
  intros Hm E. unfold mbind, M_bind, mark_dirty, NewBatch in E. cbv beta iota in E. apply Hm in E; [|intros k _; by rewrite NewBatch_fin].
  intros k Hk. rewrite (E k Hk). unfold rd. cbn [shed set_shed]. by case_match.
Qed.

Lemma updateGC_same item db db' r : updateGC C item db = (db', r) -> reads_same db db'.
Proof.
  unfold updateGC, locked. destruct (batchMu db); [by intros [= <- _]|].
  match goal with |- context [let '(_, _) := ?x in _] => destruct x as [db1 r1] eqn:E end. intros [= <- _].
  change (reads_same (set_batchMu db true) db1). eapply begin_calm; [|exact E]. clear E.
  apply calm_bind; [still_auto|]. intros o. cbv zeta. case_match; [apply calm_still; still_auto|].
  apply calm_bind; [still_auto|]. intros [i it]. apply calm_bind; [unfold gc_entry; still_auto|]. intros [g|]; [|apply calm_still; still_auto].
  cbv zeta. apply calm_bind; [still_auto|intros _]. apply calm_bind; [still_auto|intros t]. apply calm_bind; [still_auto|intros _].
  apply calm_bind; [still_auto|intros _]. apply calm_Commit.
Qed.

Lemma run_update_same k db db' r : run_update C k db = (db', r) -> reads_same db db'.
Proof.
  unfold run_update. destruct (updates db !! k) as [items|]; [|by intros [= <- _]].
  set (db0 := set_updates db (delete k (updates db))). change (reads_same db db') with (reads_same db0 db'). clearbody db0. revert db0.
  induction items as [|i items IH]; intros db0; cbn [for_each]; [by intros [= <- _]|]. unfold mbind, M_bind, ignore at 1.
  destruct (updateGC C i db0) as [db1 r1] eqn:E1. intros E k' Hk'. rewrite (IH db1 E k' Hk'). by apply (updateGC_same _ _ _ _ E1).
Qed.

(** A [Get] changes no chunk, but for a request with a root whose bit is not set, with
    WiredTiger. *)
Definition counts (mode : ModeGet) (root : bytes) (k : Z) (db : DB) : Prop :=
  driver C = wiredtiger /\ mode = ModeGetRequest /\ root <> [] /\ (HasChunkBit root k db).2 = Ok false.

Lemma get_same mode a root k db db' r : driver C = leveldb \/ mode <> ModeGetRequest \/ root = [] \/ (HasChunkBit root k db).2 = Ok true ->
  get C mode a root k db = (db', r) -> reads_same db db'.
Proof.
  intros H. destruct (driver C) eqn:Hd; [by apply get_lazy|]. destruct H as [?|H]; [done|]. intros E k' Hk'.
  unfold get in E. cbv zeta in E. unfold mbind at 1, M_bind at 1 in E.
  destruct (index_Get (retrievalDataIndex (layout C)) (addressToItem a) db) as [db1 [o|e]] eqn:E1; [|injection E as <- _; by apply (still_index_Get _ _ _ _ _ E1)].
  apply index_Get_Ok in E1 as [-> _]. destruct o as [out|]; [|by injection E as <- _].
  destruct mode; try (apply (still_reads _ _ _ _ E); [solve [still_auto]|done]).
  destruct (negb (type_bit out 0)); [by injection E as <- _|].
  destruct root as [|x root]; [apply (still_reads _ _ _ _ E); [apply still_bind; [by apply still_pure|intros _; still_auto]|done]|].
  destruct H as [?|[?|H]]; [done|done|]. unfold mbind, M_bind, updateGCItems in E. cbn [fst snd] in E.
  unfold HasChunkBit in H, E. cbn [snd chunkstore set_updates] in H, E. rewrite H in E. by injection E as <- _.
Qed.

Lemma get_counts mode a root k db db' out A : counts mode root k db -> holds db A -> get C mode a root k db = (db', Ok out) ->
  holds db' (spec_get A a).
Proof.
  intros (Hd & -> & Hroot & Hbit) HA E. unfold get in E. cbv zeta in E. apply bind_Ok in E as (o & db1 & E1 & E).
  apply index_Get_Ok in E1 as [-> Ho]. destruct o as [x|]; [|done]. destruct (negb (type_bit x 0)); [done|].
  destruct root as [|y root]; [done|]. unfold mbind at 1, M_bind at 1, updateGCItems in E. cbn [fst snd] in E.
  apply bind_Ok in E as (ok & db2 & E2 & E). unfold HasChunkBit in E2, Hbit. cbn [snd chunkstore set_updates] in E2, Hbit. rewrite Hbit in E2. injection E2 as <- <-.
  apply bind_Ok in E as ([] & db3 & E3 & E). injection E3 as <-. apply bind_Ok in E as ([] & db4 & E4 & E).
  unfold Lock in E4. destruct (batchMu _) in E4; [done|]. injection E4 as <-.
  apply bind_Ok in E as ([[b ex] i] & db5 & E5 & E). apply bind_Ok in E as ([] & db6 & E6 & E). injection E6 as <-. injection E as <- _.
  destruct (HA a) as [Hda _]. rewrite <- (key_addressToItem a) in Hda at 1. apply Get_data in Hda. unfold spec_get.
  destruct (rdata A !! a) as [[[d t] c]|] eqn:Hlk; [|destruct Hda; congruence].
  destruct Hda as (_ & x' & Hx & Hax & Hdx & Htx & _ & Hpx). assert (x' = x) as -> by congruence.
  assert (Hk : key_bytes x = a) by (unfold key_bytes; rewrite Hax; apply key_addressToItem).
  assert (Hty : 0 <= t < 2 ^ 64) by (destruct (HA a) as [H _]; rewrite Hlk in H; apply H).
  match type of E5 with putUpload _ _ _ ?d0 = _ => assert (HB : holds d0 A /\ agree (fin d0) A) by (split; [exact HA|intros a'; unfold fin; rewrite Hd; apply HA]) end.
  destruct HB as [HR HB]. destruct (putUpload_spec _ _ _ _ _ _ _ A A d t HR HB Hdx Htx Hty Hpx E5) as (H & _). rewrite Hk in H.
  intros a'. specialize (H a'). unfold fin in H. rewrite Hd in H. exact H.
Qed.

(** ** Histories of a store *)

Definition new_store (db : DB) : Prop := forall k, kept_key k -> rd db k = Err ErrNotFound.

(** The states a new store reaches, with the abstract store of the calls that
    succeeded.  A collection of garbage is a [gc_begin], the deletion of some files,
    and a [gc_end]; the waiting goroutines of [Get] run at any time.  Calls that fail
    are included with leveldb; with WiredTiger they leave part of their writes. *)
Inductive reached : DB -> Abs -> Prop :=
| reached_new db : new_store db -> reached db noChunks
| reached_put db A mode root chs db' exs : reached db A -> put C mode root chs db = (db', Ok exs) ->
    reached db' (one_call (driver C) (spec_put mode) A chs)
| reached_set db A mode root l db' : reached db A -> set C mode root l db = (db', Ok tt) ->
    reached db' (one_call (driver C) (spec_set mode) A l)
| reached_delete db A fuel item l db' : reached db A -> getAllChunks C fuel (shed db) (key_bytes item) = Ok l ->
    commonDelete C fuel item db = (db', Ok tt) -> reached db' (one_call (driver C) (spec_set ModeSetRemove) A l)
| reached_get db A mode a root k db' r : reached db A ->
    driver C = leveldb \/ mode <> ModeGetRequest \/ root = [] \/ (HasChunkBit root k db).2 = Ok true ->
    get C mode a root k db = (db', r) -> reached db' A
| reached_get_counts db A mode a root k db' out : reached db A -> counts mode root k db ->
    get C mode a root k db = (db', Ok out) -> reached db' (spec_get A a)
| reached_update db A k db' r : reached db A -> run_update C k db = (db', r) -> reached db' A
| reached_gc db A db' r : reached db A -> gc_begin db = (db', r) \/ gc_end db = (db', r) -> reached db' A
| reached_put_fails db A mode root chs db' e : reached db A -> driver C = leveldb -> put C mode root chs db = (db', Err e) -> reached db' A
| reached_set_fails db A mode root l db' e : reached db A -> driver C = leveldb -> set C mode root l db = (db', Err e) -> reached db' A
| reached_delete_fails db A fuel item db' e : reached db A -> driver C = leveldb -> commonDelete C fuel item db = (db', Err e) -> reached db' A.

Lemma gc_same db db' r : gc_begin db = (db', r) \/ gc_end db = (db', r) -> reads_same db db'.
Proof. unfold gc_begin, gc_end, locked. destruct (batchMu db); intros [[= <- _]|[= <- _]]; done. Qed.

Lemma reached_holds db A : reached db A -> holds db A.
Proof.
  induction 1 as [db H| | |db A fuel item l db' _ HA Hl E| | | | | | | ].
  - intros a. split; apply H; [apply kept_datakey|apply kept_pinkey].
  - by eapply put_call.
  - by eapply set_call.
  - destruct (delete_call _ _ _ _ _ HA E) as (l' & E' & Hd). rewrite Hl in E'. by injection E' as <-.
  - eapply holds_same; [by eapply get_same|done].
  - by eapply get_counts.
  - eapply holds_same; [by eapply run_update_same|done].
  - eapply holds_same; [by eapply gc_same|done].
  - eapply holds_same; [by eapply put_fails|done].
  - eapply holds_same; [by eapply set_fails|done].
  - eapply holds_same; [by eapply delete_fails|done].
Qed.

Lemma Has_holds db A a : holds db A ->
  Has C ModeHasChunk a db = (db, Ok (known A a)) /\ Has C ModeHasPin a db = (db, Ok (bool_decide (is_Some (rpins A !! a)))).
Proof.
  intros HA. destruct (HA a) as [Hd Hp]. rewrite <- (key_addressToItem a) in Hd at 1. rewrite <- (key_addressToItem a) in Hp at 1.
  pose proof (Get_data _ _ _ Hd) as Gd. pose proof (Get_pin _ _ _ Hp eq_refl) as Gp.
  unfold Has, index_Has, mbind, M_bind, get_state, lift, known. split.
  - destruct (rdata A !! a) as [[[d t] c]|]; [destruct Gd as [-> _]|destruct Gd as [_ ->]]; done.
  - destruct (rpins A !! a) as [p|]; [destruct Gp as [-> _]|destruct Gp as [_ ->]]; done.
Qed.

Lemma Get_holds mode db A a root k : holds db A -> mode = ModeGetLookup \/ mode = ModeGetSync ->
  Get C mode a root k db = (db, match rdata A !! a with Some (d, _, _) => Ok (NewChunk a d) | None => Err storeNotFound end).
Proof.
  intros HA Hm. destruct (HA a) as [Hd _]. rewrite <- (key_addressToItem a) in Hd at 1. pose proof (Get_data _ _ _ Hd) as Gd.
  unfold Get, translate, get, mbind, M_bind, index_Get. destruct (rdata A !! a) as [[[d t] c]|].
  - destruct Gd as (_ & x & -> & Ha & Hx & _). destruct Hm as [-> | ->]; cbn; unfold key_bytes at 1; rewrite Ha, Hx; by destruct a.
  - destruct Gd as [-> _]. destruct Hm as [-> | ->]; done.
Qed.
End Refs.

(** C3: in every state a new store reaches by calls of [Put], [Set], [DeleteFile], [Get],
    collections and the goroutines of [Get], failing calls included with leveldb, the
    store answers as the abstract one: a chunk is there as long as references are
    left, with the data it was put with, pins are counted, and [Put] tells which
    chunks were known before.  If a call, or the list of chunks of a deleted file,
    names an address twice, it counts once with leveldb, whose calls read the state
    before them, and twice with WiredTiger; without such repetitions both drivers
    count every entry, and [Put] reports the chunks known before the call. *)
Theorem store_refines {S : Type} `{BE : Backend S} {S2 V : Type} `{ST : StateStorer S2 V} `{CB' : Codec BitVector V} `{CF : Codec FileView V}
    `{CM : Codec FileMirror V} (C : Config) (db : DB (S := S) (S2 := S2)) (A : Abs) :
  layout_ok (layout C) -> reached C db A ->
  (forall a root k, Has C ModeHasChunk a db = (db, Ok (known A a)) /\ Has C ModeHasPin a db = (db, Ok (bool_decide (is_Some (rpins A !! a)))) /\
    Get C ModeGetLookup a root k db = (db, match rdata A !! a with Some (d, _, _) => Ok (NewChunk a d) | None => Err storeNotFound end)) /\
  (forall mode root chs db' exs, put C mode root chs db = (db', Ok exs) -> exs = known_before (driver C) mode A chs /\
    (NoDup (addr <$> chs) -> exs = (fun ch => known A (addr ch)) <$> chs /\
       one_call (driver C) (spec_put mode) A chs = foldl (fun B => spec_put mode B B) A chs)) /\
  (forall mode l, NoDup l -> one_call (driver C) (spec_set mode) A l = foldl (fun B => spec_set mode B B) A l).
Proof.
  intros HL H%(reached_holds C HL). split_and!.
  - intros a root k. destruct (Has_holds C _ _ a H) as [-> ->]. split; [done|]. split; [done|]. apply Get_holds; [done|by left].
  - intros mode root chs db' exs E. destruct (put_call C HL _ _ _ _ _ _ _ H E) as [_ ->]. split; [done|]. intros Hn.
    split; [by apply known_before_distinct|by apply puts_distinct].
  - intros mode l Hn. by apply sets_distinct.
Qed.

Module example.
Inductive value := VB (b : BitVector) | VF (f : FileView) | VM (m : FileMirror).
#[export] Instance codecB : Codec BitVector value := {| marshal := VB; unmarshal v := match v with VB b => Some b | _ => None end; unmarshal_marshal a := eq_refl |}.
#[export] Instance codecF : Codec FileView value := {| marshal := VF; unmarshal v := match v with VF b => Some b | _ => None end; unmarshal_marshal a := eq_refl |}.
#[export] Instance codecM : Codec FileMirror value := {| marshal := VM; unmarshal v := match v with VM b => Some b | _ => None end; unmarshal_marshal a := eq_refl |}.
#[export] Existing Instance memory_backend.
#[export] Existing Instance memory_store.

Definition cfg (d : Driver) : Config := MkConfig d (MkLayout [2] [3] [4] [5] [6] (1 :: str "gc-size") (1 :: str "bin-ids"))
  80000 false (replicate 32 0) (fun n => 1000 + Z.of_nat n) (fun _ => 0).
Definition db0 : DB (S := gmap bytes bytes) (S2 := gmap bytes value) :=
  MkDB ∅ [] (ChunkStore.New ∅) (FileStore.New ∅) false false [] [] 0 0 false false.
Definition ch (n : Z) : chunk := NewChunk (replicate 32 n) [1; 0; 0; 0; 0; 0; 0; 0; n].

Lemma cfg_ok d : layout_ok (layout (cfg d)).
Proof.
  split; cbn; [by apply (bool_decide_unpack _)| |done]. repeat constructor; eexists; split; try done; lia.
Qed.

Lemma of_value {A B : Type} (p : A * B) (b : B) : p.2 = b -> p = (p.1, b).
Proof. intros <-. apply surjective_pairing. Qed.

(** Two chunks, the first put and pinned once more; the second is removed, and a
    further removal of the first leaves it. *)
Definition calls (d : Driver) : list (DB (S := gmap bytes bytes) (S2 := gmap bytes value) -> DB (S := gmap bytes bytes) (S2 := gmap bytes value)) := [
  fun db => (put (cfg d) ModePutRequest (addr (ch 1)) [ch 1; ch 2] db).1;
  fun db => (put (cfg d) ModePutUploadPin [] [ch 1] db).1;
  fun db => (set (cfg d) ModeSetRemove (addr (ch 1)) [addr (ch 1); addr (ch 2)] db).1;
  fun db => (set (cfg d) ModeSetPin [] [addr (ch 2)] db).1].
Definition state (d : Driver) (n : nat) := foldl (fun db f => f db) db0 (take n (calls d)).
End example.
Import example.

Lemma store_refines_witness : let db := example.state leveldb 4 in
  Has (example.cfg leveldb) ModeHasChunk (addr (example.ch 1)) db = (db, Ok true) /\ Has (example.cfg leveldb) ModeHasChunk (addr (example.ch 2)) db = (db, Ok false) /\
  Has (example.cfg leveldb) ModeHasPin (addr (example.ch 1)) db = (db, Ok true).
Proof.
  pose (A1 := one_call (driver (example.cfg leveldb)) (spec_put ModePutRequest) noChunks [example.ch 1; example.ch 2]).
  pose (A2 := one_call (driver (example.cfg leveldb)) (spec_put ModePutUploadPin) A1 [example.ch 1]).
  pose (A3 := one_call (driver (example.cfg leveldb)) (spec_set ModeSetRemove) A2 [addr (example.ch 1); addr (example.ch 2)]).
  destruct (store_refines (example.cfg leveldb) (example.state leveldb 4) A3 (example.cfg_ok leveldb)) as [H _].
  - eapply (reached_set_fails _ _ _ ModeSetPin); [|done|apply example.of_value; vm_compute; reflexivity].
    eapply (reached_set _ _ A2 ModeSetRemove); [|apply example.of_value; vm_compute; reflexivity].
    eapply (reached_put _ _ A1 ModePutUploadPin); [|apply example.of_value; vm_compute; reflexivity].
    eapply (reached_put _ _ noChunks ModePutRequest); [|apply example.of_value; vm_compute; reflexivity].
    apply reached_new. intros k _. done.
  - destruct (H (addr (example.ch 1)) [] 0) as (H1 & P1 & _), (H (addr (example.ch 2)) [] 0) as (H2 & _). cbv zeta. split; [exact H1|split; [exact H2|exact P1]].
Defined.

(** A chunk that was requested twice is listed twice among the chunks of its file:
    the deletion of the file leaves it in a store with leveldb, with a reference that
    belongs to nothing, and removes it from one with WiredTiger. *)
Theorem delete_repeated (d : Driver) :
  let request db := (put (example.cfg d) ModePutRequest (addr (example.ch 1)) [example.ch 1] db).1 in
  let '(db, r) := DeleteFile (example.cfg d) 0 (addr (example.ch 1)) (request (request example.db0)) in
  r = Ok tt /\ (Has (example.cfg d) ModeHasChunk (addr (example.ch 1)) db).2 = Ok match d with leveldb => true | wiredtiger => false end.
Proof. destruct d; vm_compute; split; reflexivity. Qed.
