(* ===== verification/LocalStoreTypes.v ===== *)
(** * The entries of the local store are well-formed

    Every call of the local store, whether it succeeds or fails half-way, leaves
    entries that the decoding functions of their indexes accept, and leaves the
    schema alone; so decoding never panics.  On a database that does not fail,
    the modes of [Put] that do not pin always succeed. *)

From Stdlib Require Import ZArith Lia ZifyBool Znumtheory.
From stdpp Require Import base gmap list numbers strings.
From S2P Require Import Prelude Boson StateStore Shed FileStore BitVector ChunkStore Mantaray LocalStore LocalStoreRefs.

Open Scope Z_scope.

(** ** Well-formed entries *)

Record entry_ok (L : Layout) (k v : bytes) : Prop := {
  eo_data : dataPrefix L `prefix_of` k -> 32 <= zlen v;
  eo_access : accessPrefix L `prefix_of` k -> 8 <= zlen v;
  eo_transfer : transferPrefix L `prefix_of` k -> (32 | zlen v);
  eo_gc : gcPrefix L `prefix_of` k -> 8 <= zlen v /\ 17 <= zlen k /\ bytes_ok (take 8 (drop 1 k));
  eo_pin : pinPrefix L `prefix_of` k -> 8 <= zlen v;
  eo_field : k = gcSizeKey L \/ binIDsKey L `prefix_of` k -> 8 <= zlen v;
}.

Lemma layout_bytes L : layout_ok L -> exists d a t g p gs bi, L = MkLayout [d] [a] [t] [g] [p] (1 :: gs) (1 :: bi) /\ gs = str "gc-size" /\ bi = str "bin-ids" /\
  NoDup [d; a; t; g; p] /\ 2 <= d /\ 2 <= a /\ 2 <= t /\ 2 <= g /\ 2 <= p.
Proof.
  destruct L as [dp ap tp gp pp gsk bik]. intros [Hn Hb [H1 H2]]. cbn [dataPrefix accessPrefix transferPrefix gcPrefix pinPrefix gcSizeKey binIDsKey] in *.
  rewrite !Forall_cons in Hb. destruct Hb as ((d & -> & ?) & (a & -> & ?) & (t & -> & ?) & (g & -> & ?) & (p & -> & ?) & _).
  rewrite H1, H2. unfold keyPrefixFields.
  eexists d, a, t, g, p, _, _. split; [done|]. split; [done|]. split; [done|]. split; [|done]. apply (NoDup_fmap_1 (fun x => [x])). exact Hn.
Qed.

Lemma prefix_byte (b c : Z) (l : bytes) : [b] `prefix_of` c :: l <-> b = c.
Proof. split; [by intros ?%prefix_cons_inv_1|]. intros ->. apply prefix_cons, prefix_nil. Qed.

Lemma zlen_BE z : zlen (BE_PutUint64 z) = 8.
Proof. unfold BE_PutUint64. by rewrite length_be_put. Qed.

(** What each index writes. *)
Ltac entry HL :=
  let E := fresh in
  destruct (layout_bytes _ HL) as (d & a & t & g & p & gs & bi & E & _ & _ & Hn & Hd & Ha & Ht & Hg & Hp);
  rewrite !NoDup_cons, !not_elem_of_cons in Hn; unfold encodeKeyFunc; rewrite E;
  split; cbn [prefix EncodeKey EncodeValue dataPrefix accessPrefix transferPrefix gcPrefix pinPrefix gcSizeKey binIDsKey app
    retrievalDataIndex retrievalAccessIndex transferDataIndex gcIndex pinIndex];
  rewrite ?prefix_byte, ?length_cons, ?length_app, ?Nat2Z.inj_add;
  try (intros ->; exfalso; clear E; naive_solver lia);
  try (intros [[= -> _]|?%prefix_cons_inv_1]; exfalso; lia);
  try (intros _; rewrite ?length_app, ?Nat2Z.inj_succ, ?Nat2Z.inj_add, ?zlen_BE; lia).

Lemma entry_data L i : layout_ok L -> entry_ok L (encodeKeyFunc (retrievalDataIndex L) i) (EncodeValue (retrievalDataIndex L) i).
Proof. intros HL. entry HL. Qed.

Lemma entry_access L i : layout_ok L -> entry_ok L (encodeKeyFunc (retrievalAccessIndex L) i) (EncodeValue (retrievalAccessIndex L) i).
Proof. intros HL. entry HL. Qed.

Lemma entry_gc L i : layout_ok L -> entry_ok L (encodeKeyFunc (gcIndex L) i) (EncodeValue (gcIndex L) i).
Proof.
  intros HL. entry HL. intros _. rewrite ?length_app, ?Nat2Z.inj_succ, ?Nat2Z.inj_add, ?zlen_BE. split; [lia|]. split; [lia|].
  cbn [drop]. rewrite drop_0, take_app_length'; [apply be_put_ok|symmetry; apply length_be_put].
Qed.

Lemma entry_pin L i : layout_ok L -> entry_ok L (encodeKeyFunc (pinIndex L) i) (EncodeValue (pinIndex L) i).
Proof. intros HL. entry HL. Qed.

Lemma entry_transfer L i : layout_ok L -> (32 | zlen (default [] (Data i))) ->
  entry_ok L (encodeKeyFunc (transferDataIndex L) i) (EncodeValue (transferDataIndex L) i).
Proof. intros HL Hi. entry HL. done. Qed.

Lemma entry_field L key x v : layout_ok L -> head key = Some keyPrefixFields -> entry_ok L (key ++ x) (BE_PutUint64 v).
Proof.
  intros HL Hk. destruct (layout_bytes _ HL) as (d & a & t & g & p & gs & bi & E & _ & _ & Hn & Hd & Ha & Ht & Hg & Hp).
  destruct key as [|y key]; [done|]. injection Hk as ->. unfold keyPrefixFields. rewrite E.
  split; cbn [dataPrefix accessPrefix transferPrefix gcPrefix pinPrefix app]; rewrite ?prefix_byte, ?zlen_BE; lia.
Qed.

(** What the index accepts. *)
Definition decodes (L : Layout) (f : Index) : Prop :=
  (exists b, prefix f = [b]) /\ forall k v, entry_ok L (prefix f ++ k) v -> DecodeValue f v <> None.

Lemma BE_Uint64_total v n : 8 + Z.of_nat n <= zlen v -> is_Some (BE_Uint64 (drop n v)).
Proof. intros H. unfold BE_Uint64. rewrite length_drop. case_match eqn:E; [apply Nat.ltb_lt in E; lia|by eexists]. Qed.

Lemma decodes_data L : layout_ok L -> decodes L (retrievalDataIndex L).
Proof.
  intros HL. destruct (layout_bytes _ HL) as (d & a & t & g & p & gs & bi & E & _). rewrite E. split; [by eexists|].
  intros k v Hok. assert (Hl : 32 <= zlen v) by (apply (eo_data _ _ _ Hok); by exists k). unfold DecodeValue, retrievalDataIndex.
  destruct (BE_Uint64_total v 0) as [x Hx]; [lia|]. rewrite drop_0 in Hx. rewrite Hx. cbn [mbind option_bind].
  destruct (BE_Uint64_total v 8) as [? ->]; [lia|]. cbn [mbind option_bind]. destruct (BE_Uint64_total v 16) as [? ->]; [lia|].
  cbn [mbind option_bind]. destruct (BE_Uint64_total v 24) as [? ->]; [lia|]. done.
Qed.

Lemma decodes_8 L f c : (exists b, prefix f = [b]) -> (forall k v, entry_ok L (prefix f ++ k) v -> 8 <= zlen v) ->
  (forall v, DecodeValue f v = x ← BE_Uint64 v; Some (c x)) -> decodes L f.
Proof.
  intros Hb H8 Hdec. split; [done|]. intros k v Hok. rewrite Hdec. specialize (H8 k v Hok).
  destruct (BE_Uint64_total v 0) as [x Hx]; [lia|]. rewrite drop_0 in Hx. by rewrite Hx.
Qed.

Lemma decodes_access L : layout_ok L -> decodes L (retrievalAccessIndex L).
Proof.
  intros HL. destruct (layout_bytes _ HL) as (d & a & t & g & p & gs & bi & E & _). eapply decodes_8; [rewrite E; by eexists| |done].
  intros k v Hok. apply (eo_access _ _ _ Hok). by exists k.
Qed.

Lemma decodes_gc L : layout_ok L -> decodes L (gcIndex L).
Proof.
  intros HL. destruct (layout_bytes _ HL) as (d & a & t & g & p & gs & bi & E & _). eapply decodes_8; [rewrite E; by eexists| |done].
  intros k v Hok. apply (eo_gc _ _ _ Hok). by exists k.
Qed.

Lemma decodes_pin L : layout_ok L -> decodes L (pinIndex L).
Proof.
  intros HL. destruct (layout_bytes _ HL) as (d & a & t & g & p & gs & bi & E & _). eapply decodes_8; [rewrite E; by eexists| |done].
  intros k v Hok. apply (eo_pin _ _ _ Hok). by exists k.
Qed.

Lemma decodes_transfer L : layout_ok L -> decodes L (transferDataIndex L).
Proof. intros HL. destruct (layout_bytes _ HL) as (d & a & t & g & p & gs & bi & E & _). split; [rewrite E; by eexists|done]. Qed.

(** ** Steps that keep the store well-formed *)

Section Types.
Context {S : Type} `{BE : Backend S}.
Context {S2 V : Type} `{ST : StateStorer S2 V} `{CB' : Codec BitVector V} `{CF : Codec FileView V} `{CM : Codec FileMirror V}.
Context (C : Config) (HL : layout_ok (layout C)).

Abbreviation DB := (DB (S := S) (S2 := S2)).
Abbreviation M := (M (S := S) (S2 := S2)).
Abbreviation L := (layout C).

(** A key that is there but cannot be read may still be decoded. *)
Definition cell_ok (k : bytes) (r : result dbError bytes) : Prop :=
  match r with Ok v => entry_ok L k v | Err ErrNotFound => True | Err _ => gcPrefix L `prefix_of` k -> 17 <= zlen k end.

Definition entries_ok (g : bytes -> result dbError bytes) : Prop := forall k, cell_ok k (g k).

(** The schema and its name. *)
Definition meta_of (g : bytes -> result dbError bytes) : result dbError bytes * result dbError bytes := (g keySchema, g schemaNameKey).

(** Now and after a commit; no call touches the schema. *)
Record typed (db : DB) : Prop := {
  ty_rd : entries_ok (rd db);
  ty_fin : entries_ok (fin C db);
  ty_schema : meta_of (fin C db) = meta_of (rd db);
}.

Lemma typed_read db k v : typed db -> rd db k = Ok v -> entry_ok L k v.
Proof. intros Hty E. pose proof (ty_rd _ Hty k) as H. by rewrite E in H. Qed.

(** The errors that may occur: those in [P]. *)
Context (P : lsError -> Prop).

Definition safe {A : Type} (m : M A) (Q : A -> Prop) : Prop := forall db db' r, typed db -> m db = (db', r) ->
  typed db' /\ meta_of (rd db') = meta_of (rd db) /\ match r with Ok a => Q a | Err e => P e end.

Lemma safe_weaken {A : Type} (m : M A) (Q Q' : A -> Prop) : (forall a, Q a -> Q' a) -> safe m Q -> safe m Q'.
Proof. intros HQ Hm db db' r Hty E. destruct (Hm _ _ _ Hty E) as (? & ? & ?). destruct r; auto. Qed.

Lemma safe_bind {A B : Type} (m : M A) (f : A -> M B) Q Q' : safe m Q -> (forall a, Q a -> safe (f a) Q') -> safe (m ≫= f) Q'.
Proof.
  intros Hm Hf db db' r Hty. unfold mbind, M_bind. destruct (m db) as [db1 [a|e]] eqn:E; destruct (Hm _ _ _ Hty E) as (Hty1 & Hk1 & HQ).
  - intros E2. destruct (Hf a HQ _ _ _ Hty1 E2) as (? & Hk2 & ?). split; [done|]. split; [congruence|done].
  - by intros [= <- <-].
Qed.

Lemma typed_same db db' : shed db' = shed db -> batch db' = batch db -> typed db -> typed db'.
Proof. intros H1 H2 [A1 A2 A3]. split; unfold rd, fin in *; rewrite ?H1, ?H2; done. Qed.

Lemma safe_pure {A : Type} (m : M A) (Q : A -> Prop) :
  (forall db, shed (m db).1 = shed db /\ batch (m db).1 = batch db /\ match (m db).2 with Ok a => Q a | Err e => P e end) -> safe m Q.
Proof.
  intros H db db' r Hty E. destruct (H db) as (H1 & H2 & H3). rewrite E in H1, H2, H3. cbn in H1, H2, H3.
  split; [by apply (typed_same db)|]. split; [|done]. unfold rd. by rewrite H1.
Qed.

Lemma safe_ret {A : Type} (a : A) (Q : A -> Prop) : Q a -> safe (mret a) Q.
Proof. intros H. by apply safe_pure. Qed.

Lemma safe_ignore m : safe m (fun _ => True) -> safe (ignore m) (fun _ => True).
Proof.
  intros Hm db db' r Hty. unfold ignore. destruct (m db) as [db1 x] eqn:E. intros [= <- <-].
  destruct (Hm _ _ _ Hty E) as (? & ? & _). done.
Qed.

Lemma safe_for_each {A B : Type} (f : B -> A -> M B) (I : B -> Prop) l : (forall b a, a ∈ l -> I b -> safe (f b a) I) ->
  forall b, I b -> safe (for_each f b l) I.
Proof.
  intros Hf. induction l as [|a l IH]; intros b Hb; cbn [for_each]; [by apply safe_ret|].
  eapply safe_bind; [apply Hf; [left|done]|]. intros b' Hb'. apply IH; [|done]. intros ? ? Hin. apply Hf. by right.
Qed.

Lemma bop_ok g k v : entry_ok L k v -> entries_ok g -> entries_ok (fun k' => bop_apply k' (g k') (BPut k v)).
Proof. intros Hkv Hg k'. cbn [bop_apply]. case_decide; [by subst|apply Hg]. Qed.

(** The backend fails with errors in [P]; not to find a key is no failure. *)
Context (P_get : forall (st : S) k e, bget st k = Err e -> e = ErrNotFound \/ P (errDb e)).
Context (P_put : forall (st : S) k v e, bput st k v = Err e -> P (errDb e)).
Context (P_delete : forall (st : S) k e, bdelete st k = Err e -> e = ErrNotFound \/ P (errDb e)).
Context (P_write : forall (st : S) ops e, bwrite st ops = Err e -> P (errDb e)).

Lemma safe_batch_put k v : k <> keySchema -> k <> schemaNameKey -> entry_ok L k v -> safe (in_batch (fun sb => batch_put (driver C) sb k v)) (fun _ => True).
Proof.
  intros Hk Hk' Hkv db db' r [H1 H2 H3]. unfold in_batch. destruct (batch_put (driver C) (shed db, batch db) k v) as [[st b]|e] eqn:E; intros [= <- <-].
  - assert (Hfin : forall k', fin C (set_shed db st b) k' = bop_apply k' (fin C db k') (BPut k v)) by (intros k'; apply (batch_put_final _ _ _ _ _ k' E)).
    assert (Hrd : forall k', rd (set_shed db st b) k' = rd db k' \/ k' = k /\ rd (set_shed db st b) k' = Ok v).
    { intros k'. unfold rd. cbn [shed set_shed]. revert E. unfold batch_put. destruct (driver C); [intros [= <- <-]; by left|].
      destruct (bput _ k v) as [st'|] eqn:Ep; [|done]. intros [= <- <-]. rewrite (bget_put _ _ _ _ k' Ep). cbn [bop_apply fst].
      case_decide; [right; by subst|by left]. }
    assert (Hs : meta_of (rd (set_shed db st b)) = meta_of (rd db)).
    { unfold meta_of. destruct (Hrd keySchema) as [->|[? _]], (Hrd schemaNameKey) as [->|[? _]]; congruence. }
    split; [|done]. split.
    + intros k'. destruct (Hrd k') as [Er|[-> Er]]; rewrite Er; [by apply H1|done].
    + intros k'. rewrite Hfin. by apply (bop_ok (fin C db)).
    + rewrite Hs, <- H3. unfold meta_of. rewrite !Hfin. cbn [bop_apply]. by rewrite !decide_False.
  - split; [done|]. split; [done|]. revert E. unfold batch_put. destruct (driver C); [done|].
    destruct (bput _ k v) as [st'|e'] eqn:Ep; [done|]. intros [= <-]. by eapply P_put.
Qed.

Lemma other_key f (i : Item) : (exists b, prefix f = [b] /\ 2 <= b) -> encodeKeyFunc f i <> keySchema /\ encodeKeyFunc f i <> schemaNameKey.
Proof. unfold encodeKeyFunc, keySchema, schemaNameKey, keyPrefixFields. intros (b & -> & ?). split; intros [= -> _]; lia. Qed.

Lemma safe_index_Delete f i : (exists b, prefix f = [b] /\ 2 <= b) -> safe (index_Delete C f i) (fun _ => True).
Proof.
  intros (b & Hb & H2b) db db' r [H1 H2 H3]. unfold index_Delete, in_batch.
  destruct (DeleteInBatch f (driver C) (shed db, batch db) i) as [[st bs]|e] eqn:E; intros [= <- <-].
  - assert (Hne : encodeKeyFunc f i <> keySchema /\ encodeKeyFunc f i <> schemaNameKey) by (apply other_key; eauto).
    destruct Hne as [Hne1 Hne2].
    assert (Hfin : forall k', fin C (set_shed db st bs) k' = if decide (encodeKeyFunc f i = k') then Err ErrNotFound else fin C db k')
      by (intros k'; apply (DeleteInBatch_final _ _ _ _ _ k' E)).
    assert (Hrd : forall k', rd (set_shed db st bs) k' = rd db k' \/ rd (set_shed db st bs) k' = Err ErrNotFound).
    { intros k'. unfold rd. cbn [shed set_shed]. revert E. unfold DeleteInBatch, batch_delete. destruct (driver C); [intros [= <- <-]; by left|].
      destruct (bdelete _ _) as [st'|e] eqn:Ep; cbn [mbind result_bind]; [|destruct e; try done; intros [= <- <-]; by left].
      intros [= <- <-]. rewrite (bget_delete _ _ _ k' Ep). cbn [bop_apply fst]. case_decide; auto. }
    assert (Hs : meta_of (rd (set_shed db st bs)) = meta_of (rd db)).
    { unfold meta_of. f_equal; [by apply (DeleteInBatch_reads _ _ _ _ _ keySchema E)|by apply (DeleteInBatch_reads _ _ _ _ _ schemaNameKey E)]. }
    split; [|done]. split.
    + intros k'. destruct (Hrd k') as [->| ->]; [apply H1|done].
    + intros k'. rewrite Hfin. case_decide; [done|]. apply H2.
    + rewrite Hs, <- H3. unfold meta_of. by rewrite !Hfin, !decide_False.
  - split; [done|]. split; [done|]. revert E. unfold DeleteInBatch, batch_delete. destruct (driver C); [done|].
    destruct (bdelete _ _) as [st'|e'] eqn:Ep; [done|]. cbn [mbind result_bind]. destruct (P_delete _ _ _ Ep) as [->|?]; [done|].
    destruct e'; try done; by intros [= <-].
Qed.


Lemma prefixes_bytes : Forall (fun f => exists b, prefix f = [b] /\ 2 <= b)
  [retrievalDataIndex L; retrievalAccessIndex L; transferDataIndex L; gcIndex L; pinIndex L].
Proof.
  destruct (layout_bytes _ HL) as (d & a & t & g & p & gs & bi & E & _ & _ & _ & Hb). rewrite E. repeat constructor; naive_solver.
Qed.

Definition plain (f : Index) : Prop := f ∈ [retrievalDataIndex L; retrievalAccessIndex L; gcIndex L; pinIndex L].

Lemma plain_byte f : plain f -> exists b, prefix f = [b] /\ 2 <= b.
Proof. intros H. pose proof prefixes_bytes as Hall. rewrite Forall_forall in Hall. apply Hall. unfold plain in H. set_solver. Qed.

Lemma plain_decodes f : plain f -> decodes L f.
Proof.
  unfold plain. rewrite !elem_of_cons, elem_of_nil.
  intros [->|[->|[->|[->|[]]]]]; [by apply decodes_data|by apply decodes_access|by apply decodes_gc|by apply decodes_pin].
Qed.

Lemma plain_entry f i : plain f -> entry_ok L (encodeKeyFunc f i) (EncodeValue f i).
Proof.
  unfold plain. rewrite !elem_of_cons, elem_of_nil.
  intros [->|[->|[->|[->|[]]]]]; [by apply entry_data|by apply entry_access|by apply entry_gc|by apply entry_pin].
Qed.

Lemma safe_index_Put f i : plain f -> safe (index_Put C f i) (fun _ => True).
Proof. intros Hf. apply safe_batch_put; [by apply other_key, plain_byte..|by apply plain_entry]. Qed.

Lemma Get_decodes db f i e : typed db -> decodes L f -> Shed.Get f (shed db) i = Err e -> e = ErrNotFound \/ P (errDb e).
Proof.
  intros Hty [_ Hd]. unfold Shed.Get. destruct (bget (shed db) (encodeKeyFunc f i)) as [v|e'] eqn:E; cbn [mbind result_bind].
  - specialize (Hd _ _ (typed_read _ _ _ Hty E)). by destruct (DecodeValue f v).
  - intros [= <-]. by eapply P_get.
Qed.

Lemma safe_read {A : Type} (m : M A) Q : (forall db, typed db -> (m db).1 = db /\ match (m db).2 with Ok a => Q a | Err e => P e end) -> safe m Q.
Proof. intros H db db' r Hty E. destruct (H db Hty) as [H1 H2]. rewrite E in H1, H2. cbn in H1, H2. by subst db'. Qed.

Lemma safe_index_Get f i : plain f -> safe (index_Get f i) (fun _ => True).
Proof.
  intros Hf%plain_decodes. apply safe_read. intros db Hty. unfold index_Get. destruct (Shed.Get f (shed db) i) as [o|e] eqn:E; [done|].
  destruct (Get_decodes _ _ _ _ Hty Hf E) as [->|HP]; [done|]. destruct e; done.
Qed.

Definition hashes (o : option Item) : Prop := match o with Some i => (32 | zlen (default [] (Data i))) | None => True end.

Lemma safe_transfer_Get i : safe (index_Get (transferDataIndex L) i) hashes.
Proof.
  apply safe_read. intros db Hty. unfold index_Get. destruct (Shed.Get _ (shed db) i) as [o|e] eqn:E.
  - split; [done|]. cbn. revert E. unfold Shed.Get. destruct (bget (shed db) _) as [v|e'] eqn:Eg; [|done]. cbn. intros [= <-]. cbn.
    apply (eo_transfer _ _ _ (typed_read _ _ _ Hty Eg)). by eexists.
  - destruct (Get_decodes _ _ _ _ Hty (decodes_transfer L HL) E) as [->|HP]; [done|]. destruct e; done.
Qed.

Lemma safe_index_Has f i : safe (index_Has f i) (fun _ => True).
Proof.
  apply safe_read. intros db Hty. unfold index_Has, mbind, M_bind, get_state, lift, Shed.Has. destruct (bget (shed db) _) as [v|e] eqn:E; [done|].
  destruct (P_get _ _ _ E) as [->|HP]; [done|]. destruct e; done.
Qed.

Lemma Field_Get_ok db key e : typed db -> key = gcSizeKey L \/ binIDsKey L `prefix_of` key -> Field_Get (shed db) key = Err e -> P (errDb e).
Proof.
  intros Hty Hk. unfold Field_Get. destruct (bget (shed db) key) as [v|e'] eqn:E.
  - destruct (BE_Uint64_total v 0) as [x Hx]; [apply (eo_field _ _ _ (typed_read _ _ _ Hty E)) in Hk; lia|]. rewrite drop_0 in Hx. by rewrite Hx.
  - destruct (P_get _ _ _ E) as [->|HP]; [done|]. destruct e'; try done; by intros [= <-].
Qed.

Lemma safe_Field_Get key : key = gcSizeKey L \/ binIDsKey L `prefix_of` key ->
  safe (db ← get_state (fun db => db); lift (Field_Get (shed db) key)) (fun _ => True).
Proof.
  intros Hk. apply safe_read. intros db Hty. unfold mbind, M_bind, get_state, lift. split; [done|]. cbn.
  destruct (Field_Get (shed db) key) as [x|e] eqn:E; [done|]. by apply (Field_Get_ok db key).
Qed.

Lemma safe_NewBatch : safe NewBatch (fun _ => True).
Proof.
  intros db db' r [H1 H2 H3] [= <- <-]. split; [|done]. split; [done| |unfold meta_of; by rewrite !NewBatch_fin].
  intros k. rewrite NewBatch_fin. apply H1.
Qed.

Lemma safe_Commit : safe (batch_Commit C) (fun _ => True).
Proof.
  intros db db' r [H1 H2 H3]. unfold batch_Commit. destruct (Commit (driver C) (shed db, batch db)) as [st|e] eqn:E; intros [= <- <-].
  - assert (Hrd : forall k, rd (set_shed db st []) k = fin C db k) by (intros k; apply (Commit_final _ _ _ k E)).
    assert (Hfin : forall k, fin C (set_shed db st []) k = fin C db k) by (intros k; rewrite <- Hrd; apply (NewBatch_fin C (set_shed db st []))).
    split; [|split; [|done]]; [split|unfold meta_of in *; by rewrite !Hrd].
    + intros k. rewrite Hrd. apply H2.
    + intros k. rewrite Hfin. apply H2.
    + unfold meta_of. by rewrite !Hfin, !Hrd.
  - split; [done|]. split; [done|]. revert E. unfold Commit. destruct (driver C); [|done]. by intros ?%P_write.
Qed.

(** ** The operations of [Put] that do not pin *)

Abbreviation fine m := (safe m (fun _ => True)).

Lemma plain_data : plain (retrievalDataIndex L).
Proof. unfold plain. set_solver. Qed.
Lemma plain_access : plain (retrievalAccessIndex L).
Proof. unfold plain. set_solver. Qed.
Lemma plain_gc : plain (gcIndex L).
Proof. unfold plain. set_solver. Qed.
Lemma plain_pin : plain (pinIndex L).
Proof. unfold plain. set_solver. Qed.
Hint Resolve plain_data plain_access plain_gc plain_pin : core.

Ltac safe_step :=
  match goal with
  | |- safe (_ ≫= _) _ => apply (safe_bind _ _ (fun _ => True)); [|intros ? _]
  | |- safe (mret _) _ => by apply safe_ret
  | |- safe (now _) _ => by apply safe_pure
  | |- safe (getMemory _) _ => by apply safe_pure
  | |- safe (get_state _) _ => by apply safe_pure
  | |- safe (updateGCItems _) _ => by apply safe_pure
  | |- safe Unlock _ => by apply safe_pure
  | |- safe (mark_dirty _) _ => apply safe_pure; intros ?; unfold mark_dirty; by case_match
  | |- safe triggerGarbageCollection _ => by apply safe_pure
  | |- safe triggerGarbageMemoryCollection _ => by apply safe_pure
  | |- safe NewBatch _ => apply safe_NewBatch
  | |- safe (batch_Commit _) _ => apply safe_Commit
  | |- safe (index_Get _ _) _ => by apply safe_index_Get
  | |- safe (index_Has _ _) _ => apply safe_index_Has
  | |- safe (index_Put _ _ _) _ => by apply safe_index_Put
  | |- safe (index_Delete _ _ _) _ => by apply safe_index_Delete, plain_byte
  | |- safe (ignore _) _ => apply safe_ignore
  | |- safe (for_each _ _ _) _ => apply safe_for_each; [intros ? ? _ _|done]
  | |- safe (let '(_, _) := ?x in _) _ => destruct x
  | |- safe (match ?x with _ => _ end) _ => destruct x
  | |- safe ((fun _ => _) _) _ => cbv beta
  | |- safe (let _ := _ in _) _ => cbv zeta
  end.
Ltac safe_auto := repeat safe_step.

Lemma fine_incBinID m p : fine (incBinID C m p).
Proof.
  unfold incBinID. apply (safe_bind _ _ (fun _ => True)); [|intros ? _; safe_auto]. destruct (m !! p); [safe_auto|].
  apply safe_Field_Get. right. by eexists.
Qed.

(** What [Has] finds is found by [Get]. *)
Lemma safe_has_get {A B : Type} f i (yes : Item -> M A) (no : M A) (rest : bool -> A -> M B) (Qg : option Item -> Prop) (Q1 : A -> Prop) (Q : B -> Prop) :
  safe (index_Get f i) Qg -> (forall x, Qg (Some x) -> safe (yes x) Q1) -> safe no Q1 -> (forall b a, Q1 a -> safe (rest b a) Q) ->
  safe (b ← index_Has f i;
        a ← (if b : bool then o ← index_Get f i; match o with None => fail (errDb ErrNotFound) | Some x => yes x end else no);
        rest b a) Q.
Proof.
  intros Hget Hyes Hno Hrest db db' r Hty. unfold mbind at 1. unfold M_bind at 1.
  destruct (index_Has f i db) as [db1 [b|e]] eqn:E; destruct (safe_index_Has _ _ _ _ _ Hty E) as (Hty1 & Hk1 & HP); [|by intros [= <- <-]].
  assert (db1 = db) as -> by (by injection E). destruct b; [|pose proof (safe_bind _ _ _ _ Hno (Hrest false)) as Hs; by apply Hs].
  unfold mbind at 1, M_bind at 1. unfold mbind at 1, M_bind at 1. destruct (index_Get f i db) as [db2 o] eqn:Eg.
  destruct (Hget _ _ _ Hty Eg) as (_ & _ & HQ). assert (db2 = db) as ->.
  { revert Eg. unfold index_Get. repeat case_match; congruence. }
  destruct o as [[x|]|e]; [|exfalso|by intros [= <- <-]].
  - pose proof (safe_bind _ _ _ _ (Hyes x HQ) (Hrest true)) as Hs. apply Hs. done.
  - revert E Eg. unfold index_Has, mbind, M_bind, get_state, lift, index_Get, Shed.Has, Shed.Get.
    destruct (bget (shed db) (encodeKeyFunc f i)) as [v|[]] eqn:Eb; try done. cbn. by destruct (DecodeValue f v).
Qed.

Lemma fine_putUpload m i : fine (putUpload C m i).
Proof.
  unfold putUpload. apply (safe_has_get _ _ (fun x => mret (m, set_Counter (set_Type x _) (u64 (Counter x + 1)))) _ _ (fun _ => True) (fun _ => True));
    [by apply safe_index_Get|intros; safe_auto| |intros b [bin x] _; safe_auto].
  safe_auto. apply fine_incBinID.
Qed.

Lemma fine_setGC i : fine (setGC C i).
Proof. unfold setGC. safe_auto. Qed.

Lemma fine_putTransfer a ch : (32 | zlen ch) -> fine (putTransfer C a ch).
Proof.
  intros Hch. unfold putTransfer. eapply (safe_has_get _ _ (fun x => mret x) _ (fun _ _ => _) hashes (fun i => hashes (Some i))).
  - apply safe_transfer_Get.
  - intros x Hx. by apply safe_ret.
  - apply safe_ret. cbn. apply Z.divide_0_r.
  - intros _ i Hi. pose proof prefixes_bytes as Hall. rewrite !Forall_cons in Hall.
    apply safe_batch_put; [apply other_key, Hall..|]. apply entry_transfer; [done|]. cbn. rewrite length_app, Nat2Z.inj_add. by apply Z.divide_add_r.
Qed.

Lemma fine_Field_PutInBatch key x v : key = gcSizeKey L \/ key = binIDsKey L -> fine (in_batch (fun sb => Field_PutInBatch (driver C) sb (key ++ x) v)).
Proof.
  intros Hk. assert (Hh : head key = Some keyPrefixFields) by (destruct Hk as [-> | ->]; apply (lo_heads _ HL)).
  apply safe_batch_put; [| |by apply entry_field]; destruct HL as [_ _ [H1 H2]]; rewrite H1, H2 in Hk; by destruct Hk as [-> | ->].
Qed.

Lemma safe_lift {A B : Type} (g : S -> result dbError A) (rest : A -> M B) Q :
  (forall db e, typed db -> g (shed db) = Err e -> P (errDb e)) -> (forall a, safe (rest a) Q) ->
  safe (db ← get_state (fun db => db); a ← lift (g (shed db)); rest a) Q.
Proof.
  intros Hg Hrest db db' r Hty. unfold mbind, M_bind, get_state, lift. destruct (g (shed db)) as [a|e] eqn:E; [by apply Hrest|].
  intros [= <- <-]. split; [done|]. split; [done|]. by apply (Hg db).
Qed.

Lemma fine_incGCSize c : fine (incGCSizeInBatch C c).
Proof.
  unfold incGCSizeInBatch. case_match; [safe_auto|]. apply (safe_lift (fun st => Field_Get st (gcSizeKey L))).
  { intros db e Hty. by apply (Field_Get_ok db); [|left]. }
  intros gcSize. case_match; [safe_auto|]. cbv zeta. safe_auto.
  rewrite <- (app_nil_r (gcSizeKey L)). apply fine_Field_PutInBatch. by left.
Qed.

Lemma fine_write_binIDs m : fine (write_binIDs C m).
Proof. unfold write_binIDs. safe_auto. apply fine_Field_PutInBatch. by right. Qed.

Definition pins (mode : ModePut) : bool := match mode with ModePutUploadPin | ModePutRequestPin => true | _ => false end.

Lemma fine_put_chunk mode root acc ch : pins mode = false -> mode <> otherPut -> (32 | zlen (addr ch)) -> fine (put_chunk C mode root acc ch).
Proof.
  intros Hp Ho Hch. unfold put_chunk, putRequest, preserveOrCache. destruct acc as [[bin exs] c].
  destruct mode; try done; safe_auto; first [apply fine_putUpload|apply fine_setGC|by apply fine_putTransfer].
Qed.

(** What a call does once it holds the lock. *)
Definition safe_unlocked {A : Type} (m : M A) (Q : A -> Prop) : Prop := forall db db' r, typed db -> batchMu db = false -> m db = (db', r) ->
  typed db' /\ meta_of (rd db') = meta_of (rd db) /\ batchMu db' = false /\ match r with Ok a => Q a | Err e => P e end.

Lemma safe_locked {A : Type} (m : M A) Q : safe m Q -> safe_unlocked (locked m) Q.
Proof.
  intros Hm db db' r Hty Hb. unfold locked. rewrite Hb. destruct (m (set_batchMu db true)) as [db1 r1] eqn:E. intros [= <- <-].
  destruct (Hm _ _ _ (typed_same db (set_batchMu db true) eq_refl eq_refl Hty) E) as (Hty1 & Hk & HQ). split; [by apply (typed_same db1)|]. done.
Qed.

Lemma put_unlocked mode root chs : pins mode = false -> mode <> otherPut -> Forall (fun ch => (32 | zlen (addr ch))) chs ->
  safe_unlocked (put C mode root chs) (fun _ => True).
Proof.
  intros Hp Ho Hchs. apply safe_locked. safe_step; [safe_auto|]. safe_step; [safe_auto|]. safe_step; [destruct mode; [safe_auto..|done]|].
  apply (safe_bind _ _ (fun _ => True)).
  { apply safe_for_each; [|done]. intros b ch Hin _. apply fine_put_chunk; [done..|]. rewrite Forall_forall in Hchs. auto. }
  intros [[bin exs] c] _. safe_step; [apply fine_write_binIDs|]. safe_step; [apply fine_incGCSize|]. safe_auto.
Qed.

(** ** All other operations *)

Section All.
Context (P_all : forall e, e <> errDb errPanic -> P e).

Lemma safe_fail {A : Type} e (Q : A -> Prop) : e <> errDb errPanic -> safe (fail e) Q.
Proof. intros He. apply safe_pure. intros db. split; [done|]. split; [done|]. by apply P_all. Qed.

Lemma fold_bop k ops : (forall r, foldl (bop_apply k) r ops = r) \/ exists c, forall r, foldl (bop_apply k) r ops = c.
Proof.
  induction ops as [|o ops IH] using rev_ind; [by left|]. destruct o as [k' v|k']; destruct (decide (k' = k)) as [->|Hk].
  - right. exists (Ok v). intros r. rewrite foldl_app. cbn. by rewrite decide_True.
  - destruct IH as [IH|[c IH]]; [left|right; exists c]; intros r; rewrite foldl_app, IH; cbn; by rewrite decide_False.
  - right. exists (Err ErrNotFound). intros r. rewrite foldl_app. cbn. by rewrite decide_True.
  - destruct IH as [IH|[c IH]]; [left|right; exists c]; intros r; rewrite foldl_app, IH; cbn; by rewrite decide_False.
Qed.

(** A write past the batch. *)
Lemma fine_direct i : fine ((fun db => match Shed.Put (gcIndex L) (shed db) i with
  | Ok st => (set_shed db st (batch db), Ok tt) | Err e => (db, Err (errDb e)) end) : M unit).
Proof.
  intros db db' r [H1 H2 H3]. cbv beta. destruct (Shed.Put (gcIndex L) (shed db) i) as [st|e] eqn:E; intros [= <- <-].
  - pose proof (plain_entry _ i plain_gc) as Hkv. destruct (other_key _ i (plain_byte _ plain_gc)) as [Hh1 Hh2].
    assert (Hrd : forall k, rd (set_shed db st (batch db)) k = bop_apply k (rd db k) (BPut (encodeKeyFunc (gcIndex L) i) (EncodeValue (gcIndex L) i)))
      by (intros k; apply (bget_put _ _ _ _ k E)).
    assert (Hrk : meta_of (rd (set_shed db st (batch db))) = meta_of (rd db)) by (unfold meta_of; rewrite !Hrd; cbn [bop_apply]; by rewrite !decide_False).
    assert (Hfin : forall k, fin C (set_shed db st (batch db)) k = rd (set_shed db st (batch db)) k \/ fin C (set_shed db st (batch db)) k = fin C db k).
    { intros k. unfold fin, final, rd. cbn [shed batch set_shed fst snd]. destruct (driver C); [|by left].
      destruct (fold_bop k (batch db)) as [Ef|[c Ef]]; rewrite !Ef; auto. }
    assert (Hok : entries_ok (rd (set_shed db st (batch db)))) by (intros k; rewrite Hrd; by apply (bop_ok (rd db))).
    split; [|done]. split; [done| |].
    + intros k. destruct (Hfin k) as [Ef|Ef]; rewrite Ef; [by apply Hok|by apply H2].
    + injection H3 as H3 H4. injection Hrk as H5 H6. unfold meta_of. destruct (Hfin keySchema) as [-> | ->], (Hfin schemaNameKey) as [-> | ->]; congruence.
  - split; [done|]. split; [done|]. by eapply P_put.
Qed.

Lemma safe_locked_all {A : Type} (m : M A) Q : safe m Q -> safe (locked m) Q.
Proof.
  intros Hm db db' r Hty E. destruct (batchMu db) eqn:Hb.
  - unfold locked in E. rewrite Hb in E. injection E as <- <-. split; [done|]. split; [done|]. by apply P_all.
  - destruct (safe_locked m Q Hm db db' r Hty Hb E) as (? & ? & _ & ?). done.
Qed.

Lemma fine_Lock : fine Lock.
Proof. apply safe_pure. intros db. unfold Lock. destruct (batchMu db); repeat split. by apply P_all. Qed.

Lemma fine_RemoveAll t a : fine (chunks_RemoveAll t a).
Proof.
  apply safe_pure. intros db. unfold chunks_RemoveAll. destruct (ChunkStore.RemoveAll _ _ _) as [cs [u|e]]; repeat split. by apply P_all.
Qed.

Ltac all_step :=
  match goal with
  | |- safe (fail _) _ => by apply safe_fail
  | |- safe (locked _) _ => apply safe_locked_all
  | |- safe Lock _ => apply fine_Lock
  | |- safe (putUpload _ _ _) _ => apply fine_putUpload
  | |- safe (setGC _ _) _ => apply fine_setGC
  | |- safe (incGCSizeInBatch _ _) _ => apply fine_incGCSize
  | |- safe (write_binIDs _ _) _ => apply fine_write_binIDs
  | |- safe (fun db => match Shed.Put _ _ _ with Ok _ => _ | Err _ => _ end) _ => apply fine_direct
  | |- safe (chunks_RemoveAll _ _) _ => apply fine_RemoveAll
  | |- safe (HasChunkBit _ _) _ => apply safe_pure; intros ?; unfold HasChunkBit; cbn; repeat split; repeat case_match; simplify_eq; first [done|by apply P_all]
  | |- safe (index_Delete _ (transferDataIndex _) _) _ => apply safe_index_Delete, (proj1 (Forall_forall _ _) prefixes_bytes); set_solver
  | |- safe _ _ => safe_step
  end.
Ltac all_auto := repeat all_step.

Lemma fine_setPin i r : fine (setPin C i r).
Proof. unfold setPin. all_auto. Qed.

Lemma fine_gcRemove i : fine (gcRemove C i).
Proof. unfold gcRemove, complete_root, deleteFile. all_auto. Qed.

Lemma fine_setRemove a r : fine (setRemove C a r).
Proof. unfold setRemove. all_auto; apply fine_gcRemove. Qed.

Lemma fine_set_addr mode root c a : fine (set_addr C mode root c a).
Proof. unfold set_addr, setSync, setUnpin. all_auto; [apply fine_setRemove|apply fine_setPin]. Qed.

Lemma all_put_chunk mode root acc ch : (32 | zlen (addr ch)) -> fine (put_chunk C mode root acc ch).
Proof.
  intros Hch. unfold put_chunk, putRequest, preserveOrCache. destruct acc as [[bin exs] c].
  destruct mode; all_auto; first [apply fine_setPin|by apply fine_putTransfer].
Qed.

Lemma all_put mode root chs : Forall (fun ch => (32 | zlen (addr ch))) chs -> fine (put C mode root chs).
Proof.
  intros Hchs. apply safe_locked_all. all_step; [all_auto|]. all_step; [all_auto|]. all_step; [all_auto|].
  apply (safe_bind _ _ (fun _ => True)).
  { apply safe_for_each; [|done]. intros b ch Hin _. apply all_put_chunk. rewrite Forall_forall in Hchs. auto. }
  intros [[bin exs] c] _. all_auto.
Qed.

Lemma all_set mode root l : fine (set C mode root l).
Proof. apply safe_locked_all. all_auto. apply fine_set_addr. Qed.

Lemma safe_of_result {A : Type} (r : result lsError A) (Q : A -> Prop) : (match r with Ok a => Q a | Err e => P e end) -> safe (of_result r) Q.
Proof. intros H. by apply safe_pure. Qed.

(** [getAllChunks] reads well-formed entries only. *)
Lemma split_hashes_err fuel data e : split_hashes fuel data = Err e -> e <> errDb errPanic.
Proof.
  revert data e. induction fuel as [|fuel IH]; intros [|x data] e; cbn [split_hashes]; try done; [by intros [= <-]|].
  case_match; [by intros [= <-]|]. cbv zeta. destruct (split_hashes fuel _) as [l|e'] eqn:E; cbn; [done|]. intros [= <-]. by eapply IH.
Qed.

Lemma walk_refs_err (g : bytes -> result lsError (list bytes)) : (forall a e, g a = Err e -> P e) ->
  forall fuel data e, walk_refs g fuel data = Err e -> P e.
Proof.
  intros Hg. induction fuel as [|fuel IH]; intros [|x data] e; cbn [walk_refs]; try done; [intros [= <-]; by apply P_all|].
  case_match; [intros [= <-]; by apply P_all|]. cbv zeta. case_bool_decide; cbn [mbind result_bind].
  - destruct (walk_refs g fuel _) as [l|e'] eqn:E; cbn; [done|]. intros [= <-]. by eapply IH.
  - destruct (g _) as [ps|e'] eqn:Eg; cbn [mbind result_bind]; [|intros [= <-]; by eapply Hg].
    destruct (walk_refs g fuel _) as [l|e'] eqn:E; cbn; [done|]. intros [= <-]. by eapply IH.
Qed.

Lemma walk_nodes_err (g : bytes -> result lsError (list bytes)) nodes : forall e, walk_nodes g nodes = Err e -> P e.
Proof.
  induction nodes as [|n nodes IH]; intros e; cbn [walk_nodes]; [done|].
  destruct (g (address n)) as [ps|e'] eqn:Eg; [|destruct e']; cbn [mbind result_bind]; try (intros [= <-]; by apply P_all);
    destruct (walk_nodes g nodes) as [l|e2]; cbn; try done; intros [= <-]; by apply IH.
Qed.

Lemma getChunk_err db : typed db -> forall fuel ch t e, getChunk C fuel (shed db) ch t = Err e -> P e.
Proof.
  intros Hty. induction fuel as [|fuel IH]; intros ch t e; cbn [getChunk]; [intros [= <-]; by apply P_all|].
  destruct (Shed.Get _ _ _) as [item|e'] eqn:E.
  2:{ destruct (Get_decodes _ _ _ _ Hty (decodes_data L HL) E) as [->|HP]; [done|]. destruct e'; try done; by intros [= <-]. }
  cbv zeta. case_match; [intros [= <-]; by apply P_all|]. case_match; [done|].
  assert (Hstep : forall nodes, (forks ← walk_nodes (fun a => getChunk C fuel (shed db) a false) nodes;
    if match nodes with [] => false | _ => true end then Ok (forks ++ [ch])
    else subs ← walk_refs (fun a => getChunk C fuel (shed db) a true) (length (drop 8 (default [] (Data item)))) (drop 8 (default [] (Data item)));
      Ok (forks ++ ch :: subs)) = Err e -> P e).
  { intros nodes. destruct (walk_nodes _ nodes) as [forks|e'] eqn:Ew; cbn [mbind result_bind]; [|intros [= <-]; by eapply walk_nodes_err].
    case_match; [done|]. destruct (walk_refs _ _ _) as [subs|e'] eqn:Er; cbn [mbind result_bind]; [done|].
    intros [= <-]. eapply walk_refs_err; [|exact Er]. intros a e. apply IH. }
  case_match; cbn [mbind result_bind]; [|apply (Hstep [])]. case_match; [|intros [= <-]; by apply P_all]. cbn [mbind result_bind]. apply Hstep.
Qed.

Lemma getAllChunks_err db fuel root e : typed db -> getAllChunks C fuel (shed db) root = Err e -> P e.
Proof.
  intros Hty. unfold getAllChunks. destruct (getTransfer C (shed db) root); [intros ?%split_hashes_err; by apply P_all|].
  destruct (getChunk _ _ _ _ _) as [l|e'] eqn:E; [done|]. assert (HP : P e') by (by eapply getChunk_err).
  destruct e' as [[]| | | | | | |]; intros [= <-]; try done. by apply P_all.
Qed.

(** A step that reads the store. *)
Lemma safe_state {A : Type} (f : DB -> M A) Q : (forall db, typed db -> safe (f db) Q) -> safe (db ← get_state (fun db => db); f db) Q.
Proof. intros Hf db db' r Hty. unfold mbind, M_bind, get_state. by apply (Hf db Hty). Qed.

Lemma all_commonDelete fuel item : fine (commonDelete C fuel item).
Proof.
  unfold commonDelete. cbv zeta. all_step; [by apply safe_pure|]. all_step.
  { apply safe_pure. intros db. destruct (FileStore.Delete _ _) as [fs [u|e]]; repeat split. by apply P_all. }
  apply safe_locked_all. all_step; [all_auto|]. cbv zeta. apply safe_state. intros db Hty.
  apply (safe_bind (of_result (getAllChunks C fuel (shed db) (key_bytes item))) _ (fun _ => True)).
  - apply safe_of_result. destruct (getAllChunks _ _ _ _) as [l|e] eqn:E; [done|]. by eapply getAllChunks_err.
  - intros l _. unfold setRemoveTransfer. all_auto. apply fine_setRemove.
Qed.

Lemma all_updateGC i : fine (updateGC C i).
Proof. apply safe_locked_all. unfold gc_entry. all_auto. Qed.

Lemma all_run_update k : fine (run_update C k).
Proof.
  intros db db' r Hty. unfold run_update. destruct (updates db !! k) as [items|]; [|by intros [= <- <-]].
  intros E. assert (Hs : fine (for_each (fun _ item => ignore (updateGC C item)) tt items)).
  { all_auto. apply all_updateGC. }
  apply (Hs _ _ _ (typed_same db (set_updates db (delete k (updates db))) eq_refl eq_refl Hty) E).
Qed.

Lemma all_get mode a root k : fine (get C mode a root k).
Proof. unfold get. all_auto. Qed.

Lemma safe_translate {A : Type} (m : M A) Q : safe m Q -> safe (translate m) Q.
Proof.
  intros Hm db db' r Hty. unfold translate. destruct (m db) as [db1 [a|e]] eqn:E; destruct (Hm _ _ _ Hty E) as (? & ? & ?); [by intros [= <- <-]|].
  destruct e as [[]| | | | | | |]; intros [= <- <-]; try done. split; [done|]. split; [done|]. by apply P_all.
Qed.

Lemma all_Get mode a root k : fine (Get C mode a root k).
Proof. unfold Get. all_step; [apply safe_translate, all_get|]. all_auto. Qed.

Lemma all_Has mode a : fine (Has C mode a).
Proof. unfold Has. all_auto. Qed.

Lemma Fill_err db f items e : typed db -> decodes L f -> Fill f (shed db) items = Err e -> e = ErrNotFound \/ P (errDb e).
Proof.
  intros Hty Hf. induction items as [|i items IH]; cbn [Fill]; [done|]. destruct (Shed.Get f (shed db) i) as [x|e'] eqn:E; cbn [mbind result_bind].
  - destruct (Fill f (shed db) items); cbn; [done|]. intros [= <-]. by apply IH.
  - intros [= <-]. by eapply Get_decodes.
Qed.

Lemma all_getMulti mode l : fine (getMulti C mode l).
Proof.
  assert (Hfill : forall db f items e, typed db -> plain f -> Fill f (shed db) items = Err e -> P (errDb e)).
  { intros db f items e Hty Hf%plain_decodes E. destruct (Fill_err _ _ _ _ Hty Hf E) as [->|]; [by apply P_all|done]. }
  unfold getMulti. apply safe_state. intros db Hty. apply (safe_bind _ _ (fun _ => True)).
  { apply safe_pure. intros db1. unfold lift. repeat split. cbn. case_match eqn:E; [done|]. case_match eqn:E2; simplify_eq.
    by eapply (Hfill db (retrievalDataIndex L)). }
  intros out _. destruct mode; all_auto. apply safe_pure. intros db1. unfold lift. repeat split. cbn. case_match eqn:E; [done|].
  case_match eqn:E2; simplify_eq. by eapply (Hfill db (pinIndex L)).
Qed.

Lemma all_ChunkCounter fuel reference : fine (ChunkCounter C fuel reference).
Proof.
  unfold ChunkCounter. apply safe_state. intros db Hty.
  apply (safe_bind (of_result (getChunk C fuel (shed db) reference true)) _ (fun _ => True)).
  - apply safe_of_result. destruct (getChunk _ _ _ _ _) as [l|e] eqn:E; [done|]. by eapply getChunk_err.
  - intros l _. all_auto. intros db1 db2 r Hty1. destruct (batch_Commit C db1) as [db3 r3] eqn:E. intros [= <- <-].
    destruct (safe_Commit _ _ _ Hty1 E) as (Hty3 & Hk3 & HQ). split; [by apply (typed_same db3)|]. done.
Qed.

(** *** Garbage collection *)

Lemma gc_item_err db k e : typed db -> k ∈ bkeys (shed db) -> gcPrefix L `prefix_of` k -> itemFromIterator (gcIndex L) (shed db) k = Err e -> P (errDb e).
Proof.
  intros Hty Hin%bkeys_spec Hp.
  assert (Hk : 17 <= zlen k).
  { pose proof (ty_rd _ Hty k) as H. unfold cell_ok, rd in H. destruct (bget (shed db) k) as [v|[]]; try done; by apply H. }
  unfold itemFromIterator, decodeKeyFunc, DecodeKey, gcIndex.
  destruct (BE_Uint64_total (drop 1 k) 0) as [x Hx]; [rewrite length_drop; lia|]. rewrite drop_0 in Hx. rewrite Hx. cbn [mbind option_bind].
  destruct (BE_Uint64_total (drop 1 k) 8) as [y ->]; [rewrite length_drop; lia|]. cbn [mbind option_bind of_panic result_bind].
  destruct (bget (shed db) k) as [v|e'] eqn:E; cbn [mbind result_bind].
  - destruct (BE_Uint64_total v 0) as [z Hz]; [pose proof (eo_gc _ _ _ (typed_read _ _ _ Hty E) Hp); lia|]. rewrite drop_0 in Hz. cbn [DecodeValue]. by rewrite Hz.
  - intros [= <-]. destruct (P_get _ _ _ E) as [->|?]; done.
Qed.

Lemma iterate_gc {X : Type} db (fn : X -> Item -> result unit (X * bool)) x e : typed db -> (forall x i, exists r, fn x i = Ok r) ->
  (Iterate (gcIndex L) (shed db) fn noOptions x).2 = Some e -> exists e', e = iterDb e' /\ P (errDb e').
Proof.
  intros Hty Hfn. unfold noOptions. rewrite Iterate_visits by done. cbn [prefix gcIndex]. rewrite app_nil_r.
  set (keys := filter _ _). assert (Hall : forall k, k ∈ keys -> k ∈ bkeys (shed db) /\ gcPrefix L `prefix_of` k).
  { intros k. unfold keys. rewrite list_elem_of_filter. tauto. }
  clearbody keys. revert x. induction keys as [|k keys IH]; intros x; cbn [iterate_loop]; [done|].
  case_match; [|done]. destruct (itemFromIterator _ _ _) as [item|e'] eqn:E.
  - destruct (Hfn x item) as [[x' []] ->]; [done|]. apply IH. intros k' Hk'. apply Hall. by right.
  - intros [= <-]. eexists. split; [done|]. destruct (Hall k) as [H1 H2]; [left|]. by apply (gc_item_err db k).
Qed.

Lemma fine_of_iter {X : Type} db (fn : X -> Item -> result unit (X * bool)) x : typed db -> (forall x i, exists r, fn x i = Ok r) ->
  fine (of_iter (Iterate (gcIndex L) (shed db) fn noOptions x)).
Proof.
  intros Hty Hfn. apply safe_pure. intros db1. unfold of_iter. split; [done|]. split; [done|]. cbn [fst snd].
  destruct ((Iterate (gcIndex L) (shed db) fn noOptions x).2) as [e|] eqn:E; [|done].
  destruct (iterate_gc db fn x e Hty Hfn E) as (e' & -> & HP). done.
Qed.

Lemma gc_candidate_total n t x i : exists r, gc_candidate n t x i = Ok r.
Proof. unfold gc_candidate. destruct x as [l c]. case_match; by eexists. Qed.

Lemma fine_gc_files fuel l : forall r, (match r with Ok _ => True | Err e => P e end) -> fine (gc_files C fuel l r).
Proof.
  induction l as [|i l IH]; intros r0 Hr; cbn [gc_files]; [by apply safe_pure|]. intros db db' r Hty.
  unfold gcFile. destruct (commonDelete C fuel i db) as [db1 r1] eqn:E. destruct (all_commonDelete fuel i _ _ _ Hty E) as (Hty1 & Hk & HQ).
  intros E1. destruct (IH r1 HQ _ _ _ Hty1 E1) as (? & Hk2 & ?). split; [done|]. split; [congruence|done].
Qed.

Lemma fine_gc_run {A : Type} (m : M A) : fine m -> fine (gc_run m).
Proof.
  intros Hm. apply (safe_bind _ _ (fun _ => True)); [by apply safe_locked_all, safe_pure|intros _ _].
  assert (Hend : fine (gc_end (S := S) (S2 := S2))) by (by apply safe_locked_all, safe_pure).
  intros db db' r Hty. unfold then_end. destruct (m db) as [db1 r1] eqn:E. destruct (Hm _ _ _ Hty E) as (Hty1 & Hk1 & HQ1).
  destruct (gc_end db1) as [db2 r2] eqn:E2. destruct (Hend _ _ _ Hty1 E2) as (Hty2 & Hk2 & HQ2). rewrite Hk1 in Hk2.
  destruct r1 as [a|e]; [|destruct e]; destruct r2; intros [= <- <-]; done.
Qed.

Lemma all_collectGarbage fuel : fine (collectGarbage C fuel).
Proof.
  apply fine_gc_run, safe_state. intros db Hty. apply (safe_bind _ _ (fun _ => True)).
  { apply safe_pure. intros db1. unfold lift. repeat split. cbn. destruct (Field_Get _ _) as [n|e] eqn:E; [done|]. by apply (Field_Get_ok db (gcSizeKey L) e Hty); [left|]. }
  intros gcSize _. cbv zeta. case_match; [all_auto|]. apply (safe_bind _ _ (fun _ => True)).
  { apply fine_of_iter; [done|]. apply gc_candidate_total. }
  intros [l c] _. all_step; [by apply fine_gc_files|]. all_auto.
Qed.

Lemma all_collectMemoryGarbage fuel : fine (collectMemoryGarbage C fuel).
Proof.
  apply fine_gc_run. all_step; [all_auto|]. apply safe_state. intros db Hty. case_match; [all_auto|]. cbv zeta. all_step; [by apply safe_pure|].
  destruct (Iterate _ _ _ _ _) as [[l c] o]. all_step; [apply safe_ignore; by apply fine_gc_files|]. all_auto.
Qed.
End All.
End Types.

(** ** Calls *)

(** A database whose operations do not panic, and one whose operations do not fail. *)
Class Steady (S : Type) `{BE : Backend S} := {
  steady_get : forall st k, bget st k <> Err errPanic;
  steady_put : forall st k v, bput st k v <> Err errPanic;
  steady_delete : forall st k, bdelete st k <> Err errPanic;
  steady_write : forall st ops, bwrite st ops <> Err errPanic;
}.

Class Reliable (S : Type) `{BE : Backend S} := {
  reliable_get : forall st k e, bget st k = Err e -> e = ErrNotFound;
  reliable_put : forall st k v, exists st', bput st k v = Ok st';
  reliable_delete : forall st k e, bdelete st k = Err e -> e = ErrNotFound;
  reliable_write : forall st ops, exists st', bwrite st ops = Ok st';
}.

Inductive call :=
| CPut (mode : ModePut) (root : bytes) (chs : list chunk)
| CSet (mode : ModeSet) (root : bytes) (addrs : list bytes)
| CDelete (fuel : nat) (reference : bytes)
| CGet (mode : ModeGet) (a root : bytes) (index : Z)
| CGetMulti (mode : ModeGet) (addrs : list bytes)
| CHas (mode : ModeHas) (a : bytes)
| CCounter (fuel : nat) (reference : bytes)
| CUpdate (k : nat)
| CCollect (fuel : nat)
| CCollectMemory (fuel : nat).

(** Chunks have addresses of 32 bytes. *)
Definition call_ok (c : call) : Prop := match c with CPut _ _ chs => Forall (fun ch => length (addr ch) = 32%nat) chs | _ => True end.

Section Calls.
Context {S : Type} `{BE : Backend S}.
Context {S2 V : Type} `{ST : StateStorer S2 V} `{CB' : Codec BitVector V} `{CF : Codec FileView V} `{CM : Codec FileMirror V}.
Context (C : Config) (HL : layout_ok (layout C)).

Abbreviation DB := (DB (S := S) (S2 := S2)).

Definition result_error {A : Type} (p : DB * result lsError A) : DB * option lsError :=
  (p.1, match p.2 with Ok _ => None | Err e => Some e end).

Definition exec (c : call) (db : DB) : DB * option lsError :=
  match c with
  | CPut mode root chs => result_error (Put C mode root chs db)
  | CSet mode root addrs => result_error (Set_ C mode root addrs db)
  | CDelete fuel reference => result_error (DeleteFile C fuel reference db)
  | CGet mode a root index => result_error (Get C mode a root index db)
  | CGetMulti mode addrs => result_error (GetMulti C mode addrs db)
  | CHas mode a => result_error (Has C mode a db)
  | CCounter fuel reference => result_error (ChunkCounter C fuel reference db)
  | CUpdate k => result_error (run_update C k db)
  | CCollect fuel => result_error (collectGarbage C fuel db)
  | CCollectMemory fuel => result_error (collectMemoryGarbage C fuel db)
  end.

(** The state after the calls and the errors they returned. *)
Definition run (calls : list call) (db : DB) : DB * list (option lsError) :=
  foldl (fun '(db, es) c => let '(db, e) := exec c db in (db, es ++ [e])) (db, []) calls.

Definition not_panic (e : lsError) : Prop := e <> errDb errPanic.

Lemma safe_error {A : Type} (m : M A) Q db db' e : safe C not_panic m Q -> typed C db -> result_error (m db) = (db', e) ->
  typed C db' /\ meta_of (rd db') = meta_of (rd db) /\ e <> Some (errDb errPanic).
Proof.
  intros Hm Hty. unfold result_error. destruct (m db) as [db1 r] eqn:E. destruct (Hm _ _ _ Hty E) as (? & ? & HP). cbn.
  intros [= <- <-]. split; [done|]. split; [done|]. destruct r; [done|]. intros [= ->]. by apply HP.
Qed.

Lemma exec_typed `{!Steady S} c db db' e : call_ok c -> typed C db -> exec c db = (db', e) ->
  typed C db' /\ meta_of (rd db') = meta_of (rd db) /\ e <> Some (errDb errPanic).
Proof.
  intros Hc Hty.
  assert (H1 : forall (st : S) k e, bget st k = Err e -> e = ErrNotFound \/ not_panic (errDb e)).
  { intros st k e1 E1. right. intros [= ->]. by apply (steady_get st k). }
  assert (H2 : forall (st : S) k v e, bput st k v = Err e -> not_panic (errDb e)) by (intros st k v e1 E1 [= ->]; by apply (steady_put st k v)).
  assert (H3 : forall (st : S) k e, bdelete st k = Err e -> e = ErrNotFound \/ not_panic (errDb e)).
  { intros st k e1 E1. right. intros [= ->]. by apply (steady_delete st k). }
  assert (H4 : forall (st : S) ops e, bwrite st ops = Err e -> not_panic (errDb e)) by (intros st ops e1 E1 [= ->]; by apply (steady_write st ops)).
  assert (H5 : forall e, e <> errDb errPanic -> not_panic e) by done.
  destruct c; cbn [exec]; eapply (safe_error _ (fun _ => True)); try exact Hty.
  - apply (all_put C HL); try done. cbn in Hc. eapply Forall_impl; [exact Hc|]. cbn. intros ch ->. done.
  - by apply (all_set C HL).
  - by apply (all_commonDelete C HL).
  - by apply (all_Get C HL).
  - unfold GetMulti. apply (safe_bind _ _ _ _ (fun _ => True)); [apply safe_translate; [done|]; by apply (all_getMulti C HL)|].
    intros. by apply safe_ret.
  - by apply (all_Has C).
  - by apply (all_ChunkCounter C HL).
  - by apply (all_run_update C HL).
  - by apply (all_collectGarbage C HL).
  - by apply (all_collectMemoryGarbage C HL).
Qed.

Lemma run_snoc calls c db : run (calls ++ [c]) db = ((exec c (run calls db).1).1, (run calls db).2 ++ [(exec c (run calls db).1).2]).
Proof. unfold run. rewrite foldl_app. cbn. destruct (foldl _ _ calls) as [db1 es]. cbn. by destruct (exec c db1). Qed.

Lemma run_typed `{!Steady S} calls db : Forall call_ok calls -> typed C db ->
  typed C (run calls db).1 /\ meta_of (rd (run calls db).1) = meta_of (rd db) /\ Some (errDb errPanic) ∉ (run calls db).2.
Proof.
  intros Hc Hty. induction calls as [|c calls IH] using rev_ind; [by apply conj; [|split; [|apply not_elem_of_nil]]|].
  apply Forall_app in Hc as [Hcs Hc]. apply Forall_cons in Hc as [Hc _]. destruct (IH Hcs) as (Hty1 & Hk1 & He1).
  rewrite run_snoc. destruct (exec c (run calls db).1) as [db' e] eqn:E. destruct (exec_typed c _ _ _ Hc Hty1 E) as (Hty2 & Hk2 & He2). cbn.
  split; [done|]. split; [congruence|]. rewrite not_elem_of_app, list_elem_of_singleton. split; [done|]. congruence.
Qed.

(** A new store: no entry, no batch. *)
Lemma new_typed (db : DB) : (forall k, rd db k = Err ErrNotFound) -> batch db = [] -> typed C db.
Proof.
  intros Hr Hb. assert (Hf : forall k, fin C db k = Err ErrNotFound) by (intros k; unfold fin; rewrite Hb, final_new; apply Hr).
  split; [intros k; by rewrite Hr|intros k; by rewrite Hf|unfold meta_of; by rewrite !Hf, !Hr].
Qed.

Lemma put_succeeds `{!Reliable S} mode root chs (db : DB) : typed C db -> batchMu db = false -> pins mode = false -> mode <> otherPut ->
  Forall (fun ch => length (addr ch) = 32%nat) chs -> exists db' exs, put C mode root chs db = (db', Ok exs) /\ typed C db' /\ batchMu db' = false.
Proof.
  intros Hty Hb Hp Ho Hchs. destruct (put C mode root chs db) as [db' r] eqn:E.
  assert (Hs : safe_unlocked C (fun _ => False) (put (S2 := S2) C mode root chs) (fun _ => True)).
  { apply (put_unlocked C HL); try done.
    - intros st k e Eg. left. by eapply reliable_get.
    - intros st k v e Ep. destruct (reliable_put st k v) as [st' ?]. congruence.
    - intros st k e Ed. left. by eapply reliable_delete.
    - intros st ops e Ew. destruct (reliable_write st ops) as [st' ?]. congruence.
    - eapply Forall_impl; [exact Hchs|]. cbn. by intros ch ->. }
  destruct (Hs _ _ _ Hty Hb E) as (Hty' & _ & Hb' & HQ). destruct r as [exs|e]; [by eexists _, _|done].
Qed.
End Calls.

#[export] Instance memory_steady : @Steady _ memory_backend.
Proof. split; intros; cbn; try case_match; congruence. Qed.

#[export] Instance memory_reliable : @Reliable _ memory_backend.
Proof. split; intros; cbn in *; try (by eexists); try case_match; congruence. Qed.

Lemma spec_puts_else mode chs a : forall A, a ∉ addr <$> chs -> rdata (foldl (fun B => spec_put mode B B) A chs) !! a = rdata A !! a.
Proof.
  induction chs as [|ch chs IH]; intros A Ha; [done|]. cbn in *. apply not_elem_of_cons in Ha as [Ha Hr]. rewrite IH by done. by apply spec_put_at.
Qed.

Lemma spec_puts_new mode chs ch : pins mode = false -> mode <> otherPut -> forall A, NoDup (addr <$> chs) -> ch ∈ chs -> rdata A !! addr ch = None ->
  exists t c, rdata (foldl (fun B => spec_put mode B B) A chs) !! addr ch = Some (sdata ch, t, c).
Proof.
  intros Hp Ho. induction chs as [|x chs IH]; intros A Hn Hin Hnew; [by apply not_elem_of_nil in Hin|]. cbn in Hn. apply NoDup_cons in Hn as [Hx Hn]. cbn [foldl].
  apply elem_of_cons in Hin as [<-|Hin].
  - rewrite spec_puts_else by done. destruct mode; try done; cbn; rewrite lookup_insert_eq, Hnew; by eexists _, _.
  - apply IH; [done..|]. destruct (proj2 (spec_put_at mode) A A x (addr ch)) as [-> _]; [|done]. intros E. apply Hx. rewrite <- E. by apply list_elem_of_fmap_2.
Qed.

(** C15: on a database that does not fail, a [Put] of chunks with different
    addresses that does not pin always succeeds on an unlocked store, says which
    chunks were known, and every chunk that was new can then be read back. *)
Theorem put_total {S : Type} `{BE : Backend S} `{!Reliable S} {S2 V : Type} `{ST : StateStorer S2 V} `{CB' : Codec BitVector V} `{CF : Codec FileView V}
    `{CM : Codec FileMirror V} (C : Config) (mode : ModePut) (root : bytes) (chs : list chunk) (db : DB (S := S) (S2 := S2)) (A : Abs) :
  layout_ok (layout C) -> typed C db -> holds C db A -> batchMu db = false -> pins mode = false -> mode <> otherPut ->
  Forall (fun ch => length (addr ch) = 32%nat) chs -> NoDup (addr <$> chs) ->
  exists db', put C mode root chs db = (db', Ok ((fun ch => known A (addr ch)) <$> chs)) /\
    typed C db' /\ holds C db' (foldl (fun B => spec_put mode B B) A chs) /\ batchMu db' = false /\
    forall ch r k, ch ∈ chs -> rdata A !! addr ch = None -> Get C ModeGetLookup (addr ch) r k db' = (db', Ok (NewChunk (addr ch) (sdata ch))).
Proof.
  intros HL Hty HA Hb Hp Ho Hl Hn. destruct (put_succeeds C HL mode root chs db Hty Hb Hp Ho Hl) as (db' & exs & E & Hty' & Hb').
  destruct (put_call C HL _ _ _ _ _ _ _ HA E) as [HA' ->].
  rewrite puts_distinct in HA' by done. rewrite known_before_distinct in E by done. exists db'. split; [done|]. split; [done|]. split; [done|]. split; [done|].
  intros ch r k Hin Hnew. rewrite (Get_holds C ModeGetLookup db' _ (addr ch) r k HA') by auto.
  destruct (spec_puts_new mode chs ch Hp Ho A Hn Hin Hnew) as (t & c & ->). done.
Qed.

(** C14: every call of the local store, with any mode and whether it succeeds or
    fails, with either driver, keeps the entries of all indexes and counters
    well-formed and the schema unchanged; so no call ends in a panic of a decoding
    function. *)
Theorem store_typed {S : Type} `{BE : Backend S} `{!Steady S} {S2 V : Type} `{ST : StateStorer S2 V} `{CB' : Codec BitVector V} `{CF : Codec FileView V}
    `{CM : Codec FileMirror V} (C : Config) (calls : list call) (db : DB (S := S) (S2 := S2)) :
  layout_ok (layout C) -> typed C db -> Forall call_ok calls ->
  typed C (run C calls db).1 /\ meta_of (rd (run C calls db).1) = meta_of (rd db) /\ Some (errDb errPanic) ∉ (run C calls db).2.
Proof. intros HL Hty Hc. by apply run_typed. Qed.

Import LocalStoreRefs.example.

Lemma example_typed d : typed (cfg d) db0.
Proof. apply new_typed; done. Qed.

Lemma put_total_witness : exists db', put (cfg leveldb) ModePutRequest (addr (ch 1)) [ch 1; ch 2] db0 = (db', Ok [false; false]) /\
  Get (cfg leveldb) ModeGetLookup (addr (ch 2)) [] 0 db' = (db', Ok (NewChunk (addr (ch 2)) (sdata (ch 2)))).
Proof.
  destruct (put_total (cfg leveldb) ModePutRequest (addr (ch 1)) [ch 1; ch 2] db0 noChunks) as (db' & E & _ & _ & _ & HG);
    [apply cfg_ok|apply example_typed|intros a; by split|reflexivity|reflexivity|discriminate|by repeat constructor|..].
  - apply (bool_decide_unpack _). vm_compute. exact I.
  - exists db'. split; [exact E|]. apply HG; [apply list_elem_of_further, list_elem_of_here|reflexivity].
Defined.

(** A chunk put and fetched, a removal under an unknown root, which fails, and a collection. *)
Definition some_calls : list call := [CPut ModePutRequest (addr (ch 1)) [ch 1; ch 2]; CGet ModeGetRequest (addr (ch 2)) [] 0;
  CSet ModeSetRemove (addr (ch 9)) [addr (ch 9)]; CUpdate 0; CDelete 9 (addr (ch 1)); CCollect 9].

Lemma store_typed_witness : (run (cfg wiredtiger) some_calls db0).2 = [None; None; Some (errDb ErrNotFound); None; None; None] /\
  Some (errDb errPanic) ∉ (run (cfg wiredtiger) some_calls db0).2.
Proof.
  split; [vm_compute; reflexivity|]. apply (store_typed (cfg wiredtiger) some_calls db0); [apply cfg_ok|apply example_typed|].
  by repeat constructor.
Defined.
