(* ===== verification/LocalStoreGc.v ===== *)
(** * Garbage collection takes the files that were not accessed longest (gc.go)

    The garbage index is ordered by the time of access, so the candidates of a
    collection are the oldest entries, and no more of them than are needed to
    reach the target or one batch. *)

From Stdlib Require Import ZArith Lia ZifyBool.
From stdpp Require Import base gmap list numbers strings sorting.
From S2P Require Import Prelude Boson StateStore Shed FileStore BitVector ChunkStore Mantaray LocalStore LocalStoreRefs LocalStoreTypes.

Open Scope Z_scope.

Definition gc_sum (l : list Item) : Z := foldl (fun c i => u64 (c + GCounter i)) 0 l.

Section Gc.
Context {S : Type} `{BE : Backend S} `{!Reliable S}.
Context {S2 V : Type} `{ST : StateStorer S2 V} `{CB' : Codec BitVector V} `{CF : Codec FileView V} `{CM : Codec FileMirror V}.
Context (C : Config) (HL : layout_ok (layout C)).

Abbreviation DB := (DB (S := S) (S2 := S2)).
Abbreviation L := (layout C).

Definition gc_keys (st : S) : list bytes := filter (fun k => gcPrefix L `prefix_of` k) (bkeys st).

(** The entries of the garbage index, in the order of their keys. *)
Definition gc_items (st : S) : list Item :=
  (fun k => match itemFromIterator (gcIndex L) st k with Ok i => i | Err _ => emptyItem end) <$> gc_keys st.

Lemma gc_item_ok db k : typed (S2 := S2) C db -> k ∈ gc_keys (shed db) -> exists i, itemFromIterator (gcIndex L) (shed db) k = Ok i.
Proof.
  intros Hty [Hp Hin]%list_elem_of_filter. destruct (itemFromIterator _ _ _) as [i|e] eqn:E; [eauto|]. exfalso.
  refine (gc_item_err C (fun _ => False) _ db k e Hty Hin Hp E). intros st k' e' E'. left. by eapply reliable_get.
Qed.

Definition oldest (size target : Z) (items : list Item) (n : nat) : Prop :=
  (forall m, (m < n)%nat -> target < u64 (size - gc_sum (take m items)) /\ (m = 0%nat \/ gc_sum (take m items) < gcBatchSize)) /\
  ((length items <= n)%nat \/ u64 (size - gc_sum (take n items)) <= target \/ gcBatchSize <= gc_sum (take n items)).

Lemma gc_sum_snoc l i : gc_sum (l ++ [i]) = u64 (gc_sum l + GCounter i).
Proof. unfold gc_sum. by rewrite foldl_app. Qed.

(** The loop from the state it has after the items [l]. *)
Lemma candidates_loop size target st keys : forall l, (forall k, k ∈ keys -> gcPrefix L `prefix_of` k /\ exists i, itemFromIterator (gcIndex L) st k = Ok i) ->
  let items := (fun k => match itemFromIterator (gcIndex L) st k with Ok i => i | Err _ => emptyItem end) <$> keys in
  exists n, (n <= length items)%nat /\
    iterate_loop (gcIndex L) st (gcPrefix L) (gc_candidate size target) (l, gc_sum l) keys = ((l ++ take n items, gc_sum (l ++ take n items)), None) /\
    (forall m, (m < n)%nat -> target < u64 (size - gc_sum (l ++ take m items)) /\ (m = 0%nat \/ gc_sum (l ++ take m items) < gcBatchSize)) /\
    ((length items <= n)%nat \/ u64 (size - gc_sum (l ++ take n items)) <= target \/ gcBatchSize <= gc_sum (l ++ take n items)).
Proof.
  induction keys as [|k keys IH]; intros l Hk; cbv zeta.
  - exists 0%nat. rewrite take_0, app_nil_r. split; [done|]. split; [done|]. split; [lia|]. by left.
  - destruct (Hk k ltac:(left)) as (Hp & i & Hi). cbn [iterate_loop fmap list_fmap]. unfold has_prefix. rewrite bool_decide_true, Hi by done.
    cbn [gc_candidate]. destruct (Z.leb_spec (u64 (size - gc_sum l)) target) as [Hle|Hgt].
    { exists 0%nat. rewrite take_0, app_nil_r. split; [lia|]. split; [done|]. split; [lia|]. by right; left. }
    destruct (Z.leb_spec gcBatchSize (u64 (gc_sum l + GCounter i))) as [Hb|Hb].
    { exists 1%nat. cbn [take firstn]. rewrite take_0, gc_sum_snoc. split; [cbn; lia|]. split; [done|]. split; [|by right; right].
      intros m Hm. assert (m = 0%nat) as -> by lia. rewrite take_0, app_nil_r. split; [done|by left]. }
    destruct (IH (l ++ [i])) as (n & Hn & E & Hlow & Hend); [intros k' Hin; apply Hk; by right|]. rewrite gc_sum_snoc in E.
    exists (Datatypes.S n). cbn [take firstn length]. rewrite E, <- !app_assoc. cbn [app]. split; [cbn; lia|]. split; [done|]. split.
    + intros [|m] Hm; [rewrite take_0, app_nil_r; split; [done|by left]|]. cbn [take firstn]. destruct (Hlow m ltac:(lia)) as [H1 H2].
      rewrite <- app_assoc in H1, H2. split; [exact H1|]. right. destruct H2 as [->|H2]; [|exact H2]. rewrite take_0. cbn [app]. by rewrite gc_sum_snoc.
    + rewrite <- app_assoc in Hend. cbn [app] in Hend. destruct Hend as [?|?]; [left; cbn; lia|by right].
Qed.

Lemma u64_i64 x : 0 <= x < 2 ^ 64 -> u64 (i64 x) = x.
Proof.
  intros H. unfold i64, u64. rewrite Zminus_mod, Zmod_mod, <- Zminus_mod. replace (x + 2 ^ 63 - 2 ^ 63) with x by lia. by apply Z.mod_small.
Qed.

(** The time in the key of an entry. *)
Lemma gc_access db k i : typed (S2 := S2) C db -> k ∈ gc_keys (shed db) -> itemFromIterator (gcIndex L) (shed db) k = Ok i ->
  bytes_ok (take 8 (drop 1 k)) /\ length (take 8 (drop 1 k)) = 8%nat /\ u64 (AccessTimestamp i) = be_get (take 8 (drop 1 k)).
Proof.
  intros Hty [Hp Hin%bkeys_spec]%list_elem_of_filter Hi.
  assert (Hk : 17 <= zlen k /\ bytes_ok (take 8 (drop 1 k))).
  { destruct (bget (shed db) k) as [v|e] eqn:E; [apply (eo_gc _ _ _ (typed_read _ _ _ _ Hty E) Hp)|]. exfalso. apply Hin. f_equal. by eapply reliable_get. }
  destruct Hk as [Hk Hb]. assert (Hl : length (take 8 (drop 1 k)) = 8%nat) by (rewrite length_take, length_drop; lia).
  split; [done|]. split; [done|]. revert Hi. unfold itemFromIterator, decodeKeyFunc, DecodeKey, gcIndex.
  assert (Ets : BE_Uint64 (drop 1 k) = Some (be_get (take 8 (drop 1 k)))).
  { unfold BE_Uint64. case_match eqn:E1; [|done]. apply Nat.ltb_lt in E1. rewrite length_drop in E1. lia. }
  rewrite Ets. cbn [mbind option_bind]. destruct (BE_Uint64 (drop 8 (drop 1 k))) as [y|]; [|done]. cbn [mbind option_bind of_panic result_bind].
  destruct (bget (shed db) k) as [v|e]; [|done]. cbn [mbind result_bind DecodeValue]. destruct (BE_Uint64 v) as [z|]; [|done].
  cbn [mbind option_bind of_panic result_bind]. intros [= <-]. cbn [Merge AccessTimestamp]. pose proof (be_get_range _ Hb) as Hr. rewrite Hl in Hr.
  change (2 ^ (8 * Z.of_nat 8)) with (2 ^ 64) in Hr. unfold orZero. case_match eqn:E0; [|by apply u64_i64].
  apply Z.eqb_eq in E0. rewrite <- (u64_i64 _ Hr), E0. done.
Qed.

Lemma gc_keys_sorted st : StronglySorted (fun a b => blt a b = true) (gc_keys st).
Proof.
  unfold gc_keys. induction (bkeys_sorted st) as [|k keys Hs IH Hk]; [constructor|]. rewrite filter_cons. case_decide; [|done].
  constructor; [done|]. rewrite Forall_forall in *. intros x [_ Hx]%list_elem_of_filter. auto.
Qed.

(** Entries come in the order of their access times. *)
Lemma gc_items_sorted db n i j : typed (S2 := S2) C db -> i ∈ take n (gc_items (shed db)) -> j ∈ drop n (gc_items (shed db)) ->
  u64 (AccessTimestamp i) <= u64 (AccessTimestamp j).
Proof.
  intros Hty. unfold gc_items. rewrite <- fmap_take, <- fmap_drop. intros (k1 & -> & H1)%list_elem_of_fmap (k2 & -> & H2)%list_elem_of_fmap.
  assert (Hlt : blt k1 k2 = true).
  { pose proof (gc_keys_sorted (shed db)) as Hs. rewrite <- (take_drop n) in Hs. by apply (StronglySorted_app_1_elem_of _ _ _ _ _ Hs). }
  assert (K1 : k1 ∈ gc_keys (shed db)) by (rewrite <- (take_drop n); apply elem_of_app; by left).
  assert (K2 : k2 ∈ gc_keys (shed db)) by (rewrite <- (take_drop n); apply elem_of_app; by right).
  destruct (gc_item_ok db k1 Hty K1) as (i1 & E1), (gc_item_ok db k2 Hty K2) as (i2 & E2). rewrite E1, E2.
  destruct (gc_access db k1 i1 Hty K1 E1) as (B1 & L1 & ->), (gc_access db k2 i2 Hty K2 E2) as (B2 & L2 & ->).
  apply list_elem_of_filter in K1 as [P1 _], K2 as [P2 _]. destruct (layout_bytes _ HL) as (d & a & t & g & p & gs & bi & EL & _). rewrite EL in P1, P2. cbn in P1, P2.
  destruct P1 as [x1 ->], P2 as [x2 ->]. cbn [app drop] in *. rewrite !drop_0 in *. rewrite blt_cons in Hlt. destruct Hlt as [?|[_ Hlt]]; [lia|].
  rewrite <- (take_drop 8 x1), <- (take_drop 8 x2) in Hlt. apply blt_app in Hlt; [|congruence].
  destruct Hlt as [Hlt|[-> _]]; [|done]. rewrite blt_be_get in Hlt by (done || congruence). lia.
Qed.
End Gc.

(** C16: when the garbage index has grown past its target, a collection deletes the
    files of the entries that were accessed longest ago: it takes entries in
    the order of their access times, stops as soon as the target or the size of a
    batch is reached, and leaves none that is older than one it takes. *)
Theorem collectGarbage_oldest {S : Type} `{BE : Backend S} `{!Reliable S} {S2 V : Type} `{ST : StateStorer S2 V} `{CB' : Codec BitVector V}
    `{CF : Codec FileView V} `{CM : Codec FileMirror V} (C : Config) (fuel : nat) (db : DB (S := S) (S2 := S2)) (size : Z) :
  layout_ok (layout C) -> typed C db -> batchMu db = false -> Field_Get (shed db) (gcSizeKey (layout C)) = Ok size -> gcTarget (capacity C) < size ->
  let items := gc_items C (shed db) in
  exists n, collectGarbage C fuel db = gc_run (_ ← gc_files C fuel (take n items) (Ok tt); mret (gc_sum (take n items), true)) db /\
    oldest size (gcTarget (capacity C)) items n /\
    forall i j, i ∈ take n items -> j ∈ drop n items -> u64 (AccessTimestamp i) <= u64 (AccessTimestamp j).
Proof.
  intros HL Hty Hb Hsize Hgt items.
  destruct (candidates_loop C size (gcTarget (capacity C)) (shed db) (gc_keys C (shed db)) []) as (n & Hn & E & Hlow & Hend).
  { intros k Hk. split; [by apply list_elem_of_filter in Hk as [? _]|]. by apply (gc_item_ok C db). }
  exists n. fold (gc_items C (shed db)) in *. fold items in Hn, E, Hlow, Hend |- *. cbn [app] in *. split; [|split; [by split|]].
  - unfold collectGarbage, gc_run, gc_begin, locked, mbind, M_bind. rewrite Hb. cbn [batchMu set_gc]. unfold then_end.
    cbn [get_state shed set_gc set_batchMu fst snd]. unfold get_state, lift. cbn [shed set_gc set_batchMu]. rewrite Hsize. cbn [fst snd].
    replace (size <=? gcTarget (capacity C)) with false by lia. unfold of_iter, noOptions. rewrite Iterate_visits by done.
    cbn [prefix gcIndex]. rewrite app_nil_r. unfold gc_keys in E. change (gc_sum []) with 0 in E. rewrite E. done.
  - intros i j. by apply gc_items_sorted.
Qed.

Import LocalStoreRefs.example.

(** A capacity of two chunks, and two files of one chunk each. *)
Definition small_cfg : Config := MkConfig leveldb (layout (cfg leveldb)) 2 false (replicate 32 0) (fun n => 1000 + Z.of_nat n) (fun _ => 0).
Definition two_files : list call := [CPut ModePutRequest (addr (ch 1)) [ch 1]; CPut ModePutRequest (addr (ch 2)) [ch 2]].

Lemma collectGarbage_oldest_witness : let db := (run small_cfg two_files db0).1 in
  (key_bytes <$> gc_items small_cfg (shed db)) = [addr (ch 1); addr (ch 2)] /\
  exists n, oldest 2 1 (gc_items small_cfg (shed db)) n /\ collectGarbage small_cfg 9 db =
    gc_run (_ ← gc_files small_cfg 9 (take n (gc_items small_cfg (shed db))) (Ok tt); mret (gc_sum (take n (gc_items small_cfg (shed db))), true)) db.
Proof.
  intros db. split; [vm_compute; reflexivity|].
  destruct (collectGarbage_oldest small_cfg 9 db 2) as (n & E & Ho & _).
  - exact (cfg_ok leveldb).
  - apply (run_typed small_cfg (cfg_ok leveldb)); [by repeat constructor|apply new_typed; reflexivity].
  - vm_compute. reflexivity.
  - vm_compute. reflexivity.
  - vm_compute. reflexivity.
  - exists n. split; [exact Ho|exact E].
Defined.
