(* ===== verification/LocalStoreOpen.v ===== *)
(** * Opening the local store (localstore.go [New], migration.go)

    [New] opens the schema, the fields and the indexes, runs migrations if the name
    of the stored schema is another one, and repairs the size of the garbage index.
    The schema is that of the leveldb driver.  A store that is closed and opened
    again finds its indexes and every chunk and pin. *)

From Stdlib Require Import ZArith Lia ZifyBool.
From stdpp Require Import base gmap list numbers strings.
From S2P Require Import Prelude Boson StateStore Shed FileStore BitVector ChunkStore Mantaray LocalStore LocalStoreRefs LocalStoreTypes.

Open Scope Z_scope.

Inductive openError :=
| openDb (e : dbError)
| openStoreError (e : lsError)
| errMissingCurrentSchema
| errMissingTargetSchema
| errSchemaTwice.

Definition of_db {A : Type} (r : result dbError A) : result openError A := match r with Ok a => Ok a | Err e => Err (openDb e) end.

Definition DbSchemaCode : bytes := str "code".
Definition DbSchemaCurrent : bytes := DbSchemaCode.

Definition defaultCapacity : Z := 80000.
Definition initialGcMemory : Z := 50 * 1024 * 1024.

Section Open.
Context {S : Type} `{BE : Backend S} `{CS : Codec SchemaSpec bytes}.

(** ** The name of the schema *)

Definition StringField_Get (st : S) (key : bytes) : result dbError bytes :=
  match bget st key with Err ErrNotFound => Ok [] | r => r end.
Definition StringField_Put (st : S) (key val : bytes) : result dbError S := bput st key val.

Record migration := MkMigration { mname : bytes; mfn : S -> result openError S }.

Definition schemaMigrations : list migration := [MkMigration DbSchemaCode (fun st => Ok st)].

(** The loop with what was found so far. *)
Fixpoint find_migrations (currentSchema targetSchema : bytes) (foundCurrent foundTarget : bool) (migrations all : list migration) :
    result openError (list migration) :=
  match all with
  | [] => if negb foundCurrent then Err errMissingCurrentSchema else if negb foundTarget then Err errMissingTargetSchema else Ok migrations
  | v :: all =>
      if bool_decide (mname v = currentSchema) then
        if foundCurrent then Err errSchemaTwice else find_migrations currentSchema targetSchema true foundTarget migrations all
      else
        let foundTarget := if bool_decide (mname v = targetSchema) then true else foundTarget in
        find_migrations currentSchema targetSchema foundCurrent foundTarget (if foundCurrent then migrations ++ [v] else migrations) all
  end.

Definition getMigrations (currentSchema targetSchema : bytes) (all : list migration) : result openError (list migration) :=
  if bool_decide (currentSchema = DbSchemaCurrent) then Ok [] else find_migrations currentSchema targetSchema false false [] all.

Fixpoint run_migrations (st : S) (key : bytes) (l : list migration) : result openError S :=
  match l with
  | [] => Ok st
  | m :: l =>
      st ← mfn m st;
      st ← of_db (StringField_Put st key (mname m));
      _ ← of_db (StringField_Get st key);
      run_migrations st key l
  end.

Definition migrate (st : S) (key schemaName : bytes) : result openError S :=
  l ← getMigrations schemaName DbSchemaCurrent schemaMigrations; run_migrations st key l.

(** ** New *)

Definition dataName : bytes := str "Address->BinID|StoreTimestamp|Type|Counter|Data".
Definition accessName : bytes := str "Address->AccessTimestamp".
Definition transferName : bytes := str "Address->Cids".
Definition gcName : bytes := str "AccessTimestamp|BinID|Hash->GCounter".
Definition pinName : bytes := str "Hash->PinCounter".

(** Where fields and indexes are. *)
Definition openIndexes (st : S) : result openError (Layout * S) :=
  '(gcSizeKey, st) ← of_db (schemaFieldKey st (str "gc-size") (str "uint64"));
  '(dataPrefix, st) ← of_db (schemaIndexPrefix st dataName);
  '(accessPrefix, st) ← of_db (schemaIndexPrefix st accessName);
  '(transferPrefix, st) ← of_db (schemaIndexPrefix st transferName);
  '(binIDsKey, st) ← of_db (schemaFieldKey st (str "bin-ids") (str "vector-uint64"));
  '(gcPrefix, st) ← of_db (schemaIndexPrefix st gcName);
  '(pinPrefix, st) ← of_db (schemaIndexPrefix st pinName);
  Ok (MkLayout dataPrefix accessPrefix transferPrefix gcPrefix pinPrefix gcSizeKey binIDsKey, st).

(** The first part of [New]. *)
Definition openStore (st : S) : result openError (Layout * S) :=
  st ← of_db (InitSchema st);
  '(nameKey, st) ← of_db (schemaFieldKey st (str "schema-name") (str "string"));
  schemaName ← of_db (StringField_Get st nameKey);
  st ← (if bool_decide (schemaName = []) then of_db (StringField_Put st nameKey DbSchemaCurrent) else migrate st nameKey schemaName);
  openIndexes st.

Record Options := MkOptions { Capacity : Z; FullNode : bool }.

Context {S2 V : Type} `{ST : StateStorer S2 V} `{CB' : Codec BitVector V} `{CF : Codec FileView V} `{CM : Codec FileMirror V}.

(** Clock and free memory are those of the machine. *)
Definition New (st : S) (baseKey : bytes) (stateStore : S2) (o : option Options) (time freeMemory : nat -> Z) :
    result openError (Config * DB (S := S) (S2 := S2)) :=
  let o := default (MkOptions defaultCapacity false) o in
  '(L, st) ← openStore st;
  let C := MkConfig leveldb L (if Capacity o =? 0 then defaultCapacity else Capacity o) (FullNode o) baseKey time freeMemory in
  match repair_gcSize C (MkDB st [] (ChunkStore.New stateStore) (FileStore.New stateStore) false false [] [] 0 initialGcMemory false false) with
  | (db, Ok _) => Ok (C, db)
  | (_, Err e) => Err (openStoreError e)
  end.
End Open.

(** ** The schema of an open store *)

Definition fieldSpecs : list FieldSpec :=
  [MkFieldSpec (str "schema-name") (str "string"); MkFieldSpec (str "gc-size") (str "uint64"); MkFieldSpec (str "bin-ids") (str "vector-uint64")].
Definition indexNames : list bytes := [dataName; accessName; transferName; gcName; pinName].

(** None of the fields is there with another type. *)
Definition fields_ok (l : list FieldSpec) : Prop := Forall (fun spec => field_clash spec l = false) fieldSpecs.

Lemma clash_snoc spec l x : field_clash spec (l ++ [x]) = (match List.find (fun f => bool_decide (FieldName f = FieldName spec)) l with
  | Some _ => field_clash spec l | None => field_clash spec [x] end).
Proof.
  unfold field_clash. induction l as [|f l IH]; [done|]. cbn [List.find app]. case_bool_decide; [done|]. exact IH.
Qed.

Lemma fields_snoc l x : x ∈ fieldSpecs -> fields_ok l -> fields_ok (l ++ [x]).
Proof.
  intros Hx Hl. unfold fields_ok in *. rewrite Forall_forall in *. intros spec Hs. specialize (Hl spec Hs). rewrite clash_snoc. case_match; [done|].
  clear -Hx Hs. unfold fieldSpecs in *. rewrite !elem_of_cons, elem_of_nil in Hx, Hs. naive_solver.
Qed.

(** Indexes there are and will be. *)
Definition need (s : SchemaSpec) (names : list bytes) : Z :=
  zlen (Indexes s) + zlen (filter (fun n => n ∉ IndexName <$> Indexes s) names).

Section Opening.
Context {S : Type} `{BE : Backend S} `{!Reliable S} `{CS : Codec SchemaSpec bytes}.

Definition others (st st' : S) : Prop := forall k, k <> keySchema -> bget st' k = bget st k.

Lemma others_trans st st1 st2 : others st st1 -> others st1 st2 -> others st st2.
Proof. intros H1 H2 k Hk. by rewrite H2, H1. Qed.

Lemma put_schema st s : exists st', putSchema st s = Ok st' /\ getSchema st' = Ok s /\ others st st'.
Proof.
  destruct (reliable_put st keySchema (marshal s)) as [st' E]. exists st'. split; [done|]. split; [by apply (getSchema_put st)|].
  intros k Hk. rewrite (bget_put _ _ _ _ k E). cbn [bop_apply]. by rewrite decide_False.
Qed.

Record sound (st : S) (s : SchemaSpec) : Prop := {
  sd_schema : getSchema st = Ok s;
  sd_ok : schema_ok s;
  sd_fields : fields_ok (Fields s);
}.

Lemma field_step st s spec : sound st s -> spec ∈ fieldSpecs -> exists st' s', schemaFieldKey st (FieldName spec) (FieldType spec) = Ok (keyPrefixFields :: FieldName spec, st') /\
  sound st' s' /\ Indexes s' = Indexes s /\ others st st'.
Proof.
  intros [Hs Hok Hf] Hin. unfold schemaFieldKey, CreateField. cbn [FieldName FieldType].
  assert (Hb : bool_decide (FieldName spec = []) || bool_decide (FieldType spec = []) = false).
  { clear -Hin. unfold fieldSpecs in Hin. rewrite !elem_of_cons, elem_of_nil in Hin. naive_solver. }
  rewrite Hb, Hs. cbn [mbind result_bind].
  assert (Hc : field_clash (MkFieldSpec (FieldName spec) (FieldType spec)) (Fields s) = false).
  { destruct spec. unfold fields_ok in Hf. rewrite Forall_forall in Hf. by apply Hf. }
  rewrite Hc. destruct (put_schema st (MkSchemaSpec (Fields s ++ [MkFieldSpec (FieldName spec) (FieldType spec)]) (Indexes s))) as (st' & -> & Hg & Ho).
  cbn [mbind result_bind]. eexists st', (MkSchemaSpec _ _). split; [done|]. split; [|done]. split; [exact Hg|by destruct Hok|]. cbn [Fields]. apply fields_snoc; [by destruct spec|done].
Qed.

Lemma need_le s names : zlen (Indexes s) <= need s names.
Proof. unfold need. lia. Qed.

Lemma missing_le (l m names : list bytes) : zlen (filter (fun n => n ∉ l ++ m) names) <= zlen (filter (fun n => n ∉ l) names).
Proof.
  apply inj_le, sublist_length. induction names as [|n names IH]; [done|]. rewrite !filter_cons. repeat case_decide; try (by constructor); set_solver.
Qed.

Lemma index_step st s name names : sound st s -> name <> [] -> need s (name :: names) <= 253 ->
  exists p st' s', schemaIndexPrefix st name = Ok (p, st') /\ sound st' s' /\ given s' name p /\ (forall n q, given s n q -> given s' n q) /\
    need s' names <= 253 /\ others st st'.
Proof.
  intros [Hs [Ho Hn] Hf] Hname Hneed. unfold schemaIndexPrefix. rewrite bool_decide_false by done. unfold CreateIndex. rewrite Hs. cbn [mbind result_bind].
  pose proof (need_le s (name :: names)) as Hl. rewrite find_index_spec by (done || unfold keyPrefixIndexStart; lia). cbn [mbind result_bind].
  destruct (list_find _ (Indexes s)) as [[i f]|] eqn:Hfind.
  - apply list_find_Some in Hfind as (Hi & Hnm & _). eexists _, st, s. split; [done|]. split; [done|].
    assert (Hg : given s name [keyPrefixIndexStart + Z.of_nat i]).
    { apply list_elem_of_lookup. exists i. rewrite Hi. f_equal. rewrite <- (Ho i f Hi), <- Hnm. by destruct f. }
    split; [done|]. split; [done|]. split; [|done]. revert Hneed. unfold need. rewrite filter_cons_False; [done|]. intros H. apply H.
    by apply (list_elem_of_fmap_2' IndexName _ _ _ Hg).
  - apply list_find_None in Hfind. rewrite Forall_forall in Hfind.
    destruct (put_schema st (MkSchemaSpec (Fields s) (Indexes s ++ [MkIndexSpec name [keyPrefixIndexStart + zlen (Indexes s)]]))) as (st' & -> & Hg & Hot).
    cbn [mbind result_bind]. eexists _, st', (MkSchemaSpec _ _). split; [done|]. split; [|split; [|split; [|split; [|done]]]].
    + split; [exact Hg| |done]. split; cbn [Indexes].
      * intros j g [[_ Hj]|[Hj <-]]%lookup_snoc_Some; [by apply Ho|]. by subst j.
      * rewrite fmap_app. apply NoDup_app. split; [done|]. split; [|apply NoDup_singleton].
        intros m (g & -> & Hg')%list_elem_of_fmap E%list_elem_of_singleton. by apply (Hfind g Hg').
    + apply elem_of_app. right. by left.
    + intros n q Hq. apply elem_of_app. by left.
    + revert Hneed. unfold need. cbn [Indexes]. rewrite filter_cons_True.
      2:{ intros (g & -> & Hg')%list_elem_of_fmap. by apply (Hfind g Hg'). }
      rewrite length_app, fmap_app. cbn [length]. pose proof (missing_le (IndexName <$> Indexes s) [name] names) as Hm.
      change (IndexName <$> [MkIndexSpec name [keyPrefixIndexStart + zlen (Indexes s)]]) with [name]. lia.
Qed.

Definition prefixes_of (L : Layout) : list bytes := [dataPrefix L; accessPrefix L; transferPrefix L; gcPrefix L; pinPrefix L].

(** A store that was opened with this layout. *)
Record opened (L : Layout) (st : S) : Prop := {
  op_schema : exists s, sound st s /\ need s indexNames <= 253 /\ Forall2 (given s) indexNames (prefixes_of L);
  op_name : bget st schemaNameKey = Ok DbSchemaCurrent;
  op_fields : gcSizeKey L = keyPrefixFields :: str "gc-size" /\ binIDsKey L = keyPrefixFields :: str "bin-ids";
}.

Lemma need_names s s' names : (forall n q, given s n q -> given s' n q) -> Forall (fun n => exists q, given s n q) names ->
  zlen (Indexes s') <= 253 -> need s' names <= 253.
Proof.
  intros Hm Hall Hl. unfold need. rewrite list_filter_none; [cbn; lia|]. apply (Forall_impl _ _ _ Hall). intros n (q & Hq%Hm) H. apply H.
  by apply (list_elem_of_fmap_2' IndexName _ _ _ Hq).
Qed.

Lemma openIndexes_spec st s : sound st s -> need s indexNames <= 253 -> exists L st' s', openIndexes st = Ok (L, st') /\ others st st' /\
  sound st' s' /\ need s' indexNames <= 253 /\ Forall2 (given s') indexNames (prefixes_of L) /\ (forall n q, given s n q -> given s' n q) /\
  gcSizeKey L = keyPrefixFields :: str "gc-size" /\ binIDsKey L = keyPrefixFields :: str "bin-ids".
Proof.
  intros H0 Hneed. unfold openIndexes.
  destruct (field_step st s (MkFieldSpec (str "gc-size") (str "uint64")) H0) as (st1 & s1 & E1 & H1 & I1 & O1); [apply list_elem_of_further, list_elem_of_here|].
  cbn [FieldName FieldType] in E1. rewrite E1. cbn [of_db mbind result_bind].
  assert (N1 : need s1 indexNames <= 253) by (unfold need in *; by rewrite I1).
  destruct (index_step st1 s1 dataName _ H1 ltac:(done) N1) as (p2 & st2 & s2 & -> & H2 & G2 & M2 & N2 & O2). cbn [of_db mbind result_bind].
  destruct (index_step st2 s2 accessName _ H2 ltac:(done) N2) as (p3 & st3 & s3 & -> & H3 & G3 & M3 & N3 & O3). cbn [of_db mbind result_bind].
  destruct (index_step st3 s3 transferName _ H3 ltac:(done) N3) as (p4 & st4 & s4 & -> & H4 & G4 & M4 & N4 & O4). cbn [of_db mbind result_bind].
  destruct (field_step st4 s4 (MkFieldSpec (str "bin-ids") (str "vector-uint64")) H4) as (st5 & s5 & E5 & H5 & I5 & O5).
  { apply list_elem_of_further, list_elem_of_further, list_elem_of_here. }
  cbn [FieldName FieldType] in E5. rewrite E5. cbn [of_db mbind result_bind].
  assert (N5 : need s5 [gcName; pinName] <= 253) by (unfold need in *; by rewrite I5).
  destruct (index_step st5 s5 gcName _ H5 ltac:(done) N5) as (p6 & st6 & s6 & -> & H6 & G6 & M6 & N6 & O6). cbn [of_db mbind result_bind].
  destruct (index_step st6 s6 pinName _ H6 ltac:(done) N6) as (p7 & st7 & s7 & -> & H7 & G7 & M7 & N7 & O7). cbn [of_db mbind result_bind].
  assert (M5 : forall n q, given s4 n q -> given s5 n q) by (unfold given; by rewrite I5).
  eexists _, st7, s7. split; [done|]. split; [eauto 10 using others_trans|]. split; [done|].
  assert (Hall : Forall2 (given s7) indexNames [p2; p3; p4; p6; p7]) by (repeat constructor; eauto 10).
  split; [|split; [done|split; [|done]]].
  - apply (need_names s7); [done| |]; [|pose proof (need_le s7 []); lia]. apply Forall_forall. intros n (i & Hi)%list_elem_of_lookup.
    destruct (Forall2_lookup_l _ _ _ _ _ Hall Hi) as (q & _ & Hq). eauto.
  - assert (M1 : forall n q, given s n q -> given s1 n q) by (unfold given; by rewrite I1). eauto 10.
Qed.

Lemma opened_layout L st : opened L st -> layout_ok L.
Proof.
  intros [(s & [_ Hok _] & Hneed & Hg) _ Hf]. pose proof (need_le s indexNames) as Hl.
  assert (Hfl : Forall (fun p => exists n, given s n p) (prefixes_of L)).
  { apply Forall_forall. intros p (i & Hi)%list_elem_of_lookup. destruct (Forall2_lookup_r _ _ _ _ _ Hg Hi) as (n & _ & Hn). eauto. }
  split; [| |done].
  - apply NoDup_alt. intros i j p Hi Hj. destruct (Forall2_lookup_r _ _ _ _ _ Hg Hi) as (n & Hn & G1), (Forall2_lookup_r _ _ _ _ _ Hg Hj) as (m & Hm & G2).
    assert (n = m) as -> by (by apply (given_unique s n m p p Hok G1 G2)).
    apply (NoDup_lookup indexNames i j m); [|done|done]. apply (bool_decide_unpack _). vm_compute. exact I.
  - apply (Forall_impl _ _ _ Hfl). intros p (n & Hn). destruct (given_byte s n p Hok Hn) as (b & -> & Hb); [lia|]. exists b. split; [done|lia].
Qed.

Lemma sound_same st st' s : bget st' keySchema = bget st keySchema -> sound st s -> sound st' s.
Proof. intros E [H1 H2 H3]. split; [|done..]. unfold getSchema in *. by rewrite E. Qed.

Lemma opened_same L st st' : bget st' keySchema = bget st keySchema -> bget st' schemaNameKey = bget st schemaNameKey -> opened L st -> opened L st'.
Proof.
  intros E1 E2 [(s & Hs & Hn & Hg) H2 H3]. split; [|by rewrite E2|done]. exists s. split; [by apply (sound_same st)|done].
Qed.

Lemma others_name st st' : others st st' -> bget st' schemaNameKey = bget st schemaNameKey.
Proof. intros H. by apply H. Qed.

(** A store opened again has the same layout. *)
Lemma open_again L st : opened L st -> exists st', openStore st = Ok (L, st') /\ opened L st' /\ others st st'.
Proof.
  intros [(s & Hs & Hneed & Hg) Hname Hf]. unfold openStore, InitSchema. rewrite (sd_schema _ _ Hs). cbn [of_db mbind result_bind].
  destruct (field_step st s (MkFieldSpec (str "schema-name") (str "string")) Hs) as (st1 & s1 & E1 & H1 & I1 & O1); [apply list_elem_of_here|].
  cbn [FieldName FieldType] in E1. rewrite E1. cbn [of_db mbind result_bind]. unfold StringField_Get.
  change (keyPrefixFields :: str "schema-name") with schemaNameKey. rewrite (O1 schemaNameKey), Hname by done. cbn [of_db mbind result_bind].
  rewrite bool_decide_false by done. unfold migrate, getMigrations. rewrite bool_decide_true by done. cbn [mbind result_bind run_migrations].
  assert (N1 : need s1 indexNames <= 253) by (unfold need in *; by rewrite I1).
  destruct (openIndexes_spec st1 s1 H1 N1) as (L' & st' & s' & -> & O' & H' & N' & G' & M' & F').
  assert (L' = L) as ->.
  { assert (Hp : prefixes_of L' = prefixes_of L).
    { apply list_eq. intros i. destruct (indexNames !! i) as [n|] eqn:Hi.
      - destruct (Forall2_lookup_l _ _ _ _ _ G' Hi) as (p & Hp & Gp), (Forall2_lookup_l _ _ _ _ _ Hg Hi) as (q & Hq & Gq).
        rewrite Hp, Hq. f_equal. apply (given_unique s' n n p q); [apply H'|done| |done]. apply M'. unfold given in *. by rewrite I1.
      - apply lookup_ge_None in Hi. rewrite !lookup_ge_None_2; [done|by rewrite <- (Forall2_length _ _ _ Hg)|by rewrite <- (Forall2_length _ _ _ G')]. }
    destruct L, L'. unfold prefixes_of in Hp. cbn in *. destruct F' as [-> ->], Hf as [-> ->]. congruence. }
  exists st'. split; [done|]. split; [|by eapply others_trans]. split; [eauto|by rewrite (others_name _ _ O'), (others_name _ _ O1)|done].
Qed.

(** A new database. *)
Lemma open_first st : bget st keySchema = Err ErrNotFound -> bget st schemaNameKey = Err ErrNotFound ->
  exists L st', openStore st = Ok (L, st') /\ opened L st' /\ forall k, k <> keySchema -> k <> schemaNameKey -> bget st' k = bget st k.
Proof.
  intros Hk Hname. unfold openStore, InitSchema. unfold getSchema at 1. rewrite Hk. cbn [of_db mbind result_bind].
  destruct (put_schema st (MkSchemaSpec [] [])) as (st0 & -> & Hg0 & O0). cbn [of_db mbind result_bind].
  assert (H0 : sound st0 (MkSchemaSpec [] [])) by (split; [done|split; [done|constructor]|by repeat constructor]).
  destruct (field_step st0 _ (MkFieldSpec (str "schema-name") (str "string")) H0) as (st1 & s1 & E1 & H1 & I1 & O1); [apply list_elem_of_here|].
  cbn [FieldName FieldType] in E1. rewrite E1. cbn [of_db mbind result_bind]. unfold StringField_Get.
  change (keyPrefixFields :: str "schema-name") with schemaNameKey. rewrite (O1 schemaNameKey), (O0 schemaNameKey), Hname by done. cbn [of_db mbind result_bind].
  rewrite bool_decide_true by done. unfold StringField_Put. destruct (reliable_put st1 schemaNameKey DbSchemaCurrent) as [st2 E2]. rewrite E2.
  cbn [of_db mbind result_bind].
  assert (R2 : forall k, k <> schemaNameKey -> bget st2 k = bget st1 k).
  { intros k Hne. rewrite (bget_put _ _ _ _ k E2). cbn [bop_apply]. by rewrite decide_False. }
  assert (H2 : sound st2 s1) by (apply (sound_same st1); [by apply R2|done]).
  assert (N2 : need s1 indexNames <= 253).
  { unfold need. rewrite I1. cbn [Indexes]. vm_compute. discriminate. }
  destruct (openIndexes_spec st2 s1 H2 N2) as (L & st' & s' & -> & O' & H' & N' & G' & _ & F'). exists L, st'. split; [done|]. split.
  - split; [eauto| |done]. rewrite (others_name _ _ O'), (bget_put _ _ _ _ schemaNameKey E2). cbn [bop_apply]. by rewrite decide_True.
  - intros k K1 K2. by rewrite (O' k), (R2 k), (O1 k), (O0 k).
Qed.
End Opening.

(** ** A store is opened, used and opened again *)

#[export] Instance reliable_steady {S : Type} `{BE : Backend S} `{!Reliable S} : Steady S.
Proof.
  split.
  - intros st k E%reliable_get. done.
  - intros st k v E. destruct (reliable_put st k v). congruence.
  - intros st k E%reliable_delete. done.
  - intros st ops E. destruct (reliable_write st ops). congruence.
Qed.

Section Restart.
Context {S : Type} `{BE : Backend S} `{!Reliable S} `{CS : Codec SchemaSpec bytes}.
Context {S2 V : Type} `{ST : StateStorer S2 V} `{CB' : Codec BitVector V} `{CF : Codec FileView V} `{CM : Codec FileMirror V}.

Abbreviation DB := (DB (S := S) (S2 := S2)).

Lemma typed_nil C (db : DB) : batch db = [] -> entries_ok C (rd db) -> typed C db.
Proof.
  intros Hb Hr. assert (Hf : forall k, fin C db k = rd db k) by (intros k; unfold fin; rewrite Hb, final_new; done).
  split; [done|intros k; by rewrite Hf|unfold meta_of; by rewrite !Hf].
Qed.

Lemma entry_meta C k v : layout_ok (layout C) -> k = keySchema \/ k = schemaNameKey -> entry_ok (layout C) k v.
Proof.
  intros HL Hk. destruct (layout_bytes _ HL) as (d & a & t & g & p & gs & bi & -> & -> & -> & _ & Hd & Ha & Ht & Hg & Hp).
  unfold keySchema, schemaNameKey, keyPrefixFields in Hk. destruct Hk as [-> | ->];
    (split; cbn [dataPrefix accessPrefix transferPrefix gcPrefix pinPrefix gcSizeKey binIDsKey]; rewrite ?prefix_byte; try lia);
    (intros [H|H]; [done|]; apply (bool_decide_pack _) in H; vm_compute in H; done).
Qed.

Lemma entries_meta C (st st' : S) : layout_ok (layout C) -> (forall k, k <> keySchema -> k <> schemaNameKey -> bget st' k = bget st k) ->
  (forall k e, bget st' k = Err e -> e = ErrNotFound) -> entries_ok C (bget st) -> entries_ok C (bget st').
Proof.
  intros HL Ho He Hr k. destruct (decide (k = keySchema \/ k = schemaNameKey)) as [Hk|Hk].
  - destruct (bget st' k) as [v|e] eqn:E; [by apply entry_meta|]. by rewrite (He _ _ E).
  - rewrite Ho by tauto. apply Hr.
Qed.

(** Repairing the size succeeds and touches only the size. *)
Lemma repair_spec C (db : DB) : layout_ok (layout C) -> typed C db -> batch db = [] -> exists db' n, repair_gcSize C db = (db', Ok n) /\ typed C db' /\
  forall k, k <> gcSizeKey (layout C) -> rd db' k = rd db k.
Proof.
  intros HL Hty Hb.
  assert (Hget : forall (st : S) k e, bget st k = Err e -> e = ErrNotFound \/ (fun _ : lsError => False) (errDb e)) by (intros st k e E%reliable_get; by left).
  unfold repair_gcSize, mbind, M_bind, get_state, of_iter. set (it := Iterate _ _ _ _ _).
  assert (Hit : it.2 = None).
  { destruct it.2 as [e|] eqn:E; [|done]. exfalso. subst it.
    destruct (iterate_gc C (fun _ => False) Hget db _ 0 e Hty ltac:(eauto) E) as (e' & _ & []). }
  rewrite Hit. cbn [fst snd]. unfold lift. destruct (Field_Get (shed db) (gcSizeKey (layout C))) as [n|e] eqn:Ef.
  2:{ exfalso. apply (Field_Get_ok C (fun _ => False) Hget db _ e Hty (or_introl eq_refl) Ef). }
  cbn [fst snd]. case_match; [|by eexists _, _]. unfold put_gcSize. destruct (reliable_put (shed db) (gcSizeKey (layout C)) (BE_PutUint64 it.1)) as [st' Ep].
  unfold Field_Put, encodeUint64. rewrite Ep. eexists _, _. split; [done|].
  assert (Hr : forall k, k <> gcSizeKey (layout C) -> bget st' k = rd db k) by (intros k Hk; rewrite (bget_put _ _ _ _ k Ep); cbn [bop_apply]; by rewrite decide_False).
  split; [|done]. apply typed_nil; [done|]. intros k. destruct (decide (k = gcSizeKey (layout C))) as [->|Hk].
  - unfold rd. cbn [shed set_shed]. rewrite (bget_put _ _ _ _ _ Ep). cbn [bop_apply]. rewrite decide_True by done. cbn [cell_ok].
    rewrite <- (app_nil_r (gcSizeKey (layout C))). apply entry_field; [done|]. by apply lo_heads.
  - unfold rd. cbn [shed set_shed]. rewrite Hr by done. apply (ty_rd _ _ Hty).
Qed.

Lemma New_opens st L st' baseKey (s2 : S2) o time mem : openStore st = Ok (L, st') -> opened L st' ->
  (forall k, cell_ok (MkConfig leveldb L 0 false [] time mem) k (bget st' k)) ->
  exists C (db : DB), New st baseKey s2 o time mem = Ok (C, db) /\ layout C = L /\ typed C db /\ opened L (shed db) /\
    forall k, k <> gcSizeKey L -> rd db k = bget st' k.
Proof.
  intros E Ho Hr. pose proof (opened_layout _ _ Ho) as HL. unfold New. rewrite E. cbn [mbind result_bind]. cbv zeta.
  set (o' := default _ o). set (C := MkConfig _ _ _ _ _ _ _). set (db := MkDB _ _ _ _ _ _ _ _ _ _ _ _).
  destruct (repair_spec C db HL) as (db' & n & -> & Hty & Hrd); [by apply typed_nil|done|].
  exists C, db'. split; [done|]. split; [done|]. split; [done|]. split; [|done].
  destruct (op_fields _ _ Ho) as [Hg _]. apply (opened_same L st'); [| |done]; apply Hrd; cbn [layout C]; by rewrite Hg.
Qed.

(** What a caller sees of chunks and pins. *)
Definition answers (C : Config) (db : DB) (a : bytes) : result lsError bool * result lsError bool * result lsError chunk :=
  ((Has C ModeHasChunk a db).2, (Has C ModeHasPin a db).2, (Get C ModeGetLookup a [] 0 db).2).

Lemma answers_same C C' (db db' : DB) a : layout C' = layout C -> (forall k, kept_key C k -> rd db' k = rd db k) -> answers C' db' a = answers C db a.
Proof.
  intros HLc Hr. assert (Hd : bget (shed db') (datakey C a) = bget (shed db) (datakey C a)) by apply Hr, kept_datakey.
  assert (Hp : bget (shed db') (pinkey C a) = bget (shed db) (pinkey C a)) by apply Hr, kept_pinkey.
  assert (Ed : encodeKeyFunc (retrievalDataIndex (layout C)) (addressToItem a) = datakey C a) by (unfold datakey; by destruct a).
  assert (Ep : encodeKeyFunc (pinIndex (layout C)) (addressToItem a) = pinkey C a) by (unfold pinkey; by destruct a).
  unfold answers, Has, Get, get, translate, index_Has, index_Get, mbind, M_bind, get_state, lift, Shed.Has, Shed.Get. rewrite HLc, Ed, Ep, Hd, Hp.
  f_equal. cbn [snd]. destruct (bget (shed db) (datakey C a)) as [v|e]; [|by destruct e]. cbn [mbind result_bind]. destruct (of_panic _) as [x|e]; [done|by destruct e].
Qed.
End Restart.

Lemma kept_apart (C : Config) k : layout_ok (layout C) -> kept_key C k -> k <> gcSizeKey (layout C) /\ k <> keySchema.
Proof.
  intros HL Hk. destruct (lo_heads _ HL) as [Hg _]. split.
  - rewrite <- (app_nil_r (gcSizeKey (layout C))). by apply (kept_field C HL).
  - destruct (prefixes C HL) as ((b & Eb & Hb) & (p & Ep & Hp) & _). destruct Hk as (a & [-> | ->]); unfold datakey, pinkey, keySchema; rewrite ?Eb, ?Ep; intros [= -> _]; lia.
Qed.

(** C4: a new database opens; after any calls, successful or not, it opens
    again with the same indexes, and the store then gives the same answers about
    every chunk and pin as before. *)
Theorem store_restart {S : Type} `{BE : Backend S} `{!Reliable S} `{CS : Codec SchemaSpec bytes} {S2 V : Type} `{ST : StateStorer S2 V}
    `{CB' : Codec BitVector V} `{CF : Codec FileView V} `{CM : Codec FileMirror V} (st : S) (baseKey : bytes) (s2 : S2) o time mem (calls : list call) :
  (forall k, bget st k = Err ErrNotFound) -> Forall call_ok calls ->
  exists C (db0 : DB (S := S) (S2 := S2)), New st baseKey s2 o time mem = Ok (C, db0) /\
    let db := (run C calls db0).1 in
    forall s2' o' time' mem', exists C' (db' : DB (S := S) (S2 := S2)), New (shed db) baseKey s2' o' time' mem' = Ok (C', db') /\
      layout C' = layout C /\ typed C' db' /\ forall a, answers C' db' a = answers C db a.
Proof.
  intros Hnew Hc. destruct (open_first st) as (L & st1 & E1 & Ho1 & R1); [apply Hnew..|].
  pose proof (opened_layout _ _ Ho1) as HL.
  destruct (New_opens st L st1 baseKey s2 o time mem E1 Ho1) as (C & db0 & E & <- & Hty & Ho & Hr).
  { apply (entries_meta _ st); [done|done| |intros k; by rewrite Hnew]. apply reliable_get. }
  exists C, db0. split; [done|]. cbv zeta. destruct (run_typed C HL calls db0 Hc Hty) as (Hty1 & Hmeta & _). set (db := (run C calls db0).1) in *. clearbody db.
  injection Hmeta as Hm1 Hm2. assert (Ho2 : opened (layout C) (shed db)) by (by apply (opened_same _ (shed db0))).
  destruct (open_again _ _ Ho2) as (st3 & E3 & Ho3 & R3). intros s2' o' time' mem'.
  destruct (New_opens (shed db) (layout C) st3 baseKey s2' o' time' mem' E3 Ho3) as (C' & db' & E' & HLc & Hty' & _ & Hr').
  { apply (entries_meta _ (shed db)); [done|intros k K1 _; by apply R3|apply reliable_get|]. apply (ty_rd _ _ Hty1). }
  exists C', db'. split; [done|]. split; [done|]. split; [done|]. intros a. apply answers_same; [done|].
  intros k Hk. destruct (kept_apart C k HL Hk) as [K1 K2]. rewrite Hr' by done. by apply R3.
Qed.

(** *** An example *)

Module schema_codec.
#[export] Instance fieldSpec_eq_dec : EqDecision FieldSpec.
Proof. solve_decision. Defined.
#[export] Instance indexSpec_eq_dec : EqDecision IndexSpec.
Proof. solve_decision. Defined.
#[export] Instance schemaSpec_eq_dec : EqDecision SchemaSpec.
Proof. solve_decision. Defined.
#[export] Instance fieldSpec_countable : Countable FieldSpec.
Proof. apply (inj_countable' (fun f => (FieldName f, FieldType f)) (fun p => MkFieldSpec p.1 p.2)). by intros []. Defined.
#[export] Instance indexSpec_countable : Countable IndexSpec.
Proof. apply (inj_countable' (fun f => (IndexName f, IndexPrefix f)) (fun p => MkIndexSpec p.1 p.2)). by intros []. Defined.
#[export] Instance schemaSpec_countable : Countable SchemaSpec.
Proof. apply (inj_countable' (fun s => (Fields s, Indexes s)) (fun p => MkSchemaSpec p.1 p.2)). by intros []. Defined.

#[export, refine] Instance schema_codec : Codec SchemaSpec bytes := {|
  marshal s := [Zpos (encode s)];
  unmarshal b := match b with [Zpos p] => decode p | _ => None end;
|}.
Proof. intros s. apply decode_encode. Defined.
End schema_codec.
Import schema_codec LocalStoreRefs.example.

Definition noData : gmap bytes bytes := ∅.
Definition noState : gmap bytes value := ∅.

Lemma store_restart_witness : exists C (db0 : DB (S := gmap bytes bytes) (S2 := gmap bytes value)),
  New noData (replicate 32 0) noState None (fun n => 1000 + Z.of_nat n) (fun _ => 0) = Ok (C, db0) /\
  exists C' db', New (shed (run C some_calls db0).1) (replicate 32 0) noState None (fun _ => 9000) (fun _ => 0) = Ok (C', db') /\
    answers C' db' (addr (ch 2)) = answers C (run C some_calls db0).1 (addr (ch 2)).
Proof.
  destruct (store_restart noData (replicate 32 0) noState None (fun n => 1000 + Z.of_nat n) (fun _ => 0) some_calls) as (C & db0 & E & H);
    [intros k; reflexivity|by repeat constructor|].
  exists C, db0. split; [exact E|]. cbv zeta in H. destruct (H noState None (fun _ => 9000) (fun _ => 0)) as (C' & db' & E' & _ & _ & Ha).
  exists C', db'. split; [exact E'|apply Ha].
Defined.
