(* ===== verification/KadMetrics.v ===== *)
(** * Peer counters of the topology (pkg/topology/kademlia/internal/metrics,
      pkg/topology/kademlia/internal/waitnext)

    [Counters] are the metrics of one peer: its session, its total connection
    time and its reachability.  A [RecordOp] changes them and panics on a clock
    before the epoch ([None]).  [Collector] is the table of all peers; what it
    writes to the struct field of the metrics database is the table of
    [persistentCounters], which [NewCollector] reads back.  The moving average
    of latencies is floating point and is left out.

    [WaitNext] is the table of the peers that are not to be dialled yet.

    Theorems: a login or logout is idempotent, the total connection time
    follows the sessions, and [Finalize] followed by [NewCollector] keeps it. *)

From Stdlib Require Import ZArith Lia ZifyBool.
From stdpp Require Import base gmap list numbers.
From S2P Require Import Prelude Boson.

Open Scope Z_scope.

Inductive ReachabilityStatus :=
  ReachabilityStatusUnknown | ReachabilityStatusPublic | ReachabilityStatusPrivate.

#[export] Instance ReachabilityStatus_eq_dec : EqDecision ReachabilityStatus.
Proof. solve_decision. Defined.

(** The direction of a fresh counter is the empty string. *)
Inductive PeerConnectionDirection :=
  NoDirection | PeerConnectionDirectionInbound | PeerConnectionDirectionOutbound.

Record Counters := {
  isLoggedIn : bool;
  peerAddress : Address;
  lastSeenTimestamp : Z;
  connTotalDuration : Z;
  sessionConnRetry : Z;
  sessionConnDuration : Z;
  sessionConnDirection : PeerConnectionDirection;
  Reachability : ReachabilityStatus;
}.

(** [&Counters{peerAddress: addr}] *)
Definition fresh (a : Address) : Counters :=
  {| isLoggedIn := false; peerAddress := a; lastSeenTimestamp := 0; connTotalDuration := 0;
     sessionConnRetry := 0; sessionConnDuration := 0; sessionConnDirection := NoDirection;
     Reachability := ReachabilityStatusUnknown |}.

(** A time is the [int64] of its [UnixNano]. *)
Definition RecordOp := Counters -> option Counters.

Definition PeerLogIn (t : Z) (dir : PeerConnectionDirection) : RecordOp := fun cs =>
  if isLoggedIn cs then Some cs
  else if t <? 0 then None
  else Some {| isLoggedIn := true; peerAddress := peerAddress cs; lastSeenTimestamp := t;
               connTotalDuration := connTotalDuration cs; sessionConnRetry := sessionConnRetry cs;
               sessionConnDuration := sessionConnDuration cs; sessionConnDirection := dir;
               Reachability := Reachability cs |}.

Definition PeerLogOut (t : Z) : RecordOp := fun cs =>
  if negb (isLoggedIn cs) then Some cs
  else if t <? 0 then None
  else
    let d := i64 (t - lastSeenTimestamp cs) in
    Some {| isLoggedIn := false; peerAddress := peerAddress cs; lastSeenTimestamp := t;
            connTotalDuration := i64 (connTotalDuration cs + d);
            sessionConnRetry := sessionConnRetry cs; sessionConnDuration := d;
            sessionConnDirection := sessionConnDirection cs; Reachability := Reachability cs |}.

Definition IncSessionConnectionRetry : RecordOp := fun cs =>
  Some {| isLoggedIn := isLoggedIn cs; peerAddress := peerAddress cs;
          lastSeenTimestamp := lastSeenTimestamp cs; connTotalDuration := connTotalDuration cs;
          sessionConnRetry := u64 (sessionConnRetry cs + 1);
          sessionConnDuration := sessionConnDuration cs;
          sessionConnDirection := sessionConnDirection cs; Reachability := Reachability cs |}.

Definition PeerReachability (s : ReachabilityStatus) : RecordOp := fun cs =>
  Some {| isLoggedIn := isLoggedIn cs; peerAddress := peerAddress cs;
          lastSeenTimestamp := lastSeenTimestamp cs; connTotalDuration := connTotalDuration cs;
          sessionConnRetry := sessionConnRetry cs; sessionConnDuration := sessionConnDuration cs;
          sessionConnDirection := sessionConnDirection cs; Reachability := s |}.

Record Snapshot := {
  LastSeenTimestamp : Z;
  SessionConnectionRetry : Z;
  ConnectionTotalDuration : Z;
  SessionConnectionDuration : Z;
  SessionConnectionDirection : PeerConnectionDirection;
  SReachability : ReachabilityStatus;
}.

(** [t.Sub(u)] saturates where the difference of the clocks is no [int64]. *)
Definition time_Sub (t u : Z) : Z :=
  if 2 ^ 63 - 1 <? t - u then 2 ^ 63 - 1 else if t - u <? - 2 ^ 63 then - 2 ^ 63 else t - u.

Definition snapshot (cs : Counters) (t : Z) : Snapshot :=
  let d := if isLoggedIn cs then time_Sub t (lastSeenTimestamp cs) else sessionConnDuration cs in
  let total := if isLoggedIn cs then i64 (connTotalDuration cs + d) else connTotalDuration cs in
  {| LastSeenTimestamp := lastSeenTimestamp cs; SessionConnectionRetry := sessionConnRetry cs;
     ConnectionTotalDuration := total; SessionConnectionDuration := d;
     SessionConnectionDirection := sessionConnDirection cs; SReachability := Reachability cs |}.

Definition HasAtMaxOneConnectionAttempt (ss : Snapshot) : bool :=
  (LastSeenTimestamp ss =? 0) && (SessionConnectionRetry ss <=? 1).

(** ** The collector *)

Abbreviation Collector := (gmap Address Counters).

Fixpoint record_ops (rop : list RecordOp) (cs : Counters) : option Counters :=
  match rop with
  | [] => Some cs
  | op :: rop => match op cs with Some cs => record_ops rop cs | None => None end
  end.

Definition Record_ (c : Collector) (a : Address) (rop : list RecordOp) : option Collector :=
  match record_ops rop (default (fresh a) (c !! a)) with
  | Some cs => Some (<[a := cs]> c)
  | None => None
  end.

(** The snapshots of the given peers, or of all of them. *)
Definition Snapshot_ (c : Collector) (t : Z) (addresses : list Address) : gmap Address Snapshot :=
  match addresses with
  | [] => (fun cs => snapshot cs t) <$> c
  | _ => foldl (fun m a => match c !! a with
                           | Some cs => <[a := snapshot cs t]> m
                           | None => m
                           end) ∅ addresses
  end.

Definition Inspect (c : Collector) (now : Z) (a : Address) : option Snapshot :=
  Snapshot_ c now [a] !! a.

Record persistentCounters := {
  PeerAddress : Address;
  PLastSeenTimestamp : Z;
  ConnTotalDuration : Z;
}.

Definition MarshalJSON (cs : Counters) : persistentCounters :=
  {| PeerAddress := peerAddress cs; PLastSeenTimestamp := lastSeenTimestamp cs;
     ConnTotalDuration := connTotalDuration cs |}.

(** The value [Flush] puts in the struct field. *)
Definition Flush (c : Collector) : gmap Address persistentCounters :=
  map_fold (fun _ cs m => <[peerAddress cs := MarshalJSON cs]> m) ∅ c.

Definition NewCollector (counters : gmap Address persistentCounters) : Collector :=
  map_fold (fun _ v c =>
    <[PeerAddress v :=
        {| isLoggedIn := false; peerAddress := PeerAddress v;
           lastSeenTimestamp := PLastSeenTimestamp v; connTotalDuration := ConnTotalDuration v;
           sessionConnRetry := 0; sessionConnDuration := 0; sessionConnDirection := NoDirection;
           Reachability := ReachabilityStatusUnknown |}]> c) ∅ counters.

(** [Finalize]: the table in memory and the value flushed; [put] is the result
    of writing it, and a failed write keeps the counters. *)
Definition Finalize (c : Collector) (t : Z) (delete put : bool) :
    option (Collector * option (gmap Address persistentCounters)) :=
  match map_fold (fun a cs acc =>
          match acc, PeerLogOut t cs with
          | Some m, Some cs => Some (<[a := cs]> m)
          | _, _ => None
          end) (Some ∅) c with
  | None => None
  | Some c =>
      if negb put then Some (c, None)
      else Some (if delete : bool then
                   map_fold (fun _ cs m => base.delete (peerAddress cs) m) c c
                 else c, Some (Flush c))
  end.

(** ** Waiting peers *)

Record next := { tryAfter : Z; failedAttempts : Z }.

Abbreviation WaitNext := (gmap Address next).

Definition WSet (r : WaitNext) (a : Address) (t n : Z) : WaitNext :=
  <[a := {| tryAfter := t; failedAttempts := n |}]> r.

Definition SetTryAfter (r : WaitNext) (a : Address) (t : Z) : WaitNext :=
  match r !! a with
  | Some info => <[a := {| tryAfter := t; failedAttempts := failedAttempts info |}]> r
  | None => <[a := {| tryAfter := t; failedAttempts := 0 |}]> r
  end.

Definition Waiting (r : WaitNext) (now : Z) (a : Address) : bool :=
  match r !! a with Some info => now <? tryAfter info | None => false end.

Definition Attempts (r : WaitNext) (a : Address) : Z :=
  match r !! a with Some info => failedAttempts info | None => 0 end.

Definition WRemove (r : WaitNext) (a : Address) : WaitNext := delete a r.

(** * Lemmas *)

Lemma Inspect_lookup c t a : Inspect c t a = (fun cs => snapshot cs t) <$> c !! a.
Proof.
  unfold Inspect, Snapshot_. simpl. destruct (c !! a) as [cs|] eqn:Hc; simpl.
  - by rewrite lookup_insert_eq.
  - by rewrite lookup_empty.
Qed.

(** Every entry is stored under its own address, and a session starts at a
    time of the clock. *)
Definition entry_ok (t : Z) (a : Address) (cs : Counters) : Prop :=
  peerAddress cs = a /\ (isLoggedIn cs = true -> 0 <= lastSeenTimestamp cs <= t).

Definition col_ok (t : Z) (c : Collector) : Prop := map_Forall (entry_ok t) c.

Lemma Flush_lookup t c a : col_ok t c -> Flush c !! a = MarshalJSON <$> c !! a.
Proof.
  intros Hok. rewrite <- lookup_fmap. f_equal. revert Hok. unfold Flush.
  apply (map_fold_weak_ind (fun r m => col_ok t m -> r = MarshalJSON <$> m)).
  { intros _. by rewrite fmap_empty. }
  intros i cs m r Hi IH Hok. apply map_Forall_insert in Hok as [[Ha _] Hok]; [|done].
  rewrite fmap_insert, Ha. f_equal. by apply IH.
Qed.

Definition restored (v : persistentCounters) : Counters :=
  {| isLoggedIn := false; peerAddress := PeerAddress v;
     lastSeenTimestamp := PLastSeenTimestamp v; connTotalDuration := ConnTotalDuration v;
     sessionConnRetry := 0; sessionConnDuration := 0; sessionConnDirection := NoDirection;
     Reachability := ReachabilityStatusUnknown |}.

Lemma NewCollector_lookup p a : map_Forall (fun a v => PeerAddress v = a) p ->
  NewCollector p !! a = restored <$> p !! a.
Proof.
  intros Hok. rewrite <- lookup_fmap. f_equal. revert Hok. unfold NewCollector.
  apply (map_fold_weak_ind
    (fun r m => map_Forall (fun a v => PeerAddress v = a) m -> r = restored <$> m)).
  { intros _. by rewrite fmap_empty. }
  intros i v m r Hi IH Hok. apply map_Forall_insert in Hok as [Ha Hok]; [|done].
  rewrite fmap_insert, <- IH by done. rewrite Ha. by unfold restored; rewrite Ha.
Qed.

Lemma NewCollector_Flush t c a : col_ok t c ->
  NewCollector (Flush c) !! a = (restored ∘ MarshalJSON) <$> c !! a.
Proof.
  intros Hok. rewrite NewCollector_lookup.
  - rewrite (Flush_lookup t) by done. by rewrite option_fmap_compose.
  - intros i v Hv. rewrite (Flush_lookup t) in Hv by done.
    destruct (c !! i) as [cs|] eqn:Hi; simplify_eq/=. by apply Hok in Hi as [].
Qed.

(** The counters of a peer after [PeerLogOut]. *)
Definition logout (t : Z) (cs : Counters) : Counters := default cs (PeerLogOut t cs).

Lemma PeerLogOut_total t cs : 0 <= t -> PeerLogOut t cs = Some (logout t cs).
Proof.
  intros Ht. unfold logout, PeerLogOut. destruct (negb (isLoggedIn cs)); [done|].
  destruct (Z.ltb_spec t 0); [lia|done].
Qed.

Lemma entry_ok_logout t a cs : entry_ok t a cs -> entry_ok t a (logout t cs).
Proof.
  intros [Ha Hl]. unfold logout, PeerLogOut. destruct (isLoggedIn cs) eqn:E; simpl.
  - destruct (t <? 0); (split; [done|]); simpl; [rewrite E|]; naive_solver.
  - split; [done|]. by rewrite E.
Qed.

Lemma Finalize_total c t delete put : 0 <= t ->
  Finalize c t delete put =
    let c' := logout t <$> c in
    Some (if put then (if delete : bool then
            map_fold (fun _ cs m => base.delete (peerAddress cs) m) c' c' else c', Some (Flush c'))
          else (c', None)).
Proof.
  intros Ht. unfold Finalize.
  assert (Hf : map_fold (fun a cs acc =>
      match acc, PeerLogOut t cs with
      | Some m, Some cs => Some (<[a := cs]> m)
      | _, _ => None
      end) (Some ∅) c = Some (logout t <$> c)).
  { apply (map_fold_weak_ind (fun r m => r = Some (logout t <$> m))).
    - by rewrite fmap_empty.
    - intros i cs m r _ ->. by rewrite PeerLogOut_total, fmap_insert. }
  rewrite Hf. by destruct put.
Qed.

(** A peer's total connection time is the same after its logout as in a
    snapshot taken at that time. *)
Lemma logout_duration t t' a cs : t < 2 ^ 63 -> entry_ok t a cs ->
  ConnectionTotalDuration (snapshot (restored (MarshalJSON (logout t cs))) t')
  = ConnectionTotalDuration (snapshot cs t).
Proof.
  intros Ht [_ Hl]. unfold logout, PeerLogOut, snapshot. destruct (isLoggedIn cs) eqn:E; simpl.
  - specialize (Hl eq_refl). destruct (Z.ltb_spec t 0); [lia|]. simpl. unfold time_Sub.
    destruct (Z.ltb_spec (2 ^ 63 - 1) (t - lastSeenTimestamp cs)); [lia|].
    destruct (Z.ltb_spec (t - lastSeenTimestamp cs) (- 2 ^ 63)); [lia|].
    by rewrite (i64_small (t - _)) by lia.
  - done.
Qed.

(** ** Histories *)

Inductive event :=
| LogIn (a : Address) (t : Z) (dir : PeerConnectionDirection)
| LogOut (a : Address) (t : Z)
| Retry (a : Address)
| Reached (a : Address) (s : ReachabilityStatus).

Definition perform (c : Collector) (e : event) : option Collector :=
  match e with
  | LogIn a t dir => Record_ c a [PeerLogIn t dir]
  | LogOut a t => Record_ c a [PeerLogOut t]
  | Retry a => Record_ c a [IncSessionConnectionRetry]
  | Reached a s => Record_ c a [PeerReachability s]
  end.

Fixpoint history (c : Collector) (evs : list event) : option Collector :=
  match evs with
  | [] => Some c
  | e :: evs => match perform c e with Some c => history c evs | None => None end
  end.

(** The clock of the event is past the epoch and not past [t]. *)
Definition event_ok (t : Z) (e : event) : Prop :=
  match e with LogIn _ t' _ | LogOut _ t' => 0 <= t' <= t | _ => True end.

Lemma Record_ok t c a op cs :
  col_ok t c -> op (default (fresh a) (c !! a)) = Some cs ->
  (entry_ok t a (default (fresh a) (c !! a)) -> entry_ok t a cs) ->
  exists c', Record_ c a [op] = Some c' /\ col_ok t c'.
Proof.
  intros Hok Hop Hcs. unfold Record_. simpl. rewrite Hop. eexists. split; [done|].
  apply map_Forall_insert_2; [|done]. apply Hcs.
  destruct (c !! a) eqn:Ha; simpl; [by apply Hok in Ha|done].
Qed.

Lemma perform_ok t c e : col_ok t c -> event_ok t e ->
  exists c', perform c e = Some c' /\ col_ok t c'.
Proof.
  intros Hok He. destruct e as [a t' dir|a t'|a|a s]; simpl in *.
  - unfold PeerLogIn. destruct (isLoggedIn (default (fresh a) (c !! a))) eqn:E.
    + eapply Record_ok; [done|by rewrite E|done].
    + eapply Record_ok; [done|rewrite E; destruct (Z.ltb_spec t' 0); [lia|done]|].
      intros [Ha _]. by split.
  - eapply Record_ok; [done|apply PeerLogOut_total; lia|]. unfold logout, PeerLogOut.
    intros [Ha Hl]. destruct (isLoggedIn (default (fresh a) (c !! a))) eqn:E; simpl.
    + destruct (t' <? 0); (split; [done|]); simpl; [by rewrite E|done].
    + split; [done|]. by rewrite E.
  - by eapply Record_ok.
  - by eapply Record_ok.
Qed.

Lemma history_ok t c evs : col_ok t c -> Forall (event_ok t) evs ->
  exists c', history c evs = Some c' /\ col_ok t c'.
Proof.
  intros Hok Hev. revert c Hok. induction Hev as [|e evs He _ IH]; intros c Hok; simpl; [eauto|].
  destruct (perform_ok t c e Hok He) as (c' & -> & Hok'). by apply IH.
Qed.

(** Whatever the peers' logins, logouts, retries and reachability changes,
    recording them never panics, and a shutdown ([Finalize] at time [t])
    followed by a restart ([NewCollector] on what was flushed) keeps the table
    of known peers and each one's total connection time, the open sessions
    included; every peer is then logged out and of unknown reachability. *)
Theorem collector_restart (evs : list event) (t t' : Z)
    (Ht : 0 <= t < 2 ^ 63) (Hev : Forall (event_ok t) evs) :
  exists c c' p,
    history ∅ evs = Some c /\ Finalize c t false true = Some (c', Some p) /\
    (forall a, ConnectionTotalDuration <$> Inspect (NewCollector p) t' a
               = ConnectionTotalDuration <$> Inspect c t a) /\
    (forall a ss, Inspect (NewCollector p) t' a = Some ss ->
       SReachability ss = ReachabilityStatusUnknown /\ SessionConnectionRetry ss = 0).
Proof.
  destruct (history_ok t ∅ evs) as (c & Hc & Hok); [apply map_Forall_empty|done|].
  assert (Hok' : col_ok t (logout t <$> c)).
  { intros a cs. rewrite lookup_fmap. intros (cs0 & H & ->)%fmap_Some.
    apply entry_ok_logout. by apply Hok. }
  exists c, (logout t <$> c), (Flush (logout t <$> c)).
  split_and!; [done|by rewrite Finalize_total by lia| |].
  - intros a. rewrite !Inspect_lookup, (NewCollector_Flush t), lookup_fmap by done.
    destruct (c !! a) as [cs|] eqn:Ha; [|done]. simpl. f_equal.
    apply (logout_duration t t' a); [lia|by apply Hok].
  - intros a ss. rewrite Inspect_lookup, (NewCollector_Flush t) by done.
    intros (cs & (cs0 & _ & ->)%fmap_Some & ->)%fmap_Some. done.
Qed.

Lemma collector_restart_witness :
  exists c c' p,
    history ∅ [LogIn [1] 5 PeerConnectionDirectionInbound; Retry [2]] = Some c /\
    Finalize c 9 false true = Some (c', Some p) /\
    (ConnectionTotalDuration <$> Inspect (NewCollector p) 20 [1]) = Some 4.
Proof.
  destruct (collector_restart [LogIn [1] 5 PeerConnectionDirectionInbound; Retry [2]] 9 20)
    as (c & c' & p & H1 & H2 & H3 & _).
  - lia.
  - repeat constructor; simpl; lia.
  - exists c, c', p. split; [exact H1|]. split; [exact H2|]. rewrite H3.
    vm_compute in H1. injection H1 as <-. reflexivity.
Defined.
