(* ===== verification/Kademlia.v ===== *)
(** * Kademlia topology (pkg/topology/kademlia)

    [Kad] keeps the connected and the known peers in two [PSlice]s and derives
    from them the neighbourhood depth, the saturation of a bin, the peer closest
    to an address and the peers to dial or to drop.

    Every handler is the list of its critical sections ([atom]s): one update of
    a shared structure under its mutex.  [apply] runs one, a handler running
    alone is [run], and concurrent handlers are interleavings of their lists.
    What other services answer during a call (the clock, the discovery driver,
    the p2p service, the address book, the random reader) is the [Env] of the
    call.  A peer's mode is the pair of bits the handlers read.

    Depth, saturation and lookups are pure functions of the state, as in the
    source, where they run under the read lock. *)

From Stdlib Require Import ZArith Lia ZifyBool.
From stdpp Require Import base gmap list numbers.
From S2P Require Import Prelude Boson PSlice KadMetrics.

Open Scope Z_scope.

(** ** Limits *)

Definition nnLowWatermark : Z := 3.
Definition bootNodeOverSaturationPeers : Z := 20.
Definition broadcastBinSize : Z := 4.
Definition maxConnAttempts : Z := 1.
Definition defaultBitSuffixLength : Z := 3.

(** [shortRetry] is thirty seconds of nanoseconds. *)
Definition timeToRetry : Z := 2 * 30000000000.

Record limits := {
  quickSaturationPeers : Z;
  saturationPeers : Z;
  overSaturationPeers : Z;
}.

(** The package variables, and how [New] sets them from [BinMaxPeers]. *)
Definition set_limits (BinMaxPeers : Z) : limits :=
  if 0 <? BinMaxPeers then
    let b := if BinMaxPeers <? 5 then 5 else BinMaxPeers in
    let over := if Z.rem b 5 =? 0 then b else b - Z.rem b 5 + 5 in
    {| overSaturationPeers := over; saturationPeers := Z.quot over 5 * 2;
       quickSaturationPeers := Z.quot over 5 |}
  else {| quickSaturationPeers := 4; saturationPeers := 8; overSaturationPeers := 20 |}.

(** ** Depth *)

Definition peerFilterFunc := Address -> bool.

(** The callback that looks for the shallowest unsaturated bin; its state is
    [(shallowestUnsaturated, binCount)]. *)
Definition unsaturated_visit (lim : limits) (filter : peerFilterFunc) : EachPeerFunc (Z * Z) unit :=
  fun '(su, binCount) addr bin =>
    if filter addr then ((su, binCount), (false, false, None))
    else if bin =? su then ((su, binCount + 1), (false, false, None))
    else if (su <? bin) && (binCount <? quickSaturationPeers lim)
    then ((su, binCount), (true, false, None))
    else ((bin, 1), (false, false, None)).

(** The callback that looks for the nearest neighbours; its state is
    [(peersCtr, candidate)]. *)
Definition candidate_visit (filter : peerFilterFunc) : EachPeerFunc (Z * Z) unit :=
  fun '(peersCtr, candidate) addr po =>
    if filter addr then ((peersCtr, candidate), (false, false, None))
    else if nnLowWatermark <=? peersCtr + 1 then ((peersCtr + 1, po), (true, false, None))
    else ((peersCtr + 1, candidate), (false, false, None)).

Definition recalcDepth (lim : limits) (peers : PSlice) (radius : Z) (filter : peerFilterFunc) : Z :=
  if Length peers <=? nnLowWatermark then 0
  else
    let '(shallowestEmpty, noEmptyBins) := ShallowestEmpty peers in
    let '((su, _), _) := EachBinRev peers (unsaturated_visit lim filter) (0, 0) in
    let su := if negb noEmptyBins && (shallowestEmpty <? su) then shallowestEmpty else su in
    let '((_, candidate), _) := EachBin peers (candidate_visit filter) (0, 0) in
    if candidate <? su then (if radius <? candidate then radius else candidate)
    else if radius <? su then radius else su.

(** [(saturated, oversaturated)] *)
Definition binSaturated (lim : limits) (oversaturationAmount : Z) (staticNode : Address -> bool)
    (bin : Z) (peers connected : PSlice) (filter : peerFilterFunc) : bool * bool :=
  let potentialDepth := recalcDepth lim peers MaxPO filter in
  if potentialDepth <=? bin then (false, false)
  else
    let size := (EachBin (E := unit) connected (fun size addr po =>
      (if negb (filter addr) && (po =? bin) && negb (staticNode addr) then size + 1 else size,
       (false, false, None))) 0).1 in
    (saturationPeers lim <=? size, oversaturationAmount <=? size).

Definition isStaticPeer (staticNodes : list Address) (overlay : Address) : bool :=
  existsb (fun addr => Equal addr overlay) staticNodes.

(** ** Bin prefixes (binprefix.go)

    [None] is a panic: an index out of the range of the address. *)

(** [bits.Reverse8] *)
Definition Reverse8 (x : Z) : Z :=
  foldl (fun acc j => 2 * acc + (if Z.testbit x j then 1 else 0)) 0 [0; 1; 2; 3; 4; 5; 6; 7].

Definition clearBit (n pos : Z) : Z := Z.land n (u8 (Z.lnot (u8 (Z.shiftl 1 pos)))).

Definition setBit (n pos : Z) : Z := Z.lor n (u8 (Z.shiftl 1 pos)).

Definition hasBit (n pos : Z) : bool := 0 <? Z.land n (u8 (Z.shiftl 1 pos)).

(** [addr\[l/8\] = Reverse8(f(Reverse8(addr\[l/8\]), l%8))] *)
Definition on_bit (f : Z -> Z -> Z) (p : bytes) (l : Z) : option bytes :=
  match p !! Z.to_nat (l / 8) with
  | Some b => Some (<[Z.to_nat (l / 8) := Reverse8 (f (Reverse8 b) (l mod 8))]> p)
  | None => None
  end.

(** [bitSuffixPos] is one less than the number of bits left. *)
Fixpoint set_suffix (n : nat) (suffix : Z) (p : bytes) (l : Z) : option bytes :=
  match n with
  | O => Some p
  | S n =>
      match on_bit (if hasBit suffix (Z.of_nat n) then setBit else clearBit) p l with
      | Some p => set_suffix n suffix p (l + 1)
      | None => None
      end
  end.

Fixpoint clear_rest (n : nat) (p : bytes) (l : Z) : option bytes :=
  match n with
  | O => Some p
  | S n => match on_bit clearBit p l with Some p => clear_rest n p (l + 1) | None => None end
  end.

Definition pseudo_address (base : Address) (suffixLength i j : nat) : option Address :=
  if zlen base <? 1 then Some base
  else
    match on_bit (fun b pos => if hasBit b pos then clearBit b pos else setBit b pos) base (Z.of_nat i) with
    | None => None
    | Some p =>
        match set_suffix suffixLength (u8 (Z.of_nat j)) p (Z.of_nat i + 1) with
        | None => None
        | Some p =>
            let l := (i + suffixLength + 1)%nat in
            clear_rest (8 * length p - l) p (Z.of_nat l)
        end
    end.

Definition generateCommonBinPrefixes (base : Address) (suffixLength : nat) :
    option (list (list Address)) :=
  mapM (fun i => mapM (pseudo_address base suffixLength i) (seq 0 (2 ^ suffixLength)))
    (seq 0 (Z.to_nat MaxBins)).

(** ** State *)

Record Kad := {
  lim : limits;
  base : Address;
  oversaturation : Z;                      (* captured by [saturationFunc] *)
  bitSuffixLength : Z;
  commonBinPrefixes : list (list Address);
  connectedPeers : PSlice;
  knownPeers : PSlice;
  depth : Z;
  radius : Z;
  nodeBoot : bool;                         (* [nodeMode.IsBootNode()] *)
  collector : Collector;
  waitNext : WaitNext;
  staticNodes : list Address;
  reachability : ReachabilityStatus;
  protectPeers : list Address;
}.

Record Options := {
  BootMode : bool;
  BitSuffixLength : Z;
  StaticNodes : list Address;
  BinMaxPeers : Z;
}.

(** [New] with the default saturation, prune and reachability functions;
    [imc] is the collector read from the metrics database. *)
Definition New (base : Address) (imc : Collector) (o : Options) : option Kad :=
  let lim := set_limits (BinMaxPeers o) in
  let os := overSaturationPeers lim in
  let os := if BootMode o && (os <? bootNodeOverSaturationPeers)
            then bootNodeOverSaturationPeers else os in
  let suf := if BitSuffixLength o =? 0 then defaultBitSuffixLength else BitSuffixLength o in
  match (if 0 <? suf then generateCommonBinPrefixes base (Z.to_nat suf)
         else Some (replicate (Z.to_nat MaxBins) [])) with
  | None => None
  | Some prefixes =>
      Some {| lim := lim; base := base; oversaturation := os; bitSuffixLength := suf;
              commonBinPrefixes := prefixes; connectedPeers := PSlice.New MaxBins base;
              knownPeers := PSlice.New MaxBins base; depth := 0; radius := MaxPO;
              nodeBoot := BootMode o; collector := imc; waitNext := ∅;
              staticNodes := StaticNodes o; reachability := ReachabilityStatusUnknown;
              protectPeers := [] |}
  end.

(** Only the reachability of the snapshot is read, which does not depend on
    its time. *)
Definition peerUnreachable (k : Kad) (addr : Address) : bool :=
  match Inspect (collector k) 0 addr with
  | None => true
  | Some ss => negb (bool_decide (SReachability ss = ReachabilityStatusPublic))
  end.

Definition saturationFunc (k : Kad) (bin : Z) : bool * bool :=
  binSaturated (lim k) (oversaturation k) (isStaticPeer (staticNodes k)) bin
    (knownPeers k) (connectedPeers k) (peerUnreachable k).

Definition NeighborhoodDepth (k : Kad) : Z := depth k.

Definition IsProtectPeer (k : Kad) (peer : Address) : bool :=
  existsb (fun v => Equal v peer) (protectPeers k).

Definition IsWithinDepth (k : Kad) (addr : Address) : bool :=
  NeighborhoodDepth k <=? Proximity (base k) addr.

Definition IsSaturated (k : Kad) (bin : Z) : bool :=
  saturationPeers (lim k) <=? BinSize (connectedPeers k) bin.

(** ** Iterators *)

Section Iterators.
Context {St E : Type} (k : Kad) (f : EachPeerFunc St E) (st : St).

Definition EachNeighbor : St * option E :=
  EachBin (connectedPeers k) (fun st a po =>
    if po <? NeighborhoodDepth k then (st, (true, false, None)) else f st a po) st.

Definition EachNeighborRev : St * option E :=
  EachBinRev (connectedPeers k) (fun st a po =>
    if po <? NeighborhoodDepth k then (st, (false, true, None)) else f st a po) st.

(** [reachable] is the field of [topology.Filter]. *)
Definition EachPeer (reachable : bool) : St * option E :=
  EachBin (connectedPeers k) (fun st addr po =>
    if reachable && peerUnreachable k addr then (st, (false, false, None)) else f st addr po) st.

Definition EachPeerRev (reachable : bool) : St * option E :=
  EachBinRev (connectedPeers k) (fun st addr po =>
    if reachable && peerUnreachable k addr then (st, (false, false, None)) else f st addr po) st.
End Iterators.

Definition binReachablePeers (k : Kad) (bin : Z) : list Address :=
  (EachPeerRev (E := unit) k (fun peers p po =>
     if po =? bin then (peers ++ [p], (false, false, None))
     else if bin <? po then (peers, (true, false, None))
     else (peers, (false, true, None))) [] true).1.

(** ** Lookups *)

Inductive kadError :=
| ErrNotFound | ErrWantSelf | ErrOversaturated
| errOverlayMismatch | errPruneEntry | errEmptyBin | errAnnounceLightNode
| ErrNetworkUnavailable | ErrPeerBlocklisted | Canceled
| DialError | RandomError | BroadcastError | DisconnectError | BookError
| ErrDistance (e : distError).

Definition closestPeerFunc (addr : Address) (spf : Address -> bool) : EachPeerFunc Address kadError :=
  fun closest peer po =>
    if spf peer then (closest, (false, false, None))
    else if IsZero closest then (peer, (false, false, None))
    else match Closer peer addr closest with
         | Err e => (closest, (false, false, Some (ErrDistance e)))
         | Ok closer => (if closer : bool then peer else closest, (false, false, None))
         end.

Definition closestPeer (peers : PSlice) (addr : Address) (spf : Address -> bool) :
    result kadError Address :=
  let '(closest, err) := EachBinRev peers (closestPeerFunc addr spf) ZeroAddress in
  match err with
  | Some e => Err e
  | None => if IsZero closest then Err ErrNotFound else Ok closest
  end.

Fixpoint nClosePeerInSlice (peers : list Address) (addr : Address) (spf : Address -> bool)
    (minPO : Z) : option Address :=
  match peers with
  | [] => None
  | peer :: peers =>
      if spf peer then nClosePeerInSlice peers addr spf minPO
      else if minPO <=? ExtendedProximity peer addr then Some peer
      else nClosePeerInSlice peers addr spf minPO
  end.

Definition closest_visit (addr : Address) (skipPeers : list Address) : EachPeerFunc Address kadError :=
  fun closest peer po =>
    if existsb (fun a => Equal a peer) skipPeers then (closest, (false, false, None))
    else if IsZero closest then (peer, (false, false, None))
    else (match Closer peer addr closest with Ok true => peer | _ => closest end,
          (false, false, None)).

Definition ClosestPeer (k : Kad) (addr : Address) (includeSelf reachable : bool)
    (skipPeers : list Address) : result kadError Address :=
  if Length (connectedPeers k) =? 0 then Err ErrNotFound
  else
    let closest := if includeSelf && bool_decide (reachability k = ReachabilityStatusPublic)
                   then base k else ZeroAddress in
    let '(closest, err) := EachPeerRev k (closest_visit addr skipPeers) closest reachable in
    match err with
    | Some e => Err e
    | None =>
        if IsZero closest then Err ErrNotFound
        else if Equal closest (base k) then Err ErrWantSelf
        else Ok closest
    end.

(** [n] rounds are left of [limit]. *)
Fixpoint closest_rounds (k : Kad) (addr : Address) (n : nat) (reachable : bool)
    (out skipPeers : list Address) : list Address :=
  match n with
  | O => out
  | S n =>
      match ClosestPeer k addr false reachable skipPeers with
      | Err ErrNotFound => out
      | Err _ => closest_rounds k addr n reachable out skipPeers
      | Ok peer => closest_rounds k addr n reachable (out ++ [peer]) (skipPeers ++ [peer])
      end
  end.

Definition ClosestPeers (k : Kad) (addr : Address) (limit : Z) (reachable : bool)
    (skipPeers : list Address) : list Address :=
  closest_rounds k addr (Z.to_nat limit) reachable [] skipPeers.

(** [None] is a panic: the guard lets [bin = len(commonBinPrefixes)] through. *)
Definition IsBalanced (k : Kad) (bin : Z) : option bool :=
  if zlen (commonBinPrefixes k) <? bin then Some false
  else match commonBinPrefixes k !! Z.to_nat bin with
       | None => None
       | Some prefixes =>
           Some (forallb (fun pseudoAddr =>
             match closestPeer (connectedPeers k) pseudoAddr (fun _ => false) with
             | Err _ => false
             | Ok closest =>
                 bin + bitSuffixLength k + 1 <=? ExtendedProximity closest pseudoAddr
             end) prefixes)
       end.

(** ** Peers to dial *)

Record peerConnInfo := { info_po : Z; info_addr : Address }.

(** The first slot of a bin that has no connected peer and a known one that may
    be dialled; the loop leaves the bin after one attempt. *)
Fixpoint balance_bin (k : Kad) (now i : Z) (binPeers binConnectedPeers prefixes : list Address) :
    list peerConnInfo :=
  match prefixes with
  | [] => []
  | pseudoAddr :: prefixes =>
      let minPO := u8 (i + bitSuffixLength k + 1) in
      match nClosePeerInSlice binConnectedPeers pseudoAddr (fun _ => false) minPO with
      | Some _ => balance_bin k now i binPeers binConnectedPeers prefixes
      | None =>
          match nClosePeerInSlice binPeers pseudoAddr (Waiting (waitNext k) now) minPO with
          | None => balance_bin k now i binPeers binConnectedPeers prefixes
          | Some closestKnownPeer =>
              if Exists (connectedPeers k) closestKnownPeer
              then balance_bin k now i binPeers binConnectedPeers prefixes
              else [{| info_po := Proximity (base k) closestKnownPeer;
                       info_addr := closestKnownPeer |}]
          end
      end
  end.

(** The peers offered to the connection workers; an offer no worker takes is
    dropped there. *)
Definition connectBalanced (k : Kad) (now : Z) : list peerConnInfo :=
  mjoin (imap (fun n prefixes =>
    let i := Z.of_nat n in
    let binPeersLength := BinSize (knownPeers k) (u8 i) in
    if (NeighborhoodDepth k <=? i) && (binPeersLength <? zlen prefixes) then []
    else balance_bin k now i (BinPeers (knownPeers k) (u8 i)) (BinPeers (connectedPeers k) (u8 i))
           prefixes) (commonBinPrefixes k)).

(** The state of the callback is [(sent, currentPo)] and the offers. *)
Definition neighbour_visit (k : Kad) (now : Z) : EachPeerFunc (Z * Z * list peerConnInfo) unit :=
  fun '(sent, currentPo, out) addr po =>
    if po <? NeighborhoodDepth k then ((sent, currentPo, out), (false, true, None))
    else
      let '(sent, currentPo) := if po =? currentPo then (sent, currentPo) else (0, po) in
      if Exists (connectedPeers k) addr then ((sent, currentPo, out), (false, false, None))
      else if Waiting (waitNext k) now addr then ((sent, currentPo, out), (false, false, None))
      else ((sent + 1, currentPo, out ++ [{| info_po := po; info_addr := addr |}]),
            (false, sent + 1 =? saturationPeers (lim k), None)).

Definition connectNeighbours (k : Kad) (now : Z) : list peerConnInfo :=
  (EachBinRev (knownPeers k) (neighbour_visit k now) (0, 0, [])).1.2.

(** ** Peers to drop

    [idle] is what the resource manager answers when the free peers are
    listed; [drop] says that a peer was still idle when it was its turn and
    that [p2p.Disconnect] succeeded. *)

Definition balancedSlotPeers (k : Kad) (pseudoAddr : Address) (peers : list Address) (po : Z) :
    list Address :=
  List.filter (fun peer => po + bitSuffixLength k + 1 <=? ExtendedProximity peer pseudoAddr) peers.

Fixpoint first_dropped (drop : Address -> bool) (peers : list Address) : option Address :=
  match peers with
  | [] => None
  | peer :: peers => if drop peer then Some peer else first_dropped drop peers
  end.

Fixpoint prune_slots (k : Kad) (drop : Address -> bool) (i : Z) (freeList : list Address)
    (peersToRemove : Z) (prefixes : list Address) : list Address :=
  match prefixes with
  | [] => []
  | pseudoAddr :: prefixes =>
      if peersToRemove <=? 0 then []
      else
        let peers := balancedSlotPeers k pseudoAddr freeList i in
        if zlen peers <=? 1 then prune_slots k drop i freeList peersToRemove prefixes
        else match first_dropped drop peers with
             | Some peer => peer :: prune_slots k drop i freeList (peersToRemove - 1) prefixes
             | None => prune_slots k drop i freeList peersToRemove prefixes
             end
  end.

Definition prune_bin (k : Kad) (idle drop : Address -> bool) (i : Z) (prefixes : list Address) :
    list Address :=
  let over := overSaturationPeers (lim k) + quickSaturationPeers (lim k) in
  let binPeersCount := BinSize (connectedPeers k) (u8 i) in
  if binPeersCount <=? over then []
  else
    let freeList := List.filter (fun peer => negb (IsProtectPeer k peer) && idle peer)
                      (BinPeers (connectedPeers k) (u8 i)) in
    prune_slots k drop i freeList (binPeersCount - over) prefixes.

(** The peers that were disconnected. *)
Definition pruneOversaturatedBins (k : Kad) (idle drop : Address -> bool) (depth : Z) : list Address :=
  mjoin (imap (fun n prefixes =>
    let i := Z.of_nat n in
    if depth <=? i then [] else prune_bin k idle drop i prefixes) (commonBinPrefixes k)).

(** ** Critical sections *)

Inductive atom :=
| KnownAdd (addrs : list Address)
| KnownRemove (a : Address)
| ConnAdd (a : Address)
| ConnRemove (a : Address)
| WaitRemove (a : Address)
| WaitTryAfter (a : Address) (t : Z)
| WaitSet (a : Address) (t n : Z)
| Count (e : event)
| Recalc
| Radius (r : Z)
| SelfReachability (s : ReachabilityStatus)
| Protect (peers : list Address).

Definition set_peers (k : Kad) (conn known : PSlice) : Kad :=
  {| lim := lim k; base := base k; oversaturation := oversaturation k;
     bitSuffixLength := bitSuffixLength k; commonBinPrefixes := commonBinPrefixes k;
     connectedPeers := conn; knownPeers := known; depth := depth k; radius := radius k;
     nodeBoot := nodeBoot k; collector := collector k; waitNext := waitNext k;
     staticNodes := staticNodes k; reachability := reachability k; protectPeers := protectPeers k |}.

Definition set_depth (k : Kad) (d r : Z) : Kad :=
  {| lim := lim k; base := base k; oversaturation := oversaturation k;
     bitSuffixLength := bitSuffixLength k; commonBinPrefixes := commonBinPrefixes k;
     connectedPeers := connectedPeers k; knownPeers := knownPeers k; depth := d; radius := r;
     nodeBoot := nodeBoot k; collector := collector k; waitNext := waitNext k;
     staticNodes := staticNodes k; reachability := reachability k; protectPeers := protectPeers k |}.

Definition set_tables (k : Kad) (c : Collector) (w : WaitNext) : Kad :=
  {| lim := lim k; base := base k; oversaturation := oversaturation k;
     bitSuffixLength := bitSuffixLength k; commonBinPrefixes := commonBinPrefixes k;
     connectedPeers := connectedPeers k; knownPeers := knownPeers k; depth := depth k;
     radius := radius k; nodeBoot := nodeBoot k; collector := c; waitNext := w;
     staticNodes := staticNodes k; reachability := reachability k; protectPeers := protectPeers k |}.

Definition set_self (k : Kad) (s : ReachabilityStatus) (p : list Address) : Kad :=
  {| lim := lim k; base := base k; oversaturation := oversaturation k;
     bitSuffixLength := bitSuffixLength k; commonBinPrefixes := commonBinPrefixes k;
     connectedPeers := connectedPeers k; knownPeers := knownPeers k; depth := depth k;
     radius := radius k; nodeBoot := nodeBoot k; collector := collector k;
     waitNext := waitNext k; staticNodes := staticNodes k; reachability := s; protectPeers := p |}.

(** The depth of the present connections. *)
Definition current_depth (k : Kad) : Z :=
  recalcDepth (lim k) (connectedPeers k) (radius k) (peerUnreachable k).

Definition SetRadius (k : Kad) (r : Z) : Kad :=
  if radius k =? r then k
  else let k := set_depth k (depth k) r in set_depth k (current_depth k) r.

Definition apply (k : Kad) (x : atom) : option Kad :=
  match x with
  | KnownAdd addrs => Some (set_peers k (connectedPeers k) (Add (knownPeers k) addrs))
  | KnownRemove a => Some (set_peers k (connectedPeers k) (Remove (knownPeers k) a))
  | ConnAdd a => Some (set_peers k (Add (connectedPeers k) [a]) (knownPeers k))
  | ConnRemove a => Some (set_peers k (Remove (connectedPeers k) a) (knownPeers k))
  | WaitRemove a => Some (set_tables k (collector k) (WRemove (waitNext k) a))
  | WaitTryAfter a t => Some (set_tables k (collector k) (SetTryAfter (waitNext k) a t))
  | WaitSet a t n => Some (set_tables k (collector k) (WSet (waitNext k) a t n))
  | Count e =>
      match perform (collector k) e with
      | Some c => Some (set_tables k c (waitNext k))
      | None => None
      end
  | Recalc => Some (set_depth k (current_depth k) (radius k))
  | Radius r => Some (SetRadius k r)
  | SelfReachability s => Some (set_self k s (protectPeers k))
  | Protect l => Some (set_self k (reachability k) l)
  end.

(** ** Handlers *)

Record Peer := { overlay : Address; IsFull : bool; IsBootNode : bool }.

(** What [p2p.Connect] answers.  [Other] is any other error: its retry time
    when it is a [ConnectionBackoffError], and whether [isNetworkError]. *)
Inductive dialError :=
| NetworkUnavailable | DialLightNode | DialCanceled | Blocklisted
| Other (backoff : option Z) (network : bool).

Inductive dialResult :=
| Dialed (i : Peer) | AlreadyConnected (i : Peer) | DialFailed (e : dialError).

Record Env := {
  now : Z;
  isStart : bool;                                   (* discovery.IsStart *)
  isHive2 : bool;                                   (* discovery.IsHive2 *)
  rnd : Z -> nat -> option Z;                       (* the draws made for a bin *)
  broadcast : Address -> list Address -> bool;      (* BroadcastPeers succeeds *)
  networkAvailable : bool;
  disconnect : Address -> bool;                     (* p2p.Disconnect succeeds *)
  bookRemove : Address -> bool;                     (* addressBook.Remove succeeds *)
  dial : Address -> dialResult;                     (* p2p.Connect *)
}.

(** The shuffle of [randomSubset]: [i] is the index, [n] the rounds left. *)
Fixpoint shuffle (draw : nat -> option Z) (n i : nat) (addrs : list Address) : option (list Address) :=
  match n with
  | O => Some addrs
  | S n =>
      match draw i with
      | None => None
      | Some j =>
          match addrs !! i, addrs !! Z.to_nat j with
          | Some x, Some y => shuffle draw n (S i) (<[Z.to_nat j := x]> (<[i := y]> addrs))
          | _, _ => None
          end
      end
  end.

Definition randomSubset (draw : nat -> option Z) (addrs : list Address) (count : Z) :
    result kadError (list Address) :=
  if zlen addrs <=? count then Ok addrs
  else match shuffle draw (length addrs) 0 addrs with
       | None => Err RandomError
       | Some addrs => Ok (take (Z.to_nat count) addrs)
       end.

(** The peers chosen before the first failing draw. *)
Fixpoint announce_bins (e : Env) (k : Kad) (peer : Address) (bins : list Z) :
    list Address * result kadError unit :=
  match bins with
  | [] => ([], Ok tt)
  | bin :: bins =>
      match randomSubset (rnd e bin) (binReachablePeers k bin) broadcastBinSize with
      | Err err => ([], Err err)
      | Ok chosen =>
          let '(addrs, r) := announce_bins e k peer bins in
          (List.filter (fun c => negb (Equal c peer)) chosen ++ addrs, r)
      end
  end.

(** The messages [(addressee, peers)] and the result. *)
Definition Announce (e : Env) (k : Kad) (peer : Address) (fullnode : bool) :
    list (Address * list Address) * result kadError unit :=
  if negb (isStart e) || isHive2 e then ([], Ok tt)
  else
    let '(addrs, r) := announce_bins e k peer (map Z.of_nat (seq 0 (Z.to_nat MaxBins))) in
    let gossip := if fullnode then map (fun c => (c, [peer])) addrs else [] in
    match r with
    | Err err => (gossip, Err err)
    | Ok _ =>
        if zlen addrs =? 0 then (gossip, Ok tt)
        else (gossip ++ [(peer, addrs)],
              if broadcast e peer addrs then Ok tt else Err BroadcastError)
    end.

Definition AnnounceTo (e : Env) (addressee peer : Address) (fullnode : bool) :
    list (Address * list Address) * result kadError unit :=
  if negb fullnode then ([], Err errAnnounceLightNode)
  else if negb (isStart e) || isHive2 e then ([], Ok tt)
  else ([(addressee, [peer])], if broadcast e addressee [peer] then Ok tt else Err BroadcastError).

Definition AddPeers (addrs : list Address) : list atom := [KnownAdd addrs].

Definition Outbound (e : Env) (peer : Peer) : list atom :=
  [Count (LogIn (overlay peer) (now e) PeerConnectionDirectionOutbound); WaitRemove (overlay peer)]
  ++ if IsBootNode peer then [KnownRemove (overlay peer)]
     else [KnownAdd [overlay peer]; ConnAdd (overlay peer); Recalc].

Definition Pick (k : Kad) (peer : Address) : bool :=
  if nodeBoot k then true
  else if IsProtectPeer k peer then true
  else negb (saturationFunc k (Proximity (base k) peer)).2.

Definition onConnected (e : Env) (k : Kad) (addr : Address) : list atom * result kadError unit :=
  match (Announce e k addr true).2 with
  | Err err => ([], Err err)
  | Ok _ =>
      ([KnownAdd [addr]; ConnAdd addr; Count (LogIn addr (now e) PeerConnectionDirectionInbound);
        WaitRemove addr; Recalc], Ok tt)
  end.

(** The peer a full boot node gives up; [draw] is the index drawn. *)
Definition randomPeer (k : Kad) (bin : Z) (draw : option Z) : result kadError Address :=
  let peers := List.filter (fun p => negb (isStaticPeer (staticNodes k) p))
                 (BinPeers (connectedPeers k) bin) in
  match peers with
  | [] => Err errEmptyBin
  | _ => match draw ≫= fun j => peers !! Z.to_nat j with
         | Some p => Ok p
         | None => Err RandomError
         end
  end.

Definition Connected (e : Env) (k : Kad) (peer : Peer) (forceConnection : bool) :
    list atom * result kadError unit :=
  let address := overlay peer in
  let po := Proximity (base k) address in
  if (saturationFunc k po).2 && negb (IsProtectPeer k address) then
    if nodeBoot k then
      match randomPeer k po (rnd e po 0) with
      | Err err => ([], Err err)
      | Ok randPeer => onConnected e k address
      end
    else if negb forceConnection then ([], Err ErrOversaturated)
    else onConnected e k address
  else onConnected e k address.

Definition Disconnected (e : Env) (peer : Peer) : list atom :=
  [ConnRemove (overlay peer); WaitTryAfter (overlay peer) (i64 (now e + timeToRetry));
   Count (LogOut (overlay peer) (now e)); Recalc].

Definition DisconnectForce (e : Env) (addr : Address) : list atom * result kadError unit :=
  if negb (disconnect e addr) then ([], Err DisconnectError)
  else if negb (bookRemove e addr) then ([], Err BookError)
  else ([ConnRemove addr; KnownRemove addr; Count (LogOut addr (now e)); Recalc], Ok tt).

Definition Reachable (addr : Address) (status : ReachabilityStatus) : list atom :=
  Count (Reached addr status) ::
  if bool_decide (status = ReachabilityStatusPublic) then [Recalc] else [].

Definition UpdateReachability (status : ReachabilityStatus) : list atom :=
  if bool_decide (status = ReachabilityStatusUnknown) then [] else [SelfReachability status].

Definition RefreshProtectPeer (peers : list Address) : list atom := [Protect peers].

(** ** Dialling *)

(** The steps after a failed dial. *)
Definition dial_failed (e : Env) (k : Kad) (peer : Address) (backoff : option Z) (network : bool) :
    list atom :=
  let retryTime := default (i64 (now e + timeToRetry)) backoff in
  let failedAttempts := match backoff with Some _ => 0 | None => Attempts (waitNext k) peer + 1 end in
  let ss := match perform (collector k) (Retry peer) with
            | Some c => Inspect c (now e) peer
            | None => None
            end in
  let quickPrune := match ss with None => true | Some ss => HasAtMaxOneConnectionAttempt ss end && network in
  Count (Retry peer) ::
  if ((0 <? Length (connectedPeers k)) && quickPrune) || (maxConnAttempts <=? failedAttempts)
  then [WaitRemove peer; KnownRemove peer]
  else [WaitSet peer retryTime failedAttempts].

Definition connect (e : Env) (k : Kad) (peer : Address) : list atom * result kadError Peer :=
  match dial e peer with
  | DialFailed NetworkUnavailable => ([], Err ErrNetworkUnavailable)
  | r =>
      if negb (networkAvailable e) then ([], Err ErrNetworkUnavailable)
      else match r with
           | DialFailed NetworkUnavailable => ([], Err ErrNetworkUnavailable)
           | DialFailed DialLightNode => ([], Err errPruneEntry)
           | AlreadyConnected i =>
               ([], if negb (Equal (overlay i) peer) then Err errOverlayMismatch else Ok i)
           | DialFailed DialCanceled => ([], Err Canceled)
           | DialFailed Blocklisted => ([], Err ErrPeerBlocklisted)
           | DialFailed (Other backoff network) =>
               (dial_failed e k peer backoff network, Err DialError)
           | Dialed i =>
               ([], if negb (Equal (overlay i) peer) then Err errOverlayMismatch
                    else _ ← (Announce e k (overlay i) (IsFull i)).2; Ok i)
           end
  end.

Definition Connection (e : Env) (k : Kad) (addr : Address) : list atom * result kadError unit :=
  match connect e k addr with
  | (xs, Err err) =>
      (xs ++ match err with
             | errPruneEntry | errOverlayMismatch => [WaitRemove addr; KnownRemove addr]
             | _ => []
             end, Err err)
  | (xs, Ok i) => (xs ++ Outbound e i, Ok tt)
  end.

(** [found] is what the address book answers: an entry, no entry or an error. *)
Definition GetAuroraAddress (addr : Address) (found : result kadError bool) :
    list atom * result kadError unit :=
  match found with
  | Ok true => ([], Ok tt)
  | Ok false => ([KnownRemove addr], Err ErrNotFound)
  | Err err => ([], Err err)
  end.

(** A worker of [connectionAttemptsHandler] on one offer. *)
Definition connAttempt (e : Env) (k : Kad) (peer : Address) (found : result kadError bool) : list atom :=
  if Waiting (waitNext k) (now e) peer then []
  else match GetAuroraAddress peer found with
       | (xs, Err _) => xs
       | (xs, Ok _) => xs ++ (Connection e k peer).1
       end.

(** ** Runs *)

Inductive call :=
| CAddPeers (addrs : list Address)
| COutbound (peer : Peer)
| CConnected (peer : Peer) (forceConnection : bool)
| CDisconnected (peer : Peer)
| CDisconnectForce (addr : Address)
| CReachable (addr : Address) (status : ReachabilityStatus)
| CUpdateReachability (status : ReachabilityStatus)
| CSetRadius (r : Z)
| CRefreshProtectPeer (peers : list Address)
| CAttempt (peer : Address) (found : result kadError bool).

Definition code (e : Env) (k : Kad) (c : call) : list atom :=
  match c with
  | CAddPeers addrs => AddPeers addrs
  | COutbound peer => Outbound e peer
  | CConnected peer force => (Connected e k peer force).1
  | CDisconnected peer => Disconnected e peer
  | CDisconnectForce addr => (DisconnectForce e addr).1
  | CReachable addr status => Reachable addr status
  | CUpdateReachability status => UpdateReachability status
  | CSetRadius r => [Radius r]
  | CRefreshProtectPeer l => RefreshProtectPeer l
  | CAttempt peer found => connAttempt e k peer found
  end.

Fixpoint run (k : Kad) (xs : list atom) : option Kad :=
  match xs with
  | [] => Some k
  | x :: xs => match apply k x with Some k => run k xs | None => None end
  end.
