(* ===== verification/KadDepth.v ===== *)
(** * Neighbourhood depth (pkg/topology/kademlia, [recalcDepth] and its callers)

    [recalcDepth_max]: the two early-stopping scans of [recalcDepth] compute the
    greatest admissible depth within the radius.  [kad_depth]: however the
    handlers interleave, once they have finished the stored depth is that of
    the present connections. *)

From Stdlib Require Import ZArith Lia ZifyBool.
From stdpp Require Import base gmap list numbers sorting.
From S2P Require Import Prelude Boson PSlice KadMetrics Kademlia.

Open Scope Z_scope.

(** ** Early-stopping scans *)

Section Scan.
Context {St E : Type} (pf : EachPeerFunc St E).

Fixpoint scan (st : St) (l : list (Address * Z)) : St :=
  match l with
  | [] => st
  | (a, i) :: l => if (pf st a i).2.1.1 then (pf st a i).1 else scan (pf st a i).1 l
  end.

Hypothesis Hpf : forall st a i, (pf st a i).2.1.2 = false /\ (pf st a i).2.2 = None.

Lemma each_peer_scan st l p bs :
  match each_peer pf st l p with
  | (st, Continue) => scan st bs
  | (st, Return _) => st
  end = scan st (map (fun a => (a, p)) l ++ bs).
Proof.
  revert st. induction l as [|a l IH]; intros st; [done|]. simpl.
  destruct (Hpf st a p) as [H1 H2]. destruct (pf st a p) as [st' [[b n] err]]. simpl in *. subst.
  destruct b; [done|apply IH].
Qed.

Lemma each_bin_scan st bs :
  (each_bin pf st bs).1 = scan st (bs ≫= fun '(i, l) => map (fun a => (a, u8 i)) l).
Proof.
  revert st. induction bs as [|[i l] bs IH]; intros st; [done|].
  cbn [each_bin mbind list_bind]. rewrite <- each_peer_scan.
  destruct (each_peer pf st l (u8 i)) as [st' []]; [apply IH|done].
Qed.
End Scan.

(** ** Counting visits *)

(** The visits of unfiltered peers whose bin satisfies [p]. *)
Definition cnt (f : peerFilterFunc) (p : Z -> bool) (l : list (Address * Z)) : Z :=
  zlen (List.filter (fun x => negb (f x.1) && p x.2) l).

Lemma cnt_app f p l l' : cnt f p (l ++ l') = cnt f p l + cnt f p l'.
Proof. unfold cnt. rewrite List.filter_app, length_app. lia. Qed.

Lemma cnt_cons f p a i l :
  cnt f p ((a, i) :: l) = (if negb (f a) && p i then 1 else 0) + cnt f p l.
Proof. unfold cnt. simpl. destruct (negb (f a) && p i); simpl; lia. Qed.

Lemma cnt_nonneg f p l : 0 <= cnt f p l.
Proof. unfold cnt. lia. Qed.

Lemma cnt_zero f p l : (forall a i, (a, i) ∈ l -> f a = false -> p i = false) -> cnt f p l = 0.
Proof.
  induction l as [|[a i] l IH]; intros H; [done|]. rewrite cnt_cons, IH.
  - destruct (f a) eqn:Ea; simpl; [done|]. rewrite (H a i); [done|by left|done].
  - intros b j Hj. apply H. by right.
Qed.

Lemma cnt_mono f p q l : (forall i, p i = true -> q i = true) -> cnt f p l <= cnt f q l.
Proof.
  intros H. induction l as [|[a i] l IH]; [done|]. rewrite !cnt_cons.
  specialize (H i). destruct (f a), (p i), (q i); simpl; lia.
Qed.

Lemma cnt_ext_in f p q l : (forall a i, (a, i) ∈ l -> p i = q i) -> cnt f p l = cnt f q l.
Proof.
  induction l as [|[a i] l IH]; intros H; [done|]. rewrite !cnt_cons, (H a i) by (by left).
  f_equal. apply IH. intros b j Hj. apply (H b j). by right.
Qed.

Lemma cnt_perm f p l l' : l ≡ₚ l' -> cnt f p l = cnt f p l'.
Proof. induction 1 as [|[] ? ? ? IH|[] []|]; rewrite ?cnt_cons; [done|by rewrite IH|lia|congruence]. Qed.

Lemma cnt_in f p l : 0 < cnt f p l -> exists a i, (a, i) ∈ l /\ f a = false /\ p i = true.
Proof.
  induction l as [|[a i] l IH]; [done|]. rewrite cnt_cons.
  destruct (negb (f a) && p i) eqn:E.
  - intros _. exists a, i. apply andb_true_iff in E as [E%negb_true_iff ?]. by repeat constructor.
  - intros (b & j & Hj & ?)%IH. exists b, j. split; [by right|done].
Qed.

(** ** Order of the visits *)

Definition shallower (x y : Address * Z) : Prop := x.2 <= y.2.

Definition deeper (x y : Address * Z) : Prop := y.2 <= x.2.

Section Order.
Context (R : relation (Address * Z)).

Lemma sorted_app_elem l l' x y :
  StronglySorted R (l ++ l') -> x ∈ l -> y ∈ l' -> R x y.
Proof.
  induction l as [|z l IH]; [by inversion 2|]. intros Hs Hx Hy.
  apply StronglySorted_inv in Hs as [Hs Hz].
  apply elem_of_cons in Hx as [->|Hx]; [|by apply IH].
  rewrite Forall_forall in Hz. apply Hz, elem_of_app. by right.
Qed.

Lemma sorted_app_r l l' : StronglySorted R (l ++ l') -> StronglySorted R l'.
Proof. induction l as [|x l IH]; [done|]. inversion_clear 1. by apply IH. Qed.

Lemma sorted_app l l' : StronglySorted R l -> StronglySorted R l' ->
  (forall x y, x ∈ l -> y ∈ l' -> R x y) -> StronglySorted R (l ++ l').
Proof.
  intros Hl Hl' H. induction Hl as [|x l Hl IH Hx]; [done|]. simpl. constructor.
  - apply IH. intros y z Hy. apply H. by right.
  - apply Forall_app. split; [done|]. apply Forall_forall. intros y Hy. apply H; [by left|done].
Qed.

Lemma sorted_level l p : (forall x y, x.2 = y.2 -> R x y) ->
  StronglySorted R (map (fun a : Address => (a, p)) l).
Proof.
  intros H. induction l as [|a l IH]; [constructor|]. simpl. constructor; [done|].
  apply Forall_forall. intros x (b & -> & _)%list_elem_of_fmap. by apply H.
Qed.
End Order.

Definition level '((i, l) : Z * list Address) : list (Address * Z) := map (fun a => (a, u8 i)) l.

Lemma elem_of_levels (bs : list (Z * list Address)) a p :
  (a, p) ∈ (bs ≫= level) <-> exists i l, (i, l) ∈ bs /\ a ∈ l /\ p = u8 i.
Proof.
  rewrite list_elem_of_bind. split.
  - intros ([i l] & (x & ? & Hx)%list_elem_of_fmap & Hb). simplify_eq. eauto.
  - intros (i & l & Hb & Ha & ->). exists (i, l). split; [|done].
    apply list_elem_of_fmap. eauto.
Qed.

Lemma sorted_levels (ls : list (list Address)) (k : nat) : Z.of_nat k + zlen ls <= 256 ->
  StronglySorted shallower (imap (fun i l => (Z.of_nat (k + i), l)) ls ≫= level).
Proof.
  revert k. induction ls as [|l ls IH]; intros k Hk; [constructor|].
  cbn [imap mbind list_bind level]. apply sorted_app; [apply sorted_level; unfold shallower; intros ?? ->; lia| |].
  - rewrite (imap_ext _ (fun i l => (Z.of_nat (S k + i), l))); [apply IH; simpl in Hk; lia|].
    intros i x _. simpl. do 2 f_equal. lia.
  - intros [a p] [b q] (a' & ? & _)%list_elem_of_fmap (i & l' & Hi & _ & Hq)%elem_of_levels.
    apply elem_of_lookup_imap in Hi as (j & y & ? & Hj). simplify_eq/=.
    apply lookup_lt_Some in Hj. unfold shallower. simpl. rewrite !u8_small by lia. lia.
Qed.

Lemma sorted_visits s : wf s -> StronglySorted shallower (visits s).
Proof.
  intros [Hb Hr _ _]. apply (sorted_levels (peers s) 0). lia.
Qed.

(** The visits of [EachBin], deepest bin first. *)
Definition visits_down (s : PSlice) : list (Address * Z) := reverse (bins s) ≫= level.

Lemma visits_down_perm s : visits_down s ≡ₚ visits s.
Proof. unfold visits_down, visits. by rewrite (reverse_Permutation (bins s)). Qed.

Lemma deeper_levels bs : StronglySorted shallower (bs ≫= level) ->
  StronglySorted deeper (reverse bs ≫= level).
Proof.
  induction bs as [|[i l] bs IH]; [constructor|]. intros Hs.
  rewrite reverse_cons, bind_app. cbn [mbind list_bind] in *. rewrite app_nil_r.
  apply sorted_app.
  - apply IH. by eapply sorted_app_r.
  - apply sorted_level. unfold deeper. intros ?? ->. lia.
  - intros x y Hx Hy. rewrite reverse_Permutation in Hx.
    exact (sorted_app_elem shallower _ _ y x Hs Hy Hx).
Qed.

Lemma sorted_visits_down s : wf s -> StronglySorted deeper (visits_down s).
Proof. intros Hwf. by apply deeper_levels, sorted_visits. Qed.

(** ** The scan for the shallowest unsaturated bin *)

Section Depth.
Context (lim : limits) (f : peerFilterFunc).
Context (Hquick : 0 < quickSaturationPeers lim).

(** A bin that does not keep the depth from growing past it: it is saturated,
    or it is not bin 0 and the scan sees none of its peers. *)
Definition passable (l : list (Address * Z)) (i : Z) : Prop :=
  quickSaturationPeers lim <= cnt f (Z.eqb i) l \/ (0 < i /\ cnt f (Z.eqb i) l = 0).

(** What the scan's state says of the visits made. *)
Record scanned (pre : list (Address * Z)) (su c : Z) : Prop := {
  sc_count : c = cnt f (Z.eqb su) pre;
  sc_range : 0 <= su /\ (su = 0 \/ exists a, (a, su) ∈ pre);
  sc_seen : su = 0 \/ 0 < c;
  sc_below : forall a i, (a, i) ∈ pre -> f a = false -> i <= su;
  sc_pass : forall i, 0 <= i < su -> passable pre i;
}.

(** What its final state says of all visits. *)
Record unsaturated (l : list (Address * Z)) (su : Z) : Prop := {
  un_range : 0 <= su /\ (su = 0 \/ exists a, (a, su) ∈ l);
  un_pass : forall i, 0 <= i < su -> passable l i;
  un_stop : ~ passable l su \/ cnt f (Z.ltb su) l = 0;
}.

Lemma cnt_above_zero l l' i x :
  StronglySorted shallower (l ++ x :: l') -> i < x.2 -> cnt f (Z.eqb i) (x :: l') = 0.
Proof.
  intros Hs Hi. apply cnt_zero. intros a j Hj _. apply sorted_app_r in Hs.
  apply elem_of_cons in Hj as [<-|Hj]; [simpl in *; lia|].
  apply StronglySorted_inv in Hs as [_ Hs]. rewrite Forall_forall in Hs.
  specialize (Hs _ Hj). unfold shallower in Hs. simpl in Hs. lia.
Qed.

Lemma scanned_done pre su c : scanned pre su c -> unsaturated pre su.
Proof.
  intros [Hc Hr Hs Hb Hp]. split; [done|done|]. right. apply cnt_zero.
  intros a i Hi Ha. specialize (Hb a i Hi Ha). lia.
Qed.

(** The scan stops at an unsaturated bin. *)
Lemma scanned_stop pre su c x l : scanned pre su c ->
  StronglySorted shallower (pre ++ x :: l) -> su < x.2 -> c < quickSaturationPeers lim ->
  unsaturated (pre ++ x :: l) su.
Proof.
  intros [Hc Hr Hs Hb Hp] Hsort Hx Hq.
  assert (Hsame : forall i, i <= su -> cnt f (Z.eqb i) (pre ++ x :: l) = cnt f (Z.eqb i) pre).
  { intros i Hi. rewrite cnt_app, (cnt_above_zero pre l i x) by (done || lia). lia. }
  split.
  - destruct Hr as [Hr0 [?|[a Ha]]]; (split; [done|]); [by left|right].
    exists a. apply elem_of_app. by left.
  - intros i Hi. unfold passable. rewrite Hsame by lia. by apply Hp.
  - left. unfold passable. rewrite Hsame by lia. lia.
Qed.

(** One visit that continues. *)
Lemma scanned_next pre su c a i st :
  scanned pre su c -> 0 <= i -> (forall y, y ∈ pre -> y.2 <= i) ->
  unsaturated_visit lim f (su, c) a i = (st, (false, false, None)) ->
  scanned (pre ++ [(a, i)]) st.1 st.2.
Proof.
  intros [Hc Hr Hs Hb Hp] Hi Hpre Hv. unfold unsaturated_visit in Hv.
  assert (Hone : forall p, cnt f p (pre ++ [(a, i)]) = cnt f p pre + if negb (f a) && p i then 1 else 0).
  { intros p. rewrite cnt_app, cnt_cons. change (cnt f p []) with 0. lia. }
  assert (Hin : forall b j, (b, j) ∈ pre ++ [(a, i)] -> (b, j) ∈ pre \/ (b = a /\ j = i)).
  { intros b j [?|?%list_elem_of_singleton]%elem_of_app; [by left|right]. by simplify_eq. }
  assert (Hr' : 0 <= su /\ (su = 0 \/ exists a0, (a0, su) ∈ pre ++ [(a, i)])).
  { destruct Hr as [Hr0 [?|[a0 Ha0]]]; (split; [done|]); [by left|right].
    exists a0. apply elem_of_app. by left. }
  destruct (f a) eqn:Ea; [|destruct (Z.eqb_spec i su) as [->|Hne]].
  - simplify_eq/=. split; [rewrite Hone; lia|done|done| |].
    + intros b j [?|[-> ->]]%Hin Hb'; [eauto|congruence].
    + intros j Hj. unfold passable. rewrite Hone. simpl. rewrite Z.add_0_r. by apply Hp.
  - simplify_eq/=. split; [rewrite Hone; simpl; rewrite Z.eqb_refl; lia|done| | |].
    + right. pose proof (cnt_nonneg f (Z.eqb su) pre). lia.
    + intros b j [?|[-> ->]]%Hin Hb'; [eauto|lia].
    + intros j Hj. unfold passable. rewrite Hone. simpl.
      destruct (Z.eqb_spec j su); [lia|]. rewrite Z.add_0_r. by apply Hp.
  - assert (Hsu : su < i).
    { destruct Hr as [Hr0 [?|[a0 Ha0]]]; [lia|]. apply Hpre in Ha0. simpl in Ha0. lia. }
    destruct (Z.ltb_spec su i); [|lia].
    destruct (Z.ltb_spec c (quickSaturationPeers lim)); simplify_eq/=.
    split; [| | | |].
    + rewrite Hone. simpl. rewrite Z.eqb_refl, (cnt_zero f (Z.eqb i) pre); [done|].
      intros b j Hj Hf. specialize (Hb b j Hj Hf). lia.
    + split; [done|right]. exists a. apply elem_of_app. right. by apply list_elem_of_singleton.
    + by right.
    + intros b j [Hj|[-> ->]]%Hin Hb'; [|lia]. specialize (Hb b j Hj Hb'). lia.
    + intros j Hj. unfold passable. rewrite Hone. simpl.
      destruct (Z.eqb_spec j i); [lia|]. rewrite Z.add_0_r.
      destruct (Z.lt_trichotomy j su) as [?|[->|?]]; [apply Hp; lia|left; lia|].
      right. split; [lia|]. apply cnt_zero. intros b j' Hj' Hf. specialize (Hb b j' Hj' Hf). lia.
Qed.

Lemma unsaturated_scan pre l su c :
  scanned pre su c -> StronglySorted shallower (pre ++ l) ->
  (forall a i, (a, i) ∈ pre ++ l -> 0 <= i) ->
  unsaturated (pre ++ l) (scan (unsaturated_visit lim f) (su, c) l).1.
Proof.
  revert pre su c. induction l as [|[a i] l IH]; intros pre su c Hsc Hs Hpos.
  { rewrite app_nil_r. by eapply scanned_done. }
  cbn [scan].
  assert (Hpre : forall y, y ∈ pre -> y.2 <= i).
  { intros y Hy. apply (sorted_app_elem _ _ _ y (a, i) Hs Hy). by left. }
  assert (Hi : 0 <= i) by (apply (Hpos a), elem_of_app; right; by left).
  pose proof (scanned_next pre su c a i) as Hn.
  destruct (unsaturated_visit lim f (su, c) a i) as [st r] eqn:Hv.
  assert (Hr : r = (false, false, None) \/
               (r = (true, false, None) /\ st = (su, c) /\ su < i /\ c < quickSaturationPeers lim)).
  { unfold unsaturated_visit in Hv. destruct (f a), (i =? su), (Z.ltb_spec su i),
      (Z.ltb_spec c (quickSaturationPeers lim)); simplify_eq/=; auto. }
  destruct Hr as [-> | (-> & -> & ? & ?)]; simpl; [|by eapply scanned_stop].
  specialize (Hn st Hsc Hi Hpre eq_refl). destruct st as [su' c']. simpl in Hn.
  rewrite cons_middle, app_assoc in Hs, Hpos |- *. by eapply IH.
Qed.

(** ** The scan for the nearest neighbours *)

(** At or above the candidate bin there are enough peers, above it too few. *)
Record candidate_of (l : list (Address * Z)) (c : Z) : Prop := {
  ca_range : 0 <= c;
  ca_near : 0 < c -> nnLowWatermark <= cnt f (Z.leb c) l;
  ca_far : cnt f (Z.ltb c) l < nnLowWatermark;
}.

Lemma candidate_scan pre l ctr :
  ctr = cnt f (fun _ => true) pre -> ctr < nnLowWatermark ->
  StronglySorted deeper (pre ++ l) -> (forall a i, (a, i) ∈ pre ++ l -> 0 <= i) ->
  candidate_of (pre ++ l) (scan (candidate_visit f) (ctr, 0) l).2.
Proof.
  revert pre ctr. induction l as [|[a i] l IH]; intros pre ctr Hctr Hlow Hs Hpos.
  { rewrite app_nil_r. split; simpl; [done|done|].
    pose proof (cnt_mono f (Z.ltb 0) (fun _ => true) pre (fun _ _ => eq_refl)). lia. }
  assert (Hi : 0 <= i) by (apply (Hpos a), elem_of_app; right; by left).
  assert (Hone : cnt f (fun _ => true) (pre ++ [(a, i)])
                 = cnt f (fun _ => true) pre + if f a then 0 else 1).
  { rewrite cnt_app, cnt_cons. change (cnt f (fun _ => true) []) with 0. destruct (f a); simpl; lia. }
  assert (Hstep : forall c, c = cnt f (fun _ => true) (pre ++ [(a, i)]) -> c < nnLowWatermark ->
    candidate_of (pre ++ (a, i) :: l) (scan (candidate_visit f) (c, 0) l).2).
  { intros c Hc Hl. rewrite cons_middle, app_assoc in Hs, Hpos |- *. by apply IH. }
  cbn [scan]. destruct (candidate_visit f (ctr, 0) a i) as [st r] eqn:Hv.
  unfold candidate_visit in Hv. destruct (f a) eqn:Ea; [simplify_eq/=|].
  { apply Hstep; lia. }
  destruct (Z.leb_spec nnLowWatermark (ctr + 1)); simplify_eq/=; [|apply Hstep; lia].
  assert (Hpre : forall y, y ∈ pre -> i <= y.2).
  { intros y Hy. apply (sorted_app_elem _ _ _ y (a, i) Hs Hy). by left. }
  split; [done| |].
  - intros _. rewrite cnt_app, cnt_cons, Ea, Z.leb_refl. simpl.
    rewrite (cnt_ext_in f (Z.leb i) (fun _ => true) pre).
    + pose proof (cnt_nonneg f (Z.leb i) l). lia.
    + intros b j Hj%Hpre. simpl in Hj. lia.
  - rewrite cnt_app, (cnt_zero f (Z.ltb i) ((a, i) :: l)).
    + pose proof (cnt_mono f (Z.ltb i) (fun _ => true) pre (fun _ _ => eq_refl)). lia.
    + intros b j Hj _. apply sorted_app_r in Hs. apply elem_of_cons in Hj as [?|Hj]; [simplify_eq; lia|].
      apply StronglySorted_inv in Hs as [_ Hs]. rewrite Forall_forall in Hs.
      specialize (Hs _ Hj). unfold deeper in Hs. simpl in Hs. lia.
Qed.

(** ** The greatest admissible depth *)

(** The connected, unfiltered peers whose bin satisfies [p]. *)
Definition among (s : PSlice) (p : Z -> bool) : Z :=
  Z.of_nat (size (filter (fun a => f a = false /\ p (po s a) = true) (elems s))).

(** A depth is admissible when every bin below it has peers, enough of them
    unfiltered (a bin other than 0 may have only filtered ones), and the
    nearest neighbours are at or above it. *)
Definition admissible (s : PSlice) (d : Z) : Prop :=
  (forall i, 0 <= i < d -> bin s i <> [] /\
     (quickSaturationPeers lim <= among s (Z.eqb i) \/ (0 < i /\ among s (Z.eqb i) = 0))) /\
  (0 < d -> nnLowWatermark <= among s (Z.leb d)).

Lemma levels_fst (g : nat -> Z) ls : (imap (fun i l => (g i, l)) ls ≫= level).*1 = mjoin ls.
Proof.
  revert g. induction ls as [|l ls IH]; intros g; [done|].
  cbn [imap mbind list_bind mjoin list_join]. rewrite fmap_app. f_equal; [|apply (IH (g ∘ S))].
  clear. unfold level. induction l as [|a l IH]; [done|].
  cbn [map fmap list_fmap fst]. by f_equal.
Qed.

Lemma visits_fst s : (visits s).*1 = mjoin (peers s).
Proof. apply (levels_fst Z.of_nat). Qed.

Lemma among_cnt s p : wf s -> among s p = cnt f p (visits s).
Proof.
  intros Hwf. unfold among, cnt.
  assert (Hnd : NoDup ((List.filter (fun x => negb (f x.1) && p x.2) (visits s)).*1)).
  { pose proof (NoDup_join_bins s Hwf) as Hn. rewrite <- visits_fst in Hn. revert Hn.
    generalize (visits s). induction l as [|x l IH]; [done|]. cbn [List.filter fmap list_fmap].
    intros [Hx Hl]%list.NoDup_cons. specialize (IH Hl).
    destruct (negb (f x.1) && p x.2); [|done]. cbn [fmap list_fmap]. constructor; [|done].
    intros (y & Hy & [Hyl _]%list_elem_of_In%List.filter_In)%list_elem_of_fmap.
    apply Hx. rewrite Hy. apply list_elem_of_fmap. exists y. split; [done|]. by apply list_elem_of_In. }
  rewrite <- (length_fmap fst), <- (size_list_to_set (C := gset Address) _ Hnd).
  do 2 f_equal. apply set_eq. intros a.
  rewrite elem_of_filter, elem_of_list_to_set, list_elem_of_fmap. split.
  - intros [[Hf Hp] Ha]. exists (a, po s a). split; [done|].
    apply list_elem_of_In, List.filter_In. simpl. rewrite Hf, Hp. split; [|done].
    by apply list_elem_of_In, elem_of_visits.
  - intros ([b i] & -> & [Hin Hb]%list_elem_of_In%List.filter_In). simpl in *.
    apply list_elem_of_In, elem_of_visits in Hin as [Hin ->]; [|done].
    apply andb_true_iff in Hb as [Hf%negb_true_iff Hp]. done.
Qed.

Lemma first_empty_spec l k : 0 <= k -> k + zlen l <= 256 ->
  match first_empty k l with
  | (e, false) => exists n, e = k + Z.of_nat n /\ l !! n = Some [] /\
                    forall m x, (m < n)%nat -> l !! m = Some x -> x <> []
  | (_, true) => forall m x, l !! m = Some x -> x <> []
  end.
Proof.
  revert k. induction l as [|x l IH]; intros k Hk Hl; simpl; [by intros []|]. simpl in Hl.
  destruct (Z.eqb_spec (zlen x) 0) as [E|E].
  - exists 0%nat. rewrite u8_small by lia. destruct x; [|simpl in E; lia].
    split_and!; [lia|done|lia].
  - specialize (IH (k + 1)). destruct (first_empty (k + 1) l) as [e []].
    + intros [|m] y Hy; simplify_eq/=; [by destruct y|]. by eapply IH; [lia|lia|].
    + destruct IH as (n & -> & Hn & Hbelow); [lia|lia|]. exists (S n). split_and!; [lia|done|].
      intros [|m] y Hm Hy; simplify_eq/=; [by destruct y|]. eapply Hbelow; [|done]. lia.
Qed.

(** The bin that [ShallowestEmpty] bounds the depth by. *)
Definition lowest (s : PSlice) (su : Z) : Z :=
  let '(e, no) := ShallowestEmpty s in if negb no && (e <? su) then e else su.

Lemma lowest_spec s su : wf s -> 0 <= su < maxBins s ->
  0 <= lowest s su <= su /\ (forall i, 0 <= i < lowest s su -> bin s i <> []) /\
  (lowest s su < su -> bin s (lowest s su) = []).
Proof.
  intros Hwf Hsu. pose proof (wf_bins s Hwf) as Hb. pose proof (wf_range s Hwf) as Hr.
  unfold lowest, ShallowestEmpty.
  pose proof (first_empty_spec (peers s) 0 ltac:(lia) ltac:(lia)) as Hf.
  assert (Hin : forall i, 0 <= i < maxBins s -> exists x, peers s !! Z.to_nat i = Some x /\ bin s i = x).
  { intros i Hi. destruct (lookup_lt_is_Some_2 (peers s) (Z.to_nat i)) as [x Hx]; [lia|].
    exists x. split; [done|]. by apply bin_spec. }
  destruct (first_empty 0 (peers s)) as [e []]; simpl.
  - split_and!; [lia|lia| |lia]. intros i Hi.
    destruct (Hin i) as (x & Hx & ->); [lia|]. by eapply Hf.
  - destruct Hf as (n & -> & Hn & Hbelow). rewrite Z.add_0_l.
    destruct (Z.ltb_spec (Z.of_nat n) su) as [Hlt|Hge]; simpl.
    + split_and!; [lia|lia| |].
      * intros i Hi. destruct (Hin i) as (x & Hx & ->); [lia|]. eapply Hbelow; [|done]. lia.
      * intros _. unfold bin. by rewrite Nat2Z.id, Hn.
    + split_and!; [lia|lia| |lia]. intros i Hi.
      destruct (Hin i) as (x & Hx & ->); [lia|]. eapply Hbelow; [|done]. lia.
Qed.

Lemma unsaturated_visit_flow st a i :
  (unsaturated_visit lim f st a i).2.1.2 = false /\ (unsaturated_visit lim f st a i).2.2 = None.
Proof.
  destruct st as [su c]. unfold unsaturated_visit.
  by destruct (f a), (i =? su), ((su <? i) && (c <? quickSaturationPeers lim)).
Qed.

Lemma candidate_visit_flow st a i :
  (candidate_visit f st a i).2.1.2 = false /\ (candidate_visit f st a i).2.2 = None.
Proof.
  destruct st as [n c]. unfold candidate_visit. by destruct (f a), (nnLowWatermark <=? n + 1).
Qed.

Definition unsaturated_bin (s : PSlice) : Z := (scan (unsaturated_visit lim f) (0, 0) (visits s)).1.

Definition candidate_bin (s : PSlice) : Z := (scan (candidate_visit f) (0, 0) (visits_down s)).2.

Lemma recalcDepth_min s radius : nnLowWatermark < Length s ->
  recalcDepth lim s radius f
  = Z.min radius (Z.min (lowest s (unsaturated_bin s)) (candidate_bin s)).
Proof.
  intros Hl. unfold recalcDepth, lowest, unsaturated_bin, candidate_bin.
  destruct (Z.leb_spec (Length s) nnLowWatermark); [lia|].
  pose proof (each_bin_scan _ unsaturated_visit_flow (0, 0) (bins s)) as H1.
  pose proof (each_bin_scan _ candidate_visit_flow (0, 0) (reverse (bins s))) as H2.
  fold (visits s) in H1. change (reverse (bins s) ≫= _) with (visits_down s) in H2.
  rewrite <- H1, <- H2. unfold EachBinRev, EachBin. destruct (ShallowestEmpty s) as [e no].
  destruct (each_bin _ _ (bins s)) as [[su n] r], (each_bin _ _ (reverse (bins s))) as [[n' c] r'].
  simpl. set (su' := if negb no && (e <? su) then e else su).
  destruct (Z.ltb_spec c su'), (Z.ltb_spec radius c), (Z.ltb_spec radius su'); lia.
Qed.

Lemma visits_bin s a i : wf s -> (a, i) ∈ visits s -> 0 <= i < maxBins s.
Proof.
  intros Hwf [_ ->]%elem_of_visits; [|done]. apply po_range. by apply wf_range.
Qed.

Lemma unsaturated_bin_spec s : wf s -> unsaturated (visits s) (unsaturated_bin s).
Proof.
  intros Hwf. apply (unsaturated_scan [] (visits s)); [|by apply sorted_visits|].
  - split; [done|by split; [|left]|by left|by inversion 1|lia].
  - intros a i Hi%visits_bin; [lia|done].
Qed.

Lemma candidate_bin_spec s : wf s -> candidate_of (visits s) (candidate_bin s).
Proof.
  intros Hwf. assert (Hc : candidate_of (visits_down s) (candidate_bin s)).
  { apply (candidate_scan [] (visits_down s)); [done|done|by apply sorted_visits_down|].
    intros a i Hi. simpl in Hi. rewrite visits_down_perm in Hi.
    apply visits_bin in Hi; [lia|done]. }
  destruct Hc as [H1 H2 H3]. pose proof (visits_down_perm s) as Hp.
  split; [done| |]; by rewrite <- (cnt_perm _ _ _ _ Hp).
Qed.

Lemma recalcDepth_admissible s radius : wf s -> 0 <= radius -> nnLowWatermark < Length s ->
  let d := recalcDepth lim s radius f in
  0 <= d <= radius /\ admissible s d /\
  forall d', d' <= radius -> admissible s d' -> d' <= d.
Proof.
  intros Hwf Hr Hl d. pose proof (unsaturated_bin_spec s Hwf) as [[Hu0 Hu] Hpass Hstop].
  pose proof (candidate_bin_spec s Hwf) as [Hc0 Hnear Hfar].
  assert (Hsu : 0 <= unsaturated_bin s < maxBins s).
  { destruct Hu as [->|[a Ha%visits_bin]]; [|done|done]. pose proof (wf_range s Hwf). lia. }
  destruct (lowest_spec s (unsaturated_bin s) Hwf Hsu) as (Hlow & Hne & Hem).
  assert (Hd : d = Z.min radius (Z.min (lowest s (unsaturated_bin s)) (candidate_bin s)))
    by (by apply recalcDepth_min).
  split; [lia|]. unfold admissible. setoid_rewrite among_cnt; [|done..]. split; [split|].
  - intros i Hi. split; [apply Hne; lia|apply Hpass; lia].
  - intros Hpos. etrans; [apply Hnear; lia|]. apply cnt_mono. intros i. lia.
  - intros d' Hd' [Hbins Hnn]. destruct (decide (d' <= d)) as [|Hgt]; [done|exfalso].
    specialize (Hnn ltac:(lia)). destruct (decide (d = candidate_bin s)) as [Ec|Ec].
    + assert (cnt f (Z.leb d') (visits s) <= cnt f (Z.ltb (candidate_bin s)) (visits s)); [|lia].
      apply cnt_mono. intros i. lia.
    + assert (d = lowest s (unsaturated_bin s)) as Ed by lia.
      destruct (Hbins d ltac:(lia)) as [Hb Hp].
      destruct (decide (lowest s (unsaturated_bin s) < unsaturated_bin s)) as [Hlt|Hge].
      { apply Hb. rewrite Ed. by apply Hem. }
      replace d with (unsaturated_bin s) in Hp, Hgt by lia.
      destruct Hstop as [Hs|Hs]; [by apply Hs|].
      assert (cnt f (Z.leb d') (visits s) <= cnt f (Z.ltb (unsaturated_bin s)) (visits s));
        [apply cnt_mono; intros i; lia|]. unfold nnLowWatermark in Hnn. lia.
Qed.
End Depth.

(** * Interleavings

    A thread is what is left of a handler.  A call reads the state and leaves
    its list of critical sections to a new thread; a step runs the next one of
    any thread.  The flag is a ghost: some peer has lost its public status since
    the depth was last computed, which no handler follows by a computation. *)

Definition public (c : Collector) (a : Address) : bool :=
  match c !! a with
  | Some cs => bool_decide (Reachability cs = ReachabilityStatusPublic)
  | None => false
  end.

Definition demotes (k : Kad) (x : atom) : bool :=
  match x with
  | Count (Reached a s) =>
      public (collector k) a && negb (bool_decide (s = ReachabilityStatusPublic))
  | _ => false
  end.

Definition refreshes (k : Kad) (x : atom) : bool :=
  match x with Recalc => true | Radius r => negb (radius k =? r) | _ => false end.

Definition stale_after (k : Kad) (x : atom) (stale : bool) : bool :=
  if refreshes k x then false else stale || demotes k x.

Record System := { kad : Kad; stale : bool; threads : list (list atom) }.

Inductive step : System -> System -> Prop :=
| step_call k b ts e c :
    step {| kad := k; stale := b; threads := ts |}
         {| kad := k; stale := b; threads := ts ++ [code e k c] |}
| step_atom k b ts i x xs k' :
    ts !! i = Some (x :: xs) -> apply k x = Some k' ->
    step {| kad := k; stale := b; threads := ts |}
         {| kad := k'; stale := stale_after k x b; threads := <[i := xs]> ts |}.

Definition initial (k : Kad) : System := {| kad := k; stale := false; threads := [] |}.

Lemma peerUnreachable_public k a : peerUnreachable k a = negb (public (collector k) a).
Proof.
  unfold peerUnreachable, public. rewrite Inspect_lookup. by destruct (collector k !! a).
Qed.

(** ** The depth only depends on which connected peers are public *)

Lemma recalcDepth_filter lim s radius f g : wf s ->
  (forall a, f a = g a) -> recalcDepth lim s radius f = recalcDepth lim s radius g.
Proof.
  intros Hwf Hfg. destruct (decide (Length s <= nnLowWatermark)) as [Hl|Hl].
  { unfold recalcDepth. by rewrite (proj2 (Z.leb_le _ _) Hl). }
  set (X h := Z.min (lowest s (unsaturated_bin lim h s)) (candidate_bin h s)).
  assert (Hmin : forall h r, recalcDepth lim s r h = Z.min r (X h))
    by (intros; apply recalcDepth_min; lia).
  pose (R := Z.max 0 (Z.max (X f) (X g))).
  destruct (recalcDepth_admissible lim f s R) as (Hf0 & Hfa & Hfm); [done|lia|lia|].
  destruct (recalcDepth_admissible lim g s R) as (Hg0 & Hga & Hgm); [done|lia|lia|].
  assert (Ha : forall p, among f s p = among g s p).
  { intros p. unfold among. do 2 f_equal. apply set_eq. intros a. rewrite !elem_of_filter.
    by rewrite Hfg. }
  assert (Had : forall d, admissible lim f s d <-> admissible lim g s d).
  { intros d. unfold admissible. by setoid_rewrite Ha. }
  pose proof (Hgm (recalcDepth lim s R f) (proj2 Hf0) (proj1 (Had _) Hfa)) as H1.
  pose proof (Hfm (recalcDepth lim s R g) (proj2 Hg0) (proj2 (Had _) Hga)) as H2.
  rewrite !Hmin in *. lia.
Qed.

(** ** Handlers end by computing the depth *)

(** The steps after which the depth has to be computed again. *)
Definition changes (x : atom) : bool :=
  match x with
  | ConnAdd _ | ConnRemove _ | Count (Reached _ ReachabilityStatusPublic) => true
  | _ => false
  end.

Fixpoint covered (xs : list atom) : Prop :=
  match xs with
  | [] => True
  | x :: xs => (changes x = true -> Recalc ∈ xs) /\ covered xs
  end.

Lemma covered_app xs ys : covered xs -> covered ys -> covered (xs ++ ys).
Proof.
  induction xs as [|x xs IH]; [done|]. intros [Hx Hxs] Hys. split; [|by apply IH].
  intros ?%Hx. apply elem_of_app. by left.
Qed.

Ltac solve_covered :=
  repeat match goal with
  | |- covered [] => exact I
  | |- covered (_ :: _) => split
  | |- covered (_ ++ _) => apply covered_app
  | |- false = true -> _ => discriminate
  | |- covered (if ?b then _ else _) => destruct b
  | |- covered (match ?b with _ => _ end) => destruct b
  | |- covered (match ?b with _ => _ end).1 => destruct b
  | |- changes _ = true -> _ => cbn [changes]; intros _; set_solver
  | |- covered _.1 => cbn [fst]
  end; try done.

Lemma covered_Outbound e p : covered (Outbound e p).
Proof. unfold Outbound. solve_covered. Qed.

Lemma covered_onConnected e k a : covered (onConnected e k a).1.
Proof. unfold onConnected. solve_covered. Qed.

Lemma covered_Connected e k p b : covered (Connected e k p b).1.
Proof.
  unfold Connected. pose proof (covered_onConnected e k (overlay p)).
  destruct ((saturationFunc k (Proximity (base k) (overlay p))).2 && _), (nodeBoot k), b;
    try done; by destruct (randomPeer _ _ _).
Qed.

Lemma covered_dial_failed e k a backoff network : covered (dial_failed e k a backoff network).
Proof. unfold dial_failed. cbv zeta. solve_covered. Qed.

Lemma covered_connect e k a : covered (connect e k a).1.
Proof.
  unfold connect. destruct (dial e a) as [i|i|[]]; destruct (networkAvailable e);
    cbn [negb fst]; first [done|apply covered_dial_failed].
Qed.

Lemma covered_Connection e k a : covered (Connection e k a).1.
Proof.
  unfold Connection. pose proof (covered_connect e k a) as Hc.
  destruct (connect e k a) as [xs [i|err]]; cbn [fst] in *; apply covered_app; try done.
  - apply covered_Outbound.
  - by destruct err.
Qed.

Lemma covered_code e k c : covered (code e k c).
Proof.
  destruct c; cbn [code].
  - unfold AddPeers. solve_covered.
  - apply covered_Outbound.
  - apply covered_Connected.
  - unfold Disconnected. solve_covered.
  - unfold DisconnectForce. solve_covered.
  - unfold Reachable. destruct status; solve_covered.
  - unfold UpdateReachability. solve_covered.
  - solve_covered.
  - unfold RefreshProtectPeer. solve_covered.
  - unfold connAttempt, GetAuroraAddress. pose proof (covered_Connection e k peer).
    destruct (Waiting _ _ _); [done|]. destruct found as [[]|]; cbn [fst app]; done || solve_covered.
Qed.

(** ** The invariant *)

Lemma public_insert c a b cs :
  public (<[a := cs]> c) b
  = if decide (b = a) then bool_decide (Reachability cs = ReachabilityStatusPublic) else public c b.
Proof.
  unfold public. case_decide as Hd; [subst; by rewrite lookup_insert_eq|].
  by rewrite lookup_insert_ne by done.
Qed.

(** A recorded operation that keeps the reachability keeps the public peers. *)
Lemma Record_public c c' a op : Record_ c a [op] = Some c' ->
  (forall cs cs', op cs = Some cs' -> Reachability cs' = Reachability cs) ->
  forall b, public c' b = public c b.
Proof.
  unfold Record_. simpl. intros Hr Hop b.
  destruct (op (default (fresh a) (c !! a))) as [cs|] eqn:E; [|done]. injection Hr as <-.
  rewrite public_insert. case_decide as Hd; [|done]. subst. rewrite (Hop _ _ E).
  unfold public. by destruct (c !! a).
Qed.

Lemma perform_public c c' e : perform c e = Some c' ->
  match e with
  | Reached a s => s <> ReachabilityStatusPublic /\ public c a = false
  | _ => True
  end -> forall b, public c' b = public c b.
Proof.
  destruct e as [a t dir|a t|a|a s]; simpl; intros Hp He.
  1-3: eapply Record_public; [done|]; intros cs cs'.
  - unfold PeerLogIn. destruct (isLoggedIn cs), (t <? 0); by intros [= <-].
  - unfold PeerLogOut. destruct (isLoggedIn cs), (t <? 0); by intros [= <-].
  - by intros [= <-].
  - intros b. unfold Record_ in Hp. simpl in Hp. injection Hp as <-.
    rewrite public_insert. case_decide; [|done]. subst. destruct He as [Hs ->].
    simpl. by case_bool_decide.
Qed.

Lemma current_depth_ext k k' : wf (connectedPeers k) ->
  lim k' = lim k -> connectedPeers k' = connectedPeers k -> radius k' = radius k ->
  (forall a, public (collector k') a = public (collector k) a) ->
  current_depth k' = current_depth k.
Proof.
  intros Hwf H1 H2 H3 H4. unfold current_depth. rewrite H1, H2, H3.
  apply recalcDepth_filter; [done|]. intros a. by rewrite !peerUnreachable_public, H4.
Qed.

(** A step that neither changes the peers that count nor computes the depth
    changes neither the depth nor what it should be. *)
Lemma apply_quiet k x k' : apply k x = Some k' -> wf (connectedPeers k) ->
  changes x = false -> demotes k x = false -> refreshes k x = false ->
  depth k' = depth k /\ current_depth k' = current_depth k.
Proof.
  intros Ha Hwf Hc Hd Hr. destruct x; simpl in *; simplify_eq/=; try done.
  - destruct (perform (collector k) e) as [c|] eqn:Hp; [|done]. simplify_eq/=. split; [done|].
    apply current_depth_ext; [done..|]. simpl. eapply perform_public; [done|].
    destruct e as [| | |a s]; [done..|]. destruct s; [|done|]; simpl in Hd;
      rewrite andb_true_r in Hd; done.
  - unfold SetRadius. by rewrite (proj1 (negb_false_iff _) Hr).
Qed.

Lemma apply_refresh k x k' : apply k x = Some k' -> refreshes k x = true -> depth k' = current_depth k'.
Proof.
  destruct x; simpl; try done; [by intros [= <-]|].
  intros [= <-] Hr. unfold SetRadius. by rewrite (proj1 (negb_true_iff _) Hr).
Qed.

Lemma apply_wf k x k' : apply k x = Some k' -> wf (connectedPeers k) -> wf (connectedPeers k').
Proof.
  intros Ha Hwf. destruct x; simpl in *; simplify_eq/=; try done.
  - apply (Add_elems _ [a]); [done|]. apply list.NoDup_singleton.
  - by apply Remove_elems.
  - by destruct (perform (collector k) e); simplify_eq/=.
  - unfold SetRadius. by destruct (radius k =? r).
Qed.

Definition pending (ts : list (list atom)) : Prop := exists i xs, ts !! i = Some xs /\ Recalc ∈ xs.

Record inv (s : System) : Prop := {
  inv_wf : wf (connectedPeers (kad s));
  inv_covered : Forall covered (threads s);
  inv_depth : depth (kad s) = current_depth (kad s) \/ stale s = true \/ pending (threads s);
}.

Lemma inv_step s s' : inv s -> step s s' -> inv s'.
Proof.
  intros [Hwf Hcov Hdep]. destruct 1 as [k b ts e c|k b ts i x xs k' Hi Ha]; simpl in *.
  - split; simpl; [done|apply Forall_app; split; [done|by constructor; [apply covered_code|]]|].
    destruct Hdep as [?|[?|(j & xs & Hj & Hin)]]; auto. right; right.
    exists j, xs. split; [by apply lookup_app_l_Some|done].
  - pose proof (Forall_lookup_1 _ _ _ _ Hcov Hi) as [Hx Hxs].
    assert (Hlt : (i < length ts)%nat) by (by eapply lookup_lt_Some).
    split; simpl; [by eapply apply_wf|by apply Forall_insert|]. unfold stale_after.
    destruct (refreshes k x) eqn:Hr; [left; by eapply apply_refresh|].
    destruct (changes x) eqn:Hc.
    { right; right. exists i, xs. split; [by apply list_lookup_insert_eq|auto]. }
    destruct (demotes k x) eqn:Hd; [right; left; by rewrite orb_true_r|]. rewrite orb_false_r.
    destruct (apply_quiet k x k') as [-> ->]; try done.
    destruct Hdep as [?|[?|(j & ys & Hj & Hin)]]; auto. right; right.
    destruct (decide (i = j)) as [<-|Hne].
    + rewrite Hi in Hj. injection Hj as <-. exists i, xs.
      split; [by apply list_lookup_insert_eq|]. apply elem_of_cons in Hin as [<-|]; done.
    + exists j, ys. split; [by rewrite list_lookup_insert_ne|done].
Qed.

Lemma inv_reached k0 s : wf (connectedPeers k0) -> depth k0 = current_depth k0 ->
  rtc step (initial k0) s -> inv s.
Proof.
  intros Hwf Hd Hs. assert (Hi : inv (initial k0)) by (split; simpl; [done|constructor|by left]).
  remember (initial k0) as s0 eqn:E. clear E Hwf Hd.
  induction Hs as [s|s1 s2 s3 H12 _ IH]; [done|]. apply IH. by eapply inv_step.
Qed.

Lemma New_depth base imc o k : New base imc o = Some k ->
  wf (connectedPeers k) /\ depth k = current_depth k.
Proof.
  unfold New. intros Hk.
  match type of Hk with match ?m with _ => _ end = _ => destruct m as [pre|]; [|done] end.
  injection Hk as <-. simpl. split; [by apply wf_New|].
  unfold current_depth, recalcDepth. cbn [connectedPeers].
  rewrite Length_elems by (by apply wf_New). by rewrite (proj2 (wf_New MaxBins base ltac:(done))).
Qed.

(** * Properties *)

(** C17: [recalcDepth] returns 0 for at most [nnLowWatermark] peers, and else the
    greatest admissible depth within the radius: every bin below it has peers
    and is saturated (or, past bin 0, all its peers are unreachable), and at
    least [nnLowWatermark] reachable peers are at or above it.  (doc.go describes
    another method, in which empty bins count but unsaturated ones do not.) *)
Theorem recalcDepth_max (lim : limits) (f : peerFilterFunc) (s : PSlice) (radius : Z)
    (Hwf : wf s) (Hradius : 0 <= radius) :
  let d := recalcDepth lim s radius f in
  (Length s <= nnLowWatermark -> d = 0) /\
  (nnLowWatermark < Length s ->
     0 <= d <= radius /\ admissible lim f s d /\
     forall d', d' <= radius -> admissible lim f s d' -> d' <= d).
Proof.
  split; [|by apply recalcDepth_admissible].
  intros Hl. unfold recalcDepth. by rewrite (proj2 (Z.leb_le _ _) Hl).
Qed.

(** The seventh example of doc.go, bins of 1, 1, 1 and 3 peers: the documented depth
    is 3; with the default limits it is 0, since bin 0 is not saturated. *)
Lemma recalcDepth_documented :
  recalcDepth (set_limits 0) (Add (PSlice.New 32 [0; 0; 0; 0])
    [[128; 0; 0; 0]; [64; 0; 0; 0]; [32; 0; 0; 0]; [16; 0; 0; 0]; [17; 0; 0; 0]; [18; 0; 0; 0]]) 31 (fun _ => false) = 0.
Proof. vm_compute. reflexivity. Qed.

Lemma recalcDepth_max_witness :
  let s := Add (PSlice.New 32 [0; 0; 0; 0])
             [[128; 0; 0; 0]; [64; 0; 0; 0]; [65; 0; 0; 0]; [32; 0; 0; 0]; [16; 0; 0; 0]] in
  recalcDepth (set_limits 5) s 31 (fun _ => false) = 1 /\
  admissible (set_limits 5) (fun _ => false) s 1.
Proof.
  intros s.
  assert (E : recalcDepth (set_limits 5) s 31 (fun _ => false) = 1) by (vm_compute; reflexivity).
  split; [exact E|]. rewrite <- E.
  refine (proj1 (proj2 (proj2 (recalcDepth_max (set_limits 5) (fun _ => false) s 31 _ _) _))).
  - apply Add_elems; [apply wf_New; lia|]. apply (bool_decide_unpack (NoDup _)). vm_compute. exact I.
  - lia.
  - vm_compute. reflexivity.
Defined.

(** C8: after any interleaving of the handlers' critical sections, finished or not,
    peers never appear twice or in a wrong bin, and once all handlers have finished the
    stored depth is the one [recalcDepth] gives for the present connections,
    radius and reachability, unless a peer has lost its public status since
    the depth was last computed. *)
Theorem kad_depth (base : Address) (imc : Collector) (o : Options) (k0 : Kad) (s : System)
    (Hk0 : New base imc o = Some k0) (Hs : rtc step (initial k0) s) :
  let k := kad s in
  wf (connectedPeers k) /\
  (Forall (fun xs => xs = []) (threads s) -> stale s = false ->
   NeighborhoodDepth k = recalcDepth (lim k) (connectedPeers k) (radius k) (peerUnreachable k)).
Proof.
  destruct (New_depth _ _ _ _ Hk0) as [Hwf Hd].
  destruct (inv_reached k0 s Hwf Hd Hs) as [Hwf' _ Hinv]. split; [done|]. intros Hdone Hstale.
  destruct Hinv as [Heq|[Hst|(i & xs & Hi & Hin)]]; [done|congruence|].
  rewrite Forall_lookup in Hdone. apply Hdone in Hi as ->. inversion Hin.
Qed.

Lemma kad_depth_witness : exists k0 s,
  New [0; 0; 0; 0; 0] ∅ {| BootMode := false; BitSuffixLength := -1; StaticNodes := []; BinMaxPeers := 0 |}
    = Some k0 /\
  rtc step (initial k0) s /\ Exists (connectedPeers (kad s)) [128; 0; 0; 0; 0] = true /\
  NeighborhoodDepth (kad s)
  = recalcDepth (lim (kad s)) (connectedPeers (kad s)) (radius (kad s)) (peerUnreachable (kad s)).
Proof.
  set (e := {| now := 7; isStart := true; isHive2 := false; rnd := fun _ _ => Some 0;
               broadcast := fun _ _ => true; networkAvailable := true;
               disconnect := fun _ => true; bookRemove := fun _ => true;
               dial := fun a => DialFailed NetworkUnavailable |}).
  set (p := {| overlay := [128; 0; 0; 0; 0]; IsFull := true; IsBootNode := false |}).
  destruct (New _ _ _) as [k0|] eqn:Hk; [|vm_compute in Hk; discriminate].
  assert (Hs : exists s, rtc step (initial k0) s /\ threads s = [[]] /\ stale s = false /\
    Exists (connectedPeers (kad s)) [128; 0; 0; 0; 0] = true).
  { vm_compute in Hk. injection Hk as <-. eexists. split.
    - eapply rtc_l; [apply (step_call _ _ _ e (COutbound p))|].
      do 5 (eapply rtc_l; [apply (step_atom _ _ _ 0); reflexivity|]). apply rtc_refl.
    - split; [reflexivity|]. split; vm_compute; reflexivity. }
  destruct Hs as (s & Hs & Ht & Hst & Hc). exists k0, s. split; [reflexivity|].
  split; [exact Hs|]. split; [exact Hc|].
  refine (proj2 (kad_depth _ _ _ k0 s Hk Hs) _ Hst). rewrite Ht. repeat constructor.
Defined.
