(* ===== verification/KadClosest.v ===== *)
(** * Peers closest to an address (pkg/topology/kademlia, [ClosestPeer] and
      [ClosestPeers])

    The scan over the bins keeps one running minimum and ignores the error of
    [Closer].  The theorems say which peer comes out: the one of least distance
    among the connected peers that are neither filtered nor skipped, and the
    node itself where it is to be considered. *)

From Stdlib Require Import ZArith Lia ZifyBool.
From stdpp Require Import base gmap list numbers sorting.
From S2P Require Import Prelude Boson PSlice KadMetrics Kademlia.

Open Scope Z_scope.

(** ** Distances *)

(** The distance of two addresses as the big integer of [boson.Distance]. *)
Definition dist (addr p : Address) : Z := be_get (zip_with Z.lxor p addr).

(** The addresses of one network: [n] bytes. *)
Definition addr_ok (n : nat) (a : Address) : Prop := length a = n /\ bytes_ok a.

Lemma be_get_inj x y : length x = length y -> bytes_ok x -> bytes_ok y ->
  be_get x = be_get y -> x = y.
Proof.
  revert y. induction x as [|a x IH]; intros [|b y] Hl Hx Hy; simplify_eq/=; [done|].
  inversion_clear Hx as [|?? Ha Hx']. inversion_clear Hy as [|?? Hb Hy'].
  rewrite !be_get_cons, Hl. pose proof (be_get_range x Hx'). pose proof (be_get_range y Hy').
  intros E. rewrite Hl in *. assert (a = b) as -> by nia. f_equal. apply IH; [done..|nia].
Qed.

Lemma zip_xor_inj x y a : length x = length a -> length y = length a ->
  zip_with Z.lxor x a = zip_with Z.lxor y a -> x = y.
Proof.
  revert y a. induction x as [|b x IH]; intros [|c y] [|d a] Hx Hy E; simplify_eq/=; [done|].
  f_equal; [|by eapply IH].
  assert (Z.lxor (Z.lxor b d) d = Z.lxor (Z.lxor c d) d) as Hbc by congruence.
  by rewrite !Z.lxor_assoc, !Z.lxor_nilpotent, !Z.lxor_0_r in Hbc.
Qed.

Section Distance.
Context (n : nat) (addr : Address) (Haddr : addr_ok n addr).

Lemma dist_inj p q : addr_ok n p -> addr_ok n q -> dist addr p = dist addr q -> p = q.
Proof.
  destruct Haddr as [Hl Ha]. intros [Hp Hp'] [Hq Hq'] E.
  eapply zip_xor_inj; [by rewrite Hp, Hl|by rewrite Hq, Hl|].
  apply be_get_inj; [rewrite !length_zip_with; lia|by apply zip_xor_ok..|done].
Qed.

Lemma Closer_dist p q : addr_ok n p -> addr_ok n q ->
  Closer p addr q = Ok (dist addr p <? dist addr q).
Proof.
  destruct Haddr as [Hl Ha]. intros [Hp Hp'] [Hq Hq']. unfold Closer, DistanceCmp.
  rewrite Hl, Hp, Hq, Z.eqb_refl. simpl. rewrite cmp_loop_be by (done || lia). f_equal.
  unfold dist. destruct (Z.compare_spec (be_get (zip_with Z.lxor p addr)) (be_get (zip_with Z.lxor q addr)));
    simpl; lia.
Qed.

(** ** The running minimum *)

Definition keep (eligible : Address -> bool) (c a : Address) : Address :=
  if eligible a then (if IsZero c then a else if dist addr a <? dist addr c then a else c) else c.

(** [r] is the element of least distance of [C], if [C] has one. *)
Definition nearest (C : gset Address) (r : Address) : Prop :=
  r ∈ C /\ forall q, q ∈ C -> q <> r -> dist addr r < dist addr q.

Definition addrs_ok (l : gset Address) : Prop := forall a, a ∈ l -> addr_ok n a /\ a <> [].

Lemma keep_nearest eligible c a C :
  (if IsZero c then C = ∅ else nearest C c) -> addrs_ok C -> addr_ok n a -> a <> [] ->
  let C' := if eligible a : bool then {[a]} ∪ C else C in
  if IsZero (keep eligible c a) then C' = ∅ else nearest C' (keep eligible c a).
Proof.
  intros Hc HC Ha Hne. unfold keep. destruct (eligible a); simpl; [|done].
  assert (Hz : IsZero a = false) by (apply bool_decide_eq_false; done).
  destruct (IsZero c) eqn:Ec.
  - rewrite Hz, Hc. split; [set_solver|]. intros q Hq Hqa. set_solver.
  - destruct Hc as [Hcin Hmin]. destruct (HC c Hcin) as [Hcok _].
    destruct (Z.ltb_spec (dist addr a) (dist addr c)) as [Hlt|Hge].
    + rewrite Hz. split; [set_solver|]. intros q [->%elem_of_singleton|Hq]%elem_of_union Hqa; [done|].
      destruct (decide (q = c)) as [->|]; [done|]. specialize (Hmin q Hq ltac:(done)). lia.
    + rewrite Ec. split; [set_solver|].
      intros q [->%elem_of_singleton|Hq]%elem_of_union Hqc; [|by apply Hmin].
      destruct (decide (dist addr c = dist addr a)) as [E|]; [|lia].
      by apply dist_inj in E.
Qed.

Lemma fold_nearest eligible l c C :
  (if IsZero c then C = ∅ else nearest C c) -> addrs_ok C ->
  (forall a, a ∈ l -> addr_ok n a /\ a <> []) ->
  let r := foldl (keep eligible) c l in
  let C' := filter (fun a => eligible a = true) (list_to_set l) ∪ C in
  if IsZero r then C' = ∅ else nearest C' r.
Proof.
  revert c C. induction l as [|a l IH]; intros c C Hc HC Hl; cbn [foldl].
  { cbv zeta. replace (filter _ _ ∪ C) with C by set_solver. done. }
  destruct (Hl a) as [Ha Hne]; [by left|].
  specialize (IH (keep eligible c a) (if eligible a then {[a]} ∪ C else C)).
  cbv zeta in *.
  replace (filter (fun a => eligible a = true) (list_to_set (a :: l)) ∪ C)
    with (filter (fun a => eligible a = true) (list_to_set l) ∪ (if eligible a then {[a]} ∪ C else C)).
  - apply IH.
    + by apply keep_nearest.
    + intros b Hb. destruct (eligible a); [|by apply HC].
      apply elem_of_union in Hb as [->%elem_of_singleton|]; [done|by apply HC].
    + intros b Hb. apply Hl. by right.
  - apply set_eq. intros b. rewrite !elem_of_union, !elem_of_filter, !elem_of_list_to_set, elem_of_cons.
    destruct (eligible a) eqn:Ea; [|naive_solver congruence].
    rewrite elem_of_union, elem_of_singleton. naive_solver congruence.
Qed.
End Distance.

(** ** The scan *)

Section Fold.
Context {St E : Type} (pf : EachPeerFunc St E).
Hypothesis Hpf : forall st a i, (pf st a i).2 = (false, false, None).

(** A callback that never stops folds over every visit. *)
Lemma each_bin_visits st bs :
  each_bin pf st bs
  = (foldl (fun st '(a, i) => (pf st a i).1) st (bs ≫= fun '(i, l) => map (fun a => (a, u8 i)) l), None).
Proof.
  rewrite <- (each_bin_fold (E := E) (fun st a i => (pf st a i).1)).
  assert (Heq : forall l st p, each_peer pf st l p
    = each_peer (fun st a i => ((pf st a i).1, (false, false, None))) st l p).
  { induction l as [|a l IH]; intros st' p; [done|]. simpl. specialize (Hpf st' a p).
    destruct (pf st' a p) as [st2 r]. simpl in *. subst r. apply IH. }
  revert st. induction bs as [|[i l] bs IH]; intros st; [done|]. cbn [each_bin]. rewrite Heq.
  by destruct (each_peer _ _ _ _) as [st' []].
Qed.
End Fold.

Lemma elem_of_visits_fst s a : wf s -> a ∈ (visits s).*1 <-> a ∈ elems s.
Proof.
  intros Hwf. rewrite list_elem_of_fmap. split.
  - intros ([b i] & -> & [? _]%elem_of_visits); done.
  - intros Ha. exists (a, po s a). split; [done|]. by apply elem_of_visits.
Qed.

(** ** [ClosestPeer] *)

(** The connected peers that are neither filtered nor skipped. *)
Definition candidates (k : Kad) (reachable : bool) (skipPeers : list Address) : gset Address :=
  filter (fun a => reachable && peerUnreachable k a = false /\ a ∉ skipPeers)
    (elems (connectedPeers k)).

(** The node itself, where it is asked for and known to be reachable. *)
Definition self (k : Kad) (includeSelf : bool) : gset Address :=
  if includeSelf && bool_decide (reachability k = ReachabilityStatusPublic) then {[base k]} else ∅.

Definition eligible (k : Kad) (reachable : bool) (skipPeers : list Address) (a : Address) : bool :=
  negb (reachable && peerUnreachable k a) && negb (existsb (fun b => Equal b a) skipPeers).

Lemma existsb_Equal a l : existsb (fun b => Equal b a) l = true <-> a ∈ l.
Proof.
  rewrite existsb_exists, list_elem_of_In. setoid_rewrite Equal_spec. naive_solver.
Qed.

Lemma eligible_candidates k reachable skip :
  candidates k reachable skip
  = filter (fun a => eligible k reachable skip a = true) (elems (connectedPeers k)).
Proof.
  apply set_eq. intros a. unfold candidates, eligible.
  rewrite !elem_of_filter, andb_true_iff, !negb_true_iff, <- existsb_Equal, not_true_iff_false.
  done.
Qed.

(** The state and the addresses the lookups are made on. *)
Record peers_ok (n : nat) (k : Kad) : Prop := {
  po_wf : wf (connectedPeers k);
  po_len : (0 < n)%nat;
  po_base : addr_ok n (base k);
  po_peers : forall a, a ∈ elems (connectedPeers k) -> addr_ok n a;
}.

Section Closest.
Context (n : nat) (k : Kad) (addr : Address) (Hk : peers_ok n k) (Haddr : addr_ok n addr).

Lemma addr_ok_nonempty a : addr_ok n a -> a <> [].
Proof. intros [Hl _] ->. pose proof (po_len n k Hk). simpl in Hl. lia. Qed.

Lemma addr_ok_zero a : addr_ok n a -> IsZero a = false.
Proof. intros Ha. apply bool_decide_eq_false. by apply addr_ok_nonempty. Qed.

Lemma EachPeerRev_keep reachable skip c : (IsZero c = true \/ addr_ok n c) ->
  EachPeerRev k (closest_visit addr skip) c reachable
  = (foldl (keep addr (eligible k reachable skip)) c (visits (connectedPeers k)).*1, None).
Proof.
  intros Hc. unfold EachPeerRev, EachBinRev. rewrite each_bin_visits.
  2:{ intros st a i. unfold closest_visit. destruct (reachable && peerUnreachable k a); [done|].
      destruct (existsb _ skip); [done|]. by destruct (IsZero st). }
  f_equal. fold (visits (connectedPeers k)).
  assert (Hin : forall a i, (a, i) ∈ visits (connectedPeers k) -> addr_ok n a).
  { intros a i Ha. apply (po_peers n k Hk). by apply elem_of_visits in Ha as [? _]; [|apply Hk]. }
  revert c Hc Hin. induction (visits (connectedPeers k)) as [|[a i] l IH]; intros c Hc Hin; [done|].
  assert (Ha : addr_ok n a) by (apply (Hin a i); by left).
  assert (Hstep : (if reachable && peerUnreachable k a then (c, (false, false, None))
                   else closest_visit addr skip c a i).1 = keep addr (eligible k reachable skip) c a).
  { unfold keep, eligible, closest_visit. destruct (reachable && peerUnreachable k a); [done|].
    destruct (existsb _ skip); [done|]. simpl. destruct (IsZero c) eqn:Ec; [done|].
    destruct Hc as [?|Hc]; [congruence|]. simpl. rewrite (Closer_dist n) by done.
    by destruct (dist addr a <? dist addr c). }
  cbn [foldl fmap list_fmap fst]. rewrite Hstep. apply IH; [|intros b j Hb; apply (Hin b j); by right].
  unfold keep. destruct (eligible _ _ _ a); [|done]. destruct (IsZero c) eqn:Ec; [by right|].
  destruct Hc as [?|Hc]; [congruence|]. destruct (_ <? _); by right.
Qed.

(** The running minimum of the whole scan. *)
Lemma closest_nearest includeSelf reachable skip :
  let c := if includeSelf && bool_decide (reachability k = ReachabilityStatusPublic)
           then base k else ZeroAddress in
  let C := candidates k reachable skip ∪ self k includeSelf in
  exists r, EachPeerRev k (closest_visit addr skip) c reachable = (r, None) /\
    if IsZero r then C = ∅ else nearest addr C r.
Proof.
  intros c C.
  assert (Hbz : IsZero (base k) = false) by apply addr_ok_zero, (po_base n k Hk).
  assert (Hc : IsZero c = true \/ addr_ok n c).
  { unfold c. destruct (includeSelf && _); [right; apply Hk|by left]. }
  rewrite EachPeerRev_keep by done. eexists. split; [done|].
  pose proof (fold_nearest n addr Haddr (eligible k reachable skip) (visits (connectedPeers k)).*1
    c (self k includeSelf)) as Hf. cbv zeta in Hf.
  assert (HC : C = filter (fun a => eligible k reachable skip a = true)
      (list_to_set (visits (connectedPeers k)).*1) ∪ self k includeSelf).
  { unfold C. rewrite eligible_candidates. f_equal. apply set_eq. intros a.
    by rewrite !elem_of_filter, elem_of_list_to_set, elem_of_visits_fst by apply Hk. }
  rewrite HC. apply Hf.
  - unfold c, self. destruct (includeSelf && _); [|done]. rewrite Hbz. split; [set_solver|].
    intros q Hq. set_solver.
  - intros a. unfold self. destruct (includeSelf && _); [|set_solver].
    intros ->%elem_of_singleton. pose proof (po_base n k Hk). split; [done|by apply addr_ok_nonempty].
  - intros a Ha%elem_of_visits_fst; [|apply Hk]. apply (po_peers n k Hk) in Ha.
    split; [done|by apply addr_ok_nonempty].
Qed.

Lemma ClosestPeer_cases includeSelf reachable skip :
  let C := candidates k reachable skip ∪ self k includeSelf in
  match ClosestPeer k addr includeSelf reachable skip with
  | Ok p => nearest addr C p /\ p <> base k
  | Err ErrWantSelf => nearest addr C (base k)
  | Err ErrNotFound => C = ∅ \/ elems (connectedPeers k) = ∅
  | Err _ => False
  end.
Proof.
  intros C. unfold ClosestPeer. destruct (Z.eqb_spec (Length (connectedPeers k)) 0) as [Hl|_].
  { right. rewrite Length_elems in Hl by apply Hk. apply leibniz_equiv, size_empty_iff. lia. }
  destruct (closest_nearest includeSelf reachable skip) as (r & Hr & Hn). cbv zeta in Hr.
  rewrite Hr. destruct (IsZero r); [by left|].
  destruct (Equal r (base k)) eqn:E; [apply Equal_spec in E as ->; done|].
  split; [done|]. intros ->. by rewrite (proj2 (Equal_spec _ _) eq_refl) in E.
Qed.

(** ** [ClosestPeers] *)

Lemma closest_rounds_app m reachable out skip :
  closest_rounds k addr m reachable out skip = out ++ closest_rounds k addr m reachable [] skip.
Proof.
  revert out skip. induction m as [|m IH]; intros out skip; simpl; [by rewrite app_nil_r|].
  destruct (ClosestPeer k addr false reachable skip) as [p|err].
  - rewrite IH, (IH [p]), app_assoc. done.
  - by destruct err; rewrite ?app_nil_r.
Qed.

(** [out] is the list of the [m] nearest elements of [C], nearest first. *)
Record nearest_list (C : gset Address) (m : nat) (out : list Address) : Prop := {
  nl_sorted : StronglySorted (fun p q => dist addr p < dist addr q) out;
  nl_in : forall p, p ∈ out -> p ∈ C;
  nl_rest : forall p q, p ∈ out -> q ∈ C -> q ∉ out -> dist addr p < dist addr q;
  nl_length : length out = (m `min` size C)%nat;
}.

Lemma nearest_list_cons C m p out :
  nearest addr C p -> nearest_list (C ∖ {[p]}) m out -> nearest_list C (S m) (p :: out).
Proof.
  intros [Hp Hmin] [Hs Hin Hrest Hlen].
  assert (Hout : forall q, q ∈ out -> q ∈ C /\ q <> p) by (intros q ?%Hin; set_solver).
  split.
  - constructor; [done|]. apply Forall_forall. intros q [Hq Hqp]%Hout. by apply Hmin.
  - intros q [->|[]%Hout]%elem_of_cons; done.
  - intros q r [->|Hq]%elem_of_cons Hr Hnr; [apply Hmin; [done|]; set_solver|].
    apply Hrest; [done|set_solver|set_solver].
  - cbn [length]. rewrite Hlen, size_difference by set_solver. rewrite size_singleton.
    assert (size C <> 0)%nat; [|lia]. apply size_non_empty_iff. set_solver.
Qed.

Lemma candidates_skip reachable skip p :
  candidates k reachable (skip ++ [p]) = candidates k reachable skip ∖ {[p]}.
Proof.
  apply set_eq. intros a. unfold candidates.
  rewrite elem_of_difference, !elem_of_filter, elem_of_app, list_elem_of_singleton, elem_of_singleton.
  naive_solver.
Qed.

Lemma closest_rounds_nearest (Hself : base k ∉ elems (connectedPeers k)) m reachable skip :
  nearest_list (candidates k reachable skip) m (closest_rounds k addr m reachable [] skip).
Proof.
  assert (Hempty : forall m C, C = ∅ -> nearest_list C m []).
  { intros m' C ->. split; [constructor|by inversion 1|by inversion 1|]. rewrite size_empty. simpl. lia. }
  revert skip. induction m as [|m IH]; intros skip; simpl.
  { split; [constructor|by inversion 1|by inversion 1|done]. }
  pose proof (ClosestPeer_cases false reachable skip) as Hc. unfold self in Hc. simpl in Hc.
  rewrite union_empty_r_L in Hc.
  assert (Hno : base k ∉ candidates k reachable skip) by (unfold candidates; set_solver).
  destruct (ClosestPeer k addr false reachable skip) as [p|err].
  - destruct Hc as [Hn _]. rewrite closest_rounds_app. apply nearest_list_cons; [done|].
    rewrite <- candidates_skip. apply IH.
  - destruct err; try done; [|by destruct Hc as [Hb _]].
    apply Hempty. destruct Hc as [->|He]; [done|]. unfold candidates. rewrite He. set_solver.
Qed.
End Closest.

(** * Properties *)

(** [ClosestPeer] returns the connected peer, neither skipped nor (where
    only reachable peers are asked for) unreachable, whose distance to the
    address is strictly the least, the node itself included when it is asked
    for and public; [ErrWantSelf] says the node is that closest one, and
    [ErrNotFound] that there is none or no peer is connected.  No other error
    is returned. *)
Theorem ClosestPeer_nearest (n : nat) (k : Kad) (addr : Address) (includeSelf reachable : bool)
    (skip : list Address) (Hk : peers_ok n k) (Haddr : addr_ok n addr) :
  let C := candidates k reachable skip ∪ self k includeSelf in
  match ClosestPeer k addr includeSelf reachable skip with
  | Ok p => nearest addr C p /\ p <> base k
  | Err ErrWantSelf => nearest addr C (base k)
  | Err ErrNotFound => C = ∅ \/ elems (connectedPeers k) = ∅
  | Err _ => False
  end.
Proof. by apply (ClosestPeer_cases n). Qed.

(** C18: [ClosestPeers] lists the [limit] nearest eligible peers (all of them
    when there are fewer), nearest first and none twice. *)
Theorem ClosestPeers_sorted (n : nat) (k : Kad) (addr : Address) (limit : Z) (reachable : bool)
    (skip : list Address) (Hk : peers_ok n k) (Haddr : addr_ok n addr)
    (Hself : base k ∉ elems (connectedPeers k)) :
  nearest_list addr (candidates k reachable skip) (Z.to_nat limit)
    (ClosestPeers k addr limit reachable skip).
Proof. by apply (closest_rounds_nearest n). Qed.

(** A public node with three peers. *)
Module example.
Definition three : list Address := [[128; 0; 0; 0; 0]; [64; 0; 0; 0; 0]; [65; 0; 0; 0; 0]].

Definition kad : Kad :=
  {| lim := set_limits 0; base := [0; 0; 0; 0; 0]; oversaturation := 20; bitSuffixLength := 0;
     commonBinPrefixes := []; connectedPeers := Add (PSlice.New 32 [0; 0; 0; 0; 0]) three;
     knownPeers := PSlice.New 32 [0; 0; 0; 0; 0]; depth := 0; radius := MaxPO; nodeBoot := false;
     collector := ∅; waitNext := ∅; staticNodes := []; reachability := ReachabilityStatusPublic;
     protectPeers := [] |}.

Lemma three_connected :
  wf (connectedPeers kad) /\ elems (connectedPeers kad) = list_to_set three.
Proof.
  destruct (wf_New 32 [0; 0; 0; 0; 0]) as [Hwf He]; [lia|].
  destruct (Add_elems (PSlice.New 32 [0; 0; 0; 0; 0]) three Hwf) as [H1 H2].
  - apply (bool_decide_unpack (NoDup _)). vm_compute. exact I.
  - split; [exact H1|]. cbn [connectedPeers kad]. rewrite H2, He. set_solver.
Qed.

Lemma three_ok : peers_ok 5 kad /\ addr_ok 5 [66; 0; 0; 0; 0].
Proof.
  destruct three_connected as [Hwf He].
  assert (Hb : forall a, a ∈ [66; 0; 0; 0; 0] :: [0; 0; 0; 0; 0] :: three -> addr_ok 5 a).
  { apply Forall_forall. repeat constructor; lia. }
  split; [split; [exact Hwf|lia| |]|]; [apply Hb; set_solver| |apply Hb; set_solver].
  intros a. rewrite He, elem_of_list_to_set. intros Ha. apply Hb. by do 2 right.
Qed.
End example.

Lemma ClosestPeer_nearest_witness :
  ClosestPeer example.kad [66; 0; 0; 0; 0] true false [[64; 0; 0; 0; 0]] = Ok [65; 0; 0; 0; 0] /\
  nearest [66; 0; 0; 0; 0]
    (candidates example.kad false [[64; 0; 0; 0; 0]] ∪ self example.kad true) [65; 0; 0; 0; 0].
Proof.
  assert (E : ClosestPeer example.kad [66; 0; 0; 0; 0] true false [[64; 0; 0; 0; 0]]
              = Ok [65; 0; 0; 0; 0]) by (vm_compute; reflexivity).
  split; [exact E|].
  pose proof (ClosestPeer_nearest 5 example.kad [66; 0; 0; 0; 0] true false [[64; 0; 0; 0; 0]]
    (proj1 example.three_ok) (proj2 example.three_ok)) as H.
  cbv zeta in H. rewrite E in H. exact (proj1 H).
Defined.

Lemma ClosestPeers_sorted_witness :
  ClosestPeers example.kad [66; 0; 0; 0; 0] 2 false [] = [[64; 0; 0; 0; 0]; [65; 0; 0; 0; 0]] /\
  nearest_list [66; 0; 0; 0; 0] (candidates example.kad false []) 2
    [[64; 0; 0; 0; 0]; [65; 0; 0; 0; 0]].
Proof.
  assert (E : ClosestPeers example.kad [66; 0; 0; 0; 0] 2 false []
              = [[64; 0; 0; 0; 0]; [65; 0; 0; 0; 0]]) by (vm_compute; reflexivity).
  split; [exact E|]. rewrite <- E.
  apply (ClosestPeers_sorted 5 example.kad [66; 0; 0; 0; 0] 2 false []).
  - exact (proj1 example.three_ok).
  - exact (proj2 example.three_ok).
  - rewrite (proj2 example.three_connected), elem_of_list_to_set.
    apply (bool_decide_unpack (_ ∉ _)). vm_compute. exact I.
Defined.
