(* ===== verification/KadBalance.v ===== *)
(** * Balancing the bins (pkg/topology/kademlia, binprefix.go, [connectBalanced],
      [connectNeighbours] and [pruneOversaturatedBins])

    The pseudo addresses of a bin split it into slots, one for each value of
    the bits after the bin's own.  [generateCommonBinPrefixes_slots] is the
    partition; [prune_keeps] says what pruning leaves of a bin and of its slots,
    and [connect_offers] which peers are offered for dialling. *)

From Stdlib Require Import ZArith Lia ZifyBool.
From stdpp Require Import base gmap list numbers.
From S2P Require Import Prelude Boson PSlice KadMetrics Kademlia.

Open Scope Z_scope.

(** ** Bits of a byte *)

(** [f] changes the bit it is given as [g] does, counted from the most
    significant one. *)
Definition acts (f : Z -> Z -> Z) (g : bool -> bool) : Prop :=
  forall b pos, is_byte b -> 0 <= pos < 8 ->
    is_byte (Reverse8 (f (Reverse8 b) pos)) /\
    byte_bits (Reverse8 (f (Reverse8 b) pos)) = alter g (Z.to_nat pos) (byte_bits b).

Definition acts_on (f : Z -> Z -> Z) (g : bool -> bool) (b pos : nat) : bool :=
  let r := Reverse8 (f (Reverse8 (Z.of_nat b)) (Z.of_nat pos)) in
  (0 <=? r) && (r <? 256) &&
  bool_decide (byte_bits r = alter g pos (byte_bits (Z.of_nat b))).

Lemma acts_all f g :
  forallb (fun b => forallb (acts_on f g b) (seq 0 8)) (seq 0 256) = true -> acts f g.
Proof.
  intros H b pos Hb Hp. rewrite forallb_forall in H. unfold is_byte in *.
  specialize (H (Z.to_nat b) ltac:(apply in_seq; lia)). rewrite forallb_forall in H.
  specialize (H (Z.to_nat pos) ltac:(apply in_seq; lia)). unfold acts_on in H. cbv zeta in H.
  rewrite !Z2Nat.id in H by lia. apply andb_true_iff in H as [H Hb'%bool_decide_eq_true].
  split; [lia|done].
Qed.

Lemma acts_setBit : acts setBit (fun _ => true).
Proof. apply acts_all. vm_compute. reflexivity. Qed.

Lemma acts_clearBit : acts clearBit (fun _ => false).
Proof. apply acts_all. vm_compute. reflexivity. Qed.

Lemma acts_flip : acts (fun b pos => if hasBit b pos then clearBit b pos else setBit b pos) negb.
Proof. apply acts_all. vm_compute. reflexivity. Qed.

Lemma hasBit_testbit s n : is_byte s -> 0 <= n -> hasBit s n = Z.testbit s n.
Proof.
  intros Hs Hn. unfold hasBit, is_byte in *.
  destruct (decide (n < 8)) as [H8|H8].
  - rewrite u8_small.
    2:{ rewrite Z.shiftl_1_l. split; [lia|]. change 256 with (2 ^ 8). apply Z.pow_lt_mono_r; lia. }
    destruct (Z.testbit s n) eqn:E.
    + apply Z.ltb_lt. assert (Hne : Z.land s (Z.shiftl 1 n) <> 0).
      { intros H0. apply (f_equal (fun z => Z.testbit z n)) in H0.
        rewrite Z.land_spec, E, Z.shiftl_1_l, Z.pow2_bits_true, Z.bits_0 in H0 by lia. done. }
      assert (0 <= Z.land s (Z.shiftl 1 n)) by (apply Z.land_nonneg; lia). lia.
    + apply Z.ltb_ge. assert (Z.land s (Z.shiftl 1 n) = 0) as ->; [|lia].
      apply Z.bits_inj'. intros m Hm. rewrite Z.land_spec, Z.shiftl_1_l, Z.bits_0.
      destruct (decide (m = n)) as [->|]; [by rewrite E|]. by rewrite Z.pow2_bits_false, andb_false_r by lia.
  - assert (u8 (Z.shiftl 1 n) = 0) as ->.
    { unfold u8. rewrite Z.shiftl_1_l. replace n with (8 + (n - 8)) by lia.
      rewrite Z.pow_add_r by lia. rewrite Z.mul_comm. apply Z.mod_mul. lia. }
    rewrite Z.land_0_r. symmetry. apply Z.bits_above_log2; [lia|].
    destruct (decide (s = 0)) as [->|]; [simpl; lia|]. apply Z.log2_lt_pow2; [lia|].
    apply Z.lt_le_trans with (2 ^ 8); [lia|]. apply Z.pow_le_mono_r; lia.
Qed.

(** ** Bits of an address *)

Lemma lookup_bits p m : bits p !! m = p !! (m / 8)%nat ≫= fun b => byte_bits b !! (m mod 8)%nat.
Proof.
  revert m. induction p as [|b p IH]; intros m; [by rewrite lookup_nil|].
  rewrite bits_cons. destruct (decide (m < 8)%nat) as [Hm|Hm].
  - rewrite lookup_app_l by (by rewrite length_byte_bits).
    by rewrite Nat.div_small, Nat.mod_small by done.
  - rewrite lookup_app_r by (rewrite length_byte_bits; lia). rewrite length_byte_bits, IH.
    assert (exists r, m = r + 1 * 8)%nat as [r ->] by (exists (m - 8)%nat; lia).
    rewrite Nat.div_add, Nat.Div0.mod_add by lia.
    replace (r + 1 * 8 - 8)%nat with r by lia. by rewrite Nat.add_1_r.
Qed.

Lemma bits_alter p l b g x : p !! (l / 8)%nat = Some b ->
  byte_bits x = alter g (l mod 8)%nat (byte_bits b) ->
  bits (<[(l / 8)%nat := x]> p) = alter g l (bits p).
Proof.
  intros Hb Hx. apply list_eq. intros m. rewrite lookup_bits.
  assert (Hlt : (l / 8 < length p)%nat) by (by eapply lookup_lt_Some).
  destruct (decide (m = l)) as [->|Hne].
  - rewrite list_lookup_alter_eq, lookup_bits, Hb, list_lookup_insert_eq by done.
    cbn [mbind option_bind]. by rewrite Hx, list_lookup_alter_eq.
  - rewrite list_lookup_alter_ne, lookup_bits by done.
    destruct (decide (m / 8 = l / 8)%nat) as [E|E].
    + rewrite E, list_lookup_insert_eq, Hb by done. cbn [mbind option_bind].
      rewrite Hx, list_lookup_alter_ne; [done|].
      intros Hm. pose proof (Nat.div_mod_eq m 8). pose proof (Nat.div_mod_eq l 8). lia.
    + by rewrite list_lookup_insert_ne by done.
Qed.

Lemma on_bit_spec f g p l : acts f g -> bytes_ok p -> (l < 8 * length p)%nat ->
  exists p', on_bit f p (Z.of_nat l) = Some p' /\ bytes_ok p' /\ length p' = length p /\
    bits p' = alter g l (bits p).
Proof.
  intros Hf Hp Hl. unfold on_bit.
  assert (Hdiv : Z.to_nat (Z.of_nat l / 8) = (l / 8)%nat) by (change 8 with (Z.of_nat 8); rewrite <- Nat2Z.inj_div; lia).
  assert (Hmod : Z.of_nat l mod 8 = Z.of_nat (l mod 8)) by (by rewrite Nat2Z.inj_mod).
  rewrite Hdiv, Hmod. destruct (lookup_lt_is_Some_2 p (l / 8)%nat) as [b Hb].
  { apply Nat.Div0.div_lt_upper_bound. lia. }
  rewrite Hb. pose proof (Nat.mod_upper_bound l 8).
  destruct (Hf b (Z.of_nat (l mod 8))) as [H1 H2]; [by eapply Forall_lookup_1 in Hp|lia|].
  rewrite Nat2Z.id in H2. eexists. split; [done|]. split_and!.
  - by apply Forall_insert.
  - apply length_insert.
  - by eapply bits_alter.
Qed.

(** ** The pseudo addresses *)

(** [p'] is [p] with the bits from [l] on, [n] of them, set by [v]. *)
Definition overwritten (p p' : bytes) (l n : nat) (v : nat -> bool) : Prop :=
  bytes_ok p' /\ length p' = length p /\
  forall m, bits p' !! m = if decide (l <= m < l + n)%nat then Some (v m) else bits p !! m.

Lemma overwritten_nil p l v : bytes_ok p -> overwritten p p l 0 v.
Proof. intros Hp. split_and!; [done..|]. intros m. rewrite decide_False by lia. done. Qed.

Lemma overwritten_cons p p1 p' l n v (g : bool -> bool) :
  (l < 8 * length p)%nat -> bytes_ok p1 -> length p1 = length p -> bits p1 = alter g l (bits p) ->
  (forall b, g b = v l) -> overwritten p1 p' (S l) n v -> overwritten p p' l (S n) v.
Proof.
  intros Hl Hp1 Hlen Hb Hg (Hok & Hlen' & Hm). split_and!; [done|congruence|]. intros m. rewrite Hm, Hb.
  destruct (decide (m = l)) as [->|Hne].
  - rewrite decide_False, list_lookup_alter_eq, decide_True by lia.
    destruct (lookup_lt_is_Some_2 (bits p) l) as [b ->]; [by rewrite length_bits|]. simpl. by rewrite Hg.
  - destruct (decide (S l <= m < S l + n)%nat); [by rewrite decide_True by lia|].
    rewrite list_lookup_alter_ne by done. by rewrite decide_False by lia.
Qed.

Lemma set_suffix_spec n suffix p l : is_byte suffix -> bytes_ok p -> (l + n <= 8 * length p)%nat ->
  exists p', set_suffix n suffix p (Z.of_nat l) = Some p' /\
    overwritten p p' l n (fun m => Z.testbit suffix (Z.of_nat (l + n - 1 - m))).
Proof.
  intros Hs. revert p l. induction n as [|n IH]; intros p l Hp Hl; cbn [set_suffix].
  { exists p. split; [done|by apply overwritten_nil]. }
  set (g := fun _ : bool => Z.testbit suffix (Z.of_nat n)).
  destruct (on_bit_spec (if hasBit suffix (Z.of_nat n) then setBit else clearBit) g p l)
    as (p1 & -> & H1 & H2 & H3); [|done|lia|].
  { unfold g. rewrite hasBit_testbit by (done || lia).
    destruct (Z.testbit suffix (Z.of_nat n)); [apply acts_setBit|apply acts_clearBit]. }
  replace (Z.of_nat l + 1) with (Z.of_nat (S l)) by lia.
  destruct (IH p1 (S l)) as (p' & Hp' & Ho); [done|lia|]. exists p'. split; [done|].
  replace (l + S n)%nat with (S l + n)%nat by lia.
  eapply (overwritten_cons p p1 p' l n _ g); try done; [lia|].
  intros b. unfold g. do 2 f_equal. lia.
Qed.

Lemma clear_rest_spec n p l : bytes_ok p -> (l + n <= 8 * length p)%nat ->
  exists p', clear_rest n p (Z.of_nat l) = Some p' /\ overwritten p p' l n (fun _ => false).
Proof.
  revert p l. induction n as [|n IH]; intros p l Hp Hl; cbn [clear_rest].
  { exists p. split; [done|by apply overwritten_nil]. }
  destruct (on_bit_spec clearBit (fun _ => false) p l) as (p1 & -> & H1 & H2 & H3);
    [apply acts_clearBit|done|lia|].
  replace (Z.of_nat l + 1) with (Z.of_nat (S l)) by lia.
  destruct (IH p1 (S l)) as (p' & Hp' & Ho); [done|lia|]. exists p'. split; [done|].
  eapply (overwritten_cons p p1 p' l n _ (fun _ => false)); try done. lia.
Qed.

(** The pseudo address of slot [j] of bin [i]: the base up to the bin's bit, its
    complement there, then the bits of [j], then zeros. *)
Definition is_slot (base a : Address) (suf i j : nat) : Prop :=
  bytes_ok a /\ length a = length base /\
  forall m, bits a !! m =
    if decide (m < i)%nat then bits base !! m
    else if decide (m = i) then negb <$> bits base !! m
    else if decide (m < i + suf + 1)%nat then Some (Z.testbit (Z.of_nat j) (Z.of_nat (i + suf - m)))
    else if decide (m < 8 * length base)%nat then Some false else None.

Lemma pseudo_address_spec base suf i j : bytes_ok base -> (i + suf + 1 <= 8 * length base)%nat ->
  (suf <= 8)%nat -> (j < 2 ^ suf)%nat ->
  exists a, pseudo_address base suf i j = Some a /\ is_slot base a suf i j.
Proof.
  intros Hb Hi Hsuf Hj. unfold pseudo_address.
  destruct (Z.ltb_spec (zlen base) 1) as [|_]; [lia|].
  assert (2 ^ suf <= 2 ^ 8)%nat as H256 by (apply Nat.pow_le_mono_r; lia). simpl in H256.
  rewrite u8_small by lia.
  destruct (on_bit_spec _ _ base i acts_flip) as (p1 & -> & H1 & H2 & H3); [done|lia|].
  replace (Z.of_nat i + 1) with (Z.of_nat (S i)) by lia.
  destruct (set_suffix_spec suf (Z.of_nat j) p1 (S i)) as (p2 & -> & Hok2 & Hlen2 & Hm2);
    [unfold is_byte; lia|done|lia|].
  destruct (clear_rest_spec (8 * length p2 - (i + suf + 1)) p2 (i + suf + 1))
    as (p3 & Hp3 & Hok3 & Hlen3 & Hm3); [done|lia|].
  exists p3. split; [done|]. split; [done|]. split; [congruence|].
  intros m. rewrite Hm3, Hm2, H3, Hlen2, H2.
  destruct (decide (m < i)%nat).
  { rewrite !decide_False by lia. by rewrite list_lookup_alter_ne by lia. }
  destruct (decide (m = i)) as [->|].
  { rewrite !decide_False by lia. by rewrite list_lookup_alter_eq. }
  destruct (decide (m < i + suf + 1)%nat).
  { rewrite decide_False, decide_True by lia. do 3 f_equal. lia. }
  destruct (decide (m < 8 * length base)%nat); [by rewrite decide_True by lia|].
  rewrite !decide_False by lia. rewrite list_lookup_alter_ne by lia.
  apply lookup_ge_None_2. rewrite length_bits. lia.
Qed.

Lemma generateCommonBinPrefixes_spec base suf : bytes_ok base -> (32 + suf <= 8 * length base)%nat ->
  (suf <= 8)%nat ->
  exists pre, generateCommonBinPrefixes base suf = Some pre /\ length pre = 32%nat /\
    forall i row, pre !! i = Some row -> length row = (2 ^ suf)%nat /\
      forall j a, row !! j = Some a -> is_slot base a suf i j.
Proof.
  intros Hb Hl Hsuf.
  assert (Hrow : forall i, (i < 32)%nat -> exists row,
    mapM (pseudo_address base suf i) (seq 0 (2 ^ suf)) = Some row).
  { intros i Hi. apply mapM_is_Some_2, Forall_forall. intros j [_ Hj]%in_seq.
    destruct (pseudo_address_spec base suf i j) as (a & Ha & _); [done|lia|done|lia|by exists a]. }
  assert (Hall : exists pre, generateCommonBinPrefixes base suf = Some pre).
  { apply mapM_is_Some_2, Forall_forall. intros i [_ Hi]%in_seq. apply Hrow.
    unfold MaxBins, MaxPO in Hi. lia. }
  destruct Hall as [pre Hpre]. exists pre. split; [done|].
  unfold generateCommonBinPrefixes in Hpre. apply mapM_Some_1 in Hpre.
  pose proof (Forall2_length Hpre) as Hlen. rewrite length_seq in Hlen.
  change (Z.to_nat MaxBins) with 32%nat in *. split; [done|].
  intros i row Hi. destruct (Forall2_lookup_r _ _ _ _ _ Hpre Hi) as (i' & Hi' & Hr).
  apply lookup_seq in Hi' as [-> Hi32]. simpl in Hr. apply mapM_Some_1 in Hr.
  pose proof (Forall2_length Hr) as Hlr. rewrite length_seq in Hlr. split; [done|].
  intros j a Hj. destruct (Forall2_lookup_r _ _ _ _ _ Hr Hj) as (j' & Hj' & Ha).
  apply lookup_seq in Hj' as [-> Hj2]. simpl in Ha.
  destruct (pseudo_address_spec base suf i j) as (a' & Ha' & Hs); [done|lia|done|lia|congruence].
Qed.

(** ** Slots *)

Lemma lcp_lookup a b m : (m <= length a)%nat -> (m <= length b)%nat ->
  (m <= lcp a b)%nat <-> forall t, (t < m)%nat -> a !! t = b !! t.
Proof.
  revert a b. induction m as [|m IH]; intros a b Ha Hb; [split; [lia|lia]|].
  destruct a as [|x a], b as [|y b]; simpl in *; [lia..|].
  destruct (Bool.eqb_spec x y) as [->|Hne].
  - specialize (IH a b ltac:(lia) ltac:(lia)). split.
    + intros Hm [|t] Ht; [done|]. simpl. apply IH; lia.
    + intros H. apply le_n_S, IH. intros t Ht. apply (H (S t)). lia.
  - split; [lia|]. intros H. specialize (H 0%nat ltac:(lia)). simpl in H. congruence.
Qed.

(** Up to [ExtendedPO] a bound on the extended proximity is a bound on the common
    prefix. *)
Lemma ExtendedProximity_lcp a b t : length a = length b -> (5 <= length a < 256)%nat -> t <= 36 ->
  t <= ExtendedProximity a b <-> t <= Z.of_nat (lcp (bits a) (bits b)).
Proof.
  intros Hlen Hr Ht. rewrite ExtendedProximity_order. unfold prefix_order.
  assert (scan_len ExtendedPO a b = 5) as ->.
  { unfold scan_len. rewrite <- Hlen, !(u8_small (zlen a)) by lia.
    change (u8 (ExtendedPO / 8 + 1)) with 5. cbv zeta. repeat case_goal; bool_lia. }
  cbv zeta. change (Z.to_nat 5) with 5%nat. rewrite !bits_take, lcp_take.
  change (8 * 5)%nat with 40%nat. change ExtendedPO with 36. case_bool_decide; lia.
Qed.

(** The value of a list of bits, least significant first. *)
Fixpoint bits_value (l : list bool) : Z :=
  match l with [] => 0 | b :: l => Z.b2z b + 2 * bits_value l end.

Lemma bits_value_range l : 0 <= bits_value l < 2 ^ zlen l.
Proof.
  induction l as [|b l IH]; [done|]. cbn [bits_value length].
  rewrite Nat2Z.inj_succ, Z.pow_succ_r by lia. destruct b; simpl; lia.
Qed.

Lemma testbit_bits_value l m b : l !! m = Some b -> Z.testbit (bits_value l) (Z.of_nat m) = b.
Proof.
  revert m. induction l as [|c l IH]; intros [|m] H; [done..| |]; cbn [bits_value].
  - injection H as ->. rewrite Z.add_comm. apply Z.testbit_0_r.
  - rewrite Nat2Z.inj_succ.
    rewrite Z.add_comm, Z.testbit_succ_r by lia. by apply IH.
Qed.

(** [peer] lies in the slot of the pseudo address [p] of bin [i]. *)
Definition in_slot (suf i : nat) (peer p : Address) : bool :=
  Z.of_nat i + Z.of_nat suf + 1 <=? ExtendedProximity peer p.

Section Slots.
Context (base : Address) (suf : nat).
Context (Hlen : (5 <= length base < 256)%nat) (Hsuf : (suf <= 4)%nat).

Lemma in_slot_bits i peer p j : is_slot base p suf i j -> (i < 32)%nat -> length peer = length base ->
  in_slot suf i peer p = true <-> forall t, (t < i + suf + 1)%nat -> bits peer !! t = bits p !! t.
Proof.
  intros (Hok & Hl & _) Hi Hp. unfold in_slot. rewrite Z.leb_le.
  rewrite ExtendedProximity_lcp by lia. rewrite <- lcp_lookup by (rewrite length_bits; lia). lia.
Qed.

(** The pseudo addresses of a bin lie in it. *)
Lemma is_slot_bin i p j : (i < 32)%nat -> is_slot base p suf i j -> Proximity base p = Z.of_nat i.
Proof.
  intros Hi (_ & Hl & Hm). rewrite Proximity_lcp by lia.
  assert (lcp (bits base) (bits p) = i); [|lia].
  assert (i <= lcp (bits base) (bits p))%nat.
  { apply lcp_lookup; [rewrite length_bits; lia..|]. intros t Ht. by rewrite Hm, decide_True. }
  destruct (decide (S i <= lcp (bits base) (bits p))%nat) as [Hlcp|]; [|lia].
  rewrite lcp_lookup in Hlcp by (rewrite length_bits; lia). specialize (Hlcp i ltac:(lia)).
  rewrite Hm, decide_False, decide_True in Hlcp by lia.
  destruct (lookup_lt_is_Some_2 (bits base) i) as [b Hb]; [rewrite length_bits; lia|].
  rewrite Hb in Hlcp. simpl in Hlcp. by destruct b.
Qed.

(** A peer lies in one slot of a bin at most. *)
Lemma in_slot_unique i peer p q j j' : (i < 32)%nat -> length peer = length base ->
  is_slot base p suf i j -> is_slot base q suf i j' -> (j < 2 ^ suf)%nat -> (j' < 2 ^ suf)%nat ->
  in_slot suf i peer p = true -> in_slot suf i peer q = true -> j = j'.
Proof.
  intros Hi Hpeer Hp Hq Hj Hj' H1 H2. rewrite in_slot_bits in H1, H2 by done.
  apply Nat2Z.inj, Z.bits_inj'. intros n Hn.
  assert (Hpow : forall x, (x < 2 ^ suf)%nat -> 0 <= Z.of_nat x < 2 ^ Z.of_nat suf).
  { intros x Hx. apply Nat2Z.inj_lt in Hx. rewrite Nat2Z.inj_pow in Hx. lia. }
  destruct (decide (n < Z.of_nat suf)) as [Hlt|Hge].
  - set (t := (i + suf - Z.to_nat n)%nat).
    pose proof (H1 t ltac:(lia)) as E1. rewrite (H2 t ltac:(lia)) in E1.
    destruct Hp as (_ & _ & Hp). destruct Hq as (_ & _ & Hq). rewrite Hp, Hq in E1.
    rewrite !(decide_False (P := (t < i)%nat)), !(decide_False (P := t = i)),
      !(decide_True (P := (t < i + suf + 1)%nat)) in E1 by lia.
    injection E1 as E1. replace (i + suf - t)%nat with (Z.to_nat n) in E1 by lia.
    rewrite Z2Nat.id in E1 by lia. done.
  - assert (Hhi : forall x, (x < 2 ^ suf)%nat -> Z.testbit (Z.of_nat x) n = false).
    { intros x Hx%Hpow. rewrite <- (Z.mod_small (Z.of_nat x) (2 ^ Z.of_nat suf)) by done.
      apply Z.mod_pow2_bits_high. lia. }
    by rewrite !Hhi.
Qed.

(** A peer whose common prefix with the base has length [i] lies in a slot. *)
Lemma in_slot_exists i peer : (i < 32)%nat -> length peer = length base ->
  lcp (bits base) (bits peer) = i ->
  exists j, (j < 2 ^ suf)%nat /\ forall p, is_slot base p suf i j -> in_slot suf i peer p = true.
Proof.
  intros Hi Hpeer Hlcp.
  set (l := reverse (take suf (drop (S i) (bits peer)))).
  assert (Hll : length l = suf).
  { unfold l. rewrite length_reverse, length_take, length_drop, length_bits. lia. }
  pose proof (bits_value_range l) as Hv. rewrite Hll in Hv. exists (Z.to_nat (bits_value l)). split.
  { apply Nat2Z.inj_lt. rewrite Nat2Z.inj_pow. lia. }
  intros p Hp. rewrite in_slot_bits by done. destruct Hp as (_ & Hlp & Hm). intros t Ht. rewrite Hm.
  assert (Hpre : forall t, (t < i)%nat -> bits base !! t = bits peer !! t).
  { apply lcp_lookup; rewrite ?length_bits; lia. }
  destruct (decide (t < i)%nat) as [|Hti]; [symmetry; by apply Hpre|].
  destruct (lookup_lt_is_Some_2 (bits peer) t) as [b Hb]; [rewrite length_bits; lia|].
  destruct (decide (t = i)) as [->|].
  - destruct (lookup_lt_is_Some_2 (bits base) i) as [c Hc]; [rewrite length_bits; lia|].
    rewrite Hb, Hc. simpl. f_equal. destruct (decide (b = c)) as [->|]; [|by destruct b, c].
    assert (S i <= lcp (bits base) (bits peer))%nat; [|lia].
    apply lcp_lookup; [rewrite length_bits; lia..|]. intros t Ht'.
    destruct (decide (t = i)) as [->|]; [congruence|apply Hpre; lia].
  - rewrite decide_True, Z2Nat.id, Hb by lia. f_equal. symmetry. apply testbit_bits_value.
    unfold l. rewrite reverse_lookup_Some, length_take, length_drop, length_bits.
    split; [|lia]. rewrite lookup_take_lt, lookup_drop by lia. rewrite <- Hb. f_equal. lia.
Qed.
End Slots.

(** ** Pruning *)

Section Prune.
Context (k : Kad) (idle drop : Address -> bool).

Lemma first_dropped_spec peers g : first_dropped drop peers = Some g -> g ∈ peers /\ drop g = true.
Proof.
  induction peers as [|p peers IH]; [done|]. simpl. destruct (drop p) eqn:E.
  - intros [= ->]. split; [by left|done].
  - intros [? ?]%IH. split; [by right|done].
Qed.

(** What the loop over the slots of a bin drops from the free peers. *)
Record pruned (i : Z) (free : list Address) (n : Z) (prefixes R : list Address) : Prop := {
  pr_length : zlen R <= Z.max 0 n;
  pr_nodup : NoDup R;
  pr_slot : forall g, g ∈ R -> drop g = true /\ exists t p, prefixes !! t = Some p /\
    g ∈ balancedSlotPeers k p free i /\ 2 <= zlen (balancedSlotPeers k p free i);
  pr_one : forall t p g h, prefixes !! t = Some p -> g ∈ R -> h ∈ R ->
    g ∈ balancedSlotPeers k p free i -> h ∈ balancedSlotPeers k p free i -> g = h;
}.

(** No peer is in two slots. *)
Definition disjoint_slots (i : Z) (free prefixes : list Address) : Prop :=
  forall t t' p q a, prefixes !! t = Some p -> prefixes !! t' = Some q ->
    a ∈ balancedSlotPeers k p free i -> a ∈ balancedSlotPeers k q free i -> t = t'.

Lemma pruned_nil i free n prefixes : pruned i free n prefixes [].
Proof. split; [simpl; lia|constructor|by inversion 1|by inversion 2]. Qed.

Lemma pruned_skip i free n p prefixes R : disjoint_slots i free (p :: prefixes) ->
  pruned i free n prefixes R -> pruned i free n (p :: prefixes) R.
Proof.
  intros Hd [Hl Hn Hs Ho]. split; [done|done| |].
  - intros g (Hg & t & q & Hq & ?)%Hs. split; [done|]. by exists (S t), q.
  - intros [|t] q g h Hq Hg Hh Hgs Hhs; [|by eapply Ho].
    apply Hs in Hg as (_ & t' & q' & Hq' & Hgq & _).
    by specialize (Hd 0%nat (S t') q q' g Hq Hq' Hgs Hgq).
Qed.

Lemma pruned_drop i free n p prefixes R g : 0 < n -> disjoint_slots i free (p :: prefixes) ->
  g ∈ balancedSlotPeers k p free i -> drop g = true -> 2 <= zlen (balancedSlotPeers k p free i) ->
  pruned i free (n - 1) prefixes R -> pruned i free n (p :: prefixes) (g :: R).
Proof.
  intros Hpos Hd Hg Hdrop Hz [Hl Hn Hs Ho].
  assert (Hother : forall h, h ∈ R -> h ∉ balancedSlotPeers k p free i).
  { intros h (_ & t & q & Hq & Hhq & _)%Hs Hhp.
    by specialize (Hd 0%nat (S t) p q h eq_refl Hq Hhp Hhq). }
  split.
  - cbn [length]. lia.
  - constructor; [|done]. intros ?%Hother. done.
  - intros h [->|Hh]%elem_of_cons; [split; [done|]; by exists 0%nat, p|].
    apply Hs in Hh as (Hh & t & q & Hq & ?). split; [done|]. by exists (S t), q.
  - intros [|t] q h h' Hq Hh Hh' Hhs Hhs'.
    + simpl in Hq. injection Hq as <-. apply elem_of_cons in Hh as [->|Hh]; [|by apply Hother in Hh].
      apply elem_of_cons in Hh' as [->|Hh']; [done|by apply Hother in Hh'].
    + assert (Hng : g ∉ balancedSlotPeers k q free i).
      { intros Hgq. by specialize (Hd 0%nat (S t) p q g eq_refl Hq Hg Hgq). }
      apply elem_of_cons in Hh as [->|Hh]; [done|]. apply elem_of_cons in Hh' as [->|Hh']; [done|].
      by eapply Ho.
Qed.

Lemma disjoint_slots_cons i free p prefixes :
  disjoint_slots i free (p :: prefixes) -> disjoint_slots i free prefixes.
Proof.
  intros Hd t t' q q' a Hq Hq' Ha Ha'.
  by specialize (Hd (S t) (S t') q q' a Hq Hq' Ha Ha') as [= ->].
Qed.

Lemma prune_slots_pruned i free n prefixes : disjoint_slots i free prefixes ->
  pruned i free n prefixes (prune_slots k drop i free n prefixes).
Proof.
  revert n. induction prefixes as [|p prefixes IH]; intros n Hd; simpl; [apply pruned_nil|].
  destruct (Z.leb_spec n 0) as [|Hpos]; [apply pruned_nil|].
  pose proof (disjoint_slots_cons _ _ _ _ Hd) as Hd'.
  destruct (Z.leb_spec (zlen (balancedSlotPeers k p free i)) 1); [by apply pruned_skip; [|apply IH]|].
  destruct (first_dropped drop _) as [g|] eqn:Hg; [|by apply pruned_skip; [|apply IH]].
  apply first_dropped_spec in Hg as [Hg Hdg]. apply pruned_drop; try done; [lia|by apply IH].
Qed.

(** A slot that loses a peer keeps another one. *)
Lemma pruned_keeps i free n prefixes R t p g : NoDup free -> pruned i free n prefixes R ->
  disjoint_slots i free prefixes -> prefixes !! t = Some p ->
  g ∈ R -> g ∈ balancedSlotPeers k p free i ->
  exists h, h ∈ balancedSlotPeers k p free i /\ h ∉ R.
Proof.
  intros Hfree [_ _ Hs Ho] Hd Hp Hg Hgp.
  destruct (Hs g Hg) as (_ & t' & q & Hq & Hgq & Hz).
  assert (t' = t) as -> by (by eapply Hd). rewrite Hp in Hq. injection Hq as <-.
  assert (Hnd : NoDup (balancedSlotPeers k p free i)).
  { unfold balancedSlotPeers. apply NoDup_ListNoDup, List.NoDup_filter. by apply NoDup_ListNoDup. }
  destruct (balancedSlotPeers k p free i) as [|a [|b l]] eqn:E; [simpl in Hz; lia..|].
  apply list.NoDup_cons in Hnd as [Hab _].
  destruct (decide (g = a)) as [->|Hga].
  - exists b. split; [right; by left|]. intros Hb. apply Hab.
    rewrite (Ho t p a b Hp Hg Hb); [by left|rewrite E; by left|rewrite E; right; by left].
  - exists a. split; [by left|]. intros Ha. apply Hga.
    apply (Ho t p g a Hp Hg Ha); [by rewrite E|rewrite E; by left].
Qed.
End Prune.

(** ** Pruning all bins *)

(** A node as [New] makes it, with addresses of one length. *)
Record balanced (suf : nat) (k : Kad) : Prop := {
  ba_wf : wf (connectedPeers k);
  ba_bins : maxBins (connectedPeers k) = MaxBins;
  ba_len : (5 <= length (base k) < 256)%nat;
  ba_bytes : bytes_ok (base k);
  ba_suf : (suf <= 4)%nat;
  ba_suffix : bitSuffixLength k = Z.of_nat suf;
  ba_prefixes : generateCommonBinPrefixes (base k) suf = Some (commonBinPrefixes k);
  ba_peers : forall a, a ∈ elems (connectedPeers k) -> length a = length (base k);
}.

Lemma NoDup_mjoin_key {A} (key : A -> nat) (ls : list (list A)) (n : nat) :
  (forall i l, ls !! i = Some l -> NoDup l /\ forall a, a ∈ l -> key a = (n + i)%nat) ->
  NoDup (mjoin ls).
Proof.
  revert n. induction ls as [|l ls IH]; intros n H; [constructor|]. simpl.
  apply list.NoDup_app. split_and!.
  - by apply (H 0%nat).
  - intros a Ha (l' & Ha' & Hl')%list_elem_of_join. apply list_elem_of_lookup in Hl' as [i Hi].
    pose proof (proj2 (H 0%nat l eq_refl) a Ha). pose proof (proj2 (H (S i) l' Hi) a Ha'). lia.
  - apply (IH (S n)). intros i l' Hi. destruct (H (S i) l' Hi) as [? Hk]. split; [done|].
    intros a ?%Hk. lia.
Qed.

Section PruneAll.
Context (suf : nat) (k : Kad) (Hk : balanced suf k) (idle drop : Address -> bool).

Lemma row_slots i row : commonBinPrefixes k !! i = Some row ->
  (i < 32)%nat /\ length row = (2 ^ suf)%nat /\
  forall j p, row !! j = Some p -> is_slot (base k) p suf i j.
Proof.
  intros Hi. destruct (generateCommonBinPrefixes_spec (base k) suf) as (pre & Hpre & Hlen & Hrows).
  { apply Hk. }
  { pose proof (ba_len _ _ Hk). pose proof (ba_suf _ _ Hk). lia. }
  { pose proof (ba_suf _ _ Hk). lia. }
  rewrite (ba_prefixes _ _ Hk) in Hpre. injection Hpre as <-.
  split; [apply lookup_lt_Some in Hi; lia|]. by apply Hrows.
Qed.

Lemma row_of i : (i < 32)%nat -> exists row, commonBinPrefixes k !! i = Some row.
Proof.
  intros Hi. destruct (generateCommonBinPrefixes_spec (base k) suf) as (pre & Hpre & Hlen & _).
  { apply Hk. }
  { pose proof (ba_len _ _ Hk). pose proof (ba_suf _ _ Hk). lia. }
  { pose proof (ba_suf _ _ Hk). lia. }
  rewrite (ba_prefixes _ _ Hk) in Hpre. injection Hpre as <-. apply lookup_lt_is_Some_2. lia.
Qed.

Lemma bin_connected i a : (i < 32)%nat -> a ∈ BinPeers (connectedPeers k) (u8 (Z.of_nat i)) <->
  a ∈ elems (connectedPeers k) /\ po (connectedPeers k) a = Z.of_nat i.
Proof.
  intros Hi. pose proof (ba_wf _ _ Hk) as Hwf. pose proof (ba_bins _ _ Hk) as Hb.
  unfold MaxBins, MaxPO in Hb. rewrite u8_small by lia. unfold BinPeers.
  destruct (Z.leb_spec (maxBins (connectedPeers k)) (Z.of_nat i)); [lia|]. split.
  - unfold bin. rewrite Nat2Z.id. destruct (peers _ !! i) as [l|] eqn:Hl; [|by inversion 1].
    simpl. intros Ha. split; [apply elem_of_elems; eauto|by eapply wf_po].
  - intros [Ha <-]. by apply elem_of_bin.
Qed.

Lemma NoDup_bin i : NoDup (BinPeers (connectedPeers k) i).
Proof.
  unfold BinPeers. destruct (_ <=? i); [constructor|]. unfold bin.
  destruct (peers _ !! Z.to_nat i) as [l|] eqn:Hl; [|constructor]. simpl.
  eapply wf_nodup; [apply Hk|done].
Qed.

Lemma in_balancedSlotPeers i p free a :
  a ∈ balancedSlotPeers k p free (Z.of_nat i) <-> a ∈ free /\ in_slot suf i a p = true.
Proof.
  unfold balancedSlotPeers, in_slot. rewrite list_elem_of_In, List.filter_In, <- list_elem_of_In.
  by rewrite (ba_suffix _ _ Hk).
Qed.

(** The peers of a bin that may be dropped. *)
Definition free_peers (i : nat) : list Address :=
  List.filter (fun peer => negb (IsProtectPeer k peer) && idle peer)
    (BinPeers (connectedPeers k) (u8 (Z.of_nat i))).

Lemma elem_of_free i a : (i < 32)%nat -> a ∈ free_peers i <->
  a ∈ elems (connectedPeers k) /\ po (connectedPeers k) a = Z.of_nat i /\
  IsProtectPeer k a = false /\ idle a = true.
Proof.
  intros Hi. unfold free_peers. rewrite list_elem_of_In, List.filter_In, <- list_elem_of_In.
  rewrite bin_connected, andb_true_iff, negb_true_iff by done. tauto.
Qed.

Lemma NoDup_free i : NoDup (free_peers i).
Proof. apply NoDup_ListNoDup, List.NoDup_filter, NoDup_ListNoDup, NoDup_bin. Qed.

Lemma row_disjoint i row : commonBinPrefixes k !! i = Some row ->
  disjoint_slots k (Z.of_nat i) (free_peers i) row.
Proof.
  intros (Hi & Hlen & Hrow)%row_slots t t' p q a Hp Hq.
  intros [Hf Hsp]%in_balancedSlotPeers [_ Hsq]%in_balancedSlotPeers.
  apply elem_of_free in Hf as [Ha _]; [|done].
  pose proof (lookup_lt_Some _ _ _ Hp). pose proof (lookup_lt_Some _ _ _ Hq).
  eapply (in_slot_unique (base k) suf); [apply Hk|apply Hk|exact Hi|by apply Hk|by apply Hrow|
    by apply Hrow|lia|lia|exact Hsp|exact Hsq].
Qed.

Definition spare (i : nat) : Z :=
  BinSize (connectedPeers k) (u8 (Z.of_nat i))
  - (overSaturationPeers (lim k) + quickSaturationPeers (lim k)).

Lemma prune_bin_pruned i row : commonBinPrefixes k !! i = Some row ->
  pruned k drop (Z.of_nat i) (free_peers i) (spare i) row (prune_bin k idle drop (Z.of_nat i) row).
Proof.
  intros Hi. unfold prune_bin, spare. cbv zeta. case_match; [apply pruned_nil|].
  apply prune_slots_pruned. by apply row_disjoint.
Qed.

Lemma prune_bin_free i row g : commonBinPrefixes k !! i = Some row ->
  g ∈ prune_bin k idle drop (Z.of_nat i) row -> g ∈ free_peers i /\ drop g = true.
Proof.
  intros Hi Hg. destruct (pr_slot _ _ _ _ _ _ _ (prune_bin_pruned i row Hi) g Hg)
    as (Hd & t & p & _ & Hp & _). split; [|done]. by apply in_balancedSlotPeers in Hp as [? _].
Qed.

Lemma elem_of_gone d g : g ∈ pruneOversaturatedBins k idle drop d <->
  exists i row, commonBinPrefixes k !! i = Some row /\ Z.of_nat i < d /\
    g ∈ prune_bin k idle drop (Z.of_nat i) row.
Proof.
  unfold pruneOversaturatedBins. rewrite list_elem_of_join. split.
  - intros (l & Hg & (i & row & -> & Hi)%elem_of_lookup_imap). simpl in Hg.
    destruct (Z.leb_spec d (Z.of_nat i)); [by inversion Hg|]. eauto.
  - intros (i & row & Hi & Hd & Hg). eexists. split; [|apply elem_of_lookup_imap; eauto].
    simpl. destruct (Z.leb_spec d (Z.of_nat i)); [lia|done].
Qed.

Lemma gone_bin d g i row : commonBinPrefixes k !! i = Some row ->
  g ∈ pruneOversaturatedBins k idle drop d -> po (connectedPeers k) g = Z.of_nat i ->
  g ∈ prune_bin k idle drop (Z.of_nat i) row.
Proof.
  intros Hi (j & row' & Hj & _ & Hg)%elem_of_gone Hpo.
  pose proof (prune_bin_free _ _ _ Hj Hg) as [Hf _].
  apply elem_of_free in Hf as (_ & Hpj & _); [|by eapply row_slots].
  assert (i = j) as <- by lia. rewrite Hi in Hj. by injection Hj as <-.
Qed.

Lemma NoDup_gone d : NoDup (pruneOversaturatedBins k idle drop d).
Proof.
  apply (NoDup_mjoin_key (fun a => Z.to_nat (po (connectedPeers k) a)) _ 0).
  intros i l Hl. rewrite list_lookup_imap in Hl.
  destruct (commonBinPrefixes k !! i) as [row|] eqn:Hi; simplify_eq/=.
  destruct (d <=? Z.of_nat i); [split; [constructor|by inversion 1]|].
  split; [apply (pr_nodup _ _ _ _ _ _ _ (prune_bin_pruned i row Hi))|].
  intros a [Ha _]%(prune_bin_free _ _ _ Hi).
  apply elem_of_free in Ha as (_ & -> & _); [lia|by eapply row_slots].
Qed.
End PruneAll.

(** ** Offers *)

Section Visit.
Context {St E : Type} (pf : EachPeerFunc St E) (P : St -> Prop).

Lemma each_peer_inv st l p : (forall st a, a ∈ l -> P st -> P (pf st a p).1) -> P st ->
  P (each_peer pf st l p).1.
Proof.
  revert st. induction l as [|a l IH]; intros st Hf Hst; [done|]. simpl.
  pose proof (Hf st a ltac:(by left) Hst) as Ha. destruct (pf st a p) as [st' [[b n] err]].
  destruct err, b, n; try done; apply IH; try done; intros st2 b2 Hb2; apply Hf; by right.
Qed.

(** A property the callback keeps on every visit holds after the iteration. *)
Lemma EachBinRev_inv s st : wf s ->
  (forall st a, a ∈ elems s -> P st -> P (pf st a (po s a)).1) -> P st ->
  P (EachBinRev s pf st).1.
Proof.
  intros Hwf Hf. unfold EachBinRev.
  assert (Hbs : forall i l a, (i, l) ∈ bins s -> a ∈ l -> a ∈ elems s /\ u8 i = po s a).
  { intros i l a (j & l' & ? & Hj)%elem_of_lookup_imap Ha. simplify_eq.
    pose proof (wf_po _ Hwf _ _ _ Hj Ha) as Hp. pose proof (po_range s a (wf_range s Hwf)).
    pose proof (wf_range s Hwf). split; [apply elem_of_elems; eauto|]. rewrite u8_small; lia. }
  revert st Hbs. induction (bins s) as [|[i l] bs IH]; intros st Hbs Hst; [done|]. cbn [each_bin].
  assert (P (each_peer pf st l (u8 i)).1) as Hp.
  { apply each_peer_inv; [|done]. intros st' a Ha Hst'.
    destruct (Hbs i l a ltac:(by left) Ha) as [Hin ->]. by apply Hf. }
  destruct (each_peer pf st l (u8 i)) as [st' []]; [|done].
  apply IH; [|done]. intros j l' a Hj. apply Hbs. by right.
Qed.
End Visit.

Lemma nClosePeerInSlice_spec peers addr spf minPO p :
  nClosePeerInSlice peers addr spf minPO = Some p ->
  p ∈ peers /\ spf p = false /\ minPO <= ExtendedProximity p addr.
Proof.
  induction peers as [|q peers IH]; [done|]. simpl. intros H.
  destruct (spf q) eqn:Eq; [apply IH in H as (? & ? & ?); split; [by right|done]|].
  destruct (Z.leb_spec minPO (ExtendedProximity q addr)).
  - injection H as <-. split; [by left|done].
  - apply IH in H as (? & ? & ?). split; [by right|done].
Qed.

Lemma nClosePeerInSlice_none peers addr minPO p :
  nClosePeerInSlice peers addr (fun _ => false) minPO = None -> p ∈ peers ->
  ExtendedProximity p addr < minPO.
Proof.
  induction peers as [|q peers IH]; [by inversion 2|]. simpl. intros H Hp.
  destruct (Z.leb_spec minPO (ExtendedProximity q addr)); [done|].
  apply elem_of_cons in Hp as [->|]; [done|by apply IH].
Qed.

(** A peer that may be dialled: known, not connected, not waiting. *)
Definition diallable (k : Kad) (now : Z) (a : Address) : Prop :=
  a ∈ elems (knownPeers k) /\ ~ a ∈ elems (connectedPeers k) /\ Waiting (waitNext k) now a = false.

(** An offer of the balancer fills a slot that has no connected peer. *)
Lemma balance_bin_offers k now i known connected prefixes o :
  wf (connectedPeers k) -> (forall a, a ∈ known -> a ∈ elems (knownPeers k)) ->
  o ∈ balance_bin k now i known connected prefixes ->
  diallable k now (info_addr o) /\ exists p, p ∈ prefixes /\
    u8 (i + bitSuffixLength k + 1) <= ExtendedProximity (info_addr o) p /\
    forall a, a ∈ connected -> ExtendedProximity a p < u8 (i + bitSuffixLength k + 1).
Proof.
  intros Hwf Hknown. induction prefixes as [|p prefixes IH]; [by inversion 1|]. cbn [balance_bin]. cbv zeta.
  assert (Hskip : o ∈ balance_bin k now i known connected prefixes ->
    diallable k now (info_addr o) /\ exists q, q ∈ (p :: prefixes) /\
      u8 (i + bitSuffixLength k + 1) <= ExtendedProximity (info_addr o) q /\
      forall a, a ∈ connected -> ExtendedProximity a q < u8 (i + bitSuffixLength k + 1)).
  { intros (Hd & q & Hq & ?)%IH. split; [done|]. exists q. split; [by right|done]. }
  destruct (nClosePeerInSlice connected p _ _) as [c|] eqn:Hc; [done|].
  destruct (nClosePeerInSlice known p _ _) as [a|] eqn:Ha; [|done].
  destruct (Exists (connectedPeers k) a) eqn:He; [done|].
  intros ->%list_elem_of_singleton. cbn [info_addr].
  apply nClosePeerInSlice_spec in Ha as (Ha & Hw & Hpo). split.
  - split_and!; [by apply Hknown| |done]. rewrite <- Exists_elems by done. by rewrite He.
  - exists p. split_and!; [by left|done|]. intros b Hb. by eapply nClosePeerInSlice_none.
Qed.

Lemma BinPeers_elems s i a : a ∈ BinPeers s i -> a ∈ elems s.
Proof.
  unfold BinPeers. destruct (_ <=? i); [by inversion 1|]. unfold bin.
  destruct (peers s !! Z.to_nat i) as [l|] eqn:Hl; [|by inversion 1]. simpl.
  intros Ha. apply elem_of_elems. eauto.
Qed.

Lemma connectNeighbours_offers k now o : wf (connectedPeers k) -> wf (knownPeers k) ->
  o ∈ connectNeighbours k now ->
  diallable k now (info_addr o) /\ info_po o = po (knownPeers k) (info_addr o) /\ depth k <= info_po o.
Proof.
  intros Hc Hn. unfold connectNeighbours. revert o.
  apply (EachBinRev_inv (neighbour_visit k now) (fun st => forall o, o ∈ st.2 ->
    diallable k now (info_addr o) /\ info_po o = po (knownPeers k) (info_addr o) /\
    depth k <= info_po o)); [done| |by inversion 1].
  intros [[sent cur] out] a Ha IH. unfold neighbour_visit, NeighborhoodDepth.
  destruct (Z.ltb_spec (po (knownPeers k) a) (depth k)) as [|Hd]; [done|].
  destruct (if po (knownPeers k) a =? cur then _ else _) as [sent' cur'].
  destruct (Exists (connectedPeers k) a) eqn:He; [done|].
  destruct (Waiting (waitNext k) now a) eqn:Hw; [done|]. simpl.
  intros o [Ho|Ho]%elem_of_app; [by apply IH|]. apply list_elem_of_singleton in Ho as ->. simpl.
  split_and!; try done. split_and!; [done| |done]. rewrite <- Exists_elems by done. by rewrite He.
Qed.

(** * Properties *)

(** C20: [generateCommonBinPrefixes] never panics on an address of five bytes or
    more, gives every bin [2 ^ suf] pseudo addresses that lie in the bin, and
    these split the bin: a peer whose first [i] bits, and no more, are those of
    the base is close enough to exactly one pseudo address of bin [i]. *)
Theorem generateCommonBinPrefixes_slots (base : Address) (suf : nat)
    (Hbytes : bytes_ok base) (Hlen : (5 <= length base < 256)%nat) (Hsuf : (suf <= 4)%nat) :
  exists pre, generateCommonBinPrefixes base suf = Some pre /\ length pre = 32%nat /\
    forall i row, pre !! i = Some row -> length row = (2 ^ suf)%nat /\
      (forall p, p ∈ row -> Proximity base p = Z.of_nat i) /\
      forall peer, length peer = length base -> lcp (bits base) (bits peer) = i ->
        exists j p, row !! j = Some p /\ in_slot suf i peer p = true /\
          forall j' p', row !! j' = Some p' -> in_slot suf i peer p' = true -> j' = j.
Proof.
  destruct (generateCommonBinPrefixes_spec base suf) as (pre & Hpre & H32 & Hrows); [done|lia|lia|].
  exists pre. split_and!; [done|done|]. intros i row Hi. destruct (Hrows i row Hi) as [Hrow Hslot].
  assert (Hi32 : (i < 32)%nat) by (apply lookup_lt_Some in Hi; lia). split_and!; [done| |].
  - intros p [j Hj]%list_elem_of_lookup. by eapply is_slot_bin, Hslot.
  - intros peer Hp Hlcp.
    destruct (in_slot_exists base suf Hlen Hsuf i peer Hi32 Hp Hlcp) as (j & Hj & Hin).
    destruct (lookup_lt_is_Some_2 row j) as [p Hjp]; [lia|]. exists j, p.
    split_and!; [done|by apply Hin, Hslot|]. intros j' p' Hj' Hin'.
    eapply (in_slot_unique base suf Hlen Hsuf i peer p' p); try done; [by apply Hslot|by apply Hslot| |].
    + apply lookup_lt_Some in Hj'. lia.
    + by apply Hin, Hslot.
Qed.

Lemma generateCommonBinPrefixes_slots_witness : exists pre,
  generateCommonBinPrefixes [10; 20; 30; 40; 50] 3 = Some pre /\ length pre = 32%nat.
Proof.
  destruct (generateCommonBinPrefixes_slots [10; 20; 30; 40; 50] 3) as (pre & H1 & H2 & _).
  - repeat constructor; lia.
  - simpl. lia.
  - lia.
  - exists pre. split; [exact H1|exact H2].
Defined.

(** C19: [pruneOversaturatedBins] disconnects no peer twice, only idle,
    unprotected peers of bins below the depth, at most as many of a bin as it has
    above [overSaturationPeers + quickSaturationPeers], and it leaves a connected
    peer in every slot that had one. *)
Theorem prune_keeps (suf : nat) (k : Kad) (idle drop : Address -> bool) (d : Z)
    (Hk : balanced suf k) :
  let gone := pruneOversaturatedBins k idle drop d in
  let s := connectedPeers k in
  NoDup gone /\
  (forall a, a ∈ gone -> a ∈ elems s /\ po s a < d /\ IsProtectPeer k a = false /\ idle a = true) /\
  (forall i, (i < 32)%nat ->
     Z.of_nat (size (filter (fun a => po s a = Z.of_nat i) (list_to_set gone : gset Address)))
     <= Z.max 0 (BinSize s (Z.of_nat i)
                 - (overSaturationPeers (lim k) + quickSaturationPeers (lim k)))) /\
  (forall i row p a, commonBinPrefixes k !! i = Some row -> p ∈ row ->
     a ∈ elems s -> po s a = Z.of_nat i -> in_slot suf i a p = true ->
     exists b, b ∈ elems s /\ po s b = Z.of_nat i /\ in_slot suf i b p = true /\ b ∉ gone).
Proof.
  intros gone s. split_and!.
  - by apply (NoDup_gone suf).
  - intros a (i & row & Hi & Hd & Ha)%elem_of_gone. pose proof (row_slots _ _ Hk _ _ Hi) as [Hi32 _].
    apply (prune_bin_free suf k Hk) in Ha as [Ha _]; [|done].
    apply (elem_of_free suf k Hk idle drop i a Hi32) in Ha as (? & Hpo & ? & ?).
    split_and!; try done. fold s in Hpo. lia.
  - intros i Hi. destruct (row_of suf k Hk i Hi) as [row Hrow].
    pose proof (prune_bin_pruned suf k Hk idle drop i row Hrow) as [Hlen Hnd _ _].
    unfold spare in Hlen. rewrite u8_small in Hlen by lia.
    etrans; [|exact Hlen]. rewrite <- (size_list_to_set (C := gset Address) _ Hnd).
    apply inj_le, subseteq_size. intros a [Hpo Ha%elem_of_list_to_set]%elem_of_filter.
    apply elem_of_list_to_set. by eapply gone_bin.
  - intros i row p a Hi Hp Ha Hpo Hin. destruct (decide (a ∈ gone)) as [Hg|Hg]; [|by exists a].
    apply list_elem_of_lookup in Hp as [t Ht].
    pose proof (row_slots _ _ Hk _ _ Hi) as [Hi32 _].
    pose proof (gone_bin suf k Hk idle drop d a i row Hi Hg Hpo) as Hga.
    destruct (pruned_keeps k drop (Z.of_nat i) (free_peers k idle i) (spare k i) row
      (prune_bin k idle drop (Z.of_nat i) row) t p a) as (b & Hb & Hnb); try done.
    + by apply (NoDup_free suf).
    + by apply (prune_bin_pruned suf).
    + by apply (row_disjoint suf).
    + apply (in_balancedSlotPeers suf k Hk). split; [|done].
      by apply (prune_bin_free suf k Hk) in Hga as [? _].
    + apply (in_balancedSlotPeers suf k Hk) in Hb as [Hf Hbin].
      apply (elem_of_free suf k Hk idle drop i b Hi32) in Hf as (? & Hbp & _).
      exists b. split_and!; try done. intros Hgb. apply Hnb. by eapply gone_bin.
Qed.

(** A node with seven peers in one slot of bin 0, where six may stay. *)
Module crowded.
Definition base0 : Address := [0; 0; 0; 0; 0].

Definition seven : list Address := map (fun x => [128; 0; 0; 0; x]) [0; 1; 2; 3; 4; 5; 6].

Definition kad : Kad :=
  {| lim := set_limits 5; base := base0; oversaturation := 5; bitSuffixLength := 3;
     commonBinPrefixes := default [] (generateCommonBinPrefixes base0 3);
     connectedPeers := Add (PSlice.New MaxBins base0) seven;
     knownPeers := PSlice.New MaxBins base0; depth := 1; radius := MaxPO; nodeBoot := false;
     collector := ∅; waitNext := ∅; staticNodes := []; reachability := ReachabilityStatusPublic;
     protectPeers := [[128; 0; 0; 0; 0]] |}.

Lemma kad_balanced : balanced 3 kad.
Proof.
  assert (Hadd : wf (connectedPeers kad) /\ elems (connectedPeers kad) = list_to_set seven ∪ ∅).
  { destruct (wf_New MaxBins base0) as [Hwf He]; [done|]. rewrite <- He. apply Add_elems; [done|].
    apply (bool_decide_unpack (NoDup _)). vm_compute. exact I. }
  destruct Hadd as [Hwf He]. split; try done.
  - simpl. lia.
  - repeat constructor; lia.
  - lia.
  - intros a. rewrite He, union_empty_r_L, elem_of_list_to_set. intros (x & -> & _)%list_elem_of_fmap. done.
Qed.
End crowded.

Lemma prune_keeps_witness :
  pruneOversaturatedBins crowded.kad (fun _ => true) (fun _ => true) 1 = [[128; 0; 0; 0; 1]] /\
  NoDup (pruneOversaturatedBins crowded.kad (fun _ => true) (fun _ => true) 1).
Proof.
  split; [vm_compute; reflexivity|].
  exact (proj1 (prune_keeps 3 crowded.kad (fun _ => true) (fun _ => true) 1 crowded.kad_balanced)).
Defined.

(** Every peer the two connectors offer for dialling is known, not
    connected and not waiting for a retry; an offer of [connectBalanced] fills a
    slot without a connected peer, and an offer of [connectNeighbours] lies at or
    above the depth and carries its bin. *)
Theorem connect_offers (k : Kad) (now : Z) (o : peerConnInfo)
    (Hconn : wf (connectedPeers k)) (Hknown : wf (knownPeers k)) :
  (o ∈ connectBalanced k now ->
     diallable k now (info_addr o) /\
     exists i row p, commonBinPrefixes k !! i = Some row /\ p ∈ row /\
       let minPO := u8 (Z.of_nat i + bitSuffixLength k + 1) in
       minPO <= ExtendedProximity (info_addr o) p /\
       forall a, a ∈ BinPeers (connectedPeers k) (u8 (Z.of_nat i)) -> ExtendedProximity a p < minPO) /\
  (o ∈ connectNeighbours k now ->
     diallable k now (info_addr o) /\ info_po o = po (knownPeers k) (info_addr o) /\
     NeighborhoodDepth k <= info_po o).
Proof.
  split; [|by apply connectNeighbours_offers].
  unfold connectBalanced. rewrite list_elem_of_join.
  intros (l & Ho & (i & row & -> & Hi)%elem_of_lookup_imap). simpl in Ho.
  destruct ((NeighborhoodDepth k <=? Z.of_nat i) && _); [by inversion Ho|].
  apply balance_bin_offers in Ho as (Hd & p & Hp & H1 & H2); [|done|apply BinPeers_elems].
  split; [done|]. exists i, row, p. by split_and!.
Qed.

Lemma connect_offers_witness :
  let k := set_peers crowded.kad (connectedPeers crowded.kad)
             (Add (knownPeers crowded.kad) [[64; 0; 0; 0; 0]]) in
  connectNeighbours k 0 = [{| info_po := 1; info_addr := [64; 0; 0; 0; 0] |}] /\
  diallable k 0 [64; 0; 0; 0; 0].
Proof.
  intros k.
  assert (E : connectNeighbours k 0 = [{| info_po := 1; info_addr := [64; 0; 0; 0; 0] |}])
    by (vm_compute; reflexivity).
  split; [exact E|].
  refine (proj1 (proj2 (connect_offers k 0 {| info_po := 1; info_addr := [64; 0; 0; 0; 0] |} _ _) _)).
  - exact (ba_wf 3 crowded.kad crowded.kad_balanced).
  - apply (Add_elems _ [[64; 0; 0; 0; 0]]); [apply wf_New; done|apply list.NoDup_singleton].
  - rewrite E. left.
Defined.
