(* ===== verification/Routetab.v ===== *)
(** * Routes to nodes that are not neighbours (pkg/routetab)

    A node finds a path to a target by flooding requests to a few neighbours;
    every node adds itself to the path of the request, remembers the path, and
    answers when it is the target or knows a path.  The answer travels back
    along the pending requests and grows a path in the same way.

    [Table] keeps the paths by the hash of their items and, for every node on a
    path, the routes (next hop and path) to it, both also in the state store.
    [pendCallResTab] keeps who waits for which target.  [Service] joins them
    with the topology, and every handler returns the new service and the
    messages it sends.

    The signatures of a path, the clock, the random choices and the exchange of
    underlay addresses are answers of other services: the [Env] of a call.  The
    hashes of go-ethereum and SHA-256 are the class [CommonHash].  [verifyPath]
    accepts every path, so it has no counterpart. *)

From Stdlib Require Import ZArith Lia ZifyBool.
From stdpp Require Import base gmap list numbers strings.
From S2P Require Import Prelude Boson PSlice KadMetrics Kademlia StateStore.

Open Scope Z_scope.

Definition routePrefix : bytes := str "route_index_".
Definition pathPrefix : bytes := str "route_pathKey_".

Definition MaxTTL : Z := 10.
Definition uTypeTarget : Z := 1.

(** ** Hashes

    [common.BytesToHash], [common.HexToHash], [Hash.String] and [sha256.Sum256].
    A hash prints with its prefix and reads back; the hexadecimal form of an
    address reads as the hash of its bytes. *)
Class CommonHash (Hash : Type) := {
  BytesToHash : bytes -> Hash;
  HexToHash : bytes -> Hash;
  Hash_String : Hash -> bytes;
  Sum256 : bytes -> Hash;
  HexToHash_String : forall h, HexToHash (Hash_String h) = h;
  HexToHash_address : forall a, bytes_ok a -> HexToHash (Boson.String a) = BytesToHash a;
}.

(** ** Paths *)

Record pbPath := { pSign : bytes; pBodys : list bytes; pItems : list Address }.

Record Path := {
  Sign : bytes;
  Bodys : list bytes;
  Items : list Address;
  CreateTime : Z;
  UsedTime : Z;
}.

(** What a call is answered by the rest of the node. *)
Record Env := {
  now : Z;                                   (* time.Now, in nanoseconds *)
  body : bytes;                              (* gconv.Bytes of the time *)
  bls_Sign : bytes -> list bytes -> bytes;   (* the signature over earlier ones *)
  draw : nat -> option Z;                    (* the random reader *)
  pick : list Address -> option Address;     (* rand.Intn on a list *)
  underlay : Address -> bool;                (* the target's underlay is known or found *)
}.

(** [time.Since(t).Milliseconds()] *)
Definition since_ms (e : Env) (t : Z) : Z := Z.quot (now e - t) 1000000.

Definition inPath (b : Address) (path : list Address) : bool := existsb (fun v => Equal v b) path.

Definition inPaths (b path : list Address) : bool :=
  existsb (fun v => existsb (fun v1 => Equal v v1) b) path.

Definition skipPeers (src skipPeers : list Address) : list Address :=
  List.filter (fun v => negb (MemberOf v skipPeers)) src.

(** The index of a path of least length; the earliest of equal ones. *)
Fixpoint shortest (best : Path) (l : list Path) : Path :=
  match l with
  | [] => best
  | v :: l => shortest (if zlen (Items v) <? zlen (Items best) then v else best) l
  end.

Definition convertPathsToPbPaths (e : Env) (self : Address) (path : list Path) : list pbPath :=
  match path with
  | [] => []
  | v :: l =>
      let best := shortest v l in
      [{| pSign := bls_Sign e (body e) [Sign best]; pBodys := Bodys best ++ [body e];
          pItems := Items best ++ [self] |}]
  end.

Definition generatePaths (e : Env) (self : Address) (paths : list pbPath) : list pbPath :=
  match paths with
  | [] => [{| pSign := bls_Sign e (body e) []; pBodys := [body e]; pItems := [self] |}]
  | _ => map (fun v => {| pSign := bls_Sign e (body e) [pSign v]; pBodys := pBodys v ++ [body e];
                          pItems := pItems v ++ [self] |}) paths
  end.

Section Table.
Context {Hash : Type} `{Countable Hash} `{CH : CommonHash Hash}.

Record TargetRoute := { Neighbor : Address; PathKey : Hash }.

Context {S V : Type} `{ST : StateStorer S V} `{CP : Codec Path V} `{CR : Codec (list TargetRoute) V}.

Record Table := {
  tself : Address;
  paths : gmap Hash Path;
  routes : gmap Hash (list TargetRoute);
  store : S;
}.

Definition newRouteTable (self : Address) (store : S) : Table :=
  {| tself := self; paths := ∅; routes := ∅; store := store |}.

Definition set_store (t : Table) (r : result storeError S) : Table :=
  match r with
  | Ok st => {| tself := tself t; paths := paths t; routes := routes t; store := st |}
  | Err _ => t
  end.

Definition set_paths (t : Table) (p : gmap Hash Path) : Table :=
  {| tself := tself t; paths := p; routes := routes t; store := store t |}.

Definition set_routes (t : Table) (r : gmap Hash (list TargetRoute)) : Table :=
  {| tself := tself t; paths := paths t; routes := r; store := store t |}.

Definition existRoute (route : TargetRoute) (l : list TargetRoute) : bool :=
  existsb (fun v => bool_decide (PathKey v = PathKey route) && Equal (Neighbor v) (Neighbor route)) l.

Definition getTargetKey (target : Address) : Hash := BytesToHash target.

Definition generatePathItems (items : list Address) : Hash := Sum256 (mjoin items).

(** All items but the last. *)
Definition IterateTarget {A} (items : list Address) (fn : A -> Address -> A) (x : A) : A :=
  foldl fn x (take (length items - 1) items).

Context (NeighborAlpha : Z).

(** The routes to a target when a new one is found. *)
Definition add_route (route : TargetRoute) (old : list TargetRoute) : list TargetRoute :=
  let alpha := Z.to_nat NeighborAlpha in
  route :: (if NeighborAlpha <? zlen old then take alpha old
            else if zlen old =? NeighborAlpha then take (alpha - 1) old
            else old).

Definition save_route (route : TargetRoute) (t : Table) (target : Address) : Table :=
  let targetKey := getTargetKey target in
  let put rs := set_store (set_routes t (<[targetKey := rs]> (routes t)))
                  (StateStore.Put (store t) (routePrefix ++ Boson.String target) rs) in
  match routes t !! targetKey with
  | Some ((_ :: _) as old) => if existRoute route old then t else put (add_route route old)
  | _ => put [route]
  end.

Definition SavePath (e : Env) (t : Table) (p : pbPath) : Table :=
  if zlen (pItems p) <? 2 then t
  else
    let items := pItems p in
    let pathKey := generatePathItems items in
    let path := {| Sign := pSign p; Bodys := pBodys p; Items := items;
                   CreateTime := now e; UsedTime := now e |} in
    let t := set_paths t (<[pathKey := path]> (paths t)) in
    let t := set_store t (StateStore.Put (store t) (pathPrefix ++ Hash_String pathKey) path) in
    let route := {| Neighbor := List.last items []; PathKey := pathKey |} in
    IterateTarget items (save_route route) t.

Definition SavePaths (e : Env) (t : Table) (l : list pbPath) : Table := foldl (SavePath e) t l.

(** [None] is [ErrNotFound]. *)
Definition Get (t : Table) (target : Address) : option (list Path) :=
  match routes t !! getTargetKey target with
  | None => None
  | Some l =>
      match omap (fun v => paths t !! PathKey v) l with
      | [] => None
      | l => Some l
      end
  end.

Definition updateUsedTime (e : Env) (t : Table) (target neighbor : Address) : Table :=
  match routes t !! getTargetKey target with
  | None => t
  | Some l =>
      foldl (fun t v =>
        if negb (Equal (Neighbor v) neighbor) then t
        else match paths t !! PathKey v with
             | Some p =>
                 if 0 <? now e - UsedTime p then
                   set_paths t (<[PathKey v := {| Sign := Sign p; Bodys := Bodys p; Items := Items p;
                                                  CreateTime := CreateTime p; UsedTime := now e |}]> (paths t))
                 else t
             | None => t
             end) t l
  end.

(** The next hops to a target; the source returns them in the order of a map. *)
Definition GetNextHop (t : Table) (target : Address) (skips : list Address) : gset Address :=
  match routes t !! getTargetKey target with
  | None => ∅
  | Some l => list_to_set (List.filter (fun a => negb (MemberOf a skips)) (map Neighbor l))
  end.

Definition delete_route (pathKey : Hash) (t : Table) (target : Address) : Table :=
  let targetKey := getTargetKey target in
  match routes t !! targetKey with
  | None => t
  | Some l =>
      let routesNow := List.filter (fun v => negb (bool_decide (PathKey v = pathKey))) l in
      if zlen routesNow <? zlen l then set_routes t (<[targetKey := routesNow]> (routes t)) else t
  end.

Definition Delete (t : Table) (path : Path) : Table :=
  let pathKey := generatePathItems (Items path) in
  let t := set_paths t (delete pathKey (paths t)) in
  let t := set_store t (sdelete (store t) (pathPrefix ++ Hash_String pathKey)) in
  IterateTarget (Items path) (delete_route pathKey) t.

(** The paths [Range] visits are those of the table when it starts. *)
Definition Gc (e : Env) (expire : Z) (t : Table) : Table :=
  foldl (fun t '(_, path) =>
    if Z.quot expire 1000000 <? since_ms e (UsedTime path) then Delete t path else t)
    t (map_to_list (paths t)).

(** [strings.TrimPrefix] *)
Definition TrimPrefix (s prefix : bytes) : bytes :=
  if decide (prefix `prefix_of` s) then drop (length prefix) s else s.

(** One key of [Iterate], with the value it had when the iteration began. *)
Definition resume_path (st : S) (t : Table) (key : bytes) : result storeError (Table * bool) :=
  match StateStore.Get (A := Path) st key with
  | Err errUnmarshal => Ok (set_store t (sdelete (store t) key), false)
  | Err e => Err e
  | Ok path =>
      Ok (if zlen (Items path) <=? MaxTTL
          then set_paths t (<[HexToHash (TrimPrefix key pathPrefix) := path]> (paths t)) else t, false)
  end.

Definition resume_route (st : S) (t : Table) (key : bytes) : result storeError (Table * bool) :=
  match StateStore.Get (A := list TargetRoute) st key with
  | Err errUnmarshal => Ok (set_store t (sdelete (store t) (routePrefix ++ TrimPrefix key routePrefix)), false)
  | Err e => Err e
  | Ok l => Ok (set_routes t (<[HexToHash (TrimPrefix key routePrefix) := l]> (routes t)), false)
  end.

(** An error ends the iteration and is dropped, with what was read kept. *)
Fixpoint resume (f : Table -> bytes -> result storeError (Table * bool)) (t : Table) (ks : list bytes) : Table :=
  match ks with
  | [] => t
  | k :: ks => match f t k with Ok (t, false) => resume f t ks | Ok (t, true) => t | Err _ => t end
  end.

Definition ResumePaths (t : Table) : Table := resume (resume_path (store t)) t (skeys (store t) pathPrefix).

Definition ResumeRoutes (t : Table) : Table := resume (resume_route (store t)) t (skeys (store t) routePrefix).

(** What [start] does before its goroutines. *)
Definition start (e : Env) (gcTime : Z) (t : Table) : Table := Gc e gcTime (ResumePaths (ResumeRoutes t)).
End Table.

Arguments TargetRoute Hash : clear implicits.
Arguments Table Hash {_ _} S.

(** ** Pending calls *)

Section Pending.
Context {Hash : Type} `{Countable Hash} `{CH : CommonHash Hash}.

(** [ResCh] is the number of a channel. *)
Record PendCallResItem := { Src : Address; PCreateTime : Z; ResCh : option nat }.

Record pendCallResTab := {
  respList : gmap Hash (list PendCallResItem);
  reqList : gmap bytes Z;
}.

Definition newPendCallResTab : pendCallResTab := {| respList := ∅; reqList := ∅ |}.

Definition getPendingReqKey (target next : Address) : bytes := Boson.String target ++ Boson.String next.

Definition pend_Delete (p : pendCallResTab) (target next : Address) : pendCallResTab :=
  {| respList := delete (getTargetKey target) (respList p);
     reqList := delete (getPendingReqKey target next) (reqList p) |}.

(** Whether a request is already under way. *)
Definition pend_Add (e : Env) (p : pendCallResTab) (target src next : Address) (resCh : option nat) :
    pendCallResTab * bool :=
  let pending := {| Src := src; PCreateTime := now e; ResCh := resCh |} in
  let key := getTargetKey target in
  let resp := <[key := default [] (respList p !! key) ++ [pending]]> (respList p) in
  let reqKey := getPendingReqKey target next in
  match reqList p !! reqKey with
  | Some _ => ({| respList := resp; reqList := reqList p |}, true)
  | None => ({| respList := resp; reqList := <[reqKey := now e]> (reqList p) |}, false)
  end.

Definition pend_Get (p : pendCallResTab) (target next : Address) :
    pendCallResTab * list PendCallResItem :=
  let key := getTargetKey target in
  match respList p !! key with
  | Some res => ({| respList := delete key (respList p);
                    reqList := delete (getPendingReqKey target next) (reqList p) |}, res)
  | None => (p, [])
  end.

Definition GcReqLog (e : Env) (expire : Z) (p : pendCallResTab) : pendCallResTab :=
  {| respList := respList p;
     reqList := filter (fun kv : bytes * Z => since_ms e kv.2 < Z.quot expire 1000000) (reqList p) |}.

(** The index of the first item that has not expired, or 0. *)
Fixpoint first_live (e : Env) (expire : Z) (k : nat) (item : list PendCallResItem) : nat :=
  match item with
  | [] => 0
  | v :: item =>
      if since_ms e (PCreateTime v) <? Z.quot expire 1000000 then k else first_live e expire (k + 1) item
  end.

(** What becomes of the items of one target; an empty list panics in the source. *)
Definition gc_items (e : Env) (expire : Z) (item : list PendCallResItem) : option (list PendCallResItem) :=
  match item with
  | [] => None
  | v :: _ =>
      if since_ms e (PCreateTime v) <? Z.quot expire 1000000 then Some item
      else let expireK := first_live e expire 0 item in
           if (expireK =? 0)%nat then None else Some (drop expireK item)
  end.

Definition GcResItems (e : Env) (expire : Z) (p : pendCallResTab) : pendCallResTab :=
  {| respList := omap (gc_items e expire) (respList p); reqList := reqList p |}.
End Pending.

Arguments pendCallResTab Hash {_ _}.

(** ** The service *)

Record RouteReq := { qDest : Address; qAlpha : Z; qPaths : list pbPath; qUType : Z }.

Record RouteResp := { rDest : Address; rPaths : list pbPath; rUType : Z }.

Inductive message := Req (r : RouteReq) | Resp (r : RouteResp).

Inductive routeError := errSelf | errNeighborNotFound | errTimeout | errNotFound | errNextHop.

Section Service.
Context {Hash : Type} `{Countable Hash} `{CH : CommonHash Hash}.
Context {S V : Type} `{ST : StateStorer S V} `{CP : Codec Path V} `{CR : Codec (list (TargetRoute Hash)) V}.
Context (NeighborAlpha : Z).

Record Service := {
  self : Address;
  kad : Kad;
  routeTable : Table Hash S;
  pendingCalls : pendCallResTab Hash;
}.

Definition set_table (s : Service) (t : Table Hash S) : Service :=
  {| self := self s; kad := kad s; routeTable := t; pendingCalls := pendingCalls s |}.

Definition set_pending (s : Service) (p : pendCallResTab Hash) : Service :=
  {| self := self s; kad := kad s; routeTable := routeTable s; pendingCalls := p |}.

Definition IsNeighbor (s : Service) (dest : Address) : bool :=
  (EachPeer (E := unit) (kad s) (fun has address _ => (has || Equal dest address, (false, false, None)))
     false false).1.

Definition getNeighbor (e : Env) (s : Service) (target : Address) (alpha : Z) (skip : list Address) :
    list Address :=
  let alpha := if alpha <=? 0 then NeighborAlpha else alpha in
  let po := Proximity (self s) target in
  let near :=
    if po <? NeighborhoodDepth (kad s) then skipPeers (BinPeers (connectedPeers (kad s)) po) skip
    else (EachNeighbor (E := unit) (kad s) (fun l address _ =>
            (if MemberOf address skip then l else l ++ [address], (false, false, None))) []).1 in
  match randomSubset (draw e) near alpha with Ok l => l | Err _ => [] end.

(** Messages with the node each is sent to. *)
Definition out := list (Address * message).

Fixpoint send_reqs (e : Env) (p : pendCallResTab Hash) (next : list Address) (src : Address) (req : RouteReq)
    (ch : option nat) : pendCallResTab Hash * out :=
  match next with
  | [] => (p, [])
  | v :: next =>
      let '(p, has) := pend_Add e p (qDest req) src v ch in
      let '(p, o) := send_reqs e p next src req ch in
      (p, if has : bool then o else (v, Req req) :: o)
  end.

Definition doRouteReq (e : Env) (s : Service) (next : list Address) (src target : Address)
    (req : option RouteReq) (ch : option nat) : Service * out :=
  let req := match req with
             | Some req => {| qDest := qDest req; qAlpha := qAlpha req;
                              qPaths := generatePaths e (self s) (qPaths req); qUType := qUType req |}
             | None => {| qDest := target; qAlpha := NeighborAlpha;
                          qPaths := generatePaths e (self s) []; qUType := uTypeTarget |}
             end in
  let '(p, o) := send_reqs e (pendingCalls s) next src req ch in
  (set_pending s p, o).

(** The answer to forward, or an answer of our own with paths of the table. *)
Definition doRouteResp (e : Env) (s : Service) (src target : Address) (resp : option RouteResp)
    (l : list Path) (uType : Z) : out :=
  let resp := match resp with
              | Some resp => {| rDest := rDest resp; rPaths := generatePaths e (self s) (rPaths resp);
                                rUType := rUType resp |}
              | None => {| rDest := target;
                           rPaths := match l with
                                     | [] => generatePaths e (self s) []
                                     | _ => convertPathsToPbPaths e (self s) l
                                     end;
                           rUType := uType |}
              end in
  [(src, Resp resp)].

Definition discards (s : Service) (v : pbPath) : bool :=
  (MaxTTL <? zlen (pItems v)) || inPath (self s) (pItems v).

Definition onRouteReq (e : Env) (s : Service) (p : Address) (req : RouteReq) : Service * out :=
  let target := qDest req in
  if existsb (discards s) (qPaths req) then (s, [])
  else
    let reqPath := List.last (map pItems (qPaths req)) [] in
    let s := set_table s (SavePaths NeighborAlpha e (routeTable s) (qPaths req)) in
    if Equal (self s) target then (s, doRouteResp e s p target None [] (qUType req))
    else if IsNeighbor s target then doRouteReq e s [target] p target (Some req) None
    else
      let nowPaths := List.filter (fun v =>
        (zlen (Items v) + zlen reqPath <=? MaxTTL) && negb (inPaths reqPath (Items v)))
        (default [] (Get (routeTable s) target)) in
      if negb (bool_decide (nowPaths = [])) && (negb (qUType req =? uTypeTarget) || underlay e target)
      then (s, doRouteResp e s p target None nowPaths (qUType req))
      else
        let skip := mjoin (map pItems (qPaths req)) in
        let forward := getNeighbor e s target (qAlpha req) skip in
        doRouteReq e s forward p target (Some req) None.

(** The answers to send on and the channels to wake. *)
Fixpoint forward_all (e : Env) (s : Service) (target last : Address) (resp : RouteResp)
    (skip : list Address) (res : list PendCallResItem) : out * list nat :=
  match res with
  | [] => ([], [])
  | v :: res =>
      if negb (Equal (Src v) (self s)) then
        if negb (MemberOf (Src v) skip) then
          (* [resp] is extended in place, so the next answer carries the longer path *)
          let resp' := {| rDest := rDest resp; rPaths := generatePaths e (self s) (rPaths resp);
                          rUType := rUType resp |} in
          let '(o, ch) := forward_all e s target last resp' (skip ++ [Src v]) res in
          ((Src v, Resp resp') :: o, ch)
        else forward_all e s target last resp skip res
      else
        let '(o, ch) := forward_all e s target last resp skip res in
        (o, match ResCh v with Some c => c :: ch | None => ch end)
  end.

Definition respForward (e : Env) (s : Service) (target last : Address) (resp : RouteResp) :
    Service * out * list nat :=
  let '(p, res) := pend_Get (pendingCalls s) target last in
  let s := set_pending s p in
  let '(o, ch) := forward_all e s target last resp [] res in
  (s, o, ch).

Definition onRouteResp (e : Env) (s : Service) (peer : Address) (resp : RouteResp) :
    Service * out * list nat :=
  let target := rDest resp in
  let l := List.filter (fun v => zlen (pItems v) <=? MaxTTL) (rPaths resp) in
  match l with
  | [] => (s, [], [])
  | _ =>
      if existsb (fun v => inPath (self s) (pItems v)) l then (s, [], [])
      else
        let s := set_table s (SavePaths NeighborAlpha e (routeTable s) l) in
        respForward e s target peer {| rDest := rDest resp; rPaths := l; rUType := rUType resp |}
  end.

(** [FindRoute] up to the point where it waits for the channel [ch]; the error
    ends the call. *)
Definition FindRoute_send (e : Env) (s : Service) (target : Address) (ch : nat) :
    Service * out * result routeError (list Address) :=
  if Equal (self s) target then (s, [], Err errSelf)
  else
    match getNeighbor e s target NeighborAlpha [target] with
    | [] => (s, [], Err errNeighborNotFound)
    | forward =>
        let '(s, o) := doRouteReq e s forward (self s) target None (Some ch) in
        (s, o, Ok forward)
    end.

(** [FindRoute] when it is woken, or when the time is over. *)
Definition FindRoute_done (s : Service) (target : Address) : result routeError (list Path) :=
  match Get (routeTable s) target with Some l => Ok l | None => Err errNotFound end.

Definition FindRoute_timeout (s : Service) (target : Address) (forward : list Address) : Service :=
  set_pending s (foldl (fun p v => pend_Delete p target v) (pendingCalls s) forward).

Definition DelRoute (s : Service) (target : Address) : Service * result routeError unit :=
  match Get (routeTable s) target with
  | None => (s, Err errNotFound)
  | Some l => (set_table s (foldl Delete (routeTable s) l), Ok tt)
  end.

(** The items next to the first occurrence of [target]. *)
Fixpoint beside (prev : option Address) (items : list Address) (target : Address) : gset Address :=
  match items with
  | [] => ∅
  | v :: items =>
      if Equal v target then
        match prev with Some p => {[p]} | None => ∅ end ∪
        match items with q :: _ => {[q]} | [] => ∅ end
      else beside (Some v) items target
  end.

Fixpoint getClosestNeighborLimit (s : Service) (target : Address) (l : list Path) (limit : Z)
    (has : gset Address) : gset Address :=
  match l with
  | [] => has
  | path :: l =>
      if negb (IsNeighbor s (List.last (Items path) [])) then getClosestNeighborLimit s target l limit has
      else
        let has := has ∪ beside None (Items path) target in
        if limit <=? Z.of_nat (size has) then has else getClosestNeighborLimit s target l limit has
  end.

Definition getNextHopEffective (s : Service) (target : Address) (skips : list Address) : gset Address :=
  filter (fun v => IsNeighbor s v = true) (GetNextHop (routeTable s) target skips).

(** [ZeroAddress] when there is no next hop. *)
Definition getNextHopRandom (e : Env) (s : Service) (target : Address) (skips : list Address) :
    Service * Address :=
  match pick e (elements (getNextHopEffective s target skips)) with
  | Some next => (set_table s (updateUsedTime e (routeTable s) target next), next)
  | None => (s, ZeroAddress)
  end.
End Service.

Arguments Service Hash {_ _} S.
