(* ===== verification/RoutetabNet.v ===== *)
(** * Networks of routing nodes

    Nodes exchange the requests and answers of [Routetab] over links.  A message
    may be lost, delayed and overtaken; nodes join with an empty table, restart
    from their state store, and their topology and clocks change freely.  A node
    handles one message or call at a time.

    [routes_sound]: every path a node keeps, and every next hop it gives out,
    comes from a walk over links from the target to the node.  [forward_repeats]:
    an answer that several peers wait for is extended once per peer, so that
    later peers get paths with repeated nodes; walks therefore may stay. *)

From Stdlib Require Import ZArith Lia ZifyBool.
From stdpp Require Import base gmap list numbers strings.
From S2P Require Import Prelude Boson PSlice KadMetrics Kademlia StateStore Routetab.

Open Scope Z_scope.

(** ** Walks *)

Section Walk.
Context (linked : Address -> Address -> Prop).

(** A walk from its first to its last node: it moves over a link to a node it
    has not visited, or stays. *)
Inductive walk : list Address -> Prop :=
| walk_one x : walk [x]
| walk_step l x y : walk (l ++ [x]) -> linked x y -> y ∉ l ++ [x] -> walk ((l ++ [x]) ++ [y])
| walk_stay l x : walk (l ++ [x]) -> walk ((l ++ [x]) ++ [x]).

(** Hops over links without a loop. *)
Definition hops (l : list Address) : Prop :=
  NoDup l /\ forall i x y, l !! i = Some x -> l !! S i = Some y -> linked x y.

Lemma hops_one x : hops [x].
Proof. split; [apply list.NoDup_singleton|]. by intros [|i] y z. Qed.

Lemma hops_snoc l x y : hops (l ++ [x]) -> linked x y -> y ∉ l ++ [x] -> hops ((l ++ [x]) ++ [y]).
Proof.
  intros [Hn Hl] Hxy Hy. split.
  - apply list.NoDup_app. split_and!; [done| |apply list.NoDup_singleton].
    intros z Hz ->%list_elem_of_singleton. done.
  - intros i a b Ha Hb. destruct (decide (S i < length (l ++ [x]))%nat) as [Hi|Hi].
    + rewrite lookup_app_l in Ha by lia. rewrite lookup_app_l in Hb by done. by eapply Hl.
    + pose proof (lookup_lt_Some _ _ _ Hb) as Hb'. rewrite !length_app in *. simpl in *.
      assert (i = length l) as -> by lia.
      rewrite lookup_app_l, lookup_app_r, Nat.sub_diag in Ha by (rewrite ?length_app; simpl; lia).
      rewrite lookup_app_r in Hb by (rewrite length_app; simpl; lia).
      rewrite length_app in Hb. simpl in Hb. replace (S (length l) - (length l + 1))%nat with 0%nat in Hb by lia.
      simpl in *. by simplify_eq.
Qed.

(** From every node of a walk there are hops to its end, not longer than the
    walk, through nodes of the walk. *)
Lemma walk_hops l t : walk l -> t ∈ l ->
  exists h, hops h /\ head h = Some t /\ last h = last l /\ (length h <= length l)%nat /\
    forall x, x ∈ h -> x ∈ l.
Proof.
  intros Hw. revert t. induction Hw as [x|l x y Hw IH Hxy Hy|l x Hw IH]; intros t Ht.
  - apply list_elem_of_singleton in Ht as ->. exists [x]. split_and!; try done. apply hops_one.
  - rewrite last_snoc. destruct (decide (t = y)) as [->|Hne].
    { exists [y]. split_and!; try done; [apply hops_one|rewrite length_app; simpl; lia|].
      intros z ->%list_elem_of_singleton. apply elem_of_app. right. by left. }
    assert (t ∈ l ++ [x]) as Ht'.
    { apply elem_of_app in Ht as [|Ht]; [done|]. by apply list_elem_of_singleton in Ht. }
    destruct (IH t Ht') as (h & Hh & Hd & Hla & Hlen & Hin). rewrite last_snoc in Hla.
    apply last_Some in Hla as [h' ->]. exists ((h' ++ [x]) ++ [y]). split_and!.
    + apply hops_snoc; [done|done|]. intros Hyh. by apply Hy, Hin.
    + by destruct h'.
    + apply last_snoc.
    + rewrite !length_app in *. simpl in *. lia.
    + intros z [Hz|Hz]%elem_of_app; apply elem_of_app; [left; by apply Hin|by right].
  - assert (t ∈ l ++ [x]) as Ht'.
    { apply elem_of_app in Ht as [|Ht]; [done|]. apply elem_of_app. by right. }
    destruct (IH t Ht') as (h & Hh & Hd & Hla & Hlen & Hin). exists h. rewrite last_snoc in *.
    split_and!; try done; [rewrite length_app; lia|]. intros z Hz. apply elem_of_app. left. by apply Hin.
Qed.

Lemma walk_nonempty l : walk l -> l <> [].
Proof. destruct 1; try done; by destruct l. Qed.
End Walk.

Lemma Forall_at {A} (P : A -> Prop) l a : Forall P l -> a ∈ l -> P a.
Proof. intros Hl [i Hi]%list_elem_of_lookup. by eapply Forall_lookup_1 in Hl. Qed.

Lemma Forall_of {A} (P : A -> Prop) l : (forall a, a ∈ l -> P a) -> Forall P l.
Proof.
  intros Hl. apply Forall_lookup. intros i a Hi. apply Hl. by eapply list_elem_of_lookup_2.
Qed.

Lemma Forall_filter_bool {A} (P : A -> Prop) f l : Forall P l -> Forall P (List.filter f l).
Proof. induction 1 as [|x l Hx _ IH]; simpl; [constructor|]. destruct (f x); [by constructor|done]. Qed.

Lemma prefix_disjoint k : pathPrefix `prefix_of` k -> routePrefix `prefix_of` k -> False.
Proof.
  intros [k1 ->] [k2 E]. apply (f_equal (fun l => l !! 6%nat)) in E. by vm_compute in E.
Qed.

Lemma TrimPrefix_app p k : TrimPrefix (p ++ k) p = k.
Proof.
  unfold TrimPrefix. rewrite decide_True by (by eexists). by rewrite drop_app_length.
Qed.

Section Node.
Context {Hash : Type} `{Countable Hash} `{CH : CommonHash Hash}.
Context {S V : Type} `{ST : StateStorer S V} `{CP : Codec Path V} `{CR : Codec (list (TargetRoute Hash)) V}.
Context (linked : Address -> Address -> Prop) (n : nat) (NeighborAlpha : Z).

(** The addresses of the network have [n] bytes. *)
Definition address_ok (a : Address) : Prop := length a = n /\ bytes_ok a.

(** Items that lead from their first node to the node [v] that keeps them. *)
Record items_ok (v : Address) (items : list Address) : Prop := {
  it_walk : walk linked (items ++ [v]);
  it_new : v ∉ items;
  it_length : 2 <= zlen items <= MaxTTL;
  it_address : Forall address_ok items;
}.

(** The route of a target comes from items that contain the target. *)
Definition route_ok (v : Address) (key : Hash) (r : TargetRoute Hash) : Prop :=
  exists items target, items_ok v items /\ PathKey r = generatePathItems items /\
    last items = Some (Neighbor r) /\ target ∈ items /\ key = getTargetKey target.

Record store_ok (v : Address) (st : S) : Prop := {
  st_paths : forall k p, pathPrefix `prefix_of` k -> StateStore.Get st k = Ok p ->
    items_ok v (Items p) /\ HexToHash (TrimPrefix k pathPrefix) = generatePathItems (Items p);
  st_routes : forall k l, routePrefix `prefix_of` k -> StateStore.Get st k = Ok l ->
    Forall (route_ok v (HexToHash (TrimPrefix k routePrefix))) l;
}.

Record table_ok (v : Address) (t : Table Hash S) : Prop := {
  ta_paths : forall h p, paths t !! h = Some p ->
    items_ok v (Items p) /\ h = generatePathItems (Items p);
  ta_routes : forall key l, routes t !! key = Some l -> Forall (route_ok v key) l;
  ta_store : store_ok v (store t);
}.

(** ** The store *)

Lemma store_ok_put_path v st k p st' : store_ok v st -> StateStore.Put st k p = Ok st' ->
  pathPrefix `prefix_of` k -> items_ok v (Items p) ->
  HexToHash (TrimPrefix k pathPrefix) = generatePathItems (Items p) -> store_ok v st'.
Proof.
  intros [Hp Hr] HP Hk Hi Hh. split.
  - intros k' p' Hk' Hg. destruct (decide (k' = k)) as [->|Hne].
    + rewrite (Get_Put _ _ _ _ HP) in Hg. by injection Hg as <-.
    + rewrite (Get_Put_ne _ _ _ _ _ HP Hne) in Hg. by apply Hp.
  - intros k' l Hk' Hg. destruct (decide (k' = k)) as [->|Hne]; [by destruct (prefix_disjoint k)|].
    rewrite (Get_Put_ne _ _ _ _ _ HP Hne) in Hg. by apply Hr.
Qed.

Lemma store_ok_put_routes v st k l st' : store_ok v st -> StateStore.Put st k l = Ok st' ->
  routePrefix `prefix_of` k -> Forall (route_ok v (HexToHash (TrimPrefix k routePrefix))) l ->
  store_ok v st'.
Proof.
  intros [Hp Hr] HP Hk Hl. split.
  - intros k' p Hk' Hg. destruct (decide (k' = k)) as [->|Hne]; [by destruct (prefix_disjoint k)|].
    rewrite (Get_Put_ne _ _ _ _ _ HP Hne) in Hg. by apply Hp.
  - intros k' l' Hk' Hg. destruct (decide (k' = k)) as [->|Hne].
    + rewrite (Get_Put _ _ _ _ HP) in Hg. by injection Hg as <-.
    + rewrite (Get_Put_ne _ _ _ _ _ HP Hne) in Hg. by apply Hr.
Qed.

Lemma store_ok_delete v st k st' : store_ok v st -> sdelete st k = Ok st' -> store_ok v st'.
Proof.
  intros [Hp Hr] HD.
  assert (HG : forall A (C : Codec A V) k' (a : A), StateStore.Get st' k' = Ok a -> StateStore.Get st k' = Ok a).
  { intros A C k' a. unfold StateStore.Get. rewrite (sget_delete _ _ _ k' HD). by case_decide. }
  split; intros k' x Hk' Hg; eauto.
Qed.

(** ** The table *)

Lemma table_ok_store v t r : table_ok v t -> (forall st, r = Ok st -> store_ok v st) ->
  table_ok v (set_store t r).
Proof.
  intros [Hp Hr Hs] Hst. destruct r as [st|e]; [|done]. split; simpl; try done. by apply Hst.
Qed.

Lemma table_ok_paths v t h p : table_ok v t -> items_ok v (Items p) -> h = generatePathItems (Items p) ->
  table_ok v (set_paths t (<[h := p]> (paths t))).
Proof.
  intros [Hp Hr Hs] Hi Hh. split; simpl; try done.
  intros h' p' [[<- <-]|[_ Hl]]%lookup_insert_Some; [done|by apply Hp].
Qed.

Lemma table_ok_routes v t key l : table_ok v t -> Forall (route_ok v key) l ->
  table_ok v (set_routes t (<[key := l]> (routes t))).
Proof.
  intros [Hp Hr Hs] Hl. split; simpl; try done.
  intros k' l' [[<- <-]|[_ Hk]]%lookup_insert_Some; [done|by apply Hr].
Qed.

Lemma add_route_ok v key r old : route_ok v key r -> Forall (route_ok v key) old ->
  Forall (route_ok v key) (add_route NeighborAlpha r old).
Proof.
  intros Hr Ho. constructor; [done|]. destruct (_ <? _); [by apply Forall_take|].
  destruct (_ =? _); [by apply Forall_take|done].
Qed.

Lemma save_route_ok v r t target : table_ok v t -> route_ok v (getTargetKey target) r ->
  address_ok target -> table_ok v (save_route NeighborAlpha r t target).
Proof.
  intros Ht Hr [_ Hb]. unfold save_route.
  assert (Hput : forall rs, Forall (route_ok v (getTargetKey target)) rs ->
    table_ok v (set_store (set_routes t (<[getTargetKey target := rs]> (routes t)))
      (StateStore.Put (store t) (routePrefix ++ Boson.String target) rs))).
  { intros rs Hrs. apply table_ok_store; [by apply table_ok_routes|]. intros st HP.
    eapply store_ok_put_routes; [apply Ht|exact HP|by eexists|].
    rewrite TrimPrefix_app, HexToHash_address by done. done. }
  destruct (routes t !! getTargetKey target) as [[|x old]|] eqn:E; try (apply Hput; by constructor).
  destruct (existRoute r (x :: old)); [done|]. apply Hput, add_route_ok; [done|]. by eapply ta_routes.
Qed.

Lemma IterateTarget_ok {A} (P : A -> Prop) items fn x :
  (forall a y, a ∈ items -> P y -> P (fn y a)) -> P x -> P (IterateTarget items fn x).
Proof.
  unfold IterateTarget. intros Hf. assert (Hsub : forall a, a ∈ take (length items - 1) items -> a ∈ items).
  { intros a Ha. rewrite <- (take_drop (length items - 1) items). apply elem_of_app. by left. }
  revert x Hsub. induction (take (length items - 1) items) as [|a l IH]; intros x Hsub Hx; [done|].
  simpl. apply IH; [intros b Hb; apply Hsub; by right|]. apply Hf; [apply Hsub; by left|done].
Qed.

Lemma last_List_last (l : list Address) : l <> [] -> last l = Some (List.last l []).
Proof. induction l as [|x [|y l] IH]; [done|done|]. intros _. cbn. by apply IH. Qed.

Lemma SavePath_ok e v t p : table_ok v t ->
  walk linked (pItems p ++ [v]) -> v ∉ pItems p -> zlen (pItems p) <= MaxTTL -> Forall address_ok (pItems p) ->
  table_ok v (SavePath NeighborAlpha e t p).
Proof.
  intros Ht Hw Hv Hl Ha. unfold SavePath. destruct (Z.ltb_spec (zlen (pItems p)) 2); [done|].
  assert (Hi : items_ok v (pItems p)) by (split; [done|done|lia|done]).
  assert (Hne : pItems p <> []) by (intros E; rewrite E in *; simpl in *; lia).
  apply IterateTarget_ok.
  - intros a t' Hin Ht'. apply save_route_ok; [done| |by eapply Forall_at].
    exists (pItems p), a. split_and!; try done. simpl. by apply last_List_last.
  - apply table_ok_store; [by apply table_ok_paths|]. intros st HP.
    eapply store_ok_put_path; [apply Ht|exact HP|by eexists|done|].
    by rewrite TrimPrefix_app, HexToHash_String.
Qed.

Lemma SavePaths_ok e v t l : table_ok v t ->
  (forall p, p ∈ l -> walk linked (pItems p ++ [v]) /\ ~ v ∈ pItems p /\ zlen (pItems p) <= MaxTTL /\
     Forall address_ok (pItems p)) ->
  table_ok v (SavePaths NeighborAlpha e t l).
Proof.
  unfold SavePaths. revert t. induction l as [|p l IH]; intros t Ht Hl; [done|]. simpl.
  apply IH; [|intros q Hq; apply Hl; by right].
  destruct (Hl p) as (? & ? & ? & ?); [by left|]. by apply SavePath_ok.
Qed.

Lemma delete_route_ok v h t target : table_ok v t -> table_ok v (delete_route h t target).
Proof.
  intros Ht. unfold delete_route. destruct (routes t !! getTargetKey target) as [l|] eqn:E; [|done].
  destruct (_ <? _); [|done]. apply table_ok_routes; [done|].
  apply Forall_filter_bool. by eapply ta_routes.
Qed.

Lemma Delete_ok v t p : table_ok v t -> table_ok v (Delete t p).
Proof.
  intros Ht. unfold Delete. apply IterateTarget_ok; [intros; by apply delete_route_ok|].
  apply table_ok_store.
  - destruct Ht as [Hp Hr Hs]. split; simpl; try done.
    intros h q [_ Hq]%lookup_delete_Some. by apply Hp.
  - intros st Hd. eapply store_ok_delete; [apply Ht|exact Hd].
Qed.

Lemma foldl_ok {A B} (P : A -> Prop) (f : A -> B -> A) x l :
  (forall y b, P y -> P (f y b)) -> P x -> P (foldl f x l).
Proof. intros Hf. revert x. induction l as [|b l IH]; intros x Hx; [done|]. simpl. by apply IH, Hf. Qed.

Lemma Gc_ok e expire v t : table_ok v t -> table_ok v (Gc e expire t).
Proof.
  intros Ht. unfold Gc. apply foldl_ok; [|done]. intros y [h p] Hy.
  destruct (_ <? _); [by apply Delete_ok|done].
Qed.

Lemma updateUsedTime_ok e v t target neighbor : table_ok v t -> table_ok v (updateUsedTime e t target neighbor).
Proof.
  intros Ht. unfold updateUsedTime. destruct (routes t !! _) as [l|]; [|done].
  apply foldl_ok; [|done]. intros t' r Ht'. destruct (negb _); [done|].
  destruct (paths t' !! PathKey r) as [p|] eqn:E; [|done]. destruct (_ <? _); [|done].
  destruct (ta_paths _ _ Ht' _ _ E). by apply table_ok_paths.
Qed.

Lemma resume_ok v f t ks : (forall t k t' b, k ∈ ks -> table_ok v t -> f t k = Ok (t', b) -> table_ok v t') ->
  table_ok v t -> table_ok v (resume f t ks).
Proof.
  intros Hf. revert t. induction ks as [|k ks IH]; intros t Ht; simpl; [done|].
  destruct (f t k) as [[t' []]|] eqn:E; try done; pose proof (Hf t k t' _ ltac:(by left) Ht E); [done|].
  apply IH; [|done]. intros t2 k2 t2' b2 Hk. apply Hf. by right.
Qed.

Lemma ResumePaths_ok v t : table_ok v t -> table_ok v (ResumePaths t).
Proof.
  intros Ht. apply resume_ok; [|done]. intros t1 k t1' b Hk Ht1 Hr.
  apply skeys_spec in Hk as [Hk _]. unfold resume_path in Hr.
  destruct (StateStore.Get (store t) k) as [p|[]] eqn:E; simplify_eq.
  - destruct (_ <=? _); [|done]. destruct (st_paths _ _ (ta_store _ _ Ht) k p Hk E).
    by apply table_ok_paths.
  - apply table_ok_store; [done|]. intros st Hd. eapply store_ok_delete; [apply Ht1|exact Hd].
Qed.

Lemma ResumeRoutes_ok v t : table_ok v t -> table_ok v (ResumeRoutes t).
Proof.
  intros Ht. apply resume_ok; [|done]. intros t1 k t1' b Hk Ht1 Hr.
  apply skeys_spec in Hk as [Hk _]. unfold resume_route in Hr.
  destruct (StateStore.Get (store t) k) as [l|[]] eqn:E; simplify_eq.
  - apply table_ok_routes; [done|]. by apply (st_routes _ _ (ta_store _ _ Ht)).
  - apply table_ok_store; [done|]. intros st Hd. eapply store_ok_delete; [apply Ht1|exact Hd].
Qed.

Lemma start_ok e gcTime v st : store_ok v st -> table_ok v (start e gcTime (newRouteTable v st)).
Proof.
  intros Hs. apply Gc_ok, ResumePaths_ok, ResumeRoutes_ok.
  split; simpl; [|intros key l; by rewrite lookup_empty|done]. intros h p. by rewrite lookup_empty.
Qed.

(** ** Handlers *)

(** A path to send on: what the node [v] makes of it leads to [v]. *)
Definition path_to (v : Address) (p : pbPath) : Prop :=
  walk linked (pItems p ++ [v]) /\ Forall address_ok (pItems p).

(** A path that the node [u] sends. *)
Definition path_from (u : Address) (p : pbPath) : Prop :=
  walk linked (pItems p) /\ last (pItems p) = Some u /\ Forall address_ok (pItems p).

Definition msg_paths (m : message) : list pbPath :=
  match m with Req r => qPaths r | Resp r => rPaths r end.

Definition msg_ok (u : Address) (m : message) : Prop := Forall (path_from u) (msg_paths m).

Record service_ok (v : Address) (s : Service Hash S) : Prop := {
  se_self : self s = v;
  se_address : address_ok v;
  se_table : table_ok v (routeTable s);
}.

Lemma path_from_self v p sg bs : address_ok v -> path_to v p ->
  path_from v {| pSign := sg; pBodys := bs; pItems := pItems p ++ [v] |}.
Proof.
  intros Hv [Hw Ha]. split_and!; simpl; [done|apply last_snoc|].
  apply Forall_app_2; [done|by apply Forall_singleton].
Qed.

Lemma generatePaths_ok e v l : address_ok v -> Forall (path_to v) l ->
  Forall (path_from v) (generatePaths e v l).
Proof.
  intros Hv Hl. unfold generatePaths. destruct l as [|p l].
  - apply Forall_singleton. split_and!; simpl; [apply walk_one|done|by apply Forall_singleton].
  - apply Forall_map. eapply Forall_impl; [exact Hl|]. intros q Hq. by apply path_from_self.
Qed.

(** Extending a path once more only makes it stay. *)
Lemma generatePaths_stay e v l : address_ok v -> Forall (path_to v) l ->
  Forall (path_to v) (generatePaths e v l).
Proof.
  intros Hv Hl. unfold generatePaths. destruct l as [|p l].
  - apply Forall_singleton. split; simpl; [apply (walk_stay _ [] v), walk_one|by apply Forall_singleton].
  - apply Forall_map. eapply Forall_impl; [exact Hl|]. intros q [Hw Ha].
    split; simpl; [by apply walk_stay|]. apply Forall_app_2; [done|by apply Forall_singleton].
Qed.

Lemma inPath_false v items : inPath v items = false -> v ∉ items.
Proof.
  unfold inPath. intros Hn Hin. rewrite <- not_true_iff_false, existsb_exists in Hn.
  apply Hn. exists v. split; [by apply list_elem_of_In|by apply Equal_spec].
Qed.

Lemma path_arrives u v p : path_from u p -> linked u v -> v ∉ pItems p -> path_to v p.
Proof.
  intros (Hw & Hl & Ha) Huv Hn. split; [|done]. apply last_Some in Hl as [l Hl]. rewrite Hl in *.
  by apply walk_step.
Qed.

Lemma shortest_in v l : shortest v l ∈ v :: l.
Proof.
  revert v. induction l as [|x l IH]; intros v; [by left|]. cbn [shortest].
  specialize (IH (if zlen (Items x) <? zlen (Items v) then x else v)).
  apply elem_of_cons in IH as [-> | Hin]; [|by do 2 right].
  destruct (_ <? _); [right; by left|by left].
Qed.

Lemma Get_ok v t target l : table_ok v t -> Get t target = Some l ->
  Forall (fun p => items_ok v (Items p)) l.
Proof.
  intros Ht. unfold Get. destruct (routes t !! _) as [rs|]; [|done]. intros Hl.
  assert (Ho : Forall (fun p => items_ok v (Items p)) (omap (fun r => paths t !! PathKey r) rs)).
  { apply Forall_of. intros p (r & _ & Hr)%list_elem_of_omap. by eapply ta_paths. }
  by destruct (omap _ rs); simplify_eq.
Qed.

Definition out_ok (v : Address) (o : out) : Prop := Forall (fun x => msg_ok v x.2) o.

Lemma service_ok_pending v s p : service_ok v s -> service_ok v (set_pending s p).
Proof. by intros []. Qed.

Lemma service_ok_table v s t : service_ok v s -> table_ok v t -> service_ok v (set_table s t).
Proof. by intros []. Qed.

Lemma send_reqs_ok e v p next src req ch : msg_ok v (Req req) ->
  out_ok v (send_reqs e p next src req ch).2.
Proof.
  intros Hm. revert p. induction next as [|w next IH]; intros p; simpl; [constructor|].
  destruct (pend_Add e p (qDest req) src w ch) as [p1 has]. specialize (IH p1).
  destruct (send_reqs e p1 next src req ch) as [p2 o]. destruct has; [done|by constructor].
Qed.

Lemma doRouteReq_ok e v s next src target req ch : service_ok v s ->
  match req with Some r => Forall (path_to v) (qPaths r) | None => True end ->
  service_ok v (doRouteReq NeighborAlpha e s next src target req ch).1 /\
  out_ok v (doRouteReq NeighborAlpha e s next src target req ch).2.
Proof.
  intros Hs Hr. unfold doRouteReq.
  match goal with |- context [send_reqs e ?p next src ?r ch] =>
    assert (Ho : out_ok v (send_reqs e p next src r ch).2); [|destruct (send_reqs e p next src r ch)] end.
  - apply send_reqs_ok. unfold msg_ok. rewrite (se_self _ _ Hs). pose proof (se_address _ _ Hs).
    destruct req as [r|]; cbn [msg_paths qPaths]; apply generatePaths_ok; (done || constructor).
  - split; [by apply service_ok_pending|done].
Qed.

Lemma doRouteResp_ok e v s src target l uType : service_ok v s ->
  Forall (fun p => items_ok v (Items p)) l ->
  out_ok v (doRouteResp e s src target None l uType).
Proof.
  intros Hs Hl. pose proof (se_address _ _ Hs). apply Forall_singleton. unfold msg_ok.
  cbn [snd msg_paths rPaths]. rewrite (se_self _ _ Hs).
  destruct l as [|p l]; [apply generatePaths_ok; [done|constructor]|].
  apply Forall_singleton. pose proof (Forall_at _ _ _ Hl (shortest_in p l)) as [Hw _ _ Ha].
  set (best := shortest p l) in *.
  apply (path_from_self v {| pSign := []; pBodys := []; pItems := Items best |}); [done|by split].
Qed.

Lemma onRouteReq_ok e v s u r : service_ok v s -> linked u v -> msg_ok u (Req r) ->
  service_ok v (onRouteReq NeighborAlpha e s u r).1 /\ out_ok v (onRouteReq NeighborAlpha e s u r).2.
Proof.
  intros Hs Huv Hm. unfold onRouteReq.
  destruct (existsb (discards s) (qPaths r)) eqn:Hd; [split; [done|constructor]|].
  assert (Hin : forall p, p ∈ qPaths r -> path_to v p /\ ~ v ∈ pItems p /\ zlen (pItems p) <= MaxTTL).
  { intros p Hp. pose proof (Forall_at _ _ _ Hm Hp) as Hf.
    assert (Hdp : discards s p = false).
    { rewrite <- not_true_iff_false, existsb_exists in Hd. apply not_true_iff_false. intros E.
      apply Hd. exists p. split; [by apply list_elem_of_In|done]. }
    unfold discards in Hdp. apply orb_false_iff in Hdp as [H1 H2]. rewrite (se_self _ _ Hs) in H2.
    apply inPath_false in H2. split_and!; [by eapply path_arrives|done|lia]. }
  assert (Hs' : service_ok v (set_table s (SavePaths NeighborAlpha e (routeTable s) (qPaths r)))).
  { apply service_ok_table; [done|]. apply SavePaths_ok; [apply Hs|].
    intros p Hp. destruct (Hin p Hp) as ([? ?] & ? & ?). done. }
  set (s' := set_table s _) in *.
  assert (Hto : Forall (path_to v) (qPaths r)) by (apply Forall_of; intros p Hp; by apply Hin).
  destruct (Equal (self s') (qDest r)); [split; [done|apply doRouteResp_ok; [done|constructor]]|].
  destruct (IsNeighbor s' (qDest r)); [by apply doRouteReq_ok|].
  destruct (negb _ && _); [|by apply doRouteReq_ok].
  split; [done|]. apply doRouteResp_ok; [done|]. apply Forall_filter_bool.
  destruct (Get (routeTable s') (qDest r)) as [l|] eqn:Hg; simpl; [|constructor].
  eapply Get_ok; [apply Hs'|exact Hg].
Qed.

Lemma forward_all_ok e v s target last resp skip res : service_ok v s ->
  Forall (path_to v) (rPaths resp) -> out_ok v (forward_all e s target last resp skip res).1.
Proof.
  intros Hs. pose proof (se_address _ _ Hs) as Hv. pose proof (se_self _ _ Hs) as Hself.
  revert resp skip. induction res as [|x res IH]; intros resp skip Hp; simpl; [constructor|].
  destruct (negb (Equal (Src x) (self s))); [destruct (negb (MemberOf (Src x) skip)); [|by apply IH]|].
  - match goal with |- context [forward_all e s target last ?r ?k res] =>
      specialize (IH r k); destruct (forward_all e s target last r k res) as [o ch] end.
    rewrite Hself in *. simpl in *. constructor; [by apply generatePaths_ok|].
    apply IH. by apply generatePaths_stay.
  - specialize (IH resp skip Hp). by destruct (forward_all e s target last resp skip res) as [o ch].
Qed.

Lemma onRouteResp_ok e v s u r : service_ok v s -> linked u v -> msg_ok u (Resp r) ->
  service_ok v (onRouteResp NeighborAlpha e s u r).1.1 /\ out_ok v (onRouteResp NeighborAlpha e s u r).1.2.
Proof.
  intros Hs Huv Hm. unfold onRouteResp.
  set (l := List.filter (fun v => zlen (pItems v) <=? MaxTTL) (rPaths r)).
  assert (Hl : forall p, p ∈ l -> path_from u p /\ zlen (pItems p) <= MaxTTL).
  { intros p [Hp Hz]%list_elem_of_In%List.filter_In. apply list_elem_of_In in Hp.
    split; [by eapply Forall_at in Hm|lia]. }
  destruct l as [|p0 l'] eqn:El; [split; [done|constructor]|]. rewrite <- El in *. clear El.
  destruct (existsb (fun v => inPath (self s) (pItems v)) l) eqn:Hd; [split; [done|constructor]|].
  assert (Hnew : forall p, p ∈ l -> v ∉ pItems p).
  { intros p Hp. apply inPath_false. rewrite <- not_true_iff_false, existsb_exists in Hd.
    apply not_true_iff_false. intros E. apply Hd. exists p. rewrite (se_self _ _ Hs).
    split; [by apply list_elem_of_In|done]. }
  assert (Hin : Forall (path_to v) l).
  { apply Forall_of. intros p Hp. eapply path_arrives; [by apply Hl|done|by apply Hnew]. }
  unfold respForward. destruct (pend_Get _ _ _) as [pd res].
  set (s' := set_pending _ pd).
  assert (Hs' : service_ok v s').
  { apply service_ok_pending, service_ok_table; [done|]. apply SavePaths_ok; [apply Hs|].
    intros p Hp. destruct (Forall_at _ _ _ Hin Hp). destruct (Hl p Hp). split_and!; auto. }
  pose proof (forward_all_ok e v s' (rDest r) u {| rDest := rDest r; rPaths := l; rUType := rUType r |}
    [] res Hs' Hin) as Ho.
  by destruct (forward_all _ _ _ _ _ _ _) as [o ch].
Qed.

Lemma FindRoute_send_ok e v s target ch : service_ok v s ->
  service_ok v (FindRoute_send NeighborAlpha e s target ch).1.1 /\
  out_ok v (FindRoute_send NeighborAlpha e s target ch).1.2.
Proof.
  intros Hs. unfold FindRoute_send. destruct (Equal (self s) target); [split; [done|constructor]|].
  destruct (getNeighbor _ _ _ _ _ _) as [|w next]; [split; [done|constructor]|].
  pose proof (doRouteReq_ok e v s (w :: next) (self s) target None (Some ch) Hs I) as Hd.
  by destruct (doRouteReq _ _ _ _ _ _ _ _) as [s' o].
Qed.

Lemma DelRoute_ok v s target : service_ok v s -> service_ok v (DelRoute s target).1.
Proof.
  intros Hs. unfold DelRoute. destruct (Get _ _) as [l|]; [|done]. apply service_ok_table; [done|].
  apply foldl_ok; [intros; by apply Delete_ok|apply Hs].
Qed.

Lemma getNextHopRandom_ok e v s target skips : service_ok v s ->
  service_ok v (getNextHopRandom e s target skips).1.
Proof.
  intros Hs. unfold getNextHopRandom. destruct (pick _ _); [|done].
  apply service_ok_table; [done|]. apply updateUsedTime_ok, Hs.
Qed.

(** ** The network *)

(** What a node does by itself, with the messages it sends. *)
Inductive local (e : Env) (s : Service Hash S) : Service Hash S -> out -> Prop :=
| local_find target ch :
    local e s (FindRoute_send NeighborAlpha e s target ch).1.1 (FindRoute_send NeighborAlpha e s target ch).1.2
| local_timeout target forward : local e s (FindRoute_timeout s target forward) []
| local_delete target : local e s (DelRoute s target).1 []
| local_next target skips : local e s (getNextHopRandom e s target skips).1 []
| local_gc expire : local e s (set_table s (Gc e expire (routeTable s))) []
| local_gc_pending expire :
    local e s (set_pending s (GcResItems e expire (GcReqLog e expire (pendingCalls s)))) []
| local_topology k :
    local e s {| self := self s; kad := k; routeTable := routeTable s; pendingCalls := pendingCalls s |} []
| local_restart gcTime :
    local e s {| self := self s; kad := kad s;
                 routeTable := start e gcTime (newRouteTable (self s) (store (routeTable s)));
                 pendingCalls := newPendCallResTab |} [].

Record Net := {
  nodes : gmap Address (Service Hash S);
  flight : list (Address * Address * message);
}.

(** Of the messages a node sends, those that find a link. *)
Definition transmits (v : Address) (o : out) (sent : list (Address * Address * message)) : Prop :=
  Forall (fun '(u, w, m) => u = v /\ (w, m) ∈ o /\ linked v w) sent.

Inductive nstep : Net -> Net -> Prop :=
| n_req net e u v r s l1 l2 sent :
    flight net = l1 ++ (u, v, Req r) :: l2 -> nodes net !! v = Some s ->
    transmits v (onRouteReq NeighborAlpha e s u r).2 sent ->
    nstep net {| nodes := <[v := (onRouteReq NeighborAlpha e s u r).1]> (nodes net);
                 flight := l1 ++ l2 ++ sent |}
| n_resp net e u v r s l1 l2 sent :
    flight net = l1 ++ (u, v, Resp r) :: l2 -> nodes net !! v = Some s ->
    transmits v (onRouteResp NeighborAlpha e s u r).1.2 sent ->
    nstep net {| nodes := <[v := (onRouteResp NeighborAlpha e s u r).1.1]> (nodes net);
                 flight := l1 ++ l2 ++ sent |}
| n_lose net x l1 l2 :
    flight net = l1 ++ x :: l2 -> nstep net {| nodes := nodes net; flight := l1 ++ l2 |}
| n_local net e v s s' o sent :
    nodes net !! v = Some s -> local e s s' o -> transmits v o sent ->
    nstep net {| nodes := <[v := s']> (nodes net); flight := flight net ++ sent |}
| n_join net e gcTime v k st :
    nodes net !! v = None -> address_ok v ->
    skeys st pathPrefix = [] -> skeys st routePrefix = [] ->
    nstep net {| nodes := <[v := {| self := v; kad := k;
                                     routeTable := start e gcTime (newRouteTable v st);
                                     pendingCalls := newPendCallResTab |}]> (nodes net);
                 flight := flight net |}.

Record net_ok (net : Net) : Prop := {
  ne_nodes : forall v s, nodes net !! v = Some s -> service_ok v s;
  ne_flight : Forall (fun '(u, v, m) => linked u v /\ msg_ok u m) (flight net);
}.

Lemma local_ok e v s s' o : service_ok v s -> local e s s' o -> service_ok v s' /\ out_ok v o.
Proof.
  intros Hs Hl. destruct Hl; try (split; [|constructor]).
  - by apply FindRoute_send_ok.
  - by apply service_ok_pending.
  - by apply DelRoute_ok.
  - by apply getNextHopRandom_ok.
  - apply service_ok_table; [done|]. apply Gc_ok, Hs.
  - by apply service_ok_pending.
  - by destruct Hs.
  - destruct Hs as [Hse Ha Ht]. split; simpl; [done|done|]. rewrite Hse. apply start_ok, Ht.
Qed.

Lemma transmits_ok v o sent : out_ok v o -> transmits v o sent ->
  Forall (fun '(u, v, m) => linked u v /\ msg_ok u m) sent.
Proof.
  intros Ho Ht. eapply Forall_impl; [exact Ht|]. intros [[u w] m] (-> & Hin & Hl).
  split; [done|]. exact (Forall_at _ _ _ Ho Hin).
Qed.

Lemma nodes_ok_insert (m : gmap Address (Service Hash S)) v s :
  (forall v s, m !! v = Some s -> service_ok v s) -> service_ok v s ->
  forall v' s', <[v := s]> m !! v' = Some s' -> service_ok v' s'.
Proof. intros Hm Hs v' s' [[<- <-]|[_ Hv]]%lookup_insert_Some; [done|by apply Hm]. Qed.

Lemma empty_store_ok v st : skeys st pathPrefix = [] -> skeys st routePrefix = [] -> store_ok v st.
Proof.
  intros Hp Hr.
  assert (Hno : forall A (C : Codec A V) k pre (a : A), pre `prefix_of` k -> skeys st pre = [] ->
    StateStore.Get st k = Ok a -> False).
  { intros A C k pre a Hk Hs Hg. assert (k ∈ skeys st pre) as Hin; [|rewrite Hs in Hin; inversion Hin].
    apply skeys_spec. split; [done|]. unfold StateStore.Get in Hg. intros E. by rewrite E in Hg. }
  split; intros k x Hk Hg; exfalso.
  - exact (Hno _ _ k _ x Hk Hp Hg).
  - exact (Hno _ _ k _ x Hk Hr Hg).
Qed.

Lemma nstep_ok net net' : net_ok net -> nstep net net' -> net_ok net'.
Proof.
  intros [Hn Hf] Hs. destruct Hs as [net e u v r s l1 l2 sent Hfl Hv Ht|net e u v r s l1 l2 sent Hfl Hv Ht
    |net x l1 l2 Hfl|net e v s s' o sent Hv Hl Ht|net e gcTime v k st Hv Ha Hp Hr].
  - rewrite Hfl in Hf. apply Forall_app in Hf as [Hf1 [Hm Hf2]%Forall_cons]. destruct Hm as [Huv Hm].
    destruct (onRouteReq_ok e v s u r (Hn _ _ Hv) Huv Hm) as [Hs' Ho].
    split; simpl; [by apply nodes_ok_insert|]. repeat apply Forall_app_2; try done. by eapply transmits_ok.
  - rewrite Hfl in Hf. apply Forall_app in Hf as [Hf1 [Hm Hf2]%Forall_cons]. destruct Hm as [Huv Hm].
    destruct (onRouteResp_ok e v s u r (Hn _ _ Hv) Huv Hm) as [Hs' Ho].
    split; simpl; [by apply nodes_ok_insert|]. repeat apply Forall_app_2; try done. by eapply transmits_ok.
  - rewrite Hfl in Hf. apply Forall_app in Hf as [Hf1 [_ Hf2]%Forall_cons].
    split; simpl; [done|by apply Forall_app_2].
  - destruct (local_ok e v s s' o (Hn _ _ Hv) Hl) as [Hs' Ho].
    split; simpl; [by apply nodes_ok_insert|]. apply Forall_app_2; [done|by eapply transmits_ok].
  - split; simpl; [|done]. apply nodes_ok_insert; [done|]. split; simpl; [done|done|].
    by apply start_ok, empty_store_ok.
Qed.

Definition empty_net : Net := {| nodes := ∅; flight := [] |}.

Lemma net_ok_reached net : rtc nstep empty_net net -> net_ok net.
Proof.
  intros Hr. assert (Hi : net_ok empty_net).
  { split; simpl; [|constructor]. intros v s. by rewrite lookup_empty. }
  remember empty_net as net0 eqn:E. clear E. induction Hr as [|x y z Hxy _ IH]; [done|].
  by apply IH, (nstep_ok x).
Qed.
End Node.

(** ** Consequences for the table *)

Lemma walk_enters linked items v : walk linked (items ++ [v]) -> v ∉ items -> items <> [] ->
  walk linked items /\ exists x, last items = Some x /\ linked x v.
Proof.
  intros Hw Hv Hne. inversion Hw as [x E|l x y Hw' Hl Hy E|l x Hw' E].
  - apply (f_equal length) in E. rewrite length_app in E. simpl in E. by destruct items; [|simpl in E; lia].
  - apply app_inj_2 in E as [<- [= <-]]; [|done]. split; [done|]. exists x. split; [apply last_snoc|done].
  - apply app_inj_2 in E as [<- [= <-]]; [|done]. destruct Hv. apply elem_of_app. right. by left.
Qed.

Lemma mjoin_inj (n : nat) (l l' : list Address) : (0 < n)%nat ->
  Forall (address_ok n) l -> Forall (address_ok n) l' -> mjoin l = mjoin l' -> l = l'.
Proof.
  intros Hn Hl. revert l'. induction Hl as [|x l [Hx _] _ IH]; intros l' Hl' E.
  - destruct Hl' as [|y l' [Hy _] _]; [done|]. destruct y; simpl in *; [lia|done].
  - destruct Hl' as [|y l' [Hy _] Hl']; [destruct x; simpl in *; [lia|done]|].
    simpl in E. apply app_inj_1 in E as [-> E]; [|congruence]. f_equal. by apply IH.
Qed.

(** * Properties *)

(** C9: in every network of nodes that exchange requests and answers over links,
    however messages are lost and overtaken and nodes restart, each path a node
    keeps is a walk over links that ends at the node, with at least two nodes and
    at most [MaxTTL]; each next hop the table gives for a target is not skipped
    and is the last of at most [MaxTTL] hops without a loop from the target to
    the node; and a path [Get] returns contains the target, or has the same SHA-256
    key as a different walk to the node that does.  Addresses have one length, at
    which [BytesToHash] tells them apart. *)
Theorem routes_sound {Hash : Type} `{Countable Hash} `{CH : CommonHash Hash}
    {S V : Type} `{ST : StateStorer S V} `{CP : Codec Path V} `{CR : Codec (list (TargetRoute Hash)) V}
    (linked : Address -> Address -> Prop) (n : nat) (NeighborAlpha : Z) (net : Net)
    (v : Address) (s : Service Hash S)
    (Hn : (0 < n)%nat)
    (HBytes : forall a b, address_ok n a -> address_ok n b -> BytesToHash a = BytesToHash b -> a = b)
    (Hnet : rtc (nstep linked n NeighborAlpha) empty_net net) (Hv : nodes net !! v = Some s) :
  (forall h p, paths (routeTable s) !! h = Some p ->
     walk linked (Items p ++ [v]) /\ 2 <= zlen (Items p) <= MaxTTL) /\
  (forall target skips next, address_ok n target -> next ∈ GetNextHop (routeTable s) target skips ->
     (next ∉ skips) /\
     exists l, hops linked (l ++ [v]) /\ head l = Some target /\ last l = Some next /\ zlen l <= MaxTTL) /\
  (forall target l p, address_ok n target -> Get (routeTable s) target = Some l -> p ∈ l ->
     target ∈ Items p \/
     exists items, walk linked (items ++ [v]) /\ target ∈ items /\ mjoin items <> mjoin (Items p) /\
       Sum256 (mjoin items) = Sum256 (mjoin (Items p))).
Proof.
  pose proof (ne_nodes _ _ _ (net_ok_reached _ _ _ _ Hnet) v s Hv) as [_ _ Ht].
  assert (Hkey : forall target l r, address_ok n target ->
    routes (routeTable s) !! getTargetKey target = Some l -> r ∈ l ->
    exists items, items_ok linked n v items /\ PathKey r = generatePathItems items /\
      last items = Some (Neighbor r) /\ target ∈ items).
  { intros target l r Hta Hl Hr. pose proof (Forall_at _ _ _ (ta_routes _ _ _ _ Ht _ _ Hl) Hr)
      as (items & target' & Hi & Hp & Hlast & Hin & Hk).
    exists items. split_and!; try done. apply HBytes in Hk; [by subst|done|].
    exact (Forall_at _ _ _ (it_address _ _ _ _ Hi) Hin). }
  split_and!.
  - intros h p Hp. destruct (ta_paths _ _ _ _ Ht h p Hp) as [[Hw _ Hl _] _]. done.
  - intros target skips next Hta. unfold GetNextHop.
    destruct (routes (routeTable s) !! getTargetKey target) as [l|] eqn:Hl; [|set_solver].
    intros [Hnext Hskip]%elem_of_list_to_set%list_elem_of_In%List.filter_In.
    apply negb_true_iff in Hskip. apply list_elem_of_In, list_elem_of_fmap in Hnext as (r & -> & Hr).
    split; [intros Hin; by rewrite (proj2 (MemberOf_spec _ _) Hin) in Hskip|].
    destruct (Hkey target l r Hta Hl Hr) as (items & [Hw Hnew Hlen _] & _ & Hlast & Hin).
    destruct (walk_enters _ _ _ Hw Hnew) as (Hw' & x & Hx & Hxv); [intros ->; simpl in *; lia|].
    rewrite Hlast in Hx. injection Hx as <-.
    destruct (walk_hops _ _ _ Hw' Hin) as (h & Hh & Hhead & Hhl & Hlen' & Hsub).
    exists h. rewrite Hlast in Hhl. split_and!; [|done|done|lia].
    apply last_Some in Hhl as [h' ->]. apply hops_snoc; [done|done|]. intros Hvh. by apply Hnew, Hsub.
  - intros target l p Hta Hg Hp. unfold Get in Hg.
    destruct (routes (routeTable s) !! getTargetKey target) as [rs|] eqn:Hrs; [|done].
    assert (p ∈ omap (fun r => paths (routeTable s) !! PathKey r) rs) as Hpo
      by (by destruct (omap _ rs); simplify_eq).
    apply list_elem_of_omap in Hpo as (r & Hr & Hpr).
    destruct (Hkey target rs r Hta Hrs Hr) as (items & [Hw _ _ Ha] & Hk & _ & Hin).
    destruct (ta_paths _ _ _ _ Ht _ _ Hpr) as [[_ _ _ Hap] Hpk]. rewrite Hk in Hpk.
    destruct (decide (mjoin items = mjoin (Items p))) as [E|Hne].
    + left. by apply (mjoin_inj n) in E as <-.
    + right. by exists items.
Qed.

(** Three nodes in a row; hashes are the bytes themselves. *)
Module row.
#[refine] Definition plain_hash : CommonHash bytes := {|
  BytesToHash b := b;
  HexToHash x := match x with
                 | 0 :: h => h
                 | _ => match DecodeString x with Ok b => b | Err _ => [] end
                 end;
  Hash_String h := 0 :: h;
  Sum256 b := b;
|}.
Proof.
  - done.
  - intros a Ha. pose proof (DecodeString_Encode a Ha) as Hd. unfold Boson.String.
    destruct a as [|x a]; [done|]. inversion_clear Ha as [|?? Hx _].
    assert (Hh : 48 <= hexDigit (x / 16)).
    { assert (0 <= x / 16) by (apply Z.div_pos; [apply Hx|lia]).
      unfold hexDigit. destruct (_ <? _); lia. }
    rewrite Hd. cbn [EncodeToString] in *. destruct (hexDigit _) eqn:E in |- *; [lia|done|done].
Defined.

Definition value : Type := Path + list (TargetRoute bytes).

#[refine] Definition path_codec : Codec Path value := {|
  marshal := inl; unmarshal v := match v with inl p => Some p | inr _ => None end |}.
Proof. done. Defined.

#[refine] Definition routes_codec : Codec (list (TargetRoute bytes)) value := {|
  marshal := inr; unmarshal v := match v with inr l => Some l | inl _ => None end |}.
Proof. done. Defined.

#[local] Existing Instance plain_hash.
#[local] Existing Instance memory_store.
#[local] Existing Instance path_codec.
#[local] Existing Instance routes_codec.

Definition env : Env :=
  {| now := 0; body := []; bls_Sign := fun _ _ => []; draw := fun _ => None; pick := head;
     underlay := fun _ => true |}.

Definition kad_of (b : Address) (l : list Address) : Kad :=
  {| lim := set_limits 0; base := b; oversaturation := 20; bitSuffixLength := 0;
     commonBinPrefixes := []; connectedPeers := Add (PSlice.New 32 b) l; knownPeers := PSlice.New 32 b;
     depth := 0; radius := MaxPO; nodeBoot := false; collector := ∅; waitNext := ∅; staticNodes := [];
     reachability := ReachabilityStatusPublic; protectPeers := [] |}.

Definition linked (a b : Address) : Prop := (a, b) ∈ [([1], [2]); ([2], [1]); ([2], [3]); ([3], [2])].

Definition service (v : Address) (l : list Address) : Service bytes (gmap bytes value) :=
  {| self := v; kad := kad_of v l; routeTable := start env 0 (newRouteTable v ∅);
     pendingCalls := newPendCallResTab |}.

Definition req (l : list Address) : RouteReq :=
  {| qDest := [3]; qAlpha := 2;
     qPaths := [{| pSign := []; pBodys := replicate (length l) []; pItems := l |}]; qUType := 1 |}.

(** The nodes, before and after their part of the search. *)
Definition first := service [1] [[2]].
Definition second := service [2] [[1]; [3]].
Definition third := service [3] [[2]].
Definition first' := (FindRoute_send 2 env first [3] 0).1.1.
Definition second' := (onRouteReq 2 env second [1] (req [[1]])).1.
Definition third' := (onRouteReq 2 env third [2] (req [[1]; [2]])).1.
End row.

Section RowWitness.
#[local] Existing Instance row.plain_hash.
#[local] Existing Instance memory_store.
#[local] Existing Instance row.path_codec.
#[local] Existing Instance row.routes_codec.

(** The request of the first node reaches the third, which then has a next hop. *)
Lemma row_reached : exists net, rtc (nstep row.linked 1 2) empty_net net /\ nodes net !! [3] = Some row.third'.
Proof.
  assert (Hok : forall x, is_byte x -> address_ok 1 [x]) by (intros x Hx; split; [done|by apply Forall_singleton]).
  assert (Hjoin : forall m f v l, m !! [v] = None -> is_byte v ->
    nstep row.linked 1 2 {| nodes := m; flight := f |} {| nodes := <[[v] := row.service [v] l]> m; flight := f |}).
  { intros m f v l Hm Hv.
    apply (n_join _ _ _ {| nodes := m; flight := f |} row.env 0 [v] (row.kad_of [v] l) ∅);
      [done|by apply Hok|reflexivity|reflexivity]. }
  eexists. split.
  - eapply rtc_l; [apply (Hjoin ∅ [] 1 [[2]]); done|].
    eapply rtc_l; [apply (Hjoin _ [] 2 [[1]; [3]]); [by rewrite lookup_insert_ne|done]|].
    eapply rtc_l; [apply (Hjoin _ [] 3 [[2]]); [by rewrite !lookup_insert_ne|done]|].
    eapply rtc_l.
    { eapply (n_local _ _ _ _ row.env [1] row.first row.first' _ [([1], [2], Req (row.req [[1]]))]);
        [cbn [nodes]; by rewrite !lookup_insert_ne, lookup_insert_eq by done|
         apply (local_find _ row.env _ [3] 0)|].
      apply Forall_singleton. split; [done|]. split; [vm_compute; left|left]. }
    eapply rtc_l.
    { eapply (n_req _ _ _ _ row.env [1] [2] (row.req [[1]]) row.second [] []
                [([2], [3], Req (row.req [[1]; [2]]))]);
        [reflexivity|cbn [nodes]; by rewrite !lookup_insert_ne, lookup_insert_eq by done|].
      apply Forall_singleton. split; [done|]. split; [vm_compute; left|right; right; left]. }
    eapply rtc_l.
    { eapply (n_req _ _ _ _ row.env [2] [3] (row.req [[1]; [2]]) row.third [] [] []);
        [reflexivity|cbn [nodes]; by rewrite !lookup_insert_ne, lookup_insert_eq by done|constructor]. }
    apply rtc_refl.
  - cbn [nodes]. by rewrite lookup_insert_eq.
Qed.

(** The request of the first node reaches the third, which then has a next hop. *)
Lemma routes_sound_witness :
  [2] ∈ GetNextHop (routeTable row.third') [1] [] /\
  exists l, hops row.linked (l ++ [[3]]) /\ head l = Some [1] /\ last l = Some [2] /\ zlen l <= MaxTTL.
Proof.
  assert (Hnext : [2] ∈ GetNextHop (routeTable row.third') [1] []).
  { apply (bool_decide_unpack (_ ∈ _)). vm_compute. exact I. }
  split; [exact Hnext|]. destruct row_reached as (net & Hnet & Hs).
  destruct (routes_sound row.linked 1 2 net [3] row.third' ltac:(lia)
    (fun a b _ _ E => E) Hnet Hs) as (_ & Hhops & _).
  destruct (Hhops [1] [] [2]) as [_ Hl].
  - split; [reflexivity|]. repeat constructor; lia.
  - exact Hnext.
  - exact Hl.
Defined.
End RowWitness.

(** C35: an answer that two peers wait for is extended by the node once for each
    of them: the second peer gets a path that ends in the node twice. *)
Theorem forward_repeats {Hash : Type} `{Countable Hash} {S : Type} (e : Env) (s : Service Hash S)
    (target last : Address) (resp : RouteResp) (x y : PendCallResItem) (p : pbPath)
    (Hx : Src x <> self s) (Hy : Src y <> self s) (Hxy : Src x <> Src y)
    (Hp : rPaths resp = [p]) :
  (fun '(w, m) => (w, map pItems (msg_paths m))) <$> (forward_all e s target last resp [] [x; y]).1
  = [(Src x, [pItems p ++ [self s]]); (Src y, [pItems p ++ [self s; self s]])].
Proof.
  assert (HE : forall a b, a <> b -> Equal a b = false).
  { intros a b Hab. apply not_true_iff_false. by rewrite Equal_spec. }
  cbn [forward_all]. rewrite !HE by done. cbn [negb MemberOf app]. rewrite HE by done.
  cbn [negb]. rewrite Hp. simpl. by rewrite <- app_assoc.
Qed.

Lemma forward_repeats_witness :
  let waits v := {| Src := v; PCreateTime := 0; ResCh := None |} in
  let resp := {| rDest := [3]; rPaths := [{| pSign := []; pBodys := []; pItems := [[3]] |}]; rUType := 0 |} in
  (fun '(w, m) => (w, map pItems (msg_paths m))) <$>
    (forward_all row.env row.second [3] [3] resp [] [waits [1]; waits [4]]).1
  = [([1], [[[3]; [2]]]); ([4], [[[3]; [2]; [2]]])].
Proof.
  intros waits resp.
  apply (forward_repeats row.env row.second [3] [3] resp (waits [1]) (waits [4])
    {| pSign := []; pBodys := []; pItems := [[3]] |}); done.
Defined.
