(* ===== verification/Aco.v ===== *)
(** * Choice of routes to download from (pkg/retrieval/aco, pkg/retrieval/weight)

    [AcoServer] measures how fast chunks came over each route; [GetRouteAcoIndex]
    picks routes at random, weighted by a score.  The random numbers are an
    argument: [draw j n] is what [rand.Int63n(n)] gives for the [j]-th pick.  The
    [float64] arithmetic of the score is that of the standard library's [SpecFloat]. *)

From Stdlib Require Import ZArith Lia ZifyBool SpecFloat.
From stdpp Require Import base gmap list numbers strings.
From S2P Require Import Prelude Boson StateStore.

Open Scope Z_scope.

Record Route := MkRoute { LinkNode : Address; TargetNode : Address }.

#[export] Instance Route_eq_dec : EqDecision Route.
Proof. solve_decision. Defined.

Definition NewRoute (linkAddr targetAddr : Address) : Route := MkRoute linkAddr targetAddr.

Definition ToString (r : Route) : bytes := Boson.String (LinkNode r) ++ str "," ++ Boson.String (TargetNode r).

Record DownloadDetail := MkDetail { StartMs : Z; EndMs : Z; Size : Z }.

Record routeMetric := MkMetric { downloadCount : Z; downloadDetail : DownloadDetail }.

Abbreviation AcoServer := (gmap bytes routeMetric).

Definition defaultRate : Z := 250000.
Definition toZeroElapsed : Z := 1200.

(** ** Measurements *)

Definition OnDownloadStart (s : AcoServer) (route : Route) : AcoServer :=
  match s !! ToString route with
  | Some m => <[ToString route := MkMetric (i64 (downloadCount m + 1)) (downloadDetail m)]> s
  | None => <[ToString route := MkMetric 1 (MkDetail 0 0 0)]> s
  end.

Definition OnDownloadEnd (s : AcoServer) (route : Route) : AcoServer :=
  match s !! ToString route with
  | Some m => if 0 <? downloadCount m then <[ToString route := MkMetric (downloadCount m - 1) (downloadDetail m)]> s else s
  | None => s
  end.

(** The measurement with its times in order and apart. *)
Definition ordered (startMs endMs : Z) : Z * Z :=
  if startMs <? endMs then (startMs, endMs)
  else if startMs =? endMs then (startMs, i64 (endMs + 10))
  else (endMs, startMs).

Definition merge_detail (old : DownloadDetail) (startMs endMs size : Z) : DownloadDetail :=
  if endMs <? StartMs old then old
  else if EndMs old <? startMs then MkDetail startMs endMs size
  else MkDetail (if startMs <? StartMs old then startMs else StartMs old)
                (if EndMs old <? endMs then endMs else EndMs old) (i64 (Size old + size)).

Definition OnDownloadFinish (s : AcoServer) (route : Route) (d : DownloadDetail) : AcoServer :=
  let '(startMs, endMs) := ordered (StartMs d) (EndMs d) in
  match s !! ToString route with
  | None => <[ToString route := MkMetric 0 (MkDetail startMs endMs (Size d))]> s
  | Some m => <[ToString route := MkMetric (downloadCount m) (merge_detail (downloadDetail m) startMs endMs (Size d))]> s
  end.

(** What the cleaning goroutine does at each tick. *)
Definition clean_metrics (now : Z) (s : AcoServer) : AcoServer :=
  filter (fun kv : bytes * routeMetric => now < Z.quot (EndMs (downloadDetail kv.2)) 1000 + toZeroElapsed) s.

(** ** Scores *)

Definition prec : Z := 53.
Definition emax : Z := 1024.

Definition float64 (z : Z) : spec_float := binary_normalize prec emax z 0 false.

(** [int64(f)]; a value out of range gives the least integer, as on amd64. *)
Definition int64 (f : spec_float) : Z :=
  match f with
  | S754_zero _ => 0
  | S754_finite s m e =>
      let a := if 0 <=? e then Zpos m * 2 ^ e else Zpos m / 2 ^ (- e) in
      let z := if s then - a else a in
      if (- 2 ^ 63 <=? z) && (z <? 2 ^ 63) then z else - 2 ^ 63
  | _ => - 2 ^ 63
  end.

(** [getCur] with the time given; [None] is the panic of a division by zero. *)
Definition getCur (t : Z) (m : routeMetric) : option Z :=
  let d := downloadDetail m in
  let elapsed := Z.max 0 (i64 (t - Z.quot (EndMs d) 1000)) in
  let div x := if i64 (downloadCount m + 1) =? 0 then None else Some (i64 (Z.quot x (i64 (downloadCount m + 1)))) in
  if toZeroElapsed <=? elapsed then div defaultRate
  else if EndMs d =? 0 then div defaultRate
  else
    let downloadDuration := SFdiv prec emax (float64 (i64 (EndMs d - StartMs d))) (float64 1000) in
    let downloadRate := int64 (SFdiv prec emax (float64 (Size d)) downloadDuration) in
    weightedDownloadRate ← div downloadRate;
    let reserveScale := SFsub prec emax (float64 1) (SFdiv prec emax (float64 elapsed) (float64 toZeroElapsed)) in
    Some (i64 (int64 (SFmul prec emax (float64 (i64 (weightedDownloadRate - defaultRate))) reserveScale) + defaultRate)).

Definition getCurRouteScore (now : Z) (s : AcoServer) (route : Route) : option Z :=
  match s !! ToString route with
  | None => Some defaultRate
  | Some m => getCur now m
  end.

Definition getSelectRouteListScore (now : Z) (s : AcoServer) (routeList : list Route) : option (list Z) :=
  mapM (getCurRouteScore now s) routeList.

Definition GetRouteScore (now time : Z) (s : AcoServer) : gmap bytes (option Z) :=
  getCur (if time =? 0 then now else time) <$> s.

(** ** Weighted choice *)

(** The prefix sums of the weights. *)
Fixpoint prefix_sums (acc : Z) (w : list Z) : list Z :=
  match w with
  | [] => []
  | x :: w => i64 (acc + x) :: prefix_sums (i64 (acc + x)) w
  end.

Definition weight_New (w : list Z) : option (list Z) :=
  let p := prefix_sums 0 w in
  if List.last p 0 =? 0 then None else Some p.

(** [sort.Search]: bisection for the first index in [i, j) at which [f] holds. *)
Fixpoint search (fuel : nat) (f : nat -> bool) (i j : nat) : nat :=
  match fuel with
  | O => i
  | S fuel =>
      if (i <? j)%nat then
        let h := ((i + j) / 2)%nat in
        if f h then search fuel f i h else search fuel f (h + 1) j
      else i
  end.

Definition PickIndex (pre : list Z) (r : Z) : nat :=
  search (S (length pre)) (fun i => r <=? nth i pre 0) 0 (length pre).

(** The rest of the picks, [j] being done; when no score is left the indexes that
    are not written stay 0.  [None] is a panic of [rand.Int63n]. *)
Fixpoint pick_loop (draw : nat -> Z -> Z) (n j : nat) (scores : list Z) : option (list nat) :=
  match n with
  | O => Some []
  | S n' =>
      match weight_New scores with
      | None => Some (replicate n 0%nat)
      | Some pre =>
          let total := List.last pre 0 in
          if total <? 0 then None
          else
            let i := PickIndex pre (draw j total + 1) in
            l ← pick_loop draw n' (j + 1) (<[i := 0]> scores);
            Some (i :: l)
      end
  end.

Definition GetRouteAcoIndex (draw : nat -> Z -> Z) (now : Z) (s : AcoServer) (routeList : list Route) (count : option nat) :
    option (list nat) :=
  let routeCount := length routeList in
  if (routeCount =? 0)%nat then Some []
  else
    let maxSelectCount := match count with
                          | Some setCount => if (setCount <? routeCount)%nat then setCount else routeCount
                          | None => routeCount
                          end in
    scores ← getSelectRouteListScore now s routeList;
    pick_loop draw maxSelectCount 0 scores.

(** ** Lemmas *)

Definition total (w : list Z) : Z := foldr Z.add 0 w.

Lemma total_nonneg w : Forall (Z.le 0) w -> 0 <= total w.
Proof. induction 1; simpl; lia. Qed.

Lemma total_insert w i x : w !! i = Some x -> total (<[i := 0]> w) = total w - x.
Proof.
  revert i. induction w as [|y w IH]; intros [|i] Hi; simplify_eq/=; [lia|].
  rewrite (IH i Hi). lia.
Qed.

Lemma total_take_le w i j : Forall (Z.le 0) w -> (i <= j)%nat -> total (take i w) <= total (take j w).
Proof.
  intros Hw. revert i j. induction Hw as [|x w Hx Hw IH]; intros [|i] [|j] Hij; simpl; try lia.
  - pose proof (total_nonneg (take j w) (Forall_take _ _ _ Hw)). lia.
  - specialize (IH i j). lia.
Qed.

Lemma total_take_le_all w i : Forall (Z.le 0) w -> total (take i w) <= total w.
Proof.
  intros Hw. destruct (decide (i <= length w)%nat).
  - rewrite <- (firstn_all w) at 2. by apply total_take_le.
  - by rewrite take_ge by lia.
Qed.

Lemma prefix_sums_nth w acc i : Forall (Z.le 0) w -> 0 <= acc -> acc + total w < 2 ^ 63 -> (i < length w)%nat ->
  nth i (prefix_sums acc w) 0 = acc + total (take (S i) w).
Proof.
  intros Hw. revert acc i. induction Hw as [|x w Hx Hw IH]; intros acc i Hacc Hs Hi; cbn [length] in Hi; [lia|].
  pose proof (total_nonneg w Hw). cbn [total foldr] in Hs. fold (total w) in Hs.
  cbn [prefix_sums]. rewrite i64_small by lia. destruct i as [|i].
  - cbn. rewrite take_0. simpl. lia.
  - cbn [nth]. rewrite IH by lia. cbn [take total foldr]. fold (total (take (S i) w)). lia.
Qed.

Lemma prefix_sums_length acc w : length (prefix_sums acc w) = length w.
Proof. revert acc. induction w; intros acc; simpl; [done|]. by f_equal. Qed.

Lemma prefix_sums_last w acc d : Forall (Z.le 0) w -> 0 <= acc -> acc + total w < 2 ^ 63 -> w <> [] ->
  List.last (prefix_sums acc w) d = acc + total w.
Proof.
  intros Hw. revert acc. induction Hw as [|x w Hx Hw IH]; intros acc Hacc Hs Hne; [done|].
  pose proof (total_nonneg w Hw). cbn [total foldr] in *. fold (total w) in *.
  cbn [prefix_sums]. rewrite i64_small by lia. destruct w as [|y w]; [cbn; lia|].
  transitivity (List.last (prefix_sums (acc + x) (y :: w)) d); [done|]. rewrite IH by (done || lia). lia.
Qed.

Lemma search_spec f k n fuel : forall i j, (forall x, (x < n)%nat -> f x = true <-> (k <= x)%nat) ->
  (i <= k <= j)%nat -> (j <= n)%nat -> (j - i < fuel)%nat -> search fuel f i j = k.
Proof.
  induction fuel as [|fuel IH]; intros i j Hf Hk Hn Hfuel; [lia|]. cbn [search].
  destruct (Nat.ltb_spec i j); [|lia].
  pose proof (Nat.div_mod_eq (i + j) 2). pose proof (Nat.mod_upper_bound (i + j) 2).
  assert (Hh : (i <= (i + j) / 2 < j)%nat) by lia. specialize (Hf ((i + j) / 2)%nat) as Hf'.
  destruct (f ((i + j) / 2)%nat) eqn:Ef.
  - assert ((k <= (i + j) / 2)%nat) by (apply Hf'; [lia|done]). apply IH; [done|lia..].
  - assert (~ (k <= (i + j) / 2)%nat) by (intros Hle; apply Hf' in Hle; [done|lia]). apply IH; [done|lia..].
Qed.

Lemma position w r : Forall (Z.le 0) w -> 0 < r <= total w ->
  exists k, (k < length w)%nat /\ total (take k w) < r <= total (take (S k) w).
Proof.
  intros Hw. revert r. induction Hw as [|x w Hx Hw IH]; intros r Hr; simpl in Hr; [lia|].
  fold (total w) in Hr. destruct (decide (r <= x)).
  - exists 0%nat. simpl. split; lia.
  - destruct (IH (r - x)) as (k & Hk & Hb); [lia|]. exists (S k). split; [simpl; lia|].
    cbn [take total foldr]. fold (total (take k w)) (total (take (S k) w)). lia.
Qed.

Lemma PickIndex_at w pre r k : Forall (Z.le 0) w -> total w < 2 ^ 63 -> weight_New w = Some pre ->
  (k < length w)%nat -> total (take k w) < r <= total (take (S k) w) -> PickIndex pre r = k.
Proof.
  intros Hw Hs Hp Hk Hr. unfold weight_New in Hp. destruct (_ =? 0); [done|]. injection Hp as <-.
  unfold PickIndex. apply (search_spec _ _ (length w)); rewrite ?prefix_sums_length; try lia.
  intros x Hx. rewrite prefix_sums_nth by (done || lia).
  pose proof (total_take_le w (S k) (S x) Hw). pose proof (total_take_le w (S x) k Hw).
  split; intros; lia.
Qed.

Lemma weight_New_Some w : Forall (Z.le 0) w -> 0 < total w < 2 ^ 63 ->
  exists pre, weight_New w = Some pre /\ List.last pre 0 = total w.
Proof.
  intros Hw Hs. unfold weight_New.
  assert (Hl : List.last (prefix_sums 0 w) 0 = total w).
  { rewrite prefix_sums_last; [lia|done|lia|lia|]. intros ->. simpl in Hs. lia. }
  rewrite Hl. destruct (Z.eqb_spec (total w) 0); [lia|]. eauto.
Qed.

Lemma weight_New_None w : w <> [] -> Forall (Z.le 0) w -> total w = 0 -> weight_New w = None.
Proof.
  intros Hne Hw Hs. unfold weight_New. rewrite prefix_sums_last by (done || lia). by rewrite Hs.
Qed.

Lemma total_take_S w k x : w !! k = Some x -> total (take (S k) w) = total (take k w) + x.
Proof.
  revert k. induction w as [|y w IH]; intros [|k] Hk; simplify_eq/=; [lia|].
  cbn [take total foldr] in *. fold (total (take k w)) (total (take (S k) w)) in *. rewrite (IH k Hk). lia.
Qed.

Lemma total_zero w i x : Forall (Z.le 0) w -> total w = 0 -> w !! i = Some x -> x = 0.
Proof.
  intros Hw Hs Hi. pose proof (total_take_S w i x Hi). pose proof (total_take_le_all w (S i) Hw).
  pose proof (total_nonneg (take i w) (Forall_take _ _ _ Hw)). pose proof (Forall_lookup_1 _ _ _ _ Hw Hi).
  simpl in *. lia.
Qed.

(** The picks: different indexes of positive scores, and if there are too few of
    them all of them, followed by zeros. *)
Lemma pick_loop_spec draw n : forall j scores,
  (forall j k, 0 < k -> 0 <= draw j k < k) -> scores <> [] -> Forall (Z.le 0) scores -> total scores < 2 ^ 63 ->
  exists picks m, pick_loop draw n j scores = Some (picks ++ replicate m 0%nat) /\
    (length picks + m = n)%nat /\ NoDup picks /\
    (forall i, i ∈ picks -> exists x, scores !! i = Some x /\ 0 < x) /\
    (m <> 0%nat -> forall i x, scores !! i = Some x -> 0 < x -> i ∈ picks).
Proof.
  induction n as [|n IH]; intros j scores Hd Hne Hw Hs.
  { exists [], 0%nat. repeat split; try done; [constructor|set_solver]. }
  pose proof (total_nonneg scores Hw). cbn [pick_loop]. destruct (decide (total scores = 0)) as [E|Hpos].
  { rewrite weight_New_None by done. exists [], (S n). repeat split; try done; [constructor|set_solver|].
    intros _ i x Hi Hx. pose proof (total_zero scores i x Hw E Hi). lia. }
  destruct (weight_New_Some scores) as (pre & Hp & Hl); [done|lia|]. rewrite Hp, Hl.
  destruct (Z.ltb_spec (total scores) 0); [lia|].
  destruct (position scores (draw j (total scores) + 1)) as (k & Hk & Hr); [done|specialize (Hd j (total scores)); lia|].
  rewrite (PickIndex_at scores pre _ k) by (done || lia).
  destruct (lookup_lt_is_Some_2 scores k Hk) as [x Hx].
  pose proof (total_take_S scores k x Hx) as HS.
  destruct (IH (j + 1)%nat (<[k := 0]> scores)) as (picks & m & Hpick & Hlen & Hnd & Hin & Hall);
    [done|by destruct scores, k|by apply Forall_insert| |].
  { rewrite (total_insert _ _ x) by done. pose proof (Forall_lookup_1 _ _ _ _ Hw Hx). simpl in *. lia. }
  rewrite Hpick. cbn [mbind option_bind]. exists (k :: picks), m. split; [done|].
  split; [cbn [length]; lia|]. split.
  { constructor; [|done]. intros Hkp. destruct (Hin k Hkp) as (y & Hy & Hy0).
    rewrite list_lookup_insert_eq in Hy by done. injection Hy as <-. lia. }
  split.
  - intros i Hi. apply elem_of_cons in Hi as [->|Hi]; [exists x; split; [done|lia]|].
    destruct (Hin i Hi) as (y & Hy & Hy0). destruct (decide (i = k)) as [->|Hik].
    + rewrite list_lookup_insert_eq in Hy by done. injection Hy as <-. lia.
    + rewrite list_lookup_insert_ne in Hy by done. eauto.
  - intros Hm i y Hi Hy. destruct (decide (i = k)) as [->|Hik]; [left|].
    right. apply (Hall Hm i y); [by rewrite list_lookup_insert_ne|done].
Qed.

(** * Properties *)

(** The weighted choice picks the index [k] for exactly those of the numbers
    from 1 to the sum of the weights that lie between the sums of the weights up
    to [k], without and with it: as many as its weight. *)
Theorem PickIndex_weighted (w pre : list Z) (r : Z) (k : nat)
    (Hw : Forall (Z.le 0) w) (Hs : total w < 2 ^ 63) (Hpre : weight_New w = Some pre)
    (Hr : 0 < r <= total w) :
  PickIndex pre r = k <-> (k < length w)%nat /\ total (take k w) < r <= total (take (S k) w).
Proof.
  split; [|intros [Hk Hb]; by apply (PickIndex_at w)]. intros <-.
  destruct (position w r Hw Hr) as (k & Hk & Hb). by rewrite (PickIndex_at w pre r k).
Qed.

Lemma PickIndex_weighted_witness :
  PickIndex [2; 2; 5] 3 = 2%nat <-> (2 < 3)%nat /\ total (take 2 [2; 0; 3]) < 3 <= total (take 3 [2; 0; 3]).
Proof.
  apply (PickIndex_weighted [2; 0; 3] [2; 2; 5] 3 2); [repeat constructor; lia|simpl; lia|reflexivity|simpl; lia].
Defined.

(** C29: whatever the random numbers, [GetRouteAcoIndex] gives as many indexes as
    asked for and available: first different ones with positive scores, then, only
    when all of these have been picked, zeros. *)
Theorem GetRouteAcoIndex_picks (draw : nat -> Z -> Z) (now : Z) (s : AcoServer) (routes : list Route)
    (count : nat) (scores : list Z)
    (Hdraw : forall j n, 0 < n -> 0 <= draw j n < n) (Hroutes : routes <> [])
    (Hscores : getSelectRouteListScore now s routes = Some scores)
    (Hnonneg : Forall (Z.le 0) scores) (Hsum : total scores < 2 ^ 63) :
  exists picks zeros, GetRouteAcoIndex draw now s routes (Some count) = Some (picks ++ replicate zeros 0%nat) /\
    (length picks + zeros = count `min` length routes)%nat /\ NoDup picks /\
    (forall i, i ∈ picks -> exists x, scores !! i = Some x /\ 0 < x) /\
    (zeros <> 0%nat -> forall i x, scores !! i = Some x -> 0 < x -> i ∈ picks).
Proof.
  assert (Hne : scores <> []).
  { apply length_mapM in Hscores. destruct routes, scores; done. }
  unfold GetRouteAcoIndex. destruct (Nat.eqb_spec (length routes) 0); [by destruct routes|].
  rewrite Hscores. cbn [mbind option_bind].
  destruct (pick_loop_spec draw (count `min` length routes) 0 scores) as (picks & zeros & Hp & Hrest); [done..|].
  exists picks, zeros. split; [|done]. rewrite <- Hp. f_equal.
  destruct (Nat.ltb_spec count (length routes)); lia.
Qed.

Lemma GetRouteAcoIndex_picks_witness :
  let r := MkRoute [1] [2] in
  exists picks zeros, GetRouteAcoIndex (fun _ _ => 0) 0 ∅ [r; r] (Some 5%nat) = Some (picks ++ replicate zeros 0%nat) /\
    (length picks + zeros = 2)%nat.
Proof.
  intros r. destruct (GetRouteAcoIndex_picks (fun _ _ => 0) 0 ∅ [r; r] 5 [defaultRate; defaultRate])
    as (picks & zeros & Hp & Hl & _); [intros; lia|done|reflexivity|repeat constructor; done|done|].
  exists picks, zeros. by split.
Defined.
