(* ===== verification/ChunkInfo.v ===== *)
(** * Finding out who has the chunks of a file (pkg/chunkinfo)

    A node that wants a file asks peers which chunks they have.  For every file
    there is a queue of peers not yet asked, being asked and asked; answers name
    more peers.  The bits of the answers, the chunks served to peers and the
    peers chunks came from are kept in the chunk store ([ChunkStore]).

    [Discover], the handler of answers, the worker that watches timeouts and
    [CancelFindChunkInfo] run at the same time.  Each is a thread whose steps
    are single accesses to shared state: an operation under the lock of a queue,
    of the chunk store or of the timeouts, an access to a [sync.Map], or a send
    or receive on a channel.  Queues are cells of a heap, since a thread may go on
    with a queue that has been replaced.  [tstep] gives the next step of a
    thread, [None] if it is blocked.

    The clock, the order in which Go iterates over a map and the answers of the
    chain and of the routing service are arguments. *)

From Stdlib Require Import ZArith Lia ZifyBool.
From stdpp Require Import base gmap list numbers strings.
From S2P Require Import Prelude Boson StateStore AddressBook BitVector ChunkStore Aco.

Open Scope Z_scope.

(** ** Queues *)

Inductive Pull := UnPull | Pulling | Pulled.

Definition PullMax : nat := 200.
Definition PullingMax : nat := 10.
Definition PullerMax : nat := 1000.

Record queue := MkQueue { qUnPull : list bytes; qPulling : list bytes; qPulled : list bytes }.

Definition emptyQueue : queue := MkQueue [] [] [].

Definition getPull (q : queue) (pull : Pull) : list bytes :=
  match pull with UnPull => qUnPull q | Pulling => qPulling q | Pulled => qPulled q end.

Definition updatePull (q : queue) (pull : Pull) (l : list bytes) : queue :=
  match pull with
  | UnPull => MkQueue l (qPulling q) (qPulled q)
  | Pulling => MkQueue (qUnPull q) l (qPulled q)
  | Pulled => MkQueue (qUnPull q) (qPulling q) l
  end.

(** [None] is the panic of [qu[0]] on an empty list. *)
Definition pop (q : queue) (pull : Pull) : option (bytes * queue) :=
  match getPull q pull with
  | [] => None
  | v :: l => Some (v, updatePull q pull l)
  end.

(** The index moves on after a removal, so the entry after a removed one stays. *)
Fixpoint pop_node (overlay : bytes) (l : list bytes) : list bytes :=
  match l with
  | [] => []
  | f :: l =>
      if bool_decide (f = overlay) then match l with [] => [] | g :: l => g :: pop_node overlay l end
      else f :: pop_node overlay l
  end.

Definition popNode (q : queue) (pull : Pull) (overlay : bytes) : queue :=
  updatePull q pull (pop_node overlay (getPull q pull)).

Definition push (q : queue) (pull : Pull) (overlay : bytes) : queue :=
  updatePull q pull (getPull q pull ++ [overlay]).

Definition isExists (q : queue) (pull : Pull) (overlay : bytes) : bool :=
  existsb (fun f => bool_decide (f = overlay)) (getPull q pull).

(** ** State *)

Record Discovery := {
  dRoot : Address;
  dCtxRoot : Address;                (* the root of the context *)
  dTargets : option (list Address);  (* the targets of the context *)
  dOracles : option (list Address);
  dChain : bool;
  dNodes : list Address;             (* what the chain answers *)
}.

Definition removeRepeatElement (l address : list Address) : list Address :=
  l ++ List.filter (fun over => negb (existsb (fun x => bool_decide (Boson.String x = Boson.String over)) l)) address.

(** The overlays to ask, [value] being those of an earlier search. *)
Definition discover_overlays (d : Discovery) (value : option (list Address)) : list Address :=
  let overlays := match value with Some l => l | None => if dChain d then dNodes d else [] end in
  match dOracles d with Some o => removeRepeatElement overlays o | None => overlays end.

Section ChunkInfo.
Context {S V : Type} `{ST : StateStorer S V} `{CB' : Codec BitVector V}.

(** A pointer to a queue is an index of [heap], a channel an index of [chans];
    the channels hold one message. *)
Record ChunkInfo := MkChunkInfo {
  addr : Address;
  found : gmap bytes (list Address);   (* the field [discover] *)
  queues : gmap bytes nat;
  heap : list queue;
  queuesLk : bool;
  syncMsg : gmap bytes nat;
  chans : list (option bool);
  trigger : gmap bytes Z;
  flights : gset bytes;                (* the keys of [singleflight] *)
  cstore : chunkStore (S := S);
}.

Definition set_found c x := MkChunkInfo (addr c) x (queues c) (heap c) (queuesLk c) (syncMsg c) (chans c) (trigger c) (flights c) (cstore c).
Definition set_queues c x := MkChunkInfo (addr c) (found c) x (heap c) (queuesLk c) (syncMsg c) (chans c) (trigger c) (flights c) (cstore c).
Definition set_heap c x := MkChunkInfo (addr c) (found c) (queues c) x (queuesLk c) (syncMsg c) (chans c) (trigger c) (flights c) (cstore c).
Definition set_lock c x := MkChunkInfo (addr c) (found c) (queues c) (heap c) x (syncMsg c) (chans c) (trigger c) (flights c) (cstore c).
Definition set_sync c x := MkChunkInfo (addr c) (found c) (queues c) (heap c) (queuesLk c) x (chans c) (trigger c) (flights c) (cstore c).
Definition set_chans c x := MkChunkInfo (addr c) (found c) (queues c) (heap c) (queuesLk c) (syncMsg c) x (trigger c) (flights c) (cstore c).
Definition set_trigger c x := MkChunkInfo (addr c) (found c) (queues c) (heap c) (queuesLk c) (syncMsg c) (chans c) x (flights c) (cstore c).
Definition set_flights c x := MkChunkInfo (addr c) (found c) (queues c) (heap c) (queuesLk c) (syncMsg c) (chans c) (trigger c) x (cstore c).
Definition set_cstore c x := MkChunkInfo (addr c) (found c) (queues c) (heap c) (queuesLk c) (syncMsg c) (chans c) (trigger c) (flights c) x.

Definition New (addr : Address) (cs : chunkStore (S := S)) : ChunkInfo :=
  MkChunkInfo addr ∅ ∅ [] false ∅ [] ∅ ∅ cs.

Definition getQueue (c : ChunkInfo) (root : Address) : option nat := queues c !! Boson.String root.

Definition trigger_key (root overlay : Address) : bytes := Boson.String root ++ str "_" ++ Boson.String overlay.

(** ** The tables of the chunk store *)

(** [None] is a panic. *)
Definition isDiscover (c : ChunkInfo) (root : Address) : option bool :=
  match ChunkStore.Get (cstore c) DISCOVER root with
  | Err panicked => None
  | Err _ | Ok [] => Some false
  | Ok _ => Some true
  end.

Definition isDownload (c : ChunkInfo) (root : Address) : bool :=
  match GetByOverlay (cstore c) SERVICE root (addr c) with
  | Err _ => false
  | Ok x => match NewFromBytes (CB x) (CLen x) with Err _ => false | Ok bv => Equals bv end
  end.

Definition updateDiscover (now : Z) (c : ChunkInfo) (root overlay : Address) (bv : bytes) : ChunkInfo * result chunkError unit :=
  let '(cs, r) := ChunkStore.Put now (cstore c) DISCOVER root [MkProvider overlay 0 (zlen bv * 8) bv 0] in
  (set_cstore c cs, r).

(** What is published to subscribers. *)
Inductive event :=
| RootCidAdded (root : Address)
| DownloadProgress (root : Address) (len : Z) (b : bytes)
| RetrievalProgress (root overlay : Address) (len : Z) (b : bytes).

Definition updateService (now : Z) (c : ChunkInfo) (root : Address) (index len : Z) (overlay : Address) :
    ChunkInfo * result chunkError (option event) :=
  match Has (cstore c) SERVICE root overlay with
  | Err e => (c, Err e)
  | Ok has =>
      match ChunkStore.Put now (cstore c) SERVICE root [MkProvider overlay index len [] 0] with
      | (cs, Err e) => (set_cstore c cs, Err e)
      | (cs, Ok _) =>
          match ChunkStore.Get cs SERVICE root with
          | Err panicked => (set_cstore c cs, Err panicked)
          | r =>
              let consumerList := match r with Ok l => l | Err _ => [] end in
              let consumer := default noConsumer (List.find (fun x => Equal (COverlay x) overlay) consumerList) in
              (set_cstore c cs,
               Ok (if negb has then if Equal overlay (addr c) then Some (RootCidAdded root) else None
                   else if Equal overlay (addr c) then Some (DownloadProgress root (CLen consumer) (CB consumer))
                   else Some (RetrievalProgress root overlay (CLen consumer) (CB consumer))))
          end
      end
  end.

(** Whether one of the vectors has the bit; a vector that is not well formed is a
    nil pointer. *)
Fixpoint any_source (sources : list Consumer) (index : Z) : result chunkError bool :=
  match sources with
  | [] => Ok false
  | s :: sources =>
      if CLen s <=? index then any_source sources index
      else
        match NewFromBytes (CB s) (CLen s) with
        | Err _ => Err panicked
        | Ok bv => x ← of_bits (BitVector.Get bv index); if x : bool then Ok true else any_source sources index
        end
  end.

Definition updateSource (now : Z) (c : ChunkInfo) (root : Address) (index len : Z) (sourceOverlay : Address) :
    ChunkInfo * result chunkError unit :=
  match ChunkStore.Get (cstore c) SOURCE root with
  | Err panicked => (c, Err panicked)
  | r =>
      match any_source (match r with Ok l => l | Err _ => [] end) index with
      | Err e => (c, Err e)
      | Ok true => (c, Ok tt)
      | Ok false =>
          let '(cs, r) := ChunkStore.Put now (cstore c) SOURCE root [MkProvider sourceOverlay index len [] 0] in
          (set_cstore c cs, r)
      end
  end.

Definition OnTransferred (now : Z) (c : ChunkInfo) (root : Address) (index : Z) (overlay : Address) :
    ChunkInfo * result chunkError (option event) :=
  updateService now c root index (i64 (index + 1)) overlay.

(** [rootLen] is the length in the context, 0 if there is none. *)
Definition OnRetrieved (now rootLen : Z) (c : ChunkInfo) (root : Address) (index : Z) (overlay : Address) :
    ChunkInfo * result chunkError unit :=
  let length := if rootLen =? 0 then i64 (index + 1) else rootLen in
  match updateService now c root index length (addr c) with
  | (c, Err e) => (c, Err e)
  | (c, Ok _) => updateSource now c root index (i64 (index + 1)) overlay
  end.

Fixpoint upload_from (now : Z) (c : ChunkInfo) (root : Address) (n : nat) (i length : Z) : ChunkInfo * result chunkError unit :=
  match n with
  | O => (c, Ok tt)
  | Datatypes.S n =>
      match updateService now c root i length (addr c) with
      | (c, Err e) => (c, Err e)
      | (c, Ok _) =>
          match updateSource now c root i length (addr c) with
          | (c, Err e) => (c, Err e)
          | (c, Ok _) => upload_from now c root n (i + 1) length
          end
      end
  end.

Definition OnFileUpload (now : Z) (c : ChunkInfo) (root : Address) (length : Z) : ChunkInfo * result chunkError unit :=
  upload_from now c root (Z.to_nat length) 0 length.

(** ** Routes to a chunk *)

Fixpoint provider_routes (consumerList : list Consumer) (bit : Z) : result chunkError (list Route) :=
  match consumerList with
  | [] => Ok []
  | c :: l =>
      if CLen c <=? bit then provider_routes l bit
      else
        bv ← of_bits (NewFromBytes (CB c) (CLen c));
        x ← of_bits (BitVector.Get bv bit);
        r ← provider_routes l bit;
        Ok (if x : bool then NewRoute (COverlay c) (COverlay c) :: r else r)
  end.

(** The routes over the neighbours of one target, and the link nodes so far. *)
Fixpoint link_routes (overlays : list Address) (target : Address) (seen : list Address) : list Route * list Address :=
  match overlays with
  | [] => ([], seen)
  | o :: overlays =>
      if bool_decide (Boson.String o ∈ map Boson.String seen) then link_routes overlays target seen
      else let '(r, seen) := link_routes overlays target (seen ++ [o]) in (NewRoute o target :: r, seen)
  end.

(** [neighbor] is [GetTargetNeighbor] of the routing service, [None] an error. *)
Fixpoint neighbor_routes (neighbor : Address -> option (list Address)) (routes : list Route) (seen : list Address) :
    list Route * list Address :=
  match routes with
  | [] => ([], seen)
  | route :: routes =>
      let '(r, seen) := link_routes (default [] (neighbor (TargetNode route))) (TargetNode route) seen in
      let '(r', seen) := neighbor_routes neighbor routes seen in
      (r ++ r', seen)
  end.

Definition addRoutes (neighbor : Address -> option (list Address)) (routes : list Route) : list Route :=
  match routes with
  | [] => []
  | _ =>
      let '(res, seen) := neighbor_routes neighbor routes [] in
      match res with
      | [] => routes
      | _ => res ++ List.filter (fun r => negb (bool_decide (Boson.String (LinkNode r) ∈ map Boson.String seen))) routes
      end
  end.

Definition getRoutes (neighbor : Address -> option (list Address)) (c : ChunkInfo) (root : Address) (bit : Z) :
    result chunkError (list Route) :=
  consumerList ← ChunkStore.Get (cstore c) DISCOVER root;
  res ← provider_routes consumerList bit;
  Ok (addRoutes neighbor res).

(** [None] is a panic. *)
Definition FindRoutes (neighbor : Address -> option (list Address)) (c : ChunkInfo) (root : Address) (index : Z) :
    option (list Route) :=
  match getRoutes neighbor c root index with
  | Ok l => Some l
  | Err panicked => None
  | Err _ => Some []
  end.

(** ** Messages *)

Record ChunkInfoReq := { iqRoot : Address; iqTarget : Address; iqReq : Address }.

(** [ipPresence] in the order in which it is iterated over. *)
Record ChunkInfoResp := { ipRoot : Address; ipTarget : Address; ipReq : Address; ipPresence : list (bytes * bytes) }.

Inductive message := SendReq (r : ChunkInfoReq) | SendResp (r : ChunkInfoResp).

Definition createChunkInfoReq (root target req : Address) : ChunkInfoReq := {| iqRoot := root; iqTarget := target; iqReq := req |}.

(** A request is answered by its target and passed on by others. *)
Definition onChunkInfoReq (c : ChunkInfo) (overlay : Address) (req : ChunkInfoReq) : result chunkError (Address * message) :=
  consumerList ← ChunkStore.Get (cstore c) SERVICE (iqRoot req);
  Ok (overlay, SendResp {| ipRoot := iqRoot req; ipTarget := iqTarget req; ipReq := iqReq req;
        ipPresence := map_to_list (list_to_map (rev (map (fun x => (Boson.String (COverlay x), CB x)) consumerList)) : gmap bytes bytes) |}).

Definition handlerChunkInfoReq (c : ChunkInfo) (peer : Address) (req : ChunkInfoReq) : result chunkError (Address * message) :=
  if Equal (iqTarget req) (addr c) then onChunkInfoReq c peer req
  else Ok (iqTarget req, SendReq req).

(** [connect], [neighbor] and [send] are the answers of the routing and the
    network: the node that got the message, [None] for an error. *)
Fixpoint send_first (send : Address -> bool) (overlays : list Address) : option Address :=
  match overlays with
  | [] => None
  | o :: overlays => if send o then Some o else send_first send overlays
  end.

Definition sendDatas (connect : Address -> bool) (neighbor : Address -> option (list Address)) (send : Address -> bool)
    (address : Address) : option Address :=
  if connect address then (if send address then Some address else None)
  else overlays ← neighbor address; send_first send overlays.

(** ** Threads *)

Definition TimeOut : Z := 30.
Definition underscore : Z := 95.

(** The time, and the entry of the timeouts that the iteration reaches first. *)
Record Env := { now : Z; first_key : bytes }.

Inductive pc :=
(* [Discover] *)
| DIsDiscover (d : Discovery)
| DIsDownload (d : Discovery)
| DLoad (d : Discovery)
| DStore (d : Discovery) (overlays : list Address)
| DDropQueue (root : Address) (overlays : list Address)
| DDropFinder (root : Address) (overlays : list Address)
(* [FindChunkInfo], [findChunkInfo] *)
| FSync (root : Address) (overlays : list Address)
| FFinder (root : Address) (ch : nat) (overlays : list Address)
| FQueue (root : Address) (ch : nat) (overlays : list Address)
| FNewQueue (root : Address) (ch : nat) (overlays : list Address)
| FExists (root : Address) (ch : nat) (pull : Pull) (overlay : Address) (overlays : list Address)
| FPush (root : Address) (ch : nat) (overlay : Address) (overlays : list Address)
| FGo (root : Address) (ch : nat)
| FWait (root : Address) (ch : nat)
| FDelete (root : Address) (msg : bool)
(* [onFindChunkInfo] *)
| RTrigger (root overlay : Address) (info : list (bytes * bytes))
| RLoad (root overlay : Address) (info : list (bytes * bytes))
| RSend (ch : nat) (root overlay : Address) (info : list (bytes * bytes))
| RFinder (root overlay : Address) (info : list (bytes * bytes))
| RUpdate (root overlay : Address) (bv : bytes) (info : list (bytes * bytes))
(* [updateQueue] *)
| UQueue (root overlay : Address) (info : list (bytes * bytes))
| ULen (q : nat) (root overlay over : Address) (info : list (bytes * bytes))
| UExists (q : nat) (pull : Pull) (root overlay over : Address) (info : list (bytes * bytes))
| UPush (q : nat) (root overlay over : Address) (info : list (bytes * bytes))
| UPop (q : nat) (root overlay : Address)
| UPulled (q : nat) (root overlay : Address)
(* [queueProcess] *)
| QLock (root : Address)
| QFinder (root : Address)
| QQueue (root : Address)
| QPulled (q : nat) (root : Address)
| QPulling (q : nat) (root : Address) (pulled : nat)
| QRoom (q : nat) (root : Address)
| QCompare (q : nat) (root : Address) (n : nat)
| QCount (q : nat) (root : Address)
| QPop (q : nat) (root : Address) (n : nat)
| QPush (q : nat) (root : Address) (n : nat) (unNode : bytes)
| QTrigger (q : nat) (root : Address) (n : nat) (unNode : bytes)
| QSend (q : nat) (root : Address) (n : nat) (unNode : bytes)
| QUnlock
(* the worker of [triggerTimeOut] *)
| TTick
| TQueue (root overlay : Address)
| TLoad (q : nat) (root overlay : Address)
| TSend (ch q : nat) (root overlay : Address)
| TPop (q : nat) (root overlay : Address)
| TPush (q : nat) (root overlay : Address)
| TRemove (root overlay : Address)
(* [CancelFindChunkInfo] *)
| CQueue (root : Address)
| CFinder (root : Address).

Inductive next := Run (p : pc) | Finished (v : option bool) | Panicked.

(** The new state, how the thread goes on, a goroutine it starts, a request it sends. *)
Definition step_out : Type := ChunkInfo * next * option pc * option (Address * ChunkInfoReq).

Definition goes (c : ChunkInfo) (p : pc) : option step_out := Some (c, Run p, None, None).
Definition ends (c : ChunkInfo) (v : option bool) : option step_out := Some (c, Finished v, None, None).
Definition panics (c : ChunkInfo) : option step_out := Some (c, Panicked, None, None).

(** An operation on the queue at a pointer; a nil pointer panics. *)
Definition with_queue (c : ChunkInfo) (q : option nat) (f : queue -> option step_out) : option step_out :=
  match q ≫= fun q => heap c !! q with Some x => f x | None => panics c end.

Definition set_queue (c : ChunkInfo) (q : nat) (x : queue) : ChunkInfo := set_heap c (<[q := x]> (heap c)).

(** The loop of [findChunkInfo]. *)
Definition next_overlay (root : Address) (ch : nat) (overlays : list Address) : pc :=
  match overlays with
  | [] => FGo root ch
  | overlay :: overlays => FExists root ch UnPull overlay overlays
  end.

(** The loop of [updateQueue]. *)
Fixpoint next_over (self : Address) (q : nat) (root overlay : Address) (info : list (bytes * bytes)) : next :=
  match info with
  | [] => Run (UPop q root overlay)
  | (over, _) :: info =>
      match ParseHexAddress over with
      | Err _ => Panicked
      | Ok o => if Equal o self then next_over self q root overlay info else Run (ULen q root overlay o info)
      end
  end.

(** The key of a timeout as the addresses it is made of, [None] for a panic. *)
Definition parse_trigger (key : bytes) : option (Address * Address) :=
  match split_at underscore key [] with
  | r :: o :: _ =>
      match ParseHexAddress r, ParseHexAddress o with Ok r, Ok o => Some (r, o) | _, _ => None end
  | _ => None
  end.

(** The end of [Discover] for a file. *)
Definition discovered (c : ChunkInfo) (root : Address) (v : bool) : option step_out :=
  ends (set_flights c (flights c ∖ {[Boson.String root]})) (Some v).

Definition discover_step (e : Env) (c : ChunkInfo) (p : pc) : option step_out :=
  match p with
  | DIsDiscover d =>
      match isDiscover c (dRoot d) with
      | None => panics c
      | Some true => discovered c (dRoot d) true
      | Some false => goes c (DIsDownload d)
      end
  | DIsDownload d => if isDownload c (dRoot d) then discovered c (dRoot d) true else goes c (DLoad d)
  | DLoad d =>
      match dTargets d with
      | Some overlays => goes c (DDropQueue (dRoot d) overlays)
      | None =>
          match discover_overlays d (found c !! Boson.String (dCtxRoot d)) with
          | [] => discovered c (dRoot d) false
          | overlays => goes c (DStore d overlays)
          end
      end
  | DStore d overlays =>
      goes (set_found c (<[Boson.String (dCtxRoot d) := overlays]> (found c))) (DDropQueue (dRoot d) overlays)
  | DDropQueue root overlays => goes (set_queues c (delete (Boson.String root) (queues c))) (DDropFinder root overlays)
  | DDropFinder root overlays => goes (set_cstore c (CancelFinder (cstore c) root)) (FSync root overlays)
  | _ => None
  end.

Definition find_step (e : Env) (c : ChunkInfo) (p : pc) : option step_out :=
  match p with
  | FSync root overlays =>
      let ch := length (chans c) in
      goes (set_chans (set_sync c (<[Boson.String root := ch]> (syncMsg c))) (chans c ++ [None])) (FFinder root ch overlays)
  | FFinder root ch overlays => goes (set_cstore c (StartFinder (cstore c) root)) (FQueue root ch overlays)
  | FQueue root ch overlays =>
      goes c (match getQueue c root with None => FNewQueue root ch overlays | Some _ => next_overlay root ch overlays end)
  | FNewQueue root ch overlays =>
      goes (set_heap (set_queues c (<[Boson.String root := length (heap c)]> (queues c))) (heap c ++ [emptyQueue]))
        (next_overlay root ch overlays)
  | FExists root ch pull overlay overlays =>
      with_queue c (getQueue c root) (fun x =>
        goes c (if isExists x pull overlay then next_overlay root ch overlays
                else match pull with
                     | UnPull => FExists root ch Pulling overlay overlays
                     | Pulling => FExists root ch Pulled overlay overlays
                     | Pulled => FPush root ch overlay overlays
                     end))
  | FPush root ch overlay overlays =>
      match getQueue c root with
      | None => panics c
      | Some q => with_queue c (Some q) (fun x => goes (set_queue c q (push x UnPull overlay)) (next_overlay root ch overlays))
      end
  | FGo root ch => Some (c, Run (FWait root ch), Some (QLock root), None)
  | FWait root ch =>
      match chans c !! ch with
      | Some (Some msg) => goes (set_chans c (<[ch := None]> (chans c))) (FDelete root msg)
      | _ => None
      end
  | FDelete root msg => discovered (set_sync c (delete (Boson.String root) (syncMsg c))) root msg
  | _ => None
  end.

Definition answer_step (e : Env) (c : ChunkInfo) (p : pc) : option step_out :=
  match p with
  | RTrigger root overlay info => goes (set_trigger c (delete (trigger_key root overlay) (trigger c))) (RLoad root overlay info)
  | RLoad root overlay info =>
      goes c (match syncMsg c !! Boson.String root with Some ch => RSend ch root overlay info | None => RFinder root overlay info end)
  | RSend ch root overlay info =>
      match chans c !! ch with
      | Some None => goes (set_chans c (<[ch := Some true]> (chans c))) (RFinder root overlay info)
      | _ => None
      end
  | RFinder root overlay info =>
      goes c (match (list_to_map (rev info) : gmap bytes bytes) !! Boson.String overlay with
              | Some bv => if IsFinder (cstore c) root then RUpdate root overlay bv info else UQueue root overlay info
              | None => UQueue root overlay info
              end)
  | RUpdate root overlay bv info =>
      match updateDiscover (now e) c root overlay bv with
      | (c, Err panicked) => panics c
      | (c, _) => goes c (UQueue root overlay info)
      end
  | _ => None
  end.

Definition update_step (e : Env) (c : ChunkInfo) (p : pc) : option step_out :=
  match p with
  | UQueue root overlay info =>
      match getQueue c root with
      | None => goes c (QLock root)
      | Some q => Some (c, next_over (addr c) q root overlay info, None, None)
      end
  | ULen q root overlay over info =>
      with_queue c (Some q) (fun x =>
        goes c (if (PullerMax <=? length (qUnPull x))%nat then UPop q root overlay else UExists q Pulled root overlay over info))
  | UExists q pull root overlay over info =>
      with_queue c (Some q) (fun x =>
        if isExists x pull over then Some (c, next_over (addr c) q root overlay info, None, None)
        else goes c (match pull with
                     | Pulled => UExists q Pulling root overlay over info
                     | Pulling => UExists q UnPull root overlay over info
                     | UnPull => UPush q root overlay over info
                     end))
  | UPush q root overlay over info =>
      with_queue c (Some q) (fun x =>
        Some (set_queue c q (push x UnPull over), next_over (addr c) q root overlay info, None, None))
  | UPop q root overlay => with_queue c (Some q) (fun x => goes (set_queue c q (popNode x Pulling overlay)) (UPulled q root overlay))
  | UPulled q root overlay => with_queue c (Some q) (fun x => goes (set_queue c q (push x Pulled overlay)) (QLock root))
  | _ => None
  end.

Definition queue_step (e : Env) (c : ChunkInfo) (p : pc) : option step_out :=
  match p with
  | QLock root => if queuesLk c then None else goes (set_lock c true) (QFinder root)
  | QFinder root => goes c (if IsFinder (cstore c) root then QQueue root else QUnlock)
  | QQueue root => goes c (match getQueue c root with Some q => QPulled q root | None => QUnlock end)
  | QPulled q root => with_queue c (Some q) (fun x => goes c (QPulling q root (length (qPulled x))))
  | QPulling q root pulled =>
      with_queue c (Some q) (fun x =>
        goes c (if (PullMax <=? pulled + length (qPulling x))%nat then QUnlock else QRoom q root))
  | QRoom q root =>
      with_queue c (Some q) (fun x =>
        let pullingLen := length (qPulling x) in
        goes c (if (PullingMax <=? pullingLen)%nat then QUnlock else QCompare q root (PullingMax - pullingLen)))
  | QCompare q root n =>
      with_queue c (Some q) (fun x => goes c (if (length (qUnPull x) <? n)%nat then QCount q root else QPop q root n))
  | QCount q root => with_queue c (Some q) (fun x => goes c (QPop q root (length (qUnPull x))))
  | QPop q root O => goes c QUnlock
  | QPop q root (Datatypes.S n) =>
      with_queue c (Some q) (fun x =>
        match pop x UnPull with
        | None => panics c
        | Some (unNode, x) => goes (set_queue c q x) (QPush q root n unNode)
        end)
  | QPush q root n unNode =>
      with_queue c (Some q) (fun x => goes (set_queue c q (push x Pulling unNode)) (QTrigger q root n unNode))
  | QTrigger q root n unNode =>
      goes (set_trigger c (<[trigger_key root unNode := now e]> (trigger c))) (QSend q root n unNode)
  | QSend q root n unNode =>
      Some (c, Run (QPop q root n), None, Some (unNode, createChunkInfoReq root unNode (addr c)))
  | QUnlock => ends (set_lock c false) None
  | _ => None
  end.

Definition timeout_step (e : Env) (c : ChunkInfo) (p : pc) : option step_out :=
  match p with
  | TTick =>
      match trigger c !! first_key e with
      | Some t =>
          if t + TimeOut <=? now e then
            match parse_trigger (first_key e) with
            | None => panics c
            | Some (root, overlay) => goes c (if Equal root [] then TTick else TQueue root overlay)
            end
          else goes c TTick
      | None => goes c TTick
      end
  | TQueue root overlay =>
      goes c (match getQueue c root with Some q => TLoad q root overlay | None => TRemove root overlay end)
  | TLoad q root overlay =>
      goes c (match syncMsg c !! Boson.String root with Some ch => TSend ch q root overlay | None => TPop q root overlay end)
  | TSend ch q root overlay =>
      match chans c !! ch with
      | Some None => goes (set_chans c (<[ch := Some false]> (chans c))) (TPop q root overlay)
      | _ => None
      end
  | TPop q root overlay => with_queue c (Some q) (fun x => goes (set_queue c q (popNode x Pulling overlay)) (TPush q root overlay))
  | TPush q root overlay => with_queue c (Some q) (fun x => goes (set_queue c q (push x UnPull overlay)) TTick)
  | TRemove root overlay => goes (set_trigger c (delete (trigger_key root overlay) (trigger c))) TTick
  | _ => None
  end.

Definition cancel_step (e : Env) (c : ChunkInfo) (p : pc) : option step_out :=
  match p with
  | CQueue root => goes (set_queues c (delete (Boson.String root) (queues c))) (CFinder root)
  | CFinder root => ends (set_cstore c (CancelFinder (cstore c) root)) None
  | _ => None
  end.

Definition tstep (e : Env) (c : ChunkInfo) (p : pc) : option step_out :=
  match p with
  | DIsDiscover _ | DIsDownload _ | DLoad _ | DStore _ _ | DDropQueue _ _ | DDropFinder _ _ => discover_step e c p
  | FSync _ _ | FFinder _ _ _ | FQueue _ _ _ | FNewQueue _ _ _ | FExists _ _ _ _ _ | FPush _ _ _ _ | FGo _ _ | FWait _ _
  | FDelete _ _ => find_step e c p
  | RTrigger _ _ _ | RLoad _ _ _ | RSend _ _ _ _ | RFinder _ _ _ | RUpdate _ _ _ _ => answer_step e c p
  | UQueue _ _ _ | ULen _ _ _ _ _ | UExists _ _ _ _ _ _ | UPush _ _ _ _ _ | UPop _ _ _ | UPulled _ _ _ => update_step e c p
  | QLock _ | QFinder _ | QQueue _ | QPulled _ _ | QPulling _ _ _ | QRoom _ _ | QCompare _ _ _ | QCount _ _ | QPop _ _ _
  | QPush _ _ _ _ | QTrigger _ _ _ _ | QSend _ _ _ _ | QUnlock => queue_step e c p
  | TTick | TQueue _ _ | TLoad _ _ _ | TSend _ _ _ _ | TPop _ _ _ | TPush _ _ _ | TRemove _ _ => timeout_step e c p
  | CQueue _ | CFinder _ => cancel_step e c p
  end.

(** An answer to a request of this node starts a thread, others are passed on. *)
Definition handlerChunkInfoResp (c : ChunkInfo) (resp : ChunkInfoResp) : pc + (Address * message) :=
  if Equal (ipReq resp) (addr c) then inl (RTrigger (ipRoot resp) (ipTarget resp) (ipPresence resp))
  else inr (ipReq resp, SendResp resp).
End ChunkInfo.

Arguments ChunkInfo S : clear implicits.
