(* ===== verification/ChunkInfoRuns.v ===== *)
(** * Interleavings of searches, answers and timeouts

    The threads of [ChunkInfo] run in any order.  [chunkinfo_safe]: as long as
    nobody cancels a search and answers name peers by hexadecimal addresses, no
    thread panics, although queues are shared under several locks.  The other
    theorems are runs that go wrong: a search that is cancelled
    ([cancel_panics]), an answer with a malformed name ([answer_panics]), more
    requests than the limit ([pulling_exceeded]), and the worker of the timeouts
    blocked for ever ([worker_blocked]). *)

From Stdlib Require Import ZArith Lia ZifyBool.
From stdpp Require Import base gmap list numbers strings.
From S2P Require Import Prelude Cheque StateStore AddressBook Boson BitVector ChunkStore Aco ChunkInfo.

Open Scope Z_scope.

(** ** The system *)

Section System.
Context {S V : Type} `{ST : StateStorer S V} `{CB' : Codec BitVector V}.

Record sys := MkSys { ci : ChunkInfo S; threads : gmap nat pc; crashed : bool }.

Definition resume (i : nat) (nx : next) (m : gmap nat pc) : gmap nat pc :=
  match nx with Run p => <[i := p]> m | Finished _ => delete i m | Panicked => m end.

Definition spawn (j : nat) (p : option pc) (m : gmap nat pc) : gmap nat pc :=
  match p with Some p => <[j := p]> m | None => m end.

Definition is_panic (nx : next) : bool := match nx with Panicked => true | _ => false end.

(** One step of the thread [i]; a goroutine it starts gets the number [j]. *)
Definition sys_step (e : Env) (i j : nat) (s : sys) : option sys :=
  if crashed s then None
  else
    p ← threads s !! i;
    '(c, nx, sp, _) ← tstep e (ci s) p;
    match threads s !! j with
    | Some _ => None
    | None => Some (MkSys c (spawn j sp (resume i nx (threads s))) (is_panic nx))
    end.

Definition start (j : nat) (p : pc) (s : sys) : sys := MkSys (ci s) (<[j := p]> (threads s)) (crashed s).

Definition name_ok (name : bytes) : Prop := exists o, bytes_ok o /\ name = Boson.String o.

Definition info_ok (info : list (bytes * bytes)) : Prop := Forall (fun x => name_ok x.1 /\ bytes_ok x.2) info.

Record discovery_ok (d : Discovery) : Prop := {
  do_root : bytes_ok (dRoot d);
  do_targets : Forall bytes_ok (default [] (dTargets d));
  do_oracles : Forall bytes_ok (default [] (dOracles d));
  do_nodes : Forall bytes_ok (dNodes d);
}.

(** [cancels]: searches may be cancelled; [malformed]: answers may name peers by
    strings that are not hexadecimal. *)
Inductive sstep (cancels malformed : bool) (s : sys) : sys -> Prop :=
| s_run e i j s' : sys_step e i j s = Some s' -> sstep cancels malformed s s'
| s_discover d j : threads s !! j = None -> Boson.String (dRoot d) ∉ flights (ci s) -> discovery_ok d ->
    sstep cancels malformed s (start j (DIsDiscover d)
      (MkSys (set_flights (ci s) ({[Boson.String (dRoot d)]} ∪ flights (ci s))) (threads s) (crashed s)))
| s_answer root overlay info j : threads s !! j = None -> bytes_ok root -> bytes_ok overlay ->
    (malformed = false -> info_ok info) -> sstep cancels malformed s (start j (RTrigger root overlay info) s)
| s_cancel root j : cancels = true -> threads s !! j = None -> sstep cancels malformed s (start j (CQueue root) s)
| s_store o : op_ok o -> sstep cancels malformed s (MkSys (set_cstore (ci s) (exec (cstore (ci s)) o).1) (threads s) (crashed s)).

Definition init (a : Address) (st : S) : sys := MkSys (New a (ChunkStore.New st)) {[0%nat := TTick]} false.

(** ** What each thread relies on *)

(** Whether a thread holds [queuesLk]. *)
Definition holds (p : pc) : bool :=
  match p with
  | QFinder _ | QQueue _ | QPulled _ _ | QPulling _ _ _ | QRoom _ _ | QCompare _ _ _ | QCount _ _
  | QPop _ _ _ | QPush _ _ _ _ | QTrigger _ _ _ _ | QSend _ _ _ _ | QUnlock => true
  | _ => false
  end.

(** The file whose search a thread is. *)
Definition flight (p : pc) : option bytes :=
  match p with
  | DIsDiscover d | DIsDownload d | DLoad d | DStore d _ => Some (Boson.String (dRoot d))
  | DDropQueue root _ | DDropFinder root _ | FSync root _ | FFinder root _ _ | FQueue root _ _ | FNewQueue root _ _
  | FExists root _ _ _ _ | FPush root _ _ _ | FGo root _ | FWait root _ | FDelete root _ => Some (Boson.String root)
  | _ => None
  end.

(** The data of a thread are bytes. *)
Definition pc_data (p : pc) : Prop :=
  match p with
  | DIsDiscover d | DIsDownload d | DLoad d => discovery_ok d
  | DStore d overlays => discovery_ok d /\ Forall bytes_ok overlays
  | DDropQueue root overlays | DDropFinder root overlays | FSync root overlays | FFinder root _ overlays
  | FQueue root _ overlays | FNewQueue root _ overlays => bytes_ok root /\ Forall bytes_ok overlays
  | FExists root _ _ overlay overlays | FPush root _ overlay overlays => bytes_ok root /\ Forall bytes_ok (overlay :: overlays)
  | FGo root _ | FWait root _ | FDelete root _ => bytes_ok root
  | RTrigger root overlay info | RLoad root overlay info | RSend _ root overlay info | RFinder root overlay info
  | UQueue root overlay info => bytes_ok root /\ bytes_ok overlay /\ info_ok info
  | RUpdate root overlay bv info => bytes_ok root /\ bytes_ok overlay /\ bytes_ok bv /\ info_ok info
  | ULen _ root overlay over info | UExists _ _ root overlay over info | UPush _ root overlay over info =>
      bytes_ok root /\ bytes_ok overlay /\ bytes_ok over /\ info_ok info
  | UPop _ root overlay | UPulled _ root overlay => bytes_ok root /\ bytes_ok overlay
  | QLock root | QFinder root | QQueue root | QPulled _ root | QPulling _ root _ | QRoom _ root | QCompare _ root _
  | QCount _ root | QPop _ root _ => bytes_ok root
  | QPush _ root _ unNode | QTrigger _ root _ unNode | QSend _ root _ unNode => bytes_ok root /\ bytes_ok unNode
  | TQueue root overlay | TLoad _ root overlay | TSend _ _ root overlay | TPop _ root overlay | TPush _ root overlay
  | TRemove root overlay => bytes_ok root /\ bytes_ok overlay
  | QUnlock | TTick => True
  | CQueue _ | CFinder _ => False
  end.

Definition points (c : ChunkInfo S) (q : nat) : Prop := (q < length (heap c))%nat.

(** There are [n] peers left to ask. *)
Definition enough (c : ChunkInfo S) (q n : nat) : Prop := exists x, heap c !! q = Some x /\ (n <= length (qUnPull x))%nat.

(** The pointers of a thread, and the peers the holder of the lock has counted. *)
Definition pc_ref (c : ChunkInfo S) (p : pc) : Prop :=
  match p with
  | FExists root _ _ _ _ | FPush root _ _ _ => is_Some (getQueue c root)
  | ULen q _ _ _ _ | UExists q _ _ _ _ _ | UPush q _ _ _ _ | UPop q _ _ | UPulled q _ _
  | QPulled q _ | QPulling q _ _ | QRoom q _ | QCount q _
  | TLoad q _ _ | TSend _ q _ _ | TPop q _ _ | TPush q _ _ => points c q
  | QCompare q _ _ => points c q
  | QPop q _ n | QPush q _ n _ | QTrigger q _ n _ | QSend q _ n _ => enough c q n
  | _ => True
  end.

Definition queue_ok (x : queue) : Prop := Forall bytes_ok (qUnPull x) /\ Forall bytes_ok (qPulling x) /\ Forall bytes_ok (qPulled x).

Definition disc_ok (m : table discoverBitVector) : Prop :=
  forall r row name d, m !! r = Some row -> row !! name = Some d -> name_ok name /\ wf (dbit d).

Record state_ok (c : ChunkInfo S) : Prop := {
  so_heap : Forall queue_ok (heap c);
  so_queues : map_Forall (fun _ q => points c q) (queues c);
  so_found : map_Forall (fun _ l => Forall bytes_ok l) (found c);
  so_trigger : forall k t, trigger c !! k = Some t -> exists r o, bytes_ok r /\ bytes_ok o /\ k = trigger_key r o;
  so_disc : disc_ok (discover (cstore c));
}.

(** ** How a step changes the state *)

(** Queues stay, and only the holder of the lock takes peers from them; the
    entry of a file is removed by its search alone. *)
Record evolves (p : pc) (c c' : ChunkInfo S) : Prop := {
  ev_heap : forall q x, heap c !! q = Some x -> exists x', heap c' !! q = Some x' /\
    (holds p = false -> (length (qUnPull x) <= length (qUnPull x'))%nat);
  ev_queues : forall k, is_Some (queues c !! k) -> flight p <> Some k -> is_Some (queues c' !! k);
}.

Lemma evolves_same p c c' : heap c' = heap c -> queues c' = queues c -> evolves p c c'.
Proof. intros Hh Hq. split; rewrite ?Hh, ?Hq; eauto. Qed.

Lemma evolves_queue p c q x x' : heap c !! q = Some x ->
  (holds p = false -> (length (qUnPull x) <= length (qUnPull x'))%nat) -> evolves p c (set_queue c q x').
Proof.
  intros Hx Hl. split; [|by intros]. intros q' y Hy. cbn [set_queue set_heap heap].
  destruct (decide (q = q')) as [->|Hne].
  - rewrite list_lookup_insert_eq by (by eapply lookup_lt_Some). exists x'. split; [done|]. by simplify_eq.
  - rewrite list_lookup_insert_ne by done. eauto.
Qed.

Lemma points_lookup c q : points c q <-> is_Some (heap c !! q).
Proof. unfold points. by rewrite lookup_lt_is_Some. Qed.

Lemma points_evolves p c c' q : evolves p c c' -> points c q -> points c' q.
Proof.
  intros Hev. rewrite !points_lookup. intros [x Hx]. destruct (ev_heap _ _ _ Hev q x Hx) as (x' & Hx' & _). eauto.
Qed.

Lemma enough_evolves p c c' q n : evolves p c c' -> holds p = false -> enough c q n -> enough c' q n.
Proof.
  intros Hev Hp (x & Hx & Hn). destruct (ev_heap _ _ _ Hev q x Hx) as (x' & Hx' & Hl). exists x'. split; [done|].
  specialize (Hl Hp). lia.
Qed.

Lemma pc_ref_evolves p c c' p' : evolves p c c' -> (holds p' = true -> holds p = false) ->
  (flight p' <> None -> flight p <> flight p') -> pc_ref c p' -> pc_ref c' p'.
Proof.
  intros Hev Hh Hf. destruct p'; cbn [pc_ref]; try done; try (by eapply points_evolves);
    try (eapply enough_evolves; [done|by apply Hh]).
  all: intros Hq; apply (ev_queues _ _ _ Hev); [done|by apply Hf].
Qed.

Definition next_holds (nx : next) : bool := match nx with Run p => holds p | _ => false end.

Record stepped (c : ChunkInfo S) (p : pc) (c' : ChunkInfo S) (nx : next) (sp : option pc) : Prop := {
  st_panic : nx <> Panicked;
  st_state : state_ok c';
  st_next p' : nx = Run p' -> pc_data p' /\ pc_ref c' p' /\ flight p' = flight p;
  st_spawn p' : sp = Some p' -> pc_data p' /\ pc_ref c' p' /\ holds p' = false /\ flight p' = None;
  st_evolves : evolves p c c';
  st_lock : queuesLk c' = (if next_holds nx then true else if holds p then false else queuesLk c);
  st_free : next_holds nx = true -> holds p = false -> queuesLk c = false;
  st_flights : flights c' = match nx, flight p with Finished _, Some f => flights c ∖ {[f]} | _, _ => flights c end;
}.

Lemma stepped_run c p c' p' : state_ok c' -> evolves p c c' -> queuesLk c' = queuesLk c -> flights c' = flights c ->
  (holds p = true -> queuesLk c = true) -> holds p' = holds p -> flight p' = flight p -> pc_data p' -> pc_ref c' p' ->
  stepped c p c' (Run p') None.
Proof.
  intros Hc Hev Hl Hf Hlock Hh Hfl Hd Hr. split; try done; try (by intros ? [= <-]).
  - cbn [next_holds]. rewrite Hh, Hl. destruct (holds p); [by apply Hlock|done].
  - cbn [next_holds]. congruence.
Qed.

Lemma stepped_goes c p p' : state_ok c -> (holds p = true -> queuesLk c = true) -> holds p' = holds p ->
  flight p' = flight p -> pc_data p' -> pc_ref c p' -> stepped c p c (Run p') None.
Proof. intros. apply stepped_run; try done. by apply evolves_same. Qed.

(** A step on a queue by a thread that does not hold the lock, or that keeps it. *)
Lemma stepped_queue c p p' q x x' : state_ok c -> heap c !! q = Some x -> queue_ok x' ->
  (holds p = false -> (length (qUnPull x) <= length (qUnPull x'))%nat) -> (holds p = true -> queuesLk c = true) ->
  holds p' = holds p -> flight p' = flight p -> pc_data p' -> pc_ref (set_queue c q x') p' ->
  stepped c p (set_queue c q x') (Run p') None.
Proof.
  intros Hc Hx Hok Hl. intros. apply stepped_run; try done; [|by eapply evolves_queue].
  destruct Hc as [Hh Hq Hf Ht Hd]. split; try done; cbn [set_queue set_heap heap queues].
  - by apply Forall_insert.
  - intros k q' Hk. unfold points. cbn [set_queue set_heap heap]. rewrite length_insert. by apply (Hq k).
Qed.

(** ** The table of answers *)

Lemma disc_ok_put m r o d : disc_ok m -> bytes_ok o -> wf (dbit d) -> disc_ok (put_entry m r o d).
Proof.
  intros Hm Ho Hd r' row name d'. unfold put_entry. rewrite lookup_insert_Some.
  intros [[<- <-]|[_ Hrow]] Hn; [|by apply (Hm r' row)].
  apply lookup_insert_Some in Hn as [[<- <-]|[_ Hn]]; [split; [by exists o|done]|].
  destruct (m !! _) as [row|] eqn:Hrow; [by apply (Hm _ row name d' Hrow)|cbn in Hn; by rewrite lookup_empty in Hn].
Qed.

Lemma disc_ok_delete m r : disc_ok m -> disc_ok (delete r m).
Proof. intros Hm r' row name d Hr. apply lookup_delete_Some in Hr as [_ Hr]. by apply (Hm r' row). Qed.

Lemma disc_ok_delete_entry m r o : disc_ok m -> disc_ok (delete_entry m r o).
Proof.
  intros Hm r' row name d. unfold delete_entry. destruct (decide (Boson.String r = r')) as [<-|Hne].
  - rewrite lookup_alter_eq. intros Hr Hn. apply fmap_Some in Hr as (row' & Hr & ->).
    apply lookup_delete_Some in Hn as [_ Hn]. by apply (Hm _ row' name d Hr).
  - rewrite lookup_alter_ne by done. apply Hm.
Qed.

Lemma disc_ok_find m r o d : disc_ok m -> find m r o = Some d -> wf (dbit d).
Proof. intros Hm Hf. apply bind_Some in Hf as (row & Hr & Hn). by apply (Hm _ _ _ _ Hr Hn). Qed.

Lemma SetBytes_safe bv bs : bytes_ok (b bv) -> bytes_ok bs -> SetBytes bv bs <> Err panicIndex.
Proof.
  intros Hb Hbs. destruct (decide (length bs <= length (b bv))%nat) as [Hl|Hl].
  - destruct (SetBytes_bits bv bs Hb Hbs Hl) as (? & -> & _). done.
  - unfold SetBytes. rewrite (proj2 (Z.ltb_lt (zlen (b bv)) (zlen bs))) by lia. done.
Qed.

Lemma of_bits_safe {A} (r : result bitError A) : r <> Err panicIndex -> of_bits r <> Err panicked.
Proof. destruct r as [|[]]; done. Qed.

Lemma merged_bits_safe old bs l : (forall bv, old = Some bv -> wf bv) -> bytes_ok bs -> merged_bits old bs l <> Err panicked.
Proof.
  intros Hold Hbs. unfold merged_bits.
  assert (Hnew : NewFromBytes bs l <> Err panicIndex) by (unfold NewFromBytes; repeat case_match; done).
  destruct old as [bv|]; [|by apply of_bits_safe]. destruct (Hold bv eq_refl) as [_ Hb].
  destruct (Len bv <? l); [|by apply of_bits_safe, SetBytes_safe].
  destruct (NewFromBytes bs l) as [nb|[]] eqn:En; try done. cbn [of_bits mbind result_bind].
  apply of_bits_safe, SetBytes_safe; [|done]. by apply (NewFromBytes_Ok _ _ _ Hbs) in En as ([_ Hnb] & _).
Qed.

Lemma putDiscover_safe now (cs : chunkStore (S := S)) r o bs l cs' x : disc_ok (discover cs) -> bytes_ok o -> bytes_ok bs ->
  putDiscover now cs r o bs l = (cs', x) -> disc_ok (discover cs') /\ x <> Err panicked.
Proof.
  intros Hd Ho Hbs. unfold putDiscover.
  assert (Hold : forall bv, dbit <$> find (discover cs) r o = Some bv -> wf bv).
  { intros bv Hbv. apply fmap_Some in Hbv as (d & Hf & ->). by apply (disc_ok_find _ _ _ _ Hd Hf). }
  pose proof (merged_bits_safe _ _ l Hold Hbs) as Hm.
  destruct (merged_bits _ _ _) as [bv|e] eqn:Em; [|intros [= <- <-]; split; [done|congruence]].
  pose proof (merged_bits_wf _ _ _ _ Hold Hbs Em) as Hw. unfold persist.
  intros E. set (d := match find (discover cs) r o with Some _ => _ | None => _ end) in E.
  assert (Hd' : disc_ok (put_entry (discover cs) r o d)).
  { apply disc_ok_put; [done|done|]. unfold d. by destruct (find _ _ _). }
  destruct (StateStore.Put _ _ _) as [st|e]; injection E as <- <-; by split.
Qed.

Lemma put_bit_discover get_table set_table prefix (cs : chunkStore (S := S)) r o k l :
  (forall cs m, discover (set_table cs m) = discover cs) ->
  discover (put_bit get_table set_table prefix cs r o k l).1 = discover cs.
Proof.
  intros Hs. unfold put_bit. destruct (next_bits _ _ _) as [[bv|]|e]; try done.
  unfold persist. destruct (StateStore.Put _ _ _); cbn [fst set_state discover]; apply Hs.
Qed.

Lemma put_each_one (f : chunkStore (S := S) -> Provider -> chunkStore * result chunkError unit) cs p :
  put_each f cs [p] (Ok tt) = f cs p.
Proof. cbn [put_each]. by destruct (f cs p) as [cs' [|[]]]. Qed.

Lemma exec_disc (cs : chunkStore (S := S)) o : op_ok o -> disc_ok (discover cs) -> disc_ok (discover (exec cs o).1).
Proof.
  intros Ho Hd. destruct o as [now t r p|t r o|t r|r|r]; cbn [exec]; try done.
  - destruct Ho as (_ & Ho & Hb & _). destruct t; cbn [ChunkStore.Put]; rewrite ?put_each_one; try done.
    + destruct (putDiscover _ _ _ _ _ _) as [cs' x] eqn:E. cbn [fst]. by eapply putDiscover_safe in E as [? _].
    + unfold putChunkService. by rewrite put_bit_discover.
    + unfold putChunkSource. by rewrite put_bit_discover.
  - destruct t; cbn [Remove]; try done;
      unfold removeDiscoverByOverlay, removeServiceByOverlay, removeSourceByOverlay, remove_peer;
      destruct (has _ _ _); try done; destruct (sdelete _ _); try done. by apply disc_ok_delete_entry.
  - destruct t; cbn [RemoveAll]; try done; unfold removeDiscover, removeService, removeSource, remove_root;
      destruct (_ !! _); try done; destruct (delete_keys _ _ _ _) as [st [|]]; try done. by apply disc_ok_delete.
Qed.

Lemma consumers_safe (l : list (bytes * discoverBitVector)) : Forall (fun x => name_ok x.1) l ->
  consumers discover_consumer l <> Err panicked.
Proof.
  induction 1 as [|[name d] l (o & Ho & E) _ IH]; [done|]. cbn [fst] in E. subst name. cbn [consumers].
  unfold ParseHexAddress, Boson.String. rewrite DecodeString_Encode by done. cbn [of_parse mbind result_bind].
  destruct (consumers _ l) as [|e]; [done|]. cbn. congruence.
Qed.

Lemma isDiscover_safe (c : ChunkInfo S) root : disc_ok (discover (cstore c)) -> isDiscover c root <> None.
Proof.
  intros Hd. unfold isDiscover, ChunkStore.Get, get_consumers.
  destruct (discover (cstore c) !! Boson.String root) as [row|] eqn:Hr; [|done].
  pose proof (consumers_safe (map_to_list row)) as Hs. destruct (consumers _ _) as [[|]|[]]; try done.
  exfalso. apply Hs; [|done]. apply Forall_forall. intros [name d] Hin.
  apply elem_of_map_to_list in Hin. by apply (Hd _ _ _ _ Hr Hin).
Qed.

(** ** The steps of each kind of thread *)

Lemma stepped_discovered c c1 p root v : flight p = Some (Boson.String root) -> holds p = false -> state_ok c1 ->
  heap c1 = heap c -> queues c1 = queues c -> queuesLk c1 = queuesLk c -> flights c1 = flights c ->
  stepped c p (set_flights c1 (flights c1 ∖ {[Boson.String root]})) (Finished v) None.
Proof.
  intros Hf Hh [] Eh Eq El Ef. constructor; try done; cbn [next_holds].
  - by apply evolves_same.
  - by rewrite Hh.
  - rewrite Hf. cbn [set_flights flights]. by rewrite Ef.
Qed.

Lemma next_overlay_ok c p root ch overlays : bytes_ok root -> Forall bytes_ok overlays -> is_Some (getQueue c root) ->
  flight p = Some (Boson.String root) ->
  flight (next_overlay root ch overlays) = flight p /\ holds (next_overlay root ch overlays) = false /\
  pc_data (next_overlay root ch overlays) /\ pc_ref c (next_overlay root ch overlays).
Proof. intros Hr Ho Hq Hf. by destruct overlays. Qed.

Lemma discover_overlays_ok d v : discovery_ok d -> Forall bytes_ok (default [] v) -> Forall bytes_ok (discover_overlays d v).
Proof.
  intros [] Hv. unfold discover_overlays.
  set (l := match v with Some l => l | None => _ end).
  assert (Hl : Forall bytes_ok l) by (unfold l; destruct v, (dChain d); by auto).
  destruct (dOracles d) as [o|]; [|done]. unfold removeRepeatElement. apply Forall_app. split; [done|].
  apply Forall_forall. intros x Hx. apply list_elem_of_In, filter_In in Hx as [Hx _].
  by apply (Forall_forall bytes_ok o) ; [|apply list_elem_of_In].
Qed.

Lemma queue_of c q : state_ok c -> points c q -> exists x, heap c !! q = Some x /\ queue_ok x.
Proof.
  intros Hc Hq. apply points_lookup in Hq as [x Hx]. exists x. split; [done|]. apply (Forall_lookup_1 _ _ _ _ (so_heap _ Hc) Hx).
Qed.

Lemma queue_at c root : state_ok c -> is_Some (getQueue c root) ->
  exists q x, getQueue c root = Some q /\ heap c !! q = Some x /\ queue_ok x.
Proof.
  intros Hc [q Hq]. destruct (queue_of c q Hc (so_queues _ Hc _ _ Hq)) as (x & Hx & Hok). by exists q, x.
Qed.

Lemma push_ok x pull o : queue_ok x -> bytes_ok o -> queue_ok (push x pull o) /\ (length (qUnPull x) <= length (qUnPull (push x pull o)))%nat.
Proof.
  intros (H1 & H2 & H3) Ho. assert (Forall bytes_ok [o]) by by constructor.
  destruct pull; cbn; rewrite ?length_app; (split; [|lia]); repeat split; try done; by apply Forall_app.
Qed.

Lemma pop_node_ok o l : Forall bytes_ok l -> Forall bytes_ok (pop_node o l).
Proof.
  revert l. fix IH 1. intros [|f l] Hl; cbn [pop_node]; [done|]. inversion_clear Hl as [|?? Hf Hl'].
  destruct (bool_decide _); [|constructor; [done|by apply IH]].
  destruct l as [|g l]; [done|]. inversion_clear Hl' as [|?? Hg Hl]. constructor; [done|by apply IH].
Qed.

Lemma popNode_ok x o : queue_ok x -> queue_ok (popNode x Pulling o) /\ qUnPull (popNode x Pulling o) = qUnPull x.
Proof. intros (H1 & H2 & H3). split; [|done]. repeat split; try done. by apply pop_node_ok. Qed.

Lemma stepped_new_queue c p root ch overlays : state_ok c -> flight p = Some (Boson.String root) -> holds p = false ->
  bytes_ok root -> Forall bytes_ok overlays ->
  stepped c p (set_heap (set_queues c (<[Boson.String root := length (heap c)]> (queues c))) (heap c ++ [emptyQueue]))
    (Run (next_overlay root ch overlays)) None.
Proof.
  intros Hc Hf Hh Hr Ho. set (c' := set_heap _ _).
  assert (Hq : is_Some (getQueue c' root)) by (exists (length (heap c)); apply lookup_insert_eq).
  destruct (next_overlay_ok c' p root ch overlays) as (H1 & H2 & H3 & H4); [done..|].
  assert (Hev : evolves p c c').
  { split; cbn.
    - intros q x Hx. exists x. rewrite lookup_app_l by (by eapply lookup_lt_Some). done.
    - intros k Hk _. destruct (decide (Boson.String root = k)) as [<-|Hne]; [by rewrite lookup_insert_eq|by rewrite lookup_insert_ne]. }
  apply stepped_run; try done; try congruence. destruct Hc as [Hheap Hqs Hfd Htr Hdc].
  assert (Hl : length (heap c') = (length (heap c) + 1)%nat) by (cbn; by rewrite length_app).
  split; try done; cbn.
  - apply Forall_app. split; [done|]. repeat constructor.
  - intros k q Hk. unfold points. rewrite Hl. apply lookup_insert_Some in Hk as [[_ <-]|[_ Hk]]; [lia|].
    specialize (Hqs k q Hk). unfold points in Hqs. lia.
Qed.

(** A change of fields that no thread relies on. *)
Lemma stepped_other c p c' p' : state_ok c' -> heap c' = heap c -> queues c' = queues c -> queuesLk c' = queuesLk c ->
  flights c' = flights c -> (holds p = true -> queuesLk c = true) -> holds p' = holds p -> flight p' = flight p ->
  pc_data p' -> pc_ref c' p' -> stepped c p c' (Run p') None.
Proof. intros. apply stepped_run; try done. by apply evolves_same. Qed.

Lemma with_queue_at (c : ChunkInfo S) q x f r : heap c !! q = Some x -> with_queue c (Some q) f = r -> f x = r.
Proof. unfold with_queue. cbn. by intros ->. Qed.

Lemma discover_stepped e c p c' nx sp out : state_ok c -> pc_data p -> pc_ref c p ->
  discover_step e c p = Some (c', nx, sp, out) -> stepped c p c' nx sp.
Proof.
  intros Hc Hd Hr. destruct p; cbn [discover_step]; try done; unfold goes, discovered, ends.
  - pose proof (isDiscover_safe c (dRoot d) (so_disc _ Hc)). destruct (isDiscover _ _) as [[]|]; try done; intros [= <- <- <- <-].
    + by apply stepped_discovered.
    + by apply stepped_goes.
  - destruct (isDownload _ _); intros [= <- <- <- <-]; [by apply stepped_discovered|by apply stepped_goes].
  - destruct (dTargets d) as [l|] eqn:Et.
    { intros [= <- <- <- <-]. apply stepped_goes; try done. destruct Hd as [H1 H2 _ _]. rewrite Et in H2. by split. }
    pose proof (discover_overlays_ok d (found c !! Boson.String (dCtxRoot d)) Hd) as Ho.
    destruct (discover_overlays _ _) as [|x l] eqn:El; intros [= <- <- <- <-]; [by apply stepped_discovered|].
    apply stepped_goes; try done. split; [done|]. apply Ho.
    destruct (found c !! _) as [l'|] eqn:Ef; [by apply (so_found _ Hc _ _ Ef)|constructor].
  - destruct Hd as [Hd Ho]. intros [= <- <- <- <-]. apply stepped_other; try done; [|by destruct Hd].
    destruct Hc. split; try done. by apply map_Forall_insert_2.
  - intros [= <- <- <- <-]. apply stepped_run; try done.
    + destruct Hc as [? Hq]. split; try done. cbn. intros k q Hk. apply lookup_delete_Some in Hk as [_ Hk]. by apply (Hq k).
    + split; [by eauto|]. cbn. intros k Hk Hne. rewrite lookup_delete_ne; [done|]. by intros <-.
  - intros [= <- <- <- <-]. apply stepped_other; try done. by destruct Hc.
Qed.

Lemma find_stepped e c p c' nx sp out : state_ok c -> pc_data p -> pc_ref c p ->
  find_step e c p = Some (c', nx, sp, out) -> stepped c p c' nx sp.
Proof.
  intros Hc Hd Hr. destruct p; cbn [find_step]; try done; unfold goes, discovered, ends.
  - intros [= <- <- <- <-]. apply stepped_other; try done. by destruct Hc.
  - intros [= <- <- <- <-]. apply stepped_other; try done. by destruct Hc.
  - destruct Hd as [Hroot Ho]. destruct (getQueue c root) as [q|] eqn:Eq; intros [= <- <- <- <-]; [|by apply stepped_goes].
    destruct (next_overlay_ok c (FQueue root ch overlays) root ch overlays) as (H1 & H2 & H3 & H4); [done..|by rewrite Eq|done|].
    by apply stepped_goes.
  - destruct Hd as [Hroot Ho]. intros [= <- <- <- <-]. by apply stepped_new_queue.
  - destruct Hd as [Hroot Ho]. inversion_clear Ho as [|?? Ho1 Ho2]. cbn [pc_ref] in Hr.
    destruct (queue_at c root Hc Hr) as (q & x & Hq & Hx & Hok). rewrite Hq. intros E. apply (with_queue_at _ _ x) in E; [|done].
    destruct (next_overlay_ok c (FExists root ch pull overlay overlays) root ch overlays) as (H1 & H2 & H3 & H4); [done..|].
    destruct (isExists _ _ _); injection E as <- <- <- <-; [by apply stepped_goes|].
    destruct pull; apply stepped_goes; try done; (split; [done|by constructor]).
  - destruct Hd as [Hroot Ho]. inversion_clear Ho as [|?? Ho1 Ho2]. cbn [pc_ref] in Hr.
    destruct (queue_at c root Hc Hr) as (q & x & Hq & Hx & Hok). rewrite Hq. intros E. apply (with_queue_at _ _ x) in E; [|done].
    injection E as <- <- <- <-. destruct (push_ok x UnPull overlay Hok Ho1) as [Hok' Hl].
    destruct (next_overlay_ok (set_queue c q (push x UnPull overlay)) (FPush root ch overlay overlays) root ch overlays)
      as (H1 & H2 & H3 & H4); [done..|]. by eapply stepped_queue.
  - intros [= <- <- <- <-]. constructor; try done; try (by intros ? [= <-]). by apply evolves_same.
  - destruct (chans c !! ch) as [[msg|]|]; try done. intros [= <- <- <- <-]. apply stepped_other; try done. by destruct Hc.
  - intros [= <- <- <- <-]. apply (stepped_discovered c (set_sync c (delete (Boson.String root) (syncMsg c)))); try done. by destruct Hc.
Qed.

Lemma name_ok_parse name : name_ok name -> exists o, bytes_ok o /\ ParseHexAddress name = Ok o.
Proof. intros (o & Ho & ->). exists o. split; [done|]. by apply DecodeString_Encode. Qed.

Lemma next_over_ok c self q root overlay info : bytes_ok root -> bytes_ok overlay -> info_ok info -> points c q ->
  exists p', next_over self q root overlay info = Run p' /\ pc_data p' /\ pc_ref c p' /\ holds p' = false /\ flight p' = None.
Proof.
  intros Hr Ho Hi Hq. induction Hi as [|[name bs] info [Hn _] Hi IH]; cbn [next_over]; [by eexists|].
  destruct (name_ok_parse name Hn) as (o & Ho' & ->). destruct (Equal o self); [done|]. by eexists.
Qed.

Lemma updateDiscover_safe now c root overlay bv c' r : state_ok c -> bytes_ok overlay -> bytes_ok bv ->
  updateDiscover now c root overlay bv = (c', r) -> state_ok c' /\ r <> Err panicked /\
  heap c' = heap c /\ queues c' = queues c /\ queuesLk c' = queuesLk c /\ flights c' = flights c.
Proof.
  intros [] Ho Hb. unfold updateDiscover, ChunkStore.Put. rewrite put_each_one.
  destruct (putDiscover _ _ _ _ _ _) as [cs x] eqn:E. intros [= <- <-].
  destruct (putDiscover_safe _ _ _ _ _ _ _ _ so_disc0 Ho Hb E) as [Hd Hx]. by split.
Qed.

Lemma info_lookup info name bv : info_ok info -> (list_to_map (rev info) : gmap bytes bytes) !! name = Some bv -> bytes_ok bv.
Proof.
  intros Hi Hl. apply elem_of_list_to_map_2, list_elem_of_In, in_rev, list_elem_of_In in Hl.
  apply list_elem_of_lookup in Hl as [k Hk]. by apply (Forall_lookup_1 _ _ _ _ Hi) in Hk as [_ Hb].
Qed.

Lemma answer_stepped e c p c' nx sp out : state_ok c -> pc_data p -> pc_ref c p ->
  answer_step e c p = Some (c', nx, sp, out) -> stepped c p c' nx sp.
Proof.
  intros Hc Hd Hr. destruct p; cbn [answer_step]; try done; unfold goes; cbn [pc_data pc_ref] in Hd, Hr.
  - intros [= <- <- <- <-]. apply stepped_other; try done. destruct Hc as [??? Ht ?]. split; try done. cbn.
    intros k t Hk. apply lookup_delete_Some in Hk as [_ Hk]. by apply (Ht k t).
  - intros [= <- <- <- <-]. destruct (syncMsg c !! _); by apply stepped_goes.
  - destruct (chans c !! ch) as [[|]|]; try done. intros [= <- <- <- <-]. apply stepped_other; try done. by destruct Hc.
  - intros [= <- <- <- <-]. destruct Hd as (H1 & H2 & H3).
    destruct (list_to_map _ !! _) as [bv|] eqn:El; [|by apply stepped_goes].
    destruct (IsFinder _ _); apply stepped_goes; try done. pose proof (info_lookup _ _ _ H3 El). done.
  - destruct Hd as (H1 & H2 & H3 & H4). destruct (updateDiscover _ _ _ _ _) as [c1 r] eqn:Eu.
    destruct (updateDiscover_safe _ _ _ _ _ _ _ Hc H2 H3 Eu) as (Hc1 & Hnp & ? & ? & ? & ?).
    destruct r as [|[]]; try done; intros [= <- <- <- <-]; by apply stepped_other.
Qed.

Lemma update_stepped e c p c' nx sp out : state_ok c -> pc_data p -> pc_ref c p ->
  update_step e c p = Some (c', nx, sp, out) -> stepped c p c' nx sp.
Proof.
  intros Hc Hd Hr. destruct p; cbn [update_step]; try done; unfold goes; cbn [pc_data pc_ref] in Hd, Hr.
  - destruct Hd as (H1 & H2 & H3). destruct (getQueue c root) as [q|] eqn:Eq; intros [= <- <- <- <-]; [|by apply stepped_goes].
    destruct (next_over_ok c (addr c) q root overlay info) as (p' & -> & ? & ? & ? & ?); [done..|by apply (so_queues _ Hc _ _ Eq)|].
    by apply stepped_goes.
  - destruct Hd as (H1 & H2 & H3 & H4). destruct (queue_of c q Hc Hr) as (x & Hx & Hok).
    intros E. apply (with_queue_at _ _ x) in E; [|done]. injection E as <- <- <- <-.
    case_match; by apply stepped_goes.
  - destruct Hd as (H1 & H2 & H3 & H4). destruct (queue_of c q Hc Hr) as (x & Hx & Hok).
    intros E. apply (with_queue_at _ _ x) in E; [|done]. destruct (isExists _ _ _); injection E as <- <- <- <-.
    + destruct (next_over_ok c (addr c) q root overlay info) as (p' & -> & ? & ? & ? & ?); [done..|]. by apply stepped_goes.
    + destruct pull; by apply stepped_goes.
  - destruct Hd as (H1 & H2 & H3 & H4). destruct (queue_of c q Hc Hr) as (x & Hx & Hok).
    intros E. apply (with_queue_at _ _ x) in E; [|done]. injection E as <- <- <- <-.
    destruct (push_ok x UnPull over Hok H3) as [Hok' Hl].
    destruct (next_over_ok (set_queue c q (push x UnPull over)) (addr c) q root overlay info) as (p' & -> & ? & ? & ? & ?); [done..| |].
    { unfold points. cbn. by rewrite length_insert. }
    by eapply stepped_queue.
  - destruct (queue_of c q Hc Hr) as (x & Hx & Hok). intros E. apply (with_queue_at _ _ x) in E; [|done].
    injection E as <- <- <- <-. destruct (popNode_ok x overlay Hok) as [Hok' Hl].
    eapply stepped_queue; try done. unfold pc_ref, points. cbn. by rewrite length_insert.
  - destruct (queue_of c q Hc Hr) as (x & Hx & Hok). intros E. apply (with_queue_at _ _ x) in E; [|done].
    injection E as <- <- <- <-. destruct Hd as [H1 H2]. destruct (push_ok x Pulled overlay Hok H2) as [Hok' Hl].
    by eapply stepped_queue.
Qed.

(** A step of the holder of the lock on the queue it works on. *)
Lemma enough_set c q x x' n : heap c !! q = Some x -> (n <= length (qUnPull x'))%nat -> enough (set_queue c q x') q n.
Proof.
  intros Hx Hn. exists x'. split; [|done]. cbn. apply list_lookup_insert_eq. by eapply lookup_lt_Some.
Qed.

Lemma queue_stepped e c p c' nx sp out : state_ok c -> pc_data p -> pc_ref c p -> (holds p = true -> queuesLk c = true) ->
  queue_step e c p = Some (c', nx, sp, out) -> stepped c p c' nx sp.
Proof.
  intros Hc Hd Hr Hlk. assert (Hheap := so_heap _ Hc).
  destruct p; cbn [queue_step]; try done; unfold goes, ends; cbn [pc_data pc_ref] in Hd, Hr.
  - destruct (queuesLk c) eqn:El; [done|]. intros [= <- <- <- <-].
    constructor; try done; try (by intros ? [= <-]); [by destruct Hc|by apply evolves_same].
  - intros [= <- <- <- <-]. destruct (IsFinder _ _); by apply stepped_goes.
  - intros [= <- <- <- <-]. destruct (getQueue c root) as [q|] eqn:Eq; apply stepped_goes; try done.
    by apply (so_queues _ Hc _ _ Eq).
  - destruct (queue_of c q Hc Hr) as (x & Hx & Hok). intros E. apply (with_queue_at _ _ x) in E; [|done].
    injection E as <- <- <- <-. by apply stepped_goes.
  - destruct (queue_of c q Hc Hr) as (x & Hx & Hok). intros E. apply (with_queue_at _ _ x) in E; [|done].
    injection E as <- <- <- <-. case_match; by apply stepped_goes.
  - destruct (queue_of c q Hc Hr) as (x & Hx & Hok). intros E. apply (with_queue_at _ _ x) in E; [|done].
    injection E as <- <- <- <-. case_match; by apply stepped_goes.
  - destruct (queue_of c q Hc Hr) as (x & Hx & Hok). intros E. apply (with_queue_at _ _ x) in E; [|done].
    injection E as <- <- <- <-. destruct (Nat.ltb_spec (length (qUnPull x)) n); apply stepped_goes; try done. by exists x.
  - destruct (queue_of c q Hc Hr) as (x & Hx & Hok). intros E. apply (with_queue_at _ _ x) in E; [|done].
    injection E as <- <- <- <-. apply stepped_goes; try done. by exists x.
  - destruct n as [|n]; [intros [= <- <- <- <-]; by apply stepped_goes|].
    destruct Hr as (x & Hx & Hn). intros E. apply (with_queue_at _ _ x) in E; [|done].
    pose proof (Forall_lookup_1 _ _ _ _ Hheap Hx) as (H1 & H2 & H3). unfold pop, getPull in E.
    destruct (qUnPull x) as [|v l] eqn:El; [cbn [length] in Hn; lia|]. injection E as <- <- <- <-.
    inversion_clear H1 as [|?? Hv Hl]. eapply stepped_queue; try done. eapply enough_set; [done|]. cbn in *. lia.
  - destruct Hr as (x & Hx & Hn). intros E. apply (with_queue_at _ _ x) in E; [|done]. injection E as <- <- <- <-.
    destruct Hd as [Hroot Hv]. destruct (push_ok x Pulling unNode) as [Hok Hl]; [by apply (Forall_lookup_1 _ _ _ _ Hheap Hx)|done|].
    eapply stepped_queue; try done. by eapply enough_set.
  - intros [= <- <- <- <-]. destruct Hd as [Hroot Hv]. apply stepped_other; try done.
    destruct Hc as [??? Ht ?]. split; try done. cbn. intros k t Hk.
    apply lookup_insert_Some in Hk as [[<- _]|[_ Hk]]; [by exists root, unNode|by apply (Ht k t)].
  - intros [= <- <- <- <-]. apply stepped_goes; try done. by destruct Hd.
  - intros [= <- <- <- <-]. constructor; try done; [by destruct Hc|by apply evolves_same].
Qed.

Lemma parse_trigger_key r o : bytes_ok r -> bytes_ok o -> parse_trigger (trigger_key r o) = Some (r, o).
Proof.
  intros Hr Ho. unfold parse_trigger, trigger_key. change (str "_" ++ ?x) with (underscore :: x).
  rewrite split_at_word by (by apply hex_no_underscore). rewrite split_at_none by (by apply hex_no_underscore).
  cbn [app]. unfold ParseHexAddress, Boson.String. by rewrite !DecodeString_Encode.
Qed.

Lemma timeout_stepped e c p c' nx sp out : state_ok c -> pc_data p -> pc_ref c p ->
  timeout_step e c p = Some (c', nx, sp, out) -> stepped c p c' nx sp.
Proof.
  intros Hc Hd Hr. destruct p; cbn [timeout_step]; try done; unfold goes; cbn [pc_data pc_ref] in Hd, Hr.
  - destruct (trigger c !! _) as [t|] eqn:Et; [|intros [= <- <- <- <-]; by apply stepped_goes].
    destruct (_ <=? _); [|intros [= <- <- <- <-]; by apply stepped_goes].
    destruct (so_trigger _ Hc _ _ Et) as (r & o & Hro & Ho & ->). rewrite parse_trigger_key by done.
    intros [= <- <- <- <-]. destruct (Equal r []); by apply stepped_goes.
  - intros [= <- <- <- <-]. destruct (getQueue c root) as [q|] eqn:Eq; apply stepped_goes; try done.
    by apply (so_queues _ Hc _ _ Eq).
  - intros [= <- <- <- <-]. destruct (syncMsg c !! _); by apply stepped_goes.
  - destruct (chans c !! ch) as [[|]|]; try done. intros [= <- <- <- <-]. apply stepped_other; try done. by destruct Hc.
  - destruct (queue_of c q Hc Hr) as (x & Hx & Hok). intros E. apply (with_queue_at _ _ x) in E; [|done].
    injection E as <- <- <- <-. destruct (popNode_ok x overlay Hok) as [Hok' Hl].
    eapply stepped_queue; try done. unfold pc_ref, points. cbn. by rewrite length_insert.
  - destruct (queue_of c q Hc Hr) as (x & Hx & Hok). intros E. apply (with_queue_at _ _ x) in E; [|done].
    injection E as <- <- <- <-. destruct (push_ok x UnPull overlay Hok (proj2 Hd)) as [Hok' Hl]. by eapply stepped_queue.
  - intros [= <- <- <- <-]. apply stepped_other; try done. destruct Hc as [??? Ht ?]. split; try done. cbn.
    intros k t Hk. apply lookup_delete_Some in Hk as [_ Hk]. by apply (Ht k t).
Qed.

Lemma tstep_stepped e c p c' nx sp out : state_ok c -> pc_data p -> pc_ref c p -> (holds p = true -> queuesLk c = true) ->
  tstep e c p = Some (c', nx, sp, out) -> stepped c p c' nx sp.
Proof.
  intros Hc Hd Hr Hl. destruct p; cbn [tstep]; try (by destruct Hd);
    (by apply discover_stepped) || (by apply find_stepped) || (by apply answer_stepped) || (by apply update_stepped) || (by apply queue_stepped) || (by apply timeout_stepped).
Qed.

(** ** The invariant *)

Record sys_ok (s : sys) : Prop := {
  sy_crash : crashed s = false;
  sy_state : state_ok (ci s);
  sy_pc i p : threads s !! i = Some p -> pc_data p /\ pc_ref (ci s) p;
  sy_lock i p : threads s !! i = Some p -> holds p = true -> queuesLk (ci s) = true;
  sy_one i j p p' : threads s !! i = Some p -> threads s !! j = Some p' -> holds p = true -> holds p' = true -> i = j;
  sy_held : queuesLk (ci s) = true -> exists i p, threads s !! i = Some p /\ holds p = true;
  sy_flight i p f : threads s !! i = Some p -> flight p = Some f -> f ∈ flights (ci s);
  sy_alone i j p p' f : threads s !! i = Some p -> threads s !! j = Some p' -> flight p = Some f -> flight p' = Some f -> i = j;
}.

Lemma moved_lookup i j nx sp (m : gmap nat pc) k pk : nx <> Panicked ->
  spawn j sp (resume i nx m) !! k = Some pk ->
  (k = j /\ sp = Some pk) \/ (k = i /\ nx = Run pk) \/ (k <> i /\ m !! k = Some pk).
Proof.
  intros Hnx. assert (Hr : resume i nx m !! k = Some pk -> (k = i /\ nx = Run pk) \/ (k <> i /\ m !! k = Some pk)).
  { destruct nx as [p| |]; cbn [resume]; [| |done].
    - intros [[-> ->]|[Hne Hk]]%lookup_insert_Some; auto.
    - intros [Hne Hk]%lookup_delete_Some; auto. }
  destruct sp as [p|]; cbn [spawn]; [|by auto]. intros [[-> ->]|[Hne Hk]]%lookup_insert_Some; auto.
Qed.

(** The threads that have not moved keep what they rely on. *)
Lemma others_keep s i p c' nx sp : sys_ok s -> threads s !! i = Some p -> stepped (ci s) p c' nx sp ->
  forall k pk, k <> i -> threads s !! k = Some pk ->
  (pc_data pk /\ pc_ref c' pk) /\ (holds pk = true -> holds p = false /\ next_holds nx = false) /\
  (forall f, flight pk = Some f -> f ∈ flights c' /\ flight p <> Some f).
Proof.
  intros Hs Hi Hst k pk Hk Hpk. destruct (sy_pc _ Hs _ _ Hpk) as [Hd Hr].
  assert (Hh : holds pk = true -> holds p = false).
  { intros Hpk'. destruct (holds p) eqn:Hp; [|done]. destruct Hk. by apply (sy_one _ Hs k i pk p). }
  assert (Hf : forall f, flight pk = Some f -> flight p <> Some f).
  { intros f Ef Ep. destruct Hk. by apply (sy_alone _ Hs k i pk p f). }
  split; [|split].
  - split; [done|]. eapply pc_ref_evolves; [apply Hst|done| |done].
    destruct (flight pk) as [f|] eqn:Ef; [|done]. intros _. by apply Hf.
  - intros Hpk'. split; [by apply Hh|]. destruct (next_holds nx) eqn:En; [|done].
    pose proof (st_free _ _ _ _ _ Hst En (Hh Hpk')). pose proof (sy_lock _ Hs _ _ Hpk Hpk'). congruence.
  - intros f Ef. split; [|by apply Hf]. pose proof (sy_flight _ Hs _ _ _ Hpk Ef) as Hin. specialize (Hf f Ef).
    rewrite (st_flights _ _ _ _ _ Hst). destruct nx; [done| |done]. destruct (flight p) as [g|]; [|done].
    apply elem_of_difference. split; [done|]. apply not_elem_of_singleton. congruence.
Qed.

Lemma is_panic_iff nx : is_panic nx = true -> nx = Panicked.
Proof. by destruct nx. Qed.

Lemma next_holds_run nx : next_holds nx = true -> exists p, nx = Run p /\ holds p = true.
Proof. destruct nx as [p| |]; [by exists p|done..]. Qed.

Section Moved.
Context (s : sys) (i j : nat) (p : pc) (c' : ChunkInfo S) (nx : next) (sp : option pc).
Context (Hs : sys_ok s) (Hi : threads s !! i = Some p) (Hj : threads s !! j = None) (Hst : stepped (ci s) p c' nx sp).

Let m := spawn j sp (resume i nx (threads s)).

Lemma moved k pk : m !! k = Some pk ->
  (k = j /\ sp = Some pk) \/ (k = i /\ nx = Run pk) \/ (k <> i /\ threads s !! k = Some pk).
Proof. apply moved_lookup, Hst. Qed.

Lemma moved_stays k pk : k <> i -> threads s !! k = Some pk -> m !! k = Some pk.
Proof.
  intros Hk Hpk. assert (k <> j) by congruence. unfold m.
  destruct sp; cbn [spawn]; rewrite ?lookup_insert_ne by done;
    (destruct nx; cbn [resume]; rewrite ?lookup_insert_ne, ?lookup_delete_ne by done; done).
Qed.

Lemma moved_self p' : nx = Run p' -> m !! i = Some p'.
Proof.
  intros ->. assert (i <> j) by congruence. unfold m.
  destruct sp; cbn [spawn resume]; rewrite ?lookup_insert_ne by done; apply lookup_insert_eq.
Qed.

(** A thread that holds the lock after the step is the one that moved and then
    holds it, or one that held it already while the moved one does not. *)
Lemma moved_holds k pk : m !! k = Some pk -> holds pk = true ->
  (k = i /\ next_holds nx = true) \/ (k <> i /\ threads s !! k = Some pk /\ holds p = false /\ next_holds nx = false).
Proof.
  intros [[_ E]|[[-> E]|[Hne Hk]]]%moved Hp.
  - destruct (st_spawn _ _ _ _ _ Hst pk E) as (_ & _ & ? & _). congruence.
  - left. by rewrite E.
  - right. by destruct (others_keep _ _ _ _ _ _ Hs Hi Hst k pk Hne Hk) as (_ & Hh & _); destruct (Hh Hp).
Qed.

Lemma moved_flight k pk f : m !! k = Some pk -> flight pk = Some f ->
  (k = i /\ flight p = Some f) \/ (k <> i /\ threads s !! k = Some pk /\ flight p <> Some f).
Proof.
  intros [[_ E]|[[-> E]|[Hne Hk]]]%moved Hp.
  - destruct (st_spawn _ _ _ _ _ Hst pk E) as (_ & _ & _ & ?). congruence.
  - left. destruct (st_next _ _ _ _ _ Hst pk E) as (_ & _ & <-). done.
  - right. destruct (others_keep _ _ _ _ _ _ Hs Hi Hst k pk Hne Hk) as (_ & _ & Hf). by destruct (Hf f Hp).
Qed.

Lemma run_ok : sys_ok (MkSys c' m (is_panic nx)).
Proof.
  constructor; cbn [ci threads crashed].
  - apply not_true_iff_false. intros E. by apply (st_panic _ _ _ _ _ Hst), is_panic_iff.
  - apply Hst.
  - intros k pk [[_ E]|[[_ E]|[Hne Hk]]]%moved.
    + by destruct (st_spawn _ _ _ _ _ Hst pk E) as (? & ? & _).
    + by destruct (st_next _ _ _ _ _ Hst pk E) as (? & ? & _).
    + by apply (others_keep _ _ _ _ _ _ Hs Hi Hst k pk).
  - intros k pk Hk Hp. rewrite (st_lock _ _ _ _ _ Hst).
    destruct (moved_holds k pk Hk Hp) as [[_ ->]|(_ & Hk' & -> & ->)]; [done|]. by apply (sy_lock _ Hs k pk).
  - intros k l pk pl Hk Hl Hp Hp'.
    destruct (moved_holds k pk Hk Hp) as [[-> E]|(_ & Hk' & _ & E)];
      destruct (moved_holds l pl Hl Hp') as [[-> E']|(_ & Hl' & _ & E')]; try congruence. by apply (sy_one _ Hs k l pk pl).
  - rewrite (st_lock _ _ _ _ _ Hst). destruct (next_holds nx) eqn:En.
    { intros _. destruct (next_holds_run _ En) as (p' & E & Hp'). exists i, p'. by split; [apply moved_self|]. }
    destruct (holds p) eqn:Hp; [done|]. intros Hl. destruct (sy_held _ Hs Hl) as (k & pk & Hk & Hpk). exists k, pk.
    split; [|done]. apply moved_stays; [congruence|done].
  - intros k pk f Hk Ef. destruct (moved_flight k pk f Hk Ef) as [[-> Ep]|(Hne & Hk' & _)].
    + apply moved in Hk as [[-> _]|[[_ E]|[Hne _]]]; [congruence| |done].
      rewrite (st_flights _ _ _ _ _ Hst), E. by apply (sy_flight _ Hs i p).
    + by apply (others_keep _ _ _ _ _ _ Hs Hi Hst k pk Hne Hk').
  - intros k l pk pl f Hk Hl Ek El.
    destruct (moved_flight k pk f Hk Ek) as [[-> E]|(_ & Hk' & E)];
      destruct (moved_flight l pl f Hl El) as [[-> E']|(_ & Hl' & E')]; try congruence. by apply (sy_alone _ Hs k l pk pl f).
Qed.
End Moved.

Lemma started_ok s j p : sys_ok s -> threads s !! j = None -> pc_data p -> pc_ref (ci s) p -> holds p = false ->
  (forall f, flight p = Some f -> f ∈ flights (ci s) /\ forall i p', threads s !! i = Some p' -> flight p' <> Some f) ->
  sys_ok (start j p s).
Proof.
  intros [] Hj Hd Hr Hh Hf. constructor; cbn [start ci threads crashed]; try done.
  - intros k pk [[<- <-]|[_ Hk]]%lookup_insert_Some; eauto.
  - intros k pk [[<- <-]|[_ Hk]]%lookup_insert_Some; [congruence|eauto].
  - intros k l pk pl [[<- <-]|[_ Hk]]%lookup_insert_Some; [congruence|].
    intros [[<- <-]|[_ Hl]]%lookup_insert_Some; [congruence|eauto].
  - intros Hl. destruct (sy_held0 Hl) as (k & pk & Hk & Hp). exists k, pk. split; [|done]. rewrite lookup_insert_ne; [done|congruence].
  - intros k pk f [[<- <-]|[_ Hk]]%lookup_insert_Some Ef; [by apply Hf|eauto].
  - intros k l pk pl f [[<- <-]|[_ Hk]]%lookup_insert_Some [[<- <-]|[_ Hl]]%lookup_insert_Some Ek El; eauto.
    + by destruct (proj2 (Hf f Ek) l pl Hl).
    + by destruct (proj2 (Hf f El) k pk Hk).
Qed.

(** The chunk store may change in any way that keeps its table of answers. *)
Lemma store_ok s cs : sys_ok s -> disc_ok (discover cs) -> sys_ok (MkSys (set_cstore (ci s) cs) (threads s) (crashed s)).
Proof. intros [Hcr [] Hpc] Hd. constructor; try done. Qed.

Lemma sstep_ok s s' : sys_ok s -> sstep false false s s' -> sys_ok s'.
Proof.
  intros Hs Hst. destruct Hst as [e i j s' E|d j Hj Hf Hd|root overlay info j Hj H1 H2 H3|root j Hc _|o Ho].
  - unfold sys_step in E. rewrite (sy_crash _ Hs) in E. apply bind_Some in E as (p & Hi & E).
    apply bind_Some in E as ([[[c' nx] sp] out] & Ht & E). destruct (threads s !! j) eqn:Hj; [done|]. injection E as <-.
    destruct (sy_pc _ Hs _ _ Hi) as [Hd Hr]. apply run_ok with p; try done.
    eapply tstep_stepped; try done; [apply Hs|]. by apply (sy_lock _ Hs i).
  - apply started_ok; try done.
    + destruct Hs as [Hcr [] Hpc Hlk Hone Hheld Hfl Hal]. constructor; try done.
      intros k pk f Hk Ef. cbn. apply elem_of_union_r. by apply (Hfl k pk).
    + intros f [= <-]. cbn. split; [set_solver|]. intros k pk Hk Ef. by apply Hf, (sy_flight _ Hs k pk).
  - apply started_ok; try done. by split_and!; auto.
  - done.
  - apply store_ok; [done|]. apply exec_disc; [done|]. apply Hs.
Qed.

Lemma init_ok a st : sys_ok (init a st).
Proof.
  constructor; cbn [init ci threads crashed]; try done.
  - by intros i p [<- <-]%lookup_singleton_Some.
  - by intros i p [<- <-]%lookup_singleton_Some.
  - by intros i j p p' [<- <-]%lookup_singleton_Some [<- <-]%lookup_singleton_Some.
  - by intros i p f [<- <-]%lookup_singleton_Some.
  - by intros i j p p' f [<- <-]%lookup_singleton_Some [<- <-]%lookup_singleton_Some.
Qed.

Lemma reached_ok a st s : rtc (sstep false false) (init a st) s -> sys_ok s.
Proof. intros Hr. pattern s. eapply rtc_ind_r; [|intros ???|exact Hr]; [apply init_ok|]. intros. by eapply sstep_ok. Qed.

(** The holder of the lock waits for nothing. *)
Lemma holder_runs e (c : ChunkInfo S) p : holds p = true -> is_Some (tstep e c p).
Proof.
  destruct p; try done; intros _; cbn [tstep queue_step]; unfold with_queue, goes, panics, ends; try (by eexists).
  all: try (destruct n); cbn; try (by eexists); destruct (heap c !! q); try (by eexists); repeat case_match; by eexists.
Qed.

(** ** Threads that wait for ever *)

(** The channel a search will receive from. *)
Definition receives (p : pc) : option nat :=
  match p with
  | FFinder _ ch _ | FQueue _ ch _ | FNewQueue _ ch _ | FExists _ ch _ _ _ | FPush _ ch _ _ | FGo _ ch | FWait _ ch => Some ch
  | _ => None
  end.

(** A full channel that nobody will receive from. *)
Definition orphan (s : sys) (ch : nat) : Prop :=
  (exists x, chans (ci s) !! ch = Some (Some x)) /\ forall i p, threads s !! i = Some p -> receives p <> Some ch.

Lemma next_overlay_receives root ch overlays : receives (next_overlay root ch overlays) = Some ch.
Proof. by destruct overlays. Qed.

Lemma next_over_receives self q root overlay info p : next_over self q root overlay info = Run p -> receives p = None.
Proof.
  induction info as [|[name bs] info IH]; cbn [next_over]; [by intros [= <-]|].
  destruct (ParseHexAddress name); [|done]. destruct (Equal _ _); [done|by intros [= <-]].
Qed.

Lemma updateDiscover_chans now c root overlay bv c' r : updateDiscover now c root overlay bv = (c', r) -> chans c' = chans c.
Proof. unfold updateDiscover. destruct (ChunkStore.Put _ _ _ _ _). by intros [= <- _]. Qed.

(** A step that leaves the channels and does not get to receive from [ch]. *)
Lemma orphan_goes (c c' : ChunkInfo S) nx sp ch x : chans c !! ch = Some (Some x) -> chans c' = chans c ->
  (forall p, nx = Run p -> receives p <> Some ch) -> (forall p, sp = Some p -> receives p = None) ->
  chans c' !! ch = Some (Some x) /\ (forall p, nx = Run p -> receives p <> Some ch) /\ (forall p, sp = Some p -> receives p <> Some ch).
Proof. intros Hx -> Hn Hs. split; [done|]. split; [done|]. intros p Hp. by rewrite (Hs p Hp). Qed.

Ltac orphaned :=
  eapply orphan_goes; [eassumption|done| |by intros; simplify_eq];
  let p' := fresh "p'" in let E := fresh "E" in
  intros p' E; first [by apply next_over_receives in E as ->|discriminate E|injection E as <-];
  rewrite ?next_overlay_receives; repeat case_match; cbn in *; rewrite ?next_overlay_receives; congruence.

Lemma tstep_orphan e (c c' : ChunkInfo S) p nx sp out ch x : chans c !! ch = Some (Some x) -> receives p <> Some ch ->
  tstep e c p = Some (c', nx, sp, out) ->
  chans c' !! ch = Some (Some x) /\ (forall p', nx = Run p' -> receives p' <> Some ch) /\ (forall p', sp = Some p' -> receives p' <> Some ch).
Proof.
  intros Hx Hr. pose proof (lookup_lt_Some _ _ _ Hx) as Hlt.
  destruct p; cbn [tstep discover_step find_step answer_step update_step queue_step timeout_step cancel_step receives] in *;
    unfold with_queue, goes, panics, discovered, ends.
  all: try (repeat (case_match; try done); intros [= <- <- <- <-]; orphaned).
  - intros [= <- <- <- <-]. cbn. rewrite lookup_app_l by done. split; [done|]. split; [|done]. intros p' [= <-]. cbn. intros [= E]. lia.
  - destruct (chans c !! ch0) as [[|]|]; try done. intros [= <- <- <- <-]. cbn. rewrite list_lookup_insert_ne by congruence.
    split; [done|]. by split; [intros ? [= <-]|].
  - destruct (chans c !! ch0) as [[|]|] eqn:E0; try done. intros [= <- <- <- <-]. cbn. rewrite list_lookup_insert_ne by congruence.
    split; [done|]. by split; [intros ? [= <-]|].
  - destruct (updateDiscover _ _ _ _ _) as [c1 r] eqn:Eu. apply updateDiscover_chans in Eu.
    destruct r as [|[]]; intros [= <- <- <- <-]; apply (orphan_goes c); try done; by intros; simplify_eq.
  - destruct (chans c !! ch0) as [[|]|] eqn:E0; try done. intros [= <- <- <- <-]. cbn. rewrite list_lookup_insert_ne by congruence.
    split; [done|]. by split; [intros ? [= <-]|].
Qed.

Lemma orphan_step cancels malformed s s' ch : orphan s ch -> sstep cancels malformed s s' -> orphan s' ch.
Proof.
  intros [[x Hx] Hr] Hst.
  assert (Hnew : forall j p, receives p <> Some ch -> orphan (start j p s) ch).
  { intros j p Hp. split; [by exists x|]. cbn [start threads]. intros i p' [[<- <-]|[_ Hi]]%lookup_insert_Some; [done|by apply (Hr i)]. }
  destruct Hst as [e i j s' E|d j Hj Hf Hd|root overlay info j Hj H1 H2 H3|root j Hc _|o Ho]; try (by apply Hnew).
  - unfold sys_step in E. destruct (crashed s); [done|]. apply bind_Some in E as (p & Hi & E).
    apply bind_Some in E as ([[[c' nx] sp] out] & Ht & E). destruct (threads s !! j); [done|]. injection E as <-.
    destruct (tstep_orphan _ _ _ _ _ _ _ _ _ Hx (Hr i p Hi) Ht) as (Hx' & Hn & Hs).
    split; [by exists x|]. cbn. intros k pk Hk.
    assert (Hres : resume i nx (threads s) !! k = Some pk -> receives pk <> Some ch).
    { destruct nx as [p'| |]; cbn [resume]; [| |by apply Hr].
      - intros [[_ <-]|[_ Hk']]%lookup_insert_Some; [by apply Hn|by apply (Hr k)].
      - intros [_ Hk']%lookup_delete_Some. by apply (Hr k). }
    destruct sp as [p'|]; cbn [spawn] in Hk; [|by apply Hres].
    apply lookup_insert_Some in Hk as [[_ <-]|[_ Hk]]; [by apply Hs|by apply Hres].
  - split; [by exists x|done].
Qed.

Definition sends (p : pc) : option nat := match p with RSend ch _ _ _ | TSend ch _ _ _ => Some ch | _ => None end.

(** A thread that sends on such a channel never moves again. *)
Lemma sender_stuck cancels malformed s s' i p ch : orphan s ch -> threads s !! i = Some p -> sends p = Some ch ->
  rtc (sstep cancels malformed) s s' -> threads s' !! i = Some p.
Proof.
  intros Ho Hi Hp Hr. revert Ho Hi. induction Hr as [s|s1 s2 s3 Hst _ IH]; intros Ho Hi; [done|].
  apply IH; [by eapply orphan_step|]. destruct Ho as [[x Hx] _].
  destruct Hst as [e k j s' E|d j Hj Hf Hd|root overlay info j Hj H1 H2 H3|root j Hc Hj|o Hop]; cbn [start threads];
    try (rewrite lookup_insert_ne; [done|congruence]); try done.
  unfold sys_step in E. destruct (crashed s1); [done|]. apply bind_Some in E as (pk & Hk & E).
  apply bind_Some in E as ([[[c' nx] sp] out] & Ht & E). destruct (threads s1 !! j) eqn:Hj; [done|]. injection E as <-. cbn.
  assert (k <> i).
  { intros ->. assert (pk = p) as -> by congruence. destruct p; try done; injection Hp as ->; cbn in Ht; by rewrite Hx in Ht. }
  assert (j <> i) by congruence. destruct sp; cbn [spawn]; rewrite ?lookup_insert_ne by done;
    (destruct nx; cbn [resume]; rewrite ?lookup_insert_ne, ?lookup_delete_ne by done; done).
Qed.

(** ** Schedules *)

(** The next thing that happens: [AStep] with the time, a thread and a new number. *)
Inductive act :=
| AStep (e : Env) (i j : nat)
| ADiscover (d : Discovery) (j : nat)
| AAnswer (root overlay : Address) (info : list (bytes * bytes)) (j : nat)
| ACancel (root : Address) (j : nat).

Definition act_step (s : sys) (a : act) : option sys :=
  match a with
  | AStep e i j => sys_step e i j s
  | ADiscover d j =>
      if bool_decide (threads s !! j = None) && bool_decide (Boson.String (dRoot d) ∉ flights (ci s)) then
        Some (start j (DIsDiscover d)
          (MkSys (set_flights (ci s) ({[Boson.String (dRoot d)]} ∪ flights (ci s))) (threads s) (crashed s)))
      else None
  | AAnswer root overlay info j => if bool_decide (threads s !! j = None) then Some (start j (RTrigger root overlay info) s) else None
  | ACancel root j => if bool_decide (threads s !! j = None) then Some (start j (CQueue root) s) else None
  end.

Definition act_ok (cancels malformed : bool) (a : act) : Prop :=
  match a with
  | AStep _ _ _ => True
  | ADiscover d _ => discovery_ok d
  | AAnswer root overlay info _ => bytes_ok root /\ bytes_ok overlay /\ (malformed = false -> info_ok info)
  | ACancel _ _ => cancels = true
  end.

Fixpoint play (l : list act) (s : sys) : option sys :=
  match l with
  | [] => Some s
  | a :: l => s ← act_step s a; play l s
  end.

Lemma play_reaches cancels malformed l s s' : Forall (act_ok cancels malformed) l -> play l s = Some s' ->
  rtc (sstep cancels malformed) s s'.
Proof.
  intros Hl. revert s. induction Hl as [|a l Ha _ IH]; intros s; cbn [play]; [by intros [= <-]|].
  intros E. apply bind_Some in E as (s1 & Hs1 & E). eapply rtc_l; [|by apply IH]. destruct a; cbn [act_step act_ok] in *.
  - by eapply s_run.
  - case_match eqn:Eb; [|done]. apply andb_true_iff in Eb as [H1%bool_decide_eq_true H2%bool_decide_eq_true].
    injection Hs1 as <-. by apply s_discover.
  - case_bool_decide; [|done]. injection Hs1 as <-. destruct Ha as (? & ? & ?). by apply s_answer.
  - case_bool_decide; [|done]. injection Hs1 as <-. by apply s_cancel.
Qed.
End System.

(** * Properties *)

(** C11: however searches, answers, timeouts and the other uses of the chunk store
    interleave, no thread panics, as long as nobody cancels a search and answers
    name peers by hexadecimal addresses; and whenever the lock of the queues is
    taken, exactly one thread holds it and can go on. *)
Theorem chunkinfo_safe {S V : Type} `{ST : StateStorer S V} `{CB' : Codec BitVector V} (a : Address) (st : S) (s : sys)
    (Hs : rtc (sstep false false) (init a st) s) :
  crashed s = false /\
  (queuesLk (ci s) = true -> exists i p, threads s !! i = Some p /\ holds p = true /\ (forall e, is_Some (tstep e (ci s) p)) /\
     forall j p', threads s !! j = Some p' -> holds p' = true -> j = i).
Proof.
  apply reached_ok in Hs as Hok. split; [apply Hok|]. intros Hl. destruct (sy_held _ Hok Hl) as (i & p & Hi & Hp).
  exists i, p. split; [done|]. split; [done|]. split; [intros e; by apply holder_runs|].
  intros j p' Hj Hp'. by apply (sy_one _ Hok j i p' p).
Qed.

Module runs.
Definition at_time (t : Z) : Env := {| now := t; first_key := trigger_key [7] [1] |}.

(** [n] steps of the thread [i], a goroutine it starts being [j]. *)
Definition steps (n i j : nat) : list act := replicate n (AStep (at_time 0) i j).

Definition search : Discovery :=
  {| dRoot := [7]; dCtxRoot := [7]; dTargets := Some [[1]; [2]]; dOracles := None; dChain := false; dNodes := [] |}.

(** The search up to its wait, and the requests to both peers. *)
Definition asked : list act := ADiscover search 1 :: steps 18 1 2 ++ steps 18 2 9.

(** The timeout of the first peer is noticed; the first peer answers and the search
    receives; the second peer answers before the search ends. *)
Definition blocked : list act :=
  asked ++ replicate 3 (AStep (at_time 30) 0 9) ++ AAnswer [7] [1] [] 3 :: steps 3 3 9 ++ steps 1 1 9 ++
  AAnswer [7] [2] [] 4 :: steps 3 4 9 ++ steps 1 1 9.

(** An answer names twelve peers between the two reads of the number of peers. *)
Definition names : list (bytes * bytes) := map (fun x => (Boson.String [x], [])) [10; 11; 12; 13; 14; 15; 16; 17; 18; 19; 20; 21].
Definition exceeded : list act :=
  ADiscover search 1 :: steps 18 1 2 ++ steps 7 2 9 ++ AAnswer [7] [1] names 3 :: steps 65 3 9 ++ steps 57 2 9.

(** The queue is dropped while the search fills it. *)
Definition cancelled : list act := ADiscover search 1 :: steps 9 1 2 ++ ACancel [7] 3 :: steps 1 3 9 ++ steps 1 1 2.

Definition malformed : list act := asked ++ AAnswer [7] [1] [([0], [])] 3 :: steps 5 3 9.
End runs.

Lemma search_ok : discovery_ok runs.search.
Proof. split; repeat constructor; done. Qed.

Lemma steps_ok cancels mal n i j : Forall (act_ok cancels mal) (runs.steps n i j).
Proof. by apply Forall_replicate. Qed.

Lemma asked_ok cancels mal : Forall (act_ok cancels mal) runs.asked.
Proof. constructor; [apply search_ok|]. apply Forall_app. split; apply steps_ok. Qed.

Lemma byte_ok x : is_byte x -> bytes_ok [x].
Proof. by constructor. Qed.

Lemma names_ok : info_ok runs.names.
Proof.
  unfold info_ok, runs.names. apply Forall_map. repeat (constructor; [split; [eexists; split; [|reflexivity]; by apply byte_ok|constructor]|]).
  constructor.
Qed.

Section SafeWitness.
#[local] Existing Instance memory_store.
#[local] Existing Instance bits_codec.

Definition asked_state := play runs.asked (init [9] (∅ : gmap bytes BitVector)).

(** A search that has sent its requests. *)
Lemma chunkinfo_safe_witness : exists s, asked_state = Some s /\ crashed s = false.
Proof.
  assert (Hrun : asked_state <> None) by (vm_compute; discriminate).
  destruct asked_state as [s|] eqn:E; [|destruct (Hrun eq_refl)]. exists s. split; [exact eq_refl|].
  apply (chunkinfo_safe [9] (∅ : gmap bytes BitVector) s).
  apply (play_reaches false false runs.asked); [apply asked_ok|exact E].
Defined.
End SafeWitness.

(** C36: the worker that watches timeouts can block for ever: when the timeout of a
    peer is noticed while two peers answer, the channel of the search is full and
    its receiver gone; from then on no timeout of any search is noticed. *)
Theorem worker_blocked {S V : Type} `{ST : StateStorer S V} `{CB' : Codec BitVector V} (a : Address) (st : S) :
  exists s ch q root overlay, rtc (sstep false false) (init a st) s /\ threads s !! 0%nat = Some (TSend ch q root overlay) /\
    forall cancels malformed s', rtc (sstep cancels malformed) s s' -> threads s' !! 0%nat = Some (TSend ch q root overlay).
Proof.
  assert (Hrun : (fun s => (map_to_list (threads s), chans (ci s))) <$> play runs.blocked (init a st)
    = Some ([(4%nat, RFinder [7] [2] []); (3%nat, RFinder [7] [1] []); (0%nat, TSend 0 0 [7] [1])], [Some true]))
    by (vm_compute; reflexivity).
  destruct (play runs.blocked (init a st)) as [s|] eqn:Hplay; [|discriminate Hrun]. apply fmap_Some in Hrun as (s' & [= <-] & Hs).
  injection Hs as Ht Hc.
  assert (Hin : forall i p, threads s !! i = Some p -> (i, p) ∈ map_to_list (threads s)) by (intros; by apply elem_of_map_to_list).
  assert (H0 : threads s !! 0%nat = Some (TSend 0 0 [7] [1])).
  { apply elem_of_map_to_list. rewrite <- Ht. apply list_elem_of_In. simpl. auto. }
  exists s, 0%nat, 0%nat, [7], [1]. split; [|split; [exact H0|]].
  - apply (play_reaches false false runs.blocked); [clear Hplay|exact Hplay].
    repeat (apply Forall_app; split); try apply asked_ok; [by apply Forall_replicate|].
    constructor; [by repeat (constructor || split)|]. repeat (apply Forall_app; split); try apply steps_ok.
    constructor; [by repeat (constructor || split)|]. apply Forall_app; split; apply steps_ok.
  - intros cancels mal s' Hs'. refine (sender_stuck cancels mal s s' 0 _ 0 _ H0 eq_refl Hs'). clear Hplay. split; [exists true; by rewrite <- Hc|].
    intros i p Hi. apply Hin in Hi. rewrite <- Ht in Hi. apply list_elem_of_In in Hi. simpl in Hi.
    destruct Hi as [E|[E|[E|[]]]]; by injection E as _ <-.
Qed.

(** Two reads of the number of peers not yet asked let more requests be under
    way at the same time than [PullingMax]. *)
Theorem pulling_exceeded {S V : Type} `{ST : StateStorer S V} `{CB' : Codec BitVector V} (st : S) :
  exists s q x, rtc (sstep false false) (init [9] st) s /\ heap (ci s) !! q = Some x /\ (PullingMax < length (qPulling x))%nat.
Proof.
  assert (Hrun : (fun s => map (fun x => length (qPulling x)) (heap (ci s))) <$> play runs.exceeded (init [9] st) = Some [14%nat])
    by (vm_compute; reflexivity).
  destruct (play runs.exceeded (init [9] st)) as [s|] eqn:Hplay; [|discriminate Hrun]. apply fmap_Some in Hrun as (s' & [= <-] & Hh).
  destruct (heap (ci s)) as [|x l] eqn:Eh; [discriminate Hh|]. exists s, 0%nat, x. rewrite Eh.
  split; [|split; [exact eq_refl|]].
  - apply (play_reaches false false runs.exceeded); [clear Hplay|exact Hplay]. constructor; [apply search_ok|].
    apply Forall_app. split; [apply steps_ok|]. apply Forall_app. split; [apply steps_ok|].
    constructor; [|apply Forall_app; split; apply steps_ok].
    split; [by apply byte_ok|]. split; [by apply byte_ok|]. intros _. apply names_ok.
  - injection Hh as <- _. unfold PullingMax. lia.
Qed.

(** C37: a search that is cancelled while it fills its queue crashes the node, and so
    does an answer whose name for a peer is not hexadecimal. *)
Theorem search_crashes {S V : Type} `{ST : StateStorer S V} `{CB' : Codec BitVector V} (st : S) :
  (exists s, rtc (sstep true false) (init [9] st) s /\ crashed s = true) /\
  (exists s, rtc (sstep false true) (init [9] st) s /\ crashed s = true).
Proof.
  assert (Hrun : crashed <$> play runs.cancelled (init [9] st) = Some true /\ crashed <$> play runs.malformed (init [9] st) = Some true)
    by (vm_compute; by split).
  destruct Hrun as [H1 H2]. apply fmap_Some in H1 as (s1 & E1 & H1), H2 as (s2 & E2 & H2). split.
  - exists s1. split; [|exact (eq_sym H1)]. apply (play_reaches true false runs.cancelled); [clear E1 E2|exact E1].
    constructor; [apply search_ok|]. apply Forall_app. split; [apply steps_ok|]. constructor; [done|].
    apply Forall_app. split; apply steps_ok.
  - exists s2. split; [|exact (eq_sym H2)]. apply (play_reaches false true runs.malformed); [clear E1 E2|exact E2].
    apply Forall_app. split; [apply asked_ok|]. constructor; [|apply steps_ok].
    split; [by apply byte_ok|]. by split; [apply byte_ok|].
Qed.
