(* ===== verification/ChunkInfoBits.v ===== *)
(** * When a file counts as downloaded

    [OnRetrieved] sets the bit of a chunk in the node's own vector for a file;
    [isDownload] asks whether all bits are set.  [download_iff]: after any calls
    that succeed, a file counts as downloaded exactly if every chunk below the
    greatest length given with a call has been retrieved.  A call without a
    length counts for the chunk's index alone, so that a file can count as
    downloaded after its first chunk, as in the witness. *)

From Stdlib Require Import ZArith Lia ZifyBool.
From stdpp Require Import base gmap list numbers strings.
From S2P Require Import Prelude StateStore AddressBook Boson BitVector ChunkStore Aco ChunkInfo.

Open Scope Z_scope.

(** ** Vectors of exact length *)

Definition exact (bv : BitVector) : Prop := clean bv /\ length (b bv) = Z.to_nat ((bvLen bv + 7) / 8).

Lemma set_length bv i v bv' : set bv i v = Ok bv' -> length (b bv') = length (b bv) /\ bvLen bv' = bvLen bv.
Proof.
  unfold set. destruct (BitVector.Get bv i) as [x|e]; [|done]. cbn [mbind result_bind]. destruct (eqb x v); [by intros [= <-]|].
  destruct (byte_at (b bv) i); [|done]. intros [= <-]. cbn. by rewrite length_insert.
Qed.

Lemma set_loop_length n : forall i bs v bv bv', set_loop n i bs v bv = Ok bv' -> length (b bv') = length (b bv) /\ bvLen bv' = bvLen bv.
Proof.
  induction n as [|n IH]; intros i bs v bv bv'; cbn [set_loop]; [by intros [= <-]|].
  destruct (byte_at bs i) as [x|]; [|done]. destruct (0 <? _); [|by apply IH].
  destruct (set bv i v) as [bv1|] eqn:E; [|done]. cbn [mbind result_bind]. intros E'.
  destruct (set_length _ _ _ _ E) as [<- <-]. by apply (IH _ _ _ _ _ E').
Qed.

Lemma SetBytes_length bv bs bv' : SetBytes bv bs = Ok bv' -> length (b bv') = length (b bv) /\ bvLen bv' = bvLen bv.
Proof. unfold SetBytes. destruct (_ <? _); [done|]. apply set_loop_length. Qed.

Lemma New_length l bv : BitVector.New l = Ok bv -> length (b bv) = Z.to_nat ((l + 7) / 8) /\ bvLen bv = l /\ 0 < l.
Proof.
  unfold BitVector.New, NewFromBytes. cbv zeta. match goal with |- context [?x <? 0] => set (n := x) end. destruct (Z.ltb_spec n 0); [done|].
  destruct (Z.leb_spec l 0); [done|]. destruct (_ <? l); [done|]. intros [= <-]. cbn. rewrite length_replicate.
  split; [|done]. f_equal. unfold n. rewrite Z.quot_div_nonneg, Z.rem_mod_nonneg by lia.
  destruct (Z.eqb_spec (l mod 8) 0); destruct (Z.eqb_spec l 0); cbn [andb negb]; Z.div_mod_to_equations; lia.
Qed.

Definition old_len (old : option BitVector) : Z := match old with Some bv => bvLen bv | None => 0 end.

Lemma next_bits_exact old k l r : (forall bv, old = Some bv -> exact bv) -> 0 <= k < l -> next_bits old k l = Ok r ->
  match r with
  | Some bv => exact bv /\ bvLen bv = Z.max (old_len old) l /\ (forall j, bit (b bv) j = old_bit old j || (j =? Z.to_nat k)%nat)
  | None => exists bv, old = Some bv /\ l <= bvLen bv /\ bit (b bv) (Z.to_nat k) = true
  end.
Proof.
  intros Hold Hk E. pose proof (next_bits_spec old k l r (fun bv E => proj1 (Hold bv E)) Hk E) as Hspec.
  unfold next_bits in E.
  assert (Hset : forall bv0 bv, length (b bv0) = Z.to_nat ((bvLen bv0 + 7) / 8) -> Set_ bv0 k = Ok bv ->
    length (b bv) = Z.to_nat ((bvLen bv + 7) / 8) /\ bvLen bv = bvLen bv0).
  { intros bv0 bv Hl Hs. by destruct (set_length _ _ _ _ Hs) as [-> ->]. }
  assert (Hgoal : forall bv, r = Some bv -> length (b bv) = Z.to_nat ((bvLen bv + 7) / 8) /\ bvLen bv = Z.max (old_len old) l).
  { intros bv ->. destruct old as [bv0|]; cbn [old_len].
    - destruct (Hold bv0 eq_refl) as [_ Hl0]. destruct (Z.ltb_spec (Len bv0) l); unfold Len in *.
      + destruct (BitVector.New l) as [nb|[]] eqn:Hn; try done. destruct (New_length l nb Hn) as (Hln & Hb & _).
        cbn [of_bits mbind result_bind] in E. destruct (SetBytes nb (Bytes bv0)) as [nb2|[]] eqn:Hs; try done.
        cbn [of_bits mbind result_bind] in E. destruct (SetBytes_length _ _ _ Hs) as [Hl2 Hb2].
        destruct (Set_ nb2 k) as [bv1|[]] eqn:Hs2; try done. injection E as ->.
        destruct (Hset nb2 bv) as [H1 H2]; [congruence|done|]. split; [done|]. lia.
      + destruct (BitVector.Get bv0 k) as [[]|[]]; try done. cbn [of_bits mbind result_bind] in E.
        destruct (Set_ bv0 k) as [bv1|[]] eqn:Hs2; try done. injection E as ->.
        destruct (Hset bv0 bv Hl0 Hs2) as [H1 H2]. split; [done|]. lia.
    - destruct (BitVector.New l) as [nb|[]] eqn:Hn; try done. destruct (New_length l nb Hn) as (Hln & Hb & Hpos).
      cbn [of_bits mbind result_bind] in E. destruct (Set_ nb k) as [bv1|[]] eqn:Hs2; try done. injection E as ->.
      destruct (Hset nb bv) as [H1 H2]; [congruence|done|]. split; [done|]. lia. }
  destruct r as [bv|].
  - destruct Hspec as [Hc Hb]. destruct (Hgoal bv eq_refl) as [H1 H2]. done.
  - destruct Hspec as (bv & -> & Hb). exists bv. split; [done|]. split; [|done].
    destruct (Z.ltb_spec (Len bv) l); unfold Len in *; [|done].
    destruct (BitVector.New l) as [nb|[]]; try done. cbn [of_bits mbind result_bind] in E.
    destruct (SetBytes _ _) as [nb2|[]]; try done. cbn [of_bits mbind result_bind] in E. by destruct (Set_ nb2 k) as [|[]].
Qed.

Lemma Equals_exact bv : exact bv -> Equals bv = true <-> forall j, Z.of_nat j < bvLen bv -> bit (b bv) j = true.
Proof.
  intros [[[Hl Hb] _] Hlen]. unfold Equals. pose proof (Z.mod_pos_bound (bvLen bv) 8).
  rewrite equals_from_spec by (done || lia).
  assert (Hlook : looked_at (b bv) (Z.to_nat (bvLen bv mod 8)) = Z.to_nat (bvLen bv)).
  { unfold looked_at. rewrite Hlen. pose proof (Z.div_mod (bvLen bv) 8). destruct (Nat.eqb_spec (Z.to_nat (bvLen bv mod 8)) 0).
    - replace ((bvLen bv + 7) / 8) with (bvLen bv / 8) by (Z.div_mod_to_equations; lia). lia.
    - replace ((bvLen bv + 7) / 8) with (bvLen bv / 8 + 1) by (Z.div_mod_to_equations; lia). lia. }
  rewrite Hlook. split; intros Hj j Hlt; apply Hj; lia.
Qed.

(** ** Calls *)

Section Calls.
Context {S V : Type} `{ST : StateStorer S V} `{CB' : Codec BitVector V}.

Inductive call :=
| CRetrieved (root : Address) (rootLen index : Z) (overlay : Address)
| CTransferred (root : Address) (index : Z) (overlay : Address).

Definition do_call (now : Z) (c : ChunkInfo S) (x : call) : ChunkInfo S * result chunkError unit :=
  match x with
  | CRetrieved root rootLen index overlay => OnRetrieved now rootLen c root index overlay
  | CTransferred root index overlay =>
      match OnTransferred now c root index overlay with (c, Ok _) => (c, Ok tt) | (c, Err e) => (c, Err e) end
  end.

Fixpoint do_calls (now : Z) (c : ChunkInfo S) (l : list call) : ChunkInfo S * result chunkError unit :=
  match l with
  | [] => (c, Ok tt)
  | x :: l => match do_call now c x with (c, Ok _) => do_calls now c l | (c, Err e) => (c, Err e) end
  end.

(** Chunks are transferred to other nodes, and an index is below its length. *)
Definition call_ok (self : Address) (x : call) : Prop :=
  match x with
  | CRetrieved root rootLen index _ => bytes_ok root /\ 0 <= index < 2 ^ 62 /\ (rootLen = 0 \/ index < rootLen)
  | CTransferred root index overlay => bytes_ok root /\ bytes_ok overlay /\ overlay <> self
  end.

(** The lengths and indexes of the chunks of a file that were retrieved. *)
Definition retrieved (root : Address) (l : list call) : list (Z * Z) :=
  omap (fun x => match x with
                 | CRetrieved r rootLen index _ =>
                     if bool_decide (r = root) then Some (if rootLen =? 0 then index + 1 else rootLen, index) else None
                 | CTransferred _ _ _ => None
                 end) l.

Definition max_len (l : list (Z * Z)) : Z := foldr (fun x => Z.max x.1) 0 l.

Definition own (c : ChunkInfo S) (root : Address) : option BitVector := find (service (cstore c)) root (addr c).

(** A vector stands for the chunks retrieved. *)
Record stands (old : option BitVector) (l : list (Z * Z)) : Prop := {
  sd_exact bv : old = Some bv -> exact bv;
  sd_len : old_len old = max_len l;
  sd_bits j : old_bit old j = true <-> Z.of_nat j ∈ map snd l;
  sd_none : old = None <-> l = [];
}.

Lemma max_len_app l x : max_len (l ++ [x]) = Z.max (max_len l) (Z.max x.1 0).
Proof. unfold max_len. induction l as [|y l IH]; simpl; [lia|]. rewrite IH. lia. Qed.

Lemma stands_next old l k n r : stands old l -> 0 <= k < n -> next_bits old k n = Ok r ->
  stands (match r with Some bv => Some bv | None => old end) (l ++ [(n, k)]).
Proof.
  intros [H1 H2 H3 H4] Hk E. pose proof (next_bits_exact old k n r H1 Hk E) as Hn.
  assert (Hin : forall j, Z.of_nat j ∈ map snd (l ++ [(n, k)]) <-> Z.of_nat j ∈ map snd l \/ j = Z.to_nat k).
  { intros j. rewrite map_app, elem_of_app. cbn [map snd]. rewrite list_elem_of_singleton. split; (intros [?|?]; [by left|right; lia]). }
  assert (Hne : l ++ [(n, k)] <> []) by by destruct l.
  destruct r as [bv|].
  - destruct Hn as (Hx & Hl & Hb). split.
    + by intros ? [= <-].
    + cbn [old_len]. rewrite max_len_app, Hl, H2. simpl. lia.
    + intros j. cbn [old_bit]. rewrite Hin, Hb, orb_true_iff, H3, Nat.eqb_eq. done.
    + by split.
  - destruct Hn as (bv & -> & Hl & Hb). split; [done| | |].
    + rewrite max_len_app, <- H2. cbn [old_len]. simpl. lia.
    + intros j. rewrite Hin, H3. split; [by left|]. intros [?| ->]; [done|]. by apply H3.
    + by split.
Qed.

Lemma updateService_table now (c c' : ChunkInfo S) root index len overlay ev :
  updateService now c root index len overlay = (c', Ok ev) ->
  addr c' = addr c /\ exists x, next_bits (find (service (cstore c)) root overlay) index len = Ok x /\
    service (cstore c') = match x with Some bv => put_entry (service (cstore c)) root overlay bv | None => service (cstore c) end.
Proof.
  unfold updateService. cbn [Has]. destruct (ChunkStore.Put _ _ _ _ _) as [cs [[]|e]] eqn:E; [|done].
  cbn [ChunkStore.Put] in E. apply Put_one in E. cbn [Overlay Bit PLen] in E.
  destruct (put_bit_Ok service set_service keyPrefix (cstore c) cs root overlay index len ltac:(done) E) as (x & st' & Hx & _ & ->).
  intros Hc. assert (Hc' : c' = set_cstore c match x with
      | Some bv => set_state (set_service (cstore c) (put_entry (service (cstore c)) root overlay bv)) st' | None => cstore c end).
  { destruct (ChunkStore.Get _ _ _) as [|[]]; by injection Hc as <-. }
  subst c'. split; [done|]. exists x. split; [done|]. by destruct x.
Qed.

Lemma updateSource_service now (c c' : ChunkInfo S) root index len overlay r :
  updateSource now c root index len overlay = (c', r) -> addr c' = addr c /\ service (cstore c') = service (cstore c).
Proof.
  unfold updateSource.
  assert (Hgo : forall x, match any_source x index with
      | Err e => (c, Err e) | Ok true => (c, Ok tt)
      | Ok false => let '(cs, r) := ChunkStore.Put now (cstore c) SOURCE root [MkProvider overlay index len [] 0] in (set_cstore c cs, r)
      end = (c', r) -> addr c' = addr c /\ service (cstore c') = service (cstore c)).
  { intros x. destruct (any_source x index) as [[]|]; try (by intros [= <- _]).
    cbn [ChunkStore.Put put_each Overlay Bit PLen]. unfold putChunkSource, put_bit, persist.
    destruct (next_bits _ _ _) as [[bv|]|[]]; try (by intros [= <- _]). destruct (StateStore.Put _ _ _); by intros [= <- _]. }
  destruct (ChunkStore.Get _ _ _) as [x|[]]; try apply Hgo. by intros [= <- _].
Qed.

(** The node's own vectors stand for the calls made so far. *)
Definition stood (self : Address) (c : ChunkInfo S) (l : list call) : Prop :=
  addr c = self /\ forall root, bytes_ok root -> stands (own c root) (retrieved root l).

Lemma retrieved_app root l x : retrieved root (l ++ [x]) = retrieved root l ++ retrieved root [x].
Proof. apply omap_app. Qed.

Lemma call_stood self now (c c' : ChunkInfo S) l x : bytes_ok self -> call_ok self x -> stood self c l ->
  do_call now c x = (c', Ok tt) -> stood self c' (l ++ [x]).
Proof.
  intros Hself Hx [Ha Hs] E. destruct x as [root rootLen index overlay|root index overlay]; cbn [do_call call_ok] in *.
  - destruct Hx as (Hr & Hi & Hl). unfold OnRetrieved in E. rewrite i64_small in E by lia.
    destruct (updateService _ _ _ _ _ _) as [c1 [ev|]] eqn:E1; [|done].
    apply updateSource_service in E as [Ha2 Hs2]. apply updateService_table in E1 as [Ha1 (r & Hn & Hs1)].
    split; [congruence|]. intros root' Hr'. unfold own. rewrite Hs2, Hs1, Ha2, Ha1. rewrite retrieved_app. cbn [retrieved omap list_omap].
    specialize (Hs root'). unfold own in Hs. rewrite Ha in *. set (n := if rootLen =? 0 then _ else _) in *.
    assert (Hn' : 0 <= index < n) by (unfold n; destruct (Z.eqb_spec rootLen 0); lia).
    destruct (decide (root = root')) as [<-|Hne].
    + rewrite bool_decide_eq_true_2 by done. pose proof (stands_next _ _ _ _ _ (Hs Hr) Hn' Hn) as Hst.
      destruct r as [bv|]; [|done]. rewrite find_put, decide_True by done. done.
    + rewrite bool_decide_eq_false_2, app_nil_r by done. destruct r as [bv|]; [|by apply Hs].
      rewrite find_put, decide_False; [by apply Hs|]. intros [Eq _]. by apply Hne, String_inj.
  - destruct Hx as (Hr & Ho & Hne). unfold OnTransferred in E. destruct (updateService _ _ _ _ _ _) as [c1 [ev|]] eqn:E1; [|done].
    injection E as <-. apply updateService_table in E1 as [Ha1 (r & Hn & Hs1)].
    split; [congruence|]. intros root' Hr'. unfold own. rewrite Hs1, Ha1, retrieved_app. cbn [retrieved omap list_omap].
    rewrite app_nil_r. specialize (Hs root' Hr'). unfold own in Hs. destruct r as [bv|]; [|done].
    rewrite find_put, decide_False; [done|]. intros [_ Eq]. apply Hne, String_inj; [done|congruence|congruence].
Qed.

Lemma calls_stood self now l : forall (c c' : ChunkInfo S) done, bytes_ok self -> Forall (call_ok self) l -> stood self c done ->
  do_calls now c l = (c', Ok tt) -> stood self c' (done ++ l).
Proof.
  induction l as [|x l IH]; intros c c' done Hself Hl Hs; cbn [do_calls]; [intros [= <-]; by rewrite app_nil_r|].
  inversion_clear Hl as [|?? Hx Hl']. destruct (do_call now c x) as [c1 [[]|]] eqn:E; [|by intros].
  intros E'. rewrite cons_middle, app_assoc. apply (IH c1); [done..| |done]. by eapply call_stood.
Qed.

Lemma stood_new self st : stood self (New self (ChunkStore.New st)) [].
Proof.
  split; [done|]. intros root _. split; try done. intros j. cbn. split; [done|]. intros Hj. by apply not_elem_of_nil in Hj.
Qed.

Lemma isDownload_own (c : ChunkInfo S) root : isDownload c root =
  match own c root with Some bv => match NewFromBytes (b bv) (bvLen bv) with Ok bv => Equals bv | Err _ => false end | None => false end.
Proof. unfold isDownload, own. cbn [GetByOverlay]. by destruct (find _ _ _). Qed.
End Calls.

(** * Properties *)

(** C21: after any sequence of successful calls of [OnRetrieved] and [OnTransferred], a
    file counts as downloaded if and only if some chunk of it was retrieved and so
    was every chunk below the greatest length that came with a call. *)
Theorem download_iff {S V : Type} `{ST : StateStorer S V} `{CB' : Codec BitVector V} (self root : Address) (now : Z) (st : S)
    (l : list call) (c : ChunkInfo S)
    (Hself : bytes_ok self) (Hroot : bytes_ok root) (Hl : Forall (call_ok self) l)
    (Hrun : do_calls now (New self (ChunkStore.New st)) l = (c, Ok tt)) :
  isDownload c root = true <->
  retrieved root l <> [] /\ forall i, 0 <= i < max_len (retrieved root l) -> i ∈ map snd (retrieved root l).
Proof.
  destruct (calls_stood self now l _ _ [] Hself Hl (stood_new self st) Hrun) as [_ Hs]. cbn [app] in Hs.
  destruct (Hs root Hroot) as [H1 H2 H3 H4]. rewrite isDownload_own. destruct (own c root) as [bv|]; cbn [old_len old_bit] in *.
  - destruct (H1 bv eq_refl) as [[Hw Hc] Hlen]. rewrite NewFromBytes_wf by done. rewrite Equals_exact by done.
    split.
    + intros Hb. split; [by intros E; apply H4 in E|]. intros i Hi. rewrite <- (Z2Nat.id i) by lia. apply H3, Hb. lia.
    + intros [_ Hall] j Hj. apply H3, Hall. lia.
  - split; [done|]. intros [Hne _]. destruct Hne. by apply H4.
Qed.

Section DownloadWitness.
#[local] Existing Instance memory_store.
#[local] Existing Instance bits_codec.

Definition first_chunk : list call := [CRetrieved [7] 0 0 [1]].

(** The first chunk of a file, retrieved without a length. *)
Lemma download_iff_witness :
  isDownload (do_calls 0 (New [9] (ChunkStore.New (∅ : gmap bytes BitVector))) first_chunk).1 [7] = true.
Proof.
  assert (Hb : forall x, is_byte x -> bytes_ok [x]) by (intros; by constructor).
  apply (download_iff [9] [7] 0 ∅ first_chunk); [by apply Hb|by apply Hb| |reflexivity|].
  - constructor; [|constructor]. split; [by apply Hb|]. split; [lia|by left].
  - split; [done|]. intros i Hi. simpl in Hi. simpl. assert (i = 0) as -> by lia. left.
Defined.
End DownloadWitness.
