(* ===== verification/Retrieval.v ===== *)
(** * Fetching and serving chunks (pkg/retrieval/retrieval.go, pkg/netstore)

    [retrieveChunk] asks one peer for a chunk, checks what it sends, credits the
    peer, records the source and stores the chunk; [handler] serves a chunk from
    the store or, as a relay, from its target.  The loop of [RetrieveChunk] over the
    routes is in [RetrievalRoutes].

    What the network does during a call is an argument ([Net]).  The chunk store is
    the class [Storer]; accounting and chunk info are the definitions of [Accounting]
    and [ChunkInfo].  A panic is the error [panicked] of the chunk info. *)

From Stdlib Require Import ZArith Lia ZifyBool.
From stdpp Require Import base gmap list numbers strings.
From S2P Require Import Prelude StateStore Crypto Chunk Accounting BitVector ChunkStore Aco ChunkInfo Boson.

Open Scope Z_scope.

Inductive storerError := storerNotFound | storerFailed.

(** [storage.Storer]: chunks read back are chunks that were put. *)
Class Storer (St : Type) := {
  storer_Get : St -> Address -> result storerError bytes;
  storer_Put : St -> Address -> chunk -> St * result storerError bool;
  storer_put_get st root ch st' r a d : storer_Put st root ch = (st', r) -> storer_Get st' a = Ok d ->
    storer_Get st a = Ok d \/ a = Boson.addr ch /\ d = sdata ch;
  storer_put_ok st root ch st' x : storer_Put st root ch = (st', Ok x) -> exists d, storer_Get st' (Boson.addr ch) = Ok d;
}.

Definition traffic : Z := 256.
Definition totalRouteCount : nat := 5.
Definition maxRequestAttempt : nat := 2.

Inductive retrievalError {E : Type} :=
| errConnect
| errAccounting (e : accError E)
| errStream
| errWrite
| errRead
| ErrInvalidChunk
| errChunkInfo (e : chunkError)
| errStore
| errRetrievalNotFound
| errNoRoute
| ErrRecoveryAttempt.
Arguments retrievalError : clear implicits.

Record RequestChunk := { TargetAddr : Address; RootAddr : Address; ChunkAddr : Address; rBit : Z }.

(** What happens on the network: [reply] is the data of the delivery; [timedOut]
    that the timeout of the request was reached, [parentDone] that the context of
    the caller was cancelled; [sent] and [inTime] are used by the handler. *)
Record Net := {
  connected : bool;
  opened : bool;
  written : bool;
  reply : option bytes;
  timedOut : bool;
  parentDone : bool;
  startMs : Z;
  endMs : Z;
  time : Z;
  sent : bool;
  inTime : bool;
}.

(** A valid chunk received from a peer, a chunk delivered to a peer. *)
Inductive event := Received (link : Address) (ch : chunk) | Delivered (peer a : Address) (d : bytes).

Section Retrieval.
Context `{BS : BmtSum} `{EC : Ecdsa} {T E : Type} `{SE : Settlement T E}.
Context {S V : Type} `{ST : StateStorer S V} `{CB' : Codec BitVector V} {St : Type} `{SR : Storer St}.

(** [due] is what was sent to the settling goroutine. *)
Record Node := MkNode {
  acoServer : AcoServer;
  accounting : Accounting;
  settlement : T;
  due : list (Address * Z);
  chunkinfo : ChunkInfo S;
  storer : St;
  relay : bool;
}.

Definition set_aco n x := MkNode x (accounting n) (settlement n) (due n) (chunkinfo n) (storer n) (relay n).
Definition set_books n a t d := MkNode (acoServer n) a t d (chunkinfo n) (storer n) (relay n).
Definition set_info n x := MkNode (acoServer n) (accounting n) (settlement n) (due n) x (storer n) (relay n).
Definition set_storer n x := MkNode (acoServer n) (accounting n) (settlement n) (due n) (chunkinfo n) x (relay n).

Definition chunk_valid (ch : chunk) : bool := cac.Valid ch || soc.Valid ch.

(** [retrieveChunk] from the delivery on. *)
Definition deliver (e : Net) (n : Node) (route : Route) (rootAddr chunkAddr : Address) (index : Z) (d : bytes) :
    Node * list event * result (retrievalError E) chunk :=
  let chunk := NewChunk chunkAddr d in
  if negb (chunk_valid chunk) then (n, [], Err ErrInvalidChunk)
  else
    let ev := [Received (LinkNode route) chunk] in
    match Credit (LinkNode route) traffic (accounting n) (settlement n) with
    | (a, t, pays, Err x) => (set_books n a t (due n ++ pays), ev, Err (errAccounting x))
    | (a, t, pays, Ok _) =>
        let n := set_books n a t (due n ++ pays) in
        match OnRetrieved (time e) 0 (chunkinfo n) rootAddr index (LinkNode route) with
        | (c, Err x) => (set_info n c, ev, Err (errChunkInfo x))
        | (c, Ok _) =>
            let n := set_info n c in
            match storer_Put (storer n) rootAddr chunk with
            | (st, Err _) => (set_storer n st, ev, Err errStore)
            | (st, Ok _) => (set_storer n st, ev, Ok chunk)
            end
        end
    end.

Definition reserve (n : Node) (peer : Address) : Node * result (retrievalError E) unit :=
  match Reserve peer traffic (accounting n) (settlement n) with
  | (a, t, Ok _) => (set_books n a t (due n), Ok tt)
  | (a, t, Err x) => (set_books n a t (due n), Err (errAccounting x))
  end.

(** The body of [retrieveChunk], with the size of the data and whether the context
    with the timeout had been made. *)
Definition fetch (e : Net) (n : Node) (route : Route) (rootAddr chunkAddr : Address) (index : Z) :
    Node * list event * result (retrievalError E) chunk * Z * bool :=
  if negb (connected e) then (n, [], Err errConnect, 0, false)
  else
    match reserve n (LinkNode route) with
    | (n, Err x) => (n, [], Err x, 0, false)
    | (n, Ok _) =>
        if negb (opened e) then (n, [], Err errStream, 0, true)
        else if negb (written e) then (n, [], Err errWrite, 0, true)
        else match reply e with
             | None => (n, [], Err errRead, 0, true)
             | Some d => (deliver e n route rootAddr chunkAddr index d, zlen d, true)
             end
    end.

Definition is_err {A B} (r : result A B) : bool := match r with Err _ => true | Ok _ => false end.

(** The deferred functions run in reverse order: the context with the timeout is
    cancelled before the first of them looks at it.  The last component says
    whether a search for a route was started. *)
Definition retrieveChunk (e : Net) (n : Node) (route : Route) (rootAddr chunkAddr : Address) (index : Z) :
    Node * list event * result (retrievalError E) chunk * bool :=
  let n := set_aco n (OnDownloadStart (acoServer n) route) in
  let '(n, ev, r, dataSize, late) := fetch e n route rootAddr chunkAddr index in
  let n := set_aco n (OnDownloadEnd (acoServer n) route) in
  let cancelled := if late : bool then negb (timedOut e) else parentDone e in
  let n := if negb (is_err r) || negb cancelled
           then set_aco n (OnDownloadFinish (acoServer n) route (MkDetail (startMs e) (endMs e) dataSize)) else n in
  (n, ev, r, is_err r && negb cancelled).

Definition RetrieveChunkFromNode (e : Net) (n : Node) (targetNode rootAddr chunkAddr : Address) (index : Z) :
    Node * list event * result (retrievalError E) chunk :=
  if negb (relay n) then (n, [], Err errRetrievalNotFound)
  else
    let '(n, ev, r, _) := retrieveChunk e n (NewRoute targetNode targetNode) rootAddr chunkAddr index in
    (n, ev, match r with Ok ch => if inTime e then Ok ch else Err errRetrievalNotFound | Err _ => Err errRetrievalNotFound end).

(** The part of [handler] after the chunk was found. *)
Definition transfer (e : Net) (n : Node) (peer : Address) (isFull : bool) (req : RequestChunk) (d : bytes) :
    Node * list event * result (retrievalError E) unit :=
  if negb (sent e) then (n, [], Err errWrite)
  else
    let ev := [Delivered peer (ChunkAddr req) d] in
    match Debit peer traffic (accounting n) (settlement n) with
    | (a, t, Err x) => (set_books n a t (due n), ev, Err (errAccounting x))
    | (a, t, Ok _) =>
        let n := set_books n a t (due n) in
        if isFull then
          match OnTransferred (time e) (chunkinfo n) (RootAddr req) (rBit req) peer with
          | (c, Err x) => (set_info n c, ev, Err (errChunkInfo x))
          | (c, Ok _) => (set_info n c, ev, Ok tt)
          end
        else (n, ev, Ok tt)
    end.

Definition handler (e : Net) (n : Node) (peer : Address) (isFull : bool) (req : RequestChunk) :
    Node * list event * result (retrievalError E) unit :=
  match storer_Get (storer n) (ChunkAddr req) with
  | Ok d => transfer e n peer isFull req d
  | Err storerNotFound =>
      if Equal (ChunkInfo.addr (chunkinfo n)) (TargetAddr req) then (n, [], Err errRetrievalNotFound)
      else
        match RetrieveChunkFromNode e n (TargetAddr req) (RootAddr req) (ChunkAddr req) (rBit req) with
        | (n, ev, Err x) => (n, ev, Err x)
        | (n, ev, Ok ch) => let '(n, ev', r) := transfer e n peer isFull req (sdata ch) in (n, ev ++ ev', r)
        end
  | Err storerFailed => (n, [], Err errStore)
  end.

(** The routes to try; [None] is a panic. *)
Definition getRetrievalRouteList (draw : nat -> Z -> Z) (now : Z) (neighbor : Address -> option (list Address)) (n : Node)
    (targets : option (list Address)) (rootAddr : Address) (bit : Z) : option (list Route) :=
  match targets with
  | Some targets => Some (map (fun target => MkRoute target target) targets)
  | None =>
      chunkResult ← FindRoutes neighbor (chunkinfo n) rootAddr bit;
      match chunkResult with
      | [] => Some []
      | _ =>
          l ← GetRouteAcoIndex draw now (acoServer n) chunkResult (Some totalRouteCount);
          mapM (fun acoIndex => chunkResult !! acoIndex) l
      end
  end.

(** [netstore.Store.Get]; [retrieve] is what [RetrieveChunk] does to the node. *)
Definition netstore_Get (now rootLen : Z) (n : Node) (rootHash a : Address) (index : Z)
    (retrieve : Node -> Node * result (retrievalError E) chunk) : Node * result (retrievalError E) chunk :=
  match storer_Get (storer n) a with
  | Err storerNotFound =>
      if Equal rootHash [] then (n, Err errRetrievalNotFound)
      else match retrieve n with
           | (n, Ok ch) => (n, Ok ch)
           | (n, Err _) => (n, Err ErrRecoveryAttempt)
           end
  | Err storerFailed => (n, Err errStore)
  | Ok d =>
      if Equal rootHash [] then (n, Ok (NewChunk a d))
      else match OnRetrieved now rootLen (chunkinfo n) rootHash index (ChunkInfo.addr (chunkinfo n)) with
           | (c, Err panicked) => (set_info n c, Err (errChunkInfo panicked))
           | (c, _) => (set_info n c, Ok (NewChunk a d))
           end
  end.

(** ** Books and chunks of a node *)

Context `{SL : !SettlementLaws T E}.

Lemma books_same_refl t : sgood t -> same t t.
Proof. by intros. Qed.

Lemma books_same_trans t1 t2 t3 : same t1 t2 -> same t2 t3 -> same t1 t3.
Proof.
  intros (_ & H1 & H2) (Hg & H3 & H4). split; [done|]. split; intros k; [by rewrite H3, H1|by rewrite H4, H2].
Qed.

Lemma getAccountingPeer_same p a t a' t' r : sgood t -> getAccountingPeer p a t = (a', t', r) -> same t t'.
Proof.
  intros Hg. unfold getAccountingPeer. destruct (accountingPeers a !! _); [intros [= _ <- _]; by apply books_same_refl|].
  destruct (RetrieveTraffic p t) as [t1 [z|x]] eqn:E1; intros [= _ <- _]; by apply (retrieve_spec p t t1 _ Hg) in E1 as [? _].
Qed.

Lemma Reserve_same p x a t a' t' r : sgood t -> Reserve p x a t = (a', t', r) -> same t t'.
Proof.
  intros Hg. unfold Reserve. destruct (getAccountingPeer p a t) as [[a1 t1] [ap|y]] eqn:E1; cycle 1.
  { intros [= _ <- _]. by eapply getAccountingPeer_same. }
  apply getAccountingPeer_same in E1 as H1; [|done]. unfold reserve_check.
  destruct (AvailableBalance t1) as [t2 [z|y]] eqn:E2; intros [= _ <- _];
    (eapply books_same_trans; [done|by eapply available_spec; [apply H1|]]).
Qed.

Lemma Credit_books p x a t a' t' d r : sgood t -> 0 <= x -> Credit p x a t = (a', t', d, r) ->
  sgood t' /\ (forall k, owed t' k = owed t k) /\ (forall k, k <> Boson.String p -> debt t' k = debt t k) /\
  debt t (Boson.String p) <= debt t' (Boson.String p) <= debt t (Boson.String p) + x.
Proof.
  intros Hg Hx. unfold Credit. destruct (getAccountingPeer p a t) as [[a1 t1] [ap|y]] eqn:E1;
    apply getAccountingPeer_same in E1 as (Hg1 & Hd1 & Ho1); try done; cycle 1.
  { intros [= _ <- _ _]. split; [done|]. split; [done|]. split; [by intros|]. rewrite Hd1. lia. }
  destruct (PutRetrieveTraffic p x t1) as [t2 r2] eqn:E2.
  destruct (put_retrieve_spec p x t1 t2 r2 Hg1 Hx E2) as (Hg2 & Ho2 & Hd2 & Hp).
  assert (Hall : sgood t2 /\ (forall k, owed t2 k = owed t k) /\ (forall k, k <> Boson.String p -> debt t2 k = debt t k) /\
    debt t (Boson.String p) <= debt t2 (Boson.String p) <= debt t (Boson.String p) + x).
  { split; [done|]. split; [intros k; by rewrite Ho2, Ho1|]. split; [intros k Hk; by rewrite Hd2, Hd1|].
    rewrite Hd1 in Hp. destruct Hp as [->|[-> _]]; lia. }
  destruct r2; by intros [= _ <- _ _].
Qed.

Lemma Debit_books p x a t a' t' r : sgood t -> 0 <= x -> Debit p x a t = (a', t', r) ->
  sgood t' /\ (forall k, debt t' k = debt t k) /\ (forall k, k <> Boson.String p -> owed t' k = owed t k) /\
  owed t (Boson.String p) <= owed t' (Boson.String p) <= owed t (Boson.String p) + x.
Proof.
  intros Hg Hx. assert (Hsame : forall t2, same t t2 -> sgood t2 /\ (forall k, debt t2 k = debt t k) /\
    (forall k, k <> Boson.String p -> owed t2 k = owed t k) /\
    owed t (Boson.String p) <= owed t2 (Boson.String p) <= owed t (Boson.String p) + x).
  { intros t2 (H1 & H2 & H3). split; [done|]. split; [done|]. split; [by intros|]. rewrite H3. lia. }
  unfold Debit. destruct (getAccountingPeer p a t) as [[a1 t1] [ap|y]] eqn:E1;
    apply getAccountingPeer_same in E1 as Hs1; try done; [|intros [= _ <- _]; by apply Hsame].
  unfold debit_check. destruct (TransferTraffic p t1) as [t2 r2] eqn:E2.
  apply transfer_spec in E2 as [Hs2 _]; [|apply Hs1]. pose proof (books_same_trans _ _ _ Hs1 Hs2) as Hs.
  destruct r2 as [z|y]; [|intros [= _ <- _]; by apply Hsame].
  destruct (_ <=? z); [intros [= _ <- _]; by apply Hsame|].
  destruct (PutTransferTraffic p x t2) as [t3 r3] eqn:E3. intros [= _ <- _]. destruct Hs as (Hg2 & Hd2 & Ho2).
  destruct (put_transfer_spec p x t2 t3 r3 Hg2 Hx E3) as (Hg3 & Hd3 & Ho3 & Hp).
  split; [done|]. split; [intros k; by rewrite Hd3, Hd2|]. split; [intros k Hk; by rewrite Ho3, Ho2|].
  rewrite Ho2 in Hp. destruct Hp as [->|[-> _]]; lia.
Qed.

Definition is_received (k : bytes) (x : event) : bool := match x with Received link _ => bool_decide (Boson.String link = k) | _ => false end.
Definition is_delivered (k : bytes) (x : event) : bool := match x with Delivered peer _ _ => bool_decide (Boson.String peer = k) | _ => false end.

(** How many valid chunks came from the peer named [k], and went to it. *)
Definition received (k : bytes) (ev : list event) : Z := zlen (List.filter (is_received k) ev).
Definition delivered (k : bytes) (ev : list event) : Z := zlen (List.filter (is_delivered k) ev).

Definition event_valid (x : event) : Prop :=
  match x with Received _ ch => chunk_valid ch = true | Delivered _ a d => chunk_valid (NewChunk a d) = true end.

Definition store_valid (st : St) : Prop := forall a d, storer_Get st a = Ok d -> chunk_valid (NewChunk a d) = true.

Definition node_ok (n : Node) : Prop := sgood (settlement n) /\ store_valid (storer n).

(** From [n] to [n'] with the events [ev] the node books no more than chunks changed
    hands, and keeps and delivers valid chunks only. *)
Record booked (n n' : Node) (ev : list event) : Prop := {
  bk_ok : node_ok n';
  bk_debt k : debt (settlement n) k <= debt (settlement n') k <= debt (settlement n) k + traffic * received k ev;
  bk_owed k : owed (settlement n) k <= owed (settlement n') k <= owed (settlement n) k + traffic * delivered k ev;
  bk_events : Forall event_valid ev;
}.

Lemma counts_app (f : event -> bool) l l' : zlen (List.filter f (l ++ l')) = zlen (List.filter f l) + zlen (List.filter f l').
Proof. rewrite List.filter_app, length_app. lia. Qed.

Lemma booked_same n n' : node_ok n -> same (settlement n) (settlement n') -> store_valid (storer n') -> booked n n' [].
Proof.
  intros Hn (Hg & Hd & Ho) Hst. split; [by split| | |constructor].
  - intros k. rewrite Hd. change (received k []) with 0. lia.
  - intros k. rewrite Ho. change (delivered k []) with 0. lia.
Qed.

Lemma booked_refl n n' : node_ok n -> settlement n' = settlement n -> storer n' = storer n -> booked n n' [].
Proof. intros [Hg Hs] E1 E2. apply booked_same; [done|rewrite E1; by apply books_same_refl|by rewrite E2]. Qed.

Lemma booked_trans n1 n2 n3 ev ev' : booked n1 n2 ev -> booked n2 n3 ev' -> booked n1 n3 (ev ++ ev').
Proof.
  intros [H1 H2 H3 H4] [H5 H6 H7 H8]. split; [done| | |by apply Forall_app].
  - intros k. specialize (H2 k). specialize (H6 k). unfold received in *. rewrite counts_app. lia.
  - intros k. specialize (H3 k). specialize (H7 k). unfold delivered in *. rewrite counts_app. lia.
Qed.

Lemma booked_end n1 n2 n3 ev : booked n1 n2 ev -> settlement n3 = settlement n2 -> storer n3 = storer n2 -> booked n1 n3 ev.
Proof.
  intros H1 E1 E2. rewrite <- (app_nil_r ev). apply (booked_trans _ n2); [done|]. apply booked_refl; [apply H1|done|done].
Qed.

Lemma store_valid_put st root ch st' r : store_valid st -> chunk_valid ch = true -> storer_Put st root ch = (st', r) -> store_valid st'.
Proof.
  intros Hst Hc Ep a d Hg. destruct (storer_put_get _ _ _ _ _ _ _ Ep Hg) as [H1|[-> ->]]; [by apply Hst|].
  by destruct ch.
Qed.

Lemma reserve_booked n p n' r : node_ok n -> reserve n p = (n', r) -> booked n n' [].
Proof.
  intros [Hg Hs]. unfold reserve. destruct (Reserve _ _ _ _) as [[a t] x] eqn:Er.
  apply Reserve_same in Er as Ht; [|done]. destruct x; intros [= <- _]; by apply booked_same.
Qed.

Lemma credit_booked n p a t pays r ch : node_ok n -> chunk_valid ch = true ->
  Credit p traffic (accounting n) (settlement n) = (a, t, pays, r) -> booked n (set_books n a t (due n ++ pays)) [Received p ch].
Proof.
  intros [Hg Hs] Hc Ec. apply Credit_books in Ec as (Hg' & Ho & Hd & Hp); [|done|done]. split; [by split| | |by constructor].
  - intros k. unfold received. cbn [List.filter is_received settlement set_books]. case_bool_decide as Hk; cbn [length].
    + subst k. unfold traffic in *. lia.
    + rewrite (Hd k) by done. lia.
  - intros k. change (delivered k _) with 0. cbn [settlement set_books]. rewrite Ho. lia.
Qed.

Lemma debit_booked n p a t r ca d : node_ok n -> chunk_valid (NewChunk ca d) = true ->
  Debit p traffic (accounting n) (settlement n) = (a, t, r) -> booked n (set_books n a t (due n)) [Delivered p ca d].
Proof.
  intros [Hg Hs] Hc Ec. apply Debit_books in Ec as (Hg' & Hd & Ho & Hp); [|done|done]. split; [by split| | |by constructor].
  - intros k. change (received k _) with 0. cbn [settlement set_books]. rewrite Hd. lia.
  - intros k. unfold delivered. cbn [List.filter is_delivered settlement set_books]. case_bool_decide as Hk; cbn [length].
    + subst k. unfold traffic in *. lia.
    + rewrite (Ho k) by done. lia.
Qed.

Lemma deliver_booked e n route root ca index d n' ev r : node_ok n -> deliver e n route root ca index d = (n', ev, r) ->
  booked n n' ev /\ (forall ch, r = Ok ch -> ch = NewChunk ca d /\ chunk_valid ch = true /\ exists d', storer_Get (storer n') ca = Ok d').
Proof.
  intros Hn. unfold deliver. destruct (chunk_valid _) eqn:Hv; cbn [negb]; [|intros [= <- <- <-]; split; [by apply booked_refl|done]].
  destruct (Credit _ _ _ _) as [[[a t] pays] x] eqn:Ec. pose proof (credit_booked _ _ _ _ _ _ _ Hn Hv Ec) as Hb.
  destruct x as [[]|x]; [|intros [= <- <- <-]; by split].
  destruct (OnRetrieved _ _ _ _ _ _) as [c [[]|x]]; [|intros [= <- <- <-]; split; [by eapply booked_end|done]].
  destruct (storer_Put _ _ _) as [st y] eqn:Ep. cbn [storer set_info set_books] in Ep.
  assert (Hb' : booked n (set_storer (set_info (set_books n a t (due n ++ pays)) c) st) [Received (LinkNode route) (NewChunk ca d)]).
  { destruct Hb as [[Hg Hs] H2 H3 H4]. split; try done. split; [done|]. by eapply store_valid_put. }
  destruct y as [y|y]; intros [= <- <- <-]; split; try done. intros ch [= <-]. split; [done|]. split; [done|].
  by apply storer_put_ok in Ep.
Qed.

Lemma fetch_booked e n route root ca index n' ev r size late : node_ok n ->
  fetch e n route root ca index = (n', ev, r, size, late) ->
  booked n n' ev /\ (forall ch, r = Ok ch -> Boson.addr ch = ca /\ chunk_valid ch = true /\ exists d', storer_Get (storer n') ca = Ok d').
Proof.
  intros Hn. unfold fetch. assert (Hsame : booked n n []) by (by apply booked_refl).
  destruct (connected e); cbn [negb]; [|by intros [= <- <- <- _ _]].
  destruct (reserve n _) as [n1 [[]|x]] eqn:Er; apply reserve_booked in Er as H1; try done; [|by intros [= <- <- <- _ _]].
  destruct (opened e); cbn [negb]; [|by intros [= <- <- <- _ _]]. destruct (written e); cbn [negb]; [|by intros [= <- <- <- _ _]].
  destruct (reply e) as [d|]; [|by intros [= <- <- <- _ _]].
  destruct (deliver _ _ _ _ _ _ _) as [[n2 ev2] r2] eqn:Ed. intros [= <- <- <- _ _].
  apply deliver_booked in Ed as [H2 H3]; [|apply H1]. split; [by apply (booked_trans _ _ _ [] _ H1)|].
  intros ch Hc. by destruct (H3 ch Hc) as (-> & H4 & H5).
Qed.

Lemma retrieveChunk_booked e n route root ca index n' ev r f : node_ok n ->
  retrieveChunk e n route root ca index = (n', ev, r, f) ->
  booked n n' ev /\ (forall ch, r = Ok ch -> Boson.addr ch = ca /\ chunk_valid ch = true /\ exists d', storer_Get (storer n') ca = Ok d').
Proof.
  intros Hn. unfold retrieveChunk. set (n0 := set_aco n _).
  destruct (fetch e n0 route root ca index) as [[[[n1 ev1] r1] size] late] eqn:Ef.
  apply fetch_booked in Ef as [H1 H2]; [|done]. intros [= <- <- <- _].
  assert (H1' : booked n n1 ev1) by (apply (booked_trans _ n0 _ []); [by apply booked_refl|done]).
  match goal with |- booked _ ?x _ /\ _ => set (n2 := x) end.
  assert (Hs : settlement n2 = settlement n1 /\ storer n2 = storer n1) by (unfold n2; by case_match).
  destruct Hs as [Es Et]. split; [by eapply booked_end|]. by rewrite Et.
Qed.

Lemma transfer_booked e n peer full req d n' ev r : node_ok n -> chunk_valid (NewChunk (ChunkAddr req) d) = true ->
  transfer e n peer full req d = (n', ev, r) -> booked n n' ev.
Proof.
  intros Hn Hv. unfold transfer. destruct (sent e); cbn [negb]; [|intros [= <- <- <-]; by apply booked_refl].
  destruct (Debit _ _ _ _) as [[a t] x] eqn:Ed. pose proof (debit_booked _ _ _ _ _ _ _ Hn Hv Ed) as Hb.
  destruct x as [[]|x]; [|by intros [= <- <- <-]]. destruct full; [|by intros [= <- <- <-]].
  destruct (OnTransferred _ _ _ _ _) as [c [y|y]]; intros [= <- <- <-]; by eapply booked_end.
Qed.

Lemma handler_booked e n peer full req n' ev r : node_ok n -> handler e n peer full req = (n', ev, r) -> booked n n' ev.
Proof.
  intros Hn. unfold handler. destruct (storer_Get _ _) as [d|[]] eqn:Eg.
  - intros Et. eapply transfer_booked; [done| |done]. by apply (proj2 Hn).
  - destruct (Equal _ _); [intros [= <- <- <-]; by apply booked_refl|]. unfold RetrieveChunkFromNode.
    destruct (relay n); cbn [negb]; [|intros [= <- <- <-]; by apply booked_refl].
    destruct (retrieveChunk _ _ _ _ _ _) as [[[n1 ev1] r1] f] eqn:Er. apply retrieveChunk_booked in Er as [H1 H2]; [|done].
    destruct r1 as [ch|x]; [|by intros [= <- <- <-]]. destruct (inTime e); [|by intros [= <- <- <-]].
    destruct (transfer _ _ _ _ _ _) as [[n2 ev2] r2] eqn:Et. intros [= <- <- <-]. apply (booked_trans _ n1); [done|].
    destruct (H2 ch eq_refl) as (Ha & Hv & _). eapply transfer_booked; [apply H1| |done].
    destruct ch as [ca cd ct]. cbn [Boson.addr] in Ha. by subst ca.
  - intros [= <- <- <-]. by apply booked_refl.
Qed.

(** What a node does: the steps of requests may overlap, so the reservation and the
    delivery are operations of their own. *)
Inductive op :=
| OpReserve (peer : Address)
| OpDeliver (e : Net) (route : Route) (rootAddr chunkAddr : Address) (index : Z) (d : bytes)
| OpRetrieve (e : Net) (route : Route) (rootAddr chunkAddr : Address) (index : Z)
| OpHandle (e : Net) (peer : Address) (isFull : bool) (req : RequestChunk)
| OpPut (rootAddr : Address) (ch : chunk).

Definition do_op (n : Node) (o : op) : Node * list event :=
  match o with
  | OpReserve peer => ((reserve n peer).1, [])
  | OpDeliver e route rootAddr chunkAddr index d => (deliver e n route rootAddr chunkAddr index d).1
  | OpRetrieve e route rootAddr chunkAddr index => (retrieveChunk e n route rootAddr chunkAddr index).1.1
  | OpHandle e peer isFull req => (handler e n peer isFull req).1
  | OpPut rootAddr ch => (set_storer n (storer_Put (storer n) rootAddr ch).1, [])
  end.

Fixpoint do_ops (n : Node) (l : list op) : Node * list event :=
  match l with
  | [] => (n, [])
  | o :: l => let '(n, ev) := do_op n o in let '(n, ev') := do_ops n l in (n, ev ++ ev')
  end.

(** The node itself stores valid chunks. *)
Definition op_valid (o : op) : Prop := match o with OpPut _ ch => chunk_valid ch = true | _ => True end.

Lemma do_op_booked n o : node_ok n -> op_valid o -> booked n (do_op n o).1 (do_op n o).2.
Proof.
  intros Hn Ho. destruct o as [p|e route root ca index d|e route root ca index|e peer full req|root ch]; cbn [do_op].
  - destruct (reserve n p) as [n' r] eqn:Er. by eapply reserve_booked.
  - destruct (deliver _ _ _ _ _ _ _) as [[n' ev] r] eqn:Ed. by apply deliver_booked in Ed as [? _].
  - destruct (retrieveChunk _ _ _ _ _ _) as [[[n' ev] r] f] eqn:Er. by apply retrieveChunk_booked in Er as [? _].
  - destruct (handler _ _ _ _ _) as [[n' ev] r] eqn:Eh. by eapply handler_booked.
  - destruct (storer_Put _ _ _) as [st r] eqn:Ep. cbn [fst snd]. apply booked_same; [done|by apply books_same_refl, Hn|].
    eapply store_valid_put; [apply Hn|exact Ho|exact Ep].
Qed.

Lemma do_ops_booked l : forall n, node_ok n -> Forall op_valid l -> booked n (do_ops n l).1 (do_ops n l).2.
Proof.
  induction l as [|o l IH]; intros n Hn Hl; cbn [do_ops]; [by apply booked_refl|].
  inversion_clear Hl as [|?? Ho Hl']. pose proof (do_op_booked n o Hn Ho) as H1. destruct (do_op n o) as [n1 ev1].
  cbn [fst snd] in H1. pose proof (IH n1 (bk_ok _ _ _ H1) Hl') as H2. destruct (do_ops n1 l) as [n2 ev2].
  cbn [fst snd] in *. by eapply booked_trans.
Qed.

(** ** What a failed request leaves *)

Lemma reserve_aco n p n' r : reserve n p = (n', r) -> acoServer n' = acoServer n.
Proof. unfold reserve. destruct (Reserve _ _ _ _) as [[a t] []]; by intros [= <- _]. Qed.

Lemma reserve_set_aco n x p : (reserve (set_aco n x) p).2 = (reserve n p).2.
Proof. unfold reserve. cbn [accounting settlement set_aco]. by destruct (Reserve _ _ _ _) as [[a t] []]. Qed.

Lemma deliver_aco e n route root ca index d n' ev r : deliver e n route root ca index d = (n', ev, r) -> acoServer n' = acoServer n.
Proof.
  unfold deliver. destruct (chunk_valid _); cbn [negb]; [|by intros [= <- _ _]].
  destruct (Credit _ _ _ _) as [[[a t] pays] [[]|]]; [|by intros [= <- _ _]].
  destruct (OnRetrieved _ _ _ _ _ _) as [c [[]|]]; [|by intros [= <- _ _]].
  destruct (storer_Put _ _ _) as [st []]; by intros [= <- _ _].
Qed.

Lemma fetch_late e n route root ca index n' ev r size late : connected e = true -> (reserve n (LinkNode route)).2 = Ok tt ->
  fetch e n route root ca index = (n', ev, r, size, late) -> late = true /\ acoServer n' = acoServer n.
Proof.
  intros Hc Hr. unfold fetch. rewrite Hc. cbn [negb]. destruct (reserve n _) as [n1 r1] eqn:Er. cbn [snd] in Hr. subst r1.
  apply reserve_aco in Er. destruct (opened e); cbn [negb]; [|by intros [= <- _ _ _ <-]].
  destruct (written e); cbn [negb]; [|by intros [= <- _ _ _ <-]]. destruct (reply e) as [d|]; [|by intros [= <- _ _ _ <-]].
  destruct (deliver _ _ _ _ _ _ _) as [[n2 ev2] r2] eqn:Ed. intros [= <- _ _ _ <-]. apply deliver_aco in Ed. split; [done|congruence].
Qed.

(** The measurement of a route, all zero before the first. *)
Definition measured (s : AcoServer) (route : Route) : DownloadDetail :=
  match s !! ToString route with Some m => downloadDetail m | None => MkDetail 0 0 0 end.

Lemma measured_start_end s route : measured (OnDownloadEnd (OnDownloadStart s route) route) route = measured s route.
Proof.
  unfold measured, OnDownloadEnd, OnDownloadStart. destruct (s !! ToString route) as [m|] eqn:Em.
  - rewrite lookup_insert_eq. cbn [downloadCount]. destruct (0 <? _); rewrite lookup_insert_eq; done.
  - rewrite lookup_insert_eq. cbn. by rewrite lookup_insert_eq.
Qed.

(** ** A request with a negative index *)

Lemma next_bits_negative old k l : k <= -8 -> l <= -16 -> (forall bv, old = Some bv -> wf bv) -> next_bits old k l = Err panicked.
Proof.
  intros Hk Hl Hold. unfold next_bits. destruct old as [bv|].
  - destruct (Hold bv eq_refl) as [Hw _]. destruct (Z.ltb_spec (Len bv) l); [unfold Len in *; lia|].
    unfold BitVector.Get, byte_at. rewrite (proj2 (Z.ltb_lt (Z.quot k 8) 0)); [done|]. Z.quot_rem_to_equations. lia.
  - unfold BitVector.New. match goal with |- context [?x <? 0] => assert (Hn : x < 0) end.
    { case_match; Z.quot_rem_to_equations; lia. }
    by rewrite (proj2 (Z.ltb_lt _ _) Hn).
Qed.

Lemma OnTransferred_negative now (c : ChunkInfo S) root index overlay : - 2 ^ 63 <= index <= -17 ->
  (forall bv, find (service (cstore c)) root overlay = Some bv -> wf bv) ->
  (OnTransferred now c root index overlay).2 = Err panicked.
Proof.
  intros Hi Hw. unfold OnTransferred, updateService. rewrite i64_small by lia. cbn [Has ChunkStore.Put put_each Overlay Bit PLen].
  unfold putChunkService, put_bit. by rewrite next_bits_negative by (done || lia).
Qed.
End Retrieval.

(** * Properties *)

(** C10: whatever peers send and in whatever order the reservations and deliveries
    of its requests and the answers to other nodes follow one another, a node keeps
    and delivers only chunks that are valid for their addresses, and it books no
    more than what changed hands: its debt to a peer grows at most by the traffic of
    the valid chunks it received from the peer, and what a peer owes it grows at
    most by that of the chunks it delivered to the peer. *)
Theorem retrieval_books `{BS : BmtSum} `{EC : Ecdsa} {T E : Type} `{SE : Settlement T E} `{SL : !SettlementLaws T E}
    {S V : Type} `{ST : StateStorer S V} `{CB' : Codec BitVector V} {St : Type} `{SR : Storer St}
    (n n' : Node (T := T) (S := S) (St := St)) (l : list op) (ev : list event)
    (Hgood : sgood (settlement n)) (Hstore : store_valid (storer n)) (Hl : Forall op_valid l) (Hrun : do_ops n l = (n', ev)) :
  (forall a d, storer_Get (storer n') a = Ok d -> chunk_valid (NewChunk a d) = true) /\
  (forall peer a d, Delivered peer a d ∈ ev -> chunk_valid (NewChunk a d) = true) /\
  (forall peer, debt (settlement n') peer <= debt (settlement n) peer + traffic * received peer ev) /\
  (forall peer, owed (settlement n') peer <= owed (settlement n) peer + traffic * delivered peer ev).
Proof.
  pose proof (do_ops_booked l n (conj Hgood Hstore) Hl) as [[_ H1] H2 H3 H4]. rewrite Hrun in *. cbn [fst snd] in *.
  split; [done|]. split; [|split; intros peer; [apply H2|apply H3]].
  intros peer a d Hin. apply list_elem_of_lookup in Hin as [i Hi]. exact (Forall_lookup_1 _ _ _ _ H4 Hi).
Qed.

(** C39: once a request has got past the accounting, its failure leaves no trace: unless
    the timeout was reached, the route keeps its measurement and no other route is
    looked for, because the context is cancelled before it is examined. *)
Theorem failure_unrecorded `{BS : BmtSum} `{EC : Ecdsa} {T E : Type} `{SE : Settlement T E}
    {S V : Type} `{ST : StateStorer S V} `{CB' : Codec BitVector V} {St : Type} `{SR : Storer St}
    (e : Net) (n n' : Node (T := T) (S := S) (St := St)) (route : Route) (rootAddr chunkAddr : Address) (index : Z)
    (ev : list event) (x : retrievalError E) (found : bool)
    (Hconnected : connected e = true) (Hreserved : (reserve n (LinkNode route)).2 = Ok tt) (Htime : timedOut e = false)
    (Hrun : retrieveChunk e n route rootAddr chunkAddr index = (n', ev, Err x, found)) :
  found = false /\ measured (acoServer n') route = measured (acoServer n) route.
Proof.
  unfold retrieveChunk in Hrun. set (n0 := set_aco n _) in Hrun.
  destruct (fetch e n0 route rootAddr chunkAddr index) as [[[[n1 ev1] r1] size] late] eqn:Ef.
  apply fetch_late in Ef as [-> Ha]; [|done|by unfold n0; rewrite reserve_set_aco]. injection Hrun as <- _ -> <-. rewrite Htime. cbn [negb is_err andb orb].
  split; [done|]. cbn [acoServer set_aco]. rewrite Ha. apply measured_start_end.
Qed.

(** C38: a full node can crash the node it asks for a chunk that is there: an index of
    -17 or less makes the update of the peer's vector panic. *)
Theorem handler_panics `{BS : BmtSum} `{EC : Ecdsa} {T E : Type} `{SE : Settlement T E}
    {S V : Type} `{ST : StateStorer S V} `{CB' : Codec BitVector V} {St : Type} `{SR : Storer St}
    (e : Net) (n : Node (T := T) (S := S) (St := St)) (peer : Address) (req : RequestChunk) (d : bytes) (a : Accounting) (t : T)
    (Hget : storer_Get (storer n) (ChunkAddr req) = Ok d) (Hsent : sent e = true)
    (Hdebit : Debit peer traffic (accounting n) (settlement n) = (a, t, Ok tt))
    (Hindex : - 2 ^ 63 <= rBit req <= -17)
    (Hwf : forall bv, find (service (cstore (chunkinfo n))) (RootAddr req) peer = Some bv -> wf bv) :
  (handler e n peer true req).2 = Err (errChunkInfo panicked).
Proof.
  unfold handler, transfer. rewrite Hget, Hsent, Hdebit. cbn [negb chunkinfo set_books].
  pose proof (OnTransferred_negative (time e) (chunkinfo n) (RootAddr req) (rBit req) peer Hindex Hwf) as Hp.
  destruct (OnTransferred _ _ _ _ _) as [c r]. cbn [snd] in Hp. by subst r.
Qed.

(** ** Examples *)

#[refine] Definition memory_storer : Storer (gmap bytes bytes) := {|
  storer_Get st a := match st !! a with Some d => Ok d | None => Err storerNotFound end;
  storer_Put st _ ch := (<[Boson.addr ch := sdata ch]> st, Ok false) |}.
Proof.
  - intros st root ch st' r a d [= <- _]. rewrite lookup_insert. case_decide as Ha; [|by left].
    subst a. intros [= <-]. by right.
  - intros st root ch st' x [= <- _]. exists (sdata ch). by rewrite lookup_insert_eq.
Defined.

Module fetched.
#[local] Existing Instance toy_bmt.
#[local] Existing Instance toy_ecdsa.
#[local] Existing Instance toy_settlement.
#[local] Existing Instance toy_laws.
#[local] Existing Instance memory_store.
#[local] Existing Instance bits_codec.
#[local] Existing Instance memory_storer.

Definition data : bytes := [3; 0; 0; 0; 0; 0; 0; 0; 1; 2; 3].
Definition address : Address := cac.hasher (drop SpanSize data) (take SpanSize data).

Definition node : Node (T := gmap bytes (Z * Z)) (S := gmap bytes BitVector) (St := gmap bytes bytes) :=
  MkNode ∅ (NewAccounting 300 200) ∅ [] (New [9] (ChunkStore.New ∅)) ∅ true.

Definition answers (d : bytes) : Net :=
  {| connected := true; opened := true; written := true; reply := Some d; timedOut := false; parentDone := false;
     startMs := 0; endMs := 5; time := 1; sent := true; inTime := true |}.

Definition route : Route := MkRoute [3] [3].

(** The chunk is fetched from one peer and served to another. *)
Definition ops : list op :=
  [OpRetrieve (answers data) route [7] address 0;
   OpHandle (answers data) [5] true {| TargetAddr := [9]; RootAddr := [7]; ChunkAddr := address; rBit := 0 |}].

Definition run := do_ops node ops.

Lemma retrieval_books_witness : Delivered [5] address data ∈ run.2 /\ chunk_valid (NewChunk address data) = true /\
  debt (settlement run.1) (Boson.String [3]) <= 256.
Proof.
  destruct (retrieval_books node run.1 ops run.2) as (_ & Hd & Hdebt & _).
  - apply toy_good.
  - intros a d. cbn. by rewrite lookup_empty.
  - by repeat constructor.
  - unfold run. by destruct (do_ops node ops).
  - assert (Hin : Delivered [5] address data ∈ run.2) by (vm_compute; right; left).
    split; [exact Hin|]. split; [exact (Hd _ _ _ Hin)|]. exact (Hdebt (Boson.String [3])).
Defined.

(** A peer that answers with bytes that are no chunk. *)
Lemma failure_unrecorded_witness :
  measured (acoServer (retrieveChunk (answers [0]) node route [7] address 0).1.1.1) route = MkDetail 0 0 0.
Proof.
  destruct (retrieveChunk (answers [0]) node route [7] address 0) as [[[n ev] r] f] eqn:Er. cbn [fst].
  refine (proj2 (failure_unrecorded (answers [0]) node n route [7] address 0 ev ErrInvalidChunk f eq_refl _ eq_refl _)).
  - vm_compute. reflexivity.
  - rewrite Er. f_equal. f_equal. transitivity (retrieveChunk (answers [0]) node route [7] address 0).1.2; [by rewrite Er|].
    vm_compute. reflexivity.
Defined.

Definition served : Node (T := gmap bytes (Z * Z)) (S := gmap bytes BitVector) (St := gmap bytes bytes) := set_storer node {[address := data]}.

Lemma handler_panics_witness :
  (handler (answers []) served [5] true {| TargetAddr := [9]; RootAddr := [7]; ChunkAddr := address; rBit := -17 |}).2
  = Err (errChunkInfo panicked).
Proof.
  set (req := {| TargetAddr := [9]; RootAddr := [7]; ChunkAddr := address; rBit := -17 |}).
  destruct (Debit [5] traffic (accounting served) (settlement served)) as [[a t] r] eqn:Ed.
  apply (handler_panics (answers []) served [5] req data a t); [reflexivity|reflexivity| |cbn; lia|].
  - rewrite Ed. f_equal. transitivity (Debit [5] traffic (accounting served) (settlement served)).2; [by rewrite Ed|].
    vm_compute. reflexivity.
  - intros bv Hf. vm_compute in Hf. discriminate Hf.
Defined.
End fetched.
