(* ===== verification/RetrievalRoutes.v ===== *)
(** * Trying routes one after another ([RetrieveChunk] of pkg/retrieval)

    For every route, in two rounds, a goroutine runs [retrieveChunk] and sends its
    result on a channel of five places; the loop waits for a result or the next
    tick of a timer and goes on.  A step is one of the loop or of a goroutine; a
    goroutine may take any time and give any result a call of [retrieveChunk] can
    have.  The goroutines of a round share the variable of its loop (go.mod asks for
    Go 1.18): each takes the route the variable has when it starts to run.  The
    context of the call is a fresh one that is never cancelled.

    [RetrieveChunk_valid]: a chunk that is returned is valid for the address asked
    for.  [RetrieveChunk_ends]: the loop never waits in vain and takes at most four
    steps per route.  [RetrieveChunk_leaks]: the channel is too small for the late
    results, so that goroutines can stay blocked for ever.  [RetrieveChunk_skips]: a
    route of the list may never be asked, because of the shared variable. *)

From Stdlib Require Import ZArith Lia ZifyBool.
From stdpp Require Import base gmap list numbers strings.
From S2P Require Import Prelude StateStore Crypto Chunk Accounting BitVector ChunkStore Aco ChunkInfo Boson Retrieval.

Section Loop.
Context {R : Type} (possible : Route -> option R -> Prop).

(** A goroutine before it runs, in [retrieveChunk], and after it; [None] is an error. *)
Inductive goroutine := Starting (round : nat) | Asking (route : Route) | Sending (res : option R).

Record call := MkCall {
  todo : list (nat * Route);
  retrievalRoute : gmap nat Route;
  waiting : bool;
  goroutines : gmap nat goroutine;
  resultC : list (option R);
  outcome : option (option R);
}.

(** The routes of the first round, then those of the second; [retrievalRoute] is the
    variable of each round. *)
Definition begin (routeList : list Route) : call :=
  MkCall (round ← seq 0 maxRequestAttempt; (fun r => (round, r)) <$> routeList) ∅ false ∅ [] (match routeList with [] => Some None | _ => None end).

(** The steps of the loop. *)
Inductive main_step (c : call) : call -> Prop :=
| m_next i r l j : outcome c = None -> waiting c = false -> todo c = (i, r) :: l -> goroutines c !! j = None ->
    main_step c (MkCall l (<[i := r]> (retrievalRoute c)) true (<[j := Starting i]> (goroutines c)) (resultC c) None)
| m_end : outcome c = None -> waiting c = false -> todo c = [] ->
    main_step c (MkCall [] (retrievalRoute c) false (goroutines c) (resultC c) (Some None))
| m_tick : outcome c = None -> waiting c = true ->
    main_step c (MkCall (todo c) (retrievalRoute c) false (goroutines c) (resultC c) None)
| m_chunk ch l : outcome c = None -> waiting c = true -> resultC c = Some ch :: l ->
    main_step c (MkCall (todo c) (retrievalRoute c) false (goroutines c) l (Some (Some ch)))
| m_error l : outcome c = None -> waiting c = true -> resultC c = None :: l ->
    main_step c (MkCall (todo c) (retrievalRoute c) false (goroutines c) l None).

Inductive goroutine_step (c : call) : call -> Prop :=
| g_start j i r : goroutines c !! j = Some (Starting i) -> retrievalRoute c !! i = Some r ->
    goroutine_step c (MkCall (todo c) (retrievalRoute c) (waiting c) (<[j := Asking r]> (goroutines c)) (resultC c) (outcome c))
| g_done j r res : goroutines c !! j = Some (Asking r) -> possible r res ->
    goroutine_step c (MkCall (todo c) (retrievalRoute c) (waiting c) (<[j := Sending res]> (goroutines c)) (resultC c) (outcome c))
| g_send j res : goroutines c !! j = Some (Sending res) -> (length (resultC c) < totalRouteCount)%nat ->
    goroutine_step c (MkCall (todo c) (retrievalRoute c) (waiting c) (delete j (goroutines c)) (resultC c ++ [res]) (outcome c)).

Definition cstep (c c' : call) : Prop := main_step c c' \/ goroutine_step c c'.

(** Runs with the number of steps of the loop. *)
Inductive runs : nat -> call -> call -> Prop :=
| run_refl c : runs 0 c c
| run_main k c1 c2 c3 : main_step c1 c2 -> runs k c2 c3 -> runs (S k) c1 c3
| run_goroutine k c1 c2 c3 : goroutine_step c1 c2 -> runs k c2 c3 -> runs k c1 c3.

(** ** Results come from calls *)

(** Every result on its way is one that a call over a route of the list can have. *)
Record sourced (routes : list Route) (c : call) : Prop := {
  sr_todo : Forall (fun ir => ir.2 ∈ routes) (todo c);
  sr_variable i r : retrievalRoute c !! i = Some r -> r ∈ routes;
  sr_asking j r : goroutines c !! j = Some (Asking r) -> r ∈ routes;
  sr_sending j res : goroutines c !! j = Some (Sending res) -> exists r, r ∈ routes /\ possible r res;
  sr_chan : Forall (fun res => exists r, r ∈ routes /\ possible r res) (resultC c);
  sr_outcome ch : outcome c = Some (Some ch) -> exists r, r ∈ routes /\ possible r (Some ch);
}.

Lemma main_sourced routes c c' : sourced routes c -> main_step c c' -> sourced routes c'.
Proof.
  intros [H1 HV H2 H3 H4 H5] [i r l j Ho Hw Ht Hj|Ho Hw Ht|Ho Hw|ch l Ho Hw Hc|l Ho Hw Hc]; split; cbn; try done.
  - rewrite Ht in H1. by inversion_clear H1.
  - intros k r' [[_ [= <-]]|[_ Hk]]%lookup_insert_Some; [|by apply (HV k)]. rewrite Ht in H1. by inversion_clear H1.
  - intros k r' [[_ ?]|[_ Hk]]%lookup_insert_Some; [done|by apply (H2 k)].
  - intros k res [[_ ?]|[_ Hk]]%lookup_insert_Some; [done|by apply (H3 k)].
  - rewrite Hc in H4. by inversion_clear H4.
  - intros ch' [= <-]. rewrite Hc in H4. by inversion_clear H4.
  - rewrite Hc in H4. by inversion_clear H4.
Qed.

Lemma goroutine_sourced routes c c' : sourced routes c -> goroutine_step c c' -> sourced routes c'.
Proof.
  intros [H1 HV H2 H3 H4 H5] [j i r Hj Hr|j r res Hj Hp|j res Hj Hl]; split; cbn; try done.
  - intros k r' [[_ [= <-]]|[_ Hk]]%lookup_insert_Some; [by apply (HV i)|by apply (H2 k)].
  - intros k res' [[_ ?]|[_ Hk]]%lookup_insert_Some; [done|by apply (H3 k)].
  - intros k r' [[_ ?]|[_ Hk]]%lookup_insert_Some; [done|by apply (H2 k)].
  - intros k res' [[_ [= <-]]|[_ Hk]]%lookup_insert_Some; [|by apply (H3 k)]. exists r. split; [by apply (H2 j)|done].
  - intros k r' [_ Hk]%lookup_delete_Some. by apply (H2 k).
  - intros k res' [_ Hk]%lookup_delete_Some. by apply (H3 k).
  - apply Forall_app. split; [done|]. constructor; [by apply (H3 j)|constructor].
Qed.

Lemma begin_sourced routes : sourced routes (begin routes).
Proof.
  split; cbn; try done; try constructor.
  - rewrite app_nil_r. apply Forall_app. split; apply Forall_fmap, Forall_forall; done.
  - by destruct routes.
Qed.

Lemma runs_sourced routes k c c' : runs k c c' -> sourced routes c -> sourced routes c'.
Proof. induction 1; eauto using main_sourced, goroutine_sourced. Qed.

(** ** The loop ends *)

(** What is left to do. *)
Definition left (c : call) : nat :=
  match outcome c with Some _ => 0 | None => 2 * length (todo c) + (if waiting c then 1 else 0) + 1 end.

Lemma main_left c c' : main_step c c' -> (left c' < left c)%nat.
Proof.
  intros [i r l j Ho Hw Ht Hj|Ho Hw Ht|Ho Hw|ch l Ho Hw Hc|l Ho Hw Hc]; unfold left; cbn; rewrite Ho, ?Hw, ?Ht; cbn [length]; lia.
Qed.

Lemma goroutine_left c c' : goroutine_step c c' -> left c' = left c.
Proof. by intros [j i r Hj Hr|j r res Hj Hp|j res Hj Hl]. Qed.

Lemma runs_left k c c' : runs k c c' -> (k + left c' <= left c)%nat.
Proof.
  induction 1 as [c|k c1 c2 c3 Hm _ IH|k c1 c2 c3 Hg _ IH]; [lia| |].
  - apply main_left in Hm. lia.
  - apply goroutine_left in Hg. lia.
Qed.

Lemma main_ready c : outcome c = None -> exists c', main_step c c'.
Proof.
  intros Ho. destruct (waiting c) eqn:Hw; [eexists; by apply m_tick|].
  destruct (todo c) as [|[i r] l] eqn:Ht; [eexists; by apply m_end|].
  eexists. apply (m_next c i r l (base.fresh (dom (goroutines c)))); try done. apply not_elem_of_dom, is_fresh.
Qed.

(** ** Goroutines that stay *)

Lemma sending_stays c c' j res : is_Some (outcome c) -> (totalRouteCount <= length (resultC c))%nat ->
  goroutines c !! j = Some (Sending res) -> rtc cstep c c' -> goroutines c' !! j = Some (Sending res).
Proof.
  intros Ho Hl Hj Hr. revert Ho Hl Hj. induction Hr as [c|c1 c2 c3 [Hm|Hg] _ IH]; intros Ho Hl Hj; [done| |].
  - destruct Ho as [x Ho]. by destruct Hm; congruence.
  - destruct Hg as [k i r Hk Hr|k r res' Hk Hp|k res' Hk Hlen]; [| |lia]; (apply IH; [done|done|]; cbn; rewrite lookup_insert_ne; [done|congruence]).
Qed.

(** ** Schedules *)

Inductive act := ANext (j : nat) | AStart (j : nat) | ATick | AReceive | ADone (j : nat) | ASend (j : nat).

(** One step, all calls of [retrieveChunk] returning the same chunk. *)
Definition act_step (ch : R) (c : call) (a : act) : option call :=
  match a with
  | ANext j =>
      match outcome c, waiting c, todo c, goroutines c !! j with
      | None, false, (i, r) :: l, None =>
          Some (MkCall l (<[i := r]> (retrievalRoute c)) true (<[j := Starting i]> (goroutines c)) (resultC c) None)
      | _, _, _, _ => None
      end
  | AStart j =>
      match goroutines c !! j with
      | Some (Starting i) =>
          r ← retrievalRoute c !! i;
          Some (MkCall (todo c) (retrievalRoute c) (waiting c) (<[j := Asking r]> (goroutines c)) (resultC c) (outcome c))
      | _ => None
      end
  | ATick =>
      match outcome c, waiting c with
      | None, true => Some (MkCall (todo c) (retrievalRoute c) false (goroutines c) (resultC c) None)
      | _, _ => None
      end
  | AReceive =>
      match outcome c, waiting c, resultC c with
      | None, true, Some x :: l => Some (MkCall (todo c) (retrievalRoute c) false (goroutines c) l (Some (Some x)))
      | _, _, _ => None
      end
  | ADone j =>
      match goroutines c !! j with
      | Some (Asking r) => Some (MkCall (todo c) (retrievalRoute c) (waiting c) (<[j := Sending (Some ch)]> (goroutines c)) (resultC c) (outcome c))
      | _ => None
      end
  | ASend j =>
      match goroutines c !! j with
      | Some (Sending res) =>
          if (length (resultC c) <? totalRouteCount)%nat
          then Some (MkCall (todo c) (retrievalRoute c) (waiting c) (delete j (goroutines c)) (resultC c ++ [res]) (outcome c)) else None
      | _ => None
      end
  end.

Fixpoint play (ch : R) (c : call) (l : list act) : option call :=
  match l with
  | [] => Some c
  | a :: l => c ← act_step ch c a; play ch c l
  end.

Lemma act_step_cstep routes ch c a c' : (forall r, r ∈ routes -> possible r (Some ch)) -> sourced routes c ->
  act_step ch c a = Some c' -> cstep c c'.
Proof.
  intros Hp Hs. destruct a as [j|j| | |j|j]; cbn [act_step].
  - destruct (outcome c) eqn:Ho; [done|]. destruct (waiting c) eqn:Hw; [done|]. destruct (todo c) as [|[i r] l] eqn:Ht; [done|].
    destruct (goroutines c !! j) eqn:Hj; [done|]. intros [= <-]. left. by apply m_next.
  - destruct (goroutines c !! j) as [[i| |]|] eqn:Hj; try done. destruct (retrievalRoute c !! i) as [r|] eqn:Hr; [|done].
    intros [= <-]. right. by apply (g_start c j i r).
  - destruct (outcome c) eqn:Ho; [done|]. destruct (waiting c) eqn:Hw; [|done]. intros [= <-]. left. by apply m_tick.
  - destruct (outcome c) eqn:Ho; [done|]. destruct (waiting c) eqn:Hw; [|done]. destruct (resultC c) as [|[x|] l] eqn:Hc; try done.
    intros [= <-]. left. by apply m_chunk.
  - destruct (goroutines c !! j) as [[|r|]|] eqn:Hj; try done. intros [= <-]. right. apply (g_done c j r); [done|].
    apply Hp. by apply (sr_asking _ _ Hs j).
  - destruct (goroutines c !! j) as [[| |res]|] eqn:Hj; try done. destruct (Nat.ltb_spec (length (resultC c)) totalRouteCount); [|done].
    intros [= <-]. right. by apply g_send.
Qed.

Lemma schedule_reaches routes ch l : forall c c', (forall r, r ∈ routes -> possible r (Some ch)) -> sourced routes c ->
  play ch c l = Some c' -> rtc cstep c c'.
Proof.
  induction l as [|a l IH]; intros c c' Hp Hs; cbn [play]; [by intros [= <-]|].
  intros E. apply bind_Some in E as (c1 & H1 & E). pose proof (act_step_cstep _ _ _ _ _ Hp Hs H1) as Hc.
  eapply rtc_l; [done|]. apply IH; [done| |done]. destruct Hc; [by eapply main_sourced|by eapply goroutine_sourced].
Qed.
End Loop.

(** Nine routes are too slow, the tenth call answers; then the others answer too. *)
Definition late_answers : list act :=
  mjoin (map (fun j => [ANext j; AStart j; ATick]) (seq 0 9)) ++ [ANext 9; AStart 9; ADone 9; ASend 9; AReceive] ++
  map ADone (seq 0 9) ++ map ASend (seq 0 5).

(** ** Calls of [retrieveChunk] *)

Section Calls.
Context `{BS : BmtSum} `{EC : Ecdsa} {T E : Type} `{SE : Settlement T E}.
Context {S V : Type} `{ST : StateStorer S V} `{CB' : Codec BitVector V} {St : Type} `{SR : Storer St}.

(** A result that [retrieveChunk] can have for a route. *)
Definition fetches (rootAddr chunkAddr : Address) (index : Z) (route : Route) (res : option chunk) : Prop :=
  exists (e : Net) (n : Node (T := T) (S := S) (St := St)),
    match (retrieveChunk e n route rootAddr chunkAddr index).1.2 with Ok ch => res = Some ch | Err _ => res = None end.

Lemma deliver_valid e (n : Node (T := T) (S := S) (St := St)) route root ca index d ch :
  (deliver e n route root ca index d).2 = Ok ch -> chunk_valid ch = true /\ Boson.addr ch = ca.
Proof.
  unfold deliver. destruct (chunk_valid (NewChunk ca d)) eqn:Hv; cbn [negb]; [|done].
  destruct (Credit _ _ _ _) as [[[a t] pays] [[]|]]; [|done]. destruct (OnRetrieved _ _ _ _ _ _) as [c [[]|]]; [|done].
  destruct (storer_Put _ _ _) as [st []]; [|done]. by intros [= <-].
Qed.

Lemma fetches_valid rootAddr chunkAddr index route ch : fetches rootAddr chunkAddr index route (Some ch) ->
  chunk_valid ch = true /\ Boson.addr ch = chunkAddr.
Proof.
  intros (e & n & Hr). unfold retrieveChunk in Hr. set (n0 := set_aco n _) in Hr.
  destruct (fetch e n0 route rootAddr chunkAddr index) as [[[[n1 ev1] r1] size] late] eqn:Ef. cbn [fst snd] in Hr.
  destruct r1 as [ch'|]; [|done]. injection Hr as ->. unfold fetch in Ef. destruct (connected e); [|done].
  destruct (reserve n0 _) as [n2 [[]|]]; [|done]. cbn [negb] in Ef. destruct (opened e); [|done]. destruct (written e); [|done].
  cbn [negb] in Ef. destruct (reply e) as [d|]; [|done]. injection Ef as Ed _ _.
  apply (deliver_valid e n2 route rootAddr chunkAddr index d). by rewrite Ed.
Qed.
End Calls.

(** * Properties *)

(** A chunk that [RetrieveChunk] returns is valid and has the address asked for,
    whatever the peers answer and in whatever order goroutines and timer run. *)
Theorem RetrieveChunk_valid `{BS : BmtSum} `{EC : Ecdsa} {T E : Type} `{SE : Settlement T E}
    {S V : Type} `{ST : StateStorer S V} `{CB' : Codec BitVector V} {St : Type} `{SR : Storer St}
    (routes : list Route) (rootAddr chunkAddr : Address) (index : Z) (k : nat) (c : call) (ch : chunk)
    (Hrun : runs (fetches (T := T) (S := S) (St := St) rootAddr chunkAddr index) k (begin routes) c)
    (Hout : outcome c = Some (Some ch)) :
  chunk_valid ch = true /\ Boson.addr ch = chunkAddr.
Proof.
  apply (runs_sourced _ routes) in Hrun as Hs; [|apply begin_sourced].
  destruct (sr_outcome _ _ _ Hs ch Hout) as (r & _ & Hf). by eapply fetches_valid.
Qed.

(** C22: the loop of [RetrieveChunk] always ends: it takes at most four steps for each
    route and one more, and as long as it has not returned it can go on. *)
Theorem RetrieveChunk_ends {R : Type} (possible : Route -> option R -> Prop) (routes : list Route) (k : nat) (c : call)
    (Hrun : runs possible k (begin routes) c) :
  (k <= 4 * length routes + 1)%nat /\ (outcome c = None -> exists c', main_step c c').
Proof.
  split; [|apply main_ready]. apply runs_left in Hrun. unfold left at 2, begin in Hrun. cbn in Hrun.
  rewrite app_nil_r, length_app, !length_fmap in Hrun. destruct routes; cbn [length] in *; lia.
Qed.

(** Goroutines of [RetrieveChunk] can stay blocked for ever: with five routes, ten
    calls are started, and the channel holds five results when the call returns. *)
Theorem RetrieveChunk_leaks {R : Type} (possible : Route -> option R -> Prop) (r0 r1 r2 r3 r4 : Route) (ch : R)
    (Hpossible : forall r, r ∈ [r0; r1; r2; r3; r4] -> possible r (Some ch)) :
  exists c j, rtc (cstep possible) (begin [r0; r1; r2; r3; r4]) c /\ outcome c = Some (Some ch) /\
    goroutines c !! j = Some (Sending (Some ch)) /\
    forall c', rtc (cstep possible) c c' -> goroutines c' !! j = Some (Sending (Some ch)).
Proof.
  set (routes := [r0; r1; r2; r3; r4]) in *.
  assert (Hrun : (fun c => (outcome c, length (resultC c), goroutines c !! 8%nat)) <$> play ch (begin routes) late_answers
    = Some (Some (Some ch), 5%nat, Some (Sending (Some ch)))) by (vm_compute; reflexivity).
  apply fmap_Some in Hrun as (c & Hplay & Hc). injection Hc as Ho Hl Hj. exists c, 8%nat.
  split; [exact (schedule_reaches possible routes ch late_answers _ _ Hpossible (begin_sourced _ _) Hplay)|]. clear Hplay.
  split; [done|]. split; [done|]. intros c' Hr. apply (sending_stays possible c c');
    [by rewrite <- Ho|unfold totalRouteCount; lia|done|done].
Qed.

(** A route of the list may never be asked: when both goroutines of a round start to run
    once the loop is at the second route, both ask the second route. *)
Theorem RetrieveChunk_skips {R : Type} (possible : Route -> option R -> Prop) (r0 r1 : Route) :
  exists c, rtc (cstep possible) (begin [r0; r1]) c /\ todo c = [(1%nat, r0); (1%nat, r1)] /\
    goroutines c !! 0%nat = Some (Asking r1) /\ goroutines c !! 1%nat = Some (Asking r1).
Proof.
  eexists. split_and!.
  - eapply rtc_l; [left; by apply (m_next _ 0 r0 [(0%nat, r1); (1%nat, r0); (1%nat, r1)] 0)|].
    eapply rtc_l; [left; by apply m_tick|].
    eapply rtc_l; [left; by apply (m_next _ 0 r1 [(1%nat, r0); (1%nat, r1)] 1)|].
    eapply rtc_l; [right; by apply (g_start _ _ 0 0 r1)|].
    eapply rtc_l; [right; by apply (g_start _ _ 1 0 r1)|]. apply rtc_refl.
  - done.
  - done.
  - done.
Qed.

Section RoutesWitness.
#[local] Existing Instance toy_bmt.
#[local] Existing Instance toy_ecdsa.
#[local] Existing Instance toy_settlement.
#[local] Existing Instance memory_store.
#[local] Existing Instance bits_codec.
#[local] Existing Instance memory_storer.

Abbreviation chunk_fetches := (fetches (T := gmap bytes (Z * Z)) (S := gmap bytes BitVector) (St := gmap bytes bytes) [7] fetched.address 0).

Definition fetched_chunk : chunk := NewChunk fetched.address fetched.data.

Lemma fetched_possible : chunk_fetches fetched.route (Some fetched_chunk).
Proof.
  exists (fetched.answers fetched.data), fetched.node.
  assert (Hr : (retrieveChunk (fetched.answers fetched.data) fetched.node fetched.route [7] fetched.address 0).1.2 = Ok fetched_chunk)
    by (vm_compute; reflexivity).
  rewrite Hr. reflexivity.
Qed.

(** One route, which answers at once. *)
Lemma one_route : runs chunk_fetches 2 (begin [fetched.route]) (MkCall [(1%nat, fetched.route)] {[0%nat := fetched.route]} false ∅ [] (Some (Some fetched_chunk))).
Proof.
  eapply run_main; [by apply (m_next _ 0 fetched.route [(1%nat, fetched.route)] 0)|].
  eapply run_goroutine; [by apply (g_start _ _ 0 0 fetched.route)|].
  eapply run_goroutine; [apply (g_done _ _ 0 fetched.route (Some fetched_chunk)); [reflexivity|apply fetched_possible]|].
  eapply run_goroutine; [apply (g_send _ _ 0 (Some fetched_chunk)); [reflexivity|cbn; unfold totalRouteCount; lia]|].
  eapply run_main; [by apply (m_chunk _ fetched_chunk [])|]. apply run_refl.
Qed.

Lemma RetrieveChunk_valid_witness : chunk_valid fetched_chunk = true /\ Boson.addr fetched_chunk = fetched.address.
Proof. exact (RetrieveChunk_valid [fetched.route] [7] fetched.address 0 2 _ fetched_chunk one_route eq_refl). Defined.

Lemma RetrieveChunk_ends_witness : (2 <= 4 * length [fetched.route] + 1)%nat.
Proof. exact (proj1 (RetrieveChunk_ends chunk_fetches [fetched.route] 2 _ one_route)). Defined.

Lemma RetrieveChunk_leaks_witness :
  let r := fetched.route in exists c j, rtc (cstep chunk_fetches) (begin [r; r; r; r; r]) c /\
    goroutines c !! j = Some (Sending (Some fetched_chunk)).
Proof.
  intros r. destruct (RetrieveChunk_leaks chunk_fetches r r r r r fetched_chunk) as (c & j & Hc & _ & Hj & _).
  - intros r' Hr. apply list_elem_of_In in Hr. simpl in Hr. destruct Hr as [<-|[<-|[<-|[<-|[<-|[]]]]]]; exact fetched_possible.
  - exists c, j. split; [exact Hc|exact Hj].
Defined.
End RoutesWitness.
